(* ===== verification/_CoqProject ===== *)
-Q . S2P
Prelude.v
Stdio.v
SparseArray.v
SparseHistory.v
MyHash.v
Newc.v
Cpio.v
CpioLine.v
CpioTable.v
CpioWorker.v
CpioMain.v
CpioArgs.v
Lock.v
Xlock.v
Fair.v
LockLive.v
XlockDebug.v
XFair.v
Counter.v
CounterMain.v
CounterFair.v
Xsem.v
XsemFair.v
Psem.v
PsemFair.v
Sem.v
SemInst.v
TestSem.v
SemMain.v
TestSemFair.v
Ring.v
BitArray.v
Pci.v
RtTask.v
LargeMult.v
Strstr.v
StrstrMain.v
Puzzles.v
AllocStats.v
MallocStats.v
MallocHcreate.v
Trackers.v
Uevent.v
CpuHogd.v
FsSlammer.v
FsMain.v
FsTotals.v
Frw.v
Pipe.v
Udp.v
Tsearch.v
Cpukhz.v
Arp.v
