(* ===== verification/Prelude.v ===== *)
(** * sugarnspice: a verification library

    The repository is a collection of C programs for Linux, most of them one file
    each, that exercise the operating system: the scheduler, futexes, pipes, memory,
    netlink. Some of them hold logic of their own, and those are modelled here: a
    multi-threaded generator of cpio archives, a futex lock with two semaphores built
    on it, data structures, allocation trackers, daemons and load generators. The
    development is a shallow embedding: every function of the source is a Rocq
    function (or a step of a transition system, where threads interleave), under the
    source's name where that is possible.

    ** Conventions

    [res] below is the outcome of a piece of C: [Ok v], [Undef] for undefined
    behaviour (an access outside an object, a read of an indeterminate value, signed
    overflow, a bad shift), [NoFuel] when the bound given to a loop was too small. A
    theorem that a function returns [Ok] therefore says that it stays in bounds, does
    not overflow and terminates. Integers are [Z], with [int_of] where an [int] must
    not overflow and [uwrap] where an unsigned type wraps; memory blocks are lists of
    cells, [None] being an indeterminate one; strings are lists of characters and end
    in [NUL] where that matters. The results of system calls, of [random] and of the
    clock are arguments. Programs are compiled with NDEBUG, as the Makefile does, so
    the debugging output and the assertions are empty. The parts of the C library the
    programs rely on are in Stdio.v ([sscanf], [strtok_r], number formats, streams);
    GLib's hash tables are an interface with the laws GLib documents (MallocStats.v).

    ** The files, and what they model

    The archive generator, src/gen_init_cpio.c, from its innermost part outwards:
    - Newc.v: the "newc" format, its encoder and a reader, as a specification;
    - Cpio.v: [push_*], [cpio_mk*], [cpio_trailer]: each appends one encoded entry;
    - CpioLine.v: the handlers that parse a line, [cpio_replace_env], the dispatch;
    - CpioTable.v: the reading of the list into the table;
    - CpioWorker.v: [write_to_stdout], [try_dump_to_stdout] and the loop of
      [worker_thread_routine] as steps of a thread over the shared output, the spin
      lock and the shared lines, which every worker measures and their owners free,
      with the invariant every step keeps;
    - CpioMain.v: the workers and main's loop that joins and flushes them, one
      interleaved program; an execution is a schedule of thread numbers;
    - CpioArgs.v: [main] with its options, failures and exit status.
    The theorems go from bytes to the whole program: an entry writer appends the
    encoding of an entry; a printed line is parsed back; whatever the interleaving, the
    program's output unpacks to the entries the list asks for, unless a worker comes to
    a line that its owner has freed already, when the program is undefined
    ([main_archive]). Which of the two happens is a function of the schedule
    ([late_read]). The reader of the specification is what "unpacks" means; the order of
    the entries and of the inode numbers depends on the schedule, their multiset does
    not.

    Synchronisation, in layers that meet only at interfaces:
    - Lock.v: the interface of a lock, a labelled transition system with laws;
    - Xlock.v: src/xlock.c implements it; mutual exclusion and no lost wake-up;
      XlockDebug.v: the tracing that [LOCK_DEBUG] adds to it;
    - Fair.v: infinite runs, weak fairness and its proof rules;
    - LockLive.v: the progress a lock promises to clients that keep to its protocol,
      and how the fairness of a client's run carries over to the lock;
    - XFair.v: the lock of Xlock.v keeps the promise; a fair run that starves one
      process;
    - Counter.v: src/test_int_update.c and src/test_xlock.c over the interface, the
      second with the failures of [open], what a lock file left locked does, and
      the unlocked version, which loses updates; CounterMain.v: the two programs from
      their arguments to their output, and the races of the file without the lock;
      CounterFair.v: their termination over any lock that keeps the promise;
    - Xsem.v: src/xsem.c over any lock of the interface; Psem.v: src/psem.c over a
      mutex and a condition variable with spurious wake-ups; both refine an abstract
      counting semaphore; XsemFair.v: progress of xsem over any lock that keeps the
      promise; PsemFair.v: progress of psem;
    - Sem.v and SemInst.v: the interface of a semaphore and its two instances;
      TestSem.v: the processes of src/test_sem.c over the interface, and with xsem
      and xlock; SemMain.v: its [main], which with the linked [xsem_create] does not
      get a semaphore to start them with; TestSemFair.v: the processes end;
    - Ring.v: the unsynchronised ring buffer of src/producer_test.c.

    Data structures and algorithms:
    - SparseArray.v, SparseHistory.v: src/test_sparse_array.c against finite maps, one
      call, its self test, and whole histories from the creation on, with every
      outcome of the allocations;
    - MyHash.v: src/test_myhash.c; BitArray.v: src/test_bitarray.c;
    - LargeMult.v: src/test_large_mult.c, [main] as a function of the way numbers are
      printed, since [bignum_print] makes it undefined;
    - Strstr.v, StrstrMain.v: src/my_strstr.c;
    - Puzzles.v: src/test_bsearch.c, test_brackets.c, test_mask.c, hist.c,
      test_hash.c and test_list.c, one Module each;
    - AllocStats.v, MallocStats.v, MallocHcreate.v, Trackers.v: the two allocation
      trackers src/malloc_stats.c and src/malloc_stats_hcreate.c, each against the
      history of events it must account for, and their equivalence.

    Daemons and tools, with the results of their system calls as arguments:
    - Uevent.v: src/recv_nl_uevent.c; CpuHogd.v: src/cpu_hogd.c and cpu_hogd_v0.c;
    - FsSlammer.v, FsMain.v, FsTotals.v: src/fs_slammer.c, its functions, its main and
      the racing additions of its threads; Frw.v: src/frw.c;
    - Pipe.v: src/pipe_writer.c and pipe_reader.c, and the pipe between them;
    - Udp.v: src/test_udp.c, the echo client and server, and the two together;
    - Tsearch.v: src/gnu_tsearch.c over an interface of the library's search tree;
    - Cpukhz.v: src/cpukhz.c; Arp.v: src/arp_add.c; Pci.v: src/pci_config_rw.c;
    - RtTask.v: src/rt_hydra.c, rt_task.c, run_cpu_affine.c, x86tscread.c, ts_task.c.

    ** What the theorems show

    Refinements and equivalences: the lock and the semaphores against their abstract
    machines, the sparse array against finite maps, the trackers against the history
    of events and against each other. Progress under fair schedulers: the futex lock,
    the semaphore on top of it, and the semaphore over a mutex and a condition; and
    termination, by a measure of what is left to do: of test_xlock with the lock it is
    linked with, and of the processes of test_sem with an initialised semaphore; and of
    gen_init_cpio under every scheduler that gives each thread turns again and again.
    Functional behaviour of whole programs: [main_archive], the self tests, the daemons
    for every sequence of commands, the reports of the trackers and of frw. Round
    trips: lines of the list, bits of the bit array, registers of pci_config_rw. Safety
    over all interleavings: one thread at a time writes to standard output, holds the
    lock, works under a semaphore of one. Where the code does not do what it means to,
    the theorem says what it does instead: lines read after they were freed, entries lost after a failed dump,
    success without a temporary file, a substitution that never returns, a test
    program that never gets its semaphore, a main undefined at its first print, numbers
    made of a variable nobody set, messages read beyond the buffer, shifts that clear
    the array, a real-time task that no longer sleeps, a hash table that reads slots
    nobody initialised, allocations nobody tests.

    ** Bounds and fuel

    Loops that end for a structural reason are recursions on the number of rounds
    left, computed the way the code computes its bound. The others take fuel, and
    their theorems show that it suffices: the length of the input for the list of
    files and the scanner of messages, the number of dollar signs for the environment
    substitution, twice the string's length for [my_strstr], 512 for the padding of
    the trailer, two nested calls for [hash_table_insert]. Where a loop does not end
    the theorem says that no fuel is enough. Sizes are bounded in the hypotheses by
    what the code's integer types hold.

    ** What is not modelled

    Outputs meant for a terminal (usage texts, debugging, [perror]), except where a
    theorem is about what is printed. Of gen_init_cpio.c, the run after the creation
    of a later worker fails: main frees what the earlier workers use; and the race of
    one worker's [strlen] with another's [strtok_r] on a line that is still there,
    which are taken in one order or the other. A failing [read] or [write] of the file
    of test_xlock.c, and, in the steps of the pipe, the wait of pipe_reader.c for
    whatever else is in its descriptor set (see [pipe_step]).
    src/xbarrier.c and wakeup_test_fork.c are unfinished and do not compile. The
    remaining programs are probes of one system call or one property of the compiler
    or the kernel (test_mmap*, test_fork*, test_socket, timers, signals),
    measurements (wakeup_test, sched_test, timerfd_test) and a floating-point time
    stamp that nothing calls (utils.c): there is nothing in them to prove but the
    library calls themselves. The conversions of text to floating-point numbers and
    of addresses (cpukhz.c, arp_add.c) are arguments.

    ** Plan

    Nothing of the program's own logic is left out; what may follow is the failed
    start of a later worker of gen_init_cpio.c, which needs a model of the freed
    objects its earlier workers go on using. *)
From stdpp Require Import base list gmap strings.
From Stdlib Require Import ZArith Lia Ascii.

Open Scope Z_scope.

(** ** Results of C code

    [Ok v] is normal completion; [Undef] is undefined behaviour of the C
    abstract machine (an access outside an object, a signed overflow, a read of
    an indeterminate value, a shift by too much); [NoFuel] only says that the
    bound given to a loop was too small, and every theorem about a loop shows
    that the stated fuel suffices. *)
Inductive res (A : Type) : Type :=
| Ok (a : A)
| Undef
| NoFuel.
Arguments Ok {A} _.
Arguments Undef {A}.
Arguments NoFuel {A}.

#[export] Instance res_ret : MRet res := fun A a => Ok a.
#[export] Instance res_bind : MBind res := fun A B f m =>
  match m with Ok a => f a | Undef => Undef | NoFuel => NoFuel end.

(** Guard a computation by a condition the C standard requires. *)
Definition ub_unless {A} (b : bool) (m : res A) : res A := if b then m else Undef.

Lemma bind_Ok {A B} (f : A -> res B) a : (Ok a ≫= f) = f a.
Proof. reflexivity. Qed.

Lemma bind_Undef {A B} (f : A -> res B) : (Undef ≫= f) = Undef.
Proof. reflexivity. Qed.

Lemma bind_NoFuel {A B} (f : A -> res B) : (NoFuel ≫= f) = NoFuel.
Proof. reflexivity. Qed.

Lemma bind_Ok_inv {A B} (f : A -> res B) m b :
  (m ≫= f) = Ok b -> exists a, m = Ok a /\ f a = Ok b.
Proof. destruct m; simpl; [eauto | discriminate..]. Qed.

Lemma bind_assoc {A B C} (m : res A) (f : A -> res B) (g : B -> res C) :
  ((m ≫= f) ≫= g) = (m ≫= fun a => (f a ≫= g)).
Proof. by destruct m. Qed.

Lemma ub_unless_true {A} b (m : res A) : b = true -> ub_unless b m = m.
Proof. by intros ->. Qed.

Lemma ub_unless_false {A} b (m : res A) : b = false -> ub_unless b m = Undef.
Proof. by intros ->. Qed.

Lemma ub_unless_Ok_inv {A} b (m : res A) a :
  ub_unless b m = Ok a -> b = true /\ m = Ok a.
Proof. destruct b; simpl; [auto | discriminate]. Qed.

(** ** Machine integers *)

Definition INT_MAX : Z := 2 ^ 31 - 1.
Definition INT_MIN : Z := - 2 ^ 31.

Definition in_int (z : Z) : bool := (INT_MIN <=? z) && (z <=? INT_MAX).

(** Conversion to an unsigned type of [w] bits, and to a signed one (two's
    complement, as every compiler for the targets of the code does it). *)
Definition uwrap (w z : Z) : Z := z mod 2 ^ w.
Definition swrap (w z : Z) : Z := (z + 2 ^ (w - 1)) mod 2 ^ w - 2 ^ (w - 1).

(** Signed [int] arithmetic: an overflow is undefined. *)
Definition int_of (z : Z) : res Z := if in_int z then Ok z else Undef.

(** [x << k] on [int]: the shift count and the result must be representable. *)
Definition shl_int (x k : Z) : res Z :=
  ub_unless ((0 <=? x) && (0 <=? k) && (k <? 32)) (int_of (x * 2 ^ k)).

Lemma in_int_spec z : in_int z = true <-> INT_MIN <= z <= INT_MAX.
Proof. unfold in_int. rewrite andb_true_iff, !Z.leb_le. tauto. Qed.

Lemma int_of_Ok z : INT_MIN <= z <= INT_MAX -> int_of z = Ok z.
Proof. intros H. unfold int_of. by rewrite (proj2 (in_int_spec z) H). Qed.

Lemma int_of_Ok_inv z z' : int_of z = Ok z' -> z' = z /\ INT_MIN <= z <= INT_MAX.
Proof.
  unfold int_of. destruct (in_int z) eqn:E; [|discriminate].
  intros [= <-]. split; [done|]. by apply in_int_spec.
Qed.

Lemma shl_int_Ok x k :
  0 <= x -> 0 <= k < 32 -> x * 2 ^ k <= INT_MAX -> shl_int x k = Ok (x * 2 ^ k).
Proof.
  intros Hx Hk H. unfold shl_int. rewrite ub_unless_true.
  - apply int_of_Ok. split; [|done]. assert (0 < 2 ^ k) by (apply Z.pow_pos_nonneg; lia).
    unfold INT_MIN. nia.
  - rewrite !andb_true_iff, !Z.leb_le, Z.ltb_lt. lia.
Qed.

Lemma uwrap_range w z : 0 <= w -> 0 <= uwrap w z < 2 ^ w.
Proof. intros. apply Z.mod_pos_bound. by apply Z.pow_pos_nonneg. Qed.

Lemma uwrap_small w z : 0 <= z < 2 ^ w -> uwrap w z = z.
Proof. apply Z.mod_small. Qed.

Lemma swrap_small w z :
  1 <= w -> - 2 ^ (w - 1) <= z < 2 ^ (w - 1) -> swrap w z = z.
Proof.
  intros Hw H. unfold swrap.
  assert (E : 2 ^ w = 2 * 2 ^ (w - 1)).
  { rewrite <- Z.pow_succ_r by lia. f_equal. lia. }
  rewrite Z.mod_small; lia.
Qed.

(** ** Arrays

    A C array is the list of its elements; an index is an [int], so it can be
    negative, and an access outside the array is undefined. *)
Definition in_bounds {A} (l : list A) (i : Z) : bool :=
  (0 <=? i) && (i <? Z.of_nat (length l)).

Definition rd {A} (l : list A) (i : Z) : res A :=
  if 0 <=? i then
    match l !! Z.to_nat i with Some x => Ok x | None => Undef end
  else Undef.

Definition wr {A} (l : list A) (i : Z) (x : A) : res (list A) :=
  if in_bounds l i then Ok (<[Z.to_nat i := x]> l) else Undef.

Lemma in_bounds_spec {A} (l : list A) i :
  in_bounds l i = true <-> 0 <= i < Z.of_nat (length l).
Proof. unfold in_bounds. rewrite andb_true_iff, Z.leb_le, Z.ltb_lt. tauto. Qed.

Lemma rd_Ok {A} (l : list A) i x :
  rd l i = Ok x <-> 0 <= i /\ l !! Z.to_nat i = Some x.
Proof.
  unfold rd. destruct (Z.leb_spec 0 i).
  - destruct (l !! Z.to_nat i); split; intros H'; [| | discriminate |].
    + injection H' as ->. auto.
    + destruct H' as [_ [= ->]]. done.
    + by destruct H'.
  - split; [discriminate | lia].
Qed.

Lemma rd_nat {A} (l : list A) (n : nat) x : l !! n = Some x -> rd l (Z.of_nat n) = Ok x.
Proof. intros H. apply rd_Ok. by rewrite Nat2Z.id; split; [lia|]. Qed.

Lemma rd_in_bounds {A} (l : list A) i :
  0 <= i < Z.of_nat (length l) -> exists x, rd l i = Ok x /\ l !! Z.to_nat i = Some x.
Proof.
  intros H. destruct (lookup_lt_is_Some_2 l (Z.to_nat i)) as [x Hx]; [lia|].
  exists x. split; [|done]. apply rd_Ok. split; [lia|done].
Qed.

Lemma rd_out {A} (l : list A) i :
  i < 0 \/ Z.of_nat (length l) <= i -> rd l i = Undef.
Proof.
  intros H. unfold rd. destruct (Z.leb_spec 0 i); [|done].
  by rewrite lookup_ge_None_2 by lia.
Qed.

Lemma wr_Ok {A} (l : list A) i x :
  0 <= i < Z.of_nat (length l) -> wr l i x = Ok (<[Z.to_nat i := x]> l).
Proof. intros H. unfold wr. by rewrite (proj2 (in_bounds_spec l i) H). Qed.

Lemma wr_Ok_inv {A} (l l' : list A) i x :
  wr l i x = Ok l' -> 0 <= i < Z.of_nat (length l) /\ l' = <[Z.to_nat i := x]> l.
Proof.
  unfold wr. destruct (in_bounds l i) eqn:E; [|discriminate].
  intros [= <-]. by rewrite <- in_bounds_spec.
Qed.

Lemma wr_out {A} (l : list A) i x :
  i < 0 \/ Z.of_nat (length l) <= i -> wr l i x = Undef.
Proof.
  intros H. unfold wr. destruct (in_bounds l i) eqn:E; [|done].
  apply in_bounds_spec in E. lia.
Qed.

(** ** Characters and C strings *)

Definition chars (s : string) : list ascii := String.list_ascii_of_string s.

Definition NUL : ascii := Ascii.zero.

(** [isspace] of the "C" locale. *)
Definition isspace (c : ascii) : bool :=
  let n := nat_of_ascii c in (Nat.eqb n 32) || ((Nat.leb 9 n) && (Nat.leb n 13)).

(** ** Automation *)

(** The rewrite base of the monad laws and of the in-range accesses. *)
Create HintDb cres discriminated.
#[export] Hint Rewrite @bind_Ok @bind_Undef @bind_NoFuel : cres.
#[export] Hint Rewrite @length_insert @length_app @length_replicate : cres.
#[export] Hint Resolve int_of_Ok rd_nat wr_Ok : cres.

(** Invert every hypothesis that says a composite computation completed. *)
Ltac inv_res :=
  repeat match goal with
  | H : (_ ≫= _) = Ok _ |- _ =>
      let a := fresh "a" in let H1 := fresh "H" in let H2 := fresh "H" in
      apply bind_Ok_inv in H; destruct H as (a & H1 & H2)
  | H : ub_unless _ _ = Ok _ |- _ => apply ub_unless_Ok_inv in H; destruct H
  | H : int_of _ = Ok _ |- _ => apply int_of_Ok_inv in H; destruct H as [-> H]
  | H : rd _ _ = Ok _ |- _ => apply rd_Ok in H; destruct H
  | H : wr _ _ _ = Ok _ |- _ => apply wr_Ok_inv in H; destruct H as [? ->]
  | H : Ok _ = Ok _ |- _ => injection H as H; subst
  | H : mret _ = Ok _ |- _ => injection H as H; subst
  | H : Undef = Ok _ |- _ => discriminate H
  | H : NoFuel = Ok _ |- _ => discriminate H
  end.

(** Turn boolean comparisons on [Z] into propositions, in the hypotheses. *)
Ltac bool_to_Prop :=
  repeat match goal with
  | H : _ && _ = true |- _ => apply andb_true_iff in H; destruct H
  | H : negb _ = true |- _ => apply negb_true_iff in H
  | H : (_ <=? _) = true |- _ => apply Z.leb_le in H
  | H : (_ <=? _) = false |- _ => apply Z.leb_gt in H
  | H : (_ <? _) = true |- _ => apply Z.ltb_lt in H
  | H : (_ <? _) = false |- _ => apply Z.ltb_ge in H
  | H : (_ =? _) = true |- _ => apply Z.eqb_eq in H
  | H : (_ =? _) = false |- _ => apply Z.eqb_neq in H
  end.

(** Split the goal's outermost integer tests. *)
Ltac case_Z :=
  match goal with
  | |- context [?a <=? ?b] => destruct (Z.leb_spec a b)
  | |- context [?a <? ?b] => destruct (Z.ltb_spec a b)
  | |- context [?a =? ?b] => destruct (Z.eqb_spec a b)
  end.

(** Decide a closed proposition by computation. *)
Ltac decide_now := apply (bool_decide_unpack _); vm_compute; exact I.

(** ** Memory blocks

    A block from [malloc] is a list of cells; a cell is [None] while it holds an
    indeterminate value, and reading it is undefined. The null pointer is the
    empty block: every access to it is out of bounds. *)
Abbreviation blk A := (list (option A)).

(** [malloc] of [n] elements; [ok] says whether it succeeds. *)
Definition malloc {A} (ok : bool) (n : Z) : blk A :=
  if ok then replicate (Z.to_nat n) None else [].

Definition rdc {A} (l : blk A) (i : Z) : res A :=
  c ← rd l i; match c with Some x => Ok x | None => Undef end.

Definition wrc {A} (l : blk A) (i : Z) (x : A) : res (blk A) := wr l i (Some x).

(** [realloc] to [n] elements: the contents up to the smaller size stay. *)
Definition realloc {A} (l : blk A) (n : Z) : blk A :=
  take (Z.to_nat n) l ++ replicate (Z.to_nat n - length l) None.

(** [memmove(&l[dst], &l[src], n * sizeof(l[0]))]: both ranges must lie inside
    the block ([n] is converted to [size_t], so a negative one cannot fit). *)
Definition memmove {A} (l : list A) (dst src n : Z) : res (list A) :=
  if (0 <=? dst) && (0 <=? src) && (0 <=? n) &&
     (dst + n <=? Z.of_nat (length l)) && (src + n <=? Z.of_nat (length l))
  then Ok (take (Z.to_nat dst) l ++ take (Z.to_nat n) (drop (Z.to_nat src) l)
           ++ drop (Z.to_nat (dst + n)) l)
  else Undef.

Lemma rdc_Some {A} (l : blk A) (i : Z) x :
  0 <= i -> l !! Z.to_nat i = Some (Some x) -> rdc l i = Ok x.
Proof. intros H1 H2. unfold rdc. by rewrite (proj2 (rd_Ok l i (Some x))). Qed.

Lemma rdc_init {A} (ks : list A) (tl : blk A) (i : Z) x :
  0 <= i -> ks !! Z.to_nat i = Some x -> rdc ((Some <$> ks) ++ tl) i = Ok x.
Proof.
  intros H1 H2. apply rdc_Some; [done|].
  rewrite lookup_app_l by (rewrite length_fmap; by eapply lookup_lt_Some).
  by rewrite list_lookup_fmap, H2.
Qed.

Lemma wrc_init_old {A} (ks : list A) (tl : blk A) (i : Z) x :
  0 <= i < Z.of_nat (length ks) ->
  wrc ((Some <$> ks) ++ tl) i x = Ok ((Some <$> <[Z.to_nat i := x]> ks) ++ tl).
Proof.
  intros H. unfold wrc. rewrite wr_Ok by (rewrite length_app, length_fmap; lia).
  rewrite insert_app_l by (rewrite length_fmap; lia).
  by rewrite list_fmap_insert.
Qed.

Lemma realloc_length {A} (l : blk A) n :
  0 <= n -> Z.of_nat (length (realloc l n)) = n.
Proof.
  intros. unfold realloc. rewrite length_app, length_take, length_replicate. lia.
Qed.

Lemma realloc_init {A} (ks : list A) (tl : blk A) n :
  Z.of_nat (length ks) <= n ->
  exists tl', realloc ((Some <$> ks) ++ tl) n = (Some <$> ks) ++ tl'.
Proof.
  intros H. unfold realloc.
  rewrite take_app_ge by (rewrite length_fmap; lia).
  rewrite <- (assoc_L (++)). eauto.
Qed.

Lemma length_insert_at {A} (l : list A) p x :
  (p <= length l)%nat -> length (take p l ++ x :: drop p l) = S (length l).
Proof. intros H. rewrite length_app, length_take. cbn. rewrite length_drop. lia. Qed.

(** Opening a gap at [p] in the initialised part [ks] and filling it with [x]:
    the [memmove] and the assignment insert [x] into [ks]. *)
Lemma memmove_insert {A} (ks : list A) (c : option A) (tl : blk A) (p : nat) x :
  (p <= length ks)%nat ->
  (m ← memmove ((Some <$> ks) ++ c :: tl) (Z.of_nat p + 1) (Z.of_nat p)
         (Z.of_nat (length ks) - Z.of_nat p); wrc m (Z.of_nat p) x)
  = Ok ((Some <$> (take p ks ++ x :: drop p ks)) ++ tl).
Proof.
  intros Hp. unfold memmove.
  rewrite length_app, length_fmap. cbn [length].
  replace (_ && _) with true
    by (symmetry; rewrite !andb_true_iff, !Z.leb_le; lia).
  rewrite bind_Ok.
  replace (Z.to_nat (Z.of_nat p + 1)) with (S p) by lia.
  replace (Z.to_nat (Z.of_nat (length ks) - Z.of_nat p)) with (length ks - p)%nat by lia.
  replace (Z.to_nat (Z.of_nat p + 1 + _)) with (S (length ks)) by lia.
  rewrite Nat2Z.id. set (fk := Some <$> ks).
  assert (Lf : length fk = length ks) by apply length_fmap.
  assert (E1 : take (length ks - p) (drop p (fk ++ c :: tl)) = drop p fk).
  { rewrite drop_app_le by lia. apply take_app_length'. rewrite length_drop. lia. }
  assert (E2 : drop (S (length ks)) (fk ++ c :: tl) = tl).
  { rewrite drop_app_ge by lia.
    replace (S (length ks) - length fk)%nat with 1%nat by lia. done. }
  rewrite E1, E2. unfold wrc. rewrite wr_Ok.
  2: { rewrite !length_app, length_take, length_app, length_drop. cbn [length]. lia. }
  f_equal. rewrite Nat2Z.id.
  destruct (decide (p < length ks)%nat) as [H|H].
  - destruct (lookup_lt_is_Some_2 fk p) as [y Hy]; [lia|].
    assert (E : take (S p) (fk ++ c :: tl) = take p fk ++ [y]).
    { rewrite take_app_le by lia. by apply take_S_r. }
    rewrite E, <- (assoc_L (++)), insert_app_r_alt by (rewrite length_take; lia).
    rewrite length_take, Nat.min_l, Nat.sub_diag by lia. cbn.
    subst fk. rewrite fmap_app, fmap_cons, fmap_take, fmap_drop.
    by rewrite <- (assoc_L (++)).
  - assert (p = length ks) as -> by lia.
    assert (E : take (S (length ks)) (fk ++ c :: tl) = fk ++ [c]).
    { rewrite take_app_ge by lia.
      replace (S (length ks) - length fk)%nat with 1%nat by lia. done. }
    rewrite E, <- (assoc_L (++)), insert_app_r_alt by lia.
    rewrite Lf, Nat.sub_diag. cbn.
    rewrite take_ge, !drop_ge by lia. subst fk. cbn.
    by rewrite fmap_app, <- (assoc_L (++)).
Qed.

(** ** Strictly increasing sequences *)
Definition increasing (l : list Z) : Prop :=
  forall i j x y, (i < j)%nat -> l !! i = Some x -> l !! j = Some y -> x < y.

(** [p] is where [x] belongs: everything before is smaller, everything from [p]
    on is larger. *)
Definition insertion_point (l : list Z) (x : Z) (p : nat) : Prop :=
  (p <= length l)%nat /\
  (forall i y, (i < p)%nat -> l !! i = Some y -> y < x) /\
  (forall i y, (p <= i)%nat -> l !! i = Some y -> x < y).

Lemma increasing_insert l x p :
  increasing l -> insertion_point l x p -> increasing (take p l ++ x :: drop p l).
Proof.
  intros Hl (Hp & Hlt & Hgt) i j a b Hij Ha Hb.
  assert (Lt : length (take p l) = p) by (rewrite length_take; lia).
  assert (Look : forall k c, (take p l ++ x :: drop p l) !! k = Some c ->
    ((k < p)%nat /\ l !! k = Some c) \/ (k = p /\ c = x) \/
    ((p < k)%nat /\ l !! (k - 1)%nat = Some c)).
  { intros k c Hk. destruct (decide (k < p)%nat).
    - left. rewrite lookup_app_l, lookup_take_lt in Hk by lia. done.
    - rewrite lookup_app_r, Lt in Hk by lia.
      destruct (decide (k = p)) as [->|].
      + rewrite Nat.sub_diag in Hk. injection Hk as ->. auto.
      + right. right. rewrite lookup_cons_ne_0, lookup_drop in Hk by lia.
        replace (p + pred (k - p))%nat with (k - 1)%nat in Hk by lia. split; [lia|done]. }
  apply Look in Ha, Hb.
  destruct Ha as [[? Ha]|[[-> ->]|[? Ha]]], Hb as [[? Hb]|[[-> ->]|[? Hb]]]; try lia.
  - by apply (Hl i j).
  - by apply (Hlt i).
  - apply (Hl i (j - 1)%nat); [lia|done..].
  - eapply Hgt; [|done]; lia.
  - apply (Hl (i - 1)%nat (j - 1)%nat); [lia|done..].
Qed.

Lemma insertion_point_notin l x p : insertion_point l x p -> x ∉ l.
Proof.
  intros (_ & Hlt & Hgt) [i Hi]%list_elem_of_lookup.
  destruct (decide (i < p)%nat) as [H|H].
  - pose proof (Hlt i x H Hi). lia.
  - pose proof (Hgt i x ltac:(lia) Hi). lia.
Qed.

(** ** Loops

    [while fuel cond body s] is C's [while (cond) body] on the state [s]. *)
Fixpoint while {S} (fuel : nat) (cond : S -> bool) (body : S -> res S) (s : S) : res S :=
  if cond s then
    match fuel with
    | O => NoFuel
    | S fuel => s' ← body s; while fuel cond body s'
    end
  else Ok s.

Lemma while_false {S} fuel (cond : S -> bool) body s :
  cond s = false -> while fuel cond body s = Ok s.
Proof. intros H. destruct fuel; cbn [while]; by rewrite H. Qed.

Lemma while_true {S} fuel (cond : S -> bool) body s :
  cond s = true ->
  while (Datatypes.S fuel) cond body s = (s' ← body s; while fuel cond body s').
Proof. intros H. cbn [while]. by rewrite H. Qed.

(** Total correctness of a loop: an invariant and a measure below the fuel. *)
Lemma while_rule {S} (Inv : S -> Prop) (m : S -> nat) cond body fuel s :
  Inv s -> (m s <= fuel)%nat ->
  (forall s, Inv s -> cond s = true ->
     exists s', body s = Ok s' /\ Inv s' /\ (m s' < m s)%nat) ->
  exists s', while fuel cond body s = Ok s' /\ Inv s' /\ cond s' = false.
Proof.
  intros Hi Hm Hbody. revert s Hi Hm. induction fuel as [|fuel IH]; intros s Hi Hm.
  - destruct (cond s) eqn:E.
    + destruct (Hbody s Hi E) as (s' & _ & _ & ?). lia.
    + exists s. by rewrite while_false.
  - destruct (cond s) eqn:E.
    + rewrite while_true by done. destruct (Hbody s Hi E) as (s' & -> & Hi' & Hlt).
      rewrite bind_Ok. apply IH; [done|lia].
    + exists s. by rewrite while_false.
Qed.

(** ** 32-bit words in memory, on a little-endian machine *)

Definition le_bytes (v : Z) : list Z :=
  [v mod 256; v / 256 mod 256; v / 65536 mod 256; v / 16777216 mod 256].

Definition le_value (bs : list Z) : Z := foldr (fun b v => b + 256 * v) 0 bs.
