(* ===== verification/Stdio.v ===== *)
(** * The parts of the C library the programs use

    Number conversion ([%08X], [%o], [%d], [%u]), [sscanf], [strtok_r], the
    string functions, and [FILE] objects as contents with a position. *)
From stdpp Require Import base list strings.
From Stdlib Require Import ZArith Lia Ascii.
From S2P Require Import Prelude.

Open Scope Z_scope.

(** ** Digits *)

(** The digit [d] < 36, upper case. *)
Definition digit (d : Z) : ascii :=
  ascii_of_nat (Z.to_nat (if d <? 10 then 48 + d else 55 + d)).

Definition digit_val (c : ascii) : option Z :=
  let n := Z.of_nat (nat_of_ascii c) in
  if (48 <=? n) && (n <=? 57) then Some (n - 48)
  else if (65 <=? n) && (n <=? 90) then Some (n - 55)
  else if (97 <=? n) && (n <=? 122) then Some (n - 87)
  else None.

Definition is_digit (b : Z) (c : ascii) : bool :=
  match digit_val c with Some d => d <? b | None => false end.

(** The [k] low digits of [n] in base [b], the most significant first. *)
Fixpoint radix (b : Z) (k : nat) (n : Z) : list ascii :=
  match k with
  | O => []
  | S k => radix b k (n / b) ++ [digit (n mod b)]
  end.

(** The number of digits of [n]: 1 for 0. *)
Fixpoint ndigits (fuel : nat) (b n : Z) : nat :=
  match fuel with
  | O => 1
  | S fuel => if n <? b then 1 else S (ndigits fuel b (n / b))
  end.

(** At most 64 digits are needed: no value of the programs exceeds 64 bits. *)
Definition print_radix (b : Z) (width : nat) (n : Z) : list ascii :=
  radix b (Nat.max width (ndigits 64 b n)) n.

(** [%08X] of an [unsigned int] and [%08lX] of an [unsigned long]. *)
Definition fmt_08X (n : Z) : list ascii := print_radix 16 8 (uwrap 32 n).
Definition fmt_08lX (n : Z) : list ascii := print_radix 16 8 (uwrap 64 n).

Definition digits_val (b : Z) (l : list ascii) : Z :=
  fold_left (fun acc c => acc * b + default 0 (digit_val c)) l 0.

Lemma digit_val_digit d : 0 <= d < 36 -> digit_val (digit d) = Some d.
Proof.
  intros H.
  assert (F : forallb (fun k => bool_decide (digit_val (digit (Z.of_nat k)) = Some (Z.of_nat k)))
                (seq 0 36) = true) by (vm_compute; reflexivity).
  rewrite forallb_forall in F. specialize (F (Z.to_nat d)).
  rewrite in_seq, Z2Nat.id in F by lia. apply bool_decide_eq_true in F; [done|lia].
Qed.

Lemma is_digit_digit b d : 0 <= d < b -> b <= 36 -> is_digit b (digit d) = true.
Proof.
  intros H Hb. unfold is_digit. rewrite digit_val_digit by lia. apply Z.ltb_lt. lia.
Qed.

Lemma digits_val_snoc b l c :
  digits_val b (l ++ [c]) = digits_val b l * b + default 0 (digit_val c).
Proof. unfold digits_val. by rewrite fold_left_app. Qed.

Lemma radix_length b k n : length (radix b k n) = k.
Proof. revert n. induction k; intros n; simpl; [done|]. rewrite length_app, IHk. cbn. lia. Qed.

Lemma radix_digits b k n :
  1 < b <= 36 -> Forall (fun c => is_digit b c = true) (radix b k n).
Proof.
  intros Hb. revert n. induction k; intros n; simpl; [done|].
  apply Forall_app. split; [done|]. constructor; [|done].
  apply is_digit_digit; [|lia]. apply Z.mod_pos_bound. lia.
Qed.

Lemma radix_val b k n :
  1 < b <= 36 -> digits_val b (radix b k n) = n mod b ^ Z.of_nat k.
Proof.
  intros Hb. revert n. induction k; intros n.
  - cbn. by rewrite Z.mod_1_r.
  - cbn [radix]. rewrite digits_val_snoc, IHk.
    pose proof (Z.mod_pos_bound n b ltac:(lia)).
    rewrite digit_val_digit by lia. cbn [default].
    rewrite Nat2Z.inj_succ, Z.pow_succ_r by lia.
    rewrite Z.rem_mul_r by (try apply Z.pow_pos_nonneg; lia). unfold id. lia.
Qed.

(** [ndigits] digits are enough, so printing loses nothing. *)
Lemma ndigits_enough fuel b n :
  1 < b -> 0 <= n < b ^ Z.of_nat (S fuel) -> n < b ^ Z.of_nat (ndigits fuel b n).
Proof.
  intros Hb. revert n. induction fuel as [|fuel IH]; intros n Hn; cbn [ndigits].
  - rewrite Nat2Z.inj_succ, Z.pow_succ_r in Hn by lia. change (Z.of_nat 1) with 1. lia.
  - destruct (Z.ltb_spec n b); [change (Z.of_nat 1) with 1; lia|].
    rewrite Nat2Z.inj_succ, Z.pow_succ_r by lia.
    rewrite Nat2Z.inj_succ, Z.pow_succ_r in Hn by lia.
    assert (H1 : n / b < b ^ Z.of_nat (ndigits fuel b (n / b))).
    { apply IH. split; [apply Z.div_pos; lia|]. apply Z.div_lt_upper_bound; lia. }
    pose proof (Z.mul_succ_div_gt n b ltac:(lia)). nia.
Qed.

Lemma print_radix_val b width n :
  1 < b <= 36 -> 0 <= n < 2 ^ 64 -> digits_val b (print_radix b width n) = n.
Proof.
  intros Hb Hn. unfold print_radix. rewrite radix_val by done. apply Z.mod_small.
  split; [lia|]. eapply Z.lt_le_trans.
  - apply (ndigits_enough 64 b n); [lia|]. split; [lia|].
    eapply Z.lt_le_trans; [apply Hn|]. change (Z.of_nat 65) with 65.
    transitivity (2 ^ 65); [apply Z.pow_le_mono_r; lia|apply Z.pow_le_mono_l; lia].
  - apply Z.pow_le_mono_r; lia.
Qed.

Lemma print_radix_digits b width n :
  1 < b <= 36 -> Forall (fun c => is_digit b c = true) (print_radix b width n).
Proof. apply radix_digits. Qed.

Lemma ndigits_pos fuel b n : (1 <= ndigits fuel b n)%nat.
Proof. destruct fuel; simpl; [lia|]. destruct (n <? b); lia. Qed.

Lemma print_radix_nonempty b width n : print_radix b width n <> [].
Proof.
  intros E. apply (f_equal length) in E. unfold print_radix in E.
  rewrite radix_length in E. pose proof (ndigits_pos 64 b n). simpl length in E. lia.
Qed.

Lemma ndigits_le fuel b n k :
  1 < b -> 0 <= n < b ^ Z.of_nat k -> (1 <= k)%nat -> (ndigits fuel b n <= k)%nat.
Proof.
  intros Hb. revert n k. induction fuel as [|fuel IH]; intros n k Hn Hk; cbn [ndigits]; [lia|].
  destruct (Z.ltb_spec n b); [lia|].
  destruct k as [|[|k]]; [lia|change (Z.of_nat 1) with 1 in Hn; lia|].
  apply le_n_S, IH; [|lia]. rewrite Nat2Z.inj_succ, Z.pow_succ_r in Hn by lia.
  split; [apply Z.div_pos; lia|]. apply Z.div_lt_upper_bound; lia.
Qed.

(** A field of [%08X] is eight characters wide exactly for 32-bit values. *)
Lemma fmt_08X_length n : length (fmt_08X n) = 8%nat.
Proof.
  unfold fmt_08X, print_radix. rewrite radix_length.
  pose proof (uwrap_range 32 n ltac:(lia)).
  pose proof (ndigits_le 64 16 (uwrap 32 n) 8 ltac:(lia) ltac:(done) ltac:(lia)). lia.
Qed.

Lemma fmt_08lX_length n : 0 <= n < 2 ^ 32 -> length (fmt_08lX n) = 8%nat.
Proof.
  intros H. unfold fmt_08lX, print_radix. rewrite radix_length.
  rewrite uwrap_small by lia.
  pose proof (ndigits_le 64 16 n 8 ltac:(lia) ltac:(done) ltac:(lia)). lia.
Qed.

Lemma fmt_08X_val n : digits_val 16 (fmt_08X n) = uwrap 32 n.
Proof.
  apply print_radix_val; [lia|]. pose proof (uwrap_range 32 n ltac:(lia)). lia.
Qed.

(** ** Strings in memory *)

(** [split_while p l]: the longest prefix satisfying [p], and the rest. *)
Fixpoint split_while (p : ascii -> bool) (l : list ascii) : list ascii * list ascii :=
  match l with
  | [] => ([], [])
  | c :: l' => if p c then let '(a, b) := split_while p l' in (c :: a, b) else ([], l)
  end.

Definition is_nul (c : ascii) : bool := bool_decide (c = NUL).
Definition one_of (delim : list ascii) (c : ascii) : bool := bool_decide (c ∈ delim).

(** The C string at the start of the memory [m]; running off the object is
    undefined. *)
Definition cstr (m : list ascii) : res (list ascii) :=
  let '(s, rest) := split_while (fun c => negb (is_nul c)) m in
  match rest with [] => Undef | _ :: _ => Ok s end.

Definition strlen (m : list ascii) : res Z := s ← cstr m; Ok (Z.of_nat (length s)).

Lemma split_while_app p a b :
  split_while p (a ++ b) =
    (if decide (Forall (fun c => p c = true) a)
     then (a ++ (split_while p b).1, (split_while p b).2)
     else ((split_while p a).1, (split_while p a).2 ++ b)).
Proof.
  induction a as [|c a IH]; cbn [app split_while].
  - rewrite decide_True by done. by destruct (split_while p b).
  - destruct (p c) eqn:E.
    + rewrite IH. destruct (decide (Forall _ a)).
      * rewrite decide_True by (by constructor). done.
      * rewrite decide_False by (by inversion 1). by destruct (split_while p a).
    + rewrite decide_False; [done|]. inversion 1. congruence.
Qed.

(** The usual situation: a run of accepted characters and then a stop. *)
Lemma split_while_stop p a c b :
  Forall (fun c => p c = true) a -> p c = false -> split_while p (a ++ c :: b) = (a, c :: b).
Proof.
  intros Ha Hc. rewrite split_while_app, decide_True by done. simpl. rewrite Hc.
  by rewrite app_nil_r.
Qed.

Lemma split_while_all p a : Forall (fun c => p c = true) a -> split_while p a = (a, []).
Proof.
  intros Ha. rewrite <- (app_nil_r a) at 1. rewrite split_while_app, decide_True by done.
  cbn. by rewrite app_nil_r.
Qed.

Lemma split_while_eq p l a b :
  split_while p l = (a, b) -> l = a ++ b /\ Forall (fun c => p c = true) a.
Proof.
  revert a b. induction l as [|c l IH]; intros a b; simpl.
  - by intros [= <- <-].
  - destruct (p c) eqn:E.
    + destruct (split_while p l) as [a' b']. intros [= <- <-].
      destruct (IH _ _ eq_refl) as [-> ?]. split; [done|by constructor].
    + by intros [= <- <-].
Qed.

Definition no_nul (s : list ascii) : Prop := NUL ∉ s.

#[export] Instance no_nul_dec s : Decision (no_nul s).
Proof. unfold no_nul. apply _. Defined.

Lemma no_nul_forall s :
  no_nul s <-> Forall (fun c => negb (is_nul c) = true) s.
Proof.
  unfold no_nul, is_nul. rewrite Forall_forall. split.
  - intros H c Hc. apply negb_true_iff, bool_decide_eq_false. by intros ->.
  - intros H Hn. specialize (H _ Hn). by rewrite bool_decide_true in H.
Qed.

Lemma cstr_nul s m : no_nul s -> cstr (s ++ NUL :: m) = Ok s.
Proof.
  intros H. unfold cstr. rewrite split_while_stop; [done|by apply no_nul_forall|done].
Qed.

(** ** [sscanf]

    A conversion that cannot be represented in its object is undefined (C11
    7.21.6.2p10). The result is the return value, -1 (EOF) when the input ends
    before the first conversion, and the values assigned, in order. *)
Inductive directive : Type :=
| DSpace                     (* white space in the format *)
| DStr (max : nat)           (* %<max>s *)
| DOct                       (* %o, into an unsigned int *)
| DDec                       (* %d, into an int *)
| DUns                       (* %u, into an unsigned int *)
| DChar                      (* %c *)
| DPos.                      (* %n: counts for nothing in the return value *)

Inductive sval : Type :=
| VStr (s : list ascii)
| VInt (n : Z)
| VChar (c : ascii).

Definition skip_space (l : list ascii) : list ascii := (split_while isspace l).2.

Definition plus_sign : ascii := "+"%char.
Definition minus_sign : ascii := "-"%char.

(** The optional sign and the digits of an integer in base [b]; [None] is a
    matching failure. *)
Definition scan_int (b : Z) (l : list ascii) : option (Z * list ascii) :=
  let '(neg, l') := match l with
    | c :: l' => if bool_decide (c = minus_sign) then (true, l')
                 else if bool_decide (c = plus_sign) then (false, l') else (false, l)
    | [] => (false, l)
    end in
  let '(ds, rest) := split_while (is_digit b) l' in
  match ds with
  | [] => None
  | _ :: _ => let v := digits_val b ds in Some (if neg : bool then - v else v, rest)
  end.

Definition in_uint (z : Z) : bool := (0 <=? z) && (z <? 2 ^ 32).

(** One integer directive: the value and the rest of the input. *)
Definition scan_num (b : Z) (repr : Z -> bool) (l : list ascii)
    : res (option (Z * list ascii)) :=
  match scan_int b (skip_space l) with
  | None => Ok None
  | Some (v, rest) => ub_unless (repr v) (Ok (Some (v, rest)))
  end.

(** [total] is the length of the whole input, for %n; [n] counts the
    assignments so far. *)
Fixpoint sscanf_loop (ds : list directive) (total : nat) (l : list ascii) (n : Z)
    (acc : list sval) : res (Z * list sval) :=
  let stop := Ok (if (n =? 0) && bool_decide (skip_space l = []) then -1 else n, rev acc) in
  let number b repr ds :=
    r ← scan_num b repr l;
    match r with
    | None => stop
    | Some (v, rest) => sscanf_loop ds total rest (n + 1) (VInt v :: acc)
    end in
  match ds with
  | [] => Ok (n, rev acc)
  | DSpace :: ds => sscanf_loop ds total (skip_space l) n acc
  | DStr max :: ds =>
      let l' := skip_space l in
      let tok := take max (split_while (fun c => negb (isspace c)) l').1 in
      match tok with
      | [] => stop
      | _ :: _ => sscanf_loop ds total (drop (length tok) l') (n + 1) (VStr tok :: acc)
      end
  | DOct :: ds => number 8 in_uint ds
  | DDec :: ds => number 10 in_int ds
  | DUns :: ds => number 10 in_uint ds
  | DChar :: ds =>
      match l with
      | [] => stop
      | c :: l' => sscanf_loop ds total l' (n + 1) (VChar c :: acc)
      end
  | DPos :: ds =>
      sscanf_loop ds total l n (VInt (Z.of_nat (total - length l)) :: acc)
  end.

Definition sscanf (l : list ascii) (ds : list directive) : res (Z * list sval) :=
  sscanf_loop ds (length l) l 0 [].

(** ** [strtok_r]

    The skipped delimiters, the token, and what the save pointer then refers to;
    [None] is the null pointer. *)
Definition strtok_r (s : list ascii) (delim : list ascii)
    : option (list ascii * list ascii * list ascii) :=
  let '(skipped, rest) := split_while (one_of delim) s in
  let '(tok, rest') := split_while (fun c => negb (one_of delim c)) rest in
  match tok with
  | [] => None
  | _ :: _ => Some (skipped, tok, tail rest')
  end.

(** ** [FILE] objects

    The contents and the position of a stream opened for update. *)
Record FILE : Type := mkFILE { f_data : list ascii; f_pos : nat }.

(** Writing at the position overwrites, and extends at the end of the file. *)
Definition fput (bs : list ascii) (f : FILE) : FILE :=
  {| f_data := take (f_pos f) (f_data f) ++ bs ++ drop (f_pos f + length bs) (f_data f);
     f_pos := f_pos f + length bs |}.

Definition ftell (f : FILE) : Z := Z.of_nat (f_pos f).
Definition rewind (f : FILE) : FILE := {| f_data := f_data f; f_pos := 0 |}.

(** [fread(buf, n, 1, f)]: the bytes, when that many are left. *)
Definition fread (n : Z) (f : FILE) : option (list ascii * FILE) :=
  if (0 <=? n) && (Z.of_nat (f_pos f) + n <=? Z.of_nat (length (f_data f))) then
    Some (take (Z.to_nat n) (drop (f_pos f) (f_data f)),
          {| f_data := f_data f; f_pos := f_pos f + Z.to_nat n |})
  else None.

(** What a stream has written since the last [rewind]: the part before the
    position. The rest is left over from earlier rounds. *)
Definition f_written (f : FILE) : list ascii := take (f_pos f) (f_data f).

Definition f_ok (f : FILE) : Prop := (f_pos f <= length (f_data f))%nat.

Lemma fput_ok bs f : f_ok f -> f_ok (fput bs f).
Proof.
  unfold f_ok, fput. cbn. intros H. rewrite !length_app, length_take, length_drop. lia.
Qed.

Lemma fput_written bs f : f_ok f -> f_written (fput bs f) = f_written f ++ bs.
Proof.
  unfold f_ok, f_written, fput. cbn. intros H.
  rewrite (assoc_L (++)). apply take_app_length'. rewrite length_app, length_take. lia.
Qed.

Lemma fput_nil f : f_ok f -> fput [] f = f.
Proof.
  unfold f_ok, fput. destruct f as [d p]. cbn. intros H.
  by rewrite Nat.add_0_r, take_drop.
Qed.

Lemma fput_fput a b f : f_ok f -> fput b (fput a f) = fput (a ++ b) f.
Proof.
  unfold f_ok, fput. destruct f as [d p]. cbn. intros H. f_equal.
  - assert (L : length (take p d) = p) by (rewrite length_take; lia).
    assert (E1 : take (p + length a) (take p d ++ a ++ drop (p + length a) d) = take p d ++ a).
    { rewrite (assoc_L (++)). apply take_app_length'. rewrite length_app. lia. }
    rewrite E1, <- !(assoc_L (++)). do 3 f_equal.
    rewrite (assoc_L (++)), drop_app_ge by (rewrite length_app; lia).
    rewrite drop_drop, !length_app. f_equal. lia.
  - rewrite length_app. lia.
Qed.

Lemma ftell_written f : f_ok f -> ftell f = Z.of_nat (length (f_written f)).
Proof. unfold f_ok, ftell, f_written. intros H. rewrite length_take. lia. Qed.

(** Reading everything back after a [rewind] gives what was written. *)
Lemma fread_rewind f :
  f_ok f -> exists f', fread (ftell f) (rewind f) = Some (f_written f, f') /\
    f_data f' = f_data f /\ f_pos f' = f_pos f.
Proof.
  unfold f_ok, fread, ftell, rewind, f_written. destruct f as [d p]. cbn. intros H.
  rewrite (proj2 (Z.leb_le 0 _)), (proj2 (Z.leb_le (Z.of_nat p) _)) by lia. cbn.
  eexists. rewrite Nat2Z.id. by split.
Qed.

(** ** [sscanf] and [strtok_r] on well formed text *)

Definition space : ascii := " "%char.

(** A word: not empty and without white space. *)
Definition word (s : list ascii) : Prop :=
  s <> [] /\ Forall (fun c => isspace c = false) s.

Lemma skip_space_word s l : word s -> skip_space (space :: s ++ l) = s ++ l.
Proof.
  intros [Hne Hs]. unfold skip_space. cbn [split_while]. change (isspace space) with true.
  cbv iota. destruct s as [|c s]; [done|]. inversion Hs as [|? ? Hc _]; subst.
  simpl. by rewrite Hc.
Qed.

Lemma skip_space_id s l : word s -> skip_space (s ++ l) = s ++ l.
Proof.
  intros [Hne Hs]. unfold skip_space. destruct s as [|c s]; [done|].
  inversion Hs as [|? ? Hc _]; subst. simpl. by rewrite Hc.
Qed.

Lemma digit_not_space b c : is_digit b c = true -> isspace c = false.
Proof.
  unfold is_digit, digit_val, isspace. intros H.
  destruct (Nat.eqb_spec (nat_of_ascii c) 32) as [E|]; [rewrite E in H; by cbn in H|].
  cbn [orb]. apply andb_false_iff.
  destruct (Nat.leb_spec 9 (nat_of_ascii c)); [|by left].
  right. apply Nat.leb_gt.
  destruct (decide (nat_of_ascii c <= 13)%nat); [|lia].
  destruct (_ && _) eqn:E1 in H; [bool_to_Prop; lia|].
  destruct (_ && _) eqn:E2 in H; [bool_to_Prop; lia|].
  destruct (_ && _) eqn:E3 in H; [bool_to_Prop; lia|done].
Qed.

(** What may follow a field: the end of the input or a blank. *)
Definition sep (rest : list ascii) : Prop := rest = [] \/ exists r, rest = space :: r.

Lemma split_while_sep p a rest :
  Forall (fun c => p c = true) a -> p space = false -> sep rest -> split_while p (a ++ rest) = (a, rest).
Proof.
  intros Ha Hp [->|[r ->]].
  - rewrite app_nil_r. by apply split_while_all.
  - by apply split_while_stop.
Qed.

Lemma word_app w rest : word w -> exists c l, w ++ rest = c :: l /\ isspace c = false.
Proof.
  intros [Hne Hs]. destruct w as [|c w]; [done|]. inversion Hs; subst. by exists c, (w ++ rest).
Qed.

Lemma sscanf_space ds total w rest n acc :
  word w -> sscanf_loop (DSpace :: ds) total (space :: w ++ rest) n acc =
            sscanf_loop ds total (w ++ rest) n acc.
Proof. intros H. cbn [sscanf_loop]. by rewrite skip_space_word. Qed.

Lemma sscanf_str max ds total w rest n acc :
  word w -> (length w <= max)%nat -> sep rest ->
  sscanf_loop (DStr max :: ds) total (w ++ rest) n acc =
  sscanf_loop ds total rest (n + 1) (VStr w :: acc).
Proof.
  intros Hw Hl Hr. cbn [sscanf_loop]. rewrite skip_space_id by done.
  rewrite split_while_sep; [|by destruct Hw as [_ Hw]; eapply Forall_impl; [exact Hw|];
    intros c ->|done|done].
  cbn [fst]. rewrite take_ge by done. rewrite drop_app_length.
  destruct w; [by destruct Hw|done].
Qed.

Lemma digit_not_sign b c : is_digit b c = true -> c <> minus_sign /\ c <> plus_sign.
Proof. intros H. split; intros ->; done. Qed.

Lemma print_radix_word b width n : 1 < b <= 36 -> word (print_radix b width n).
Proof.
  intros Hb. split; [apply print_radix_nonempty|].
  eapply Forall_impl; [by apply print_radix_digits|]. intros c. apply digit_not_space.
Qed.

Lemma scan_num_print b repr v rest :
  1 < b <= 36 -> 0 <= v < 2 ^ 64 -> repr v = true -> sep rest ->
  scan_num b repr (print_radix b 1 v ++ rest) = Ok (Some (v, rest)).
Proof.
  intros Hb Hv Hr Hs. unfold scan_num. rewrite skip_space_id by by apply print_radix_word.
  pose proof (print_radix_digits b 1 v Hb) as Hd.
  pose proof (print_radix_val b 1 v Hb Hv) as Ev.
  pose proof (print_radix_nonempty b 1 v) as Hne.
  destruct (print_radix b 1 v) as [|c l]; [done|].
  pose proof Hd as Hd'. apply Forall_cons in Hd' as [Hc _]. apply digit_not_sign in Hc as [H1 H2].
  unfold scan_int. cbn [app]. rewrite !bool_decide_false by done. change (c :: l ++ rest) with ((c :: l) ++ rest).
  rewrite split_while_sep by done. rewrite Ev, Hr. done.
Qed.

Lemma sscanf_oct ds total v rest n acc :
  0 <= v < 2 ^ 32 -> sep rest ->
  sscanf_loop (DOct :: ds) total (print_radix 8 1 v ++ rest) n acc =
  sscanf_loop ds total rest (n + 1) (VInt v :: acc).
Proof.
  intros H Hs. cbn [sscanf_loop]. rewrite scan_num_print; [done|lia|lia| |done].
  apply andb_true_iff. rewrite Z.leb_le, Z.ltb_lt. lia.
Qed.

Lemma sscanf_dec ds total v rest n acc :
  0 <= v <= INT_MAX -> sep rest ->
  sscanf_loop (DDec :: ds) total (print_radix 10 1 v ++ rest) n acc =
  sscanf_loop ds total rest (n + 1) (VInt v :: acc).
Proof.
  intros H Hs. cbn [sscanf_loop]. unfold INT_MAX in H. rewrite scan_num_print; [done|lia|lia| |done].
  apply in_int_spec. unfold INT_MIN, INT_MAX. lia.
Qed.

Lemma sscanf_uns ds total v rest n acc :
  0 <= v < 2 ^ 32 -> sep rest ->
  sscanf_loop (DUns :: ds) total (print_radix 10 1 v ++ rest) n acc =
  sscanf_loop ds total rest (n + 1) (VInt v :: acc).
Proof.
  intros H Hs. cbn [sscanf_loop]. rewrite scan_num_print; [done|lia|lia| |done].
  apply andb_true_iff. rewrite Z.leb_le, Z.ltb_lt. lia.
Qed.

Lemma sscanf_char ds total c rest n acc :
  sscanf_loop (DChar :: ds) total ([c] ++ rest) n acc =
  sscanf_loop ds total rest (n + 1) (VChar c :: acc).
Proof. done. Qed.

(** ** Lines *)

Definition newline : ascii := ascii_of_nat 10.

Definition no_nl (l : list ascii) : Prop := Forall (fun c => c <> newline) l.

(** [fgets(line, n, f)] on the rest of the input: at most [n - 1] characters, up
    to and including a newline; the end of the file is the empty rest. *)
Fixpoint fgets (room : nat) (input : list ascii) : list ascii * list ascii :=
  match room, input with
  | O, _ => ([], input)
  | _, [] => ([], [])
  | S room, c :: input' =>
      if bool_decide (c = newline) then ([c], input')
      else let '(l, rest) := fgets room input' in (c :: l, rest)
  end.

Lemma fgets_line room l rest :
  no_nl l -> (length l < room)%nat -> fgets room (l ++ newline :: rest) = (l ++ [newline], rest).
Proof.
  intros Hl. revert room. induction Hl as [|c l Hc _ IH]; intros [|room] Hr; cbn in Hr; try lia; cbn.
  - done.
  - rewrite bool_decide_false by done. by rewrite IH by lia.
Qed.

(** ** A number on the command line

    [sscanf(s, "%d", &x)]: without a number [x] keeps its value, if it has one;
    otherwise it stays indeterminate, and using it is undefined. *)
Definition scan_arg (init : option Z) (s : list ascii) : res Z :=
  '(_, vals) ← sscanf s [DDec];
  match vals, init with
  | [VInt n], _ => Ok n
  | _, Some n => Ok n
  | _, None => Undef
  end.

Lemma scan_arg_print init n : 0 <= n <= INT_MAX -> scan_arg init (print_radix 10 1 n) = Ok n.
Proof.
  intros Hn. unfold scan_arg, sscanf. rewrite <- (app_nil_r (print_radix 10 1 n)) at 2.
  by rewrite sscanf_dec by (done || by left).
Qed.
