(* ===== verification/SparseArray.v ===== *)
(** * The sparse array of src/test_sparse_array.c

    [binary_search], the growable pair of parallel arrays with its create, set
    and get, and the program's self test [run_test1].  The build defines
    NDEBUG, so the [debug_printf] calls are empty. *)
From stdpp Require Import base list gmap.
From Stdlib Require Import ZArith Lia.
From S2P Require Import Prelude.

Open Scope Z_scope.

Record sparse_array_t : Type := SparseArray {
  objs : blk Z;
  size : Z;
  indices : blk Z;
  nr_objs : Z;
}.

(** The [while (low < high)] loop: it returns the final [mid]. *)
Fixpoint bsearch_loop (fuel : nat) (array : blk Z) (data low high mid : Z) : res Z :=
  if low <? high then
    match fuel with
    | O => NoFuel
    | S fuel =>
        let mid := low + Z.quot (high - low) 2 in
        x ← rdc array mid;
        if data =? x then Ok mid
        else if data <? x then bsearch_loop fuel array data low mid mid
        else bsearch_loop fuel array data (mid + 1) high mid
    end
  else Ok mid.

Definition binary_search (array : blk Z) (data length : Z) : res Z :=
  let low := 0 in
  high ← int_of (low + length);
  let mid := 0 in
  if length =? 0 then Ok (Z.lnot 0)
  else
    mid ← bsearch_loop (Z.to_nat length) array data low high mid;
    x ← rdc array mid;
    if x =? data then Ok mid
    else if x <? data then Ok (Z.lnot (mid + 1))
    else Ok (Z.lnot mid).

Definition SPARSE_ARRAY_INIT_LEN : Z := 64.

(** [m1], [m2], [m3]: whether the three allocations succeed. The code tests the
    first only; the others leave a null pointer behind. *)
Definition sparse_array_create (m1 m2 m3 : bool) : option sparse_array_t :=
  if m1 then
    Some {| objs := malloc m2 SPARSE_ARRAY_INIT_LEN;
            indices := malloc m3 SPARSE_ARRAY_INIT_LEN;
            size := SPARSE_ARRAY_INIT_LEN;
            nr_objs := 0 |}
  else None.

(** The growing step of [sparse_array_set], lines 89-104.  The first component
    is [false] when a [realloc] failed and the function returns [-errno]; the
    last one is the local [indices_arr], [None] while it is not initialised. *)
Definition sparse_array_grow (sa : sparse_array_t) (re_idx re_obj : bool)
    : res (bool * sparse_array_t * option (blk Z)) :=
  if nr_objs sa =? size sa then
    if re_idx then
      let indices_arr := realloc (indices sa) (size sa * 2) in
      if re_obj then
        let obj_arr := realloc (objs sa) (size sa * 2) in
        sz ← int_of (size sa * 2);
        Ok (true, SparseArray obj_arr sz indices_arr (nr_objs sa), Some indices_arr)
      else
        Ok (false, SparseArray (objs sa) (size sa) indices_arr (nr_objs sa),
            Some indices_arr)
    else Ok (false, sa, None)
  else Ok (true, sa, None).

(** The insertion at position [ret], lines 105-118. *)
Definition sparse_array_insert (sa : sparse_array_t) (indices_arr : option (blk Z))
    (ret index obj : Z) : res sparse_array_t :=
  if ret <? size sa then
    i1 ← memmove (indices sa) (ret + 1) ret (nr_objs sa - ret);
    o1 ← memmove (objs sa) (ret + 1) ret (nr_objs sa - ret);
    i2 ← wrc i1 ret index;
    o2 ← wrc o1 ret obj;
    nr ← int_of (nr_objs sa + 1);
    Ok (SparseArray o2 (size sa) i2 nr)
  else
    match indices_arr with
    | None => Undef
    | Some ia =>
        i2 ← wrc ia ret index;
        o2 ← wrc (objs sa) ret obj;
        nr ← int_of (nr_objs sa + 1);
        Ok (SparseArray o2 (size sa) i2 nr)
    end.

(** [re_idx] and [re_obj] say whether each [realloc] succeeds, [errno] is the
    error code of a failing one. *)
Definition sparse_array_set (sa : sparse_array_t) (index obj : Z)
    (re_idx re_obj : bool) (errno : Z) : res (Z * sparse_array_t) :=
  ret ← binary_search (indices sa) index (nr_objs sa);
  if ret <? 0 then
    let ret := Z.lnot ret in
    '(go, sa', ia) ← sparse_array_grow sa re_idx re_obj;
    if go : bool then
      sa'' ← sparse_array_insert sa' ia ret index obj;
      Ok (0, sa'')
    else Ok (- errno, sa')
  else
    o ← wrc (objs sa) ret obj;
    Ok (0, SparseArray o (size sa) (indices sa) (nr_objs sa)).

(** The second component is what the call stores in [*obj], if anything. *)
Definition sparse_array_get (sa : sparse_array_t) (index : Z) : res (Z * option Z) :=
  ret ← binary_search (indices sa) index (nr_objs sa);
  if 0 <=? ret then
    v ← rdc (objs sa) ret;
    Ok (0, Some v)
  else Ok (-1, None).

Definition MAX_NUM : Z := 20000.

(** How the allocations of the self test go: the three of [sparse_array_create], and
    the two [realloc]s of a call of [sparse_array_set], should it make them, with the
    error code of a failing one. *)
Record test_allocs : Type := TestAllocs {
  ta_sa : bool;
  ta_objs : bool;
  ta_indices : bool;
  ta_realloc : nat -> bool * bool * Z;
}.

(** The self test. [rnd n] is the [n]-th result of [random()]; [None] is the
    call of [abort()] in [test_failed]. *)
Fixpoint test_loop (iters : nat) (a : test_allocs) (rnd : nat -> Z) (n : nat) (sa : sparse_array_t)
    : res (option sparse_array_t) :=
  match iters with
  | O => Ok (Some sa)
  | S iters =>
      let rnd_i := Z.rem (rnd n) MAX_NUM in
      let rnd_data := Z.rem (rnd (S n)) MAX_NUM in
      let '(re_idx, re_obj, errno) := ta_realloc a n in
      '(ret, sa) ← sparse_array_set sa rnd_i rnd_data re_idx re_obj errno;
      if ret <? 0 then Ok None
      else
        '(ret, objp) ← sparse_array_get sa rnd_i;
        if ret <? 0 then Ok None
        else
          match objp with
          | None => Undef
          | Some objp =>
              if negb (objp =? rnd_data) then Ok None
              else test_loop iters a rnd (S (S n)) sa
          end
  end.

Definition run_test1 (a : test_allocs) (rnd : nat -> Z) : res (option Z) :=
  match sparse_array_create (ta_sa a) (ta_objs a) (ta_indices a) with
  | None => Ok None
  | Some sa =>
      r ← test_loop (Z.to_nat 10000) a rnd 0 sa;
      Ok (match r with Some _ => Some 0 | None => None end)
  end.

(** ** Representation *)

(** [sa] holds the keys [ks], in order, with the values [vs]. *)
Record sa_rep (sa : sparse_array_t) (ks vs : list Z) : Prop := {
  rep_idx : exists tl, indices sa = (Some <$> ks) ++ tl;
  rep_obj : exists tl, objs sa = (Some <$> vs) ++ tl;
  rep_len : length ks = length vs;
  rep_nr : nr_objs sa = Z.of_nat (length ks);
  rep_inc : increasing ks;
  rep_size : 0 < size sa <= INT_MAX;
  rep_fits : nr_objs sa <= size sa;
  rep_idx_len : size sa <= Z.of_nat (length (indices sa));
  rep_obj_len : size sa <= Z.of_nat (length (objs sa));
}.

Definition kvmap (ks vs : list Z) : gmap Z Z := list_to_map (zip ks vs).

(** The abstract state: a finite map from indices to objects. *)
Definition represents (sa : sparse_array_t) (m : gmap Z Z) : Prop :=
  exists ks vs, sa_rep sa ks vs /\ m = kvmap ks vs.

Lemma increasing_NoDup ks : increasing ks -> NoDup ks.
Proof.
  intros H. apply NoDup_alt. intros i j x Hi Hj.
  destruct (decide (i < j)%nat) as [L|L]; [pose proof (H _ _ _ _ L Hi Hj); lia|].
  destruct (decide (j < i)%nat) as [L'|L']; [pose proof (H _ _ _ _ L' Hj Hi); lia|lia].
Qed.

Lemma kvmap_lookup ks vs i k v :
  increasing ks -> length ks = length vs ->
  ks !! i = Some k -> vs !! i = Some v -> kvmap ks vs !! k = Some v.
Proof.
  intros Hi Hl Hk Hv. unfold kvmap.
  apply elem_of_list_to_map.
  - rewrite fst_zip by lia. by apply increasing_NoDup.
  - apply list_elem_of_lookup. exists i. by rewrite lookup_zip_with, Hk, Hv.
Qed.

Lemma kvmap_None ks vs k : length ks = length vs -> k ∉ ks -> kvmap ks vs !! k = None.
Proof.
  intros Hl Hk. unfold kvmap. apply not_elem_of_list_to_map.
  by rewrite fst_zip by lia.
Qed.

Lemma zip_insert_at (ks vs : list Z) p k v :
  length ks = length vs ->
  zip (take p ks ++ k :: drop p ks) (take p vs ++ v :: drop p vs)
  = take p (zip ks vs) ++ (k, v) :: drop p (zip ks vs).
Proof.
  intros Hl. rewrite zip_with_app by (rewrite !length_take; lia).
  cbn. by rewrite zip_with_take, zip_with_drop.
Qed.

Lemma kvmap_insert_at ks vs p k v :
  increasing ks -> length ks = length vs -> insertion_point ks k p ->
  kvmap (take p ks ++ k :: drop p ks) (take p vs ++ v :: drop p vs)
  = <[k:=v]> (kvmap ks vs).
Proof.
  intros Hi Hl Hp. unfold kvmap. rewrite zip_insert_at by done.
  assert (P : take p (zip ks vs) ++ (k, v) :: drop p (zip ks vs)
              ≡ₚ (k, v) :: zip ks vs).
  { rewrite <- Permutation_middle. by rewrite take_drop. }
  rewrite <- list_to_map_cons.
  apply list_to_map_proper; [|done].
  rewrite P. cbn. apply NoDup_cons. rewrite fst_zip by lia. split.
  - by eapply insertion_point_notin.
  - by apply increasing_NoDup.
Qed.

Lemma kvmap_update ks vs p k v :
  increasing ks -> length ks = length vs -> ks !! p = Some k ->
  kvmap ks (<[p:=v]> vs) = <[k:=v]> (kvmap ks vs).
Proof.
  intros Hi Hl Hk. apply map_eq. intros q.
  assert (Hp : (p < length vs)%nat) by (rewrite <- Hl; by eapply lookup_lt_Some).
  destruct (decide (q ∈ ks)) as [[i Hq]%list_elem_of_lookup|Hq].
  - assert (Hv : is_Some (vs !! i)).
    { apply lookup_lt_is_Some_2. rewrite <- Hl. by eapply lookup_lt_Some. }
    destruct Hv as [w Hw]. destruct (decide (p = i)) as [->|Hne].
    + rewrite Hk in Hq. injection Hq as ->. rewrite lookup_insert_eq.
      eapply kvmap_lookup; [done | by rewrite length_insert | done |].
      by apply list_lookup_insert_eq.
    + assert (k <> q).
      { intros ->. apply Hne. eapply NoDup_lookup; [|done..].
        by apply increasing_NoDup. }
      rewrite lookup_insert_ne by done. rewrite (kvmap_lookup ks vs i q w) by done.
      eapply kvmap_lookup; [done | by rewrite length_insert | done |].
      by rewrite list_lookup_insert_ne.
  - rewrite lookup_insert_ne.
    2: { intros ->. apply Hq. by eapply list_elem_of_lookup_2. }
    rewrite !kvmap_None; [done|done|done|by rewrite length_insert|done].
Qed.

(** ** Binary search *)

(** What the search promises on a sorted prefix: the position of [x], or the
    complement of its insertion point. *)
Definition search_result (ks : list Z) (x r : Z) : Prop :=
  (0 <= r /\ ks !! Z.to_nat r = Some x) \/
  (r < 0 /\ exists p : nat, r = Z.lnot (Z.of_nat p) /\ insertion_point ks x p).

(** The loop invariant: [low] and [high] bracket the insertion point. *)
Definition brackets (ks : list Z) (x low high : Z) : Prop :=
  0 <= low <= high /\ high <= Z.of_nat (length ks) /\
  (forall i y, (Z.of_nat i < low) -> ks !! i = Some y -> y < x) /\
  (forall i y, (high <= Z.of_nat i) -> ks !! i = Some y -> x < y).

Lemma brackets_left ks x low high m y :
  increasing ks -> brackets ks x low high -> low <= m < high ->
  ks !! Z.to_nat m = Some y -> x < y -> brackets ks x low m.
Proof.
  intros Hi (H1 & H2 & H3 & H4) Hm Hy Hxy. repeat split; try lia; [done|].
  intros i z Hiz Hz. destruct (decide (i = Z.to_nat m)) as [->|]; [congruence|].
  pose proof (Hi (Z.to_nat m) i y z ltac:(lia) Hy Hz). lia.
Qed.

Lemma brackets_right ks x low high m y :
  increasing ks -> brackets ks x low high -> low <= m < high ->
  ks !! Z.to_nat m = Some y -> y < x -> brackets ks x (m + 1) high.
Proof.
  intros Hi (H1 & H2 & H3 & H4) Hm Hy Hxy. repeat split; try lia; [|done].
  intros i z Hiz Hz. destruct (decide (i = Z.to_nat m)) as [->|]; [congruence|].
  pose proof (Hi i (Z.to_nat m) z y ltac:(lia) Hz Hy). lia.
Qed.

Lemma mid_bounds low high :
  0 <= low < high -> low <= low + Z.quot (high - low) 2 < high.
Proof.
  intros H. rewrite Z.quot_div_nonneg by lia.
  pose proof (Z.div_pos (high - low) 2 ltac:(lia) ltac:(lia)).
  pose proof (Z.div_lt (high - low) 2 ltac:(lia) ltac:(lia)). lia.
Qed.

(** With as much fuel as there are candidates the loop ends, and its [mid] is
    either the position of [x] or next to the point where the bracket closed. *)
Lemma bsearch_loop_spec ks tl x fuel low high mid :
  increasing ks -> brackets ks x low high -> high - low <= Z.of_nat fuel ->
  (low < high \/ 0 <= mid < Z.of_nat (length ks) /\ (mid = high \/ mid = low - 1)) ->
  exists m, bsearch_loop fuel ((Some <$> ks) ++ tl) x low high mid = Ok m /\
    0 <= m < Z.of_nat (length ks) /\
    (ks !! Z.to_nat m = Some x \/
     exists p, brackets ks x p p /\ (m = p \/ m = p - 1)).
Proof.
  intros Hi. revert low high mid.
  induction fuel as [|fuel IH]; intros low high mid Hb Hf Hm; simpl;
    pose proof Hb as (? & ? & ? & ?).
  - destruct (Z.ltb_spec low high); [lia|]. assert (low = high) as -> by lia.
    exists mid. split; [done|]. split; [lia|]. right. exists high. split; [done|lia].
  - destruct (Z.ltb_spec low high).
    2: { assert (low = high) as -> by lia.
         exists mid. split; [done|]. split; [lia|]. right. exists high. split; [done|lia]. }
    pose proof (mid_bounds low high ltac:(lia)) as Hmid.
    set (mid' := low + Z.quot (high - low) 2) in *.
    destruct (lookup_lt_is_Some_2 ks (Z.to_nat mid')) as [y Hy]; [lia|].
    rewrite (rdc_init ks tl mid' y) by (done || lia). rewrite bind_Ok.
    destruct (Z.eqb_spec x y) as [->|].
    + exists mid'. split; [done|]. split; [lia|]. by left.
    + destruct (Z.ltb_spec x y).
      * apply IH; [by eapply brackets_left|lia..].
      * apply IH; [eapply brackets_right; [done..|lia]|lia..].
Qed.

Lemma brackets_insertion_point ks x p :
  brackets ks x p p -> insertion_point ks x (Z.to_nat p).
Proof.
  intros (H1 & H2 & H3 & H4). split; [lia|]. split; intros i y Hi Hy.
  - apply (H3 i y); [lia|done].
  - apply (H4 i y); [lia|done].
Qed.

(** The functional specification of [binary_search]. *)
Lemma binary_search_correct ks tl x :
  increasing ks -> Z.of_nat (length ks) <= INT_MAX ->
  exists r, binary_search ((Some <$> ks) ++ tl) x (Z.of_nat (length ks)) = Ok r /\
    search_result ks x r.
Proof.
  intros Hi Hl. unfold binary_search.
  rewrite int_of_Ok by (unfold INT_MIN; lia). rewrite bind_Ok, Z.add_0_l.
  destruct (Z.eqb_spec (Z.of_nat (length ks)) 0) as [E|E].
  - exists (Z.lnot 0). split; [done|]. right. split; [done|]. exists 0%nat.
    split; [done|]. apply nil_length_inv in E || destruct ks; [|done].
    repeat split; [done|lia|]. intros i y _ Hy. by rewrite lookup_nil in Hy.
  - destruct (bsearch_loop_spec ks tl x (Z.to_nat (Z.of_nat (length ks))) 0
      (Z.of_nat (length ks)) 0) as (m & Em & Hm0 & Hm); [done| |lia|lia|].
    { repeat split; try lia. intros i y Hiy Hy. apply lookup_lt_Some in Hy. lia. }
    rewrite Em, bind_Ok.
    destruct (lookup_lt_is_Some_2 ks (Z.to_nat m)) as [y Hy]; [lia|].
    rewrite (rdc_init ks tl m y) by (done || lia). rewrite bind_Ok.
    destruct (Z.eqb_spec y x) as [->|Hne].
    { exists m. split; [done|]. left. split; [lia|done]. }
    destruct Hm as [Hm|(p & Hp & Hmp)]; [congruence|].
    pose proof (brackets_insertion_point _ _ _ Hp) as Hip.
    destruct Hp as (Hp1 & Hp2 & Hp3 & Hp4).
    destruct (Z.ltb_spec y x) as [Hlt|Hge];
      (eexists; split; [reflexivity|]; right; split; [unfold Z.lnot; lia|];
       exists (Z.to_nat p); split; [f_equal|done]).
    + destruct Hmp as [->|]; [|lia]. pose proof (Hp4 (Z.to_nat p) y ltac:(lia) Hy). lia.
    + destruct Hmp as [->|]; [lia|]. pose proof (Hp3 (Z.to_nat m) y ltac:(lia) Hy). lia.
Qed.

(** ** Operations on represented arrays *)

Lemma rep_search sa ks vs x :
  sa_rep sa ks vs ->
  exists r, binary_search (indices sa) x (nr_objs sa) = Ok r /\ search_result ks x r.
Proof.
  intros [[tl ->] _ _ Hn Hi Hs Hf _ _]. rewrite Hn. apply binary_search_correct; [done|lia].
Qed.

Lemma rep_value sa ks vs r k :
  sa_rep sa ks vs -> 0 <= r -> ks !! Z.to_nat r = Some k ->
  exists v, rdc (objs sa) r = Ok v /\ vs !! Z.to_nat r = Some v /\ kvmap ks vs !! k = Some v.
Proof.
  intros H Hr Hk. destruct H as [_ [tl ->] Hl _ Hi _ _ _ _].
  destruct (lookup_lt_is_Some_2 vs (Z.to_nat r)) as [v Hv].
  { rewrite <- Hl. by eapply lookup_lt_Some. }
  exists v. split; [by apply rdc_init|]. split; [done|]. by eapply kvmap_lookup.
Qed.

(** Growing keeps the contents and makes room; a failed [realloc] keeps the
    array valid. *)
Lemma grow_rep sa ks vs re_idx re_obj :
  sa_rep sa ks vs -> (nr_objs sa = size sa -> size sa * 2 <= INT_MAX) ->
  exists (go : bool) (sa' : sparse_array_t) (ia : option (blk Z)),
    sparse_array_grow sa re_idx re_obj = Ok (go, sa', ia) /\
    sa_rep sa' ks vs /\ nr_objs sa' = nr_objs sa /\
    size sa' <= Z.max (size sa) (2 * nr_objs sa) /\
    (go = true -> nr_objs sa' < size sa') /\
    (go = false <-> nr_objs sa = size sa /\ re_idx && re_obj = false).
Proof.
  intros H Hmax. unfold sparse_array_grow.
  pose proof H as [[ti Ei] [to Eo] Hl Hn Hi Hs Hf Hil Hol].
  destruct (Z.eqb_spec (nr_objs sa) (size sa)) as [E|E].
  2: { do 3 eexists. split; [reflexivity|]. split; [done|]. repeat split; first [tauto | intros; lia]. }
  assert (Ri : exists tl, realloc (indices sa) (size sa * 2) = (Some <$> ks) ++ tl).
  { rewrite Ei. apply realloc_init. lia. }
  assert (Ro : exists tl, realloc (objs sa) (size sa * 2) = (Some <$> vs) ++ tl).
  { rewrite Eo. apply realloc_init. lia. }
  pose proof (realloc_length (indices sa) (size sa * 2) ltac:(lia)) as Li.
  pose proof (realloc_length (objs sa) (size sa * 2) ltac:(lia)) as Lo.
  destruct re_idx, re_obj; cbn [andb]; try rewrite int_of_Ok, bind_Ok by (unfold INT_MIN; lia);
    (do 3 eexists; split; [reflexivity|]; split;
      [constructor; cbn; (done || lia || eauto)|cbn; repeat split; first [tauto | intros; lia]]).
Qed.

Lemma rep_insert sa ks vs ia p index obj :
  sa_rep sa ks vs -> insertion_point ks index p -> nr_objs sa < size sa ->
  exists sa', sparse_array_insert sa ia (Z.of_nat p) index obj = Ok sa' /\
    sa_rep sa' (take p ks ++ index :: drop p ks) (take p vs ++ obj :: drop p vs) /\
    nr_objs sa' = nr_objs sa + 1 /\ size sa' = size sa.
Proof.
  intros [[ti Ei] [to Eo] Hl Hn Hi Hs Hf Hil Hol] Hp Hroom.
  pose proof (proj1 Hp) as Hple. unfold sparse_array_insert.
  destruct (Z.ltb_spec (Z.of_nat p) (size sa)); [|lia].
  rewrite Ei, length_app, length_fmap in Hil. rewrite Eo, length_app, length_fmap in Hol.
  destruct ti as [|ci ti]; [cbn in Hil; lia|]. destruct to as [|co to]; [cbn in Hol; lia|].
  cbn [length] in Hil, Hol.
  pose proof (memmove_insert ks ci ti p index Hple) as Mi.
  pose proof (memmove_insert vs co to p obj ltac:(lia)) as Mo.
  apply bind_Ok_inv in Mi as (mi & Mi1 & Mi2). apply bind_Ok_inv in Mo as (mo & Mo1 & Mo2).
  rewrite Ei, Eo, Hn, Mi1, bind_Ok. rewrite Hl, Mo1, bind_Ok, Mi2, bind_Ok, Mo2, bind_Ok.
  rewrite int_of_Ok by (unfold INT_MIN, INT_MAX in *; lia). rewrite bind_Ok.
  eexists. split; [reflexivity|]. cbn. split; [|lia].
  constructor; cbn -[Z.of_nat]; rewrite ?length_insert_at by lia; eauto;
    rewrite ?length_app, ?length_fmap, ?length_insert_at by lia; try lia.
  by apply increasing_insert.
Qed.

Lemma rep_overwrite sa ks vs r k obj :
  sa_rep sa ks vs -> 0 <= r -> ks !! Z.to_nat r = Some k ->
  exists o, wrc (objs sa) r obj = Ok o /\
    sa_rep (SparseArray o (size sa) (indices sa) (nr_objs sa)) ks (<[Z.to_nat r := obj]> vs).
Proof.
  intros [Ei [to Eo] Hl Hn Hi Hs Hf Hil Hol] Hr Hk. apply lookup_lt_Some in Hk.
  rewrite Eo, length_app, length_fmap in Hol.
  rewrite Eo, wrc_init_old by lia. eexists. split; [reflexivity|].
  constructor; cbn; rewrite ?length_app, ?length_fmap, ?length_insert; eauto.
Qed.

(** How [sparse_array_set] behaves on a represented array, on every path. *)
Lemma set_rep sa ks vs index obj re_idx re_obj errno :
  sa_rep sa ks vs -> (nr_objs sa = size sa -> size sa * 2 <= INT_MAX) ->
  exists ret sa' ks' vs',
    sparse_array_set sa index obj re_idx re_obj errno = Ok (ret, sa') /\
    sa_rep sa' ks' vs' /\
    size sa' <= Z.max (size sa) (2 * nr_objs sa) /\ nr_objs sa' <= nr_objs sa + 1 /\
    (if decide (index ∉ ks /\ nr_objs sa = size sa /\ re_idx && re_obj = false)
     then ret = - errno /\ kvmap ks' vs' = kvmap ks vs
     else ret = 0 /\ kvmap ks' vs' = <[index:=obj]> (kvmap ks vs)).
Proof.
  intros H Hmax. unfold sparse_array_set.
  destruct (rep_search sa ks vs index H) as (r & -> & Hr). rewrite bind_Ok.
  pose proof H as [_ _ Hl _ Hi Hs _ _ _].
  destruct Hr as [[Hr0 Hk]|(Hr0 & p & -> & Hp)].
  - destruct (Z.ltb_spec r 0); [lia|].
    destruct (rep_overwrite sa ks vs r index obj H Hr0 Hk) as (o & -> & Ho). rewrite bind_Ok.
    do 4 eexists. split; [reflexivity|]. split; [done|]. cbn. split; [lia|]. split; [lia|].
    rewrite decide_False by (intros [Hx _]; apply Hx; by eapply list_elem_of_lookup_2).
    split; [done|]. by apply kvmap_update.
  - destruct (Z.ltb_spec (Z.lnot (Z.of_nat p)) 0); [|lia]. rewrite Z.lnot_involutive.
    destruct (grow_rep sa ks vs re_idx re_obj H Hmax)
      as (go & sa1 & ia & -> & H1 & En & Hsz & Hgo & Hfail). rewrite bind_Ok.
    pose proof (insertion_point_notin _ _ _ Hp) as Hnot. destruct go.
    + destruct (rep_insert sa1 ks vs ia p index obj H1 Hp (Hgo eq_refl))
        as (sa2 & -> & H2 & En2 & Es2). rewrite bind_Ok.
      do 4 eexists. split; [reflexivity|]. split; [done|]. split; [lia|]. split; [lia|].
      rewrite decide_False by (intros (_ & ? & ?); by apply diff_true_false, Hfail).
      split; [done|]. by apply kvmap_insert_at.
    + do 4 eexists. split; [reflexivity|]. split; [done|]. split; [lia|]. split; [lia|].
      rewrite decide_True by tauto. done.
Qed.

Lemma get_rep sa ks vs index :
  sa_rep sa ks vs ->
  sparse_array_get sa index =
    Ok (match kvmap ks vs !! index with Some v => (0, Some v) | None => (-1, None) end).
Proof.
  intros H. unfold sparse_array_get.
  destruct (rep_search sa ks vs index H) as (r & -> & Hr). rewrite bind_Ok.
  destruct Hr as [[Hr0 Hk]|(Hr0 & p & -> & Hp)].
  - destruct (Z.leb_spec 0 r); [|lia].
    destruct (rep_value sa ks vs r index H Hr0 Hk) as (v & -> & _ & ->). done.
  - destruct (Z.leb_spec 0 (Z.lnot (Z.of_nat p))); [lia|].
    rewrite kvmap_None; [done|apply H|by eapply insertion_point_notin].
Qed.

Lemma create_rep sa : sparse_array_create true true true = Some sa ->
  sa_rep sa [] [] /\ size sa = 64 /\ nr_objs sa = 0.
Proof.
  intros [= <-]. split; [|done].
  constructor; simpl; eauto; try done; intros i j x y _ Hx; by rewrite lookup_nil in Hx.
Qed.

(** The table that [sparse_array_create] returns when one of its arrays could not be
    allocated: nothing is found in it, and the first insertion is undefined. *)
Lemma set_null m2 m3 sa index obj re_idx re_obj errno :
  sparse_array_create true m2 m3 = Some sa -> m2 && m3 = false ->
  sparse_array_set sa index obj re_idx re_obj errno = Undef.
Proof. intros [= <-]. by destruct m2, m3. Qed.

Lemma get_null m2 m3 sa index :
  sparse_array_create true m2 m3 = Some sa -> sparse_array_get sa index = Ok (-1, None).
Proof. by intros [= <-]. Qed.

(** The two [realloc]s of the [set] that uses the [n]-th random number fail. *)
Definition realloc_fails (a : test_allocs) (n : nat) : Prop :=
  (ta_realloc a n).1.1 && (ta_realloc a n).1.2 = false.

(** The rounds of the self test on a represented array: they go on to the end, or one
    of them finds the array full and no memory. *)
Lemma test_loop_runs iters a rnd n sa ks vs :
  (forall k, 0 <= rnd k) -> (forall k, 0 < (ta_realloc a k).2) -> sa_rep sa ks vs ->
  nr_objs sa + Z.of_nat iters <= 10000 -> size sa <= 20000 ->
  (exists sa', test_loop iters a rnd n sa = Ok (Some sa')) \/
  (test_loop iters a rnd n sa = Ok None /\ exists k, realloc_fails a k).
Proof.
  intros Hrnd Herr. revert n sa ks vs. induction iters as [|iters IH]; intros n sa ks vs H Hn Hs.
  - left. by exists sa.
  - cbn [test_loop]. set (i := Z.rem (rnd n) MAX_NUM). set (d := Z.rem (rnd (S n)) MAX_NUM).
    pose proof (Herr n) as He. destruct (ta_realloc a n) as [[re_idx re_obj] errno] eqn:Ea. cbn in He.
    destruct (set_rep sa ks vs i d re_idx re_obj errno H)
      as (ret & sa' & ks' & vs' & -> & H' & Hs' & Hn' & E).
    { unfold INT_MAX. lia. }
    rewrite bind_Ok. case_decide as D.
    { destruct E as [-> _]. rewrite (proj2 (Z.ltb_lt _ _)) by lia. right. split; [done|].
      exists n. unfold realloc_fails. rewrite Ea. apply D. }
    destruct E as [-> E]. cbn [Z.ltb].
    rewrite (get_rep sa' ks' vs' i H'), E, lookup_insert_eq, bind_Ok. cbn [Z.ltb].
    change (0 <? 0) with false. cbv iota. rewrite Z.eqb_refl. cbn [negb].
    apply (IH _ sa' ks' vs' H'); lia.
Qed.

(** [sparse_array_set] implements insertion in a finite map: on an array
    that represents [m], with room to double, the call stores the object and
    returns 0; when the index is new, the array is full and one of the two
    [realloc]s fails it returns [-errno] and the array still represents [m].
    No access is out of bounds on any path. *)
Theorem sparse_array_set_refines sa m index obj re_idx re_obj errno :
  represents sa m -> (nr_objs sa = size sa -> size sa * 2 <= INT_MAX) ->
  exists ret sa' m', sparse_array_set sa index obj re_idx re_obj errno = Ok (ret, sa') /\
    represents sa' m' /\
    (if decide (m !! index = None /\ nr_objs sa = size sa /\ re_idx && re_obj = false)
     then ret = - errno /\ m' = m else ret = 0 /\ m' = <[index:=obj]> m).
Proof.
  intros (ks & vs & H & ->) Hmax.
  destruct (set_rep sa ks vs index obj re_idx re_obj errno H Hmax)
    as (ret & sa' & ks' & vs' & E & H' & _ & _ & Hr).
  exists ret, sa', (kvmap ks' vs'). split; [done|]. split; [by exists ks', vs'|].
  assert (Hin : kvmap ks vs !! index = None <-> index ∉ ks).
  { destruct H as [_ _ Hl _ Hi _ _ _ _]. split; [|by apply kvmap_None].
    intros Hm [i Hk]%list_elem_of_lookup.
    destruct (lookup_lt_is_Some_2 vs i) as [v Hv].
    { rewrite <- Hl. by eapply lookup_lt_Some. }
    by rewrite (kvmap_lookup ks vs i index v) in Hm. }
  destruct (decide (index ∉ ks /\ _)) as [D|D].
  - by rewrite decide_True by tauto.
  - by rewrite decide_False by tauto.
Qed.

Definition sa_one : sparse_array_t :=
  {| objs := replicate 64 None; size := 64; indices := replicate 64 None; nr_objs := 0 |}.

Lemma sa_one_represents : represents sa_one ∅.
Proof. exists [], []. split; [|done]. by apply create_rep. Qed.

Lemma sparse_array_set_refines_witness :
  exists ret sa' m', sparse_array_set sa_one 7 42 true true 12 = Ok (ret, sa') /\
    represents sa' m' /\ ret = 0 /\ m' !! 7 = Some 42.
Proof.
  destruct (sparse_array_set_refines sa_one ∅ 7 42 true true 12) as (r & s & m & E & H & D).
  - exact sa_one_represents.
  - discriminate.
  - exists r, s, m. split; [exact E|]. split; [exact H|].
    vm_compute in D. destruct D as [-> ->]. split; reflexivity.
Defined.

(** [sparse_array_get] implements lookup: 0 and the stored object when the
    index is present, -1 and no store through the pointer otherwise. *)
Theorem sparse_array_get_refines sa m index :
  represents sa m ->
  sparse_array_get sa index =
    Ok (match m !! index with Some v => (0, Some v) | None => (-1, None) end).
Proof. intros (ks & vs & H & ->). by apply get_rep. Qed.

Lemma sparse_array_get_refines_witness : sparse_array_get sa_one 7 = Ok (-1, None).
Proof. exact (sparse_array_get_refines sa_one ∅ 7 sa_one_represents). Defined.

(** C17. The program's self test, whatever (non-negative) numbers [random] yields and
    however the allocations go: without memory for the table it aborts; if the table
    is there but one of its two arrays is not, the first insertion is undefined, since
    [sparse_array_create] does not test them; otherwise its 10000 rounds stay inside
    the arrays, and it returns 0 unless a [realloc] fails, when it may abort. *)
Theorem run_test1_passes a rnd :
  (forall n, 0 <= rnd n) -> (forall n, 0 < (ta_realloc a n).2) ->
  (ta_sa a = false -> run_test1 a rnd = Ok None) /\
  (ta_sa a = true -> ta_objs a && ta_indices a = false -> run_test1 a rnd = Undef) /\
  (ta_sa a && ta_objs a && ta_indices a = true ->
     run_test1 a rnd = Ok (Some 0) \/ (run_test1 a rnd = Ok None /\ exists n, realloc_fails a n)).
Proof.
  intros Hrnd Herr. unfold run_test1. split; [by intros ->|]. split.
  - intros -> Hm. destruct (sparse_array_create _ _ _) as [sa|] eqn:E; [|discriminate].
    replace (Z.to_nat 10000) with (S (Z.to_nat 9999)) by lia. cbn [test_loop].
    destruct (ta_realloc a 0) as [[re_idx re_obj] errno]. by rewrite (set_null _ _ _ _ _ _ _ _ E Hm).
  - intros [[-> ->]%andb_true_iff ->]%andb_true_iff.
    destruct (sparse_array_create true true true) as [sa|] eqn:E; [|discriminate].
    apply create_rep in E as (H & Hs & Hn).
    destruct (test_loop_runs (Z.to_nat 10000) a rnd 0 sa [] [] Hrnd Herr H) as [(sa' & ->)|[-> Hf]];
      [lia|lia|by left|by right].
Qed.

Lemma run_test1_passes_witness :
  run_test1 (TestAllocs true true true (fun _ => (true, true, 12))) (fun n => Z.of_nat n * 7919) =
  Ok (Some 0).
Proof.
  destruct (run_test1_passes (TestAllocs true true true (fun _ => (true, true, 12)))
    (fun n => Z.of_nat n * 7919)) as (_ & _ & H).
  - intros n. lia.
  - intros n. cbn. lia.
  - destruct (H eq_refl) as [E|[_ [n E]]]; [exact E|discriminate E].
Defined.
