(* ===== verification/SparseHistory.v ===== *)
(** * Histories of the sparse array of src/test_sparse_array.c

    The operations of SparseArray.v in any order and number, allocation failures
    included, against a finite map. *)
From stdpp Require Import base list gmap.
From Stdlib Require Import ZArith Lia.
From S2P Require Import Prelude SparseArray.

Open Scope Z_scope.

(** A call; for [OpSet], whether each [realloc] would succeed, and what it leaves in
    [errno]. *)
Inductive sa_op : Type :=
| OpSet (index obj : Z) (re_idx re_obj : bool) (errno : Z)
| OpGet (index : Z).

(** What a call returns, and what it stores through its pointer. *)
Definition sa_call (op : sa_op) (sa : sparse_array_t) : res ((Z * option Z) * sparse_array_t) :=
  match op with
  | OpSet index obj re_idx re_obj errno =>
      '(ret, sa) ← sparse_array_set sa index obj re_idx re_obj errno; Ok ((ret, None), sa)
  | OpGet index => out ← sparse_array_get sa index; Ok (out, sa)
  end.

Fixpoint sa_calls (ops : list sa_op) (sa : sparse_array_t)
    : res (list (Z * option Z) * sparse_array_t) :=
  match ops with
  | [] => Ok ([], sa)
  | op :: ops =>
      '(out, sa) ← sa_call op sa;
      '(outs, sa) ← sa_calls ops sa;
      Ok (out :: outs, sa)
  end.

(** The contract: a finite map, whose insertion of a new index may fail for want of
    memory, and then leaves it as it was. *)
Inductive map_call : sa_op -> gmap Z Z -> Z * option Z -> gmap Z Z -> Prop :=
| mc_set index obj re_idx re_obj errno m :
    map_call (OpSet index obj re_idx re_obj errno) m (0, None) (<[index := obj]> m)
| mc_full index obj re_idx re_obj errno m :
    m !! index = None -> re_idx && re_obj = false ->
    map_call (OpSet index obj re_idx re_obj errno) m (- errno, None) m
| mc_found index v m : m !! index = Some v -> map_call (OpGet index) m (0, Some v) m
| mc_absent index m : m !! index = None -> map_call (OpGet index) m (-1, None) m.

Inductive map_calls : list sa_op -> gmap Z Z -> list (Z * option Z) -> gmap Z Z -> Prop :=
| ms_nil m : map_calls [] m [] m
| ms_cons op ops m m1 m2 out outs :
    map_call op m out m1 -> map_calls ops m1 outs m2 ->
    map_calls (op :: ops) m (out :: outs) m2.

(** As many objects as there were insertions, and arrays of at most twice as many. *)
Definition sa_sized (n : Z) (sa : sparse_array_t) : Prop :=
  nr_objs sa <= n /\ size sa <= Z.max 64 (2 * n).

Lemma map_absent sa ks vs index : sa_rep sa ks vs -> index ∉ ks -> kvmap ks vs !! index = None.
Proof. intros [_ _ Hl _ _ _ _ _ _]. by apply kvmap_None. Qed.

Lemma sa_call_refines op sa ks vs n :
  sa_rep sa ks vs -> sa_sized n sa -> 0 <= n -> 4 * n + 128 <= INT_MAX ->
  exists out sa' ks' vs', sa_call op sa = Ok (out, sa') /\ sa_rep sa' ks' vs' /\
    sa_sized (n + 1) sa' /\ map_call op (kvmap ks vs) out (kvmap ks' vs').
Proof.
  intros H [Hn Hs] Hn0 Hmax. destruct op as [index obj re_idx re_obj errno|index]; cbn [sa_call].
  - destruct (set_rep sa ks vs index obj re_idx re_obj errno H)
      as (ret & sa' & ks' & vs' & -> & H' & Hs' & Hn' & E); [lia|].
    rewrite bind_Ok. do 4 eexists. split; [reflexivity|]. split; [done|]. split; [split; lia|].
    case_decide as D; destruct E as [-> ->]; [|constructor].
    destruct D as (D & _ & F). constructor; [by eapply map_absent|done].
  - rewrite (get_rep _ _ _ _ H), bind_Ok. do 4 eexists. split; [reflexivity|]. split; [done|].
    split; [split; lia|]. destruct (kvmap ks vs !! index) eqn:E; by constructor.
Qed.

Lemma sa_calls_refine ops sa ks vs n :
  sa_rep sa ks vs -> sa_sized n sa -> 0 <= n ->
  4 * (n + Z.of_nat (length ops)) + 128 <= INT_MAX ->
  exists outs sa' ks' vs', sa_calls ops sa = Ok (outs, sa') /\ sa_rep sa' ks' vs' /\
    map_calls ops (kvmap ks vs) outs (kvmap ks' vs').
Proof.
  revert sa ks vs n. induction ops as [|op ops IH]; intros sa ks vs n H Hz Hn Hmax; cbn [sa_calls].
  { do 4 eexists. split; [reflexivity|]. split; [done|constructor]. }
  cbn [length] in Hmax.
  destruct (sa_call_refines op sa ks vs n H Hz Hn) as (out & sa1 & ks1 & vs1 & -> & H1 & Hz1 & Hc); [lia|].
  rewrite bind_Ok.
  destruct (IH sa1 ks1 vs1 (n + 1) H1 Hz1) as (outs & sa2 & ks2 & vs2 & -> & H2 & Hcs); [lia..|].
  rewrite bind_Ok. do 4 eexists. split; [reflexivity|]. split; [done|]. by econstructor.
Qed.

Definition is_set (op : sa_op) : bool := match op with OpSet _ _ _ _ _ => true | OpGet _ => false end.

(** Calls on the table that was returned without one of its arrays. *)
Lemma sa_calls_null m2 m3 sa ops :
  sparse_array_create true m2 m3 = Some sa -> m2 && m3 = false ->
  sa_calls ops sa = if existsb is_set ops then Undef else Ok (map (fun _ => (-1, None)) ops, sa).
Proof.
  intros Hc Hm. induction ops as [|op ops IH]; [done|]. cbn [sa_calls existsb map].
  destruct op as [index obj re_idx re_obj errno|index]; cbn [sa_call is_set orb].
  - by rewrite (set_null _ _ _ _ _ _ _ _ Hc Hm).
  - rewrite (get_null _ _ _ _ Hc), !bind_Ok, IH. by destruct (existsb is_set ops).
Qed.

(** C16. From [sparse_array_create] through any sequence of up to 500 million calls, with
    allocation failures at any point. Without memory for the table itself the result
    is null. If the table is there but not both of its arrays, it is returned all the
    same: calls of get find nothing, and the first call of set is undefined. Otherwise
    the representation invariant of the sparse array (sorted indices without
    repetition, initialised up to [nr_objs], arrays of the recorded size) holds
    throughout: every call stays inside the arrays and returns what a finite map
    would, whichever [realloc]s fail. *)
Theorem sparse_array_history m1 m2 m3 ops :
  Z.of_nat (length ops) <= 500000000 ->
  (sparse_array_create m1 m2 m3 = None <-> m1 = false) /\
  forall sa, sparse_array_create m1 m2 m3 = Some sa ->
    if m2 && m3 then
      exists outs sa' m, sa_calls ops sa = Ok (outs, sa') /\ represents sa' m /\
        map_calls ops ∅ outs m
    else sa_calls ops sa = if existsb is_set ops then Undef
                           else Ok (map (fun _ => (-1, None)) ops, sa).
Proof.
  intros Hl. split; [by destruct m1|]. intros sa Hc. destruct m1; [|done].
  destruct (m2 && m3) eqn:Hm; [|by eapply sa_calls_null].
  apply andb_true_iff in Hm as [-> ->]. apply create_rep in Hc as (H & Hs & Hn).
  destruct (sa_calls_refine ops sa [] [] 0 H) as (outs & sa' & ks & vs & E & H' & Hm).
  - split; lia.
  - done.
  - unfold INT_MAX. lia.
  - exists outs, sa', (kvmap ks vs). split; [done|]. split; [by exists ks, vs|done].
Qed.

Definition ops0 : list sa_op :=
  [OpSet 7 1 true true 12; OpSet 3 2 true true 12; OpSet 7 5 false false 12; OpGet 7; OpGet 4].

Lemma sparse_array_history_witness :
  exists outs sa' m,
    sa_calls ops0 (SparseArray (malloc true 64) 64 (malloc true 64) 0) = Ok (outs, sa') /\
    represents sa' m /\ outs = [(0, None); (0, None); (0, None); (0, Some 5); (-1, None)].
Proof.
  destruct (sparse_array_history true true true ops0) as [_ H].
  - cbn. lia.
  - destruct (H (SparseArray (malloc true 64) 64 (malloc true 64) 0) eq_refl)
      as (outs & sa' & m & E & Hr & _).
    exists outs, sa', m. split; [exact E|]. split; [exact Hr|].
    vm_compute in E. by injection E as <- <-.
Defined.
