(* ===== verification/MyHash.v ===== *)
(** * The hash table of src/test_myhash.c

    Slots that hold growing arrays of hooks, insertion with the expansion of a slot or
    of the whole table, and the test in [main]. The build defines NDEBUG, so the
    [assert]s do nothing. The slots of an expanded table are never initialised: the
    theorems say exactly when that is reached. *)
From stdpp Require Import base list.
From Stdlib Require Import ZArith Lia.
From S2P Require Import Prelude.

Open Scope Z_scope.

(** [chain_hook_t]: the key and the data. *)
Abbreviation chain_hook_t := (Z * Z)%type.

Record slot_t : Type := Slot {
  nr_chain_hooks : Z;
  next_chain_hook : Z;
  chain_hooks : blk chain_hook_t;
}.

(** The table, and how many calls of [malloc] there have been. *)
Record hash_table_t : Type := HashTable {
  nr_slots : Z;
  slots : blk slot_t;
  mallocs : nat;
}.

Definition hash_key (key nr_slots : Z) : Z := Z.land key (nr_slots - 1).

Section Table.
Context (alloc : nat -> bool).              (* which calls of malloc succeed *)

Definition slot_init (ok : bool) (nr : Z) : slot_t := Slot nr 0 (malloc ok nr).

Fixpoint init_slots (todo : nat) (i nr : Z) (ht : hash_table_t) : res hash_table_t :=
  match todo with
  | O => Ok ht
  | S todo =>
      sl ← wrc (slots ht) i (slot_init (alloc (mallocs ht)) nr);
      init_slots todo (i + 1) nr (HashTable (nr_slots ht) sl (S (mallocs ht)))
  end.

(** The table is used before the test that it was allocated. *)
Definition hash_table_create (nr_slots nr : Z) : res hash_table_t :=
  ub_unless (alloc 0%nat)
    (init_slots (Z.to_nat nr_slots) 0 nr (HashTable nr_slots (malloc (alloc 1%nat) nr_slots) 2)).

Definition slot_usage (slt : slot_t) : res Z :=
  x ← int_of (next_chain_hook slt * 100);
  ub_unless (negb (nr_chain_hooks slt =? 0)) (Ok (Z.quot x (nr_chain_hooks slt))).

Fixpoint usage_loop (todo : nat) (i usage : Z) (ht : hash_table_t) : res Z :=
  match todo with
  | O => Ok usage
  | S todo =>
      slt ← rdc (slots ht) i;
      u ← slot_usage slt;
      usage ← int_of (usage + u);
      usage_loop todo (i + 1) usage ht
  end.

Definition hash_table_usage (ht : hash_table_t) : res Z :=
  usage ← usage_loop (Z.to_nat (nr_slots ht)) 0 0 ht;
  ub_unless (negb (nr_slots ht =? 0)) (Ok (Z.quot usage (nr_slots ht))).

(** Nothing changes when there is no memory; the caller does not look. *)
Definition slot_chain_hooks_expand (ok : bool) (slt : slot_t) : res slot_t :=
  if ok then
    ub_unless (nr_chain_hooks slt <=? Z.of_nat (length (chain_hooks slt)))
      (nr ← int_of (nr_chain_hooks slt * 2);
       Ok (Slot nr (next_chain_hook slt)
             (realloc (take (Z.to_nat (nr_chain_hooks slt)) (chain_hooks slt)) nr)))
  else Ok slt.

(** The loops of [hash_table_expand] over the hooks of a slot and over the old
    slots. *)
Fixpoint reinsert_hooks (insert : hash_table_t -> Z -> Z -> res hash_table_t)
    (todo : nat) (j : Z) (slt : slot_t) (ht : hash_table_t) : res hash_table_t :=
  match todo with
  | O => Ok ht
  | S todo =>
      ch ← rdc (chain_hooks slt) j;
      ht ← insert ht ch.1 ch.2;
      reinsert_hooks insert todo (j + 1) slt ht
  end.

Fixpoint reinsert_slots (insert : hash_table_t -> Z -> Z -> res hash_table_t)
    (todo : nat) (i : Z) (old : blk slot_t) (ht : hash_table_t) : res hash_table_t :=
  match todo with
  | O => Ok ht
  | S todo =>
      slt ← rdc old i;
      ht ← reinsert_hooks insert (Z.to_nat (next_chain_hook slt)) 0 slt ht;
      reinsert_slots insert todo (i + 1) old ht
  end.

Definition hash_table_expand (insert : hash_table_t -> Z -> Z -> res hash_table_t)
    (ht : hash_table_t) : res hash_table_t :=
  if alloc (mallocs ht) then
    nr ← int_of (nr_slots ht * 2);
    reinsert_slots insert (Z.to_nat (Z.quot nr 2)) 0 (slots ht)
      (HashTable nr (malloc true nr) (S (mallocs ht)))
  else Ok (HashTable (nr_slots ht) (slots ht) (S (mallocs ht))).

(** [fuel] bounds the depth of the recursion. *)
Fixpoint hash_table_insert (fuel : nat) (ht : hash_table_t) (key data : Z) : res hash_table_t :=
  match fuel with
  | O => NoFuel
  | S fuel =>
      let slot_i := hash_key key (nr_slots ht) in
      slt ← rdc (slots ht) slot_i;
      if next_chain_hook slt =? nr_chain_hooks slt then
        usage ← hash_table_usage ht;
        ht ← (if 90 <? usage then hash_table_expand (hash_table_insert fuel) ht
              else
                slt ← slot_chain_hooks_expand (alloc (mallocs ht)) slt;
                sl ← wrc (slots ht) slot_i slt;
                Ok (HashTable (nr_slots ht) sl (S (mallocs ht))));
        hash_table_insert fuel ht key data
      else
        hooks ← wrc (chain_hooks slt) (next_chain_hook slt) (key, data);
        next ← int_of (next_chain_hook slt + 1);
        sl ← wrc (slots ht) slot_i (Slot (nr_chain_hooks slt) next hooks);
        Ok (HashTable (nr_slots ht) sl (mallocs ht))
  end.

Fixpoint insert_all (fuel : nat) (pairs : list chain_hook_t) (ht : hash_table_t)
    : res hash_table_t :=
  match pairs with
  | [] => Ok ht
  | (key, data) :: pairs =>
      ht ← hash_table_insert fuel ht key data; insert_all fuel pairs ht
  end.

(** [pairs] are the random numbers of the successive insertions. The result is the
    table and the usage that is printed. *)
Definition hash_main (fuel : nat) (NR_SLOTS NR_CHAIN_HOOKS : Z) (pairs : list chain_hook_t)
    : res (hash_table_t * Z) :=
  ht ← hash_table_create NR_SLOTS NR_CHAIN_HOOKS;
  ht ← insert_all fuel pairs ht;
  usage ← hash_table_usage ht;
  Ok (ht, usage).

(** ** What a table holds *)

Record slot_rep (slt : slot_t) (items : list chain_hook_t) : Prop := {
  sr_items : exists tl, chain_hooks slt = (Some <$> items) ++ tl;
  sr_next : next_chain_hook slt = Z.of_nat (length items);
  sr_nr : nr_chain_hooks slt = Z.of_nat (length (chain_hooks slt));
  sr_pos : 0 < nr_chain_hooks slt;
}.

(** A table of [2 ^ k] slots that hold the lists of [m]; none of them more than [n]
    pairs. *)
Record ht_rep (k : Z) (n : Z) (ht : hash_table_t) (m : list (list chain_hook_t)) : Prop := {
  hr_k : 0 <= k <= 20;
  hr_nr : nr_slots ht = 2 ^ k;
  hr_len : Z.of_nat (length m) = 2 ^ k;
  hr_slots : exists sl, slots ht = Some <$> sl /\ Forall2 slot_rep sl m;
  hr_bound : Forall (fun items => Z.of_nat (length items) <= n) m;
}.

Definition full (slt : slot_t) : Prop := next_chain_hook slt = nr_chain_hooks slt.

Lemma hash_key_mod k key : 0 <= k -> hash_key key (2 ^ k) = key mod 2 ^ k.
Proof.
  intros Hk. unfold hash_key. rewrite <- Z.land_ones by done. f_equal.
  rewrite Z.ones_equiv. lia.
Qed.

Lemma hash_key_range k key : 0 <= k -> 0 <= hash_key key (2 ^ k) < 2 ^ k.
Proof. intros Hk. rewrite hash_key_mod by done. apply Z.mod_pos_bound. by apply Z.pow_pos_nonneg. Qed.

Lemma rdc_all {A} (l : list A) i x : l !! i = Some x -> rdc (Some <$> l) (Z.of_nat i) = Ok x.
Proof. intros H. apply rdc_Some; [lia|]. by rewrite Nat2Z.id, list_lookup_fmap, H. Qed.

Lemma wrc_all {A} (l : list A) i x :
  (i < length l)%nat -> wrc (Some <$> l) (Z.of_nat i) x = Ok (Some <$> <[i := x]> l).
Proof.
  intros H. unfold wrc. rewrite wr_Ok by (rewrite length_fmap; lia).
  by rewrite Nat2Z.id, list_fmap_insert.
Qed.

(** Writing the first free cell. *)
Lemma wrc_next {A} (l : list A) c (tl : blk A) x :
  wrc ((Some <$> l) ++ c :: tl) (Z.of_nat (length l)) x = Ok ((Some <$> (l ++ [x])) ++ tl).
Proof.
  unfold wrc. rewrite wr_Ok by (rewrite length_app, length_fmap; cbn; lia).
  rewrite Nat2Z.id, insert_app_r_alt by (rewrite length_fmap; lia).
  rewrite length_fmap, Nat.sub_diag. cbn. by rewrite fmap_app, <- (assoc_L (++)).
Qed.

Lemma slot_rep_le slt items : slot_rep slt items -> next_chain_hook slt <= nr_chain_hooks slt.
Proof. intros [[tl E] -> -> _]. rewrite E, length_app, length_fmap. lia. Qed.

Lemma slot_usage_ok slt items :
  slot_rep slt items -> Z.of_nat (length items) <= 20000000 ->
  exists u, slot_usage slt = Ok u /\ 0 <= u <= 100.
Proof.
  intros H Hl. pose proof (slot_rep_le _ _ H). destruct H as [_ Hn Hr Hp]. unfold slot_usage.
  rewrite int_of_Ok by (unfold INT_MIN, INT_MAX; lia).
  rewrite bind_Ok, ub_unless_true by (by rewrite (proj2 (Z.eqb_neq _ _)) by lia).
  eexists. split; [reflexivity|]. rewrite Z.quot_div_nonneg by lia. split.
  - apply Z.div_pos; lia.
  - apply Z.div_le_upper_bound; lia.
Qed.

Lemma usage_loop_ok sl m todo i usage nr c :
  Forall2 slot_rep sl m -> Forall (fun items => Z.of_nat (length items) <= 20000000) m ->
  (i + todo)%nat = length sl -> 0 <= usage -> usage + 100 * Z.of_nat todo <= INT_MAX ->
  exists u, usage_loop todo (Z.of_nat i) usage (HashTable nr (Some <$> sl) c) = Ok u.
Proof.
  intros Hs Hb. revert i usage. induction todo as [|todo IH]; intros i usage Hi Hu Hm; [by eexists|].
  cbn [usage_loop slots]. destruct (lookup_lt_is_Some_2 sl i) as [slt Hslt]; [lia|].
  rewrite (rdc_all _ _ _ Hslt), bind_Ok.
  destruct (Forall2_lookup_l _ _ _ _ _ Hs Hslt) as (items & Hit & Hr).
  pose proof (proj1 (Forall_lookup _ _) Hb _ _ Hit) as Hl. cbn in Hl.
  destruct (slot_usage_ok _ _ Hr Hl) as (u & -> & Hu1). rewrite bind_Ok.
  rewrite int_of_Ok by (unfold INT_MIN; lia). rewrite bind_Ok.
  replace (Z.of_nat i + 1) with (Z.of_nat (S i)) by lia. apply IH; lia.
Qed.

Lemma hash_table_usage_ok k n ht m :
  ht_rep k n ht m -> n <= 20000000 -> exists u, hash_table_usage ht = Ok u.
Proof.
  intros [Hk Hnr Hlen (sl & Hsl & Hs) Hb] Hn. destruct ht as [nr s c]. cbn in *. subst s nr.
  pose proof (Forall2_length _ _ _ Hs). pose proof (Z.pow_pos_nonneg 2 k ltac:(lia) ltac:(lia)).
  assert (2 ^ k <= 2 ^ 20) by (apply Z.pow_le_mono_r; lia).
  unfold hash_table_usage. cbn [nr_slots].
  destruct (usage_loop_ok sl m (Z.to_nat (2 ^ k)) 0 0 (2 ^ k) c Hs) as [u E].
  - eapply Forall_impl; [exact Hb|]. cbn. lia.
  - lia.
  - lia.
  - unfold INT_MAX. lia.
  - change (Z.of_nat 0) with 0 in E. rewrite E, bind_Ok, ub_unless_true by (by rewrite (proj2 (Z.eqb_neq _ _)) by lia). by eexists.
Qed.

(** ** Insertion *)

(** The list of the slot of [key], with the pair at its end. *)
Definition put (k : Z) (kv : chain_hook_t) (m : list (list chain_hook_t)) :=
  alter (fun items => items ++ [kv]) (Z.to_nat (hash_key kv.1 (2 ^ k))) m.

Lemma ht_slot k n ht m key :
  ht_rep k n ht m ->
  exists slt items, rdc (slots ht) (hash_key key (2 ^ k)) = Ok slt /\ slot_rep slt items /\
    m !! Z.to_nat (hash_key key (2 ^ k)) = Some items /\ Z.of_nat (length items) <= n.
Proof.
  intros [Hk Hnr Hlen (sl & Hsl & Hs) Hb]. pose proof (hash_key_range k key ltac:(lia)) as Hr.
  pose proof (Forall2_length _ _ _ Hs).
  destruct (lookup_lt_is_Some_2 sl (Z.to_nat (hash_key key (2 ^ k)))) as [slt Hslt]; [lia|].
  destruct (Forall2_lookup_l _ _ _ _ _ Hs Hslt) as (items & Hit & Hrep).
  exists slt, items. split; [|split; [done|split; [done|by eapply (Forall_lookup_1 _ _ _ _ Hb)]]].
  rewrite Hsl, <- (Z2Nat.id (hash_key _ _)) by lia. by apply rdc_all.
Qed.

(** Replacing a slot and what it holds. *)
Lemma ht_update k n ht m key slt items c :
  ht_rep k n ht m -> slot_rep slt items -> Z.of_nat (length items) <= n ->
  exists sl, wrc (slots ht) (hash_key key (2 ^ k)) slt = Ok sl /\
    ht_rep k n (HashTable (nr_slots ht) sl c) (<[Z.to_nat (hash_key key (2 ^ k)) := items]> m) /\
    rdc sl (hash_key key (2 ^ k)) = Ok slt.
Proof.
  intros [Hk Hnr Hlen (sl & Hsl & Hs) Hb] Hr Hn. pose proof (hash_key_range k key ltac:(lia)) as Hi.
  pose proof (Forall2_length _ _ _ Hs). rewrite Hsl.
  set (i := Z.to_nat (hash_key key (2 ^ k))).
  replace (hash_key key (2 ^ k)) with (Z.of_nat i) by (unfold i; lia).
  rewrite wrc_all by lia. eexists. split; [reflexivity|]. split.
  - constructor; cbn; [done..|by rewrite length_insert| |].
    + eexists. split; [reflexivity|]. by apply Forall2_insert.
    + by apply Forall_insert.
  - apply rdc_all. apply list_lookup_insert_eq. unfold i. lia.
Qed.

Lemma slot_expand_rep slt items :
  slot_rep slt items -> full slt -> Z.of_nat (length items) <= 20000000 ->
  exists slt', slot_chain_hooks_expand true slt = Ok slt' /\ slot_rep slt' items /\ ~ full slt'.
Proof.
  intros [[tl E] Hn Hr Hp] Hf Hl. unfold full in *. unfold slot_chain_hooks_expand.
  rewrite ub_unless_true by (apply Z.leb_le; lia).
  rewrite int_of_Ok by (unfold INT_MIN, INT_MAX; lia). rewrite bind_Ok.
  rewrite take_ge by lia. rewrite E.
  destruct (realloc_init items tl (nr_chain_hooks slt * 2)) as [tl' E']; [lia|].
  eexists. split; [reflexivity|]. split; [constructor; cbn|cbn; lia].
  - by exists tl'.
  - done.
  - by rewrite realloc_length by lia.
  - lia.
Qed.

(** The branch that writes the pair. *)
Lemma insert_room fuel k n ht m key data slt :
  ht_rep k n ht m -> n < 20000000 -> rdc (slots ht) (hash_key key (2 ^ k)) = Ok slt -> ~ full slt ->
  exists ht', hash_table_insert (S fuel) ht key data = Ok ht' /\ ht_rep k (n + 1) ht' (put k (key, data) m).
Proof.
  intros H Hn Hslt Hf. pose proof (ht_slot k n ht m key H) as (slt' & items & E & Hr & Hi & Hl).
  rewrite Hslt in E. injection E as <-. cbn [hash_table_insert]. rewrite (hr_nr _ _ _ _ H), Hslt, bind_Ok.
  rewrite (proj2 (Z.eqb_neq _ _)) by exact Hf.
  pose proof (slot_rep_le _ _ Hr). unfold full in Hf. destruct Hr as [[tl E] Hnx Hnr Hp].
  destruct tl as [|c tl]; [rewrite E, length_app, length_fmap in *; cbn in *; lia|].
  rewrite E, Hnx, wrc_next, bind_Ok, int_of_Ok, bind_Ok by (unfold INT_MIN, INT_MAX; lia).
  assert (H' : ht_rep k (n + 1) ht m).
  { destruct H as [? ? ? ? Hb]. constructor; [done..|]. eapply Forall_impl; [exact Hb|]. cbn. lia. }
  destruct (ht_update k (n + 1) ht m key
    (Slot (nr_chain_hooks slt) (Z.of_nat (length items) + 1) ((Some <$> (items ++ [(key, data)])) ++ tl))
    (items ++ [(key, data)]) (mallocs ht) H') as (sl & -> & Hrep & _).
  - constructor; cbn [chain_hooks next_chain_hook nr_chain_hooks].
    + by exists tl.
    + rewrite length_app. cbn. lia.
    + rewrite Hnr, E, !length_app, !length_fmap, length_app. cbn. lia.
    + done.
  - rewrite length_app. cbn. lia.
  - rewrite bind_Ok. eexists. split; [reflexivity|].
    rewrite (hr_nr _ _ _ _ H) in Hrep. unfold put. cbn [fst].
    replace (alter _ _ m) with (<[Z.to_nat (hash_key key (2 ^ k)) := items ++ [(key, data)]]> m); [done|].
    apply list_eq. intros j. destruct (decide (j = Z.to_nat (hash_key key (2 ^ k)))) as [->|Hne].
    + by rewrite list_lookup_alter_eq, Hi, list_lookup_insert_eq by (by eapply lookup_lt_Some).
    + by rewrite list_lookup_alter_ne, list_lookup_insert_ne by done.
Qed.

(** A full slot, in a table that is not to be expanded: the slot is. *)
Lemma insert_full_slot fuel k n ht m key data slt u :
  ht_rep k n ht m -> n < 20000000 -> rdc (slots ht) (hash_key key (2 ^ k)) = Ok slt -> full slt ->
  hash_table_usage ht = Ok u -> u <= 90 -> alloc (mallocs ht) = true ->
  exists ht', hash_table_insert (S (S fuel)) ht key data = Ok ht' /\
    ht_rep k (n + 1) ht' (put k (key, data) m).
Proof.
  intros H Hn Hslt Hf Hu Hu90 Ha. pose proof (ht_slot k n ht m key H) as (slt' & items & E & Hr & Hi & Hl).
  rewrite Hslt in E. injection E as <-.
  destruct (slot_expand_rep slt items Hr Hf) as (slt' & Ee & Hr' & Hf'); [lia|].
  destruct (ht_update k n ht m key slt' items (S (mallocs ht)) H Hr' Hl) as (sl & Ew & Hrep & Erd).
  rewrite list_insert_id in Hrep by done.
  remember (S fuel) as fuel1 eqn:Ef. cbn [hash_table_insert].
  rewrite (hr_nr _ _ _ _ H), Hslt, bind_Ok, (proj2 (Z.eqb_eq _ _) Hf), Hu, bind_Ok.
  rewrite (proj2 (Z.ltb_ge _ _)), Ha, Ee, bind_Ok, Ew, !bind_Ok by done.
  rewrite (hr_nr _ _ _ _ H) in Hrep. rewrite Ef. by eapply insert_room.
Qed.

(** *** The expansion of the table *)

Lemma rdc_malloc {A} ok n i : rdc (malloc (A := A) ok n) i = Undef.
Proof.
  unfold rdc, rd. destruct (0 <=? i); [|done]. destruct (malloc ok n !! Z.to_nat i) as [c|] eqn:E; [|done].
  destruct ok; [|done]. apply lookup_replicate in E as [-> _]. done.
Qed.

Lemma reinsert_undef insert new sl m todo i j items :
  (forall key data, insert new key data = Undef) -> Forall2 slot_rep sl m ->
  (i + todo)%nat = length sl -> (i <= j)%nat -> m !! j = Some items -> items <> [] ->
  reinsert_slots insert todo (Z.of_nat i) (Some <$> sl) new = Undef.
Proof.
  intros Hins Hs. revert i. induction todo as [|todo IH]; intros i Hi Hij Hj Hne.
  { apply lookup_lt_Some in Hj. rewrite <- (Forall2_length _ _ _ Hs) in Hj. lia. }
  cbn [reinsert_slots]. destruct (lookup_lt_is_Some_2 sl i) as [slt Hslt]; [lia|].
  rewrite (rdc_all _ _ _ Hslt), bind_Ok.
  destruct (Forall2_lookup_l _ _ _ _ _ Hs Hslt) as (its & Hit & [[tl E] Hn _ _]).
  rewrite Hn, Nat2Z.id. destruct its as [|[key data] its]; cbn [length reinsert_hooks].
  - rewrite bind_Ok. replace (Z.of_nat i + 1) with (Z.of_nat (S i)) by lia.
    apply IH; [lia| |done..]. destruct (decide (i = j)) as [->|]; [congruence|lia].
  - rewrite E, (rdc_init _ tl 0 (key, data)) by done. by rewrite bind_Ok, Hins, !bind_Undef.
Qed.

Definition table_full (k : Z) (ht : hash_table_t) (key : Z) : Prop :=
  exists slt u, rdc (slots ht) (hash_key key (2 ^ k)) = Ok slt /\ full slt /\
    hash_table_usage ht = Ok u /\ 90 < u.

Lemma insert_full_table fuel k n ht m key data :
  ht_rep k n ht m -> table_full k ht key -> alloc (mallocs ht) = true ->
  hash_table_insert (S (S fuel)) ht key data = Undef.
Proof.
  intros H (slt & u & Hslt & Hf & Hu & Hu90) Ha.
  pose proof (ht_slot k n ht m key H) as (slt' & items & E & Hr & Hi & Hl).
  rewrite Hslt in E. injection E as <-.
  remember (S fuel) as fuel1 eqn:Ef. cbn [hash_table_insert].
  rewrite (hr_nr _ _ _ _ H), Hslt, bind_Ok, (proj2 (Z.eqb_eq _ _) Hf), Hu, bind_Ok.
  rewrite (proj2 (Z.ltb_lt _ _)) by done. unfold hash_table_expand. rewrite Ha, (hr_nr _ _ _ _ H).
  destruct H as [Hk Hnr Hlen (sl & Hsl & Hs) _]. pose proof (Forall2_length _ _ _ Hs).
  assert (2 ^ k <= 2 ^ 20) by (apply Z.pow_le_mono_r; lia). pose proof (Z.pow_nonneg 2 k ltac:(lia)).
  rewrite int_of_Ok, bind_Ok, Z.quot_mul by (done || unfold INT_MIN, INT_MAX; lia).
  rewrite Hsl. change 0 with (Z.of_nat 0).
  rewrite (reinsert_undef _ _ sl m _ _ (Z.to_nat (hash_key key (2 ^ k))) items); [done|..].
  - intros. rewrite Ef. cbn [hash_table_insert slots]. by rewrite rdc_malloc.
  - done.
  - lia.
  - lia.
  - done.
  - intros ->. destruct Hr as [_ Hn _ Hp]. unfold full in Hf. cbn in Hn. lia.
Qed.

(** Without memory the recursion has no end: [hash_table_insert] calls itself again
    and again, and never looks at the results of the expansions. *)
Lemma no_memory_no_end fuel k n ht m key data slt :
  (forall i, alloc i = false) ->
  ht_rep k n ht m -> n <= 20000000 -> rdc (slots ht) (hash_key key (2 ^ k)) = Ok slt -> full slt ->
  hash_table_insert fuel ht key data = NoFuel.
Proof.
  intros Ha. revert ht. induction fuel as [|fuel IH]; intros ht H Hn Hslt Hf; [done|].
  cbn [hash_table_insert]. rewrite (hr_nr _ _ _ _ H), Hslt, bind_Ok, (proj2 (Z.eqb_eq _ _) Hf).
  destruct (hash_table_usage_ok _ _ _ _ H Hn) as [u ->]. rewrite bind_Ok.
  pose proof (ht_slot k n ht m key H) as (slt' & items & E & Hr & Hi & Hl).
  rewrite Hslt in E. injection E as <-. destruct (90 <? u).
  - unfold hash_table_expand. rewrite Ha, bind_Ok.
    apply IH; [|done..]. by destruct H; constructor.
  - rewrite Ha. cbn [slot_chain_hooks_expand]. rewrite bind_Ok.
    destruct (ht_update k n ht m key slt items (S (mallocs ht)) H Hr Hl) as (sl & -> & Hrep & Erd).
    rewrite !bind_Ok. rewrite list_insert_id in Hrep by done.
    rewrite (hr_nr _ _ _ _ H) in Hrep. by apply IH.
Qed.

(** ** The whole run, with memory *)
Hypothesis memory : forall i, alloc i = true.

Lemma insert_cases fuel k n ht m key data :
  ht_rep k n ht m -> n < 20000000 ->
  (exists ht', hash_table_insert (S (S fuel)) ht key data = Ok ht' /\
     ht_rep k (n + 1) ht' (put k (key, data) m)) \/
  (table_full k ht key /\ hash_table_insert (S (S fuel)) ht key data = Undef).
Proof.
  intros H Hn. pose proof (ht_slot k n ht m key H) as (slt & items & Hslt & _).
  destruct (decide (next_chain_hook slt = nr_chain_hooks slt)) as [Hf|Hf].
  - destruct (hash_table_usage_ok _ _ _ _ H) as [u Hu]; [lia|].
    destruct (decide (u <= 90)) as [Hu90|Hu90].
    + left. eauto using insert_full_slot.
    + right. assert (table_full k ht key) by (exists slt, u; repeat split; [done..|lia]).
      eauto using insert_full_table.
  - left. eauto using insert_room.
Qed.

Lemma insert_all_cases fuel k n ht m pairs :
  ht_rep k n ht m -> n + Z.of_nat (length pairs) <= 20000000 ->
  (exists ht', insert_all (S (S fuel)) pairs ht = Ok ht' /\
     ht_rep k (n + Z.of_nat (length pairs)) ht' (foldl (fun m kv => put k kv m) m pairs)) \/
  (insert_all (S (S fuel)) pairs ht = Undef /\
   exists pre key data post ht1, pairs = pre ++ (key, data) :: post /\
     insert_all (S (S fuel)) pre ht = Ok ht1 /\ table_full k ht1 key).
Proof.
  revert n ht m. induction pairs as [|[key data] pairs IH]; intros n ht m H Hn.
  { left. exists ht. split; [done|]. cbn. by rewrite Z.add_0_r. }
  cbn [length] in Hn. remember (S (S fuel)) as f eqn:Ef. cbn [insert_all].
  destruct (insert_cases fuel k n ht m key data H) as [(ht1 & E & H1)|[Hf E]]; [lia|..];
    rewrite <- Ef in E; rewrite E.
  - rewrite bind_Ok. destruct (IH (n + 1) ht1 _ H1) as [(ht' & E' & H')|(E' & pre & key' & data' & post & ht2 & -> & Ep & Hf)];
      [lia|left|right].
    + exists ht'. split; [done|]. cbn [length foldl]. by replace (n + Z.of_nat (S (length pairs)))
        with (n + 1 + Z.of_nat (length pairs)) by lia.
    + split; [done|]. exists ((key, data) :: pre), key', data', post, ht2.
      split; [done|]. split; [|done]. cbn [insert_all]. by rewrite E, bind_Ok.
  - right. split; [done|]. by exists [], key, data, pairs, ht.
Qed.

(** Creation: every slot empty, with room for [nr] hooks. *)
Lemma init_slots_ok todo i nr N c :
  0 < nr ->
  exists c', init_slots todo (Z.of_nat i) nr
      (HashTable N ((Some <$> replicate i (slot_init true nr)) ++ replicate todo None) c) =
    Ok (HashTable N (Some <$> replicate (i + todo) (slot_init true nr)) c').
Proof.
  intros Hnr. revert i c. induction todo as [|todo IH]; intros i c; cbn [init_slots].
  { exists c. by rewrite Nat.add_0_r, app_nil_r. }
  cbn [slots mallocs nr_slots replicate]. rewrite memory.
  pose proof (wrc_next (replicate i (slot_init true nr)) None (replicate todo None)
    (slot_init true nr)) as E. rewrite length_replicate in E. rewrite E, bind_Ok.
  rewrite <- replicate_S_end. replace (Z.of_nat i + 1) with (Z.of_nat (S i)) by lia.
  destruct (IH (S i) (S c)) as [c' ->]. exists c'. by rewrite Nat.add_succ_r.
Qed.

Lemma slot_init_rep nr : 0 < nr -> slot_rep (slot_init true nr) [].
Proof.
  intros H. constructor; cbn; [by eexists|done| |done]. rewrite length_replicate. lia.
Qed.

Lemma create_ok k nr :
  0 <= k <= 20 -> 0 < nr ->
  exists ht, hash_table_create (2 ^ k) nr = Ok ht /\
    ht_rep k 0 ht (replicate (Z.to_nat (2 ^ k)) []).
Proof.
  intros Hk Hnr. unfold hash_table_create. rewrite !memory. cbn [ub_unless malloc].
  destruct (init_slots_ok (Z.to_nat (2 ^ k)) 0 nr (2 ^ k) 2 Hnr) as [c E].
  cbn [replicate fmap list_fmap app Nat.add] in E. change (Z.of_nat 0) with 0 in E. rewrite E.
  eexists. split; [reflexivity|]. constructor; cbn; [done..| | |].
  - rewrite length_replicate. pose proof (Z.pow_nonneg 2 k ltac:(lia)). lia.
  - eexists. split; [reflexivity|]. apply Forall2_replicate. by apply slot_init_rep.
  - by apply Forall_replicate.
Qed.

(** What the insertions add to a slot: the pairs whose key belongs there, in order. *)
Lemma puts_lookup k m i items pairs :
  0 <= k -> m !! i = Some items ->
  foldl (fun m kv => put k kv m) m pairs !! i =
  Some (items ++ filter (fun kv => hash_key kv.1 (2 ^ k) = Z.of_nat i) pairs).
Proof.
  intros Hk. revert m items. induction pairs as [|kv pairs IH]; intros m items Hi; cbn [foldl].
  { by rewrite filter_nil, app_nil_r. }
  pose proof (hash_key_range k kv.1 Hk) as Hr. rewrite filter_cons.
  destruct (decide (hash_key kv.1 (2 ^ k) = Z.of_nat i)) as [E|Hne].
  - rewrite (IH _ (items ++ [kv])), <- (assoc_L (++)); [done|].
    unfold put. by rewrite E, Nat2Z.id, list_lookup_alter_eq, Hi.
  - apply IH. unfold put. rewrite list_lookup_alter_ne; [done|]. lia.
Qed.
End Table.

(** The keys of a slot, in the order of the array. *)
Definition held (ht : hash_table_t) (i : Z) : res (blk chain_hook_t) :=
  slt ← rdc (slots ht) i; Ok (take (Z.to_nat (next_chain_hook slt)) (chain_hooks slt)).

Lemma rep_held k n ht m i items :
  ht_rep k n ht m -> m !! i = Some items -> held ht (Z.of_nat i) = Ok (Some <$> items).
Proof.
  intros [_ _ _ (sl & Hsl & Hs) _] Hi. unfold held. rewrite Hsl.
  destruct (Forall2_lookup_r _ _ _ _ _ Hs Hi) as (slt & Hslt & [[tl E] Hn _ _]).
  rewrite (rdc_all _ _ _ Hslt), bind_Ok, E, Hn, Nat2Z.id.
  by rewrite take_app_length' by (by rewrite length_fmap).
Qed.

(** C30. With memory enough the test program runs in one of two ways, whatever the random
    keys: either the recursion is never more than two calls deep, and at the end every
    slot holds exactly the pairs whose keys belong there, in the order of their
    insertion; or an insertion meets a full slot when the table is more than 90 per
    cent full, and the expansion of the table reads the new slots, which nobody has
    initialised. *)
Theorem hash_main_cases k nr pairs :
  0 <= k <= 20 -> 0 < nr -> Z.of_nat (length pairs) <= 10000000 ->
  (exists ht usage, hash_main (fun _ => true) 2 (2 ^ k) nr pairs = Ok (ht, usage) /\
     forall i : nat, Z.of_nat i < 2 ^ k -> held ht (Z.of_nat i) =
       Ok (Some <$> filter (fun kv => hash_key kv.1 (2 ^ k) = Z.of_nat i) pairs)) \/
  (hash_main (fun _ => true) 2 (2 ^ k) nr pairs = Undef /\
   exists pre key data post ht, pairs = pre ++ (key, data) :: post /\
     (ht0 ← hash_table_create (fun _ => true) (2 ^ k) nr; insert_all (fun _ => true) 2 pre ht0) = Ok ht /\
     table_full k ht key).
Proof.
  intros Hk Hnr Hl. unfold hash_main. set (always := fun _ : nat => true).
  destruct (create_ok always (fun _ => eq_refl) k nr Hk Hnr) as (ht & -> & H). rewrite !bind_Ok.
  destruct (insert_all_cases always (fun _ => eq_refl) 0 k 0 ht _ pairs H)
    as [(ht' & -> & H')|(-> & pre & key & data & post & ht1 & E)]; [lia|left|right].
  - rewrite bind_Ok. destruct (hash_table_usage_ok _ _ _ _ H') as [u ->]; [lia|].
    exists ht', u. split; [done|]. intros i Hi.
    apply (rep_held _ _ _ _ _ _ H'). apply (puts_lookup k _ i []); [lia|].
    apply lookup_replicate. split; [done|lia].
  - split; [done|]. by exists pre, key, data, post, ht1.
Qed.

(** Two slots for two hooks each: five pairs, one slot grows; and a sixth that finds
    the table full. *)
Lemma hash_main_cases_witness :
  exists ht usage, hash_main (fun _ => true) 2 2 2 [(0, 10); (2, 11); (4, 12); (1, 13); (-1, 14)] = Ok (ht, usage) /\
    held ht 1 = Ok [Some (1, 13); Some (-1, 14)].
Proof.
  destruct (hash_main_cases 1 2 [(0, 10); (2, 11); (4, 12); (1, 13); (-1, 14)])
    as [(ht & u & E & H)|(E & _)].
  - lia.
  - lia.
  - cbn. lia.
  - exists ht, u. split; [exact E|]. exact (H 1%nat ltac:(lia)).
  - vm_compute in E. discriminate.
Defined.

Example full_table_expands :
  hash_main (fun _ => true) 2 2 2 [(0, 10); (2, 11); (1, 12); (3, 13); (4, 14)] = Undef.
Proof. vm_compute. reflexivity. Qed.
