(* ===== verification/Newc.v ===== *)
(** * The "newc" cpio format: the specification gen_init_cpio.c is checked against

    What an entry of an archive is, its encoding, and a reader that inverts it.
    Nothing here is taken from the program: the program's definitions are in
    Cpio.v, and their theorems there relate them to [encode] and [unpack]. *)
From stdpp Require Import base list strings.
From Stdlib Require Import ZArith Lia Ascii.
From S2P Require Import Prelude Stdio.

Open Scope Z_scope.

Definition zeros (n : Z) : list ascii := replicate (Z.to_nat n) NUL.

(** The padding that takes [n] to a multiple of four. *)
Definition pad4 (n : Z) : Z := (- n) mod 4.

Definition magic : list ascii := chars "070701".

Record newc : Type := Newc {
  n_ino : Z; n_mode : Z; n_uid : Z; n_gid : Z; n_nlink : Z; n_mtime : Z;
  n_major : Z; n_minor : Z; n_rmajor : Z; n_rminor : Z; n_chksum : Z;
  n_name : list ascii;
  n_data : list ascii;
}.

Definition n_filesize (e : newc) : Z := Z.of_nat (length (n_data e)).
Definition n_namesize (e : newc) : Z := Z.of_nat (length (n_name e)) + 1.

(** The thirteen fields, in the order of the header. *)
Definition fields (e : newc) : list Z :=
  [n_ino e; n_mode e; n_uid e; n_gid e; n_nlink e; n_mtime e; n_filesize e;
   n_major e; n_minor e; n_rmajor e; n_rminor e; n_namesize e; n_chksum e].

Definition header (fs : list Z) : list ascii := magic ++ flat_map fmt_08X fs.

Definition encode (e : newc) : list ascii :=
  header (fields e) ++ n_name e ++ [NUL] ++ zeros (pad4 (110 + n_namesize e))
    ++ n_data e ++ zeros (pad4 (n_filesize e)).

(** ** A reader *)

Fixpoint read_fields (k : nat) (l : list ascii) : option (list Z * list ascii) :=
  match k with
  | O => Some ([], l)
  | S k =>
      if bool_decide (length (take 8 l) = 8%nat) && forallb (is_digit 16) (take 8 l) then
        '(fs, rest) ← read_fields k (drop 8 l); Some (digits_val 16 (take 8 l) :: fs, rest)
      else None
  end.

Definition read_bytes (n : Z) (l : list ascii) : option (list ascii * list ascii) :=
  if (0 <=? n) && (n <=? Z.of_nat (length l))
  then Some (take (Z.to_nat n) l, drop (Z.to_nat n) l) else None.

Definition decode (l : list ascii) : option (newc * list ascii) :=
  '(m, l) ← read_bytes 6 l;
  if bool_decide (m = magic) then
    '(fs, l) ← read_fields 13 l;
    match fs with
    | [ino; mode; uid; gid; nlink; mtime; filesize; major; minor; rmajor; rminor;
       namesize; chksum] =>
        '(name, l) ← read_bytes (namesize - 1) l;
        '(nul, l) ← read_bytes 1 l;
        if bool_decide (nul = [NUL]) then
          '(_, l) ← read_bytes (pad4 (110 + namesize)) l;
          '(data, l) ← read_bytes filesize l;
          '(_, l) ← read_bytes (pad4 filesize) l;
          Some (Newc ino mode uid gid nlink mtime major minor rmajor rminor chksum name data, l)
        else None
    | _ => None
    end
  else None.

Definition trailer_name : list ascii := chars "TRAILER!!!".

(** All entries up to the trailer; what follows the trailer is ignored. *)
Fixpoint unpack (fuel : nat) (l : list ascii) : option (list newc) :=
  match fuel with
  | O => None
  | S fuel =>
      '(e, rest) ← decode l;
      if bool_decide (n_name e = trailer_name) then Some []
      else es ← unpack fuel rest; Some (e :: es)
  end.

(** ** The reader inverts the encoding *)

Definition field_ok (n : Z) : Prop := 0 <= n < 2 ^ 32.

(** An entry that the format can represent. *)
Definition newc_ok (e : newc) : Prop := Forall field_ok (fields e).

Lemma pad4_range n : 0 <= pad4 n < 4.
Proof. apply Z.mod_pos_bound. lia. Qed.

Lemma pad4_aligned n : (n + pad4 n) mod 4 = 0.
Proof.
  unfold pad4. pose proof (Z.div_mod (- n) 4 ltac:(lia)).
  replace (n + - n mod 4) with ((- (- n / 4)) * 4) by lia. apply Z_mod_mult.
Qed.

Lemma pad4_add a b : a mod 4 = 0 -> pad4 (a + b) = pad4 b.
Proof.
  intros H. unfold pad4. apply Z.div_exact in H; [|lia].
  replace (- (a + b)) with (- b + (- (a / 4)) * 4) by lia. apply Z_mod_plus_full.
Qed.

Lemma length_zeros n : 0 <= n -> Z.of_nat (length (zeros n)) = n.
Proof. intros. unfold zeros. rewrite length_replicate. lia. Qed.

Lemma header_length fs : Z.of_nat (length (header fs)) = 6 + 8 * Z.of_nat (length fs).
Proof.
  unfold header. rewrite length_app. change (length magic) with 6%nat.
  enough (length (flat_map fmt_08X fs) = 8 * length fs)%nat by lia.
  induction fs as [|f fs IH]; [done|]. cbn [flat_map length].
  rewrite length_app, fmt_08X_length. lia.
Qed.

Lemma encode_length e :
  Z.of_nat (length (encode e)) =
    110 + n_namesize e + pad4 (110 + n_namesize e) + n_filesize e + pad4 (n_filesize e).
Proof.
  unfold encode. rewrite !length_app, !Nat2Z.inj_add, header_length.
  rewrite !length_zeros by apply pad4_range.
  unfold n_namesize, n_filesize. cbn [length fields]. lia.
Qed.

(** Every entry ends on a four byte boundary. *)
Lemma encode_aligned e : Z.of_nat (length (encode e)) mod 4 = 0.
Proof.
  rewrite encode_length. pose proof (pad4_aligned (110 + n_namesize e)).
  pose proof (pad4_aligned (n_filesize e)).
  replace (110 + _ + _ + _ + _) with
    (110 + n_namesize e + pad4 (110 + n_namesize e) + (n_filesize e + pad4 (n_filesize e))) by lia.
  rewrite Z.add_mod, H, H0 by lia. done.
Qed.

Lemma read_bytes_app n a l :
  n = Z.of_nat (length a) -> read_bytes n (a ++ l) = Some (a, l).
Proof.
  intros ->. unfold read_bytes. rewrite length_app.
  rewrite (proj2 (Z.leb_le 0 _)), (proj2 (Z.leb_le _ _)) by lia. cbn [andb].
  by rewrite Nat2Z.id, take_app_length, drop_app_length.
Qed.

Lemma read_fields_header fs l :
  Forall field_ok fs -> read_fields (length fs) (flat_map fmt_08X fs ++ l) = Some (fs, l).
Proof.
  induction 1 as [|f fs Hf _ IH]; [done|].
  cbn [length flat_map read_fields].
  rewrite <- (assoc_L (++)).
  assert (L := fmt_08X_length f).
  rewrite (take_app_length' (fmt_08X f)), (drop_app_length' (fmt_08X f)) by done.
  rewrite bool_decide_true by done.
  assert (D : forallb (is_digit 16) (fmt_08X f) = true).
  { apply forallb_forall. intros c Hc. unfold fmt_08X in Hc.
    pose proof (print_radix_digits 16 8 (uwrap 32 f) ltac:(lia)) as F.
    rewrite Forall_forall in F. apply F. by apply list_elem_of_In. }
  rewrite D. cbn [andb]. rewrite IH. cbn. rewrite fmt_08X_val, uwrap_small by exact Hf. done.
Qed.

Lemma decode_encode e rest : newc_ok e -> decode (encode e ++ rest) = Some (e, rest).
Proof.
  intros He. unfold decode, encode, header. rewrite <- !(assoc_L (++)).
  rewrite read_bytes_app by done. cbn [mbind option_bind].
  rewrite bool_decide_true by done.
  rewrite (read_fields_header (fields e)) by done. cbn [mbind option_bind fields].
  rewrite read_bytes_app by (unfold n_namesize; lia). cbn [mbind option_bind].
  rewrite read_bytes_app by done. cbn [mbind option_bind]. rewrite bool_decide_true by done.
  rewrite read_bytes_app by (symmetry; apply length_zeros, pad4_range). cbn [mbind option_bind].
  rewrite read_bytes_app by done. cbn [mbind option_bind].
  rewrite read_bytes_app by (symmetry; apply length_zeros, pad4_range). cbn [mbind option_bind].
  by destruct e.
Qed.

(** A whole archive: entries, the trailer, and anything after it. *)
Lemma unpack_archive es t rest fuel :
  Forall newc_ok es -> Forall (fun e => n_name e <> trailer_name) es ->
  newc_ok t -> n_name t = trailer_name -> (length es < fuel)%nat ->
  unpack fuel (flat_map encode es ++ encode t ++ rest) = Some es.
Proof.
  intros He Hn Ht Hname. revert fuel.
  induction es as [|e es IH]; intros [|fuel] Hf; cbn [length] in Hf; [lia| |lia|].
  - cbn [flat_map app unpack]. rewrite decode_encode by done.
    cbn [mbind option_bind]. by rewrite bool_decide_true.
  - inversion He; inversion Hn; subst. cbn [flat_map unpack].
    rewrite <- (assoc_L (++)), decode_encode by done. cbn [mbind option_bind].
    rewrite bool_decide_false by done.
    rewrite IH by (done || lia). done.
Qed.
