(* ===== verification/Cpio.v ===== *)
(** * The entry writers of src/gen_init_cpio.c

    The per-thread state, the [push_*] functions, the [cpio_mk*] functions and
    the trailer, and the proof that each writes exactly one (for hard links,
    one per link) well formed "newc" entry. *)
From stdpp Require Import base list strings.
From Stdlib Require Import ZArith Lia Ascii.
From S2P Require Import Prelude Stdio Newc.

Open Scope Z_scope.

(** ** State *)

(** [struct my_state]: the running offset and the thread's temporary stream
    (the path [tmpf] of the stream is only used to create and unlink it). *)
Record my_state : Type := MyState { offset : Z; fp : FILE }.

(** A writer also advances the global inode counter [i_no]. *)
Record cpio : Type := Cpio { i_no : Z; me : my_state }.

(** [get_ino]: [__sync_fetch_and_add(&i_no, 1)] on an [unsigned int]. *)
Definition get_ino (ino : Z) : Z * Z := (ino, uwrap 32 (ino + 1)).

(** [mode_t] constants of <sys/stat.h>. *)
Definition S_IFIFO : Z := 0x1000.
Definition S_IFCHR : Z := 0x2000.
Definition S_IFDIR : Z := 0x4000.
Definition S_IFBLK : Z := 0x6000.
Definition S_IFREG : Z := 0x8000.
Definition S_IFLNK : Z := 0xA000.
Definition S_IFSOCK : Z := 0xC000.

(** ** Output functions *)

(** [my_state->offset += n] for an unsigned [n] (the [int] is converted to
    [unsigned] and back), and for an [int] [n]. *)
Definition add_unsigned (o n : Z) : Z := swrap 32 (o + n).
Definition add_int (o n : Z) : res Z := int_of (o + n).

(** One [fputc(0, fp); offset++]. *)
Definition put_zero (st : my_state) : res my_state :=
  o ← add_int (offset st) 1;
  Ok (MyState o (fput [NUL] (fp st))).

Definition push_string (name : list ascii) (st : my_state) : res my_state :=
  let name_len := uwrap 32 (Z.of_nat (length name) + 1) in
  Ok (MyState (add_unsigned (offset st) name_len) (fput [NUL] (fput name (fp st)))).

Definition push_pad (st : my_state) : res my_state :=
  while 4 (fun st => negb (Z.land (offset st) 3 =? 0)) put_zero st.

Definition push_rest (name : list ascii) (st : my_state) : res my_state :=
  let name_len := uwrap 32 (Z.of_nat (length name) + 1) in
  let st := MyState (add_unsigned (offset st) name_len) (fput [NUL] (fput name (fp st))) in
  let tmp_ofs := uwrap 32 (name_len + 110) in
  '(st, _) ← while 4 (fun '(st, tmp_ofs) => negb (Z.land tmp_ofs 3 =? 0))
               (fun '(st, tmp_ofs) => st ← put_zero st; Ok (st, uwrap 32 (tmp_ofs + 1)))
               (st, tmp_ofs);
  Ok st.

Definition push_hdr (s : list ascii) (st : my_state) : res my_state :=
  o ← add_int (offset st) 110;
  Ok (MyState o (fput s (fp st))).

(** The [sprintf] of a header.  [fmt_size] is the conversion of the file size:
    %08X everywhere but in [cpio_mkfile], where it is %08lX. *)
Definition sprintf_newc (fmt_size : Z -> list ascii)
    (ino mode uid gid nlink mtime filesize major minor rmajor rminor namesize chksum : Z)
    : list ascii :=
  chars "070701"
    ++ fmt_08X ino ++ fmt_08X mode ++ fmt_08lX uid ++ fmt_08lX gid ++ fmt_08X nlink
    ++ fmt_08lX mtime ++ fmt_size filesize ++ fmt_08X major ++ fmt_08X minor
    ++ fmt_08X rmajor ++ fmt_08X rminor ++ fmt_08X namesize ++ fmt_08X chksum.

Definition cpio_trailer (st : my_state) : res my_state :=
  let name := chars "TRAILER!!!" in
  let s := sprintf_newc fmt_08X 0 0 0 0 1 0 0 0 0 0 0
             (uwrap 32 (Z.of_nat (length name)) + 1) 0 in
  st ← push_hdr s st;
  st ← push_rest name st;
  while 512 (fun st => negb (Z.rem (offset st) 512 =? 0)) put_zero st.

(** [if (name[0] == '/') name++]. *)
Definition strip_slash (name : list ascii) : list ascii :=
  match name with
  | c :: name' => if bool_decide (c = "/"%char) then name' else name
  | [] => name
  end.

(** [uid_t] and [gid_t] are unsigned 32-bit types. *)
Definition cpio_mkslink (default_mtime : Z) (name target : list ascii) (mode uid gid : Z)
    (c : cpio) : res (Z * cpio) :=
  let uid := uwrap 32 uid in
  let gid := uwrap 32 gid in
  let name := strip_slash name in
  let '(ino, i_no') := get_ino (i_no c) in
  let s := sprintf_newc fmt_08X ino (Z.lor S_IFLNK mode) uid gid 1 default_mtime
             (uwrap 32 (Z.of_nat (length target)) + 1) 3 1 0 0
             (uwrap 32 (Z.of_nat (length name)) + 1) 0 in
  st ← push_hdr s (me c);
  st ← push_string name st;
  st ← push_pad st;
  st ← push_string target st;
  st ← push_pad st;
  Ok (0, Cpio i_no' st).

Definition cpio_mkgeneric (default_mtime : Z) (name : list ascii) (mode uid gid : Z)
    (c : cpio) : res (Z * cpio) :=
  let uid := uwrap 32 uid in
  let gid := uwrap 32 gid in
  let name := strip_slash name in
  let '(ino, i_no') := get_ino (i_no c) in
  let s := sprintf_newc fmt_08X ino mode uid gid 2 default_mtime 0 3 1 0 0
             (uwrap 32 (Z.of_nat (length name)) + 1) 0 in
  st ← push_hdr s (me c);
  st ← push_rest name st;
  Ok (0, Cpio i_no' st).

Definition cpio_mknod (default_mtime : Z) (name : list ascii) (mode uid gid : Z)
    (dev_type : ascii) (maj min : Z) (c : cpio) : res (Z * cpio) :=
  let uid := uwrap 32 uid in
  let gid := uwrap 32 gid in
  let mode := if bool_decide (dev_type = "b"%char)
              then Z.lor mode S_IFBLK else Z.lor mode S_IFCHR in
  let name := strip_slash name in
  let '(ino, i_no') := get_ino (i_no c) in
  let s := sprintf_newc fmt_08X ino mode uid gid 1 default_mtime 0 3 1 maj min
             (uwrap 32 (Z.of_nat (length name)) + 1) 0 in
  st ← push_hdr s (me c);
  st ← push_rest name st;
  Ok (0, Cpio i_no' st).

(** What the operating system answers for a path: [None] when [open] fails;
    otherwise the results of [fstat], [malloc], [read] (the bytes it delivers)
    and whether the [fwrite] of the contents to the temporary stream succeeds. *)
Record fsnode : Type := FsNode {
  fs_fstat_ok : bool;
  fs_size : Z;
  fs_mtime : Z;
  fs_malloc_ok : bool;
  fs_read : option (list ascii);
  fs_fwrite_ok : bool;
}.

(** [fwrite(filebuf, size, 1, fp)], where only the first bytes of the buffer were
    filled by [read]: writing an indeterminate byte is undefined. *)
Definition fwrite_buf (node : fsnode) (data : list ascii) (size : Z) (f : FILE)
    : res (option FILE) :=
  if fs_fwrite_ok node then
    ub_unless (size <=? Z.of_nat (length data)) (Ok (Some (fput (take (Z.to_nat size) data) f)))
  else Ok None.

(** The loop over the links.  [left] counts the iterations still to do, so the
    last one has [left = 1]; [name] is the memory the pointer refers to. *)
Fixpoint mkfile_links (left : nat) (node : fsnode) (data : list ascii)
    (ino mode uid gid nlinks : Z) (name : list ascii) (st : my_state)
    : res (Z * my_state) :=
  match left with
  | O => Ok (0, st)
  | S left' =>
      let size := if Nat.eqb left 1 then fs_size node else 0 in
      match name with
      | [] => Undef
      | _ :: _ =>
          let name := strip_slash name in
          len ← strlen name;
          let namesize := len + 1 in
          str ← cstr name;
          let s := sprintf_newc fmt_08lX ino mode uid gid nlinks (fs_mtime node) size
                     3 1 0 0 namesize 0 in
          st ← push_hdr s st;
          st ← push_string str st;
          st ← push_pad st;
          if negb (size =? 0) then
            w ← fwrite_buf node data size (fp st);
            match w with
            | None => Ok (-1, st)
            | Some f =>
                let st := MyState (add_unsigned (offset st) size) f in
                st ← push_pad st;
                mkfile_links left' node data ino mode uid gid nlinks
                  (drop (Z.to_nat namesize) name) st
            end
          else
            mkfile_links left' node data ino mode uid gid nlinks
              (drop (Z.to_nat namesize) name) st
      end
  end.

Definition cpio_mkfile (fs : list ascii -> option fsnode) (name location : list ascii)
    (mode uid gid nlinks : Z) (c : cpio) : res (Z * cpio) :=
  let uid := uwrap 32 uid in
  let gid := uwrap 32 gid in
  let mode := Z.lor mode S_IFREG in
  match fs location with
  | None => Ok (-1, c)
  | Some node =>
      if negb (fs_fstat_ok node) then Ok (-1, c)
      else if negb (fs_malloc_ok node) then Ok (-1, c)
      else
        match fs_read node with
        | None => Ok (-1, c)
        | Some data =>
            let '(ino, i_no') := get_ino (i_no c) in
            '(rc, st) ← mkfile_links (Z.to_nat nlinks) node data ino mode uid gid nlinks
                          name (me c);
            Ok (rc, Cpio i_no' st)
        end
  end.

(** ** What the output functions append *)

(** [emit bs st]: [bs] written to the stream and counted in the offset. *)
Definition emit (bs : list ascii) (st : my_state) : my_state :=
  MyState (offset st + Z.of_nat (length bs)) (fput bs (fp st)).

(** A usable state, with room for [n] more bytes below [INT_MAX]. *)
Definition st_ok (st : my_state) (n : Z) : Prop :=
  f_ok (fp st) /\ 0 <= offset st /\ offset st + n <= INT_MAX.

Lemma emit_emit a b st : f_ok (fp st) -> emit b (emit a st) = emit (a ++ b) st.
Proof.
  intros H. unfold emit. cbn. rewrite fput_fput by done. f_equal. rewrite length_app. lia.
Qed.

Lemma emit_nil st : f_ok (fp st) -> emit [] st = st.
Proof.
  intros H. destruct st as [o f]. unfold emit. cbn. rewrite fput_nil by done. f_equal. lia.
Qed.

Lemma emit_ok a st n :
  st_ok st (Z.of_nat (length a) + n) -> st_ok (emit a st) n.
Proof. intros (H1 & H2 & H3). repeat split; cbn; [by apply fput_ok|lia..]. Qed.

Lemma st_ok_le st n m : st_ok st n -> m <= n -> st_ok st m.
Proof. intros (H1 & H2 & H3) H. repeat split; [done|lia..]. Qed.

Lemma put_zero_emit st : st_ok st 1 -> put_zero st = Ok (emit [NUL] st).
Proof.
  intros (H1 & H2 & H3). unfold put_zero, add_int.
  rewrite int_of_Ok by (unfold INT_MIN; lia). done.
Qed.

Lemma push_string_emit name st :
  st_ok st (Z.of_nat (length name) + 1) ->
  push_string name st = Ok (emit (name ++ [NUL]) st).
Proof.
  intros (H1 & H2 & H3). unfold push_string, emit, add_unsigned.
  rewrite fput_fput by done. unfold INT_MAX in H3.
  rewrite uwrap_small by lia. rewrite swrap_small by lia.
  do 2 f_equal. rewrite length_app. cbn. lia.
Qed.

Lemma push_hdr_emit s st :
  st_ok st 110 -> length s = 110%nat -> push_hdr s st = Ok (emit s st).
Proof.
  intros (H1 & H2 & H3) Hs. unfold push_hdr, add_int, emit.
  rewrite int_of_Ok by (unfold INT_MIN; lia). rewrite bind_Ok, Hs. done.
Qed.

Lemma mod_neg_step o m :
  0 < m -> o mod m <> 0 -> (- (o + 1)) mod m = (- o) mod m - 1.
Proof.
  intros Hm H. rewrite (Z_mod_nz_opp_full o m) by done.
  pose proof (Z.mod_pos_bound o m Hm). pose proof (Z.div_mod o m ltac:(lia)).
  symmetry. apply Z.mod_unique with (q := - (o / m) - 1); [left|]; lia.
Qed.

Lemma mod_neg_0 o m : 0 < m -> o mod m = 0 -> (- o) mod m = 0.
Proof. intros Hm H. by rewrite Z_mod_zero_opp_full. Qed.

Lemma mod_neg_0_inv o m : 0 < m -> (- o) mod m = 0 -> o mod m = 0.
Proof.
  intros Hm H. destruct (decide (o mod m = 0)) as [|N]; [done|].
  pose proof (Z.mod_pos_bound o m Hm). apply Z_mod_nz_opp_full in N. lia.
Qed.

(** A padding loop stops at the next multiple of [m]. *)
Lemma pad_loop m fuel (cond : my_state -> bool) st :
  0 < m <= Z.of_nat fuel ->
  (forall st, 0 <= offset st -> cond st = negb (offset st mod m =? 0)) ->
  st_ok st ((- offset st) mod m) ->
  while fuel cond put_zero st = Ok (emit (zeros ((- offset st) mod m)) st).
Proof.
  intros [Hm Hf] Hc Hst.
  assert (Hk : (- offset st) mod m <= Z.of_nat fuel).
  { pose proof (Z.mod_pos_bound (- offset st) m Hm). lia. }
  clear Hf. revert st Hst Hk. induction fuel as [|fuel IH]; intros st Hst Hk;
    pose proof Hst as (H1 & H2 & H3); pose proof (Z.mod_pos_bound (- offset st) m Hm).
  - rewrite while_false.
    + replace ((- offset st) mod m) with 0 by lia. by rewrite emit_nil.
    + rewrite Hc by done. apply negb_false_iff, Z.eqb_eq.
      apply mod_neg_0_inv; lia.
  - destruct (decide (offset st mod m = 0)) as [E|E].
    + rewrite while_false by (rewrite Hc by done; by rewrite E).
      rewrite mod_neg_0 by done. by rewrite emit_nil.
    + rewrite while_true by (rewrite Hc by done; apply negb_true_iff; by apply Z.eqb_neq).
      pose proof (mod_neg_step (offset st) m Hm E) as Hs.
      pose proof (Z.mod_pos_bound (- (offset st + 1)) m Hm).
      rewrite put_zero_emit, bind_Ok by (eapply st_ok_le; [done|lia]).
      assert (Eo : offset (emit [NUL] st) = offset st + 1) by done.
      rewrite IH.
      * rewrite emit_emit by done. rewrite Eo, Hs. do 2 f_equal. unfold zeros.
        replace (Z.to_nat ((- offset st) mod m))
          with (S (Z.to_nat ((- offset st) mod m - 1))) by lia. done.
      * rewrite Eo, Hs. apply emit_ok. eapply st_ok_le; [done|]. cbn. lia.
      * rewrite Eo. lia.
Qed.

Lemma land_3 x : Z.land x 3 = x mod 4.
Proof. change 3 with (Z.ones 2). by rewrite Z.land_ones by lia. Qed.

Lemma push_pad_emit st :
  st_ok st (pad4 (offset st)) -> push_pad st = Ok (emit (zeros (pad4 (offset st))) st).
Proof.
  intros H. unfold push_pad. apply (pad_loop 4); [lia| |done].
  intros s _. by rewrite land_3.
Qed.

(** The padding loop of [push_rest] counts with its own unsigned variable. *)
Lemma push_rest_loop fuel st t :
  pad4 t <= Z.of_nat fuel -> 0 <= t -> t + pad4 t < 2 ^ 32 -> st_ok st (pad4 t) ->
  exists t', while fuel (fun '(st, tmp_ofs) => negb (Z.land tmp_ofs 3 =? 0))
    (fun '(st, tmp_ofs) => st ← put_zero st; Ok (st, uwrap 32 (tmp_ofs + 1))) (st, t)
    = Ok (emit (zeros (pad4 t)) st, t').
Proof.
  remember (Z.to_nat (pad4 t)) as k eqn:Ek. revert fuel st t Ek.
  induction k as [|k IH]; intros fuel st t Ek Hf H0 Ht Hst;
    pose proof (pad4_range t) as Hr; pose proof Hst as (H1 & H2 & H3).
  - replace (pad4 t) with 0 by lia. rewrite while_false.
    + exists t. by rewrite emit_nil.
    + rewrite land_3. apply negb_false_iff, Z.eqb_eq.
      apply mod_neg_0_inv; [lia|]. fold (pad4 t). lia.
  - destruct fuel as [|fuel]; [lia|].
    assert (N : t mod 4 <> 0).
    { intros E. unfold pad4 in Ek. rewrite mod_neg_0 in Ek by (lia || done). done. }
    rewrite while_true by (rewrite land_3; apply negb_true_iff; by apply Z.eqb_neq).
    pose proof (mod_neg_step t 4 ltac:(lia) N) as Hs. fold (pad4 t) (pad4 (t + 1)) in Hs.
    rewrite put_zero_emit by (eapply st_ok_le; [done|lia]). rewrite !bind_Ok.
    rewrite uwrap_small by lia.
    destruct (IH fuel (emit [NUL] st) (t + 1)) as [t' E]; [lia..| |].
    { apply emit_ok. eapply st_ok_le; [done|]. cbn. lia. }
    exists t'. rewrite E, emit_emit by done. rewrite Hs. do 3 f_equal. unfold zeros.
    by replace (Z.to_nat (pad4 t)) with (S (Z.to_nat (pad4 t - 1))) by lia.
Qed.

Lemma push_rest_emit name st :
  let n := Z.of_nat (length name) + 1 in
  st_ok st (n + pad4 (110 + n)) -> n < 2 ^ 31 ->
  push_rest name st = Ok (emit (name ++ [NUL] ++ zeros (pad4 (110 + n))) st).
Proof.
  intros n Hst Hn. unfold push_rest. fold n. pose proof Hst as (H1 & H2 & H3).
  pose proof (pad4_range (110 + n)). assert (0 <= n) by lia.
  rewrite uwrap_small by lia. rewrite uwrap_small by lia.
  replace (n + 110) with (110 + n) by lia. unfold add_unsigned.
  unfold INT_MAX in H3. rewrite swrap_small by lia. rewrite fput_fput by done.
  assert (Ee : MyState (offset st + n) (fput (name ++ [NUL]) (fp st)) = emit (name ++ [NUL]) st).
  { unfold emit. f_equal. rewrite length_app. cbn. lia. }
  rewrite Ee.
  destruct (push_rest_loop 4 (emit (name ++ [NUL]) st) (110 + n)) as [t' ->]; [lia..| |].
  { apply emit_ok. rewrite length_app. cbn. eapply st_ok_le; [done|lia]. }
  rewrite bind_Ok. by rewrite emit_emit, (assoc_L (++)).
Qed.

(** ** The entries the writers produce *)

Lemma fmt_08lX_08X n : field_ok n -> fmt_08lX n = fmt_08X n.
Proof. intros H. unfold fmt_08lX, fmt_08X. rewrite !uwrap_small by (unfold field_ok in H; lia). done. Qed.

(** The only fields printed with [l] are uid, gid, mtime and (in [cpio_mkfile])
    the file size. *)
Lemma sprintf_newc_header fmt ino mode uid gid nlink mtime size ma mi rma rmi ns ck :
  field_ok uid -> field_ok gid -> field_ok mtime -> fmt size = fmt_08X size ->
  sprintf_newc fmt ino mode uid gid nlink mtime size ma mi rma rmi ns ck
  = header [ino; mode; uid; gid; nlink; mtime; size; ma; mi; rma; rmi; ns; ck].
Proof.
  intros Hu Hg Ht Hs. unfold sprintf_newc, header, magic.
  rewrite !fmt_08lX_08X, Hs by done. cbn [flat_map]. by rewrite app_nil_r.
Qed.

Lemma header13_length a b c d e f g h i j k l m :
  length (header [a; b; c; d; e; f; g; h; i; j; k; l; m]) = 110%nat.
Proof. apply Nat2Z.inj. rewrite header_length. done. Qed.

(** An entry without data, as [push_hdr] and [push_rest] write it. *)
Lemma hdr_rest_encode e st :
  n_data e = [] -> n_namesize e < 2 ^ 31 -> st_ok st (Z.of_nat (length (encode e))) ->
  (st ← push_hdr (header (fields e)) st; push_rest (n_name e) st) = Ok (emit (encode e) st).
Proof.
  intros Hd Hn Hst. rewrite encode_length in Hst.
  pose proof (pad4_range (110 + n_namesize e)). pose proof (pad4_range (n_filesize e)).
  assert (0 <= n_namesize e) by (unfold n_namesize; lia).
  assert (0 <= n_filesize e) by (unfold n_filesize; lia).
  assert (Hh : length (header (fields e)) = 110%nat) by apply header13_length.
  rewrite push_hdr_emit, bind_Ok by (done || (eapply st_ok_le; [done|lia])).
  rewrite push_rest_emit.
  - rewrite emit_emit by apply Hst. f_equal. unfold encode, n_filesize. rewrite Hd. cbn [app length].
    by rewrite app_nil_r.
  - apply emit_ok. fold (n_namesize e). eapply st_ok_le; [done|]. lia.
  - fold (n_namesize e). lia.
Qed.

(** An entry whose data follows the padded name, as the symbolic link and file
    writers produce it: the padding is computed from the running offset, so the
    entry must start on a four byte boundary. *)
Lemma hdr_name_encode hd name st :
  length hd = 110%nat -> offset st mod 4 = 0 ->
  st_ok st (110 + (Z.of_nat (length name) + 1) + pad4 (110 + (Z.of_nat (length name) + 1))) ->
  (st ← push_hdr hd st; st ← push_string name st; push_pad st)
  = Ok (emit (hd ++ name ++ [NUL] ++ zeros (pad4 (110 + (Z.of_nat (length name) + 1)))) st).
Proof.
  intros Hh Ha Hst. set (n := Z.of_nat (length name) + 1) in *.
  pose proof (pad4_range (110 + n)) as Hp. assert (0 <= n) by lia. pose proof (proj1 Hst) as Hf.
  rewrite push_hdr_emit, bind_Ok by (done || (eapply st_ok_le; [done|lia])).
  rewrite push_string_emit, bind_Ok
    by (apply emit_ok; rewrite Hh; fold n; eapply st_ok_le; [done|lia]).
  rewrite emit_emit by done.
  assert (Eo : pad4 (offset (emit (hd ++ name ++ [NUL]) st)) = pad4 (110 + n)).
  { cbn [offset emit]. rewrite <- (pad4_add (offset st) (110 + n)) by done. f_equal.
    rewrite !length_app, Hh. cbn. lia. }
  rewrite push_pad_emit; rewrite Eo.
  - rewrite emit_emit by done. by rewrite <- !(assoc_L (++)).
  - apply emit_ok. rewrite !length_app, Hh. cbn. eapply st_ok_le; [done|lia].
Qed.

(** The part after the name: the data and its padding. *)
Lemma data_pad_encode data st :
  offset st mod 4 = 0 -> st_ok st (Z.of_nat (length data) + pad4 (Z.of_nat (length data))) ->
  push_pad (emit data st) = Ok (emit (data ++ zeros (pad4 (Z.of_nat (length data)))) st).
Proof.
  intros Ha Hst. pose proof (proj1 Hst) as Hf.
  assert (Eo : pad4 (offset (emit data st)) = pad4 (Z.of_nat (length data)))
    by (cbn [offset emit]; by apply pad4_add).
  rewrite push_pad_emit; rewrite Eo.
  - by rewrite emit_emit by done.
  - by apply emit_ok.
Qed.

Lemma emit_aligned bs st :
  offset st mod 4 = 0 -> Z.of_nat (length bs) mod 4 = 0 -> offset (emit bs st) mod 4 = 0.
Proof. intros H1 H2. cbn. by rewrite Z.add_mod, H1, H2 by lia. Qed.

(** *** What each kind of line stands for *)

Definition slink_entry (mtime ino : Z) (name target : list ascii) (mode uid gid : Z) : newc :=
  Newc ino (Z.lor S_IFLNK mode) (uwrap 32 uid) (uwrap 32 gid) 1 mtime 3 1 0 0 0
    (strip_slash name) (target ++ [NUL]).

Definition generic_entry (mtime ino : Z) (name : list ascii) (mode uid gid : Z) : newc :=
  Newc ino mode (uwrap 32 uid) (uwrap 32 gid) 2 mtime 3 1 0 0 0 (strip_slash name) [].

Definition nod_entry (mtime ino : Z) (name : list ascii) (mode uid gid : Z) (dev_type : ascii)
    (maj min : Z) : newc :=
  Newc ino (Z.lor mode (if bool_decide (dev_type = "b"%char) then S_IFBLK else S_IFCHR))
    (uwrap 32 uid) (uwrap 32 gid) 1 mtime 3 1 maj min 0 (strip_slash name) [].

(** One entry per name, all with the same inode; the data is with the last. *)
Fixpoint file_entries (mtime ino mode uid gid nlinks : Z) (data : list ascii)
    (names : list (list ascii)) : list newc :=
  match names with
  | [] => []
  | name :: names' =>
      Newc ino (Z.lor mode S_IFREG) (uwrap 32 uid) (uwrap 32 gid) nlinks mtime 3 1 0 0 0
        (strip_slash name) (match names' with [] => data | _ :: _ => [] end)
      :: file_entries mtime ino mode uid gid nlinks data names'
  end.

Definition trailer_entry : newc := Newc 0 0 0 0 1 0 0 0 0 0 0 trailer_name [].

(** [writes run st es]: [run] appends exactly the encoding of [es] to [st]. *)
Definition entry_room (es : list newc) : Z := Z.of_nat (length (flat_map encode es)).

Lemma uwrap_field_ok n : field_ok (uwrap 32 n).
Proof. apply uwrap_range. lia. Qed.

Lemma entry_room_name e es st : st_ok st (entry_room (e :: es)) -> n_namesize e < 2 ^ 31.
Proof.
  intros (_ & H0 & H). unfold entry_room in H. cbn [flat_map] in H.
  rewrite length_app, Nat2Z.inj_add, encode_length in H.
  pose proof (pad4_range (110 + n_namesize e)). pose proof (pad4_range (n_filesize e)).
  unfold n_filesize, INT_MAX in *. lia.
Qed.

Lemma entry_room_data e es st : st_ok st (entry_room (e :: es)) -> n_filesize e < 2 ^ 31.
Proof.
  intros (_ & H0 & H). unfold entry_room in H. cbn [flat_map] in H.
  rewrite length_app, Nat2Z.inj_add, encode_length in H.
  pose proof (pad4_range (110 + n_namesize e)). pose proof (pad4_range (n_filesize e)).
  unfold n_namesize, INT_MAX in *. lia.
Qed.

Lemma entry_room_1 e : entry_room [e] = Z.of_nat (length (encode e)).
Proof. unfold entry_room. cbn [flat_map]. by rewrite app_nil_r. Qed.

(** [cpio_mkgeneric], [cpio_mknod] and the head of [cpio_trailer]: a header and
    [push_rest]. *)
Lemma hdr_rest_run {B} e hd st (k : my_state -> res B) :
  hd = header (fields e) -> n_data e = [] -> st_ok st (entry_room [e]) ->
  (st ← push_hdr hd st; st ← push_rest (n_name e) st; k st) = k (emit (encode e) st).
Proof.
  intros -> Hd Hst. pose proof (entry_room_name _ _ _ Hst). rewrite entry_room_1 in Hst.
  pose proof (hdr_rest_encode e st Hd ltac:(done) Hst) as E.
  apply (f_equal (mbind k)) in E. by rewrite bind_assoc in E.
Qed.

Lemma cpio_mkgeneric_emit mt name mode uid gid ino st :
  let e := generic_entry mt ino name mode uid gid in
  field_ok mt -> st_ok st (entry_room [e]) ->
  cpio_mkgeneric mt name mode uid gid (Cpio ino st) =
    Ok (0, Cpio (uwrap 32 (ino + 1)) (emit (encode e) st)).
Proof.
  intros e Hm Hst. pose proof (entry_room_name _ _ _ Hst) as Hn.
  unfold n_namesize in Hn. cbn [e generic_entry n_name] in Hn.
  unfold cpio_mkgeneric. cbn [i_no me]. cbv beta iota zeta delta [get_ino].
  rewrite sprintf_newc_header by (apply uwrap_field_ok || done).
  rewrite (uwrap_small 32 (Z.of_nat _)) by lia.
  by apply (hdr_rest_run e).
Qed.

Lemma cpio_mknod_emit mt name mode uid gid ty maj min ino st :
  let e := nod_entry mt ino name mode uid gid ty maj min in
  field_ok mt -> st_ok st (entry_room [e]) ->
  cpio_mknod mt name mode uid gid ty maj min (Cpio ino st) =
    Ok (0, Cpio (uwrap 32 (ino + 1)) (emit (encode e) st)).
Proof.
  intros e Hm Hst. pose proof (entry_room_name _ _ _ Hst) as Hn.
  unfold n_namesize in Hn. cbn [e nod_entry n_name] in Hn.
  unfold cpio_mknod. cbn [i_no me]. cbv beta iota zeta delta [get_ino].
  rewrite sprintf_newc_header by (apply uwrap_field_ok || done).
  rewrite (uwrap_small 32 (Z.of_nat _)) by lia.
  rewrite <- (hdr_rest_run e _ st (fun st => Ok (0, Cpio (uwrap 32 (ino + 1)) st)) eq_refl eq_refl Hst).
  unfold e, nod_entry, fields. cbn. by destruct (bool_decide _).
Qed.

(** [cpio_mkslink] and [cpio_mkfile] pad with the running offset, so they need an
    aligned one: the part of an entry before its data, and the rest. *)
Definition encode_head (e : newc) : list ascii :=
  header (fields e) ++ n_name e ++ [NUL] ++ zeros (pad4 (110 + n_namesize e)).

Lemma encode_split e :
  encode e = encode_head e ++ n_data e ++ zeros (pad4 (n_filesize e)).
Proof. unfold encode, encode_head. by rewrite <- !(assoc_L (++)). Qed.

Lemma encode_head_length e :
  Z.of_nat (length (encode_head e)) = 110 + n_namesize e + pad4 (110 + n_namesize e).
Proof.
  unfold encode_head. rewrite !length_app, !Nat2Z.inj_add, length_zeros by apply pad4_range.
  rewrite header_length. unfold n_namesize. cbn [length fields]. lia.
Qed.

Lemma encode_head_aligned e st :
  offset st mod 4 = 0 -> offset (emit (encode_head e) st) mod 4 = 0.
Proof.
  intros H. apply emit_aligned; [done|]. rewrite encode_head_length. apply pad4_aligned.
Qed.

Lemma head_run {B} e hd st (k : my_state -> res B) :
  hd = header (fields e) -> offset st mod 4 = 0 -> st_ok st (entry_room [e]) ->
  (st ← push_hdr hd st; st ← push_string (n_name e) st; st ← push_pad st; k st)
  = k (emit (encode_head e) st).
Proof.
  intros -> Ha Hst. rewrite entry_room_1, encode_length in Hst.
  pose proof (pad4_range (110 + n_namesize e)). pose proof (pad4_range (n_filesize e)).
  assert (0 <= n_filesize e) by (unfold n_filesize; lia).
  pose proof (hdr_name_encode (header (fields e)) (n_name e) st
    (header13_length _ _ _ _ _ _ _ _ _ _ _ _ _) Ha) as E.
  fold (n_namesize e) in E. specialize (E ltac:(eapply st_ok_le; [done|lia])).
  apply (f_equal (mbind k)) in E. rewrite bind_assoc in E.
  destruct (push_hdr _ st); [|done..]. rewrite bind_Ok in *.
  destruct (push_string (n_name e) _); [exact E|done..].
Qed.

Lemma tail_run {B} e st (k : my_state -> res B) :
  offset st mod 4 = 0 -> st_ok st (entry_room [e]) ->
  (st ← push_pad (emit (n_data e) (emit (encode_head e) st)); k st) = k (emit (encode e) st).
Proof.
  intros Ha Hst. rewrite entry_room_1, encode_length in Hst.
  pose proof (pad4_range (110 + n_namesize e)). pose proof (pad4_range (n_filesize e)).
  rewrite data_pad_encode; [|by apply encode_head_aligned|].
  - rewrite bind_Ok, emit_emit by apply Hst. by rewrite <- encode_split.
  - apply emit_ok. rewrite encode_head_length. fold (n_filesize e).
    eapply st_ok_le; [done|]. lia.
Qed.

Lemma cpio_mkslink_emit mt name target mode uid gid ino st :
  let e := slink_entry mt ino name target mode uid gid in
  field_ok mt -> offset st mod 4 = 0 -> st_ok st (entry_room [e]) ->
  cpio_mkslink mt name target mode uid gid (Cpio ino st) =
    Ok (0, Cpio (uwrap 32 (ino + 1)) (emit (encode e) st)).
Proof.
  intros e Hm Ha Hst. pose proof (entry_room_name _ _ _ Hst) as Hn.
  pose proof (entry_room_data _ _ _ Hst) as Hd.
  assert (Ef : n_filesize e = Z.of_nat (length target) + 1).
  { unfold n_filesize. cbn. rewrite length_app. cbn. lia. }
  assert (En : n_namesize e = Z.of_nat (length (strip_slash name)) + 1) by done.
  unfold cpio_mkslink. cbn [i_no me]. cbv beta iota zeta delta [get_ino].
  rewrite sprintf_newc_header by (apply uwrap_field_ok || done).
  rewrite (uwrap_small 32 (Z.of_nat (length target))),
    (uwrap_small 32 (Z.of_nat (length (strip_slash name)))) by lia.
  rewrite <- Ef, <- En.
  rewrite (head_run e _ st (fun st => st ← push_string target st; st ← push_pad st;
    Ok (0, Cpio (uwrap 32 (ino + 1)) st)) eq_refl Ha Hst).
  rewrite push_string_emit, bind_Ok.
  - exact (tail_run e st _ Ha Hst).
  - apply emit_ok. rewrite encode_head_length. rewrite entry_room_1, encode_length in Hst.
    pose proof (pad4_range (n_filesize e)). eapply st_ok_le; [done|]. lia.
Qed.

Lemma cpio_trailer_emit st :
  offset st = 0 -> f_ok (fp st) ->
  cpio_trailer st = Ok (emit (encode trailer_entry ++ zeros 388) st).
Proof.
  intros H0 Hf. unfold cpio_trailer.
  assert (Hst : st_ok st 512) by (repeat split; [done|unfold INT_MAX; lia..]).
  assert (L : Z.of_nat (length (encode trailer_entry)) = 124) by (vm_compute; done).
  rewrite sprintf_newc_header by (by vm_compute).
  rewrite (hdr_rest_run trailer_entry _ st
    (fun st => while 512 (fun st => negb (Z.rem (offset st) 512 =? 0)) put_zero st));
    [|done|done|rewrite entry_room_1, L; eapply st_ok_le; [done|lia]].
  assert (Eo : offset (emit (encode trailer_entry) st) = 124) by (cbn [offset emit]; lia).
  rewrite (pad_loop 512); rewrite ?Eo.
  - rewrite emit_emit by done. done.
  - lia.
  - intros s Hs. by rewrite Z.rem_mod_nonneg by lia.
  - apply emit_ok. rewrite L. eapply st_ok_le; [done|]. vm_compute. discriminate.
Qed.

(** *** [cpio_mkfile] *)

(** The memory the name pointer refers to: the names, each with its terminator. *)
Definition names_mem (names : list (list ascii)) : list ascii :=
  flat_map (fun n => n ++ [NUL]) names.

Lemma strip_slash_no_nul name : no_nul name -> no_nul (strip_slash name).
Proof.
  destruct name as [|c name]; [done|]. intros H. cbn. destruct (bool_decide _); [|done].
  intros Hn. apply H. by constructor.
Qed.

(** [if (name[0] == '/') name++] on the memory. *)
Lemma strip_slash_mem name rest :
  strip_slash (name ++ NUL :: rest) = strip_slash name ++ NUL :: rest.
Proof. destruct name as [|c name]; [done|]. cbn. by destruct (bool_decide _). Qed.

(** The file can be read completely and written. *)
Definition node_ok (node : fsnode) (data : list ascii) : Prop :=
  fs_fstat_ok node = true /\ fs_malloc_ok node = true /\ fs_read node = Some data /\
  fs_size node = Z.of_nat (length data) /\ field_ok (fs_mtime node) /\ fs_fwrite_ok node = true.

(** One link, and then the rest of the loop. *)
Lemma mkfile_links_step left node data ino mode uid gid nlinks name rest st e :
  node_ok node data -> no_nul name -> field_ok uid -> field_ok gid ->
  offset st mod 4 = 0 -> st_ok st (entry_room [e]) ->
  e = Newc ino mode uid gid nlinks (fs_mtime node) 3 1 0 0 0 (strip_slash name)
        (if Nat.eqb left 0 then data else []) ->
  mkfile_links (S left) node data ino mode uid gid nlinks (name ++ NUL :: rest) st =
  mkfile_links left node data ino mode uid gid nlinks rest (emit (encode e) st).
Proof.
  intros (_ & _ & _ & Hsz & Hmt & Hw) Hname Hu Hg Ha Hst He.
  pose proof (entry_room_data _ _ _ Hst) as Hd.
  set (size := if Nat.eqb left 0 then fs_size node else 0).
  assert (Esize : n_filesize e = size).
  { subst e size. unfold n_filesize. cbn. destruct left; cbn; [by rewrite Hsz|done]. }
  assert (0 <= size) by (rewrite <- Esize; unfold n_filesize; lia).
  cbn [mkfile_links]. change (Nat.eqb (S left) 1) with (Nat.eqb left 0). fold size.
  assert (Ene : exists c m, name ++ NUL :: rest = c :: m) by (destruct name; eauto).
  destruct Ene as (c & m & Ene). rewrite Ene at 1. clear c m Ene.
  rewrite strip_slash_mem. unfold strlen.
  rewrite cstr_nul, !bind_Ok by by apply strip_slash_no_nul.
  rewrite sprintf_newc_header by (done || apply fmt_08lX_08X; unfold field_ok; lia).
  assert (Edrop : drop (Z.to_nat (Z.of_nat (length (strip_slash name)) + 1))
    (strip_slash name ++ NUL :: rest) = rest).
  { replace (Z.to_nat _) with (S (length (strip_slash name))) by lia.
    rewrite drop_app_ge by lia. by replace (_ - _)%nat with 1%nat by lia. }
  rewrite Edrop. rewrite <- Esize in *.
  assert (En : strip_slash name = n_name e) by (by subst e). rewrite En.
  etransitivity; [apply (head_run e); [by subst e|done..]|]. cbv beta.
  destruct (Z.eqb_spec (n_filesize e) 0) as [E0|E0]; cbn [negb].
  - f_equal. rewrite encode_split, E0. change (zeros (pad4 0)) with (@nil ascii).
    destruct (n_data e) eqn:E; [by rewrite !app_nil_r|]. unfold n_filesize in E0.
    rewrite E in E0. cbn in E0. lia.
  - assert (Ed : n_data e = data /\ fs_size node = n_filesize e).
    { rewrite Esize. subst e size. destruct left; [done|]. by cbn in E0. }
    destruct Ed as [Ed Es].
    unfold fwrite_buf. rewrite Hw. rewrite ub_unless_true, bind_Ok by (apply Z.leb_le; lia).
    unfold add_unsigned. rewrite swrap_small.
    2: lia.
    2: { destruct Hst as (_ & H0 & Hst). rewrite entry_room_1, encode_length in Hst.
         unfold INT_MAX in Hst. cbn [emit offset]. rewrite encode_head_length.
         pose proof (pad4_range (n_filesize e)). pose proof (pad4_range (110 + n_namesize e)).
         unfold n_namesize in *. lia. }
    rewrite take_ge by lia.
    etransitivity; [|apply (tail_run e st _ Ha Hst)].
    rewrite Ed. unfold emit at 2, n_filesize. by rewrite Ed.
Qed.

Lemma file_entries_room mtime ino mode uid gid nlinks data name names st :
  let es := file_entries mtime ino mode uid gid nlinks data (name :: names) in
  st_ok st (entry_room es) ->
  exists e, es = e :: file_entries mtime ino mode uid gid nlinks data names /\
    st_ok st (entry_room [e]) /\
    st_ok (emit (encode e) st) (entry_room (file_entries mtime ino mode uid gid nlinks data names)).
Proof.
  intros es Hst. eexists. split; [reflexivity|]. subst es. cbn [file_entries] in Hst.
  set (e := Newc _ _ _ _ _ _ _ _ _ _ _ _ _) in *.
  unfold entry_room in Hst. cbn [flat_map] in Hst. rewrite length_app, Nat2Z.inj_add in Hst. split.
  - rewrite entry_room_1. eapply st_ok_le; [done|]. lia.
  - by apply emit_ok.
Qed.

Lemma mkfile_links_emit node data ino mode uid gid nlinks names rest st :
  let es := file_entries (fs_mtime node) ino mode uid gid nlinks data names in
  node_ok node data -> Forall no_nul names ->
  offset st mod 4 = 0 -> st_ok st (entry_room es) ->
  mkfile_links (length names) node data ino (Z.lor mode S_IFREG) (uwrap 32 uid) (uwrap 32 gid)
    nlinks (names_mem names ++ rest) st = Ok (0, emit (flat_map encode es) st).
Proof.
  cbn zeta. intros Hnode Hnames. revert st. induction Hnames as [|name names Hn Hns IH]; intros st Ha Hst.
  - cbn. by rewrite emit_nil by apply Hst.
  - pose proof (proj1 Hst) as Hf.
    destruct (file_entries_room _ _ _ _ _ _ _ _ _ _ Hst) as (e & Ee & H1 & H2).
    change (length (name :: names)) with (S (length names)).
    unfold names_mem. cbn [flat_map]. rewrite <- !(assoc_L (++)). change ([NUL] ++ ?l) with (NUL :: l).
    rewrite (mkfile_links_step _ node data) with (e := e);
      [|done|done|apply uwrap_field_ok|apply uwrap_field_ok|done|done|].
    2: { injection Ee as <-. f_equal. by destruct names. }
    rewrite IH; [|by apply emit_aligned, encode_aligned|done].
    rewrite emit_emit by done. by rewrite Ee.
Qed.

Lemma cpio_mkfile_emit fs names rest location mode uid gid node data ino st :
  let nlinks := Z.of_nat (length names) in
  let es := file_entries (fs_mtime node) ino mode uid gid nlinks data names in
  fs location = Some node -> node_ok node data -> Forall no_nul names ->
  offset st mod 4 = 0 -> st_ok st (entry_room es) ->
  cpio_mkfile fs (names_mem names ++ rest) location mode uid gid nlinks (Cpio ino st)
  = Ok (0, Cpio (uwrap 32 (ino + 1)) (emit (flat_map encode es) st)).
Proof.
  cbn zeta. intros Hfs Hn Hnames Ha Hst. unfold cpio_mkfile. rewrite Hfs.
  pose proof Hn as (H1 & H2 & H3 & _).
  rewrite H1, H2, H3. cbn [negb i_no me]. cbv beta iota zeta delta [get_ino].
  by rewrite Nat2Z.id, (mkfile_links_emit node data), bind_Ok.
Qed.

(** ** The theorems *)

(** [cpio_mkslink] appends exactly one well formed entry: on a stream whose
    offset is a multiple of four it returns 0, takes the next inode number, and
    what it writes is the encoding of a symbolic link with the given name (less
    a leading slash), target, mode and owner, the offset counting every byte. *)
Theorem cpio_mkslink_encodes mt name target mode uid gid ino st :
  let e := slink_entry mt ino name target mode uid gid in
  field_ok mt -> offset st mod 4 = 0 -> st_ok st (entry_room [e]) ->
  exists st', cpio_mkslink mt name target mode uid gid (Cpio ino st) =
      Ok (0, Cpio (uwrap 32 (ino + 1)) st') /\
    f_written (fp st') = f_written (fp st) ++ encode e /\
    offset st' = offset st + Z.of_nat (length (encode e)) /\ offset st' mod 4 = 0.
Proof.
  intros e Hm Ha Hst. eexists. split; [by apply cpio_mkslink_emit|].
  split; [apply fput_written, Hst|]. split; [done|]. by apply emit_aligned, encode_aligned.
Qed.

Definition st0 : my_state := MyState 0 (mkFILE [] 0).

Lemma st0_ok n : n <= INT_MAX -> st_ok st0 n.
Proof. intros H. repeat split; cbn; [apply Nat.le_refl|lia|lia]. Qed.

Lemma cpio_mkslink_encodes_witness :
  exists st', cpio_mkslink 1000 (chars "/bin/sh") (chars "busybox") 0x1FF 0 0 (Cpio 721 st0) =
      Ok (0, Cpio 722 st') /\ offset st' = 128.
Proof.
  destruct (cpio_mkslink_encodes 1000 (chars "/bin/sh") (chars "busybox") 0x1FF 0 0 721 st0)
    as (st' & E & _ & Eo & _).
  - split; lia.
  - reflexivity.
  - apply st0_ok. vm_compute. discriminate.
  - exists st'. split; [exact E|]. rewrite Eo. vm_compute. reflexivity.
Defined.

(** C3. [cpio_mkfile] writes one entry per link name, all with the same inode and
    link count, with the file's contents on the last one only, and uses up one
    inode number however many links there are. *)
Theorem cpio_mkfile_encodes fs names rest location mode uid gid node data ino st :
  let nlinks := Z.of_nat (length names) in
  let es := file_entries (fs_mtime node) ino mode uid gid nlinks data names in
  fs location = Some node -> node_ok node data -> Forall no_nul names ->
  offset st mod 4 = 0 -> st_ok st (entry_room es) ->
  exists st', cpio_mkfile fs (names_mem names ++ rest) location mode uid gid nlinks (Cpio ino st)
      = Ok (0, Cpio (uwrap 32 (ino + 1)) st') /\
    f_written (fp st') = f_written (fp st) ++ flat_map encode es /\
    offset st' = offset st + Z.of_nat (length (flat_map encode es)).
Proof.
  cbn zeta. intros Hfs Hn Hnames Ha Hst.
  eexists. split; [by apply cpio_mkfile_emit|]. split; [apply fput_written, Hst|done].
Qed.

Definition node_hello : fsnode :=
  FsNode true 5 1234567 true (Some (chars "hello")) true.

Lemma cpio_mkfile_encodes_witness :
  exists st', cpio_mkfile (fun _ => Some node_hello)
      (names_mem [chars "/a"; chars "b"] ++ []) (chars "/tmp/x") 0x1A4 0 0 2 (Cpio 721 st0)
      = Ok (0, Cpio 722 st') /\ offset st' = 232.
Proof.
  destruct (cpio_mkfile_encodes (fun _ => Some node_hello) [chars "/a"; chars "b"] []
    (chars "/tmp/x") 0x1A4 0 0 node_hello (chars "hello") 721 st0) as (st' & E & _ & Eo).
  - reflexivity.
  - repeat split; cbn; lia.
  - apply (bool_decide_unpack _). vm_compute. exact I.
  - reflexivity.
  - apply st0_ok. vm_compute. discriminate.
  - exists st'. split; [exact E|]. rewrite Eo. vm_compute. reflexivity.
Defined.

(** C4. The trailer: on the freshly reset state of standard output, an entry named
    TRAILER!!! and zeros up to 512 bytes, whatever was written before. *)
Theorem cpio_trailer_encodes f :
  f_ok f ->
  exists st', cpio_trailer (MyState 0 f) = Ok st' /\
    f_written (fp st') = f_written f ++ encode trailer_entry ++ zeros 388 /\
    offset st' = 512.
Proof.
  intros Hf. eexists. split; [by apply cpio_trailer_emit|].
  split; [by apply fput_written|]. cbn [emit offset]. by vm_compute.
Qed.

Lemma cpio_trailer_encodes_witness :
  exists st', cpio_trailer (MyState 0 (mkFILE (chars "abc") 3)) = Ok st' /\ offset st' = 512.
Proof.
  destruct (cpio_trailer_encodes (mkFILE (chars "abc") 3)) as (st' & E & _ & Eo).
  - apply Nat.le_refl.
  - exists st'. split; [exact E|exact Eo].
Defined.

(** What a time stamp before 1970 does: %08lX prints sixteen digits. *)
Lemma fmt_08lX_negative n : - 2 ^ 31 <= n < 0 -> length (fmt_08lX n) = 16%nat.
Proof.
  intros H. unfold fmt_08lX, print_radix. rewrite radix_length.
  assert (E : uwrap 64 n = n + 2 ^ 64).
  { unfold uwrap. rewrite <- (Z_mod_plus_full n 1). apply Z.mod_small. lia. }
  rewrite E.
  pose proof (ndigits_le 64 16 (n + 2 ^ 64) 16 ltac:(lia) ltac:(lia) ltac:(lia)).
  pose proof (ndigits_enough 64 16 (n + 2 ^ 64) ltac:(lia) ltac:(lia)) as G.
  assert (ndigits 64 16 (n + 2 ^ 64) < 16 -> False)%nat; [|lia].
  intros L. assert (16 ^ Z.of_nat (ndigits 64 16 (n + 2 ^ 64)) <= 16 ^ 15)
    by (apply Z.pow_le_mono_r; lia). lia.
Qed.

(** With a time stamp before 1970 ([-t -1]) the header of an entry is eight
    bytes too long: the stream advances eight bytes more than the offset counts,
    and so every entry after it is misaligned. *)
Theorem cpio_mkgeneric_negative_mtime mt name mode uid gid ino st :
  - 2 ^ 31 <= mt < 0 -> Z.of_nat (length name) < 2 ^ 20 -> st_ok st (2 ^ 30) ->
  exists st', cpio_mkgeneric mt name mode uid gid (Cpio ino st) =
      Ok (0, Cpio (uwrap 32 (ino + 1)) st') /\
    ftell (fp st') - ftell (fp st) = offset st' - offset st + 8.
Proof.
  intros Hm Hn Hst. unfold cpio_mkgeneric. cbn [i_no me].
  cbv beta iota zeta delta [get_ino]. set (hd := sprintf_newc _ _ _ _ _ _ _ _ _ _ _ _ _ _).
  assert (Hl : length hd = 118%nat).
  { subst hd. unfold sprintf_newc. rewrite !length_app, !fmt_08X_length, (fmt_08lX_negative mt) by done.
    by rewrite !fmt_08lX_length by apply uwrap_field_ok. }
  destruct Hst as (Hf & H0 & H1).
  assert (Hs : Z.of_nat (length (strip_slash name)) <= Z.of_nat (length name)).
  { destruct name; cbn; [lia|]. destruct (bool_decide _); cbn; lia. }
  unfold push_hdr, add_int. rewrite int_of_Ok by (unfold INT_MIN; lia). rewrite !bind_Ok.
  set (n := Z.of_nat (length (strip_slash name)) + 1).
  pose proof (pad4_range (110 + n)) as Hp.
  rewrite push_rest_emit; cbn [offset fp]; fold n.
  - eexists. rewrite bind_Ok. split; [reflexivity|]. unfold ftell. cbn [emit fp fput f_pos offset].
    rewrite Hl. lia.
  - repeat split; [by apply fput_ok|cbn [offset]; lia|cbn [offset]; lia].
  - lia.
Qed.

Lemma cpio_mkgeneric_negative_mtime_witness :
  exists st', cpio_mkgeneric (-1) (chars "/dev") 0x41ED 0 0 (Cpio 721 st0) = Ok (0, Cpio 722 st') /\
    ftell (fp st') = offset st' + 8.
Proof.
  destruct (cpio_mkgeneric_negative_mtime (-1) (chars "/dev") 0x41ED 0 0 721 st0) as (st' & E & D).
  - lia.
  - reflexivity.
  - apply st0_ok. vm_compute. discriminate.
  - exists st'. split; [exact E|]. change (ftell (fp st0)) with 0 in D. change (offset st0) with 0 in D. lia.
Defined.
