(* ===== verification/CpioLine.v ===== *)
(** * The line handlers of src/gen_init_cpio.c

    Parsing of one line of the list ([cpio_*_line], [cpio_replace_env],
    [file_handler_table] and the body of [worker_thread_routine]'s loop), and the
    proof that a well formed line produces exactly the entries it describes. *)
From stdpp Require Import base list strings sets.
From Stdlib Require Import ZArith Lia Ascii.
From S2P Require Import Prelude Stdio Newc Cpio.

Open Scope Z_scope.

(** ** What the handlers read from outside *)
Record host : Type := Host {
  default_mtime : Z;
  fs : list ascii -> option fsnode;
  getenv : list ascii -> option (list ascii);
  dname_ok : bool;                 (* [malloc] of the hard link names succeeds *)
}.

Definition PATH_MAX : Z := 4096.
Definition path_max : nat := Z.to_nat PATH_MAX.

(** ** Handlers *)

Definition cpio_mkslink_line (h : host) (line : list ascii) (c : cpio) : res (Z * cpio) :=
  r ← sscanf line [DStr path_max; DSpace; DStr path_max; DSpace; DOct; DSpace; DDec; DSpace; DDec];
  match r with
  | (5, [VStr name; VStr target; VInt mode; VInt uid; VInt gid]) =>
      cpio_mkslink (default_mtime h) name target mode uid gid c
  | _ => Ok (-1, c)
  end.

Inductive generic_types : Type := GT_DIR | GT_PIPE | GT_SOCK.

Definition generic_type_table (gt : generic_types) : list ascii * Z :=
  match gt with
  | GT_DIR => (chars "dir", S_IFDIR)
  | GT_PIPE => (chars "pipe", S_IFIFO)
  | GT_SOCK => (chars "sock", S_IFSOCK)
  end.

Definition cpio_mkgeneric_line (gt : generic_types) (h : host) (line : list ascii) (c : cpio)
    : res (Z * cpio) :=
  r ← sscanf line [DStr path_max; DSpace; DOct; DSpace; DDec; DSpace; DDec];
  match r with
  | (4, [VStr name; VInt mode; VInt uid; VInt gid]) =>
      cpio_mkgeneric (default_mtime h) name (Z.lor mode (generic_type_table gt).2) uid gid c
  | _ => Ok (-1, c)
  end.

Definition cpio_mkdir_line := cpio_mkgeneric_line GT_DIR.
Definition cpio_mkpipe_line := cpio_mkgeneric_line GT_PIPE.
Definition cpio_mksock_line := cpio_mkgeneric_line GT_SOCK.

Definition cpio_mknod_line (h : host) (line : list ascii) (c : cpio) : res (Z * cpio) :=
  r ← sscanf line [DStr path_max; DSpace; DOct; DSpace; DDec; DSpace; DDec; DSpace; DChar;
                   DSpace; DUns; DSpace; DUns];
  match r with
  | (7, [VStr name; VInt mode; VInt uid; VInt gid; VChar dev_type; VInt maj; VInt min]) =>
      cpio_mknod (default_mtime h) name mode uid gid dev_type maj min c
  | _ => Ok (-1, c)
  end.

(** [strstr(s, "${")]: what precedes it, and what follows it. *)
Fixpoint find_dollar (s : list ascii) : option (list ascii * list ascii) :=
  match s with
  | c1 :: s1 =>
      match s1 with
      | c2 :: s2 =>
          if bool_decide (c1 = "$"%char) && bool_decide (c2 = "{"%char) then Some ([], s2)
          else '(pre, post) ← find_dollar s1; Some (c1 :: pre, post)
      | [] => None
      end
  | [] => None
  end.

(** [strncat] into a buffer of [PATH_MAX + 1] characters: at most [n] characters
    of [s] and a terminator must fit. *)
Definition strncat (buf s : list ascii) (n : Z) : res (list ascii) :=
  let r := buf ++ take (Z.to_nat n) s in
  ub_unless (Z.of_nat (length r) <=? PATH_MAX) (Ok r).

(** [strncpy(new_location, expanded, PATH_MAX)] writes no terminator when
    [expanded] has [PATH_MAX] characters; the string then ends only if the last
    byte of the buffer, which [full] says, is one. *)
Fixpoint cpio_replace_env (fuel : nat) (h : host) (full : bool) (new_location : list ascii)
    : res (list ascii) :=
  match find_dollar new_location with
  | None => Ok new_location
  | Some (pre, post) =>
      let '(var, rest) := split_while (fun c => negb (bool_decide (c = "}"%char))) post in
      match rest with
      | [] => Ok new_location
      | _ :: after =>
          match fuel with
          | O => NoFuel
          | S fuel =>
              env_var ← strncat [] var (Z.of_nat (length var));
              expanded ← strncat [] pre (Z.of_nat (length pre));
              match getenv h env_var with
              | None => Undef
              | Some value =>
                  expanded ← strncat expanded value PATH_MAX;
                  expanded ← strncat expanded after PATH_MAX;
                  ub_unless (full || (Z.of_nat (length expanded) <? PATH_MAX))
                    (cpio_replace_env fuel h full expanded)
              end
          end
      end
  end.

Definition isgraph (c : ascii) : bool :=
  (Nat.leb 33 (nat_of_ascii c)) && (Nat.leb (nat_of_ascii c) 126).

(** [line[end]] of a terminated string. *)
Definition char_at (line : list ascii) (e : Z) : res ascii := rd (line ++ [NUL]) e.

(** The [do ... while] over the hard links; [dname] is the filled part of the
    buffer of [strlen(line)] bytes. *)
Fixpoint hard_links (fuel : nat) (line dname : list ascii) (e nlinks : Z)
    : res (list ascii * Z) :=
  match fuel with
  | O => NoFuel
  | S fuel =>
      r ← sscanf (drop (Z.to_nat e) line) [DStr path_max; DSpace; DPos];
      match r with
      | (1, [VStr name; VInt nend]) =>
          let dname := dname ++ name ++ [NUL] in
          ub_unless (Z.of_nat (length dname) <=? Z.of_nat (length line))
            (let nlinks := nlinks + 1 in
             let e := e + nend in
             c ← char_at line e;
             if isgraph c then hard_links fuel line dname e nlinks else Ok (dname, nlinks))
      | _ => Ok (dname, nlinks)
      end
  end.

(** [env_fuel] bounds the substitutions of [cpio_replace_env]. *)
Definition cpio_mkfile_line (env_fuel : nat) (h : host) (line : list ascii) (c : cpio)
    : res (Z * cpio) :=
  r ← sscanf line [DStr path_max; DSpace; DStr path_max; DSpace; DOct; DSpace; DDec; DSpace;
                   DDec; DSpace; DPos];
  match r with
  | (5, [VStr name; VStr location; VInt mode; VInt uid; VInt gid; VInt e]) =>
      ch ← char_at line e;
      let mkfile dname nlinks :=
        loc ← cpio_replace_env env_fuel h (Z.of_nat (length location) =? PATH_MAX) location;
        cpio_mkfile (fs h) dname loc mode uid gid nlinks c in
      if negb (e =? 0) && isgraph ch then
        if negb (dname_ok h) then Ok (-1, c)
        else
          let dname := name ++ [NUL] in
          ub_unless (Z.of_nat (length dname) <=? Z.of_nat (length line))
            ('(dname, nlinks) ← hard_links (S (length line)) line dname e 1;
             mkfile dname nlinks)
      else mkfile (name ++ [NUL]) 1
  | _ => Ok (-1, c)
  end.

Definition file_handler_table (env_fuel : nat)
    : list (list ascii * (host -> list ascii -> cpio -> res (Z * cpio))) :=
  [(chars "file", cpio_mkfile_line env_fuel);
   (chars "nod", cpio_mknod_line);
   (chars "dir", cpio_mkdir_line);
   (chars "slink", cpio_mkslink_line);
   (chars "pipe", cpio_mkpipe_line);
   (chars "sock", cpio_mksock_line)].

(** ** One line *)

(** How the loop body of [worker_thread_routine] leaves: [continue], [break], or
    the end of the body (the line freed, the output offered to standard output)
    with the error code it recorded, if any. *)
Inductive line_act : Type := Skip | Stop | Done (ec : option Z).

(** The search of the table; [None] is the entry with a null [type]. *)
Fixpoint lookup_handler {H} (table : list (list ascii * H)) (line : list ascii) : option H :=
  match table with
  | [] => None
  | (type, handler) :: table' =>
      if bool_decide (line = type) then Some handler else lookup_handler table' line
  end.

(** [handle_line] is the body from the comment test on: [line] is the string
    [strdup]ed by [main]. *)
Definition handle_line (env_fuel : nat) (h : host) (line : list ascii) (c : cpio)
    : res (line_act * cpio) :=
  let slen := Z.of_nat (length line) in
  match line with
  | ch :: _ => if bool_decide (ch = "#"%char) then Ok (Skip, c) else
      match strtok_r line [space; ascii_of_nat 9] with
      | None => Ok (Stop, c)
      | Some (skipped, type, save) =>
          if bool_decide (head type = Some (ascii_of_nat 10)) then Ok (Skip, c)
          else if slen =? Z.of_nat (length type) then Ok (Skip, c)
          else
            let args := strtok_r save [ascii_of_nat 10] in
            let ec0 := match args with None => Some (-1) | Some _ => None end in
            match lookup_handler (file_handler_table env_fuel) (skipped ++ type) with
            | None => Ok (Done ec0, c)
            | Some handler =>
                match args with
                | None => Undef
                | Some (_, args, _) =>
                    '(rc, c) ← handler h args c;
                    Ok (Done (if rc =? 0 then ec0 else Some rc), c)
                end
            end
      end
  | [] => Ok (Stop, c)
  end.

(** ** [cpio_replace_env] is a left to right substitution *)

(** The reference: one pass, each [${VAR}] replaced by its value, the rest of the
    text taken as it is. *)
Fixpoint expand_n (n : nat) (h : host) (s : list ascii) : option (list ascii) :=
  match n, find_dollar s with
  | S n, Some (pre, post) =>
      match split_while (fun c => negb (bool_decide (c = "}"%char))) post with
      | (var, _ :: after) =>
          value ← getenv h var; r ← expand_n n h after; Some (pre ++ value ++ r)
      | (_, []) => Some s
      end
  | _, _ => Some s
  end.

Definition expand (h : host) (s : list ascii) : option (list ascii) := expand_n (length s) h s.

(** Values that cannot form a new reference, of at most [m] characters. *)
Definition plain (m : Z) (v : list ascii) : Prop :=
  v <> [] /\ "$"%char ∉ v /\ "{"%char ∉ v /\ Z.of_nat (length v) <= m.

Definition plain_host (m : Z) (h : host) : Prop :=
  forall var v, getenv h var = Some v -> plain m v.

Definition ndollar (s : list ascii) : nat := count_occ ascii_dec s "$"%char.

Lemma find_dollar_cons c1 c2 s :
  find_dollar (c1 :: c2 :: s) =
    if bool_decide (c1 = "$"%char) && bool_decide (c2 = "{"%char) then Some ([], s)
    else '(pre, post) ← find_dollar (c2 :: s); Some (c1 :: pre, post).
Proof. done. Qed.

Lemma find_dollar_Some s pre post :
  find_dollar s = Some (pre, post) ->
  s = pre ++ "$"%char :: "{"%char :: post /\ find_dollar pre = None.
Proof.
  revert pre post. induction s as [|c1 s IH]; intros pre post; [done|].
  destruct s as [|c2 s']; [done|]. rewrite find_dollar_cons.
  destruct (_ && _) eqn:E.
  - intros [= <- <-]. apply andb_true_iff in E as [E1 E2].
    apply bool_decide_eq_true in E1, E2. by subst.
  - destruct (find_dollar (c2 :: s')) as [[p q]|] eqn:F; cbn; [|done].
    intros [= <- <-]. destruct (IH p q eq_refl) as [Es Hp]. split; [by rewrite Es|].
    destruct p as [|c p]; [done|]. injection Es as -> _. by rewrite find_dollar_cons, Hp, E.
Qed.

Lemma find_dollar_app d s :
  find_dollar d = None -> last d <> Some "$"%char ->
  find_dollar (d ++ s) = '(p, q) ← find_dollar s; Some (d ++ p, q).
Proof.
  induction d as [|c d IH]; intros Hd Hl.
  - cbn. by destruct (find_dollar s) as [[p q]|].
  - destruct d as [|c2 d].
    + cbn. cbn in Hl. destruct s as [|c3 s]; [done|].
      rewrite bool_decide_false by congruence. cbn [andb]. by destruct (find_dollar (c3 :: s)) as [[p q]|].
    + change ((c :: c2 :: d) ++ s) with (c :: c2 :: (d ++ s)).
      rewrite find_dollar_cons in Hd |- *. destruct (_ && _); [done|].
      destruct (find_dollar (c2 :: d)) as [[p q]|] eqn:F; [done|].
      change (c2 :: d ++ s) with ((c2 :: d) ++ s). rewrite IH by (done || by destruct d).
      by destruct (find_dollar s) as [[p q]|].
Qed.

Lemma find_dollar_none v : "$"%char ∉ v -> find_dollar v = None.
Proof.
  intros H. destruct (find_dollar v) as [[p q]|] eqn:E; [|done].
  apply find_dollar_Some in E as [-> _]. exfalso. apply H. set_solver.
Qed.

Lemma find_dollar_plain m pre v :
  find_dollar pre = None -> plain m v ->
  find_dollar (pre ++ v) = None /\ last (pre ++ v) <> Some "$"%char.
Proof.
  intros Hp (Hne & Hd & Hb & _). split.
  - induction pre as [|c pre IH]; [by apply find_dollar_none|].
    destruct pre as [|c2 pre].
    + destruct v as [|c2 v]; [done|]. cbn [app find_dollar].
      rewrite (bool_decide_false (c2 = "{"%char)) by set_solver. rewrite andb_false_r.
      pose proof (find_dollar_none _ Hd) as E. cbn [find_dollar] in E. by rewrite E.
    + cbn [app]. rewrite find_dollar_cons in Hp |- *. destruct (_ && _); [done|].
      destruct (find_dollar (c2 :: pre)) as [[p q]|] eqn:F; [done|].
      change (c2 :: pre ++ v) with ((c2 :: pre) ++ v). by rewrite IH.
  - rewrite last_app. destruct (last v) as [c|] eqn:E.
    + intros [= ->]. by apply last_Some_elem_of in E.
    + by apply last_None in E.
Qed.

Lemma strncat_Ok buf s n :
  Z.of_nat (length s) <= n -> Z.of_nat (length buf) + Z.of_nat (length s) <= PATH_MAX ->
  strncat buf s n = Ok (buf ++ s).
Proof.
  intros Hn H. unfold strncat. rewrite take_ge by lia.
  apply ub_unless_true, Z.leb_le. rewrite length_app. lia.
Qed.

Lemma ndollar_app a b : ndollar (a ++ b) = (ndollar a + ndollar b)%nat.
Proof. apply count_occ_app. Qed.

Lemma replace_env_expand_n m n fuel h full d s r :
  plain_host m h -> 0 <= m -> (length s <= n)%nat -> (ndollar s <= fuel)%nat ->
  find_dollar d = None -> last d <> Some "$"%char ->
  Z.of_nat (length d + length s) + Z.of_nat (ndollar s) * m < PATH_MAX ->
  expand_n n h s = Some r -> cpio_replace_env fuel h full (d ++ s) = Ok (d ++ r).
Proof.
  intros Hh Hm. revert fuel d s r. induction n as [|n IH]; intros fuel d s r Hn Hf Hd Hl Hlen He.
  { destruct s; [|cbn in Hn; lia]. injection He as <-. rewrite app_nil_r.
    destruct fuel; cbn [cpio_replace_env]; by rewrite Hd. }
  cbn [expand_n] in He.
  pose proof (find_dollar_app d s Hd Hl) as Ef.
  destruct (find_dollar s) as [[pre post]|] eqn:Es; cbn in Ef.
  2: { injection He as <-. destruct fuel; cbn [cpio_replace_env]; by rewrite Ef. }
  apply find_dollar_Some in Es as [-> Hpre].
  destruct (split_while _ post) as [var [|cl after]] eqn:Ep.
  { injection He as <-. destruct fuel; cbn [cpio_replace_env]; by rewrite Ef, Ep. }
  apply split_while_eq in Ep as Hpost. destruct Hpost as [-> _].
  destruct (getenv h var) as [value|] eqn:Eg; [|done]. cbn in He.
  destruct (expand_n n h after) as [r'|] eqn:Er; [|done]. injection He as <-.
  pose proof (Hh _ _ Eg) as Hv. pose proof Hv as (_ & _ & _ & Hvl).
  rewrite ndollar_app in Hf, Hlen. change (?a :: ?b :: ?c) with ([a; b] ++ c) in Hf, Hlen.
  rewrite ndollar_app in Hf, Hlen. change (ndollar ["$"%char; "{"%char]) with 1%nat in *.
  rewrite !ndollar_app in Hf, Hlen. change (cl :: after) with ([cl] ++ after) in Hf, Hlen.
  rewrite !ndollar_app in Hf, Hlen. rewrite !length_app in Hlen. cbn [length] in Hlen.
  rewrite !length_app in Hn. cbn [length] in Hn. rewrite length_app in Hn. cbn [length] in Hn.
  assert (Hmm : 0 <= Z.of_nat (ndollar pre + (ndollar var + ndollar [cl])) * m) by nia.
  assert (Hma : 0 <= Z.of_nat (ndollar after) * m) by nia.
  assert (Hr : Z.of_nat (length d + length pre + length value + length after)
               + Z.of_nat (ndollar after) * m < PATH_MAX) by nia.
  assert (Hb : Z.of_nat (length d + length pre + length var) <= PATH_MAX) by nia.
  destruct fuel as [|fuel]; [lia|]. cbn [cpio_replace_env]. rewrite Ef, Ep.
  rewrite (strncat_Ok [] var), bind_Ok by (cbn [length]; rewrite ?length_app; lia).
  rewrite strncat_Ok, bind_Ok by (cbn [length]; rewrite ?length_app; lia).
  cbn [app]. rewrite Eg. unfold PATH_MAX in *.
  rewrite strncat_Ok, bind_Ok by (unfold PATH_MAX; rewrite ?length_app; lia).
  rewrite strncat_Ok, bind_Ok by (unfold PATH_MAX; rewrite ?length_app; lia).
  rewrite ub_unless_true.
  2: { apply orb_true_iff. right. apply Z.ltb_lt. rewrite !length_app. lia. }
  assert (Hdp : find_dollar (d ++ pre) = None) by by rewrite find_dollar_app, Hpre.
  destruct (find_dollar_plain m _ _ Hdp Hv) as [Hd' Hl'].
  rewrite (IH fuel ((d ++ pre) ++ value) after r'); [by rewrite <- !(assoc_L (++))| | |done..| |done].
  - lia.
  - lia.
  - rewrite !length_app. lia.
Qed.

(** ** Well formed lines

    [request] is the abstract syntax the usage message documents, [print_line] its
    text, and [request_entries] what an archive should hold for it. *)
Inductive request : Type :=
| RGeneric (gt : generic_types) (name : list ascii) (mode uid gid : Z)
| RNod (name : list ascii) (mode uid gid : Z) (dev_type : ascii) (maj min : Z)
| RSlink (name target : list ascii) (mode uid gid : Z)
| RFile (name location : list ascii) (mode uid gid : Z) (links : list (list ascii)).

Definition keyword (r : request) : list ascii :=
  match r with
  | RGeneric gt _ _ _ _ => (generic_type_table gt).1
  | RNod _ _ _ _ _ _ _ => chars "nod"
  | RSlink _ _ _ _ _ => chars "slink"
  | RFile _ _ _ _ _ _ => chars "file"
  end.

(** The words of a line joined by single blanks, each preceded by one. *)
Definition sp (ws : list (list ascii)) : list ascii := flat_map (fun w => space :: w) ws.

Definition octal (n : Z) : list ascii := print_radix 8 1 n.
Definition decimal (n : Z) : list ascii := print_radix 10 1 n.

Definition operands (r : request) : list ascii * list (list ascii) :=
  match r with
  | RGeneric _ name mode uid gid => (name, [octal mode; decimal uid; decimal gid])
  | RNod name mode uid gid ty maj min =>
      (name, [octal mode; decimal uid; decimal gid; [ty]; decimal maj; decimal min])
  | RSlink name target mode uid gid => (name, [target; octal mode; decimal uid; decimal gid])
  | RFile name loc mode uid gid links =>
      (name, [loc; octal mode; decimal uid; decimal gid] ++ links)
  end.

Definition print_args (r : request) : list ascii := (operands r).1 ++ sp (operands r).2.

Definition print_line (r : request) : list ascii :=
  keyword r ++ sp [print_args r] ++ [newline].

(** A name that [%4096s] reads back. *)
Definition name_ok (w : list ascii) : Prop := word w /\ no_nul w /\ (length w <= path_max)%nat.

Definition id_ok (n : Z) : Prop := 0 <= n <= INT_MAX.

(** A link name is recognised by its first character, which must be graphic. *)
Definition link_ok (w : list ascii) : Prop :=
  name_ok w /\ match w with c :: _ => isgraph c = true | [] => False end.

Definition request_wf (env_fuel : nat) (h : host) (r : request) : Prop :=
  name_ok (operands r).1 /\
  match r with
  | RGeneric _ _ mode uid gid => field_ok mode /\ id_ok uid /\ id_ok gid
  | RNod _ mode uid gid ty maj min =>
      field_ok mode /\ id_ok uid /\ id_ok gid /\ field_ok maj /\ field_ok min /\
      isspace ty = false
  | RSlink _ target mode uid gid => name_ok target /\ field_ok mode /\ id_ok uid /\ id_ok gid
  | RFile _ loc mode uid gid links =>
      name_ok loc /\ field_ok mode /\ id_ok uid /\ id_ok gid /\ Forall link_ok links /\
      dname_ok h = true /\
      exists loc' node data,
        cpio_replace_env env_fuel h (Z.of_nat (length loc) =? PATH_MAX) loc = Ok loc' /\
        fs h loc' = Some node /\ node_ok node data
  end.

(** The contents of a file a request names. *)
Definition file_node (env_fuel : nat) (h : host) (loc : list ascii) : option (fsnode * list ascii) :=
  match cpio_replace_env env_fuel h (Z.of_nat (length loc) =? PATH_MAX) loc with
  | Ok loc' => node ← fs h loc'; data ← fs_read node; Some (node, data)
  | _ => None
  end.

Definition request_entries (env_fuel : nat) (h : host) (ino : Z) (r : request) : list newc :=
  match r with
  | RGeneric gt name mode uid gid =>
      [generic_entry (default_mtime h) ino name (Z.lor mode (generic_type_table gt).2) uid gid]
  | RNod name mode uid gid ty maj min =>
      [nod_entry (default_mtime h) ino name mode uid gid ty maj min]
  | RSlink name target mode uid gid => [slink_entry (default_mtime h) ino name target mode uid gid]
  | RFile name loc mode uid gid links =>
      match file_node env_fuel h loc with
      | Some (node, data) =>
          file_entries (fs_mtime node) ino mode uid gid (1 + Z.of_nat (length links)) data
            (name :: links)
      | None => []
      end
  end.

(** *** Reading the text back *)

Lemma sep_sp ws : sep (sp ws).
Proof. destruct ws as [|w ws]; [by left|]. right. by exists (w ++ sp ws). Qed.

Lemma sscanf_blank ds total w ws n acc :
  word w -> sscanf_loop (DSpace :: ds) total (sp (w :: ws)) n acc =
            sscanf_loop ds total (w ++ sp ws) n acc.
Proof. intros H. by apply sscanf_space. Qed.

Lemma octal_word n : word (octal n).
Proof. apply print_radix_word. lia. Qed.

Lemma decimal_word n : word (decimal n).
Proof. apply print_radix_word. lia. Qed.

Lemma char_word c : isspace c = false -> word [c].
Proof. intros H. split; [done|by constructor]. Qed.

Create HintDb scan discriminated.
#[export] Hint Resolve octal_word decimal_word char_word sep_sp : scan.

(** Consume the operands of a line one after the other. *)
Ltac scan_step :=
  first
  [ rewrite sscanf_str by (auto with scan)
  | rewrite sscanf_blank by (auto with scan)
  | rewrite sscanf_oct by (auto with scan)
  | rewrite sscanf_dec by (auto with scan)
  | rewrite sscanf_uns by (auto with scan)
  | rewrite sscanf_char ].

Lemma mkgeneric_line_scan gt h name mode uid gid c :
  name_ok name -> field_ok mode -> id_ok uid -> id_ok gid ->
  cpio_mkgeneric_line gt h (print_args (RGeneric gt name mode uid gid)) c =
  cpio_mkgeneric (default_mtime h) name (Z.lor mode (generic_type_table gt).2) uid gid c.
Proof.
  intros (Hw & _ & Hl) Hm Hu Hg. unfold cpio_mkgeneric_line, sscanf, print_args, octal, decimal.
  cbn [operands fst snd]. repeat scan_step. done.
Qed.

Lemma mknod_line_scan h name mode uid gid ty maj min c :
  name_ok name -> field_ok mode -> id_ok uid -> id_ok gid -> field_ok maj -> field_ok min ->
  isspace ty = false ->
  cpio_mknod_line h (print_args (RNod name mode uid gid ty maj min)) c =
  cpio_mknod (default_mtime h) name mode uid gid ty maj min c.
Proof.
  intros (Hw & _ & Hl) Hm Hu Hg Hma Hmi Ht. unfold cpio_mknod_line, sscanf, print_args, octal, decimal.
  cbn [operands fst snd]. repeat scan_step. done.
Qed.

Lemma mkslink_line_scan h name target mode uid gid c :
  name_ok name -> name_ok target -> field_ok mode -> id_ok uid -> id_ok gid ->
  cpio_mkslink_line h (print_args (RSlink name target mode uid gid)) c =
  cpio_mkslink (default_mtime h) name target mode uid gid c.
Proof.
  intros (Hw & _ & Hl) (Hw' & _ & Hl') Hm Hu Hg.
  unfold cpio_mkslink_line, sscanf, print_args, octal, decimal.
  cbn [operands fst snd]. repeat scan_step. done.
Qed.

(** *** Hard links *)

(** [links] without the blank before the first. *)
Definition join (ws : list (list ascii)) : list ascii := tail (sp ws).

Lemma sp_join w ws : sp (w :: ws) = space :: join (w :: ws).
Proof. done. Qed.

Lemma join_cons w ws : join (w :: ws) = w ++ sp ws.
Proof. done. Qed.

Lemma names_mem_length ws : length (names_mem ws) = length (sp ws).
Proof.
  induction ws as [|w ws IH]; [done|]. unfold names_mem, sp in *. cbn [flat_map].
  rewrite !length_app, IH. cbn. lia.
Qed.

Lemma char_at_nul line : char_at line (Z.of_nat (length line)) = Ok NUL.
Proof. apply rd_nat. rewrite lookup_app_r by lia. by rewrite Nat.sub_diag. Qed.

Lemma char_at_app a c b : char_at (a ++ c :: b) (Z.of_nat (length a)) = Ok c.
Proof.
  apply rd_nat. rewrite <- (assoc_L (++)), lookup_app_r by lia. by rewrite Nat.sub_diag.
Qed.

Lemma link_graph w ws : link_ok w -> exists c l, join (w :: ws) = c :: l /\ isgraph c = true.
Proof. intros [_ H]. rewrite join_cons. destruct w as [|c w]; [done|]. by exists c, (w ++ sp ws). Qed.

(** One name is read, with the blanks after it. *)
Lemma link_scan w ws :
  link_ok w -> Forall link_ok ws ->
  sscanf (join (w :: ws)) [DStr path_max; DSpace; DPos] =
  Ok (1, [VStr w; VInt (Z.of_nat (length w) + (match ws with [] => 0 | _ => 1 end))]).
Proof.
  intros [(Hw & _ & Hl) _] Hws. unfold sscanf. rewrite join_cons.
  rewrite sscanf_str by (auto with scan).
  destruct Hws as [|w2 ws [[Hw2 _] _] Hws].
  - cbn. rewrite length_app. cbn. do 5 f_equal. lia.
  - rewrite sscanf_blank by done. cbn [sscanf_loop rev app]. do 5 f_equal.
    rewrite sp_join, join_cons, !length_app. cbn [length]. rewrite length_app. lia.
Qed.

Lemma hard_links_read fuel pre w ws dname nlinks :
  Forall link_ok (w :: ws) -> (length (w :: ws) <= fuel)%nat ->
  let line := pre ++ join (w :: ws) in
  (length dname + length (names_mem (w :: ws)) <= length line)%nat ->
  hard_links fuel line dname (Z.of_nat (length pre)) nlinks =
  Ok (dname ++ names_mem (w :: ws), nlinks + Z.of_nat (length (w :: ws))).
Proof.
  cbn zeta. revert pre w dname nlinks fuel.
  induction ws as [|w2 ws IH]; intros pre w dname nlinks fuel Hws Hf Hlen;
    (destruct fuel as [|fuel]; [cbn in Hf; lia|]); apply Forall_cons in Hws as [Hw Hws];
    cbn [hard_links]; rewrite Nat2Z.id, drop_app_length, link_scan, bind_Ok by done; cbv iota.
  - cbn [names_mem flat_map] in *. rewrite app_nil_r in *.
    rewrite ub_unless_true by (apply Z.leb_le; rewrite length_app; lia).
    replace (Z.of_nat (length pre) + (Z.of_nat (length w) + 0))
      with (Z.of_nat (length (pre ++ join [w]))).
    2: { rewrite join_cons, app_nil_r, length_app. lia. }
    rewrite char_at_nul, bind_Ok. cbn. do 2 f_equal. 
  - rewrite ub_unless_true.
    2: { apply Z.leb_le. revert Hlen. unfold names_mem. cbn [flat_map]. rewrite !length_app. lia. }
    assert (El : pre ++ join (w :: w2 :: ws) = (pre ++ w ++ [space]) ++ join (w2 :: ws)).
    { rewrite join_cons, sp_join, <- !(assoc_L (++)). done. }
    replace (Z.of_nat (length pre) + (Z.of_nat (length w) + 1))
      with (Z.of_nat (length (pre ++ w ++ [space]))) by (rewrite !length_app; cbn; lia).
    apply Forall_cons in Hws as Hws'. destruct Hws' as [Hw2 _].
    destruct (link_graph w2 ws Hw2) as (c & l & Ec & Hc).
    rewrite El. rewrite Ec at 1. rewrite char_at_app, bind_Ok, Hc.
    rewrite IH; [|done|cbn in Hf |- *; lia|].
    + unfold names_mem. cbn [flat_map]. rewrite <- !(assoc_L (++)). f_equal. f_equal.
      cbn [length]. lia.
    + rewrite <- El. revert Hlen. unfold names_mem. cbn [flat_map]. rewrite !length_app. lia.
Qed.

Lemma sp_app a b : sp (a ++ b) = sp a ++ sp b.
Proof. apply flat_map_app. Qed.

(** The fixed operands of a file line, and where the link names start. *)
Lemma mkfile_head_scan name loc mode uid gid links :
  name_ok name -> name_ok loc -> field_ok mode -> id_ok uid -> id_ok gid -> Forall link_ok links ->
  let head := name ++ sp [loc; octal mode; decimal uid; decimal gid] in
  sscanf (print_args (RFile name loc mode uid gid links))
    [DStr path_max; DSpace; DStr path_max; DSpace; DOct; DSpace; DDec; DSpace; DDec; DSpace; DPos]
  = Ok (5, [VStr name; VStr loc; VInt mode; VInt uid; VInt gid;
            VInt (Z.of_nat (length head) + match links with [] => 0 | _ => 1 end)]).
Proof.
  intros (Hw & _ & Hl) (Hw' & _ & Hl') Hm Hu Hg Hlinks. cbn zeta.
  unfold sscanf. change (print_args _) with
    (name ++ sp ([loc; octal mode; decimal uid; decimal gid] ++ links)) at 2.
  set (total := length _). cbn [app]. unfold octal, decimal. do 9 scan_step.
  fold (octal mode) (decimal uid) (decimal gid). subst total.
  unfold print_args. cbn [operands fst snd]. rewrite sp_app, !length_app.
  destruct Hlinks as [|w ws [[Hw2 _] _] _].
  - cbn [sp flat_map sscanf_loop skip_space split_while snd rev app length].
    do 9 f_equal. cbn. rewrite !length_app. lia.
  - rewrite sscanf_blank by done. cbn [sscanf_loop rev app]. do 9 f_equal.
    rewrite !sp_join, !join_cons. cbn [length]. rewrite !length_app, sp_join, join_cons.
    cbn [length]. rewrite length_app. lia.
Qed.

Lemma sp_length ws : (length ws <= length (sp ws))%nat.
Proof. induction ws as [|w ws IH]; [done|]. cbn. rewrite length_app. unfold sp in *. lia. Qed.

Lemma names_mem_cons w ws : names_mem (w :: ws) = (w ++ [NUL]) ++ names_mem ws.
Proof. done. Qed.

Lemma mkfile_line_scan env_fuel h name loc loc' mode uid gid links c :
  name_ok name -> name_ok loc -> field_ok mode -> id_ok uid -> id_ok gid -> Forall link_ok links ->
  dname_ok h = true ->
  cpio_replace_env env_fuel h (Z.of_nat (length loc) =? PATH_MAX) loc = Ok loc' ->
  cpio_mkfile_line env_fuel h (print_args (RFile name loc mode uid gid links)) c =
  cpio_mkfile (fs h) (names_mem (name :: links)) loc' mode uid gid
    (Z.of_nat (length (name :: links))) c.
Proof.
  intros Hn Hl Hm Hu Hg Hlinks Hd Henv. unfold cpio_mkfile_line.
  rewrite mkfile_head_scan, bind_Ok by done. cbv iota beta.
  set (head := name ++ sp [loc; octal mode; decimal uid; decimal gid]).
  assert (Hh : (length (name ++ [NUL]) <= length head)%nat).
  { subst head. rewrite !length_app. cbn. rewrite !length_app. cbn. lia. }
  assert (El : print_args (RFile name loc mode uid gid links) = head ++ sp links).
  { unfold print_args. cbn [operands fst snd]. by rewrite sp_app, (assoc_L (++)). }
  rewrite El. destruct links as [|w ws].
  - rewrite Z.add_0_r. cbn [sp flat_map]. rewrite app_nil_r, char_at_nul, bind_Ok.
    rewrite andb_false_r, Henv, bind_Ok. by rewrite names_mem_cons, app_nil_r.
  - apply Forall_cons in Hlinks as H. destruct H as [Hw _].
    destruct (link_graph w ws Hw) as (ch & l & Ec & Hc).
    assert (Ep : head ++ sp (w :: ws) = (head ++ [space]) ++ join (w :: ws)).
    { by rewrite sp_join, <- (assoc_L (++)). }
    replace (Z.of_nat (length head) + 1) with (Z.of_nat (length (head ++ [space])))
      by (rewrite length_app; cbn; lia).
    rewrite Ep. rewrite Ec at 1. rewrite char_at_app, bind_Ok, Hc, Hd.
    rewrite (proj2 (Z.eqb_neq _ _)) by (rewrite length_app; cbn; lia). cbn [negb andb].
    assert (Hlen : (length (name ++ [NUL]) + length (names_mem (w :: ws))
                    <= length ((head ++ [space]) ++ join (w :: ws)))%nat).
    { rewrite <- Ep, names_mem_length, (length_app head). lia. }
    rewrite ub_unless_true by (apply Z.leb_le; lia).
    rewrite hard_links_read; [|done| |done].
    + rewrite bind_Ok, Henv, bind_Ok. rewrite <- names_mem_cons. f_equal. cbn [length]. lia.
    + rewrite join_cons, !length_app. pose proof (sp_length ws). cbn [length]. lia.
Qed.

(** ** A well formed line produces its entries *)

Lemma word_no_nl w : word w -> no_nl w.
Proof. intros [_ H]. eapply Forall_impl; [exact H|]. intros c Hc ->. done. Qed.

Lemma sp_no_nl ws : Forall word ws -> no_nl (sp ws).
Proof.
  unfold no_nl. induction 1 as [|w ws Hw _ IH]; [constructor|]. cbn. constructor; [done|].
  apply Forall_app. split; [by apply word_no_nl|done].
Qed.

Lemma strtok_args args :
  args <> [] -> no_nl args -> strtok_r (args ++ [newline]) [newline] = Some ([], args, []).
Proof.
  intros Hne Hn. unfold strtok_r.
  assert (Hd : Forall (fun c => negb (one_of [newline] c) = true) args).
  { eapply Forall_impl; [exact Hn|]. intros c Hc. unfold one_of.
    apply negb_true_iff, bool_decide_eq_false. by intros ?%list_elem_of_singleton. }
  assert (E1 : split_while (one_of [newline]) (args ++ [newline]) = ([], args ++ [newline])).
  { destruct args as [|c args]; [done|]. inversion Hd as [|? ? Hc _]; subst.
    cbn. apply negb_true_iff in Hc. by rewrite Hc. }
  rewrite E1, split_while_stop by done. by destruct args.
Qed.

Lemma strtok_keyword kw rest :
  kw <> [] -> Forall (fun c => negb (one_of [space; ascii_of_nat 9] c) = true) kw ->
  strtok_r (kw ++ space :: rest) [space; ascii_of_nat 9] = Some ([], kw, rest).
Proof.
  intros Hne Hd. unfold strtok_r.
  assert (E1 : split_while (one_of [space; ascii_of_nat 9]) (kw ++ space :: rest)
               = ([], kw ++ space :: rest)).
  { destruct kw as [|c kw]; [done|]. inversion Hd as [|? ? Hc _]; subst.
    cbn [split_while app]. apply negb_true_iff in Hc. by rewrite Hc. }
  rewrite E1, split_while_stop by done. by destruct kw.
Qed.

(** A line with a known keyword and operands goes to that keyword's handler. *)
Lemma handle_line_dispatch ef h kw args handler c :
  lookup_handler (file_handler_table ef) kw = Some handler ->
  args <> [] -> no_nl args ->
  handle_line ef h (kw ++ space :: args ++ [newline]) c =
  ('(rc, c) ← handler h args c; Ok (Done (if rc =? 0 then None else Some rc), c)).
Proof.
  intros Hh Hne Hn.
  assert (Hk : exists k l, kw = k :: l /\ k <> "#"%char /\ k <> newline /\
    Forall (fun c => negb (one_of [space; ascii_of_nat 9] c) = true) kw).
  { cbn in Hh. repeat (case_bool_decide; [subst; do 2 eexists; split; [reflexivity|];
      repeat split; [done|done|apply (bool_decide_unpack _); by vm_compute]|]). done. }
  destruct Hk as (k & l & Ek & H1 & H2 & Hd).
  unfold handle_line. rewrite strtok_keyword by (by subst). rewrite Ek at 1. cbn [app].
  rewrite bool_decide_false by done. rewrite (bool_decide_false (head kw = _)) by (by subst; intros [= ->]).
  rewrite (proj2 (Z.eqb_neq _ _)) by (rewrite Ek, length_app; cbn; lia).
  rewrite strtok_args by done. cbn [app]. by rewrite Hh.
Qed.

Lemma operands_words ef h r :
  request_wf ef h r -> word (operands r).1 /\ Forall word (operands r).2.
Proof.
  intros [[Hw _] H]. split; [done|].
  destruct r as [gt name mode uid gid|name mode uid gid ty maj min|name target mode uid gid
                |name loc mode uid gid links]; cbn [operands snd app].
  - by repeat (apply Forall_cons_2; [auto with scan|]).
  - destruct H as (_ & _ & _ & _ & _ & H). by repeat (apply Forall_cons_2; [auto with scan|]).
  - destruct H as ((H & _) & _). by repeat (apply Forall_cons_2; [auto with scan|]).
  - destruct H as ((H & _) & _ & _ & _ & Hl & _). repeat (apply Forall_cons_2; [auto with scan|]).
    eapply Forall_impl; [exact Hl|]. by intros w [[? _] _].
Qed.

(** C2. Text to archive: the worker's handling of a well formed line of any of
    the six kinds succeeds, takes one inode number and appends exactly the
    encoding of the entries the line stands for. *)
Theorem handle_line_print ef h r ino st :
  let es := request_entries ef h ino r in
  request_wf ef h r -> field_ok (default_mtime h) -> offset st mod 4 = 0 ->
  st_ok st (entry_room es) ->
  handle_line ef h (print_line r) (Cpio ino st) =
  Ok (Done None, Cpio (uwrap 32 (ino + 1)) (emit (flat_map encode es) st)).
Proof.
  cbn zeta. intros Hwf Hm Ha Hst. unfold print_line.
  destruct (operands_words _ _ _ Hwf) as [Hw Hws].
  assert (Hne : print_args r <> []).
  { unfold print_args. destruct Hw as [Hw _]. by destruct (operands r).1. }
  assert (Hnl : no_nl (print_args r)).
  { apply Forall_app. split; [by apply word_no_nl|by apply sp_no_nl]. }
  cbn [sp flat_map]. rewrite app_nil_r. cbn [app].
  destruct Hwf as [Hname Hwf].
  destruct r as [gt name mode uid gid|name mode uid gid ty maj min|name target mode uid gid
                |name loc mode uid gid links]; cbn [operands fst] in Hname.
  - destruct Hwf as (? & ? & ?).
    rewrite (handle_line_dispatch _ _ _ _ (cpio_mkgeneric_line gt)) by (done || by destruct gt).
    rewrite mkgeneric_line_scan by done. cbn [request_entries flat_map] in *.
    rewrite cpio_mkgeneric_emit by done. by rewrite app_nil_r.
  - destruct Hwf as (? & ? & ? & ? & ? & ?).
    rewrite (handle_line_dispatch _ _ _ _ cpio_mknod_line) by done.
    rewrite mknod_line_scan by done. cbn [request_entries flat_map] in *.
    rewrite cpio_mknod_emit by done. by rewrite app_nil_r.
  - destruct Hwf as (? & ? & ? & ?).
    rewrite (handle_line_dispatch _ _ _ _ cpio_mkslink_line) by done.
    rewrite mkslink_line_scan by done. cbn [request_entries flat_map] in *.
    rewrite cpio_mkslink_emit by done. by rewrite app_nil_r.
  - destruct Hwf as (? & ? & ? & ? & Hl & ? & loc' & node & data & He & Hf & Hn).
    rewrite (handle_line_dispatch _ _ _ _ (cpio_mkfile_line ef)) by done.
    rewrite (mkfile_line_scan ef h name loc loc') by done.
    cbn [request_entries] in *. unfold file_node in *. rewrite He, Hf in *.
    pose proof Hn as (_ & _ & Hr & _). cbn [mbind option_bind] in *. rewrite Hr in *.
    cbn [mbind option_bind] in *.
    replace (1 + Z.of_nat (length links)) with (Z.of_nat (length (name :: links))) in *
      by (cbn [length]; lia).
    pose proof (cpio_mkfile_emit (fs h) (name :: links) [] loc' mode uid gid node data ino st) as E.
    rewrite app_nil_r in E. rewrite E; [done|done|done| |done|done].
    constructor; [apply Hname|]. eapply Forall_impl; [exact Hl|]. by intros w [(_ & ? & _) _].
Qed.

#[export] Instance word_dec w : Decision (word w).
Proof. unfold word. apply _. Defined.

#[export] Instance name_ok_dec w : Decision (name_ok w).
Proof. unfold name_ok. apply _. Defined.

#[export] Instance link_ok_dec w : Decision (link_ok w).
Proof. unfold link_ok. destruct w; apply _. Defined.

(** A host with one variable and one file. *)
Definition host0 : host :=
  Host 1000 (fun p => if bool_decide (p = chars "/src/kinit") then Some node_hello else None)
    (fun v => if bool_decide (v = chars "S") then Some (chars "/src") else None) true.

Definition request0 : request :=
  RFile (chars "/sbin/kinit") (chars "${S}/kinit") 0x1ED 0 0 [chars "/init"; chars "linuxrc"].

Lemma request0_wf : request_wf 1 host0 request0.
Proof.
  split; [decide_now|]. split; [decide_now|].
  split; [split; cbn; lia|]. split; [split; [lia|done]|]. split; [split; [lia|done]|].
  split; [decide_now|]. split; [done|].
  exists (chars "/src/kinit"), node_hello, (chars "hello").
  split; [by vm_compute|]. split; [done|]. repeat split; cbn; lia.
Qed.

Lemma handle_line_print_witness :
  handle_line 1 host0 (print_line request0) (Cpio 721 st0) =
  Ok (Done None, Cpio 722 (emit (flat_map encode (request_entries 1 host0 721 request0)) st0)).
Proof.
  apply (handle_line_print 1 host0 request0 721 st0).
  - exact request0_wf.
  - split; cbn; lia.
  - reflexivity.
  - apply st0_ok. vm_compute. discriminate.
Defined.

(** C6. [cpio_replace_env] terminates and computes the one-pass substitution,
    within its buffer, provided every variable referred to is set, every value is
    non-empty, free of '$' and '{' and at most [m] characters long, and the text with
    [m] more characters for each of its dollar signs stays below [PATH_MAX]. *)
Theorem replace_env_expand m h full s r :
  plain_host m h -> 0 <= m ->
  Z.of_nat (length s) + Z.of_nat (ndollar s) * m < PATH_MAX ->
  expand h s = Some r -> cpio_replace_env (ndollar s) h full s = Ok r.
Proof.
  intros Hh Hm Hlen He.
  by apply (replace_env_expand_n m (length s) (ndollar s) h full [] s r).
Qed.

Lemma replace_env_expand_witness :
  cpio_replace_env 1 host0 false (chars "${S}/kinit") = Ok (chars "/src/kinit").
Proof.
  apply (replace_env_expand 4 host0 false (chars "${S}/kinit") (chars "/src/kinit")).
  - intros var v H. cbn in H. case_bool_decide; [|discriminate]. injection H as <-.
    split; [discriminate|]. split; [by apply (bool_decide_unpack _)|].
    split; [by apply (bool_decide_unpack _)|]. vm_compute. discriminate.
  - lia.
  - reflexivity.
  - reflexivity.
Defined.








(** ** Lines that are not well formed *)

Lemma lookup_handler_keyword ef kw handler :
  lookup_handler (file_handler_table ef) kw = Some handler ->
  exists k l, kw = k :: l /\ k <> "#"%char /\ k <> newline /\
    Forall (fun c => negb (one_of [space; ascii_of_nat 9] c) = true) kw.
Proof.
  cbn. intros Hh. repeat (case_bool_decide; [subst; do 2 eexists; split; [reflexivity|];
    repeat split; [done|done|apply (bool_decide_unpack _); by vm_compute]|]). done.
Qed.

(** A keyword and a blank with nothing after it ("dir \n") is undefined: the
    missing newline is reported, but the handler is called all the same, with the
    null pointer [args]. *)
Theorem handle_line_no_operands ef h kw handler c :
  lookup_handler (file_handler_table ef) kw = Some handler ->
  handle_line ef h (kw ++ [space; newline]) c = Undef.
Proof.
  intros Hh. destruct (lookup_handler_keyword _ _ _ Hh) as (k & l & Ek & H1 & H2 & Hd).
  unfold handle_line. rewrite strtok_keyword by (by subst). rewrite Ek at 1. cbn [app].
  rewrite bool_decide_false by done.
  rewrite (bool_decide_false (head kw = _)) by (by subst; intros [= ->]).
  rewrite (proj2 (Z.eqb_neq _ _)) by (rewrite Ek, length_app; cbn; lia).
  cbn [app]. by rewrite Hh.
Qed.

Lemma handle_line_no_operands_witness :
  handle_line 1 host0 (chars "dir" ++ [space; newline]) (Cpio 721 st0) = Undef.
Proof. apply (handle_line_no_operands 1 host0 (chars "dir") cpio_mkdir_line). reflexivity. Defined.

(** A blank before the keyword makes the worker compare the whole line instead
    of the keyword: the line is of an unknown type, nothing is written for it and no
    error is recorded. *)
Theorem handle_line_leading_blank ef h r c :
  request_wf ef h r ->
  handle_line ef h (space :: print_line r) c = Ok (Done None, c).
Proof.
  intros Hwf. destruct (operands_words _ _ _ Hwf) as [Hw Hws].
  assert (Hne : print_args r <> []).
  { unfold print_args. destruct Hw as [Hw _]. by destruct (operands r).1. }
  assert (Hnl : no_nl (print_args r)).
  { apply Forall_app. split; [by apply word_no_nl|by apply sp_no_nl]. }
  unfold print_line. cbn [sp flat_map]. rewrite app_nil_r. cbn [app].
  set (kw := keyword r).
  assert (Hk : exists k l, kw = k :: l /\ k <> newline /\
    Forall (fun c => negb (one_of [space; ascii_of_nat 9] c) = true) kw).
  { subst kw. destruct r as [[]| | |]; do 2 eexists; (split; [reflexivity|]); (split; [done|]);
      decide_now. }
  destruct Hk as (k & l & Ek & Hk & Hd).
  pose proof (strtok_keyword kw (print_args r ++ [newline]) ltac:(by rewrite Ek) Hd) as E.
  assert (Es : strtok_r (space :: kw ++ space :: print_args r ++ [newline]) [space; ascii_of_nat 9]
    = Some ([space], kw, print_args r ++ [newline])).
  { unfold strtok_r in *. cbn [split_while]. change (one_of [space; ascii_of_nat 9] space) with true.
    cbv iota. destruct (split_while (one_of _) (kw ++ _)) as [sk rest].
    destruct (split_while _ rest) as [tok rest']. destruct tok; [done|]. by injection E as -> -> ->. }
  unfold handle_line. rewrite Es. rewrite bool_decide_false by done.
  rewrite (bool_decide_false (head kw = _)) by (rewrite Ek; by intros [= ->]).
  rewrite (proj2 (Z.eqb_neq _ _)) by (rewrite Ek; cbn; rewrite length_app; cbn; lia).
  rewrite strtok_args by done. done.
Qed.

Lemma handle_line_leading_blank_witness :
  handle_line 1 host0 (space :: print_line request0) (Cpio 721 st0) = Ok (Done None, Cpio 721 st0).
Proof. apply (handle_line_leading_blank 1 host0 request0). exact request0_wf. Defined.
