(* ===== verification/CpioTable.v ===== *)
(** * The list of files: the first part of main in src/gen_init_cpio.c

    The lines of the input are read into a growing table. The proof that the lines
    of a printed list come back. *)
From stdpp Require Import base list strings sets.
From Stdlib Require Import ZArith Lia Ascii.
From S2P Require Import Prelude Stdio Newc Cpio CpioLine.

Open Scope Z_scope.

(** ** Reading the list: the growing table *)

Definition LINE_SIZE : Z := 2 * PATH_MAX + 50.

Record file_table : Type := FileTable { nr_items : Z; size : Z; table : list (list ascii) }.

(** What [strdup] copies: the characters before the first NUL. *)
Definition strdup (line : list ascii) : list ascii :=
  (split_while (fun c => negb (is_nul c)) line).1.

(** The [while (fgets ...)] loop of [main]. The size is an [int], and the entry is
    written at index [nr_items] of [size] slots. [re_ok k] and [dup_ok k]: the
    [realloc], if line [k] needs one, and the [strdup] of line [k] succeed; [None]
    is the end of the program with status -1 when one fails. *)
Fixpoint read_table (re_ok dup_ok : nat -> bool) (fuel : nat) (input : list ascii) (t : file_table)
    : res (option file_table) :=
  match input with
  | [] => Ok (Some t)
  | _ :: _ =>
      match fuel with
      | O => NoFuel
      | S fuel =>
          let '(line, rest) := fgets (Z.to_nat (LINE_SIZE - 1)) input in
          let k := Z.to_nat (nr_items t) in
          let full := nr_items t =? size t in
          if full && negb (re_ok k) then Ok None
          else
            size' ← (if full then int_of (size t * 2) else Ok (size t));
            if negb (dup_ok k) then Ok None
            else
              ub_unless (nr_items t <? size')
                (read_table re_ok dup_ok fuel rest
                  (FileTable (nr_items t + 1) size' (table t ++ [strdup line])))
      end
  end.

Definition always (k : nat) : bool := true.

Definition file_table0 : file_table := FileTable 0 4096 [].

(** ** Lists of well formed lines *)
Inductive item : Type :=
| IComment (text : list ascii)
| IReq (r : request).

Definition print_item (it : item) : list ascii :=
  match it with
  | IComment text => "#"%char :: text ++ [newline]
  | IReq r => print_line r
  end.

Definition item_requests (it : item) : list request :=
  match it with IComment _ => [] | IReq r => [r] end.

Definition requests (items : list item) : list request := flat_map item_requests items.

(** ** Reading the table back *)

Definition line_ok (it : item) : Prop :=
  (exists l, print_item it = l ++ [newline] /\ no_nl l) /\ no_nul (print_item it) /\
  Z.of_nat (length (print_item it)) < LINE_SIZE.

Lemma strdup_no_nul l : no_nul l -> strdup l = l.
Proof. intros H. unfold strdup. by rewrite split_while_all by by apply no_nul_forall. Qed.

Lemma read_table_S fuel input t :
  input <> [] ->
  read_table always always (S fuel) input t =
    let '(line, rest) := fgets (Z.to_nat (LINE_SIZE - 1)) input in
    size' ← (if nr_items t =? size t then int_of (size t * 2) else Ok (size t));
    ub_unless (nr_items t <? size')
      (read_table always always fuel rest
        (FileTable (nr_items t + 1) size' (table t ++ [strdup line]))).
Proof.
  destruct input; [done|]. intros _. cbn [read_table always negb].
  destruct (fgets _ _) as [line rest]. by rewrite andb_false_r.
Qed.

Lemma read_table_items fuel items t :
  Forall line_ok items -> (length items <= fuel)%nat ->
  0 <= nr_items t <= size t -> size t <= Z.max 4096 (2 * nr_items t) -> 0 < size t ->
  nr_items t + Z.of_nat (length items) <= 2 ^ 30 ->
  exists size',
    read_table always always fuel (flat_map print_item items) t =
    Ok (Some (FileTable (nr_items t + Z.of_nat (length items)) size'
                (table t ++ map print_item items))).
Proof.
  intros H. revert fuel t. induction H as [|it items Hit _ IH]; intros fuel [nr sz tb];
    cbn [nr_items size table]; intros Hf H1 H2 H3 H4.
  { exists sz. cbn [flat_map map length]. rewrite app_nil_r, Z.add_0_r. by destruct fuel. }
  destruct fuel as [|fuel]; [cbn in Hf; lia|]. cbn [length] in *.
  destruct Hit as ((l & El & Hl) & Hnul & Hlen).
  cbn [flat_map]. rewrite El in *. rewrite <- (assoc_L (++)). cbn [app].
  rewrite read_table_S by by destruct l.
  rewrite length_app in Hlen. cbn [length] in Hlen.
  rewrite fgets_line by (done || lia).
  assert (Esz : exists sz', (if nr =? sz then int_of (sz * 2) else Ok sz) = Ok sz' /\
    nr < sz' /\ sz' <= Z.max 4096 (2 * nr)).
  { destruct (Z.eqb_spec nr sz).
    - rewrite int_of_Ok by (unfold INT_MIN, INT_MAX; lia). eexists. split; [reflexivity|]. lia.
    - eexists. split; [reflexivity|]. lia. }
  destruct Esz as (sz' & E & H5 & H6). cbn [nr_items size table]. rewrite E, bind_Ok.
  rewrite ub_unless_true by (apply Z.ltb_lt; lia).
  destruct (IH fuel (FileTable (nr + 1) sz' (tb ++ [strdup (l ++ [newline])]))) as (s' & ->);
    cbn [nr_items size]; try lia.
  exists s'. cbn [nr_items table map]. rewrite El, strdup_no_nul by done.
  rewrite <- (assoc_L (++)). do 3 f_equal. lia.
Qed.

Lemma items_text_length items :
  Forall line_ok items -> (length items <= length (flat_map print_item items))%nat.
Proof.
  induction 1 as [|it items ((l & E & _) & _) _ IH]; [done|]. cbn [flat_map].
  rewrite E, !length_app. cbn [length]. lia.
Qed.

