(* ===== verification/CpioWorker.v ===== *)
(** * The worker threads of src/gen_init_cpio.c

    [write_to_stdout], [try_dump_to_stdout] and the loop of
    [worker_thread_routine] as steps of a thread on the shared state, and the
    invariant that every step of a worker keeps: what is on standard output and in
    the streams is the encoding of the requests dealt with so far, each with an
    inode number of its own. All the workers measure every line of the shared table,
    its owner frees it: a worker that comes to a line after that reads freed memory
    ([reads_freed]), which is the one way a step can be undefined. *)
From stdpp Require Import base list strings sets.
From Stdlib Require Import ZArith Lia Ascii.
From S2P Require Import Prelude Stdio Newc Cpio CpioLine CpioTable.

Open Scope Z_scope.

(** ** Standard output *)

(** The outcome of the calls of one [write_to_stdout]: whether [malloc] succeeds,
    and how many bytes a failing [fwrite] has written. *)
Record io : Type := Io { io_malloc : bool; io_fwrite : option nat }.

Definition io_good : io := Io true None.

Definition write_to_stdout (o : io) (f : FILE) (out : list ascii) : Z * FILE * list ascii :=
  let bytes_to_read := swrap 32 (ftell f) in
  if bytes_to_read <? 0 then (-1, f, out)
  else if bytes_to_read =? 0 then (0, f, out)
  else if negb (io_malloc o) then (-1, f, out)
  else
    match fread bytes_to_read (rewind f) with
    | None => (-1, mkFILE (f_data f) (length (f_data f)), out)
    | Some (buf, f') =>
        match io_fwrite o with
        | None => (bytes_to_read, f', out ++ buf)
        | Some k => (-1, f', out ++ take k buf)
        end
    end.

(** ** Threads *)

(** Where a worker stands: at the head of the loop for line [i], before
    [free(line_p)], before [try_dump_to_stdout], inside its critical section before
    and after [write_to_stdout], returned, or joined by [main], which has consumed
    its stream. *)
Inductive phase : Type := AtLine | AtFree | AtTry | InDump | InUnlock | Finished | Joined.

#[export] Instance phase_eq_dec : EqDecision phase.
Proof. solve_decision. Defined.

Record worker : Type := Worker { th_i : nat; th_phase : phase; th_st : my_state }.

Record world : Type := World {
  w_ino : Z;                        (* i_no *)
  w_lock : option nat;              (* stdout_lock and its holder *)
  w_out : list ascii;               (* stdout *)
  w_threads : list worker;
  w_freed : list nat;               (* the lines of file_table.table that were freed *)
}.

Definition set_thread (w : world) (t : nat) (th : worker) : world :=
  World (w_ino w) (w_lock w) (w_out w) (<[t := th]> (w_threads w)) (w_freed w).

Section Workers.
Context (ef : nat) (h : host) (nr_threads : nat) (lines : list (list ascii)).

(** The loop body of [worker_thread_routine] up to [free(line_p)]. Every worker runs
    [strlen] on every line, before it looks whether the line is its own. The lines
    that are skipped are not freed. The step is atomic: [strlen] running while the
    owner's [strtok_r] writes a [NUL] into the same line is not held against the
    program here, and only the owner uses the length. *)
Definition worker_line (t : nat) (th : worker) (w : world) : res world :=
  match lines !! th_i th with
  | None => Ok (set_thread w t (Worker (th_i th) Finished (th_st th)))
  | Some line =>
      let line_nr := Z.of_nat (th_i th) + 1 in
      _ ← ub_unless (bool_decide (th_i th ∉ w_freed w)) (Ok (length line));     (* strlen(line) *)
      if negb (Z.rem line_nr (Z.of_nat nr_threads) =? Z.of_nat t) then
        Ok (set_thread w t (Worker (S (th_i th)) AtLine (th_st th)))
      else
        '(act, c) ← handle_line ef h line (Cpio (w_ino w) (th_st th));
        let w := World (i_no c) (w_lock w) (w_out w) (w_threads w) (w_freed w) in
        Ok (set_thread w t
             match act with
             | Skip => Worker (S (th_i th)) AtLine (me c)
             | Stop => Worker (th_i th) Finished (me c)
             | Done _ => Worker (th_i th) AtFree (me c)
             end)
  end.

(** One step of thread [t]; [o] is what the system answers if it writes. *)
Definition worker_step (t : nat) (o : io) (w : world) : res world :=
  match w_threads w !! t with
  | None => Ok w
  | Some th =>
      match th_phase th with
      | AtLine => worker_line t th w
      | AtFree =>
          Ok (set_thread (World (w_ino w) (w_lock w) (w_out w) (w_threads w)
                            (th_i th :: w_freed w)) t
                (Worker (th_i th) AtTry (th_st th)))
      | AtTry =>
          match w_lock w with
          | Some _ => Ok (set_thread w t (Worker (S (th_i th)) AtLine (th_st th)))
          | None =>
              Ok (set_thread (World (w_ino w) (Some t) (w_out w) (w_threads w) (w_freed w)) t
                    (Worker (th_i th) InDump (th_st th)))
          end
      | InDump =>
          let '(_, f, out) := write_to_stdout o (fp (th_st th)) (w_out w) in
          Ok (set_thread (World (w_ino w) (w_lock w) out (w_threads w) (w_freed w)) t
                (Worker (th_i th) InUnlock (MyState (offset (th_st th)) f)))
      | InUnlock =>
          Ok (set_thread (World (w_ino w) None (w_out w) (w_threads w) (w_freed w)) t
                (Worker (S (th_i th)) AtLine (MyState 0 (rewind (fp (th_st th))))))
      | Finished | Joined => Ok w
      end
  end.

Definition worker0 : worker := Worker 0 AtLine (MyState 0 (mkFILE [] 0)).

Definition world0 : world := World 721 None [] (replicate nr_threads worker0) [].

(** Thread [t] is about to run [strlen] on a line that has been freed. *)
Definition reads_freed (t : nat) (w : world) : bool :=
  match w_threads w !! t with
  | Some th => bool_decide (th_phase th = AtLine) && Nat.ltb (th_i th) (length lines) &&
      bool_decide (th_i th ∈ w_freed w)
  | None => false
  end.

Lemma reads_freed_undef t o w : reads_freed t w = true -> worker_step t o w = Undef.
Proof.
  unfold reads_freed, worker_step. destruct (w_threads w !! t) as [th|]; [|done].
  rewrite !andb_true_iff, !bool_decide_eq_true, Nat.ltb_lt. intros [[-> Hl] Hf].
  unfold worker_line. destruct (lookup_lt_is_Some_2 lines _ Hl) as [line ->].
  by rewrite bool_decide_false by auto.
Qed.
End Workers.

(** ** Lists of lists *)

Lemma concat_replicate_nil {A} k : concat (replicate k (@nil A)) = [].
Proof. by induction k. Qed.

Lemma concat_insert {A} (ls : list (list A)) (t : nat) l l' :
  ls !! t = Some l -> concat (<[t := l']> ls) ++ l ≡ₚ concat ls ++ l'.
Proof.
  revert t. induction ls as [|l0 ls IH]; intros [|t] Hl; cbn in *; try done.
  - injection Hl as ->. solve_Permutation.
  - rewrite <- !(assoc_L (++)). by rewrite (IH t Hl).
Qed.

Lemma concat_insert_app {A} (ls : list (list A)) (t : nat) l x :
  ls !! t = Some l -> concat (<[t := l ++ x]> ls) ≡ₚ concat ls ++ x.
Proof.
  intros Hl. apply (Permutation_app_inv_r l). rewrite (concat_insert ls t l) by done.
  rewrite <- !(assoc_L (++)). f_equiv. solve_Permutation.
Qed.

Lemma concat_member {A} (ls : list (list A)) (t : nat) l : ls !! t = Some l -> l ⊆+ concat ls.
Proof.
  intros Hl. pose proof (concat_insert ls t l [] Hl) as H. rewrite app_nil_r in H.
  rewrite <- H. by apply submseteq_inserts_l.
Qed.

Lemma concat_submseteq {A} (ls ls' : list (list A)) :
  Forall2 submseteq ls ls' -> concat ls ⊆+ concat ls'.
Proof. induction 1; cbn; [done|]. by apply submseteq_app. Qed.

(** The entries of requests that were given inode numbers, and their encoding. *)
Definition assigned_entries (ef : nat) (h : host) (l : list (request * Z)) : list newc :=
  flat_map (fun p => request_entries ef h p.2 p.1) l.

Definition enc (ef : nat) (h : host) (l : list (request * Z)) : list ascii :=
  flat_map encode (assigned_entries ef h l).

(** The size of a request's entries does not depend on the inode number. *)
Definition rsize (ef : nat) (h : host) (r : request) : nat :=
  length (flat_map encode (request_entries ef h 0 r)).

Definition total_size (ef : nat) (h : host) (rs : list request) : nat :=
  sum_list_with (rsize ef h) rs.

Lemma encode_length_same e e' :
  n_name e = n_name e' -> n_data e = n_data e' -> length (encode e) = length (encode e').
Proof.
  intros H1 H2. apply Nat2Z.inj. rewrite !encode_length. unfold n_namesize, n_filesize.
  by rewrite H1, H2.
Qed.

Lemma file_entries_size mtime ino mode uid gid nlinks data names :
  length (flat_map encode (file_entries mtime ino mode uid gid nlinks data names)) =
  length (flat_map encode (file_entries mtime 0 mode uid gid nlinks data names)).
Proof.
  induction names as [|name names IH]; [done|]. cbn [file_entries flat_map].
  rewrite !length_app, IH. f_equal. by apply encode_length_same.
Qed.

Lemma rsize_ino ef h ino r : length (flat_map encode (request_entries ef h ino r)) = rsize ef h r.
Proof.
  unfold rsize.
  destruct r; cbn [request_entries flat_map];
    try (rewrite !app_nil_r; by apply encode_length_same).
  destruct (file_node ef h location) as [[node data]|]; [|done]. apply file_entries_size.
Qed.

Lemma enc_app ef h a b : enc ef h (a ++ b) = enc ef h a ++ enc ef h b.
Proof. unfold enc, assigned_entries. by rewrite !flat_map_app. Qed.

Lemma enc_length ef h l : length (enc ef h l) = total_size ef h l.*1.
Proof.
  induction l as [|[r ino] l IH]; [done|].
  change ((r, ino) :: l) with ([(r, ino)] ++ l). rewrite enc_app, length_app, IH, fmap_app.
  unfold enc, assigned_entries. cbn [flat_map fst snd]. rewrite app_nil_r, rsize_ino. done.
Qed.

#[export] Instance total_size_proper ef h : Proper ((≡ₚ) ==> (=)) (total_size ef h).
Proof.
  intros a b H. unfold total_size. induction H; cbn; [done|by f_equal|lia|by etransitivity].
Qed.

Lemma total_size_submseteq ef h a b : a ⊆+ b -> (total_size ef h a <= total_size ef h b)%nat.
Proof.
  intros [k ->]%submseteq_Permutation. unfold total_size. rewrite sum_list_with_app. lia.
Qed.

Lemma flat_map_encode_aligned es : Z.of_nat (length (flat_map encode es)) mod 4 = 0.
Proof.
  induction es as [|e es IH]; [done|]. cbn [flat_map].
  rewrite length_app, Nat2Z.inj_add, Z.add_mod, IH, encode_aligned by lia. done.
Qed.

(** [write_to_stdout] with nothing failing moves the stream's contents. *)
Lemma write_to_stdout_good f out :
  f_ok f -> Z.of_nat (length (f_written f)) <= INT_MAX ->
  exists r f', write_to_stdout io_good f out = (r, f', out ++ f_written f) /\ f_ok f' /\ 0 <= r.
Proof.
  intros Hf Hs. unfold write_to_stdout. pose proof (ftell_written f Hf) as Et. unfold INT_MAX in Hs.
  rewrite swrap_small by (rewrite ?Et; lia).
  destruct (Z.ltb_spec (ftell f) 0); [rewrite Et in *; lia|].
  destruct (Z.eqb_spec (ftell f) 0) as [E|E].
  - rewrite Et in E. destruct (f_written f) eqn:Ew; [|cbn in E; lia].
    exists 0, f. by rewrite app_nil_r.
  - cbn [io_good io_malloc negb]. destruct (fread_rewind f Hf) as (f' & -> & H1 & H2). cbn [io_fwrite].
    exists (ftell f), f'. split; [done|]. split; [|lia]. unfold f_ok in *. by rewrite H1, H2.
Qed.

(** ** The invariant of the workers *)
Section Invariant.
Context (ef : nat) (h : host) (n : nat) (items : list item).

Notation lines := (map print_item items).
Notation enc := (enc ef h).

Definition req_at (i : nat) : list request :=
  match items !! i with Some it => item_requests it | None => [] end.

Definition owner (i : nat) : nat := (S i mod n)%nat.

(** The requests of thread [t] among the first [k] lines. *)
Definition own (t k : nat) : list request :=
  flat_map (fun i => if Nat.eqb (owner i) t then req_at i else []) (seq 0 k).

(** How many lines a worker has dealt with. *)
Definition progress (th : worker) : nat :=
  match th_phase th with AtLine | Finished | Joined => th_i th | _ => S (th_i th) end.

(** The lines it has gone past, or freed: those below this one. *)
Definition cleared (th : worker) : nat :=
  match th_phase th with AtTry | InDump | InUnlock => S (th_i th) | _ => th_i th end.

(** Inside the loop body, past the loop, and with nothing left in the stream. *)
Definition busy (ph : phase) : bool :=
  match ph with AtFree | AtTry | InDump | InUnlock => true | _ => false end.
Definition ended (ph : phase) : bool :=
  match ph with Finished | Joined => true | _ => false end.
Definition drained (ph : phase) : bool :=
  match ph with InUnlock | Joined => true | _ => false end.

(** [p] are the requests whose entries are in the thread's stream. *)
Record thread_ok (th : worker) (p : list (request * Z)) : Prop := {
  to_file : f_ok (fp (th_st th));
  to_range : (th_i th <= length items)%nat;
  to_line : busy (th_phase th) = true -> (th_i th < length items)%nat;
  to_done : ended (th_phase th) = true -> th_i th = length items;
  to_data : drained (th_phase th) = false ->
    f_written (fp (th_st th)) = enc p /\ offset (th_st th) = Z.of_nat (length (enc p));
  to_flushed : drained (th_phase th) = true -> p = [];
}.

(** The lock is held by exactly the thread inside the critical section. *)
Definition lock_ok (lock : option nat) (ths : list worker) : Prop :=
  forall t th, ths !! t = Some th ->
    (th_phase th = InDump \/ th_phase th = InUnlock <-> lock = Some t).

(** A line is freed by its owner, which is then past it. *)
Definition freed_ok (freed : list nat) (ths : list worker) : Prop :=
  forall i, i ∈ freed -> exists th, ths !! owner i = Some th /\ (i < cleared th)%nat.

Definition frees_own (ths : list worker) : Prop :=
  forall t th, ths !! t = Some th -> th_phase th = AtFree -> owner (th_i th) = t.

Definition done_requests (ths : list worker) : list request :=
  concat (imap (fun t th => own t (progress th)) ths).

Record inv (w : world) (flushed : list (request * Z)) (pend : list (list (request * Z))) : Prop := {
  inv_threads : Forall2 thread_ok (w_threads w) pend;
  inv_n : length (w_threads w) = n;
  inv_out : w_out w = enc flushed;
  inv_reqs : (flushed ++ concat pend).*1 ≡ₚ done_requests (w_threads w);
  inv_ino : (flushed ++ concat pend).*2 ≡ₚ seqZ 721 (Z.of_nat (length (flushed ++ concat pend)));
  inv_i_no : w_ino w = 721 + Z.of_nat (length (flushed ++ concat pend));
  inv_lock : lock_ok (w_lock w) (w_threads w);
  inv_freed : freed_ok (w_freed w) (w_threads w);
  inv_own : frees_own (w_threads w);
}.

(** *** The partition of the lines *)

Lemma own_S t k : own t (S k) = own t k ++ (if Nat.eqb (owner k) t then req_at k else []).
Proof. unfold own. rewrite seq_S, flat_map_app. cbn. by rewrite app_nil_r. Qed.

Lemma own_le t k k' : (k <= k')%nat -> own t k ⊆+ own t k'.
Proof.
  induction 1 as [|k' _ IH]; [done|]. rewrite own_S. by apply submseteq_inserts_r.
Qed.

Lemma own_partition k :
  (0 < n)%nat -> concat (map (fun t => own t k) (seq 0 n)) ≡ₚ flat_map req_at (seq 0 k).
Proof.
  intros Hn. induction k as [|k IH].
  - cbn. assert (E : forall l, concat (map (fun t => own t 0) l) = []) by by induction l.
    by rewrite E.
  - rewrite (seq_S k), flat_map_app, <- IH. cbn [flat_map Nat.add]. rewrite app_nil_r.
    assert (Ho : (owner k < n)%nat) by (apply Nat.mod_upper_bound; lia).
    assert (El : map (fun t => own t (S k)) (seq 0 n) =
      <[owner k := own (owner k) k ++ req_at k]> (map (fun t => own t k) (seq 0 n))).
    { apply list_eq. intros t. destruct (decide (t = owner k)) as [->|Ht].
      - rewrite list_lookup_insert_eq by (by rewrite length_map, length_seq).
        rewrite list_lookup_fmap, lookup_seq_lt by done. cbn [fmap option_fmap option_map Nat.add].
        by rewrite own_S, Nat.eqb_refl.
      - rewrite list_lookup_insert_ne by done. rewrite !list_lookup_fmap.
        destruct (seq 0 n !! t) as [t'|] eqn:Et; [|done]. apply lookup_seq in Et as [-> _].
        cbn [fmap option_fmap option_map Nat.add]. rewrite own_S. rewrite (proj2 (Nat.eqb_neq _ _)) by done. by rewrite app_nil_r. }
    rewrite El. apply (Permutation_app_inv_r (own (owner k) k)).
    rewrite concat_insert; [solve_Permutation|].
    rewrite list_lookup_fmap, lookup_seq_lt by done. done.
Qed.

Lemma req_at_all : flat_map req_at (seq 0 (length items)) = requests items.
Proof.
  unfold requests, req_at. induction items as [|it its IH] using rev_ind; [done|].
  rewrite length_app. cbn [length]. rewrite Nat.add_1_r, seq_S, !flat_map_app. cbn.
  rewrite !app_nil_r, <- IH, lookup_app_r, Nat.sub_diag by lia. f_equal.
  rewrite !flat_map_concat_map. f_equal. apply map_ext_in. intros i Hi%in_seq. by rewrite lookup_app_l by lia.
Qed.

(** *** Updating one thread *)

Lemma done_requests_insert ths t th th' x :
  ths !! t = Some th -> own t (progress th') = own t (progress th) ++ x ->
  done_requests (<[t := th']> ths) ≡ₚ done_requests ths ++ x.
Proof.
  intros Ht Hx. unfold done_requests.
  assert (E : imap (fun t th => own t (progress th)) (<[t := th']> ths) =
    <[t := own t (progress th) ++ x]> (imap (fun t th => own t (progress th)) ths)).
  { apply list_eq. intros i. pose proof (lookup_lt_Some _ _ _ Ht) as Hl.
    destruct (decide (i = t)) as [->|Hi].
    - rewrite list_lookup_imap, !list_lookup_insert_eq by (by rewrite ?length_imap).
      cbn. by rewrite Hx.
    - by rewrite list_lookup_imap, !list_lookup_insert_ne, list_lookup_imap by done. }
  rewrite E. apply concat_insert_app. by rewrite list_lookup_imap, Ht.
Qed.

Lemma lock_ok_set lock lock' ths t th th' :
  lock_ok lock ths -> ths !! t = Some th ->
  (th_phase th' = InDump \/ th_phase th' = InUnlock <-> lock' = Some t) ->
  (forall t', t' <> t -> lock = Some t' <-> lock' = Some t') ->
  lock_ok lock' (<[t := th']> ths).
Proof.
  intros Hl Ht H1 H2 i thi Hi. destruct (decide (i = t)) as [->|Hne].
  - rewrite list_lookup_insert_eq in Hi by exact (lookup_lt_Some _ _ _ Ht).
    by injection Hi as <-.
  - rewrite list_lookup_insert_ne in Hi by done. rewrite <- H2 by done. by apply Hl.
Qed.

Lemma freed_ok_set freed freed' ths t th th' :
  freed_ok freed ths -> ths !! t = Some th -> (cleared th <= cleared th')%nat ->
  (forall i, i ∈ freed' -> i ∈ freed \/ owner i = t /\ (i < cleared th')%nat) ->
  freed_ok freed' (<[t := th']> ths).
Proof.
  intros Hf Ht Hc Hn i Hi. pose proof (lookup_lt_Some _ _ _ Ht) as Hl.
  destruct (decide (owner i = t)) as [E|Hne].
  - exists th'. rewrite E, list_lookup_insert_eq by done. split; [done|].
    destruct (Hn i Hi) as [Hi'|[_ ?]]; [|done]. destruct (Hf i Hi') as (th1 & E1 & ?).
    rewrite E, Ht in E1. injection E1 as <-. lia.
  - rewrite list_lookup_insert_ne by done. destruct (Hn i Hi) as [Hi'|[? _]]; [|done]. by apply Hf.
Qed.

Lemma frees_own_set ths t th' :
  frees_own ths -> (th_phase th' = AtFree -> owner (th_i th') = t) -> frees_own (<[t := th']> ths).
Proof.
  intros Ho Ht t1 th1 [(-> & <- & _)|[_ H1]]%list_lookup_insert_Some; [done|]. by apply Ho.
Qed.

Lemma inv_set w flushed pend t th p th' p' flushed' x ino' lock' out' freed' :
  inv w flushed pend -> w_threads w !! t = Some th -> pend !! t = Some p ->
  thread_ok th' p' -> out' = enc flushed' ->
  flushed' ++ concat (<[t := p']> pend) ≡ₚ (flushed ++ concat pend) ++ x ->
  own t (progress th') = own t (progress th) ++ x.*1 ->
  x.*2 = seqZ (w_ino w) (Z.of_nat (length x)) -> ino' = w_ino w + Z.of_nat (length x) ->
  (th_phase th' = InDump \/ th_phase th' = InUnlock <-> lock' = Some t) ->
  (forall t', t' <> t -> w_lock w = Some t' <-> lock' = Some t') ->
  (cleared th <= cleared th')%nat ->
  (forall i, i ∈ freed' -> i ∈ w_freed w \/ owner i = t /\ (i < cleared th')%nat) ->
  (th_phase th' = AtFree -> owner (th_i th') = t) ->
  inv (World ino' lock' out' (<[t := th']> (w_threads w)) freed') flushed' (<[t := p']> pend).
Proof.
  intros [Ht Hn Ho Hr Hi Hno Hl Hfr Hfo] Hth Hp Hok -> Hall Hown Hx -> Hl1 Hl2 Hc Hf Ha.
  constructor; cbn [w_threads w_out w_ino w_lock w_freed].
  - by apply Forall2_insert.
  - by rewrite length_insert.
  - done.
  - rewrite Hall, fmap_app, Hr. symmetry. by eapply done_requests_insert.
  - rewrite Hall, fmap_app, Hi, Hx, (length_app _ x), Hno, Nat2Z.inj_add.
    by rewrite <- seqZ_app by lia.
  - apply Permutation_length in Hall. rewrite Hall, length_app. lia.
  - by eapply lock_ok_set.
  - by eapply freed_ok_set.
  - by apply frees_own_set.
Qed.

Lemma done_requests_le ths :
  (0 < n)%nat -> length ths = n -> Forall (fun th => (progress th <= length items)%nat) ths ->
  done_requests ths ⊆+ requests items.
Proof.
  intros Hn Hl Hp. rewrite <- req_at_all, <- own_partition by done. apply concat_submseteq.
  apply Forall2_same_length_lookup_2; [by rewrite length_imap, length_map, length_seq|].
  intros i a b Ha Hb. rewrite list_lookup_imap in Ha. rewrite list_lookup_fmap in Hb.
  destruct (ths !! i) as [th|] eqn:E; [|done]. injection Ha as <-.
  rewrite lookup_seq_lt in Hb by (apply lookup_lt_Some in E; lia). injection Hb as <-.
  apply own_le. rewrite Forall_forall in Hp. apply Hp. by eapply list_elem_of_lookup_2.
Qed.

Lemma thread_progress th p : thread_ok th p -> (progress th <= length items)%nat.
Proof.
  intros [_ H1 H2 _ _ _]. unfold progress.
  destruct (th_phase th) eqn:E; try done; specialize (H2 eq_refl); lia.
Qed.
End Invariant.

(** ** Every schedule keeps the invariant *)
Definition item_wf (ef : nat) (h : host) (it : item) : Prop :=
  match it with IComment _ => True | IReq r => request_wf ef h r end.

(** What the theorems ask of a list: well formed lines, a time stamp after 1970,
    an archive below 2 GB and inode numbers below 2^32. *)
Record list_ok (ef : nat) (h : host) (items : list item) : Prop := {
  lo_wf : Forall (item_wf ef h) items;
  lo_mtime : field_ok (default_mtime h);
  lo_room : Z.of_nat (total_size ef h (requests items)) <= INT_MAX;
  lo_ino : 721 + Z.of_nat (length (requests items)) < 2 ^ 32;
}.

Section Steps.
Context (ef : nat) (h : host) (n : nat) (items : list item).
Hypothesis Hn : (0 < n)%nat.
Hypothesis Hok : list_ok ef h items.

Notation lines := (map print_item items).
Notation inv := (inv ef h n items).
Notation thread_ok := (thread_ok ef h items).

(** What is written and what is still in the streams fits below [INT_MAX]. *)
Lemma inv_size w flushed pend :
  inv w flushed pend ->
  (flushed ++ concat pend).*1 ⊆+ requests items.
Proof.
  intros [Ht Hl _ -> _ _ _ _ _]. apply done_requests_le with (n := n); [done..|].
  apply Forall_forall. intros th [i Hi]%list_elem_of_lookup.
  destruct (Forall2_lookup_l _ _ _ _ _ Ht Hi) as (p & _ & Hp). by eapply thread_progress.
Qed.

Lemma inv_pend_size w flushed pend t p :
  inv w flushed pend -> pend !! t = Some p -> Z.of_nat (length (enc ef h p)) <= INT_MAX.
Proof.
  intros Hi Hp. rewrite enc_length. pose proof (lo_room _ _ _ Hok).
  assert (H' : p.*1 ⊆+ requests items).
  { etransitivity; [|by eapply inv_size]. apply fmap_submseteq.
    apply submseteq_inserts_l. by eapply concat_member. }
  apply (total_size_submseteq ef h) in H'. lia.
Qed.

(** A request of an own line fits as well, and an inode number is left. *)
Lemma inv_next_size w flushed pend t th p r :
  inv w flushed pend -> w_threads w !! t = Some th -> pend !! t = Some p ->
  th_phase th = AtLine -> (th_i th < length items)%nat ->
  own n items t (S (th_i th)) = own n items t (th_i th) ++ [r] ->
  (length (enc ef h p) + rsize ef h r <= total_size ef h (requests items))%nat /\
  w_ino w < 2 ^ 32 - 1.
Proof.
  intros Hi Hth Hp Hph Hlt Hown.
  set (th' := Worker (th_i th) AtFree (th_st th)).
  assert (Hd : done_requests n items (<[t := th']> (w_threads w)) ≡ₚ
    (flushed ++ concat pend).*1 ++ [r]).
  { rewrite (inv_reqs _ _ _ _ _ _ _ Hi). eapply done_requests_insert; [done|].
    unfold progress. cbn [th' th_phase th_i]. by rewrite Hph. }
  assert (Hsub : (flushed ++ concat pend).*1 ++ [r] ⊆+ requests items).
  { rewrite <- Hd. apply (done_requests_le _ _ _ Hn); [by rewrite length_insert; apply Hi|].
    apply Forall_insert; [|cbn; lia]. apply Forall_forall. intros th1 [i Hi1]%list_elem_of_lookup.
    destruct (Forall2_lookup_l _ _ _ _ _ (inv_threads _ _ _ _ _ _ _ Hi) Hi1) as (q & _ & Hq).
    by eapply thread_progress. }
  split.
  - apply (total_size_submseteq ef h) in Hsub.
    rewrite enc_length. unfold total_size in *. rewrite sum_list_with_app in Hsub. cbn in Hsub.
    assert (Hp' : p.*1 ⊆+ (flushed ++ concat pend).*1).
    { apply fmap_submseteq, submseteq_inserts_l. by eapply concat_member. }
    apply (total_size_submseteq ef h) in Hp'. unfold total_size in *. lia.
  - rewrite (inv_i_no _ _ _ _ _ _ _ Hi). pose proof (lo_ino _ _ _ Hok).
    apply submseteq_length in Hsub. rewrite length_app, length_fmap in Hsub. cbn in Hsub. lia.
Qed.

Lemma owner_test t i :
  (t < n)%nat ->
  (Z.rem (Z.of_nat i + 1) (Z.of_nat n) =? Z.of_nat t) = Nat.eqb (owner n i) t.
Proof.
  intros Ht. unfold owner. rewrite Z.rem_mod_nonneg by lia.
  replace (Z.of_nat i + 1) with (Z.of_nat (S i)) by lia. rewrite <- Nat2Z.inj_mod.
  destruct (Nat.eqb_spec (S i mod n) t) as [->|]; [apply Z.eqb_refl|]. apply Z.eqb_neq. lia.
Qed.

(** A worker that moves without touching its stream. *)
Lemma thread_ok_move th p i' ph :
  thread_ok th p -> drained (th_phase th) = false -> (i' <= length items)%nat ->
  drained ph = false -> (busy ph = true -> (i' < length items)%nat) ->
  (ended ph = true -> i' = length items) -> thread_ok (Worker i' ph (th_st th)) p.
Proof.
  intros [H1 _ _ _ H5 _] Hu Hi Hph Hl Hf. constructor; cbn; auto. congruence.
Qed.

Lemma handle_comment text c :
  handle_line ef h (print_item (IComment text)) c = Ok (Skip, c).
Proof. done. Qed.

Lemma inv_move w flushed pend t th p th' lock' freed' :
  inv w flushed pend -> w_threads w !! t = Some th -> pend !! t = Some p ->
  thread_ok th' p ->
  own n items t (progress th') = own n items t (progress th) ->
  (th_phase th' = InDump \/ th_phase th' = InUnlock <-> lock' = Some t) ->
  (forall t', t' <> t -> w_lock w = Some t' <-> lock' = Some t') ->
  (cleared th <= cleared th')%nat ->
  (forall i, i ∈ freed' -> i ∈ w_freed w \/ owner n i = t /\ (i < cleared th')%nat) ->
  th_phase th' <> AtFree ->
  inv (World (w_ino w) lock' (w_out w) (<[t := th']> (w_threads w)) freed') flushed pend.
Proof.
  intros Hi Hth Hp Hok' Hown H1 H2 H3 H4 H5. rewrite <- (list_insert_id pend t p) by done.
  eapply (inv_set _ _ _ _ _ _ _ _ _ _ _ _ _ []); try done.
  - apply Hi.
  - by rewrite list_insert_id, app_nil_r by done.
  - by rewrite app_nil_r.
  - cbn. lia.
Qed.

(** A thread outside the critical section does not hold the lock. *)
Lemma inv_unlocked w flushed pend t th ph :
  inv w flushed pend -> w_threads w !! t = Some th ->
  th_phase th <> InDump -> th_phase th <> InUnlock -> ph <> InDump -> ph <> InUnlock ->
  (ph = InDump \/ ph = InUnlock <-> w_lock w = Some t).
Proof. intros Hi Hth H1 H2 H3 H4. rewrite <- (inv_lock _ _ _ _ _ _ _ Hi t th Hth). tauto. Qed.

Lemma inv_thread w flushed pend t th :
  inv w flushed pend -> w_threads w !! t = Some th ->
  (t < n)%nat /\ exists p, pend !! t = Some p /\ thread_ok th p.
Proof.
  intros Hi Hth. split.
  - rewrite <- (inv_n _ _ _ _ _ _ _ Hi). by eapply lookup_lt_Some.
  - by apply (Forall2_lookup_l _ _ _ _ _ (inv_threads _ _ _ _ _ _ _ Hi) Hth).
Qed.

(** A request's line is parsed and its entries go to the thread's stream. *)
Lemma worker_request w flushed pend t th p r :
  inv w flushed pend -> w_threads w !! t = Some th -> pend !! t = Some p ->
  th_phase th = AtLine -> items !! th_i th = Some (IReq r) -> owner n (th_i th) = t ->
  exists st', handle_line ef h (print_line r) (Cpio (w_ino w) (th_st th)) =
      Ok (Done None, Cpio (w_ino w + 1) st') /\
    inv (World (w_ino w + 1) (w_lock w) (w_out w)
           (<[t := Worker (th_i th) AtFree st']> (w_threads w)) (w_freed w))
      flushed (<[t := p ++ [(r, w_ino w)]]> pend).
Proof.
  intros Hi Hth Hp Hph Hr Hown. pose proof (lookup_lt_Some _ _ _ Hr) as Hlt.
  destruct (inv_thread _ _ _ _ _ Hi Hth) as (_ & p' & Hp' & Ht).
  rewrite Hp in Hp'. injection Hp' as <-.
  assert (Ho : own n items t (S (th_i th)) = own n items t (th_i th) ++ [r]).
  { rewrite own_S, Hown, Nat.eqb_refl. unfold req_at. by rewrite Hr. }
  destruct (inv_next_size _ _ _ _ _ _ _ Hi Hth Hp Hph Hlt Ho) as [Hsz Hino].
  pose proof (lo_room _ _ _ Hok). pose proof (inv_i_no _ _ _ _ _ _ _ Hi).
  destruct Ht as [Hf _ _ _ Hd _]. destruct (Hd ltac:(by rewrite Hph)) as [Hw Hoff].
  set (es := request_entries ef h (w_ino w) r).
  assert (Hes : length (flat_map encode es) = rsize ef h r) by apply rsize_ino.
  assert (Hwf : request_wf ef h r).
  { pose proof (lo_wf _ _ _ Hok) as F. rewrite Forall_forall in F.
    apply (F (IReq r)). by eapply list_elem_of_lookup_2. }
  assert (Henc : enc ef h (p ++ [(r, w_ino w)]) = enc ef h p ++ flat_map encode es).
  { rewrite enc_app. unfold enc at 2, assigned_entries. cbn [flat_map fst snd].
    by rewrite app_nil_r. }
  exists (emit (flat_map encode es) (th_st th)). split.
  - rewrite (handle_line_print ef h r (w_ino w) (th_st th)).
    + by rewrite uwrap_small by lia.
    + done.
    + apply Hok.
    + rewrite Hoff. apply flat_map_encode_aligned.
    + split; [done|]. rewrite Hoff. unfold entry_room. fold es. lia.
  - eapply (inv_set _ _ _ _ _ _ _ _ _ _ _ _ _ [(r, w_ino w)]); try done.
    + constructor; cbn [th_st th_i th_phase]; try done; try lia.
      * by apply fput_ok.
      * intros _. cbn [emit fp offset]. rewrite fput_written, Hw, Henc by done. split; [done|].
        rewrite Hoff, length_app. lia.
    + apply Hi.
    + rewrite (concat_insert_app _ _ _ _ Hp). by rewrite (assoc_L (++)).
    + unfold progress. cbn [th_phase th_i]. by rewrite Hph.
    + cbn [th_phase]. apply (inv_unlocked _ _ _ _ _ _ Hi Hth); congruence.
    + unfold cleared. by rewrite Hph.
    + auto.
Qed.

(** The steps a worker can still take: five for every line, and the return. *)
Definition fuel_of (th : worker) : nat :=
  match th_phase th with
  | AtLine => 5 * (length items - th_i th) + 1
  | AtFree => 5 * (length items - th_i th)
  | AtTry => 5 * (length items - th_i th) - 1
  | InDump => 5 * (length items - th_i th) - 2
  | InUnlock => 5 * (length items - th_i th) - 3
  | Finished | Joined => 0
  end.

(** What one step of thread [t] does to the others, and to its own measure. *)
Definition steps_to (w : world) (t : nat) (w' : world) : Prop :=
  (exists flushed pend, inv w' flushed pend) /\
  forall th, w_threads w !! t = Some th ->
    exists th', w_threads w' = <[t := th']> (w_threads w) /\ (fuel_of th' <= fuel_of th - 1)%nat.

Lemma worker_line_steps w flushed pend t th p :
  inv w flushed pend -> w_threads w !! t = Some th -> pend !! t = Some p ->
  th_phase th = AtLine -> ((th_i th < length items)%nat -> th_i th ∉ w_freed w) ->
  exists w', worker_line ef h n lines t th w = Ok w' /\ steps_to w t w'.
Proof.
  intros Hi Hth Hp Hph Hnf. destruct (inv_thread _ _ _ _ _ Hi Hth) as (Ht & p' & Hp' & Hthok).
  rewrite Hp in Hp'. injection Hp' as <-.
  assert (Hu : th_phase th <> InUnlock) by (by rewrite Hph).
  assert (Hd : th_phase th <> InDump) by (by rewrite Hph).
  assert (Hdr : drained (th_phase th) = false) by (by rewrite Hph).
  assert (Hrg : (th_i th <= length items)%nat) by apply Hthok.
  assert (Move : forall i' ph, (i' <= length items)%nat -> ph <> InDump -> ph <> InUnlock ->
    drained ph = false -> (busy ph = true -> (i' < length items)%nat) ->
    (ended ph = true -> i' = length items) -> ph <> AtFree ->
    own n items t (progress (Worker i' ph (th_st th))) = own n items t (th_i th) ->
    (th_i th <= i')%nat -> cleared (Worker i' ph (th_st th)) = i' ->
    (fuel_of (Worker i' ph (th_st th)) <= fuel_of th - 1)%nat ->
    steps_to w t (set_thread w t (Worker i' ph (th_st th)))).
  { intros i' ph H1 H2 H3 H3' H4 H5 H10 H6 H8 H9 H7. split.
    - exists flushed, pend. apply (inv_move w flushed pend t th p); try done.
      + by apply thread_ok_move.
      + rewrite H6. unfold progress. by rewrite Hph.
      + by apply (inv_unlocked _ _ _ _ _ _ Hi Hth).
      + rewrite H9. unfold cleared. by rewrite Hph.
      + auto.
    - intros th1 Hth1. rewrite Hth in Hth1. injection Hth1 as <-. by eexists. }
  unfold worker_line. rewrite list_lookup_fmap.
  destruct (items !! th_i th) as [it|] eqn:Eit.
  2: { eexists. split; [reflexivity|]. apply lookup_ge_None_1 in Eit.
       apply Move; try done; try lia. unfold fuel_of. rewrite Hph. cbn. lia. }
  pose proof (lookup_lt_Some _ _ _ Eit) as Hlt. cbn [fmap option_fmap option_map].
  rewrite bool_decide_true by auto. cbn [ub_unless]. rewrite bind_Ok, owner_test by done.
  assert (Skip_own : (if Nat.eqb (owner n (th_i th)) t then req_at items (th_i th) else []) = [] ->
    steps_to w t (set_thread w t (Worker (S (th_i th)) AtLine (th_st th)))).
  { intros E. apply Move; try done; try lia.
    - unfold progress. cbn [th_phase th_i]. by rewrite own_S, E, app_nil_r.
    - unfold fuel_of. rewrite Hph. cbn [th_phase th_i]. lia. }
  destruct (Nat.eqb_spec (owner n (th_i th)) t) as [Ho|Ho]; cbn [negb].
  2: { eexists. split; [reflexivity|]. by apply Skip_own. }
  destruct it as [text|r].
  - rewrite handle_comment, bind_Ok. eexists. split; [reflexivity|].
    apply Skip_own. unfold req_at. by rewrite Eit.
  - destruct (worker_request _ _ _ _ _ _ _ Hi Hth Hp Hph Eit Ho) as (st' & E & Hi').
    cbn [print_item]. rewrite E, bind_Ok. eexists. split; [reflexivity|]. split; [by do 2 eexists|].
    intros th1 Hth1. rewrite Hth in Hth1. injection Hth1 as <-. eexists. split; [reflexivity|].
    unfold fuel_of. rewrite Hph. cbn [th_phase th_i]. lia.
Qed.

Lemma free_steps w flushed pend t th :
  inv w flushed pend -> w_threads w !! t = Some th -> th_phase th = AtFree ->
  exists w', worker_step ef h n lines t io_good w = Ok w' /\ steps_to w t w'.
Proof.
  intros Hi Hth Hph. destruct (inv_thread _ _ _ _ _ Hi Hth) as (Ht & p & Hp & Hthok).
  pose proof (inv_own _ _ _ _ _ _ _ Hi t th Hth Hph) as Hown.
  assert (Hlt : (th_i th < length items)%nat) by (apply Hthok; by rewrite Hph).
  unfold worker_step. rewrite Hth, Hph. eexists. split; [reflexivity|]. split.
  - exists flushed, pend. apply (inv_move w flushed pend t th p); try done; cbn [th_phase].
    + apply thread_ok_move; try done; try lia. by rewrite Hph.
    + unfold progress. by rewrite Hph.
    + by apply (inv_unlocked _ _ _ _ _ _ Hi Hth); rewrite ?Hph.
    + unfold cleared. rewrite Hph. cbn. lia.
    + intros i [->|Hin]%elem_of_cons; [right|by left]. split; [done|]. cbn. lia.
  - intros th1 Hth1. rewrite Hth in Hth1. injection Hth1 as <-. eexists. split; [reflexivity|].
    unfold fuel_of. rewrite Hph. cbn [th_phase th_i]. lia.
Qed.

Lemma try_steps w flushed pend t th :
  inv w flushed pend -> w_threads w !! t = Some th -> th_phase th = AtTry ->
  exists w', worker_step ef h n lines t io_good w = Ok w' /\ steps_to w t w'.
Proof.
  intros Hi Hth Hph. destruct (inv_thread _ _ _ _ _ Hi Hth) as (Ht & p & Hp & Hthok).
  assert (Hlt : (th_i th < length items)%nat) by (apply Hthok; by rewrite Hph).
  unfold worker_step. rewrite Hth, Hph. destruct (w_lock w) as [t'|] eqn:El.
  - eexists. split; [reflexivity|]. split.
    + exists flushed, pend. apply (inv_move w flushed pend t th p); try done.
      * apply thread_ok_move; try done; try lia. by rewrite Hph.
      * unfold progress. by rewrite Hph.
      * by apply (inv_unlocked _ _ _ _ _ _ Hi Hth); rewrite ?Hph.
      * unfold cleared. rewrite Hph. cbn. lia.
      * auto.
    + intros th1 Hth1. rewrite Hth in Hth1. injection Hth1 as <-. eexists. split; [reflexivity|].
      unfold fuel_of. rewrite Hph. cbn [th_phase th_i]. lia.
  - eexists. split; [reflexivity|]. split.
    + exists flushed, pend. apply (inv_move w flushed pend t th p); try done; cbn [th_phase].
      * apply thread_ok_move; try done; try lia. by rewrite Hph.
      * unfold progress. by rewrite Hph.
      * naive_solver.
      * intros t' Hne. rewrite El. naive_solver.
      * unfold cleared. rewrite Hph. cbn. lia.
      * auto.
    + intros th1 Hth1. rewrite Hth in Hth1. injection Hth1 as <-. eexists. split; [reflexivity|].
      unfold fuel_of. rewrite Hph. cbn [th_phase th_i]. lia.
Qed.

Lemma dump_steps w flushed pend t th :
  inv w flushed pend -> w_threads w !! t = Some th -> th_phase th = InDump ->
  exists w', worker_step ef h n lines t io_good w = Ok w' /\ steps_to w t w'.
Proof.
  intros Hi Hth Hph. destruct (inv_thread _ _ _ _ _ Hi Hth) as (Ht & p & Hp & Hthok).
  assert (Hlt : (th_i th < length items)%nat) by (apply Hthok; by rewrite Hph).
  destruct Hthok as [Hf _ _ _ Hd _]. destruct (Hd ltac:(by rewrite Hph)) as [Hw _].
  destruct (write_to_stdout_good (fp (th_st th)) (w_out w) Hf) as (r & f' & E & Hf' & _).
  { rewrite Hw. by eapply inv_pend_size. }
  unfold worker_step. rewrite Hth, Hph, E. eexists. split; [reflexivity|]. split.
  - exists (flushed ++ p), (<[t := []]> pend).
    apply (inv_set _ _ _ _ w flushed pend t th p _ [] _ []); try done; cbn [th_phase].
    + constructor; cbn [th_st th_i th_phase fp]; try done; lia.
    + by rewrite enc_app, Hw, (inv_out _ _ _ _ _ _ _ Hi).
    + pose proof (concat_insert pend t p [] Hp) as C. rewrite app_nil_r in C |- *.
      rewrite <- C. solve_Permutation.
    + unfold progress. rewrite Hph. cbn. by rewrite app_nil_r.
    + cbn. lia.
    + rewrite <- (inv_lock _ _ _ _ _ _ _ Hi t th Hth). naive_solver.
    + unfold cleared. rewrite Hph. cbn. lia.
    + auto.
  - intros th1 Hth1. rewrite Hth in Hth1. injection Hth1 as <-. eexists. split; [reflexivity|].
    unfold fuel_of. rewrite Hph. cbn [th_phase th_i]. lia.
Qed.

Lemma unlock_steps w flushed pend t th :
  inv w flushed pend -> w_threads w !! t = Some th -> th_phase th = InUnlock ->
  exists w', worker_step ef h n lines t io_good w = Ok w' /\ steps_to w t w'.
Proof.
  intros Hi Hth Hph. destruct (inv_thread _ _ _ _ _ Hi Hth) as (Ht & p & Hp & Hthok).
  assert (Hlt : (th_i th < length items)%nat) by (apply Hthok; by rewrite Hph).
  destruct Hthok as [Hf _ _ _ _ Hfl]. specialize (Hfl ltac:(by rewrite Hph)). subst p.
  assert (Hl : w_lock w = Some t) by (apply (inv_lock _ _ _ _ _ _ _ Hi t th Hth); auto).
  unfold worker_step. rewrite Hth, Hph. eexists. split; [reflexivity|]. split.
  - exists flushed, pend. apply (inv_move w flushed pend t th []); try done; cbn [th_phase].
    + constructor; cbn [th_st th_i th_phase fp]; try done; try lia. unfold f_ok. cbn. lia.
    + unfold progress. by rewrite Hph.
    + naive_solver.
    + intros t' Hne. rewrite Hl. naive_solver.
    + unfold cleared. rewrite Hph. cbn. lia.
    + auto.
  - intros th1 Hth1. rewrite Hth in Hth1. injection Hth1 as <-. eexists. split; [reflexivity|].
    unfold fuel_of. rewrite Hph. cbn [th_phase th_i]. lia.
Qed.

Lemma ended_steps w flushed pend t th ph :
  inv w flushed pend -> w_threads w !! t = Some th -> th_phase th = ph -> ended ph = true ->
  exists w', worker_step ef h n lines t io_good w = Ok w' /\ steps_to w t w'.
Proof.
  intros Hi Hth <- He. exists w. split; [|split; [by do 2 eexists|]].
  - unfold worker_step. rewrite Hth. by destruct (th_phase th).
  - intros th1 Ht. rewrite Hth in Ht. injection Ht as <-. exists th. rewrite list_insert_id by done.
    split; [done|]. unfold fuel_of. destruct (th_phase th); try done; lia.
Qed.

Lemma worker_step_steps w flushed pend t :
  inv w flushed pend -> reads_freed lines t w = false ->
  exists w', worker_step ef h n lines t io_good w = Ok w' /\ steps_to w t w'.
Proof.
  intros Hi Hrf. destruct (w_threads w !! t) as [th|] eqn:Hth.
  2: { exists w. unfold worker_step. rewrite Hth. split; [done|]. split; [by do 2 eexists|].
       intros th Ht. congruence. }
  destruct (inv_thread _ _ _ _ _ Hi Hth) as (_ & p & Hp & _).
  destruct (th_phase th) eqn:Hph.
  - unfold worker_step. rewrite Hth, Hph. eapply worker_line_steps; [done..|].
    intros Hlt Hfr. unfold reads_freed in Hrf. rewrite Hth, Hph, length_map in Hrf.
    rewrite bool_decide_true, (bool_decide_true (_ ∈ _)), (proj2 (Nat.ltb_lt _ _)) in Hrf by done.
    done.
  - by eapply free_steps.
  - by eapply try_steps.
  - by eapply dump_steps.
  - by eapply unlock_steps.
  - by eapply ended_steps.
  - by eapply ended_steps.
Qed.

End Steps.

(** ** What a step of a worker can change, whatever the list and the failures *)

Definition critical (ph : phase) : bool :=
  match ph with InDump | InUnlock => true | _ => false end.

Lemma critical_spec ph : critical ph = true <-> ph = InDump \/ ph = InUnlock.
Proof. destruct ph; cbn; naive_solver. Qed.

(** A step moves one thread, which has not ended; the lock stays, or is taken by
    the thread entering its critical section, or is released by it leaving. *)
Lemma worker_step_shape ef h n lines t o w w' :
  worker_step ef h n lines t o w = Ok w' ->
  w' = w \/
  exists th th', w_threads w !! t = Some th /\ w_threads w' = <[t := th']> (w_threads w) /\
    ended (th_phase th) = false /\ th_phase th' <> Joined /\
    ((w_lock w' = w_lock w /\ critical (th_phase th') = critical (th_phase th)) \/
     (w_lock w = None /\ w_lock w' = Some t /\ critical (th_phase th) = false /\
        critical (th_phase th') = true) \/
     (w_lock w' = None /\ critical (th_phase th) = true /\ critical (th_phase th') = false)).
Proof.
  unfold worker_step. destruct (w_threads w !! t) as [th|] eqn:Hth; [|intros [= <-]; by left].
  destruct (th_phase th) eqn:Hph.
  - unfold worker_line. intros H. right. exists th. rewrite Hph.
    destruct (lines !! th_i th) as [line|].
    2: { injection H as <-. eexists. repeat split; [done|by left]. }
    destruct (bool_decide _); [|done]. cbn [ub_unless] in H. rewrite bind_Ok in H.
    destruct (negb _).
    { injection H as <-. eexists. repeat split; [done|by left]. }
    inv_res. destruct a as [act c]. inv_res. eexists. repeat split; [by destruct act|].
    left. split; [done|by destruct act].
  - intros [= <-]. right. exists th. rewrite Hph. eexists. repeat split; [done|]. by left.
  - intros H. right. exists th. rewrite Hph. destruct (w_lock w) as [t'|] eqn:El;
      injection H as <-; eexists; (repeat split; [done|]); [by left|right; by left].
  - destruct (write_to_stdout _ _ _) as [[r f] out]. intros [= <-]. right. exists th. rewrite Hph.
    eexists. repeat split; [done|by left].
  - intros [= <-]. right. exists th. rewrite Hph. eexists. repeat split; [done|]. right. by right.
  - intros [= <-]. by left.
  - intros [= <-]. by left.
Qed.

Lemma lock_ok_step ef h n lines t o w w' :
  lock_ok (w_lock w) (w_threads w) -> worker_step ef h n lines t o w = Ok w' ->
  lock_ok (w_lock w') (w_threads w').
Proof.
  intros Hl [->|(th & th' & Hth & -> & _ & _ & Hc)]%worker_step_shape; [done|].
  pose proof (Hl t th Hth) as Ht. rewrite <- critical_spec in Ht.
  apply (lock_ok_set (w_lock w) _ _ _ th); [done..| |]; rewrite <- ?critical_spec;
    destruct Hc as [(-> & E)|[(Eo & -> & E1 & E)|(-> & E1 & E)]];
    rewrite ?E, ?Eo; rewrite ?E1, ?Eo in Ht; naive_solver.
Qed.

(** Threads that have ended stay where they are; a worker neither joins a thread
    nor touches the lock when another agent holds it. *)
Lemma worker_step_frame ef h n lines t o w w' :
  worker_step ef h n lines t o w = Ok w' -> lock_ok (w_lock w) (w_threads w) ->
  (forall t' th', w_threads w' !! t' = Some th' -> exists th, w_threads w !! t' = Some th /\
     (th_phase th' = Joined <-> th_phase th = Joined) /\
     (th_phase th = Finished -> th_phase th' = Finished)) /\
  (forall m, w_threads w !! m = None -> (w_lock w' = Some m <-> w_lock w = Some m)).
Proof.
  intros [->|(th & th' & Hth & E & He & Hj & Hc)]%worker_step_shape Hl.
  { split; [|done]. intros t' th' H. by exists th'. }
  split.
  - rewrite E. intros t' thx H. destruct (decide (t' = t)) as [->|Hne].
    + rewrite list_lookup_insert_eq in H by by eapply lookup_lt_Some. injection H as <-.
      exists th. split; [done|]. destruct (th_phase th); naive_solver.
    + rewrite list_lookup_insert_ne in H by done. by exists thx.
  - intros m Hm. pose proof (Hl t th Hth) as Ht. rewrite <- critical_spec in Ht.
    destruct Hc as [(-> & _)|[(-> & -> & _)|(-> & E1 & _)]]; [done|..].
    + split; [|done]. intros [= ->]. congruence.
    + rewrite E1 in Ht. split; [done|]. intros Hlm. rewrite (proj1 Ht eq_refl) in Hlm. congruence.
Qed.
