(* ===== verification/CpioMain.v ===== *)
(** * The main thread of src/gen_init_cpio.c

    The worker threads and the loop of [main] that joins them and writes out what
    is left in their streams, as one interleaved program, and the archive that
    comes out. An execution is a schedule: the list of the threads that take a
    step, in any order, the main thread being thread number [nr_threads]. *)
From stdpp Require Import base list strings sets.
From Stdlib Require Import ZArith Lia Ascii.
From S2P Require Import Prelude Stdio Newc Cpio CpioLine CpioTable CpioWorker.

Open Scope Z_scope.

(** ** The main thread *)

(** Where [main] stands in the flushing loop for thread [p_i]: before
    [pthread_join], before [pthread_spin_lock], and inside its critical section
    before and after [write_to_stdout]. *)
Inductive mphase : Type := MJoin | MLock | MWrite | MUnlock.

#[export] Instance mphase_eq_dec : EqDecision mphase.
Proof. solve_decision. Defined.

Record prog : Type := Prog { p_w : world; p_i : nat; p_ph : mphase }.

Section Main.
Context (ef : nat) (h : host) (nr_threads : nat) (lines : list (list ascii)).

(** The value a worker returns never reaches [ret], and a failed write is only
    reported, so nothing else is left of the loop. *)
Definition main_step (o : io) (p : prog) : res prog :=
  let w := p_w p in
  match p_ph p with
  | MJoin =>
      match w_threads w !! p_i p with
      | Some th => Ok (if decide (th_phase th = Finished) then Prog w (p_i p) MLock else p)
      | None => Ok p
      end
  | MLock =>
      match w_lock w with
      | None => Ok (Prog (World (w_ino w) (Some nr_threads) (w_out w) (w_threads w) (w_freed w)) (p_i p) MWrite)
      | Some _ => Ok p
      end
  | MWrite =>
      match w_threads w !! p_i p with
      | Some th =>
          let '(_, f, out) := write_to_stdout o (fp (th_st th)) (w_out w) in
          Ok (Prog (set_thread (World (w_ino w) (w_lock w) out (w_threads w) (w_freed w)) (p_i p)
                      (Worker (th_i th) Joined (MyState (offset (th_st th)) f)))
                (p_i p) MUnlock)
      | None => Ok p
      end
  | MUnlock => Ok (Prog (World (w_ino w) None (w_out w) (w_threads w) (w_freed w)) (S (p_i p)) MJoin)
  end.

Definition prog_step (who : nat) (o : io) (p : prog) : res prog :=
  if Nat.eqb who nr_threads then main_step o p
  else w ← worker_step ef h nr_threads lines who o (p_w p); Ok (Prog w (p_i p) (p_ph p)).

Fixpoint run (sched : list (nat * io)) (p : prog) : res prog :=
  match sched with
  | [] => Ok p
  | (t, o) :: sched => p ← prog_step t o p; run sched p
  end.

Definition prog0 : prog := Prog (world0 nr_threads) 0 MJoin.

(** Whether some worker of the schedule comes to a line after its owner freed it. *)
Fixpoint late_read (sched : list (nat * io)) (p : prog) : bool :=
  match sched with
  | [] => false
  | (t, o) :: sched =>
      negb (Nat.eqb t nr_threads) && reads_freed lines t (p_w p) ||
      match prog_step t o p with Ok p => late_read sched p | _ => false end
  end.

Lemma late_read_undef sched p : late_read sched p = true -> run sched p = Undef.
Proof.
  revert p. induction sched as [|[t o] sched IH]; intros p; [done|]. cbn [late_read run].
  rewrite orb_true_iff, andb_true_iff, negb_true_iff. intros [[Ht Hr]|Hl].
  - unfold prog_step. by rewrite Ht, (reads_freed_undef ef h nr_threads lines t o _ Hr).
  - destruct (prog_step t o p) as [p'| |]; [|done..]. rewrite bind_Ok. by apply IH.
Qed.

Definition main_done (p : prog) : bool :=
  Nat.eqb (p_i p) nr_threads && bool_decide (p_ph p = MJoin).

(** From the creation of the threads to the exit: standard output, provided the
    flushing loop has come to its end. *)
Definition main_threads (sched : list (nat * io)) : res (option (list ascii)) :=
  p ← run sched prog0;
  if main_done p then
    let out := w_out (p_w p) in
    ub_unless (Nat.ltb 0 nr_threads)         (* my_states[0] exists *)
      (st ← cpio_trailer (MyState 0 (mkFILE out (length out)));
       Ok (Some (f_data (fp st))))
  else Ok None.
End Main.

(** ** The two critical sections *)
Section Exclusion.
Context (ef : nat) (h : host) (n : nat) (lines : list (list ascii)).

(** How many streams [main] has consumed. *)
Definition consumed (p : prog) : nat :=
  match p_ph p with MUnlock => S (p_i p) | _ => p_i p end.

(** Where the main thread stands, and that it holds the lock exactly inside its
    critical section: for every list, interleaving and failure. *)
Record main_ok (p : prog) : Prop := {
  mo_n : length (w_threads (p_w p)) = n;
  mo_lock : lock_ok (w_lock (p_w p)) (w_threads (p_w p));
  mo_i : (p_i p <= n)%nat;
  mo_busy : p_ph p <> MJoin -> (p_i p < n)%nat;
  mo_joined t th : w_threads (p_w p) !! t = Some th ->
    (th_phase th = Joined <-> (t < consumed p)%nat);
  mo_finished th : p_ph p = MLock \/ p_ph p = MWrite ->
    w_threads (p_w p) !! p_i p = Some th -> th_phase th = Finished;
  mo_main : p_ph p = MWrite \/ p_ph p = MUnlock <-> w_lock (p_w p) = Some n;
  mo_holder t : w_lock (p_w p) = Some t -> (t <= n)%nat;
}.

Lemma main_ok_init : main_ok (prog0 n).
Proof.
  constructor; cbn; try done; try lia; try naive_solver.
  - apply length_replicate.
  - intros t th [-> _]%lookup_replicate. cbn. naive_solver.
  - intros t th [-> _]%lookup_replicate. cbn. split; [done|lia].
Qed.

Lemma main_ok_worker t o p w' :
  main_ok p -> worker_step ef h n lines t o (p_w p) = Ok w' -> main_ok (Prog w' (p_i p) (p_ph p)).
Proof.
  intros [H1 H2 H3 H4 H5 H6 H7 H8] Hs.
  destruct (worker_step_frame _ _ _ _ _ _ _ _ Hs H2) as [Ht Hl].
  constructor; cbn [p_w p_i p_ph]; try done.
  - apply worker_step_shape in Hs as [->|(th & th' & _ & -> & _)]; [done|]. by rewrite length_insert.
  - by eapply lock_ok_step.
  - intros t' th' Hth'. destruct (Ht t' th' Hth') as (th & Hth & -> & _). by apply H5.
  - intros th' Hp Hth'. destruct (Ht _ th' Hth') as (th & Hth & _ & Hf). by apply Hf, H6.
  - rewrite H7. symmetry. apply Hl. apply lookup_ge_None_2. lia.
  - intros t' Et. destruct (worker_step_shape _ _ _ _ _ _ _ _ Hs)
      as [->|(th & th' & Hth & _ & _ & _ & Hc)]; [by apply H8|].
    destruct Hc as [[E _]|[(_ & E & _)|[E _]]]; rewrite E in Et; [by apply H8| |done].
    injection Et as <-. apply lookup_lt_Some in Hth. lia.
Qed.

Lemma main_ok_main o p p' : main_ok p -> main_step n o p = Ok p' -> main_ok p'.
Proof.
  intros Hp Hs. pose proof Hp as [H1 H2 H3 H4 H5 H6 H7 H8]. destruct p as [w i ph].
  unfold main_step in Hs. cbn [p_w p_i p_ph] in *. destruct ph.
  - destruct (w_threads w !! i) as [th|] eqn:Hth; [|by injection Hs as <-].
    pose proof (lookup_lt_Some _ _ _ Hth). case_decide; injection Hs as <-; [|done].
    constructor; cbn [p_w p_i p_ph]; try done; [lia|congruence|].
    rewrite <- H7. naive_solver.
  - destruct (w_lock w) as [t|] eqn:El; injection Hs as <-; [done|].
    constructor; cbn [p_w p_i p_ph w_threads w_lock]; try done.
    + intros t th Hth. rewrite (H2 t th Hth). split; [done|]. intros [= ->].
      apply lookup_lt_Some in Hth. lia.
    + intros _. by apply H4.
    + intros th _. apply H6. by left.
    + naive_solver.
    + by intros t [= <-].
  - destruct (lookup_lt_is_Some_2 (w_threads w) i) as [th Hth]; [specialize (H4 ltac:(done)); lia|].
    rewrite Hth in Hs. destruct (write_to_stdout _ _ _) as [[r f] out]. injection Hs as <-.
    assert (Hl : w_lock w = Some n) by naive_solver.
    constructor; cbn [p_w p_i p_ph set_thread w_threads w_lock]; try done.
    + by rewrite length_insert.
    + apply (lock_ok_set (w_lock w) _ _ _ th); [done..| |done]. rewrite Hl. cbn.
      apply lookup_lt_Some in Hth. split; [naive_solver|]. intros [= E]. lia.
    + intros _. apply H4. done.
    + intros t tht Ht. cbn [consumed p_ph p_i].
      destruct (decide (t = i)) as [->|Hne].
      * rewrite list_lookup_insert_eq in Ht by by eapply lookup_lt_Some. injection Ht as <-. cbn.
        split; [lia|done].
      * rewrite list_lookup_insert_ne in Ht by done. rewrite (H5 t tht Ht). cbn. lia.
    + naive_solver.
    + rewrite Hl. naive_solver.
  - injection Hs as <-. assert (Hl : w_lock w = Some n) by naive_solver.
    constructor; cbn [p_w p_i p_ph w_threads w_lock]; try done.
    + intros t th Hth. rewrite (H2 t th Hth), Hl. split; [|done]. intros [= ->].
      apply lookup_lt_Some in Hth. lia.
    + specialize (H4 ltac:(done)). lia.
    + naive_solver.
    + naive_solver.
Qed.

Lemma main_ok_step t o p p' : main_ok p -> prog_step ef h n lines t o p = Ok p' -> main_ok p'.
Proof.
  unfold prog_step. intros Hp. destruct (Nat.eqb t n); [by apply main_ok_main|].
  intros H. inv_res. by eapply main_ok_worker.
Qed.

Lemma main_ok_run sched p p' : main_ok p -> run ef h n lines sched p = Ok p' -> main_ok p'.
Proof.
  revert p. induction sched as [|[t o] sched IH]; intros p Hp; cbn [run].
  - by intros [= <-].
  - intros H. inv_res. eapply IH; [|done]. by eapply main_ok_step.
Qed.

(** A thread, or [main] as thread [n], between taking and releasing the lock. *)
Definition in_critical (p : prog) (t : nat) : Prop :=
  (exists th, w_threads (p_w p) !! t = Some th /\ critical (th_phase th) = true) \/
  (t = n /\ (p_ph p = MWrite \/ p_ph p = MUnlock)).

Lemma in_critical_holds p t : main_ok p -> in_critical p t -> w_lock (p_w p) = Some t.
Proof.
  intros Hp [(th & Hth & Hc)|[-> Hc]].
  - by apply (mo_lock _ Hp t th Hth), critical_spec.
  - by apply (mo_main _ Hp).
Qed.
End Exclusion.

(** ** Schedules in which no call fails *)
Section Steps.
Context (ef : nat) (h : host) (n : nat) (items : list item).
Hypothesis Hn : (0 < n)%nat.
Hypothesis Hok : list_ok ef h items.

Notation lines := (map print_item items).
Notation inv := (inv ef h n items).
Notation fuel_of := (fuel_of items).

Definition quiet (sched : list nat) : list (nat * io) := map (fun t => (t, io_good)) sched.

Lemma inv_init : inv (world0 n) [] (replicate n []).
Proof.
  constructor; cbn [world0 w_threads w_out w_ino w_lock app].
  - apply Forall2_replicate. constructor; cbn; try done; try lia. unfold f_ok. cbn. lia.
  - apply length_replicate.
  - done.
  - rewrite concat_replicate_nil. unfold done_requests.
    assert (E : imap (fun t th => own n items t (progress th)) (replicate n worker0) = replicate n []).
    { apply list_eq. intros i. rewrite list_lookup_imap.
      destruct (decide (i < n)%nat) as [Hlt|Hge].
      - rewrite !lookup_replicate_2 by done. done.
      - by rewrite !lookup_ge_None_2 by (rewrite length_replicate; lia). }
    by rewrite E, concat_replicate_nil.
  - by rewrite concat_replicate_nil.
  - by rewrite concat_replicate_nil.
  - intros t th Ht. apply lookup_replicate in Ht as [-> _]. cbn. naive_solver.
  - intros i Hi. by apply not_elem_of_nil in Hi.
  - intros t th Ht. by apply lookup_replicate in Ht as [-> _].
Qed.

(** Only the lock changes. *)
Lemma inv_relock w flushed pend lock' :
  inv w flushed pend -> lock_ok lock' (w_threads w) ->
  inv (World (w_ino w) lock' (w_out w) (w_threads w) (w_freed w)) flushed pend.
Proof. intros [] H. by constructor. Qed.

(** [main] moves what is left in a returned worker's stream. *)
Lemma inv_consume w flushed pend t th p f out :
  inv w flushed pend -> w_threads w !! t = Some th -> pend !! t = Some p ->
  th_phase th = Finished -> f_ok f -> out = w_out w ++ enc ef h p ->
  inv (set_thread (World (w_ino w) (w_lock w) out (w_threads w) (w_freed w)) t
         (Worker (th_i th) Joined (MyState (offset (th_st th)) f)))
    (flushed ++ p) (<[t := []]> pend).
Proof.
  intros Hi Hth Hp Hph Hf ->. destruct (inv_thread _ _ _ _ _ _ _ _ _ Hi Hth) as (_ & p' & Hp' & Hok').
  rewrite Hp in Hp'. injection Hp' as <-.
  apply (inv_set _ _ _ _ w flushed pend t th p _ [] _ []); try done.
  - constructor; cbn [th_st th_i th_phase fp]; try done; [apply Hok'|].
    intros _. apply (to_done _ _ _ _ _ Hok'). by rewrite Hph.
  - by rewrite enc_app, (inv_out _ _ _ _ _ _ _ Hi).
  - pose proof (concat_insert pend t p [] Hp) as C. rewrite app_nil_r in C |- *.
    rewrite <- C. solve_Permutation.
  - unfold progress. rewrite Hph. cbn. by rewrite app_nil_r.
  - cbn. lia.
  - rewrite <- (inv_lock _ _ _ _ _ _ _ Hi t th Hth), Hph. cbn. naive_solver.
  - unfold cleared. by rewrite Hph.
  - auto.
Qed.

(** The turns the main thread still needs once the workers have returned. *)
Definition main_fuel (p : prog) : nat :=
  4 * (n - p_i p) - match p_ph p with MJoin => 0 | MLock => 1 | MWrite => 2 | MUnlock => 3 end.

Definition all_ended (p : prog) : Prop :=
  Forall (fun th => ended (th_phase th) = true) (w_threads (p_w p)).

Definition good (p : prog) : Prop :=
  main_ok n p /\ exists flushed pend, inv (p_w p) flushed pend.

(** What a step leaves to do: nobody loses ground, the thread that moves gains. *)
Record advances (who : nat) (p p' : prog) : Prop := {
  ad_good : good p';
  ad_workers t th : w_threads (p_w p) !! t = Some th -> exists th',
    w_threads (p_w p') !! t = Some th' /\
    (fuel_of th' <= fuel_of th - Nat.b2n (Nat.eqb who t))%nat;
  ad_main : (main_fuel p' <= main_fuel p)%nat;
  ad_main_turn : who = n -> all_ended p -> (main_fuel p' <= main_fuel p - 1)%nat;
}.

Lemma ended_fuel th p :
  thread_ok ef h items th p -> (fuel_of th <= 0)%nat <-> ended (th_phase th) = true.
Proof.
  intros [_ _ Hl _ _ _]. unfold fuel_of. destruct (th_phase th); cbn; split; intros Hf; try done;
    exfalso; try lia; specialize (Hl eq_refl); lia.
Qed.

Lemma worker_advances t p :
  good p -> t <> n -> reads_freed lines t (p_w p) = false ->
  exists p', prog_step ef h n lines t io_good p = Ok p' /\ advances t p p'.
Proof.
  intros [Hm (flushed & pend & Hi)] Ht Hrf. unfold prog_step. rewrite (proj2 (Nat.eqb_neq t n)) by done.
  destruct (worker_step_steps ef h n items Hn Hok _ _ _ t Hi Hrf) as (w' & E & Hi' & Hs).
  rewrite E, bind_Ok. eexists. split; [reflexivity|]. constructor; cbn [p_w p_i p_ph]; try done.
  - split; [by eapply main_ok_worker|done].
  - intros t' th Hth. destruct (w_threads (p_w p) !! t) as [th0|] eqn:E0.
    + destruct (Hs th0 eq_refl) as (th1 & -> & Hf). destruct (Nat.eqb_spec t t') as [<-|Hne]; cbn.
      * rewrite Hth in E0. injection E0 as <-. exists th1.
        by rewrite list_lookup_insert_eq by by eapply lookup_lt_Some.
      * exists th. rewrite list_lookup_insert_ne by done. split; [done|lia].
    + unfold worker_step in E. rewrite E0 in E. injection E as <-. exists th. split; [done|].
      destruct (Nat.eqb_spec t t') as [->|]; [congruence|]. cbn. lia.
Qed.

(** What is to be shown of a step of the main thread. *)
Lemma main_step_advances p p' :
  good p -> main_step n io_good p = Ok p' ->
  (exists flushed pend, inv (p_w p') flushed pend) ->
  (forall t th, w_threads (p_w p) !! t = Some th -> exists th',
     w_threads (p_w p') !! t = Some th' /\ (fuel_of th' <= fuel_of th)%nat) ->
  (main_fuel p' <= main_fuel p)%nat ->
  (all_ended p -> (main_fuel p' <= main_fuel p - 1)%nat) ->
  exists p', main_step n io_good p = Ok p' /\ advances n p p'.
Proof.
  intros [Hm _] E H1 H2 H3 H4. exists p'. split; [done|]. constructor; try done.
  - split; [by eapply main_ok_main|done].
  - intros t th Hth. destruct (H2 t th Hth) as (th' & ? & ?). exists th'. split; [done|].
    destruct (Nat.eqb_spec n t) as [->|]; [|cbn; lia].
    apply lookup_lt_Some in Hth. rewrite (mo_n _ _ Hm) in Hth. lia.
Qed.

Lemma main_advances p :
  good p -> exists p', prog_step ef h n lines n io_good p = Ok p' /\ advances n p p'.
Proof.
  intros Hg. unfold prog_step. rewrite Nat.eqb_refl.
  pose proof (main_step_advances p) as Same. destruct Hg as [Hm (flushed & pend & Hi)].
  specialize (fun p' => Same p' (conj Hm (ex_intro _ flushed (ex_intro _ pend Hi)))).
  pose proof (mo_n _ _ Hm) as Hlen. pose proof (mo_busy _ _ Hm) as Hb.
  assert (Keep : forall t th, w_threads (p_w p) !! t = Some th -> exists th',
    w_threads (p_w p) !! t = Some th' /\ (fuel_of th' <= fuel_of th)%nat) by (intros; eauto).
  destruct p as [w i ph]. unfold main_step, main_fuel, all_ended in *. cbn [p_w p_i p_ph] in *.
  destruct ph; [|specialize (Hb ltac:(done))..].
  - destruct (w_threads w !! i) as [th|] eqn:Hth.
    2: { eapply Same; [done|by do 2 eexists|done|done|]. intros _. cbn [p_ph p_i].
         apply lookup_ge_None_1 in Hth. lia. }
    pose proof (lookup_lt_Some _ _ _ Hth). destruct (decide (th_phase th = Finished)) as [Hf|Hf].
    + eapply Same; [done|by do 2 eexists|done|..]; cbn [p_ph p_i]; lia.
    + eapply Same; [done|by do 2 eexists|done|done|]. intros He.
      rewrite Forall_lookup in He. specialize (He i th Hth).
      pose proof (mo_joined _ _ Hm i th Hth) as Hj. cbn [consumed p_ph p_i] in Hj.
      destruct (th_phase th); try done. exfalso. apply (Nat.lt_irrefl i). by apply Hj.
  - destruct (w_lock w) as [t|] eqn:El.
    + eapply Same; [done|by do 2 eexists|done|done|]. intros He. exfalso.
      destruct (w_threads w !! t) as [th|] eqn:Hth.
      * rewrite Forall_lookup in He. specialize (He t th Hth).
        apply (mo_lock _ _ Hm t th Hth) in El. destruct El as [El|El]; by rewrite El in He.
      * pose proof (mo_holder _ _ Hm t El). apply lookup_ge_None_1 in Hth. cbn [p_w] in *.
        replace t with n in El by lia. apply (mo_main _ _ Hm) in El. by destruct El.
    + eapply Same; [reflexivity| |exact Keep|..]; cbn [p_ph p_i p_w]; [|lia..]. exists flushed, pend.
      apply inv_relock; [done|].
      apply (mo_lock _ _ (main_ok_main n io_good _ _ Hm ltac:(unfold main_step; cbn; by rewrite El))).
  - destruct (lookup_lt_is_Some_2 (w_threads w) i) as [th Hth]; [lia|]. rewrite Hth in Same |- *.
    pose proof (mo_finished _ _ Hm th (or_intror eq_refl) Hth) as Hf.
    destruct (inv_thread _ _ _ _ _ _ _ _ _ Hi Hth) as (_ & p & Hp & [Hfile _ _ _ Hd _]).
    destruct (Hd ltac:(by rewrite Hf)) as [Hw _].
    destruct (write_to_stdout_good (fp (th_st th)) (w_out w) Hfile) as (r & f' & E & Hf' & _).
    { rewrite Hw. by eapply inv_pend_size. }
    rewrite E in Same |- *. eapply Same; [reflexivity| | |..]; cbn [p_ph p_i p_w]; [| |lia..].
    + do 2 eexists. eapply inv_consume; try done. by rewrite Hw.
    + cbn [set_thread w_threads]. intros t th' Ht. destruct (decide (t = i)) as [->|Hne].
      * rewrite list_lookup_insert_eq by by eapply lookup_lt_Some. eexists. split; [done|]. cbn. lia.
      * rewrite list_lookup_insert_ne by done. by exists th'.
  - eapply Same; [reflexivity| |exact Keep|..]; cbn [p_ph p_i p_w]; [|lia..]. exists flushed, pend.
    apply inv_relock; [done|]. apply (mo_lock _ _ (main_ok_main n io_good _ _ Hm eq_refl)).
Qed.

(** *** Whole schedules *)

Lemma run_app sched1 sched2 p :
  run ef h n lines (sched1 ++ sched2) p = (p ← run ef h n lines sched1 p; run ef h n lines sched2 p).
Proof.
  revert p. induction sched1 as [|[t o] sched1 IH]; intros p; [done|]. cbn [run app].
  rewrite bind_assoc. destruct (prog_step ef h n lines t o p); [|done..]. by rewrite !bind_Ok.
Qed.

Lemma run_good sched p :
  good p -> late_read ef h n lines (quiet sched) p = false ->
  exists p', run ef h n lines (quiet sched) p = Ok p' /\ good p' /\
    (forall t th, w_threads (p_w p) !! t = Some th -> exists th', w_threads (p_w p') !! t = Some th' /\
       (fuel_of th' <= fuel_of th - count_occ Nat.eq_dec sched t)%nat) /\
    (main_fuel p' <= main_fuel p)%nat /\
    (all_ended p -> (main_fuel p' <= main_fuel p - count_occ Nat.eq_dec sched n)%nat).
Proof.
  revert p. induction sched as [|t sched IH]; intros p Hp Hl.
  { exists p. split; [done|]. split; [done|]. split; [|split; [done|cbn; lia]].
    intros t th Hth. exists th. cbn. split; [done|lia]. }
  assert (Hs : exists p', prog_step ef h n lines t io_good p = Ok p' /\ advances t p p').
  { cbn [quiet map late_read] in Hl. apply orb_false_iff in Hl as [Hl _].
    destruct (decide (t = n)) as [->|Hne]; [by apply main_advances|].
    rewrite (proj2 (Nat.eqb_neq t n)) in Hl by done. by apply worker_advances. }
  destruct Hs as (p1 & E & [Hg Hw Hm Hmt]).
  cbn [quiet map late_read] in Hl. rewrite E in Hl. apply orb_false_iff in Hl as [_ Hl].
  destruct (IH p1 Hg Hl) as (p' & E' & Hg' & Hw' & Hm' & Hmt').
  exists p'. cbn [quiet map run]. rewrite E, bind_Ok. split; [exact E'|]. split; [done|].
  split; [|split; [lia|]].
  - intros t' th Hth. destruct (Hw t' th Hth) as (th1 & Hth1 & Hf).
    destruct (Hw' t' th1 Hth1) as (th' & Hth' & Hf'). exists th'. split; [done|].
    cbn [count_occ]. destruct (Nat.eqb_spec t t') as [->|]; cbn in Hf.
    + destruct (Nat.eq_dec t' t'); [lia|done].
    + destruct (Nat.eq_dec t t'); [done|lia].
  - intros He. assert (He1 : all_ended p1).
    { apply Forall_lookup. intros t' th1 Hth1. destruct Hp as [Hmo (fl & pend & Hi)], Hg as [Hmo1 (fl1 & pend1 & Hi1)].
      destruct (lookup_lt_is_Some_2 (w_threads (p_w p)) t') as [th Hth].
      { apply lookup_lt_Some in Hth1. rewrite (mo_n _ _ Hmo1) in Hth1. by rewrite (mo_n _ _ Hmo). }
      destruct (Hw t' th Hth) as (th' & Hth' & Hf). rewrite Hth1 in Hth'. injection Hth' as <-.
      destruct (inv_thread _ _ _ _ _ _ _ _ _ Hi Hth) as (_ & q & _ & Hok1).
      destruct (inv_thread _ _ _ _ _ _ _ _ _ Hi1 Hth1) as (_ & q1 & _ & Hok2).
      apply (ended_fuel _ _ Hok2). pose proof (proj1 (Forall_lookup _ _) He t' th Hth) as Het.
      apply (ended_fuel _ _ Hok1) in Het. lia. }
    specialize (Hmt' He1). cbn [count_occ]. destruct (Nat.eq_dec t n) as [Et|]; [|lia].
    specialize (Hmt Et He). lia.
Qed.

(** A fair schedule: every worker gets enough turns to deal with all the lines, and
    after that the main thread gets enough to flush all the streams. Whoever else
    moves, and however the turns are interleaved, does not matter. *)
Definition fair (sched : list nat) : Prop :=
  exists sched1 sched2, sched = sched1 ++ sched2 /\
    (forall t, (t < n)%nat -> (5 * length items + 1 <= count_occ Nat.eq_dec sched1 t)%nat) /\
    (4 * n <= count_occ Nat.eq_dec sched2 n)%nat.

(** An infinite schedule in which every thread gets turns again and again is fair from
    some point on. *)
Definition turns (s : nat -> nat) (i k : nat) : list nat := map s (seq i k).

Lemma turns_more s t i k k' :
  (k <= k')%nat -> (count_occ Nat.eq_dec (turns s i k) t <= count_occ Nat.eq_dec (turns s i k') t)%nat.
Proof.
  intros Hk. unfold turns. replace k' with (k + (k' - k))%nat by lia.
  rewrite seq_app, map_app, count_occ_app. lia.
Qed.

Lemma turns_enough s t m : (forall i, exists j, (i <= j)%nat /\ s j = t) ->
  forall i, exists k, (m <= count_occ Nat.eq_dec (turns s i k) t)%nat.
Proof.
  intros Ht. induction m as [|m IH]; intros i; [exists 0%nat; lia|].
  destruct (Ht i) as (j & Hj & E). destruct (IH (S j)) as [k Hk].
  exists ((j - i) + S k)%nat. unfold turns in *. rewrite seq_app, map_app, count_occ_app.
  replace (i + (j - i))%nat with j by lia. cbn. rewrite E. destruct (Nat.eq_dec t t); [lia|done].
Qed.

Lemma turns_all s m c :
  (forall t, (t < c)%nat -> forall i, exists j, (i <= j)%nat /\ s j = t) ->
  exists k, forall t, (t < c)%nat -> (m <= count_occ Nat.eq_dec (turns s 0 k) t)%nat.
Proof.
  induction c as [|c IH]; intros Ht; [exists 0%nat; lia|].
  destruct IH as [k Hk]; [by intros; apply Ht; lia|].
  destruct (turns_enough s c m (Ht c ltac:(lia)) 0%nat) as [k' Hk'].
  exists (k + k')%nat. intros t Hlt. destruct (decide (t = c)) as [->|].
  - pose proof (turns_more s c 0 k' (k + k') ltac:(lia)). lia.
  - pose proof (turns_more s t 0 k (k + k') ltac:(lia)). specialize (Hk t ltac:(lia)). lia.
Qed.

Lemma fair_turns s :
  (forall t, (t <= n)%nat -> forall i, exists j, (i <= j)%nat /\ s j = t) ->
  exists k, forall k', (k <= k')%nat -> fair (turns s 0 k').
Proof.
  intros Hs. destruct (turns_all s (5 * length items + 1) n) as [k1 H1]; [by intros; apply Hs; lia|].
  destruct (turns_enough s n (4 * n) (Hs n ltac:(lia)) k1) as [k2 H2].
  exists (k1 + k2)%nat. intros k' Hk. exists (turns s 0 k1), (turns s k1 (k' - k1)).
  split; [|split; [done|pose proof (turns_more s n k1 k2 (k' - k1) ltac:(lia)); lia]].
  unfold turns. rewrite <- map_app. f_equal.
  replace k' with (k1 + (k' - k1))%nat at 1 by lia. by rewrite seq_app.
Qed.

Lemma late_read_app s1 s2 p p1 :
  run ef h n lines s1 p = Ok p1 ->
  late_read ef h n lines (s1 ++ s2) p = late_read ef h n lines s1 p || late_read ef h n lines s2 p1.
Proof.
  revert p. induction s1 as [|[t o] s1 IH]; intros p; cbn [run app late_read].
  - by intros [= <-].
  - destruct (prog_step ef h n lines t o p) as [p'| |]; [|done..]. rewrite bind_Ok.
    intros E. by rewrite (IH _ E), orb_assoc.
Qed.

Lemma late_read_prefix s1 s2 p :
  late_read ef h n lines s1 p = true -> late_read ef h n lines (s1 ++ s2) p = true.
Proof.
  revert p. induction s1 as [|[t o] s1 IH]; intros p; cbn [app late_read]; [done|].
  rewrite !orb_true_iff. intros [H|H]; [by left|right].
  destruct (prog_step ef h n lines t o p); [|done..]. by apply IH.
Qed.

(** The reader of a freed line is not its owner: there are two workers. *)
Lemma reads_freed_two p t : good p -> reads_freed lines t (p_w p) = true -> (2 <= n)%nat.
Proof.
  intros [_ (flushed & pend & Hi)]. unfold reads_freed.
  destruct (w_threads (p_w p) !! t) as [th|] eqn:Hth; [|done].
  rewrite !andb_true_iff, !bool_decide_eq_true. intros [[Hph _] Hfr].
  destruct (inv_freed _ _ _ _ _ _ _ Hi _ Hfr) as (th1 & Hth1 & Hc).
  pose proof (lookup_lt_Some _ _ _ Hth) as H1. pose proof (lookup_lt_Some _ _ _ Hth1) as H2.
  rewrite (inv_n _ _ _ _ _ _ _ Hi) in H1, H2.
  destruct (decide (owner n (th_i th) = t)) as [E|]; [|lia]. exfalso.
  rewrite E, Hth in Hth1. injection Hth1 as <-. unfold cleared in Hc. rewrite Hph in Hc. lia.
Qed.

Lemma late_read_two sched p :
  good p -> late_read ef h n lines (quiet sched) p = true -> (2 <= n)%nat.
Proof.
  revert p. induction sched as [|t sched IH]; intros p Hp; [done|]. cbn [quiet map late_read].
  destruct (decide (t = n)) as [->|Hne].
  - rewrite Nat.eqb_refl. cbn [negb andb orb].
    destruct (main_advances p Hp) as (p' & -> & [Hg _ _ _]). by apply IH.
  - rewrite (proj2 (Nat.eqb_neq t n)) by done. cbn [negb andb].
    destruct (reads_freed lines t (p_w p)) eqn:E; [by intros _; eapply reads_freed_two|].
    destruct (worker_advances t p Hp Hne E) as (p' & -> & [Hg _ _ _]). by apply IH.
Qed.

Lemma good_init : good (prog0 n).
Proof. split; [apply main_ok_init|]. do 2 eexists. apply inv_init. Qed.

Lemma fair_finishes sched :
  fair sched -> late_read ef h n lines (quiet sched) (prog0 n) = false ->
  exists p, run ef h n lines (quiet sched) (prog0 n) = Ok p /\ good p /\
    main_done n p = true.
Proof.
  intros (s1 & s2 & -> & Hs1 & Hs2). unfold quiet. rewrite map_app, run_app.
  fold (quiet s1) (quiet s2). intros Hl.
  assert (Hl1 : late_read ef h n lines (quiet s1) (prog0 n) = false).
  { destruct (late_read _ _ _ _ (quiet s1) _) eqn:E; [|done].
    rewrite <- Hl. symmetry. by apply late_read_prefix. }
  destruct (run_good s1 (prog0 n) good_init Hl1) as (p1 & E1 & Hg1 & Hw1 & Hm1 & _).
  rewrite (late_read_app _ _ _ _ E1), Hl1 in Hl. rewrite E1, bind_Ok.
  destruct (run_good s2 p1 Hg1 Hl) as (p2 & E & Hg2 & Hw2 & _ & Hm2).
  exists p2. split; [exact E|]. split; [done|].
  assert (He : all_ended p1).
  { apply Forall_lookup. intros t th1 Hth1. destruct Hg1 as [Hmo (fl & pend & Hi)].
    destruct (inv_thread _ _ _ _ _ _ _ _ _ Hi Hth1) as (Ht & q & _ & Hok').
    destruct (Hw1 t worker0) as (th' & Hth' & Hf); [by apply lookup_replicate_2|].
    rewrite Hth1 in Hth'. injection Hth' as <-. apply (ended_fuel _ _ Hok'). specialize (Hs1 t Ht).
    unfold fuel_of at 2 in Hf. cbn [worker0 th_phase th_i] in Hf. lia. }
  specialize (Hm2 He). unfold main_fuel in Hm2, Hm1. cbn [prog0 p_i p_ph] in Hm1.
  destruct Hg2 as [Hmo _]. pose proof (mo_i _ _ Hmo). pose proof (mo_busy _ _ Hmo) as Hb.
  unfold main_done. apply andb_true_iff. rewrite Nat.eqb_eq, bool_decide_eq_true.
  destruct (p_ph p2); [split; [lia|done]|specialize (Hb ltac:(done)); lia..].
Qed.

(** Two workers are enough: the owner of the first line deals with it and frees it
    before the other one has looked at it. *)
Lemma late_read_first r s :
  (2 <= n)%nat -> items !! 0%nat = Some (IReq r) ->
  late_read ef h n lines (quiet (1 :: 1 :: 0 :: s)%nat) (prog0 n) = true.
Proof.
  intros H2 Hr. change (quiet (1 :: 1 :: 0 :: s)%nat) with (quiet [1; 1; 0]%nat ++ quiet s).
  apply late_read_prefix.
  assert (Ho : owner n 0 = 1%nat) by (unfold owner; apply Nat.mod_small; lia).
  destruct (worker_request ef h n items Hn Hok (world0 n) [] (replicate n []) 1 worker0 [] r
    inv_init) as (st' & Eh & _); try done; try (by apply lookup_replicate_2; lia).
  assert (Hlen : (0 <? length lines)%nat = true).
  { apply Nat.ltb_lt. rewrite length_map. by eapply lookup_lt_Some. }
  assert (E1 : (1 =? n)%nat = false /\ (0 =? n)%nat = false) by (by rewrite !Nat.eqb_neq; lia).
  destruct E1 as [E1 E0].
  set (w1 := World 722 None [] (<[1%nat := Worker 0 AtFree st']> (replicate n worker0)) []).
  assert (S1 : prog_step ef h n lines 1 io_good (prog0 n) = Ok (Prog w1 0 MJoin)).
  { unfold prog_step. rewrite E1. cbn [prog0 p_w p_i p_ph]. unfold worker_step.
    change (w_threads (world0 n)) with (replicate n worker0).
    rewrite lookup_replicate_2 by lia. cbn [worker0 th_phase]. unfold worker_line.
    change (th_i worker0) with 0%nat. rewrite list_lookup_fmap, Hr. cbn [fmap option_fmap option_map].
    rewrite bool_decide_true by (by apply not_elem_of_nil). cbn [ub_unless]. rewrite bind_Ok.
    rewrite owner_test by lia. rewrite Ho. cbn [Nat.eqb negb print_item th_st]. by rewrite Eh. }
  set (w2 := World 722 None [] (<[1%nat := Worker 0 AtTry st']> (replicate n worker0)) [0%nat]).
  assert (S2 : prog_step ef h n lines 1 io_good (Prog w1 0 MJoin) = Ok (Prog w2 0 MJoin)).
  { unfold prog_step. rewrite E1. cbn [p_w p_i p_ph]. unfold worker_step. cbn [w1 w_threads].
    rewrite list_lookup_insert_eq by (rewrite length_replicate; lia). cbn [th_phase].
    unfold set_thread. cbn [w_ino w_lock w_out w_threads w_freed th_i th_st w1].
    by rewrite list_insert_insert_eq. }
  cbn [quiet map late_read]. rewrite S1, S2, E0. cbn [p_w]. unfold reads_freed. cbn [w2 w_threads w_freed].
  rewrite list_lookup_insert_ne, lookup_replicate_2 by (done || lia). cbn [worker0 th_phase th_i].
  rewrite Hlen. by rewrite !orb_true_r.
Qed.

(** The end of the program: everything that was assigned an inode is on standard
    output, followed by the trailer. *)
Lemma main_threads_output sched :
  fair sched -> late_read ef h n lines (quiet sched) (prog0 n) = false ->
  exists asg, main_threads ef h n lines (quiet sched) =
      Ok (Some (enc ef h asg ++ encode trailer_entry ++ zeros 388)) /\
    asg.*1 ≡ₚ requests items /\ asg.*2 ≡ₚ seqZ 721 (Z.of_nat (length (requests items))).
Proof.
  intros Hfair Hl. destruct (fair_finishes sched Hfair Hl) as (p & E & [Hmo (flushed & pend & Hi)] & Hd).
  pose proof Hd as Hd'. unfold main_done in Hd'. apply andb_true_iff in Hd' as [Epi Eph].
  apply Nat.eqb_eq in Epi. apply bool_decide_eq_true in Eph.
  assert (Hj : forall t th, w_threads (p_w p) !! t = Some th -> th_phase th = Joined).
  { intros t th Hth. apply (mo_joined _ _ Hmo t th Hth). unfold consumed. rewrite Eph, Epi.
    rewrite <- (mo_n _ _ Hmo). by eapply lookup_lt_Some. }
  assert (Hpend : concat pend = []).
  { apply concat_nil_Forall, Forall_lookup. intros t q Hq.
    destruct (Forall2_lookup_r _ _ _ _ _ (inv_threads _ _ _ _ _ _ _ Hi) Hq) as (th & Hth & Hok').
    apply (to_flushed _ _ _ _ _ Hok'). by rewrite (Hj t th Hth). }
  exists flushed.
  assert (Hreq : flushed.*1 ≡ₚ requests items).
  { pose proof (inv_reqs _ _ _ _ _ _ _ Hi) as R. rewrite Hpend, app_nil_r in R.
    rewrite R, <- req_at_all, <- (own_partition n) by done.
    apply reflexive_eq. unfold done_requests. f_equal. apply list_eq. intros t.
    rewrite list_lookup_imap, list_lookup_fmap.
    destruct (w_threads (p_w p) !! t) as [th|] eqn:Hth.
    - destruct (inv_thread _ _ _ _ _ _ _ _ _ Hi Hth) as (Ht & q & _ & Hok').
      rewrite lookup_seq_lt by done. cbn [fmap option_fmap option_map Nat.add]. f_equal.
      unfold progress. rewrite (Hj t th Hth). rewrite (to_done _ _ _ _ _ Hok'); [done|].
      by rewrite (Hj t th Hth).
    - apply lookup_ge_None_1 in Hth. rewrite (mo_n _ _ Hmo) in Hth.
      by rewrite (lookup_ge_None_2 (seq 0 n)) by (rewrite length_seq; lia). }
  split; [|split; [done|]].
  - unfold main_threads. rewrite E, bind_Ok, Hd.
    rewrite ub_unless_true by (apply Nat.ltb_lt; lia). rewrite (inv_out _ _ _ _ _ _ _ Hi).
    rewrite cpio_trailer_emit by (done || apply Nat.le_refl). rewrite bind_Ok.
    cbn [emit fp fput f_data f_pos]. rewrite firstn_all.
    rewrite drop_ge by lia. by rewrite app_nil_r.
  - pose proof (inv_ino _ _ _ _ _ _ _ Hi) as I. rewrite Hpend, app_nil_r in I. rewrite I.
    apply Permutation_length in Hreq. by rewrite <- Hreq, length_fmap.
Qed.
End Steps.

(** ** The entries are representable *)

Lemma field_ok_lor a b : field_ok a -> field_ok b -> field_ok (Z.lor a b).
Proof.
  unfold field_ok. intros Ha Hb.
  assert (E : Z.lor a b = Z.lor a b mod 2 ^ 32).
  { rewrite <- Z.land_ones, Z.land_lor_distr_l, !Z.land_ones by lia.
    by rewrite !Z.mod_small by lia. }
  rewrite E. apply Z.mod_pos_bound. lia.
Qed.

Lemma entry_sizes_ok e :
  Z.of_nat (length (encode e)) <= INT_MAX -> field_ok (n_filesize e) /\ field_ok (n_namesize e).
Proof.
  rewrite encode_length. pose proof (pad4_range (110 + n_namesize e)).
  pose proof (pad4_range (n_filesize e)). unfold field_ok, n_filesize, n_namesize, INT_MAX in *. lia.
Qed.

Lemma file_entries_length mtime ino mode uid gid nlinks data names :
  (length names <= length (flat_map encode (file_entries mtime ino mode uid gid nlinks data names)))%nat.
Proof.
  induction names as [|name names IH]; [done|]. cbn [file_entries flat_map length].
  set (e := Newc _ _ _ _ _ _ _ _ _ _ _ _ _). rewrite length_app. fold e in IH.
  pose proof (encode_length e). pose proof (pad4_range (110 + n_namesize e)).
  pose proof (pad4_range (n_filesize e)). unfold n_filesize, n_namesize in *. lia.
Qed.

Lemma newc_ok_intro e :
  field_ok (n_ino e) -> field_ok (n_mode e) -> field_ok (n_uid e) -> field_ok (n_gid e) ->
  field_ok (n_nlink e) -> field_ok (n_mtime e) -> field_ok (n_filesize e) ->
  field_ok (n_major e) -> field_ok (n_minor e) -> field_ok (n_rmajor e) -> field_ok (n_rminor e) ->
  field_ok (n_namesize e) -> field_ok (n_chksum e) -> newc_ok e.
Proof. intros. unfold newc_ok, fields. by repeat (apply Forall_cons_2; [done|]). Qed.

Lemma file_entries_ok mtime ino mode uid gid nlinks data names :
  field_ok mtime -> field_ok ino -> field_ok mode -> field_ok nlinks ->
  Z.of_nat (length (flat_map encode (file_entries mtime ino mode uid gid nlinks data names)))
    <= INT_MAX ->
  Forall newc_ok (file_entries mtime ino mode uid gid nlinks data names).
Proof.
  intros Hm Hi Hmo Hn. induction names as [|name names IH]; intros Hsz; [constructor|].
  cbn [file_entries flat_map] in *. set (e := Newc _ _ _ _ _ _ _ _ _ _ _ _ _) in *.
  rewrite length_app in Hsz. constructor; [|apply IH; lia].
  destruct (entry_sizes_ok e) as [H1 H2]; [lia|].
  apply newc_ok_intro; try done; try apply uwrap_field_ok. by apply field_ok_lor.
Qed.

Lemma request_entries_ok ef h ino r :
  request_wf ef h r -> field_ok (default_mtime h) -> field_ok ino ->
  Z.of_nat (rsize ef h r) <= INT_MAX -> Forall newc_ok (request_entries ef h ino r).
Proof.
  intros [_ Hwf] Hm Hi Hsz. rewrite <- (rsize_ino ef h ino) in Hsz.
  assert (Single : forall e, Z.of_nat (length (flat_map encode [e])) <= INT_MAX ->
    field_ok (n_filesize e) /\ field_ok (n_namesize e)).
  { intros e H. cbn [flat_map] in H. rewrite app_nil_r in H. by apply entry_sizes_ok. }
  destruct r as [gt name mode uid gid|name mode uid gid ty maj min|name target mode uid gid
                |name loc mode uid gid links]; cbn [request_entries] in *.
  - destruct (Single _ Hsz), Hwf as (? & _). apply Forall_singleton.
    apply newc_ok_intro; try done; try apply uwrap_field_ok.
    apply field_ok_lor; [done|]. by destruct gt.
  - destruct (Single _ Hsz), Hwf as (? & _ & _ & ? & ? & _). apply Forall_singleton.
    apply newc_ok_intro; try done; try apply uwrap_field_ok.
    apply field_ok_lor; [done|]. by case_bool_decide.
  - destruct (Single _ Hsz), Hwf as (_ & ? & _). apply Forall_singleton.
    apply newc_ok_intro; try done; try apply uwrap_field_ok. by apply field_ok_lor.
  - destruct Hwf as (_ & ? & _ & _ & _ & _ & loc' & node & data & He & Hf & Hn).
    unfold file_node in *. rewrite He, Hf in *. pose proof Hn as (_ & _ & Hr & _ & Ht & _).
    cbn [mbind option_bind] in *. rewrite Hr in *. cbn [mbind option_bind] in *.
    apply file_entries_ok; try done.
    pose proof (file_entries_length (fs_mtime node) ino mode uid gid
      (1 + Z.of_nat (length links)) data (name :: links)) as L.
    cbn [length] in L. unfold field_ok, INT_MAX in *. lia.
Qed.

Lemma assigned_ok ef h items asg :
  list_ok ef h items -> asg.*1 ⊆+ requests items -> Forall field_ok asg.*2 ->
  Forall newc_ok (assigned_entries ef h asg).
Proof.
  intros Hok Hsub Hino. apply Forall_flat_map, Forall_forall. intros [r ino] Hp. cbn [fst snd].
  assert (Hr : r ∈ asg.*1) by (apply list_elem_of_fmap; by exists (r, ino)).
  assert (Hs : [r] ⊆+ requests items).
  { etransitivity; [|exact Hsub]. by apply singleton_submseteq_l. }
  assert (Hin : r ∈ requests items) by by apply singleton_submseteq_l.
  apply request_entries_ok.
  - apply list_elem_of_In, in_flat_map in Hin as (it & Hit & Hrit).
    pose proof (lo_wf _ _ _ Hok) as F. rewrite Forall_forall in F.
    apply list_elem_of_In in Hit. specialize (F it Hit).
    destruct it as [|r']; [done|]. cbn in Hrit. destruct Hrit as [->|[]]. exact F.
  - apply Hok.
  - rewrite Forall_forall in Hino. apply Hino, list_elem_of_fmap. by exists (r, ino).
  - apply (total_size_submseteq ef h) in Hs. pose proof (lo_room _ _ _ Hok).
    unfold total_size in *. cbn in Hs. lia.
Qed.

Definition request_names (r : request) : list (list ascii) :=
  match r with RFile name _ _ _ _ links => name :: links | _ => [(operands r).1] end.

(** No file of the list is called TRAILER!!!. *)
Definition no_trailer (items : list item) : Prop :=
  Forall (fun r => Forall (fun name => strip_slash name <> trailer_name) (request_names r))
    (requests items).

Lemma request_entries_names ef h ino r :
  Forall (fun name => strip_slash name <> trailer_name) (request_names r) ->
  Forall (fun e => n_name e <> trailer_name) (request_entries ef h ino r).
Proof.
  destruct r as [gt name mode uid gid|name mode uid gid ty maj min|name target mode uid gid
                |name loc mode uid gid links]; cbn [request_entries request_names operands fst];
    try (rewrite !Forall_singleton; done).
  destruct (file_node ef h loc) as [[node data]|]; [|done].
  generalize (name :: links). induction 1; cbn [file_entries]; by constructor.
Qed.

Lemma assigned_names ef h items asg :
  no_trailer items -> asg.*1 ⊆+ requests items ->
  Forall (fun e => n_name e <> trailer_name) (assigned_entries ef h asg).
Proof.
  intros Hn Hsub. apply Forall_flat_map, Forall_forall. intros [r ino] Hp. cbn [fst snd].
  apply request_entries_names. unfold no_trailer in Hn. rewrite Forall_forall in Hn. apply Hn.
  apply (elem_of_submseteq asg.*1); [|done]. apply list_elem_of_fmap. by exists (r, ino).
Qed.

(** ** The theorems *)

(** Unpacking standard output gives exactly the entries of all the requests, in some
    order, the requests having been given distinct consecutive inode numbers. *)
Lemma main_threads_archive ef h n items sched :
  (0 < n)%nat -> list_ok ef h items -> no_trailer items -> fair n items sched ->
  late_read ef h n (map print_item items) (quiet sched) (prog0 n) = false ->
  exists out asg,
    main_threads ef h n (map print_item items) (quiet sched) = Ok (Some out) /\
    asg.*1 ≡ₚ requests items /\ asg.*2 ≡ₚ seqZ 721 (Z.of_nat (length (requests items))) /\
    unpack (S (length (assigned_entries ef h asg))) out = Some (assigned_entries ef h asg).
Proof.
  intros Hn Hok Htr Hfair Hl.
  destruct (main_threads_output ef h n items Hn Hok sched Hfair Hl) as (asg & E & H1 & H2).
  exists (enc ef h asg ++ encode trailer_entry ++ zeros 388), asg. split; [done|].
  split; [done|]. split; [done|]. apply unpack_archive; [| | | |lia].
  - eapply assigned_ok; [done|by rewrite H1|]. rewrite H2. apply Forall_forall.
    intros i Hi%elem_of_seqZ. pose proof (lo_ino _ _ _ Hok). unfold field_ok. lia.
  - eapply assigned_names; [done|by rewrite H1].
  - apply newc_ok_intro; by vm_compute.
  - done.
Qed.

Definition items0 : list item :=
  [IComment (chars " a list"); IReq (RGeneric GT_DIR (chars "/dev") 0x1ED 0 0);
   IReq (RNod (chars "/dev/console") 0x180 0 0 "c"%char 5 1); IReq request0].

(** Every worker has looked at a line before its owner frees it; the main thread,
    number 3, tries to flush while the workers are at work. *)
Definition sched0 : list nat :=
  ([0; 0; 1; 1; 1] ++ concat (replicate 9 [3; 2]) ++ concat (replicate 21 [0; 3; 2]) ++
   concat (replicate 21 [1; 3; 0]) ++ concat (replicate 12 [3; 1]))%nat.

Lemma sched0_fair : fair 3 items0 sched0.
Proof.
  exists ([0; 0; 1; 1; 1] ++ concat (replicate 9 [3; 2]) ++ concat (replicate 21 [0; 3; 2]) ++
    concat (replicate 21 [1; 3; 0]))%nat, (concat (replicate 12 [3; 1]%nat)).
  split; [done|]. split; [|decide_now].
  intros [|[|[|t]]] Ht; [decide_now..|lia].
Qed.

#[export] Instance no_nl_dec l : Decision (no_nl l).
Proof. unfold no_nl. apply _. Defined.

Lemma line_ok_intro it l :
  print_item it = l ++ [newline] -> no_nl l -> no_nul (print_item it) ->
  Z.of_nat (length (print_item it)) < LINE_SIZE -> line_ok it.
Proof. intros. split; [by exists l|]. by split. Qed.

Lemma items0_ok : list_ok 1 host0 items0.
Proof.
  constructor.
  - repeat (apply Forall_cons_2; [|]); [done| | |exact request0_wf|constructor];
      (split; [decide_now|]); repeat split; cbn; unfold INT_MAX; try lia.
  - split; cbn; lia.
  - vm_compute. discriminate.
  - vm_compute. reflexivity.
Qed.

Lemma items0_lines : Forall line_ok items0.
Proof.
  repeat (apply Forall_cons_2; [|]); [..|constructor];
    match goal with |- line_ok ?it =>
      apply (line_ok_intro it (removelast (print_item it)));
        [vm_compute; reflexivity|decide_now|decide_now|vm_compute; reflexivity]
    end.
Qed.

(** *** Mutual exclusion, for every list and every outcome of the calls *)

(** C5. At most one thread at a time, the main thread included, is between taking and
    releasing the lock, and it is the holder of the lock: whatever the list, the
    interleaving and the failures, the chunks written to standard output are never
    interleaved. *)
Theorem stdout_mutual_exclusion ef h n lines sched p t1 t2 :
  run ef h n lines sched (prog0 n) = Ok p ->
  in_critical n p t1 -> in_critical n p t2 -> t1 = t2 /\ w_lock (p_w p) = Some t1.
Proof.
  intros Hr H1 H2.
  pose proof (main_ok_run _ _ _ _ _ _ _ (main_ok_init n) Hr) as Hp.
  pose proof (in_critical_holds _ _ _ Hp H1). pose proof (in_critical_holds _ _ _ Hp H2).
  split; congruence.
Qed.

Definition sched_dump : list (nat * io) := quiet [0; 1; 1; 0; 0; 0; 1; 2; 1]%nat.

Lemma stdout_mutual_exclusion_witness :
  exists p, run 1 host0 2 (map print_item items0) sched_dump (prog0 2) = Ok p /\
    w_lock (p_w p) = Some 0%nat.
Proof.
  destruct (run 1 host0 2 (map print_item items0) sched_dump (prog0 2)) as [p| |] eqn:E;
    [|vm_compute in E; discriminate..].
  exists p. split; [reflexivity|].
  assert (H : in_critical 2 p 0).
  { vm_compute in E. injection E as <-. left. eexists. split; reflexivity. }
  destruct (stdout_mutual_exclusion _ _ _ _ _ p 0 0 E H H) as [_ H']. exact H'.
Defined.

(** C40. A failed dump loses data: when [write_to_stdout] cannot allocate its
    buffer, the worker reports the error, but it rewinds the stream and goes on, so
    the entries in the stream reach neither standard output nor a later dump. *)
Theorem dump_failure_loses ef h n lines w t th o o' :
  w_threads w !! t = Some th -> th_phase th = InDump -> f_ok (fp (th_st th)) ->
  0 < Z.of_nat (length (f_written (fp (th_st th)))) <= INT_MAX -> io_malloc o = false ->
  exists w1 w' th', worker_step ef h n lines t o w = Ok w1 /\
    worker_step ef h n lines t o' w1 = Ok w' /\
    w_threads w' !! t = Some th' /\ th_phase th' = AtLine /\ th_i th' = S (th_i th) /\
    w_out w' = w_out w /\ f_written (fp (th_st th')) = [].
Proof.
  intros Hth Hph Hf Hs Ho.
  pose proof (lookup_lt_Some _ _ _ Hth) as Hlt.
  assert (Ew : write_to_stdout o (fp (th_st th)) (w_out w) = (-1, fp (th_st th), w_out w)).
  { unfold write_to_stdout. unfold INT_MAX in Hs. rewrite swrap_small by (rewrite ?ftell_written by done; lia).
    rewrite ftell_written by done. rewrite (proj2 (Z.ltb_ge _ _)), (proj2 (Z.eqb_neq _ _)) by lia.
    by rewrite Ho. }
  set (w1 := set_thread w t (Worker (th_i th) InUnlock (th_st th))).
  assert (E1 : worker_step ef h n lines t o w = Ok w1).
  { unfold worker_step. rewrite Hth, Hph, Ew. by destruct w, (th_st th). }
  rewrite E1. eexists. do 2 eexists. split; [reflexivity|]. unfold worker_step.
  assert (E2 : w_threads w1 !! t = Some (Worker (th_i th) InUnlock (th_st th)))
    by (by cbn; rewrite list_lookup_insert_eq).
  rewrite E2. cbn [th_phase]. split; [reflexivity|].
  cbn [set_thread w_threads w_out w1].
  by rewrite list_insert_insert_eq, list_lookup_insert_eq.
Qed.

Definition world_dump : world :=
  World 722 (Some 0%nat) []
    [Worker 3 InDump (emit (encode trailer_entry) st0)] [].

Lemma dump_failure_loses_witness :
  exists w1 w' th', worker_step 1 host0 1 [] 0 (Io false None) world_dump = Ok w1 /\
    worker_step 1 host0 1 [] 0 io_good w1 = Ok w' /\
    w_threads w' !! 0%nat = Some th' /\ w_out w' = [] /\ f_written (fp (th_st th')) = [].
Proof.
  destruct (dump_failure_loses 1 host0 1 [] world_dump 0
    (Worker 3 InDump (emit (encode trailer_entry) st0)) (Io false None) io_good)
    as (w1 & w' & th' & E & E' & H1 & _ & _ & H2 & H3).
  - reflexivity.
  - reflexivity.
  - apply fput_ok. apply Nat.le_refl.
  - split; [reflexivity|vm_compute; discriminate].
  - reflexivity.
  - exists w1, w', th'. split; [exact E|]. split; [exact E'|]. split; [exact H1|]. split; [exact H2|exact H3].
Defined.

