(* ===== verification/CpioArgs.v ===== *)
(** * The main function of src/gen_init_cpio.c

    The options, the opening of the list, the start of the threads and the exit
    status, around the threads of CpioMain.v. The results of the system calls are
    arguments. *)
From stdpp Require Import base list strings sets.
From Stdlib Require Import ZArith Lia Ascii.
From S2P Require Import Prelude Stdio Newc Cpio CpioLine CpioTable CpioWorker CpioMain.

Open Scope Z_scope.

(** ** Numbers and options: [strtol] and [getopt] *)

(** [strtol(s, &end, 10)]: the value, clipped to the range of [long], and what
    [end] points to, which is [s] when there is no number. *)
Definition strtol (s : list ascii) : Z * list ascii :=
  match scan_int 10 (skip_space s) with
  | None => (0, s)
  | Some (v, rest) => (Z.max (- 2 ^ 63) (Z.min (2 ^ 63 - 1) v), rest)
  end.

(** What [getopt] returns: an option with its argument, or ['?']. *)
Inductive opt : Type :=
| Opt (c : ascii) (optarg : list ascii)
| OptBad.

Definition dash : ascii := "-"%char.

(** The letters of "t:h:r:"; each takes an argument. *)
Definition takes_arg (c : ascii) : bool := bool_decide (c ∈ chars "thr").

(** The successive results of GNU [getopt(argc, argv, "t:h:r:")] and the operands,
    which it moves behind the options. Nothing after ['?'] matters, since the
    program then ends. *)
Fixpoint getopt (args : list (list ascii)) : list opt * list (list ascii) :=
  match args with
  | [] => ([], [])
  | a :: args =>
      let operand := let '(os, rest) := getopt args in (os, a :: rest) in
      match a with
      | c0 :: c :: cs =>
          if negb (bool_decide (c0 = dash)) then operand
          else if bool_decide (c :: cs = [dash]) then ([], args)
          else if takes_arg c then
            match cs with
            | _ :: _ => let '(os, rest) := getopt args in (Opt c cs :: os, rest)
            | [] =>
                match args with
                | [] => ([OptBad], [])
                | v :: args => let '(os, rest) := getopt args in (Opt c v :: os, rest)
                end
            end
          else ([OptBad], [])
      | _ => operand
      end
  end.

(** The [switch] of the option loop: the exit status, or the time stamp and the
    number of threads. *)
Fixpoint main_opts (os : list opt) (mtime nr : Z) : Z + Z * Z :=
  match os with
  | [] => inr (mtime, nr)
  | OptBad :: _ => inl 1
  | Opt c optarg :: os =>
      let '(v, invalid) := strtol optarg in
      let bad := bool_decide (optarg = []) || negb (bool_decide (invalid = [])) in
      if bool_decide (c = "t"%char) then
        if bad then inl 1 else main_opts os v nr
      else if bool_decide (c = "r"%char) then
        if bad then inl 1 else main_opts os mtime (swrap 32 v)
      else inl 0
  end.

(** Options and the one operand. *)
Definition parse_args (now : Z) (args : list (list ascii)) : Z + list ascii * Z * Z :=
  let '(os, operands) := getopt args in
  match main_opts os now 8 with
  | inl code => inl code
  | inr (mtime, nr) =>
      match operands with
      | [filename] => inr (filename, mtime, nr)
      | _ => inl 1
      end
  end.

(** ** The system *)

(** How the creation of one worker goes: it starts, or [mkstemp] or [fdopen] fails,
    or [pthread_create] returns an error code. *)
Inductive start : Type :=
| Started
| NoTemp
| NoThread (ec : Z).

Record system : Type := System {
  sy_host : host;                                  (* its time stamp is not used *)
  sy_now : Z;                                      (* time(NULL) *)
  sy_stdin : list ascii;
  sy_fopen : list ascii -> option (list ascii);
  sy_realloc : nat -> bool;
  sy_strdup : nat -> bool;
  sy_table : bool;                                 (* malloc of the table *)
  sy_malloc : bool;                                (* of my_states and worker_threads *)
  sy_start : nat -> start;
}.

Definition with_mtime (h : host) (mtime : Z) : host := Host mtime (fs h) (getenv h) (dname_ok h).

(** [my_states[i].tmpf]; [sprintf] and [strcat] do not check its size. *)
Definition tmp_template (h : host) : res (list ascii) :=
  let template := chars "cpio-tmp-XXXXXX" in
  match getenv h (chars "TMPDIR") with
  | None => Ok template
  | Some dir =>
      let name := dir ++ chars "/" ++ template in
      ub_unless (Z.of_nat (length name) <? PATH_MAX) (Ok name)
  end.

(** The loop that starts the workers: [None] when all have been started, or the
    worker that was not and the value of [ec]. *)
Fixpoint start_threads (rounds i : nat) (sys : system) : res (option (nat * Z)) :=
  match rounds with
  | O => Ok None
  | S rounds =>
      _ ← tmp_template (sy_host sys);
      match sy_start sys i with
      | Started => start_threads rounds (S i) sys
      | NoTemp => Ok (Some (i, 0))
      | NoThread ec => Ok (Some (i, ec))
      end
  end.

(** How the program ends: with an exit status and what is on standard output, or
    with workers still running in storage that [main] overwrites and frees, which
    is not followed any further; [Running]: the schedule was too short. *)
Inductive outcome : Type :=
| Exit (code : Z) (out : list ascii)
| Abandoned (workers : nat)
| Running.

Definition main (ef : nat) (sys : system) (args : list (list ascii)) (sched : list (nat * io))
    : res outcome :=
  match parse_args (sy_now sys) args with
  | inl code => Ok (Exit code [])
  | inr (filename, mtime, nr) =>
      let opened := if bool_decide (filename = [dash]) then Some (sy_stdin sys)
                    else sy_fopen sys filename in
      match opened with
      | None => Ok (Exit 1 [])
      | Some input =>
          t ← ub_unless (sy_table sys || bool_decide (input = [])) (read_table (sy_realloc sys) (sy_strdup sys) (length input) input file_table0);
          match t with
          | None => Ok (Exit (-1) [])
          | Some t =>
              ub_unless (sy_malloc sys && (0 <? nr))       (* my_states[0] exists *)
                (let n := Z.to_nat nr in
                 failed ← start_threads n 0 sys;
                 match failed with
                 | Some (S i, _) => Ok (Abandoned (S i))
                 | Some (O, ec) =>
                     if ec =? 0 then
                       st ← cpio_trailer (MyState 0 (mkFILE [] 0)); Ok (Exit 0 (f_data (fp st)))
                     else Ok (Exit ec [])
                 | None =>
                     out ← main_threads ef (with_mtime (sy_host sys) mtime) n (table t) sched;
                     Ok match out with Some out => Exit 0 out | None => Running end
                 end)
          end
      end
  end.

(** ** The options *)

Lemma strtol_print v : 0 <= v < 2 ^ 63 -> strtol (print_radix 10 1 v) = (v, []).
Proof.
  intros Hv. unfold strtol.
  pose proof (scan_num_print 10 (fun _ => true) v [] ltac:(lia) ltac:(lia) eq_refl (or_introl eq_refl)) as E.
  rewrite app_nil_r in E. unfold scan_num in E.
  destruct (scan_int 10 _) as [[v' rest]|]; [|done]. injection E as -> ->.
  by rewrite Z.min_r, Z.max_r by lia.
Qed.

(** An option in one word or in two. *)
Inductive option_words (c : ascii) (arg : list ascii) : list (list ascii) -> Prop :=
| two_words : option_words c arg [[dash; c]; arg]
| one_word : arg <> [] -> option_words c arg [dash :: c :: arg].

Lemma getopt_option c arg ws args :
  takes_arg c = true -> option_words c arg ws ->
  getopt (ws ++ args) = (Opt c arg :: (getopt args).1, (getopt args).2).
Proof.
  intros Hc. assert (Hd : forall cs, bool_decide (c :: cs = [dash]) = false).
  { intros cs. apply bool_decide_eq_false. intros [= -> _]. by vm_compute in Hc. }
  intros [|Ha]; cbn [app getopt]; rewrite bool_decide_true, Hd, Hc by done; cbn [negb].
  - by destruct (getopt args).
  - destruct arg as [|a arg]; [done|]. by destruct (getopt args).
Qed.

(** A file name, in front of the options or behind them. *)
Definition is_operand (a : list ascii) : Prop := a = [dash] \/ head a <> Some dash.

Lemma getopt_operand a args :
  is_operand a -> getopt (a :: args) = ((getopt args).1, a :: (getopt args).2).
Proof.
  intros Ha. cbn [getopt]. destruct (getopt args) as [os rest].
  destruct a as [|c0 [|c cs]]; [done..|]. destruct Ha as [Ha|Ha]; [done|]. cbn in Ha.
  rewrite bool_decide_false; [done|]. intros ->. done.
Qed.

(** Time stamp, number of threads and file name, the options in one word or two. *)
Lemma parse_args_spec now mtime nr file ws1 ws2 :
  0 <= mtime < 2 ^ 63 -> 0 <= nr <= INT_MAX -> is_operand file ->
  option_words "t" (print_radix 10 1 mtime) ws1 -> option_words "r" (print_radix 10 1 nr) ws2 ->
  parse_args now (ws1 ++ ws2 ++ [file]) = inr (file, mtime, nr) /\
  parse_args now (file :: ws1 ++ ws2) = inr (file, mtime, nr).
Proof.
  intros Hm Hr Hf H1 H2. unfold INT_MAX in Hr.
  assert (E : main_opts [Opt "t" (print_radix 10 1 mtime); Opt "r" (print_radix 10 1 nr)] now 8
    = inr (mtime, nr)).
  { cbn [main_opts]. rewrite !strtol_print by lia.
    rewrite !(bool_decide_false (print_radix 10 1 _ = [])) by apply print_radix_nonempty.
    rewrite (bool_decide_true (@nil ascii = [])) by done. cbn -[swrap].
    by rewrite swrap_small by lia. }
  unfold parse_args. rewrite (getopt_operand file (ws1 ++ ws2)) by done.
  replace (ws1 ++ ws2) with (ws1 ++ ws2 ++ []) by (by rewrite app_nil_r).
  rewrite !(getopt_option "t" _ ws1) by done.
  rewrite !(getopt_option "r" _ ws2) by done. rewrite (getopt_operand file []) by done.
  cbn [getopt fst snd]. by rewrite E.
Qed.

(** ** The start of the threads *)

Definition tmpdir_ok (h : host) : Prop :=
  forall dir, getenv h (chars "TMPDIR") = Some dir -> Z.of_nat (length dir) < PATH_MAX - 16.

Lemma tmp_template_ok h : tmpdir_ok h -> exists name, tmp_template h = Ok name.
Proof.
  intros H. unfold tmp_template. destruct (getenv h (chars "TMPDIR")) as [dir|] eqn:E; [|by eexists].
  specialize (H dir E). rewrite ub_unless_true; [by eexists|]. apply Z.ltb_lt.
  rewrite !length_app. cbn. lia.
Qed.

Lemma start_threads_all rounds i sys :
  tmpdir_ok (sy_host sys) -> (forall j, sy_start sys j = Started) ->
  start_threads rounds i sys = Ok None.
Proof.
  intros Ht Hs. destruct (tmp_template_ok _ Ht) as [name E]. revert i.
  induction rounds as [|rounds IH]; intros i; [done|]. cbn [start_threads].
  by rewrite E, bind_Ok, Hs.
Qed.

(** ** The time stamp is of no consequence for a list being well formed *)

Lemma replace_env_mtime fuel h mtime full loc :
  cpio_replace_env fuel (with_mtime h mtime) full loc = cpio_replace_env fuel h full loc.
Proof.
  revert loc. induction fuel as [|fuel IH]; intros loc; cbn [cpio_replace_env]; [done|].
  destruct (find_dollar loc) as [[pre post]|]; [|done].
  destruct (split_while _ post) as [var [|c after]]; [done|].
  destruct (strncat [] var _); [|done..]. rewrite !bind_Ok.
  destruct (strncat [] pre _); [|done..]. rewrite !bind_Ok. cbn [with_mtime getenv].
  destruct (getenv h _); [|done]. destruct (strncat _ _ PATH_MAX); [|done..]. rewrite !bind_Ok.
  destruct (strncat _ _ PATH_MAX); [|done..]. rewrite !bind_Ok. by rewrite IH.
Qed.

Lemma request_wf_mtime ef h mtime r : request_wf ef h r -> request_wf ef (with_mtime h mtime) r.
Proof.
  intros [H1 H2]. split; [done|]. destruct r; try done. cbn [with_mtime fs dname_ok].
  setoid_rewrite replace_env_mtime. exact H2.
Qed.

Lemma rsize_mtime ef h mtime r : rsize ef (with_mtime h mtime) r = rsize ef h r.
Proof.
  unfold rsize. destruct r as [gt name mode uid gid|name mode uid gid ty maj min
    |name target mode uid gid|name loc mode uid gid links]; cbn [request_entries flat_map];
    try (rewrite !app_nil_r; by apply encode_length_same).
  unfold file_node. rewrite replace_env_mtime. done.
Qed.

Lemma total_size_mtime ef h mtime rs :
  total_size ef (with_mtime h mtime) rs = total_size ef h rs.
Proof. unfold total_size. induction rs as [|r rs IH]; [done|]. cbn. by rewrite rsize_mtime, IH. Qed.

Lemma list_ok_mtime ef h mtime items :
  field_ok mtime -> list_ok ef h items -> list_ok ef (with_mtime h mtime) items.
Proof.
  intros Hm [H1 _ H3 H4]. constructor; [|done| |done].
  - eapply Forall_impl; [exact H1|]. intros [|r]; [done|]. apply request_wf_mtime.
  - by rewrite total_size_mtime.
Qed.

(** ** The theorems *)

(** What the program needs from the system to do its work. *)
Record system_ok (sys : system) : Prop := {
  so_realloc : sy_realloc sys = always;
  so_strdup : sy_strdup sys = always;
  so_table : sy_table sys = true;
  so_malloc : sy_malloc sys = true;
  so_start i : sy_start sys i = Started;
  so_tmpdir : tmpdir_ok (sy_host sys);
}.

Definition opened (sys : system) (file : list ascii) : option (list ascii) :=
  if bool_decide (file = [dash]) then Some (sy_stdin sys) else sy_fopen sys file.

(** With nothing failing up to the start of the workers, what is left are the
    threads. *)
Lemma main_runs ef sys args file mtime n items sched :
  parse_args (sy_now sys) args = inr (file, mtime, Z.of_nat n) ->
  opened sys file = Some (flat_map print_item items) -> system_ok sys ->
  (0 < n)%nat -> Forall line_ok items -> Z.of_nat (length items) <= 2 ^ 30 ->
  main ef sys args sched =
    (out ← main_threads ef (with_mtime (sy_host sys) mtime) n (map print_item items) sched;
     Ok match out with Some out => Exit 0 out | None => Running end).
Proof.
  intros Hargs Hopen [Hre Hdup Htab Hmal Hst Htmp] Hn Hlines Hlen.
  unfold main. rewrite Hargs. fold (opened sys file).
  rewrite Hopen, Htab, Hre, Hdup. cbn [orb ub_unless].
  destruct (read_table_items (length (flat_map print_item items)) items file_table0) as (s & ->);
    try done; try (cbn; lia); [by apply items_text_length|].
  rewrite bind_Ok, Hmal, ub_unless_true by (apply Z.ltb_lt; lia).
  by rewrite start_threads_all, bind_Ok, Nat2Z.id by done.
Qed.

Section Archive.
Context (ef : nat) (sys : system) (args : list (list ascii)) (file : list ascii) (mtime : Z).
Context (n : nat) (items : list item).
Hypothesis Hargs : parse_args (sy_now sys) args = inr (file, mtime, Z.of_nat n).
Hypothesis Hopen : opened sys file = Some (flat_map print_item items).
Hypothesis Hsys : system_ok sys.
Hypothesis Hn : (0 < n)%nat.
Hypothesis Hlines : Forall line_ok items.
Hypothesis Hlen : Z.of_nat (length items) <= 2 ^ 30.

Notation h := (with_mtime (sy_host sys) mtime).
Notation late sched := (late_read ef h n (map print_item items) (quiet sched) (prog0 n)).
Hypothesis Hok : list_ok ef h items.

Lemma main_late sched : late sched = true -> (2 <= n)%nat /\ main ef sys args (quiet sched) = Undef.
Proof using All.
  intros Hl. split.
  - by eapply late_read_two; [..|apply good_init|].
  - erewrite main_runs by done. unfold main_threads.
    by rewrite (late_read_undef _ _ _ _ _ _ Hl).
Qed.

Lemma main_exits sched :
  no_trailer items -> fair n items sched -> late sched = false ->
  exists out asg,
    main ef sys args (quiet sched) = Ok (Exit 0 out) /\
    asg.*1 ≡ₚ requests items /\ asg.*2 ≡ₚ seqZ 721 (Z.of_nat (length (requests items))) /\
    unpack (S (length (assigned_entries ef h asg))) out = Some (assigned_entries ef h asg).
Proof using All.
  intros Htr Hfair Hl.
  destruct (main_threads_archive ef h n items sched Hn Hok Htr Hfair Hl) as (out & asg & E & H).
  exists out, asg. split; [|exact H]. erewrite main_runs by done. by rewrite E.
Qed.
End Archive.

(** C1. From the command line to the archive. When the arguments name a file, a time
    stamp and a number of threads, the file holds a well formed list, and no call
    fails, then under every fair interleaving of the workers and the main thread one
    of two things happens. Either some worker comes to a line after the line's owner
    has freed it, which takes at least two workers, and the program is undefined, for
    every worker runs [strlen] on every line. Or no worker is that late, and the
    program exits with status 0, without undefined behaviour, and unpacking what it
    wrote to standard output gives exactly the entries of all the requests, in some
    order, the requests having been given distinct consecutive inode numbers from 721
    on. With one worker it is always the archive. (That one worker's [strlen] and
    another's [strtok_r] may run on one line at the same time, while it is still there,
    is taken as one of the two orders.) *)
Theorem main_archive ef sys args file mtime n items sched :
  parse_args (sy_now sys) args = inr (file, mtime, Z.of_nat n) ->
  opened sys file = Some (flat_map print_item items) -> system_ok sys ->
  let h := with_mtime (sy_host sys) mtime in
  (0 < n)%nat -> list_ok ef h items -> Forall line_ok items -> no_trailer items ->
  Z.of_nat (length items) <= 2 ^ 30 -> fair n items sched ->
  let late := late_read ef h n (map print_item items) (quiet sched) (prog0 n) in
  (late = true -> (2 <= n)%nat /\ main ef sys args (quiet sched) = Undef) /\
  (late = false -> exists out asg,
    main ef sys args (quiet sched) = Ok (Exit 0 out) /\
    asg.*1 ≡ₚ requests items /\ asg.*2 ≡ₚ seqZ 721 (Z.of_nat (length (requests items))) /\
    unpack (S (length (assigned_entries ef h asg))) out = Some (assigned_entries ef h asg)).
Proof.
  intros Hargs Hopen Hsys h Hn Hok Hlines Htr Hlen Hfair late.
  split; [by eapply main_late|by eapply main_exits].
Qed.

(** The same for a scheduler that never ends: if every thread gets turns again and
    again, the program has exited after finitely many of them, and what follows does
    not matter, or a worker was late and the program was undefined. *)
Theorem main_archive_ends ef sys args file mtime n items (s : nat -> nat) :
  parse_args (sy_now sys) args = inr (file, mtime, Z.of_nat n) ->
  opened sys file = Some (flat_map print_item items) -> system_ok sys ->
  let h := with_mtime (sy_host sys) mtime in
  (0 < n)%nat -> list_ok ef h items -> Forall line_ok items -> no_trailer items ->
  Z.of_nat (length items) <= 2 ^ 30 ->
  (forall t, (t <= n)%nat -> forall i, exists j, (i <= j)%nat /\ s j = t) ->
  exists k, forall k', (k <= k')%nat ->
    ((2 <= n)%nat /\ main ef sys args (quiet (turns s 0 k')) = Undef) \/
    exists out asg,
      main ef sys args (quiet (turns s 0 k')) = Ok (Exit 0 out) /\ asg.*1 ≡ₚ requests items /\
      unpack (S (length (assigned_entries ef h asg))) out = Some (assigned_entries ef h asg).
Proof.
  intros Hargs Hopen Hsys h Hn Hok Hlines Htr Hlen Hs.
  destruct (fair_turns n items Hn s Hs) as [k Hk]. exists k. intros k' Hk'.
  destruct (late_read ef h n (map print_item items) (quiet (turns s 0 k')) (prog0 n)) eqn:El.
  - left. by eapply main_late.
  - right. destruct (main_exits ef sys args file mtime n items Hargs Hopen Hsys Hn Hlines Hlen Hok
      (turns s 0 k')) as (out & asg & E & H1 & _ & H2); [done|by apply Hk|done|]. by exists out, asg.
Qed.

(** With two workers or more there is such an interleaving for every list that starts
    with a request: the first line belongs to worker 1, which frees it before worker
    0 has taken its first step. *)
Theorem late_worker_undefined ef sys args file mtime n r items s :
  parse_args (sy_now sys) args = inr (file, mtime, Z.of_nat n) ->
  opened sys file = Some (flat_map print_item (IReq r :: items)) -> system_ok sys ->
  let h := with_mtime (sy_host sys) mtime in
  (2 <= n)%nat -> list_ok ef h (IReq r :: items) -> Forall line_ok (IReq r :: items) ->
  Z.of_nat (length (IReq r :: items)) <= 2 ^ 30 ->
  main ef sys args (quiet (1 :: 1 :: 0 :: s)%nat) = Undef.
Proof.
  intros Hargs Hopen Hsys h Hn Hok Hlines Hlen.
  eapply main_late; try done; [lia|]. by eapply late_read_first; [lia|..].
Qed.

Definition sys0 : system :=
  System host0 1700000000 (flat_map print_item items0) (fun _ => None) always always true true
    (fun _ => Started).

Definition args0 : list (list ascii) := [chars "-r3"; chars "-t"; chars "86400"; chars "-"].

Lemma main_archive_witness :
  exists out (asg : list (request * Z)),
    main 1 sys0 args0 (quiet sched0) = Ok (Exit 0 out) /\ asg.*1 ≡ₚ requests items0.
Proof.
  destruct (main_archive 1 sys0 args0 [dash] 86400 3 items0 sched0) as [_ H].
  - vm_compute. reflexivity.
  - reflexivity.
  - by split.
  - lia.
  - apply (list_ok_mtime 1 host0); [done|]. exact items0_ok.
  - exact items0_lines.
  - decide_now.
  - vm_compute. discriminate.
  - exact sched0_fair.
  - destruct H as (out & asg & E & H1 & _).
    + vm_compute. reflexivity.
    + exists out, asg. split; [exact E|exact H1].
Defined.

(** The same arguments, and the first request's owner is quick. *)
Lemma late_worker_undefined_witness :
  main 1 (System host0 1700000000 (flat_map print_item (tail items0)) (fun _ => None) always always
            true true (fun _ => Started)) args0 (quiet [1; 1; 0]%nat) = Undef.
Proof.
  eapply (late_worker_undefined 1 _ args0 [dash] 86400 3 _ _ []).
  - vm_compute. reflexivity.
  - reflexivity.
  - by split.
  - lia.
  - apply (list_ok_mtime 1 host0); [done|]. destruct items0_ok as [H1 H2 H3 H4].
    constructor; [by inversion H1|done..].
  - pose proof items0_lines as H. by inversion H.
  - vm_compute. discriminate.
Defined.

(** An error that is not reported: when the first temporary file cannot be made, the
    program writes the trailer of an empty archive, whatever the list asks for, and
    exits with status 0. *)
Theorem no_temp_exits_0 ef sys args file mtime nr input t sched :
  parse_args (sy_now sys) args = inr (file, mtime, nr) -> opened sys file = Some input ->
  0 < nr -> sy_table sys = true -> sy_malloc sys = true -> tmpdir_ok (sy_host sys) ->
  read_table (sy_realloc sys) (sy_strdup sys) (length input) input file_table0 = Ok (Some t) ->
  sy_start sys 0 = NoTemp ->
  exists out, main ef sys args sched = Ok (Exit 0 out) /\ unpack 1 out = Some [].
Proof.
  intros Hargs Hopen Hnr Htab Hmal Htmp Ht Hs. eexists. unfold main. rewrite Hargs.
  fold (opened sys file). rewrite Hopen, Htab. cbn [orb ub_unless]. rewrite Ht, bind_Ok, Hmal.
  rewrite ub_unless_true by (by apply Z.ltb_lt).
  destruct (Z.to_nat nr) as [|n] eqn:En; [lia|]. cbn [start_threads].
  destruct (tmp_template_ok _ Htmp) as [name ->]. rewrite bind_Ok, Hs, bind_Ok.
  rewrite Z.eqb_refl, cpio_trailer_emit by (done || apply Nat.le_refl). rewrite bind_Ok.
  split; [reflexivity|]. vm_compute. reflexivity.
Qed.

Lemma no_temp_exits_0_witness :
  exists out,
    main 1 (System host0 0 (flat_map print_item items0) (fun _ => None) always always true true
              (fun _ => NoTemp)) [chars "-"] [] = Ok (Exit 0 out) /\ unpack 1 out = Some [].
Proof.
  set (sys := System _ _ _ _ _ _ _ _ _).
  destruct (read_table always always (length (sy_stdin sys)) (sy_stdin sys) file_table0)
    as [[t|]| |] eqn:E; [|vm_compute in E; discriminate..].
  apply (no_temp_exits_0 1 sys [chars "-"] [dash] 0 8 (sy_stdin sys) t []).
  - vm_compute. reflexivity.
  - reflexivity.
  - lia.
  - reflexivity.
  - reflexivity.
  - intros dir. vm_compute. discriminate.
  - exact E.
  - reflexivity.
Defined.
