(* ===== verification/Lock.v ===== *)
(** * The interface between locks and their clients

    A lock is a labelled transition system; [LockLaws] is what a client may rely
    on. The implementation in src/xlock.c discharges it in Xlock.v; the mutex of
    the pthread library is the instance below. Clients (semaphores in Xsem.v, the
    counters of src/test_int_update.c and src/test_xlock.c in Counter.v) are
    verified against the interface. *)
From stdpp Require Import base list.
From Stdlib Require Import ZArith Lia.
From S2P Require Import Prelude.

Open Scope Z_scope.

(** What a thread does to a lock: it calls lock, moves inside the call, acquires
    (and the call returns); calls unlock, releases, and returns from the call. *)
Inductive lock_act : Type := LCall | LTau | LAcq | UCall | LRel | URet.

#[export] Instance lock_act_eq_dec : EqDecision lock_act.
Proof. solve_decision. Defined.

Class Lock (L : Type) : Type := {
  lk_init : nat -> L;                          (* unlocked, for n threads *)
  lk_step : nat -> lock_act -> L -> L -> Prop;
  lk_holds : L -> nat -> Prop;
  lk_inv : L -> Prop;
}.

Class LockLaws (L : Type) `{Lock L} : Prop := {
  lk_init_inv n : lk_inv (lk_init n);
  lk_init_free n t : ~ lk_holds (lk_init n) t;
  lk_step_inv t a l l' : lk_step t a l l' -> lk_inv l -> lk_inv l';
  lk_mutex l t t' : lk_inv l -> lk_holds l t -> lk_holds l t' -> t = t';
  lk_acq t l l' : lk_step t LAcq l l' -> lk_inv l -> lk_holds l' t;
  lk_rel t l l' : lk_step t LRel l l' -> lk_inv l -> ~ lk_holds l' t;
  lk_keep t a l l' t' : lk_step t a l l' -> lk_inv l ->
    t' <> t \/ (a <> LAcq /\ a <> LRel) -> (lk_holds l' t' <-> lk_holds l t');
}.

(** ** Counting threads *)

Definition b2n (b : bool) : nat := if b then 1%nat else 0%nat.

(** How many of the threads are at a program point that [p] accepts. *)
Definition count {A} (p : A -> bool) (l : list A) : nat := sum_list_with (fun x => b2n (p x)) l.
#[global] Arguments count {A} p l : simpl never.

Lemma sum_list_with_insert {A} (f : A -> nat) l i x y :
  l !! i = Some x -> (sum_list_with f (<[i := y]> l) + f x = sum_list_with f l + f y)%nat.
Proof.
  revert i. induction l as [|z l IH]; intros [|i] H; try done.
  - injection H as ->. cbn. lia.
  - specialize (IH i H). change (<[S i := y]> (z :: l)) with (z :: <[i := y]> l). cbn. lia.
Qed.

Lemma count_insert {A} (p : A -> bool) l i x y :
  l !! i = Some x -> (count p (<[i := y]> l) + b2n (p x) = count p l + b2n (p y))%nat.
Proof. apply (sum_list_with_insert (fun x => b2n (p x))). Qed.

Lemma count_pos {A} (p : A -> bool) l :
  (0 < count p l)%nat <-> exists i x, l !! i = Some x /\ p x = true.
Proof.
  unfold count. induction l as [|z l IH]; cbn.
  - split; [lia|]. intros (i & x & H & _). by rewrite lookup_nil in H.
  - destruct (p z) eqn:E; cbn.
    + split; [|lia]. intros _. by exists 0%nat, z.
    + rewrite IH. split.
      * intros (i & x & H & P). by exists (S i), x.
      * intros ([|i] & x & H & P); cbn in H; [congruence|]. by exists i, x.
Qed.

(** Two distinct threads that [p] accepts count twice. *)
Lemma count_two {A} (p : A -> bool) l i j x y :
  l !! i = Some x -> l !! j = Some y -> p x = true -> p y = true -> i <> j -> (2 <= count p l)%nat.
Proof.
  unfold count. revert i j. induction l as [|z l IH]; intros [|i] [|j] Hi Hj Hx Hy Hne;
    cbn in *; try done.
  - injection Hi as ->. rewrite Hx.
    assert (0 < count p l)%nat by (apply count_pos; eauto). unfold count in *. cbn. lia.
  - injection Hj as ->. rewrite Hy.
    assert (0 < count p l)%nat by (apply count_pos; eauto). unfold count in *. cbn. lia.
  - assert (i <> j) by congruence. specialize (IH i j Hi Hj Hx Hy ltac:(done)). lia.
Qed.

Lemma sum_replicate {A} (f : A -> nat) n x : sum_list_with f (replicate n x) = (n * f x)%nat.
Proof. induction n as [|n IH]; cbn; [done|]. rewrite IH. lia. Qed.

Lemma count_replicate {A} (p : A -> bool) n x : count p (replicate n x) = (n * b2n (p x))%nat.
Proof. apply (sum_replicate (fun x => b2n (p x))). Qed.

Lemma count_all {A} (p : A -> bool) l : (forall x, p x = true) -> count p l = length l.
Proof. intros Hp. unfold count. induction l as [|x l IH]; cbn; [done|]. by rewrite IH, Hp. Qed.

(** ** The pthread mutex

    Not code of the repository: the documented behaviour of
    [pthread_mutex_lock]/[unlock], which is the plainest instance. A thread that
    waits for the mutex takes no steps. *)
Record mutex : Type := Mutex { mx_owner : option nat }.

Inductive mutex_step : nat -> lock_act -> mutex -> mutex -> Prop :=
| mutex_call t m : mutex_step t LCall m m
| mutex_acq t : mutex_step t LAcq (Mutex None) (Mutex (Some t))
| mutex_ucall t : mutex_step t UCall (Mutex (Some t)) (Mutex (Some t))
| mutex_rel t : mutex_step t LRel (Mutex (Some t)) (Mutex None)
| mutex_uret t m : mutex_step t URet m m.

#[export] Instance mutex_lock : Lock mutex := {
  lk_init _ := Mutex None;
  lk_step := mutex_step;
  lk_holds m t := mx_owner m = Some t;
  lk_inv _ := True;
}.

#[export] Instance mutex_laws : LockLaws mutex.
Proof.
  constructor; cbn.
  - done.
  - done.
  - done.
  - intros l t t' _ H1 H2. congruence.
  - intros t l l' H _. by inversion H.
  - intros t l l' H _. by inversion H.
  - intros t a l l' t' H _ Hc. inversion H; subst; cbn; try done; naive_solver.
Qed.
