(* ===== verification/Xlock.v ===== *)
(** * The futex lock of src/xlock.c

    The word shared through the mapped file, the loops of [xlock_lock] and
    [xlock_unlock] as transitions of each process, and [xlock_create_open]. It
    implements the interface of Lock.v, and no wake-up is lost. *)
From stdpp Require Import base list strings relations.
From Stdlib Require Import ZArith Lia Ascii.
From S2P Require Import Prelude Stdio Lock.

Open Scope Z_scope.

(** ** The operations on the word *)

(** [__sync_bool_compare_and_swap(p, old, new)]: the result and the new word. *)
Definition compare_and_swap (word old new : Z) : bool * Z :=
  if word =? old then (true, new) else (false, word).

Definition raw_lock_it (word : Z) : bool * Z := compare_and_swap word 0 1.
Definition raw_unlock_it (word : Z) : bool * Z := compare_and_swap word 1 0.

(** The program points of a process. The futex calls are the kernel's: FUTEX_WAIT
    with value 1 puts the caller to sleep if the word is still 1 (the test and the
    queueing are one step) and returns otherwise; FUTEX_WAKE, called with a count
    of -1, wakes one or more of the sleepers if there are any. *)
Inductive xpc : Type :=
| XIdle                (* outside the lock functions, not holding the lock *)
| XTry                 (* in xlock_lock, before raw_lock_it *)
| XWait                (* in xlock_lock, before FUTEX_WAIT *)
| XSleep               (* in xlock_lock, asleep in FUTEX_WAIT *)
| XHold                (* xlock_lock has returned *)
| XUnlock              (* in xlock_unlock, before raw_unlock_it *)
| XWake.               (* in xlock_unlock, before FUTEX_WAKE *)

#[export] Instance xpc_eq_dec : EqDecision xpc.
Proof. solve_decision. Defined.

Record xlock : Type := Xlock { xl_word : Z; xl_pcs : list xpc }.

Definition is_sleep (pc : xpc) : bool := match pc with XSleep => true | _ => false end.

(** What FUTEX_WAKE may do: some of the sleepers, at least one if there is one, go
    back to the head of the loop. *)
Definition woken (pcs pcs' : list xpc) : Prop :=
  Forall2 (fun a b => b = a \/ (a = XSleep /\ b = XTry)) pcs pcs' /\
  ((0 < count is_sleep pcs)%nat ->
   (count is_sleep pcs' < count is_sleep pcs)%nat).

Inductive xlock_step : nat -> lock_act -> xlock -> xlock -> Prop :=
| xs_call t w pcs :
    pcs !! t = Some XIdle ->
    xlock_step t LCall (Xlock w pcs) (Xlock w (<[t := XTry]> pcs))
| xs_try_ok t w w' pcs :
    pcs !! t = Some XTry -> raw_lock_it w = (true, w') ->
    xlock_step t LAcq (Xlock w pcs) (Xlock w' (<[t := XHold]> pcs))
| xs_try_fail t w w' pcs :
    pcs !! t = Some XTry -> raw_lock_it w = (false, w') ->
    xlock_step t LTau (Xlock w pcs) (Xlock w' (<[t := XWait]> pcs))
| xs_wait t w pcs :
    pcs !! t = Some XWait ->
    xlock_step t LTau (Xlock w pcs) (Xlock w (<[t := if w =? 1 then XSleep else XTry]> pcs))
| xs_interrupted t w pcs :                        (* a signal *)
    pcs !! t = Some XSleep ->
    xlock_step t LTau (Xlock w pcs) (Xlock w (<[t := XTry]> pcs))
| xs_ucall t w pcs :
    pcs !! t = Some XHold ->
    xlock_step t UCall (Xlock w pcs) (Xlock w (<[t := XUnlock]> pcs))
| xs_unlock_ok t w w' pcs :
    pcs !! t = Some XUnlock -> raw_unlock_it w = (true, w') ->
    xlock_step t LRel (Xlock w pcs) (Xlock w' (<[t := XWake]> pcs))
| xs_unlock_fail t w w' pcs :
    pcs !! t = Some XUnlock -> raw_unlock_it w = (false, w') ->
    xlock_step t LTau (Xlock w pcs) (Xlock w' pcs)
| xs_wake t w pcs pcs' :
    pcs !! t = Some XWake -> woken pcs pcs' ->
    xlock_step t URet (Xlock w pcs) (Xlock w (<[t := XIdle]> pcs')).

Definition holding (pc : xpc) : bool :=
  match pc with XHold | XUnlock => true | _ => false end.

(** The word is 1 exactly while one process holds the lock. *)
Definition xlock_inv (l : xlock) : Prop :=
  xl_word l = Z.of_nat (count holding (xl_pcs l)) /\ (xl_word l = 0 \/ xl_word l = 1).

Definition xlock_holds (l : xlock) (t : nat) : Prop :=
  exists pc, xl_pcs l !! t = Some pc /\ holding pc = true.

#[export] Instance xlock_is_lock : Lock xlock := {
  lk_init n := Xlock 0 (replicate n XIdle);
  lk_step := xlock_step;
  lk_holds := xlock_holds;
  lk_inv := xlock_inv;
}.

(** ** The interface is met *)

Lemma woken_count (p : xpc -> bool) pcs pcs' :
  p XSleep = p XTry -> woken pcs pcs' -> count p pcs' = count p pcs.
Proof.
  intros Hp [H _]. unfold count. induction H as [|a b pcs pcs' Hab _ IH]; [done|]. cbn.
  rewrite IH. destruct Hab as [->|[-> ->]]; [done|]. by rewrite Hp.
Qed.

Lemma woken_lookup pcs pcs' t pc :
  woken pcs pcs' -> pcs !! t = Some pc -> pc <> XSleep -> pcs' !! t = Some pc.
Proof.
  intros [H _] Ht Hne. destruct (Forall2_lookup_l _ _ _ _ _ H Ht) as (pc' & -> & [->|[-> _]]); done.
Qed.

Lemma woken_holds w pcs pcs' t :
  woken pcs pcs' -> xlock_holds (Xlock w pcs') t <-> xlock_holds (Xlock w pcs) t.
Proof.
  intros Hw. pose proof Hw as [H _]. split; intros (pc & Ht & Hh); cbn in *.
  - destruct (Forall2_lookup_r _ _ _ _ _ H Ht) as (pc' & E & [->|[-> ->]]); [|done].
    by exists pc'.
  - exists pc. split; [|done]. eapply woken_lookup; [done..|]. by intros ->.
Qed.

Lemma xlock_holds_other w w' pcs t pc t' :
  t' <> t -> xlock_holds (Xlock w' (<[t := pc]> pcs)) t' <-> xlock_holds (Xlock w pcs) t'.
Proof. intros Hne. unfold xlock_holds. cbn. by rewrite list_lookup_insert_ne by done. Qed.

Lemma xlock_holds_same w w' pcs t pc0 pc t' :
  pcs !! t = Some pc0 -> holding pc = holding pc0 ->
  xlock_holds (Xlock w' (<[t := pc]> pcs)) t' <-> xlock_holds (Xlock w pcs) t'.
Proof.
  intros Ht Hp. destruct (decide (t' = t)) as [->|Hne]; [|by apply xlock_holds_other].
  unfold xlock_holds. cbn. rewrite list_lookup_insert_eq by by eapply lookup_lt_Some.
  rewrite Ht. naive_solver.
Qed.

Lemma compare_and_swap_true w o n w' : compare_and_swap w o n = (true, w') -> w = o /\ w' = n.
Proof. unfold compare_and_swap. destruct (Z.eqb_spec w o); [|done]. by intros [= <-]. Qed.

Lemma compare_and_swap_false w o n w' : compare_and_swap w o n = (false, w') -> w <> o /\ w' = w.
Proof. unfold compare_and_swap. destruct (Z.eqb_spec w o); [done|]. by intros [= <-]. Qed.

(** Reduce a step to its program points and counts. *)
Ltac inv_xstep H :=
  inversion H; subst; clear H;
  repeat match goal with
  | E : raw_lock_it _ = (true, _) |- _ => apply compare_and_swap_true in E; destruct E; subst
  | E : raw_lock_it _ = (false, _) |- _ => apply compare_and_swap_false in E; destruct E; subst
  | E : raw_unlock_it _ = (true, _) |- _ => apply compare_and_swap_true in E; destruct E; subst
  | E : raw_unlock_it _ = (false, _) |- _ => apply compare_and_swap_false in E; destruct E; subst
  end.

Lemma xlock_step_inv t a l l' : xlock_step t a l l' -> xlock_inv l -> xlock_inv l'.
Proof.
  unfold xlock_inv. intros H [Hw H01]. inv_xstep H; cbn in *;
    try (match goal with Ht : ?pcs !! t = Some _ |- context [<[t := ?pc]> ?pcs] =>
      pose proof (count_insert holding pcs t _ pc Ht) as Hc; cbn in Hc end;
      try (destruct (_ =? 1); cbn in Hc); split; lia).
  all: try done.
  match goal with Hwk : woken ?pcs ?pcs', Ht : ?pcs !! t = Some _ |- _ =>
    pose proof (woken_lookup _ _ _ _ Hwk Ht ltac:(done)) as Ht';
    pose proof (count_insert holding pcs' t _ XIdle Ht') as Hc;
    rewrite (woken_count holding _ _ ltac:(done) Hwk) in Hc; cbn in Hc end.
  split; lia.
Qed.

#[export] Instance xlock_laws : LockLaws xlock.
Proof.
  constructor; cbn.
  - intros n. split; [cbn; rewrite count_replicate; cbn; lia|by left].
  - intros n t (pc & [-> _]%lookup_replicate & Hh). done.
  - apply xlock_step_inv.
  - intros l t t' [Hw H01] (pc & Ht & Hp) (pc' & Ht' & Hp').
    destruct (decide (t = t')) as [|Hne]; [done|].
    pose proof (count_two holding _ _ _ _ _ Ht Ht' Hp Hp' Hne). lia.
  - intros t l l' H Hi. inv_xstep H. exists XHold. cbn.
    rewrite list_lookup_insert_eq by by eapply lookup_lt_Some. done.
  - intros t l l' H Hi (pc & Ht & Hp). inv_xstep H. cbn in Ht.
    rewrite list_lookup_insert_eq in Ht by by eapply lookup_lt_Some. by injection Ht as <-.
  - intros t a l l' t' H Hi Hc. inv_xstep H; try (by apply (xlock_holds_other _ _ _ _ _ t'); naive_solver);
      try done; try (by eapply xlock_holds_same).
    + eapply xlock_holds_same; [done|]. by destruct (_ =? 1).
    + match goal with Hwk : woken ?pcs ?pcs', Ht : ?pcs !! t = Some _ |- _ =>
        pose proof (woken_lookup _ _ _ _ Hwk Ht ltac:(done)) as Ht';
        rewrite <- (woken_holds w _ _ t' Hwk) end.
      by eapply xlock_holds_same.
Qed.

(** ** Creating, opening and destroying *)

(** The struct: the name is an array of 16 characters. *)
Record xlock_t : Type := XlockT { x_fd : Z; x_name : list ascii }.

(** What the system answers to [xlock_create_open]; the first [open] is the test
    for an existing file. *)
Record xsys : Type := Xsys {
  sys_malloc : bool;
  sys_open_probe : Z;
  sys_open_creat : Z;
  sys_open : Z;
  sys_mmap : bool;
}.

(** [strncpy(dst, src, n)]. *)
Definition strncpy (src : list ascii) (n : nat) : list ascii :=
  take n (src ++ replicate n NUL).

(** The result is the handle and the lock word in the file afterwards. *)
Definition xlock_create_open (s : xsys) (name : list ascii) (create_flag : bool) (word : Z)
    : option xlock_t * Z :=
  if negb (sys_malloc s) then (None, word)
  else if create_flag && (0 <? sys_open_probe s) then (None, word)
  else if create_flag && (sys_open_creat s <? 0) then (None, word)
  else if sys_open s <? 0 then (None, word)
  else if negb (sys_mmap s) then (None, word)
  else (Some (XlockT (sys_open s) (strncpy name 16)), if create_flag then 0 else word).

Definition xlock_create (s : xsys) (name : list ascii) := xlock_create_open s name true.
Definition xlock_open (s : xsys) (name : list ascii) := xlock_create_open s name false.

(** [xlock_close]: on the path that closes, control reaches the end of a function
    that should return a value; [None] is that indeterminate result. *)
Definition xlock_close (word : Z) : option Z := if negb (word =? 0) then Some (-1) else None.

(** [xlock_destroy]: the path that is unlinked. *)
Definition xlock_destroy (x : xlock_t) : res (list ascii) := cstr (x_name x).

(** [xlock_lock] as the calling process sees it: each round finds some word, put
    there by the others, and a failed round ends with the result of the futex call.
    [ret] is the local variable, indeterminate until the first futex call. *)
Fixpoint xlock_lock_loop (rounds : list (Z * Z)) (ret : option Z) : res (option Z) :=
  match rounds with
  | [] => NoFuel
  | (word, r) :: rounds =>
      if (raw_lock_it word).1 then Ok ret else xlock_lock_loop rounds (Some r)
  end.

(** Returning an indeterminate [ret] is undefined. *)
Definition xlock_lock (rounds : list (Z * Z)) : res Z :=
  ret ← xlock_lock_loop rounds None;
  match ret with Some r => Ok r | None => Undef end.

(** ** No wake-up is lost *)

Definition xlock_any (l l' : xlock) : Prop := exists t a, xlock_step t a l l'.

Definition xlock_reachable (n : nat) (l : xlock) : Prop :=
  rtc xlock_any (Xlock 0 (replicate n XIdle)) l.

(** A process that will test the word or wake a sleeper without being woken. *)
Definition active (pc : xpc) : bool :=
  match pc with XTry | XWait | XWake => true | _ => false end.

Definition wake_inv (l : xlock) : Prop :=
  (0 < count is_sleep (xl_pcs l))%nat -> xl_word l = 1 \/ (0 < count active (xl_pcs l))%nat.

Lemma woken_active pcs pcs' : woken pcs pcs' ->
  (count active pcs' + count is_sleep pcs' = count active pcs + count is_sleep pcs)%nat /\
  (count is_sleep pcs' <= count is_sleep pcs)%nat.
Proof.
  intros [H _]. unfold count. induction H as [|a b pcs pcs' Hab _ IH]; [done|]. cbn.
  destruct Hab as [->|[-> ->]]; cbn; lia.
Qed.

Lemma wake_inv_step t a l l' : xlock_step t a l l' -> wake_inv l -> wake_inv l'.
Proof.
  unfold wake_inv. intros H Hi. inv_xstep H; cbn [xl_word xl_pcs] in *; try done;
    try (match goal with Ht : ?pcs !! t = Some _ |- context [<[t := ?pc]> ?pcs] =>
      pose proof (count_insert is_sleep pcs t _ pc Ht) as Hc;
      pose proof (count_insert active pcs t _ pc Ht) as Hd end;
      try (destruct (Z.eqb_spec w 1)); cbn in Hc, Hd; lia).
  match goal with Hwk : woken ?pcs ?pcs', Ht : ?pcs !! t = Some _ |- _ =>
    pose proof (woken_lookup _ _ _ _ Hwk Ht ltac:(done)) as Ht';
    pose proof (count_insert is_sleep pcs' t _ XIdle Ht') as Hc;
    pose proof (count_insert active pcs' t _ XIdle Ht') as Hd;
    pose proof (woken_active _ _ Hwk) as Ha; destruct Hwk as [_ Hsome] end.
  cbn in Hc, Hd. intros Hs. right.
  assert (count is_sleep pcs' < count is_sleep pcs)%nat by (apply Hsome; lia).
  assert (0 < count active pcs)%nat by (apply count_pos; eauto). lia.
Qed.

Lemma xlock_reachable_inv n l : xlock_reachable n l -> xlock_inv l /\ wake_inv l.
Proof.
  unfold xlock_reachable. intros H.
  assert (G : forall l1 l2, rtc xlock_any l1 l2 -> xlock_inv l1 /\ wake_inv l1 ->
    xlock_inv l2 /\ wake_inv l2).
  { induction 1 as [|l1 l2 l3 (t & a & Hs) _ IH]; [done|]. intros [H1 H2]. apply IH.
    split; [by eapply xlock_step_inv|by eapply wake_inv_step]. }
  eapply G; [done|]. split.
  - exact (lk_init_inv (L := xlock) n).
  - intros Hc. cbn in Hc. rewrite count_replicate in Hc. cbn in Hc. lia.
Qed.

(** C7. The futex lock is a lock: at most one process at a time is between the
    return of [xlock_lock] and the compare-and-swap of [xlock_unlock], and the
    word is 1 exactly while there is one. *)
Theorem xlock_mutual_exclusion n l t1 t2 :
  xlock_reachable n l -> xlock_holds l t1 -> xlock_holds l t2 -> t1 = t2 /\ xl_word l = 1.
Proof.
  intros [Hi _]%xlock_reachable_inv H1 H2. split; [by eapply lk_mutex|].
  destruct Hi as [Hw H01]. destruct H1 as (pc & Ht & Hp).
  assert (0 < count holding (xl_pcs l))%nat by (apply count_pos; eauto). lia.
Qed.

Definition xlock_held : xlock := Xlock 1 [XHold; XSleep].

Lemma xlock_held_reachable : xlock_reachable 2 xlock_held.
Proof.
  eapply rtc_l; [exists 0%nat, LCall; by apply xs_call|]. cbn.
  eapply rtc_l; [exists 0%nat, LAcq; by eapply xs_try_ok|]. cbn.
  eapply rtc_l; [exists 1%nat, LCall; by apply xs_call|]. cbn.
  eapply rtc_l; [exists 1%nat, LTau; by eapply xs_try_fail|]. cbn.
  eapply rtc_l; [exists 1%nat, LTau; by eapply xs_wait|]. cbn. apply rtc_refl.
Qed.

Lemma xlock_mutual_exclusion_witness : xl_word xlock_held = 1.
Proof.
  refine (proj2 (xlock_mutual_exclusion 2 xlock_held 0 0 xlock_held_reachable _ _));
    exists XHold; split; reflexivity.
Defined.

(** No wake-up is lost, although FUTEX_WAKE is called with -1 and so wakes a
    single sleeper: whenever a process sleeps, another one holds the lock, and will
    unlock and wake, or is already about to wake or to try the lock again. *)
Theorem xlock_no_lost_wakeup n l t :
  xlock_reachable n l -> xl_pcs l !! t = Some XSleep ->
  exists t' pc, t' <> t /\ xl_pcs l !! t' = Some pc /\
    (if xl_word l =? 1 then holding pc = true else active pc = true).
Proof.
  intros [[Hw H01] Hwk]%xlock_reachable_inv Ht.
  assert (Hs : (0 < count is_sleep (xl_pcs l))%nat) by (apply count_pos; eauto).
  specialize (Hwk Hs). destruct (Z.eqb_spec (xl_word l) 1) as [E|E].
  - assert (Hh : (0 < count holding (xl_pcs l))%nat) by lia.
    apply count_pos in Hh as (t' & pc & Ht' & Hp). exists t', pc.
    split; [intros ->; rewrite Ht in Ht'; by injection Ht' as <-|done].
  - destruct Hwk as [|Ha]; [done|]. apply count_pos in Ha as (t' & pc & Ht' & Hp). exists t', pc.
    split; [intros ->; rewrite Ht in Ht'; by injection Ht' as <-|done].
Qed.

Lemma xlock_no_lost_wakeup_witness :
  exists t' pc, t' <> 1%nat /\ xl_pcs xlock_held !! t' = Some pc /\ holding pc = true.
Proof. exact (xlock_no_lost_wakeup 2 xlock_held 1 xlock_held_reachable eq_refl). Defined.

(** The result of [xlock_lock] is indeterminate when the lock is free at the
    first try, which is the usual case; after at least one wait it is what the last
    futex call returned. *)
Theorem xlock_lock_result rounds r last :
  xlock_lock ((0, r) :: rounds) = Undef /\
  (forall w ws rs, Forall (fun p => p.1 <> 0) ws -> w <> 0 ->
    xlock_lock (ws ++ (w, last) :: (0, r) :: rs) = Ok last).
Proof.
  split; [done|]. intros w ws rs Hws Hw. unfold xlock_lock.
  assert (E : forall ret, xlock_lock_loop (ws ++ (w, last) :: (0, r) :: rs) ret = Ok (Some last)).
  { induction Hws as [|[w1 r1] ws Hw1 _ IH]; intros ret; cbn [app xlock_lock_loop].
    - unfold raw_lock_it, compare_and_swap. by rewrite (proj2 (Z.eqb_neq _ _)).
    - unfold raw_lock_it, compare_and_swap in *. cbn in Hw1.
      rewrite (proj2 (Z.eqb_neq w1 0)) by done. apply IH. }
  by rewrite E.
Qed.

Lemma xlock_create_open_Some s name create_flag word x word' :
  xlock_create_open s name create_flag word = (Some x, word') ->
  word' = (if create_flag then 0 else word) /\ x = XlockT (sys_open s) (strncpy name 16) /\
  (create_flag = true -> sys_open_probe s <= 0).
Proof.
  intros H. unfold xlock_create_open in H.
  destruct (sys_malloc s); [|done]. cbn [negb] in H.
  destruct (create_flag && (0 <? sys_open_probe s)) eqn:E1; [done|].
  destruct (create_flag && (sys_open_creat s <? 0)); [done|].
  destruct (sys_open s <? 0); [done|]. destruct (sys_mmap s); [|done]. cbn [negb] in H.
  injection H as <- <-. split; [done|]. split; [done|].
  intros ->. cbn in E1. by apply Z.ltb_ge in E1.
Qed.

(** Creating and opening: a successful [xlock_create] leaves the word 0 and a
    successful [xlock_open] leaves it alone; the test for an existing file does not
    notice one that is opened as descriptor 0, and then the word of a lock in use
    is reset. Destroying reads past the name array when the name has 16 or more
    characters. *)
Theorem xlock_create_open_spec s name create_flag word x word' :
  xlock_create_open s name create_flag word = (Some x, word') ->
  no_nul name ->
  word' = (if create_flag then 0 else word) /\ x_fd x = sys_open s /\
  (create_flag = true -> sys_open_probe s <= 0) /\
  xlock_destroy x = (if (length name <? 16)%nat then Ok name else Undef).
Proof.
  intros H Hn. apply xlock_create_open_Some in H as (-> & -> & H).
  split; [done|]. split; [done|]. split; [done|].
  unfold xlock_destroy, strncpy. cbn [x_name]. destruct (Nat.ltb_spec (length name) 16) as [Hl|Hl].
  - rewrite take_app_ge by lia.
      destruct (16 - length name)%nat as [|k] eqn:Ek; [lia|].
      rewrite take_replicate. replace (S k `min` 16)%nat with (S k) by lia. cbn [replicate].
      by apply cstr_nul.
  - rewrite take_app_le by lia. unfold cstr. rewrite split_while_all; [done|].
      apply Forall_take. by apply no_nul_forall.
Qed.

Lemma xlock_create_open_spec_witness :
  exists x, xlock_create (Xsys true 0 3 3 true) (chars "a_very_long_lock_name") 1 = (Some x, 0) /\
    xlock_destroy x = Undef.
Proof.
  destruct (xlock_create_open_spec (Xsys true 0 3 3 true) (chars "a_very_long_lock_name") true 1
    (XlockT 3 (strncpy (chars "a_very_long_lock_name") 16)) 0) as (_ & _ & _ & E).
  - reflexivity.
  - apply (bool_decide_unpack _). vm_compute. exact I.
  - eexists. split; [reflexivity|exact E].
Defined.
