(* ===== verification/Fair.v ===== *)
(** * Runs and fair scheduling

    An infinite run of a system whose threads move one at a time, the weak fairness
    of its scheduler, and the rule that proves that something happens: a state
    that persists until one thread moves, and lets that thread move, does not last.
    XFair.v uses it for the lock of src/xlock.c. *)
From stdpp Require Import base list relations.
From Stdlib Require Import Lia.
From S2P Require Import Prelude.

Section runs.
Context {St Act : Type}.
Variable step : nat -> Act -> St -> St -> Prop.
(** The threads that go on by themselves when they get the processor. *)
Variable runnable : St -> nat -> Prop.

(** [st i] is the state at time [i]; [lab i] says which thread moves then and
    how, or that nobody does. *)
Definition moves (st : nat -> St) (lab : nat -> option (nat * Act)) : Prop :=
  forall i, match lab i with
            | Some (t, a) => step t a (st i) (st (S i))
            | None => st (S i) = st i
            end.

Definition taken (lab : nat -> option (nat * Act)) (t i : nat) : Prop :=
  exists a, lab i = Some (t, a).

(** Weak fairness: no thread is runnable from some time on without moving. *)
Definition fair (st : nat -> St) (lab : nat -> option (nat * Act)) : Prop :=
  forall t i, exists j, (i <= j)%nat /\ (taken lab t j \/ ~ runnable (st j) t).

Definition eventually (Q : nat -> Prop) (i : nat) : Prop := exists j, (i <= j)%nat /\ Q j.

Lemma eventually_now (Q : nat -> Prop) i : Q i -> eventually Q i.
Proof. intros H. by exists i. Qed.

Lemma eventually_next (Q : nat -> Prop) i : eventually Q (S i) -> eventually Q i.
Proof. intros (j & Hj & H). exists j. split; [lia|done]. Qed.

(** Something that leads to something that leads to [Q]. *)
Lemma eventually_bind (P Q : nat -> Prop) i :
  eventually P i -> (forall j, (i <= j)%nat -> P j -> eventually Q j) -> eventually Q i.
Proof.
  intros (j & Hj & H) HPQ. destruct (HPQ j Hj H) as (k & Hk & HQ). exists k. split; [lia|done].
Qed.

(** What happens again and again from some time on, each time lowering a measure,
    ends. *)
Lemma eventually_measure (i0 : nat) (m : nat -> nat) (Q : nat -> Prop) :
  (forall i, (i0 <= i)%nat -> eventually Q i \/ exists j, (i < j)%nat /\ (m j < m i)%nat) ->
  forall i, (i0 <= i)%nat -> eventually Q i.
Proof.
  intros H i Hi. remember (m i) as k eqn:Ek. revert i Hi Ek.
  induction (lt_wf k) as [k _ IH]. intros i Hi ->.
  destruct (H i Hi) as [|(j & Hj & Hm)]; [done|].
  destruct (IH _ Hm j ltac:(lia) eq_refl) as (j' & Hj' & HQ). exists j'. split; [lia|done].
Qed.

Lemma run_invariant (Inv : St -> Prop) st lab :
  moves st lab -> Inv (st 0%nat) -> (forall t a l l', step t a l l' -> Inv l -> Inv l') ->
  forall i, Inv (st i).
Proof.
  intros Hm H0 Hs. induction i as [|i IH]; [done|]. specialize (Hm i).
  destruct (lab i) as [[t a]|]; [by eapply Hs|by rewrite Hm].
Qed.

Lemma run_reaches (R : St -> St -> Prop) st lab :
  moves st lab -> (forall t a l l', step t a l l' -> R l l') -> forall i, rtc R (st 0%nat) (st i).
Proof.
  intros Hm Hs. induction i as [|i IH]; [apply rtc_refl|]. specialize (Hm i).
  destruct (lab i) as [[t a]|]; [|by rewrite Hm]. eapply rtc_r; [exact IH|by eapply Hs].
Qed.

(** The rule of weak fairness for one thread [t]. *)
Lemma fair_leads_to st lab t (P Q : nat -> Prop) :
  fair st lab ->
  (forall j, P j -> runnable (st j) t) ->
  (forall j, P j -> Q j \/ Q (S j) \/ (~ taken lab t j /\ P (S j))) ->
  forall i, P i -> eventually Q i.
Proof.
  intros Hf Hrun Hstep i HP. destruct (Hf t i) as (j & Hj & Hend).
  remember (j - i)%nat as d eqn:Ed. revert i HP Hj Ed.
  induction d as [|d IH]; intros i HP Hj Ed;
    destruct (Hstep i HP) as [H|[H|[Hn HP']]];
    try (by apply eventually_now); try (by apply eventually_next, eventually_now).
  - replace j with i in Hend by lia. destruct Hend as [?|Hr]; [done|]. by destruct Hr; apply Hrun.
  - apply eventually_next, IH; [done|lia..].
Qed.

(** The rule for a thread that is at one point of its program: nobody else moves it
    from there, it can move, and when it does [Q] comes about. [R] holds meanwhile,
    or [Q] comes about too. *)
Lemma fair_leaves {PC} (at_ : St -> nat -> option PC) st lab t pc (R Q : nat -> Prop) :
  moves st lab -> fair st lab ->
  (forall j, R j -> at_ (st j) t = Some pc -> runnable (st j) t) ->
  (forall j t' a, t' <> t -> step t' a (st j) (st (S j)) -> at_ (st j) t = Some pc ->
     at_ (st (S j)) t = Some pc) ->
  (forall j, R j -> eventually Q j \/ R (S j)) ->
  (forall j a, R j -> at_ (st j) t = Some pc -> lab j = Some (t, a) ->
     step t a (st j) (st (S j)) -> R (S j) -> eventually Q j) ->
  forall i, R i -> at_ (st i) t = Some pc -> eventually Q i.
Proof.
  intros Hm Hf Hrun Hother HR Hmove i Hi Ht.
  apply eventually_bind with (P := eventually Q); [|by intros].
  apply (fair_leads_to st lab t (fun j => R j /\ at_ (st j) t = Some pc));
    [done|by intros j [? ?]; apply Hrun| |done].
  clear i Hi Ht. intros j [Hj Ht]. destruct (HR j Hj) as [?|HSj]; [by left|].
  specialize (Hm j). destruct (lab j) as [[t' a]|] eqn:El.
  - destruct (decide (t' = t)) as [->|Hne]; [left; by eapply Hmove|].
    right; right. split; [intros [b Eb]; congruence|]. split; [done|]. by eapply Hother.
  - right; right. split; [intros [a Ea]; congruence|]. by rewrite Hm.
Qed.

(** The thread goes to a next point, from which [Q] comes about. *)
Lemma fair_advance {PC} (at_ : St -> nat -> option PC) st lab t pc (R Q : nat -> Prop) (next : PC -> Prop) :
  moves st lab -> fair st lab ->
  (forall j, R j -> at_ (st j) t = Some pc -> runnable (st j) t) ->
  (forall j t' a, t' <> t -> step t' a (st j) (st (S j)) -> at_ (st j) t = Some pc ->
     at_ (st (S j)) t = Some pc) ->
  (forall j, R j -> eventually Q j \/ R (S j)) ->
  (forall j a, R j -> at_ (st j) t = Some pc -> step t a (st j) (st (S j)) ->
     eventually Q j \/ exists pc', at_ (st (S j)) t = Some pc' /\ next pc') ->
  (forall i pc', R i -> next pc' -> at_ (st i) t = Some pc' -> eventually Q i) ->
  forall i, R i -> at_ (st i) t = Some pc -> eventually Q i.
Proof.
  intros Hm Hf Hrun Hother HR Hmove Hnext. apply (fair_leaves at_ st lab t pc R Q); try done.
  intros j a Hj Ht El Hs HSj. destruct (Hmove j a Hj Ht Hs) as [|(pc' & Ht' & Hp')]; [done|].
  apply eventually_next. by eapply Hnext.
Qed.
End runs.
