(* ===== verification/LockLive.v ===== *)
(** * The progress that a lock promises to its clients

    The interface of Lock.v with fair runs. A client is at a phase of its use of the
    lock; [LockLive] is what it may rely on if it keeps to the protocol and its
    critical sections end: while a thread waits, some thread gets the lock. The
    second half carries the fairness of a client's runs over to the lock. *)
From stdpp Require Import base list.
From Stdlib Require Import ZArith Lia.
From S2P Require Import Prelude Lock Fair.

(** ** The protocol *)

Inductive phase : Type := Outside | Trying | Holding | Releasing | Returning.

#[export] Instance phase_eq_dec : EqDecision phase.
Proof. solve_decision. Defined.

Definition phase_next (a : lock_act) (p : phase) : option phase :=
  match a, p with
  | LCall, Outside => Some Trying
  | LTau, Trying => Some Trying
  | LAcq, Trying => Some Holding
  | UCall, Holding => Some Releasing
  | LRel, Releasing => Some Returning
  | URet, Returning => Some Outside
  | _, _ => None
  end.

(** A lock and the phases of the threads that use it. *)
Record usage (L : Type) : Type := Usage { us_lock : L; us_phases : list phase }.
Arguments Usage {L} _ _.
Arguments us_lock {L} _.
Arguments us_phases {L} _.

Definition acquired (lab : nat -> option (nat * lock_act)) (j : nat) : Prop :=
  exists t, lab j = Some (t, LAcq).

Section usage.
Context {L : Type} `{Lock L}.

Definition usage_step (t : nat) (a : lock_act) (u u' : usage L) : Prop :=
  lk_step t a (us_lock u) (us_lock u') /\
  exists p p', us_phases u !! t = Some p /\ phase_next a p = Some p' /\
    us_phases u' = <[t := p']> (us_phases u).

(** A thread that goes on by itself; [ready]: one that waits in lock and can move. *)
Definition usage_runnable (ready : L -> nat -> Prop) (u : usage L) (t : nat) : Prop :=
  exists p, us_phases u !! t = Some p /\
    match p with Outside => False | Trying => ready (us_lock u) t | _ => True end.

Record usage_run (ready : L -> nat -> Prop) (n : nat) (st : nat -> usage L)
    (lab : nat -> option (nat * lock_act)) : Prop := {
  ur_init : st 0%nat = Usage (lk_init n) (replicate n Outside);
  ur_moves : moves usage_step st lab;
  ur_fair : fair (usage_runnable ready) st lab;
}.

Lemma usage_other t' a u u' t :
  usage_step t' a u u' -> t' <> t -> us_phases u' !! t = us_phases u !! t.
Proof. intros (_ & p & p' & _ & _ & ->) Hne. by rewrite list_lookup_insert_ne. Qed.

Lemma usage_self t a u u' p :
  usage_step t a u u' -> us_phases u !! t = Some p ->
  exists p', phase_next a p = Some p' /\ us_phases u' !! t = Some p'.
Proof.
  intros (_ & q & q' & Hq & Hn & ->) Hp. rewrite Hq in Hp. injection Hp as ->.
  exists q'. split; [done|]. apply list_lookup_insert_eq. by eapply lookup_lt_Some.
Qed.
End usage.

(** [lk_with]: the lock agrees with the phases. *)
Class LockLive (L : Type) `{Lock L} : Type := {
  lk_ready : L -> nat -> Prop;
  lk_with : L -> list phase -> Prop;
}.

Class LockLiveLaws (L : Type) `{LockLive L} : Prop := {
  lk_with_init n : lk_with (lk_init n) (replicate n Outside);
  lk_with_step t a (u u' : usage L) :
    usage_step t a u u' -> lk_with (us_lock u) (us_phases u) -> lk_with (us_lock u') (us_phases u');
  lk_tau t l l' ph :
    lk_step t LTau l l' -> lk_inv l -> lk_with l ph -> ph !! t = Some Trying;
  lk_progress n st lab i t :
    usage_run lk_ready n st lab -> us_phases (st i) !! t = Some Trying ->
    eventually (acquired lab) i;
}.

(** ** The pthread mutex *)

Definition owns (p : phase) : bool := match p with Holding | Releasing => true | _ => false end.

#[export] Instance mutex_live : LockLive mutex := {
  lk_ready m t := mx_owner m = None;
  lk_with m ph := forall t, mx_owner m = Some t <-> exists p, ph !! t = Some p /\ owns p = true;
}.

Lemma mutex_with_step t a (u u' : usage mutex) :
  usage_step t a u u' -> lk_with (us_lock u) (us_phases u) -> lk_with (us_lock u') (us_phases u').
Proof.
  destruct u as [m ph], u' as [m' ph']. intros (Hs & p & p' & Hp & Hn & Hu) Hw t'. cbn in *. subst ph'.
  pose proof (lookup_lt_Some _ _ _ Hp) as Hlt. specialize (Hw t') as Hw'.
  destruct (decide (t' = t)) as [->|Hne].
  - rewrite list_lookup_insert_eq by done.
    inversion Hs; subst; destruct p; cbn in *; simplify_eq; split; naive_solver.
  - rewrite list_lookup_insert_ne by done. rewrite <- Hw'.
    inversion Hs; subst; cbn in *; try done; split; intros E; try done; try congruence.
Qed.

Lemma mutex_free_step t a m m' :
  mutex_step t a m m' -> mx_owner m = None -> a = LAcq \/ mx_owner m' = None.
Proof. intros Hs Hm. destruct Hs; auto. Qed.

Lemma mutex_rel_step t m m' : mutex_step t LRel m m' -> mx_owner m' = None.
Proof. intros Hs. by inversion Hs. Qed.

Section mutex_run.
Context (n : nat) (st : nat -> usage mutex) (lab : nat -> option (nat * lock_act)).
Context (Hrun : usage_run lk_ready n st lab).

Lemma mutex_run_with j : lk_with (us_lock (st j)) (us_phases (st j)).
Proof.
  apply (run_invariant usage_step (fun u => lk_with (us_lock u) (us_phases u)) st lab).
  - apply Hrun.
  - rewrite (ur_init _ _ _ _ Hrun). cbn. intros t. split; [done|].
    by intros (p & [-> _]%lookup_replicate & ?).
  - intros t a l l' Hs. by apply mutex_with_step with (t := t) (a := a).
Qed.

(** A thread that waits goes on waiting until it has the mutex; the mutex stays
    free until somebody takes it. *)
Lemma mutex_waits t j :
  us_phases (st j) !! t = Some Trying ->
  eventually (acquired lab) j \/ us_phases (st (S j)) !! t = Some Trying.
Proof.
  intros Ht. pose proof (ur_moves _ _ _ _ Hrun j) as Hs.
  destruct (lab j) as [[t' a]|] eqn:El; [|right; by rewrite Hs].
  destruct (decide (t' = t)) as [->|Hne].
  - destruct (usage_self _ _ _ _ _ Hs Ht) as (p' & Hn & Hp).
    destruct a; try done; [right; by injection Hn as <-|].
    left. apply eventually_now. by exists t.
  - right. by rewrite (usage_other _ _ _ _ _ Hs Hne).
Qed.

Lemma mutex_free_waits t i :
  mx_owner (us_lock (st i)) = None -> us_phases (st i) !! t = Some Trying ->
  eventually (acquired lab) i.
Proof.
  intros Hm. apply (fair_leaves usage_step (usage_runnable lk_ready) (fun u t => us_phases u !! t) st lab t
    Trying (fun j => mx_owner (us_lock (st j)) = None) (acquired lab)); [apply Hrun|apply Hrun|..|done].
  - intros j Hj Ht. by exists Trying.
  - intros j t' a Hne Hs Ht. by rewrite (usage_other _ _ _ _ _ Hs Hne).
  - intros j Hj. pose proof (ur_moves _ _ _ _ Hrun j) as Hs.
    destruct (lab j) as [[t' a]|] eqn:El; [|right; by rewrite Hs].
    destruct Hs as [Hs _]. destruct (mutex_free_step _ _ _ _ Hs Hj) as [->|]; [|by right].
    left. apply eventually_now. by exists t'.
  - intros j a Hj Ht El Hs HSj. destruct (usage_self _ _ _ _ _ Hs Ht) as (p' & Hn & _).
    destruct a; try done; [by destruct Hs as [Hs _]; inversion Hs|].
    apply eventually_now. by exists t.
Qed.

(** While [t] waits, the owner leaves its phase. *)
Lemma mutex_owner_leaves t h p i :
  owns p = true ->
  (forall j l p' a, phase_next a p = Some p' -> us_phases (st j) !! h = Some p' ->
     mutex_step h a l (us_lock (st j)) -> us_phases (st j) !! t = Some Trying -> eventually (acquired lab) j) ->
  us_phases (st i) !! t = Some Trying -> us_phases (st i) !! h = Some p -> eventually (acquired lab) i.
Proof.
  intros Hp Hnext.
  apply (fair_leaves usage_step (usage_runnable lk_ready) (fun u t => us_phases u !! t) st lab h
    p (fun j => us_phases (st j) !! t = Some Trying) (acquired lab)); [apply Hrun|apply Hrun|..].
  - intros j Hj Ht. exists p. split; [done|]. by destruct p.
  - intros j t' a Hne Hs Ht. by rewrite (usage_other _ _ _ _ _ Hs Hne).
  - intros j. apply mutex_waits.
  - intros j a Hj Ht El Hs HSj. destruct (usage_self _ _ _ _ _ Hs Ht) as (p' & Hn & Hp').
    apply eventually_next. destruct Hs as [Hs _]. by eapply Hnext.
Qed.

Lemma mutex_releasing_waits t h i :
  us_phases (st i) !! t = Some Trying -> us_phases (st i) !! h = Some Releasing ->
  eventually (acquired lab) i.
Proof.
  apply mutex_owner_leaves; [done|]. intros j l p' a Hn Hp Hs Ht.
  destruct a; try done. apply (mutex_free_waits t); [by eapply mutex_rel_step|done].
Qed.

Lemma mutex_holding_waits t h i :
  us_phases (st i) !! t = Some Trying -> us_phases (st i) !! h = Some Holding ->
  eventually (acquired lab) i.
Proof.
  apply mutex_owner_leaves; [done|]. intros j l p' a Hn Hp _ Ht.
  destruct a; try done. injection Hn as <-. by apply (mutex_releasing_waits t h).
Qed.

Lemma mutex_run_progress i t :
  us_phases (st i) !! t = Some Trying -> eventually (acquired lab) i.
Proof.
  intros Ht. destruct (mx_owner (us_lock (st i))) as [h|] eqn:Ho; [|by apply (mutex_free_waits t)].
  apply (mutex_run_with i) in Ho as (p & Hh & Hp).
  destruct p; try done; [by apply (mutex_holding_waits t h)|by apply (mutex_releasing_waits t h)].
Qed.
End mutex_run.

#[export] Instance mutex_live_laws : LockLiveLaws mutex.
Proof.
  constructor.
  - intros n t. cbn. split; [done|]. by intros (p & [-> _]%lookup_replicate & ?).
  - apply mutex_with_step.
  - intros t l l' ph Hs. inversion Hs.
  - intros n st lab i t Hrun. by apply (mutex_run_progress n st lab Hrun).
Qed.

(** ** Clients *)

(** A system whose threads use a lock: a step is one of its thread's with the lock, or
    one that leaves the lock alone; [rank] bounds the steps of a thread inside its
    critical section, which therefore ends; [ok] is the invariant of the system. *)
Record lock_client {L : Type} `{LockLive L} {W : Type} (step : nat -> option lock_act -> W -> W -> Prop)
    (ok : W -> Prop) (use : W -> usage L) (rank : W -> nat -> nat) : Prop := {
  cl_inv w : ok w -> lk_inv (us_lock (use w));
  cl_lock t a w w' : step t (Some a) w w' -> ok w ->
    lk_with (us_lock (use w)) (us_phases (use w)) -> usage_step t a (use w) (use w');
  cl_quiet t w w' : step t None w w' -> ok w -> use w' = use w /\
    (us_phases (use w) !! t = Some Outside \/
     us_phases (use w) !! t = Some Holding /\ (rank w' t < rank w t)%nat);
  cl_other t t' o w w' : step t' o w w' -> t' <> t -> (rank w' t <= rank w t)%nat;
}.

Section client.
Context {L : Type} `{LockLiveLaws L}.
Context {W : Type} (step : nat -> option lock_act -> W -> W -> Prop) (runnable : W -> nat -> Prop).
Context (ok : W -> Prop) (use : W -> usage L) (rank : W -> nat -> nat).
Context (Hclient : lock_client step ok use rank).
(** A run of it, with all its threads outside the lock at the start. *)
Context (st : nat -> W) (lab : nat -> option (nat * option lock_act)) (n : nat).
Context (Hstart : use (st 0%nat) = Usage (lk_init n) (replicate n Outside)).
Context (Hok : forall j, ok (st j)) (Hmoves : moves step st lab).

Definition use_st (j : nat) : usage L := use (st j).

Definition use_lab (j : nat) : option (nat * lock_act) :=
  match lab j with Some (t, Some a) => Some (t, a) | _ => None end.

Lemma use_move j :
  lk_with (us_lock (use_st j)) (us_phases (use_st j)) ->
  match use_lab j with
  | Some (t, a) => usage_step t a (use_st j) (use_st (S j))
  | None => use_st (S j) = use_st j
  end.
Proof.
  intros Hw. pose proof (Hmoves j) as Hs. unfold use_lab, use_st.
  destruct (lab j) as [[t [a|]]|]; [|eapply cl_quiet; [done..|apply Hok]|by rewrite Hs].
  eapply cl_lock; [done|done|apply Hok|done].
Qed.

Lemma use_with j : lk_with (us_lock (use_st j)) (us_phases (use_st j)).
Proof.
  induction j as [|j IH]; [unfold use_st; rewrite Hstart; apply lk_with_init|].
  pose proof (use_move j IH) as Hs. destruct (use_lab j) as [[t a]|]; [|by rewrite Hs].
  by eapply lk_with_step.
Qed.

(** Only a thread that waits moves inside the lock. *)
Lemma use_tau j t : use_lab j = Some (t, LTau) -> us_phases (use (st j)) !! t = Some Trying.
Proof.
  intros El. pose proof (use_move j (use_with j)) as Hs. rewrite El in Hs.
  eapply lk_tau; [apply Hs|apply (cl_inv _ _ _ _ Hclient), Hok|apply use_with].
Qed.

Lemma use_moves : moves usage_step use_st use_lab.
Proof. intros j. apply use_move, use_with. Qed.

(** The thread uses the lock, or need not. *)
Definition use_served (t j : nat) : Prop :=
  taken use_lab t j \/ ~ usage_runnable lk_ready (use_st j) t.

Lemma use_served_step t j :
  use_served t j \/ (taken lab t j /\ (rank (st (S j)) t < rank (st j) t)%nat) \/
  (~ taken lab t j /\ (rank (st (S j)) t <= rank (st j) t)%nat).
Proof.
  pose proof (Hmoves j) as Hs. unfold use_served, taken, use_lab.
  destruct (lab j) as [[t' o]|] eqn:El.
  - destruct (decide (t' = t)) as [->|Hne].
    + destruct o as [a|]; [by left; left; exists a|].
      destruct (cl_quiet _ _ _ _ Hclient _ _ _ Hs (Hok j)) as [_ [Hp|[_ Hr]]]; [|right; left; split; [by eexists|done]].
      left; right. intros (p & E & Hp'). unfold use_st in E. rewrite Hp in E. by injection E as <-.
    + right; right. split; [intros [? ?]; congruence|]. by eapply cl_other.
  - right; right. split; [by intros [? ?]|]. by rewrite Hs.
Qed.

Lemma use_rank t i j :
  (i <= j)%nat -> eventually (use_served t) i \/ (rank (st j) t <= rank (st i) t)%nat.
Proof.
  intros Hij. induction Hij as [|j Hij IH]; [by right|]. destruct IH as [|IH]; [by left|].
  destruct (use_served_step t j) as [?|[[_ ?]|[_ ?]]]; [left; by exists j|right; lia..].
Qed.

Context (Hfair : fair runnable st lab).
Context (Hrunnable : forall j t, usage_runnable lk_ready (use (st j)) t -> runnable (st j) t).

Lemma use_fair : fair (usage_runnable lk_ready) use_st use_lab.
Proof.
  intros t i. apply (eventually_measure 0 (fun i => rank (st i) t) (use_served t)); [|lia].
  clear i. intros i _.
  destruct (Hfair t i) as (j & Hj & [Ht|Hn]).
  - destruct (use_rank t i j Hj) as [|Hr]; [by left|].
    destruct (use_served_step t j) as [?|[[_ ?]|[? _]]]; [left; by exists j| |done].
    right. exists (S j). split; lia.
  - left. exists j. split; [done|]. right. intros Hu. by apply Hn, Hrunnable.
Qed.

Lemma use_run : usage_run lk_ready n use_st use_lab.
Proof. constructor; [apply Hstart|apply use_moves|apply use_fair]. Qed.

(** While a thread of the system waits for the lock, some thread gets it. *)
Lemma use_progress i t :
  us_phases (use (st i)) !! t = Some Trying -> eventually (fun j => exists t', lab j = Some (t', Some LAcq)) i.
Proof.
  intros Ht. destruct (lk_progress _ _ _ _ _ use_run Ht) as (j & Hj & t' & El).
  exists j. split; [done|]. exists t'. unfold use_lab in El.
  by destruct (lab j) as [[t1 [a|]]|]; [injection El as -> ->| |].
Qed.
End client.
