(* ===== verification/XlockDebug.v ===== *)
(** * The tracing of src/xlock.c

    The functions that [LOCK_DEBUG] adds around [xlock_lock] and [xlock_unlock], and
    the two numbers of processes they keep in the structure. Each reads the word of
    the lock, which other processes change, several times: what it reads is an
    argument. *)
From stdpp Require Import base list.
From Stdlib Require Import ZArith Lia.
From S2P Require Import Prelude.

Open Scope Z_scope.

(** [malloc] leaves the two fields indeterminate. *)
Record debug_pids : Type := DebugPids { lock_pid : option Z; unlock_pid : option Z }.

Definition pids0 : debug_pids := DebugPids None None.

(** The lines printed. *)
Inductive debug_line : Type :=
| CurrLine (pid val lock_pid unlock_pid : Z)
| PreLockLine (pid val : Z)
| PostLockLine (pid val : Z)
| PreUnlockLine (pid val : Z)
| AlreadyUnlocked
| PostUnlockLine (pid val : Z).

Definition known (x : option Z) : res Z := match x with Some v => Ok v | None => Undef end.

Section debug.
(** [getpid()]. *)
Context (pid : Z).

Definition print_xlock_debug (val : Z) (d : debug_pids) : res (list debug_line) :=
  l ← known (lock_pid d);
  u ← known (unlock_pid d);
  Ok [CurrLine pid val l u].

(** The word is read three times. *)
Definition pre_lock_debug (w1 w2 w3 : Z) (d : debug_pids) : res (list debug_line) :=
  differ ← (if w2 =? 0 then l ← known (lock_pid d); u ← known (unlock_pid d); Ok (negb (l =? u))
            else Ok true);
  more ← (if (differ : bool) then print_xlock_debug w3 d else Ok []);
  Ok (PreLockLine pid w1 :: more).

Definition post_lock_debug (w : Z) (d : debug_pids) : list debug_line * debug_pids :=
  ([PostLockLine pid w], DebugPids (Some pid) (unlock_pid d)).

Definition pre_unlock_debug (w1 w2 w3 : Z) (d : debug_pids) : res (list debug_line) :=
  bad ← (if w2 =? 0 then Ok true else l ← known (lock_pid d); Ok (negb (l =? pid)));
  more ← (if (bad : bool) then curr ← print_xlock_debug w3 d; Ok (AlreadyUnlocked :: curr) else Ok []);
  Ok (PreUnlockLine pid w1 :: more).

Definition post_unlock_debug (w : Z) (d : debug_pids) : list debug_line * debug_pids :=
  ([PostUnlockLine pid w], DebugPids (lock_pid d) (Some pid)).

(** One [xlock_lock] and one [xlock_unlock] of a process, the word being [w1], [w2] and
    [w3] before the lock and [w4] after the unlock; inside it is 1. *)
Definition debug_round (w1 w2 w3 w4 : Z) (d : debug_pids) : res (list debug_line * debug_pids) :=
  pre ← pre_lock_debug w1 w2 w3 d;
  let '(post, d1) := post_lock_debug 1 d in
  preu ← pre_unlock_debug 1 1 1 d1;
  let '(postu, d2) := post_unlock_debug w4 d1 in
  Ok (pre ++ post ++ preu ++ postu, d2).

(** The first [xlock_lock] of a process reads the two fields, or one of them, before
    anything has set them. *)
Theorem first_lock_undef w1 w2 w3 : pre_lock_debug w1 w2 w3 pids0 = Undef.
Proof. unfold pre_lock_debug. by destruct (w2 =? 0). Qed.

(** Later rounds are traced as they should be: the state of the lock is shown exactly
    when another process seems to have it, and no unlock is reported as a second
    one. *)
Theorem round_traced w1 w2 w3 w4 :
  debug_round w1 w2 w3 w4 (DebugPids (Some pid) (Some pid)) =
  Ok ([PreLockLine pid w1] ++ (if w2 =? 0 then [] else [CurrLine pid w3 pid pid]) ++
      [PostLockLine pid 1; PreUnlockLine pid 1; PostUnlockLine pid w4],
      DebugPids (Some pid) (Some pid)).
Proof.
  unfold debug_round, pre_lock_debug, pre_unlock_debug. cbn.
  destruct (w2 =? 0); cbn; by rewrite ?Z.eqb_refl.
Qed.

(** An unlock of a lock that is free is reported. *)
Theorem unlock_reported w1 w3 l u :
  pre_unlock_debug w1 0 w3 (DebugPids (Some l) (Some u)) =
  Ok [PreUnlockLine pid w1; AlreadyUnlocked; CurrLine pid w3 l u].
Proof. done. Qed.
End debug.
