(* ===== verification/XFair.v ===== *)
(** * Progress of the futex lock of src/xlock.c

    Under a fair scheduler the lock of Xlock.v does not stop: while a process waits
    in [xlock_lock], some process gets the lock. A given process may still wait for
    ever. *)
From stdpp Require Import base list relations.
From Stdlib Require Import ZArith Lia.
From S2P Require Import Prelude Stdio Lock Xlock Fair LockLive.

Open Scope Z_scope.

(** A process that has something to do: it is inside [xlock_lock] and awake, in
    [xlock_unlock], or in the critical section, which ends. *)
Definition awake (pc : xpc) : bool :=
  match pc with XIdle | XSleep => false | _ => true end.

Definition xlock_runnable (l : xlock) (t : nat) : Prop :=
  exists pc, xl_pcs l !! t = Some pc /\ awake pc = true.

(** In [xlock_lock]. *)
Definition trying (pc : xpc) : bool :=
  match pc with XTry | XWait | XSleep => true | _ => false end.

Definition xlock_trying (l : xlock) (t : nat) : Prop :=
  exists pc, xl_pcs l !! t = Some pc /\ trying pc = true.

(** A run of [n] processes from the lock just created. *)
Record xlock_run (n : nat) (st : nat -> xlock) (lab : nat -> option (nat * lock_act)) : Prop := {
  xr_init : st 0%nat = Xlock 0 (replicate n XIdle);
  xr_moves : moves xlock_step st lab;
  xr_fair : fair xlock_runnable st lab;
}.


(** ** What one step does to the others *)

Lemma woken_other pcs pcs' t pc :
  woken pcs pcs' -> pcs !! t = Some pc -> 
  pcs' !! t = Some pc \/ (pc = XSleep /\ pcs' !! t = Some XTry).
Proof.
  intros [H _] Ht. destruct (Forall2_lookup_l _ _ _ _ _ H Ht) as (pc' & -> & [->|[-> ->]]); auto.
Qed.

(** FUTEX_WAKE wakes somebody when there is somebody to wake. *)
Lemma woken_some pcs pcs' s :
  woken pcs pcs' -> pcs !! s = Some XSleep -> exists t, pcs' !! t = Some XTry.
Proof.
  intros [H Hlt] Hs.
  assert (Hc : (count is_sleep pcs' < count is_sleep pcs)%nat).
  { apply Hlt, count_pos. eauto. }
  clear Hlt Hs. unfold count in Hc.
  induction H as [|a b pcs pcs' Hab _ IH]; cbn in Hc; [lia|].
  destruct Hab as [->|[-> ->]].
  - destruct IH as (t & Ht); [lia|]. by exists (S t).
  - by exists 0%nat.
Qed.

(** A step of another process leaves the program point of [t] alone, unless it
    wakes it. *)
Lemma xlock_step_other t' a l l' t pc :
  xlock_step t' a l l' -> t' <> t -> xl_pcs l !! t = Some pc ->
  xl_pcs l' !! t = Some pc \/ (pc = XSleep /\ a = URet /\ xl_pcs l' !! t = Some XTry).
Proof.
  intros H Hne Ht. inv_xstep H; cbn in *;
    rewrite ?list_lookup_insert_ne by done; try (by left).
  match goal with Hw : woken _ _ |- _ => destruct (woken_other _ _ _ _ Hw Ht) as [->|[-> ->]] end; auto.
Qed.

(** The word is taken by an acquisition and given back by a release only. *)
Lemma xlock_step_word t a l l' :
  xlock_step t a l l' -> a = LAcq \/ a = LRel \/ xl_word l' = xl_word l.
Proof. intros H. inv_xstep H; cbn; auto. Qed.

Lemma xlock_step_rel t l l' :
  xlock_step t LRel l l' -> xl_pcs l !! t = Some XUnlock /\ xl_word l = 1.
Proof. intros H. by inv_xstep H. Qed.

Lemma xlock_step_acq t l l' :
  xlock_step t LAcq l l' -> xl_pcs l !! t = Some XTry /\ xl_word l = 0.
Proof. intros H. by inv_xstep H. Qed.

(** A process that waits goes on waiting until it gets the lock. *)
Lemma xlock_step_trying t' a l l' t :
  xlock_step t' a l l' -> xlock_trying l t -> a = LAcq \/ xlock_trying l' t.
Proof.
  intros H (pc & Ht & Hp). destruct (decide (t' = t)) as [->|Hne].
  - pose proof (lookup_lt_Some _ _ _ Ht) as Hlt. unfold xlock_trying.
    inv_xstep H; cbn in *; try (by left);
      match goal with H1 : _ !! t = Some _ |- _ => rewrite H1 in Ht; injection Ht as <- end;
      try done; right; rewrite list_lookup_insert_eq by done; eauto.
    by destruct (_ =? 1); eauto.
  - right. destruct (xlock_step_other _ _ _ _ _ _ H Hne Ht) as [E|(-> & _ & E)]; by eexists.
Qed.

(** ** The stages of a wait *)

Section progress.
Variables (n : nat) (st : nat -> xlock) (lab : nat -> option (nat * lock_act)).
Hypothesis Hrun : xlock_run n st lab.

Lemma xrun_inv j : xlock_inv (st j) /\ wake_inv (st j).
Proof.
  apply (run_invariant xlock_step (fun l => xlock_inv l /\ wake_inv l) st lab).
  - apply (xr_moves _ _ _ Hrun).
  - rewrite (xr_init _ _ _ Hrun). apply (xlock_reachable_inv n). apply rtc_refl.
  - intros t a l l' H [H1 H2]. split; [by eapply xlock_step_inv|by eapply wake_inv_step].
Qed.

(** Nothing happens at time [j], or one process takes a step. *)
Lemma xrun_cases j :
  (st (S j) = st j /\ lab j = None) \/
  (exists t a, lab j = Some (t, a) /\ xlock_step t a (st j) (st (S j))).
Proof.
  pose proof (xr_moves _ _ _ Hrun j) as H. destruct (lab j) as [[t a]|]; [right; eauto|by left].
Qed.

Lemma xrun_trying j t :
  xlock_trying (st j) t -> acquired lab j \/ xlock_trying (st (S j)) t.
Proof.
  intros H. destruct (xrun_cases j) as [[E _]|(t' & a & El & Hs)]; [rewrite E; auto|].
  destruct (xlock_step_trying _ _ _ _ _ Hs H) as [->|]; [left; by exists t'|by right].
Qed.

(** While the word is 0 nobody releases it. *)
Lemma xrun_word_0 j :
  xl_word (st j) = 0 -> acquired lab j \/ xl_word (st (S j)) = 0.
Proof.
  intros Hw. destruct (xrun_cases j) as [[E _]|(t' & a & El & Hs)]; [rewrite E; auto|].
  destruct (xlock_step_word _ _ _ _ Hs) as [->|[->|E]].
  - left. by exists t'.
  - apply xlock_step_rel in Hs as [_ E]. congruence.
  - right. by rewrite E.
Qed.

(** A stage of process [t] at the program point [pc], with the word 0: it lasts
    until the lock is acquired or [t] moves. *)
Lemma free_stage t pc (Q : nat -> Prop) :
  awake pc = true ->
  (forall j l', xl_word (st j) = 0 -> xl_pcs (st j) !! t = Some pc -> l' = st (S j) ->
     forall a, lab j = Some (t, a) -> xlock_step t a (st j) l' -> acquired lab j \/ Q (S j)) ->
  forall i, xl_word (st i) = 0 -> xl_pcs (st i) !! t = Some pc ->
  eventually (fun j => acquired lab j \/ Q j) i.
Proof.
  intros Ha Hmove i Hw Ht.
  apply (fair_leads_to xlock_runnable st lab t
    (fun j => xl_word (st j) = 0 /\ xl_pcs (st j) !! t = Some pc)); [apply (xr_fair _ _ _ Hrun)|..|done].
  - intros j [_ E]. by exists pc.
  - clear i Hw Ht. intros j [Hw Ht].
    destruct (xrun_word_0 j Hw) as [?|Hw']; [by left; left|].
    destruct (xrun_cases j) as [[E El]|(t' & a & El & Hs)].
    { right; right. split; [intros [a Ea]; congruence|by rewrite E]. }
    destruct (decide (t' = t)) as [->|Hne].
    + destruct (Hmove j _ Hw Ht eq_refl a El Hs); auto.
    + right; right. split; [intros [b Eb]; congruence|]. split; [done|].
      destruct (xlock_step_other _ _ _ _ _ _ Hs Hne Ht) as [|(-> & _)]; done.
Qed.

(** A process before [raw_lock_it] finds the word 0. *)
Lemma free_try i t :
  xl_word (st i) = 0 -> xl_pcs (st i) !! t = Some XTry -> eventually (acquired lab) i.
Proof.
  intros Hw Ht. destruct (free_stage t XTry (fun _ => False)) with (i := i) as (j & Hj & H); try done.
  - clear i Hw Ht. intros j l' Hw Ht _ a El Hs. left. exists t.
    destruct (st j) as [w pcs]. cbn in Hw, Ht. subst w. inv_xstep Hs; congruence.
  - exists j. naive_solver.
Qed.

(** A process before FUTEX_WAIT finds that the word is not 1 and tries again. *)
Lemma free_wait i t :
  xl_word (st i) = 0 -> xl_pcs (st i) !! t = Some XWait -> eventually (acquired lab) i.
Proof.
  intros Hw Ht.
  eapply eventually_bind.
  - apply (free_stage t XWait (fun j => xl_word (st j) = 0 /\ xl_pcs (st j) !! t = Some XTry)); try done.
    clear i Hw Ht. intros j l' Hw Ht -> a El Hs. right.
    destruct (st j) as [w pcs]. cbn in Hw, Ht. subst w.
    inv_xstep Hs; try congruence. cbn. by rewrite list_lookup_insert_eq by by eapply lookup_lt_Some.
  - intros j _ [H|[Hw' Ht']]; [by apply eventually_now|by eapply free_try].
Qed.

Definition free_trier (j : nat) : Prop :=
  xl_word (st j) = 0 /\ exists t, xl_pcs (st j) !! t = Some XTry.

(** A process before FUTEX_WAKE wakes a sleeper, if nobody else does. *)
Lemma free_wake i t s :
  xl_word (st i) = 0 -> xl_pcs (st i) !! t = Some XWake -> xl_pcs (st i) !! s = Some XSleep ->
  eventually (acquired lab) i.
Proof.
  intros Hw Ht Hs. eapply eventually_bind with (P := fun j => acquired lab j \/ free_trier j).
  - apply (fair_leads_to xlock_runnable st lab t (fun j => xl_word (st j) = 0 /\
      xl_pcs (st j) !! t = Some XWake /\ xl_pcs (st j) !! s = Some XSleep));
      [apply (xr_fair _ _ _ Hrun)| |clear i Hw Ht Hs|done].
    { intros j (_ & E & _). by exists XWake. }
    intros j (Hw & Ht & Hs).
    destruct (xrun_word_0 j Hw) as [?|Hw']; [by left; left|].
    destruct (xrun_cases j) as [[E El]|(t' & a & El & Hst)].
    { right; right. split; [intros [a Ea]; congruence|by rewrite E]. }
    destruct (decide (t' = t)) as [->|Hne].
    + right. left. right. split; [done|]. destruct (st j) as [w pcs]; cbn in *.
      inv_xstep Hst; cbn in *; try congruence.
      match goal with Hk : woken _ _ |- _ => destruct (woken_some _ _ _ Hk Hs) as [u Hu];
        pose proof (woken_lookup _ _ _ _ Hk Ht ltac:(done)) end.
      exists u. by rewrite list_lookup_insert_ne by congruence.
    + destruct (xlock_step_other _ _ _ _ _ _ Hst Hne Ht) as [Ht'|(? & _)]; [|done].
      destruct (decide (t' = s)) as [->|Hns].
      * right. left. right. split; [done|]. exists s. destruct (st j) as [w pcs]; cbn in *.
        inv_xstep Hst; cbn in *; try congruence.
        by rewrite list_lookup_insert_eq by by eapply lookup_lt_Some.
      * destruct (xlock_step_other _ _ _ _ _ _ Hst Hns Hs) as [Hs'|(_ & _ & E)].
        -- right; right. split; [intros [b Eb]; congruence|done].
        -- right. left. right. split; [done|]. by exists s.
  - intros j _ [H|[Hw' [u Hu]]]; [by apply eventually_now|by eapply free_try].
Qed.

(** The word is 0 and somebody waits: it, or a process that is about to wake a
    sleeper, is awake. *)
Lemma free_trying i t :
  xl_word (st i) = 0 -> xlock_trying (st i) t -> eventually (acquired lab) i.
Proof.
  intros Hw (pc & Ht & Hp).
  destruct pc; try done; [by eapply free_try|by eapply free_wait|].
  destruct (xrun_inv i) as [_ Hk]. destruct Hk as [|Ha]; [by apply count_pos; eauto|congruence|].
  apply count_pos in Ha as (u & pc & Hu & Hpc).
  destruct pc; try done; [by eapply free_try|by eapply free_wait|by eapply free_wake].
Qed.

(** While [h] holds the lock, no other process gets or releases it. *)
Lemma held_step j h t a :
  xlock_holds (st j) h -> lab j = Some (t, a) -> xlock_step t a (st j) (st (S j)) ->
  t <> h -> xl_word (st j) = 1 -> a <> LAcq /\ xl_word (st (S j)) = 1.
Proof.
  intros Hh El Hs Hne Hw. assert (a <> LAcq).
  { intros ->. apply xlock_step_acq in Hs as [_ E]. congruence. }
  split; [done|]. destruct (xlock_step_word _ _ _ _ Hs) as [|[->|E]]; [done| |congruence].
  destruct Hne. apply xlock_step_rel in Hs as [E _].
  eapply (lk_mutex (st j)); [apply xrun_inv| |done]. by exists XUnlock.
Qed.

(** A stage of the holder [h], with the word 1, while [t] waits. *)
Lemma held_stage h t pc (Q : nat -> Prop) :
  awake pc = true -> holding pc = true ->
  (forall j a, xl_word (st j) = 1 -> xl_pcs (st j) !! h = Some pc ->
     xlock_trying (st (S j)) t -> xlock_step h a (st j) (st (S j)) -> Q (S j)) ->
  forall i, xl_word (st i) = 1 -> xl_pcs (st i) !! h = Some pc -> xlock_trying (st i) t ->
  eventually (fun j => acquired lab j \/ Q j) i.
Proof.
  intros Ha Hh Hmove i Hw Ht Htry.
  apply (fair_leads_to xlock_runnable st lab h (fun j => xl_word (st j) = 1 /\
    xl_pcs (st j) !! h = Some pc /\ xlock_trying (st j) t));
    [apply (xr_fair _ _ _ Hrun)| |clear i Hw Ht Htry|done].
  { intros j (_ & E & _). by exists pc. }
  intros j (Hw & Ht & Htry).
  destruct (xrun_trying j t Htry) as [?|Htry']; [by left; left|].
  destruct (xrun_cases j) as [[E El]|(u & a & El & Hs)].
  { right; right. split; [intros [a Ea]; congruence|by rewrite E]. }
  destruct (decide (u = h)) as [->|Hne].
  - right. left. right. by eapply Hmove.
  - right; right. split; [intros [b Eb]; congruence|].
    assert (Hhold : xlock_holds (st j) h) by by exists pc.
    destruct (held_step _ _ _ _ Hhold El Hs Hne Hw) as [_ ->]. split; [done|]. split; [|done].
    destruct (xlock_step_other _ _ _ _ _ _ Hs Hne Ht) as [|(-> & _)]; done.
Qed.

Lemma held_unlock i h t :
  xl_word (st i) = 1 -> xl_pcs (st i) !! h = Some XUnlock -> xlock_trying (st i) t ->
  eventually (acquired lab) i.
Proof.
  intros Hw Hh Ht. eapply eventually_bind.
  - apply (held_stage h t XUnlock (fun j => xl_word (st j) = 0 /\ xlock_trying (st j) t)); try done.
    clear i Hw Hh Ht. intros j a Hw Hh Ht Hs. split; [|done].
    destruct (st j) as [w pcs], (st (S j)) as [w' pcs']; cbn in *. subst w.
    inv_xstep Hs; congruence.
  - intros j _ [H|[Hw' Ht']]; [by apply eventually_now|by eapply free_trying].
Qed.

Lemma held_hold i h t :
  xl_word (st i) = 1 -> xl_pcs (st i) !! h = Some XHold -> xlock_trying (st i) t ->
  eventually (acquired lab) i.
Proof.
  intros Hw Hh Ht. eapply eventually_bind.
  - apply (held_stage h t XHold (fun j => xl_word (st j) = 1 /\
      xl_pcs (st j) !! h = Some XUnlock /\ xlock_trying (st j) t)); try done.
    clear i Hw Hh Ht. intros j a Hw Hh Ht Hs.
    destruct (st j) as [w pcs], (st (S j)) as [w' pcs']; cbn in *. subst w.
    inv_xstep Hs; try congruence.
    by rewrite list_lookup_insert_eq by by eapply lookup_lt_Some.
  - intros j _ [H|(Hw' & Hh' & Ht')]; [by apply eventually_now|by eapply held_unlock].
Qed.

Lemma run_progress i t : xlock_trying (st i) t -> eventually (acquired lab) i.
Proof.
  intros Ht. destruct (xrun_inv i) as [[Hc Hw] _].
  destruct Hw as [Hw|Hw]; [by eapply free_trying|].
  assert (Hh : (0 < count holding (xl_pcs (st i)))%nat) by lia.
  apply count_pos in Hh as (h & pc & Hh & Hp).
  destruct pc; try done; [by eapply held_hold|by eapply held_unlock].
Qed.
End progress.

(** ** The lock as an instance of the interface *)

(** What the phase of a process says about its point in the lock. *)
Definition xlock_point (p : phase) (x : xpc) : bool :=
  match p with
  | Outside => bool_decide (x = XIdle)
  | Trying => trying x
  | Holding => bool_decide (x = XHold)
  | Releasing => bool_decide (x = XUnlock)
  | Returning => bool_decide (x = XWake)
  end.

#[export] Instance xlock_live : LockLive xlock := {
  lk_ready := xlock_runnable;
  lk_with l ph := Forall2 (fun p x => xlock_point p x = true) ph (xl_pcs l);
}.

Lemma points_woken ph pcs pcs' :
  Forall2 (fun p x => xlock_point p x = true) ph pcs -> woken pcs pcs' ->
  Forall2 (fun p x => xlock_point p x = true) ph pcs'.
Proof.
  intros H [Hw _]. revert ph H. induction Hw as [|a b pcs pcs' Hab _ IH]; intros ph H;
    inversion H as [|p ? ph' ? Hp Hr]; subst; constructor; [|by apply IH].
  destruct Hab as [->|[-> ->]]; [done|]. by destruct p.
Qed.

Lemma xlock_with_step t a (u u' : usage xlock) :
  usage_step t a u u' -> lk_with (us_lock u) (us_phases u) -> lk_with (us_lock u') (us_phases u').
Proof.
  destruct u as [l ph], u' as [l' ph']. intros (Hs & p & p' & Hp & Hn & Hu) Hw. cbn in *. subst ph'.
  destruct (Forall2_lookup_l _ _ _ _ _ Hw Hp) as (x & Hx & Hpx).
  inv_xstep Hs; cbn in *; simplify_eq; destruct p; try done; cbn in Hn; simplify_eq;
    try (by apply Forall2_insert; [|try done; destruct (_ =? 1)]).
  apply Forall2_insert; [by eapply points_woken|done].
Qed.

Lemma xlock_tau t l l' ph :
  xlock_step t LTau l l' -> xlock_inv l -> lk_with l ph -> ph !! t = Some Trying.
Proof.
  intros Hs [Hl H01] Hw. cbn in *.
  inv_xstep Hs; cbn in *;
    match goal with E : _ !! t = Some _ |- _ =>
      destruct (Forall2_lookup_r _ _ _ _ _ Hw E) as (p & -> & Hp) end; try by destruct p.
  exfalso. assert (0 < count holding pcs)%nat by (apply count_pos; eauto). lia.
Qed.

Section usage_run.
Context (n : nat) (st : nat -> usage xlock) (lab : nat -> option (nat * lock_act)).
Context (Hrun : usage_run lk_ready n st lab).

Lemma xrun_with j : lk_with (us_lock (st j)) (us_phases (st j)).
Proof.
  apply (run_invariant usage_step (fun u => lk_with (us_lock u) (us_phases u)) st lab); [apply Hrun|..].
  - rewrite (ur_init _ _ _ _ Hrun). by apply Forall2_replicate.
  - intros t' a u u' Hs. by apply xlock_with_step with (t := t') (a := a).
Qed.

Lemma xrun_lock : xlock_run n (fun j => us_lock (st j)) lab.
Proof.
  constructor.
  - by rewrite (ur_init _ _ _ _ Hrun).
  - intros j. pose proof (ur_moves _ _ _ _ Hrun j) as Hs.
    destruct (lab j) as [[t' a]|]; [apply Hs|by rewrite Hs].
  - intros t j. destruct (ur_fair _ _ _ _ Hrun t j) as (k & Hk & [?|Hn]); exists k; [by auto|].
    split; [done|]. right. intros (x & Hx & Ha). apply Hn.
    destruct (Forall2_lookup_r _ _ _ _ _ (xrun_with k) Hx) as (p & Hp & Hpx).
    exists p. split; [done|]. destruct p, x; try done; by eexists.
Qed.
End usage_run.

#[export] Instance xlock_live_laws : LockLiveLaws xlock.
Proof.
  constructor.
  - intros n. by apply Forall2_replicate.
  - apply xlock_with_step.
  - apply xlock_tau.
  - intros n st lab i t Hrun Ht. apply (run_progress n _ lab (xrun_lock n st lab Hrun) i t).
    destruct (Forall2_lookup_l _ _ _ _ _ (xrun_with n st lab Hrun i) Ht) as (x & Hx & Hp). by exists x.
Qed.

(** ** The theorem, and its limit *)

(** C8. The futex lock makes progress: whenever a process waits inside
    [xlock_lock], awake or asleep in the futex call, some process acquires the lock
    later, provided every process that can go on does so eventually and critical
    sections end. *)
Theorem xlock_progress n st lab i t :
  xlock_run n st lab -> xlock_trying (st i) t -> eventually (acquired lab) i.
Proof. intros Hrun. by apply (run_progress n st lab Hrun). Qed.

(** One process locks and unlocks once. *)
Definition solo_st (i : nat) : xlock :=
  match i with
  | 0%nat => Xlock 0 [XIdle]
  | 1%nat => Xlock 0 [XTry]
  | 2%nat => Xlock 1 [XHold]
  | 3%nat => Xlock 1 [XUnlock]
  | 4%nat => Xlock 0 [XWake]
  | _ => Xlock 0 [XIdle]
  end.

Definition solo_lab (i : nat) : option (nat * lock_act) :=
  match i with
  | 0%nat => Some (0%nat, LCall)
  | 1%nat => Some (0%nat, LAcq)
  | 2%nat => Some (0%nat, UCall)
  | 3%nat => Some (0%nat, LRel)
  | 4%nat => Some (0%nat, URet)
  | _ => None
  end.

Lemma woken_refl pcs : count is_sleep pcs = 0%nat -> woken pcs pcs.
Proof. intros H. split; [|lia]. apply Forall2_same_length_lookup_2; [done|naive_solver]. Qed.

Lemma solo_xrun : xlock_run 1 solo_st solo_lab.
Proof.
  constructor.
  - done.
  - intros [|[|[|[|[|i]]]]]; cbn; try done.
    + by apply xs_call.
    + by eapply xs_try_ok.
    + by apply xs_ucall.
    + by eapply xs_unlock_ok.
    + by apply (xs_wake 0 0 [XWake] [XWake]); [|apply woken_refl].
  - intros t i. exists (5 + i)%nat. split; [lia|]. right. intros (pc & H & Hp).
    destruct t; cbn in H; [injection H as <-|]; done.
Qed.

Lemma xlock_progress_witness : xlock_trying (solo_st 1) 0 /\ eventually (acquired solo_lab) 1.
Proof.
  split; [exists XTry; split; reflexivity|].
  apply (xlock_progress 1 solo_st solo_lab 1 0 solo_xrun). exists XTry. split; reflexivity.
Defined.

(** A round in which process 0 locks and unlocks while process 1 tests the word
    and finds it 1, goes to sleep too late and tries again. *)
Definition spin_st (k : nat) : xlock :=
  match k with
  | 0%nat => Xlock 0 [XIdle; XTry]
  | 1%nat => Xlock 0 [XTry; XTry]
  | 2%nat => Xlock 1 [XHold; XTry]
  | 3%nat => Xlock 1 [XHold; XWait]
  | 4%nat => Xlock 1 [XUnlock; XWait]
  | 5%nat => Xlock 0 [XWake; XWait]
  | _ => Xlock 0 [XWake; XTry]
  end.

Definition spin_lab (k : nat) : nat * lock_act :=
  match k with
  | 0%nat => (0%nat, LCall)
  | 1%nat => (0%nat, LAcq)
  | 2%nat => (1%nat, LTau)
  | 3%nat => (0%nat, UCall)
  | 4%nat => (0%nat, LRel)
  | 5%nat => (1%nat, LTau)
  | _ => (0%nat, URet)
  end.

Definition starve_st (i : nat) : xlock :=
  match i with 0%nat => Xlock 0 [XIdle; XIdle] | S i => spin_st (i mod 7) end.

Definition starve_lab (i : nat) : option (nat * lock_act) :=
  match i with 0%nat => Some (1%nat, LCall) | S i => Some (spin_lab (i mod 7)) end.

Lemma starve_step i : exists k, starve_st (S i) = spin_st k /\ starve_lab (S i) = Some (spin_lab k) /\
  (k < 7)%nat /\ k = (i mod 7)%nat /\ starve_st (S (S i)) = spin_st (if decide (k = 6%nat) then 0%nat else S k).
Proof.
  exists (i mod 7)%nat. pose proof (Nat.mod_upper_bound i 7 ltac:(lia)).
  do 4 (split; [done|]). cbn [starve_st]. f_equal.
  pose proof (Nat.div_mod_eq i 7). case_decide as E.
  - symmetry. apply (Nat.mod_unique _ _ (S (i / 7))); lia.
  - symmetry. apply (Nat.mod_unique _ _ (i / 7)); lia.
Qed.

Lemma starve_time i k : (k < 7)%nat -> starve_st (S (7 * i + k)) = spin_st k /\
  starve_lab (S (7 * i + k)) = Some (spin_lab k).
Proof.
  intros Hk. unfold starve_st, starve_lab.
  by replace ((7 * i + k) mod 7)%nat with k by (apply (Nat.mod_unique _ _ i); lia).
Qed.

Lemma starve_run : xlock_run 2 starve_st starve_lab.
Proof.
  constructor; [done|intros [|i]; [by apply xs_call|]|].
  - destruct (starve_step i) as (k & E1 & E2 & Hk & _ & E3).
    rewrite E2. destruct (spin_lab k) as [t a] eqn:Ek. rewrite E1, E3.
    destruct k as [|[|[|[|[|[|[|k]]]]]]]; [..|lia]; injection Ek as <- <-; cbn.
    + by apply xs_call.
    + by eapply xs_try_ok.
    + by eapply xs_try_fail.
    + by apply xs_ucall.
    + by eapply xs_unlock_ok.
    + by apply xs_wait.
    + by apply (xs_wake 0 0 [XWake; XTry] [XWake; XTry]); [|apply woken_refl].
  - intros [|[|t]] i.
    + exists (S (7 * i + 0)%nat). split; [lia|]. left. exists LCall. exact (proj2 (starve_time i 0 ltac:(lia))).
    + exists (S (7 * i + 2)%nat). split; [lia|]. left. exists LTau. exact (proj2 (starve_time i 2 ltac:(lia))).
    + exists (S (7 * i + 0)%nat). split; [lia|]. right.
      rewrite (proj1 (starve_time i 0 ltac:(lia))). by intros (pc & H & _).
Qed.

(** A given process may wait for ever: fairness does not help it if each time
    it looks the word is 1. *)
Theorem xlock_may_starve : exists st lab, xlock_run 2 st lab /\
  forall i, xlock_trying (st (S i)) 1 /\ lab (S i) <> Some (1%nat, LAcq).
Proof.
  exists starve_st, starve_lab. split; [apply starve_run|]. intros i.
  destruct (starve_step i) as (k & -> & -> & Hk & _).
  destruct k as [|[|[|[|[|[|[|k]]]]]]]; [..|lia];
    (split; [eexists; split; reflexivity|done]).
Qed.
