(* ===== verification/Counter.v ===== *)
(** * Counters incremented by several threads

    src/test_int_update.c ([update_int_thread], with and without [WITH_LOCK]) and
    src/test_xlock.c ([do_inc_file] under [test2]): a shared integer is read,
    incremented and written back by every thread in turn. The locked versions are
    one program over the interface of Lock.v; the integer of test_xlock is in a file,
    and an iteration whose [open] fails gives the lock back without an increment. *)
From stdpp Require Import base list relations.
From Stdlib Require Import ZArith Lia.
From S2P Require Import Prelude Lock Xlock.

Open Scope Z_scope.

(** ** With a lock *)

(** The program points of one thread; the argument is the number of iterations
    still to do, and [CWrite] carries the value that was read. *)
Inductive cpc : Type :=
| CIdle (k : nat)                  (* at the head of the loop *)
| CLocking (k : nat)               (* inside lock *)
| CRead (k : nat)                  (* lock held, before the read *)
| CWrite (k : nat) (v : Z)         (* lock held, before the write *)
| CUnlocking (k : nat)             (* inside unlock, not yet released *)
| CReturning (k : nat).            (* inside unlock, released *)

Definition todo (pc : cpc) : nat :=
  match pc with
  | CIdle k | CLocking k | CRead k | CWrite k _ | CUnlocking k | CReturning k => k
  end.

#[export] Instance cpc_eq_dec : EqDecision cpc.
Proof. solve_decision. Defined.

Section Counter.
Context {L : Type} `{LockLaws L}.

(** Whether the counter is in a file, whose [open] can fail. *)
Context (in_file : bool).

(** [c_skips] counts the iterations in which [open] failed. *)
Record cworld : Type := CWorld { c_lock : L; c_val : Z; c_skips : nat; c_ths : list cpc }.

(** A step of thread [t]: with the lock, or the read of the counter. *)
Inductive cstep_by : nat -> option lock_act -> cworld -> cworld -> Prop :=
| cs_call t k l l' v s ths :
    ths !! t = Some (CIdle (S k)) -> lk_step t LCall l l' ->
    cstep_by t (Some LCall) (CWorld l v s ths) (CWorld l' v s (<[t := CLocking (S k)]> ths))
| cs_tau t l l' v s ths :
    lk_step t LTau l l' -> cstep_by t (Some LTau) (CWorld l v s ths) (CWorld l' v s ths)
| cs_acq t k l l' v s ths :
    ths !! t = Some (CLocking k) -> lk_step t LAcq l l' ->
    cstep_by t (Some LAcq) (CWorld l v s ths) (CWorld l' v s (<[t := CRead k]> ths))
| cs_read t k l v s ths :
    ths !! t = Some (CRead k) ->
    cstep_by t None (CWorld l v s ths) (CWorld l v s (<[t := CWrite k v]> ths))
| cs_write t k x x' l l' v s ths :
    ths !! t = Some (CWrite (S k) x) -> int_of (x + 1) = Ok x' -> lk_step t UCall l l' ->
    cstep_by t (Some UCall) (CWorld l v s ths) (CWorld l' x' s (<[t := CUnlocking k]> ths))
| cs_skip t k l l' v s ths :                      (* open fails *)
    in_file = true -> ths !! t = Some (CRead (S k)) -> lk_step t UCall l l' ->
    cstep_by t (Some UCall) (CWorld l v s ths) (CWorld l' v (S s) (<[t := CUnlocking k]> ths))
| cs_rel t k l l' v s ths :
    ths !! t = Some (CUnlocking k) -> lk_step t LRel l l' ->
    cstep_by t (Some LRel) (CWorld l v s ths) (CWorld l' v s (<[t := CReturning k]> ths))
| cs_ret t k l l' v s ths :
    ths !! t = Some (CReturning k) -> lk_step t URet l l' ->
    cstep_by t (Some URet) (CWorld l v s ths) (CWorld l' v s (<[t := CIdle k]> ths)).

Definition cstep (w w' : cworld) : Prop := exists t o, cstep_by t o w w'.

Definition cworld0 (v0 : Z) (nr_threads iters : nat) : cworld :=
  CWorld (lk_init nr_threads) v0 0 (replicate nr_threads (CIdle iters)).

(** The points at which a thread owns the lock. *)
Definition owning (pc : cpc) : bool :=
  match pc with CRead _ | CWrite _ _ | CUnlocking _ => true | _ => false end.

Record cinv (total : Z) (w : cworld) : Prop := {
  ci_lock : lk_inv (c_lock w);
  ci_own : forall t pc, c_ths w !! t = Some pc -> owning pc = true -> lk_holds (c_lock w) t;
  ci_read : forall t k x, c_ths w !! t = Some (CWrite k x) -> x = c_val w;
  ci_sum : c_val w + Z.of_nat (c_skips w) + Z.of_nat (sum_list_with todo (c_ths w)) = total;
}.

Lemma lookup_insert_cases {A} (l : list A) i j x y :
  <[i := x]> l !! j = Some y -> (i = j /\ y = x /\ (j < length l)%nat) \/ (i <> j /\ l !! j = Some y).
Proof.
  intros Hj. destruct (decide (i = j)) as [->|Hne].
  - pose proof (lookup_lt_Some _ _ _ Hj) as Hl. rewrite length_insert in Hl.
    rewrite list_lookup_insert_eq in Hj by done. injection Hj as ->. auto.
  - rewrite list_lookup_insert_ne in Hj by done. auto.
Qed.

(** Replacing one thread, with a lock step of that thread. *)
Lemma cinv_update total t a l l' v v' s s' ths pc pc' :
  cinv total (CWorld l v s ths) -> ths !! t = Some pc ->
  (l' = l \/ lk_step t a l l') ->
  (owning pc' = true -> lk_holds l' t) ->
  (v' = v \/ lk_holds l t) ->
  (forall k x, pc' = CWrite k x -> x = v') ->
  v' + Z.of_nat s' + Z.of_nat (todo pc') = v + Z.of_nat s + Z.of_nat (todo pc) ->
  cinv total (CWorld l' v' s' (<[t := pc']> ths)).
Proof.
  intros [Hl Ho Hr Hs] Ht Hstep Hown Hv Hw Hsum. cbn in *.
  assert (Hk : forall t', t' <> t -> lk_holds l t' -> lk_holds l' t').
  { destruct Hstep as [->|Hstep]; [done|]. intros t' Hne Hh.
    apply (lk_keep t a l l' t' Hstep Hl); auto. }
  constructor; cbn.
  - destruct Hstep as [->|Hstep]; [done|]. by eapply lk_step_inv.
  - intros t' pc1 [(-> & -> & _)|[Hne Ht']]%lookup_insert_cases Hown'; [auto|].
    apply Hk; [congruence|]. by eapply Ho.
  - intros t' k x [(-> & E & _)|[Hne Ht']]%lookup_insert_cases; [symmetry in E; by eapply Hw|].
    destruct Hv as [->|Hh]; [by eapply Hr|].
    assert (Ht2 : lk_holds l t') by (by eapply Ho).
    destruct Hne. by eapply lk_mutex.
  - pose proof (sum_list_with_insert todo ths t pc pc' Ht). lia.
Qed.

Lemma cinv_step_by total t0 o w w' : cinv total w -> cstep_by t0 o w w' -> cinv total w'.
Proof.
  intros Hi Hs. destruct Hs as [t k l l' v s ths Ht Hl|t l l' v s ths Hl|t k l l' v s ths Ht Hl
    |t k l v s ths Ht|t k x x' l l' v s ths Ht Hx Hl|t k l l' v s ths _ Ht Hl
    |t k l l' v s ths Ht Hl|t k l l' v s ths Ht Hl].
  - eapply (cinv_update total t LCall l); [done..|auto|done|auto|done|done].
  - destruct Hi as [Hl' Ho Hr Hsum]. cbn in *. constructor; cbn; [|..|done].
    + by eapply lk_step_inv.
    + intros t' pc Ht' Hp. apply (lk_keep t LTau l l' t' Hl Hl'); [by right|]. by eapply Ho.
    + done.
  - eapply (cinv_update total t LAcq l); [done..|auto| |auto|done|done].
    intros _. by eapply lk_acq, Hi.
  - eapply (cinv_update total t LTau l); [done..|auto| |auto| |done].
    + intros _. by apply (ci_own _ _ Hi t (CRead k)).
    + intros k' x [= _ ->]. done.
  - assert (Hh : lk_holds l t) by (by apply (ci_own _ _ Hi t (CWrite (S k) x))).
    assert (x = v) as -> by (by apply (ci_read _ _ Hi t (S k))).
    apply int_of_Ok_inv in Hx as [-> _].
    eapply (cinv_update total t UCall l); [done..|auto| |auto|done|cbn; lia].
    intros _. apply (lk_keep t UCall l l' t Hl); [apply Hi|by right|done].
  - assert (Hh : lk_holds l t) by (by apply (ci_own _ _ Hi t (CRead (S k)))).
    eapply (cinv_update total t UCall l); [done..|auto| |auto|done|cbn; lia].
    intros _. apply (lk_keep t UCall l l' t Hl); [apply Hi|by right|done].
  - eapply (cinv_update total t LRel l); [done..|auto|done|auto|done|done].
  - eapply (cinv_update total t URet l); [done..|auto|done|auto|done|done].
Qed.

Lemma cinv_step total w w' : cinv total w -> cstep w w' -> cinv total w'.
Proof. intros Hi (t & o & Hs). by eapply cinv_step_by. Qed.

Lemma cinv_init v0 n iters :
  cinv (v0 + Z.of_nat n * Z.of_nat iters) (cworld0 v0 n iters).
Proof.
  constructor; cbn.
  - apply lk_init_inv.
  - intros t pc [-> _]%lookup_replicate. done.
  - intros t k x [[=] _]%lookup_replicate.
  - rewrite sum_replicate. cbn. lia.
Qed.

Lemma cinv_reach v0 n iters w :
  rtc cstep (cworld0 v0 n iters) w -> cinv (v0 + Z.of_nat n * Z.of_nat iters) w.
Proof.
  intros Hr. assert (G : forall w1 w2, rtc cstep w1 w2 ->
    cinv (v0 + Z.of_nat n * Z.of_nat iters) w1 -> cinv (v0 + Z.of_nat n * Z.of_nat iters) w2).
  { induction 1; [done|]. eauto using cinv_step. }
  eapply G; [done|]. apply cinv_init.
Qed.

Definition all_done (w : cworld) : Prop := Forall (eq (CIdle 0)) (c_ths w).

#[global] Instance all_done_dec w : Decision (all_done w).
Proof. unfold all_done. apply Forall_dec. intros pc. apply _. Defined.

Lemma all_done_val total w : cinv total w -> all_done w -> c_val w = total - Z.of_nat (c_skips w).
Proof.
  intros Hi Hd. rewrite <- (ci_sum _ _ Hi).
  assert (E : sum_list_with todo (c_ths w) = 0%nat); [|lia].
  unfold all_done in Hd. induction Hd as [|pc pcs <- _ IH]; [done|]. cbn. done.
Qed.

Lemma locked_counter_exact v0 n iters w :
  rtc cstep (cworld0 v0 n iters) w -> all_done w ->
  c_val w = v0 + Z.of_nat n * Z.of_nat iters - Z.of_nat (c_skips w).
Proof. intros Hr. by apply all_done_val, cinv_reach. Qed.

(** Before the end the value never exceeds the total, so that with a total below
    [INT_MAX] no increment overflows. *)
Lemma locked_counter_bound v0 n iters w :
  rtc cstep (cworld0 v0 n iters) w -> c_val w <= v0 + Z.of_nat n * Z.of_nat iters.
Proof. intros Hr. rewrite <- (ci_sum _ _ (cinv_reach _ _ _ _ Hr)). lia. Qed.

(** A counter in memory is incremented in every iteration. *)
Lemma no_skips_step t o w w' : in_file = false -> cstep_by t o w w' -> c_skips w' = c_skips w.
Proof. intros Hf Hs. destruct Hs; [done..| |done|done]. congruence. Qed.

Lemma no_skips v0 n iters w :
  in_file = false -> rtc cstep (cworld0 v0 n iters) w -> c_skips w = 0%nat.
Proof.
  intros Hf Hr. assert (G : forall w1 w2, rtc cstep w1 w2 -> c_skips w2 = c_skips w1).
  { induction 1 as [|w1 w2 w3 (t & o & Hs) _ IH]; [done|]. rewrite IH. by eapply no_skips_step. }
  by rewrite (G _ _ Hr).
Qed.
End Counter.
Arguments cworld : clear implicits.

(** ** src/test_xlock.c: a counter in a file, under the futex lock *)

(** The file [test_inc]: absent, there but empty, or holding an int. *)
Abbreviation inc_file := (option (option Z)).

(** [do_inc_file] run on its own; [open_ok] is the result of [open]. A file that is
    absent is created and started from 0, an empty one leaves [fint] indeterminate.
    The [read] and the [write] of an open file are taken to succeed. *)
Definition do_inc_file (open_ok : bool) (file : inc_file) : res inc_file :=
  if open_ok then
    fint ← match file with None => Ok 0 | Some (Some v) => Ok v | Some None => Undef end;
    fint ← int_of (fint + 1);
    Ok (Some (Some fint))
  else Ok file.

Definition MAX_ITER : nat := 20.

(** [test2] run by [nr_forks] processes, the file starting at [v0] (0 if absent) and
    the word of the file [this_lock] at [word]: reading and writing the file are the
    two accesses of [do_inc_file]. *)
Definition test_xlock_main (word v0 : Z) (nr_forks : nat) : cworld xlock :=
  CWorld (Xlock word (replicate nr_forks XIdle)) v0 0 (replicate nr_forks (CIdle MAX_ITER)).

(** The increments of all processes are counted: when every process of
    test_xlock has finished, the integer in the file has grown by 20 for each, less
    one for every [open] that failed. *)
Theorem test_xlock_exact v0 nr_forks w :
  rtc (cstep true) (test_xlock_main 0 v0 nr_forks) w -> all_done w ->
  c_val w = v0 + 20 * Z.of_nat nr_forks - Z.of_nat (c_skips w).
Proof.
  intros Hr Hd. rewrite (locked_counter_exact true v0 nr_forks MAX_ITER w Hr Hd). unfold MAX_ITER. lia.
Qed.

(** The accesses of a process that holds the lock are those of [do_inc_file]. *)
Lemma locked_inc_file t k (l l' : xlock) v s ths file' (open_ok : bool) :
  ths !! t = Some (CRead (S k)) -> lk_step t UCall l l' ->
  do_inc_file open_ok (Some (Some v)) = Ok file' ->
  exists v' s', file' = Some (Some v') /\
    rtc (cstep true) (CWorld l v s ths) (CWorld l' v' s' (<[t := CUnlocking k]> ths)).
Proof.
  intros Ht Hl. unfold do_inc_file. destruct open_ok.
  - rewrite bind_Ok. destruct (int_of (v + 1)) as [v'| |] eqn:E; [|done..]. intros [= <-].
    exists v', s. split; [done|]. eapply rtc_l; [eexists _, _; by apply (cs_read true t (S k))|].
    eapply rtc_l; [|apply rtc_refl]. eexists _, _.
    rewrite <- (list_insert_insert_eq ths t (CUnlocking k) (CWrite (S k) v)).
    apply (cs_write true t k v v' l l' v s); [|done|done].
    apply list_lookup_insert_eq. by eapply lookup_lt_Some.
  - intros [= <-]. exists v, (S s). split; [done|]. eapply rtc_l; [|apply rtc_refl].
    eexists _, _. by apply (cs_skip true t k l l' v s).
Qed.

(** A lock file left behind with a word that is not 0 stops every process in its first
    iteration. *)
Definition shut_out (word v0 : Z) (w : cworld xlock) : Prop :=
  xl_word (c_lock w) = word /\ c_val w = v0 /\
  Forall (fun pc => pc = XIdle \/ pc = XTry \/ pc = XWait \/ pc = XSleep) (xl_pcs (c_lock w)) /\
  Forall (fun pc => pc = CIdle MAX_ITER \/ pc = CLocking MAX_ITER) (c_ths w).

Lemma shut_out_step word v0 w w' : word <> 0 -> shut_out word v0 w -> cstep true w w' -> shut_out word v0 w'.
Proof.
  intros Hw (H1 & H2 & H3 & H4) (t & o & Hs). unfold shut_out.
  assert (Hth : forall pc, c_ths w !! t = Some pc -> pc = CIdle MAX_ITER \/ pc = CLocking MAX_ITER)
    by (intros pc Hpc; by apply (proj1 (Forall_lookup _ _) H4 t)).
  assert (Hx : forall pc, xl_pcs (c_lock w) !! t = Some pc ->
    pc = XIdle \/ pc = XTry \/ pc = XWait \/ pc = XSleep)
    by (intros pc Hpc; by apply (proj1 (Forall_lookup _ _) H3 t)).
  destruct Hs as [t k l l' v s ths Ht Hl|t l l' v s ths Hl|t k l l' v s ths Ht Hl
    |t k l v s ths Ht|t k x x' l l' v s ths Ht _ Hl|t k l l' v s ths _ Ht Hl
    |t k l l' v s ths Ht Hl|t k l l' v s ths Ht Hl]; cbn in *;
    try (destruct (Hth _ Ht) as [E|E]; discriminate E);
    inversion Hl; subst; cbn in *;
    try match goal with E : _ !! t = Some _ |- _ => destruct (Hx _ E) as [?|[?|[?|?]]]; discriminate end;
    repeat match goal with E : raw_lock_it _ = _ |- _ =>
      unfold raw_lock_it, compare_and_swap in E;
      rewrite (proj2 (Z.eqb_neq _ _)) in E by done; try discriminate E; injection E as <- end;
    (split; [done|]; split; [done|]; split; [|try done]).
  - apply Forall_insert; [done|auto].
  - apply Forall_insert; [done|]. destruct (Hth _ Ht) as [E|E]; [|discriminate E].
    right. by injection E as ->.
  - apply Forall_insert; [done|auto].
  - apply Forall_insert; [done|]. case_match; auto.
  - apply Forall_insert; [done|auto].
Qed.

Theorem stale_lock word v0 n w :
  word <> 0 -> rtc (cstep true) (test_xlock_main word v0 n) w -> (0 < n)%nat ->
  c_val w = v0 /\ ~ all_done w.
Proof.
  intros Hw Hr Hn.
  assert (G : forall w1 w2, rtc (cstep true) w1 w2 -> shut_out word v0 w1 ->
    shut_out word v0 w2 /\ length (c_ths w2) = length (c_ths w1)).
  { induction 1 as [|w1 w2 w3 Hs _ IH]; [done|]. intros H1.
    destruct IH as [H2 E]; [by eapply shut_out_step|]. split; [done|]. rewrite E.
    destruct Hs as (t & o & Hs). destruct Hs; cbn; by rewrite ?length_insert. }
  destruct (G _ _ Hr) as [(_ & Hv & _ & Hp) Hl].
  { split; [done|]. split; [done|]. split; apply Forall_replicate; by left. }
  split; [done|]. intros Hd. cbn in Hl. rewrite length_replicate in Hl. unfold all_done in Hd.
  destruct (c_ths w) as [|pc pcs]; [cbn in Hl; lia|].
  inversion Hd; subst. inversion Hp as [|? ? [E|E] _]; discriminate E.
Qed.

Lemma stale_lock_witness :
  c_val (test_xlock_main 1 7 2) = 7 /\ ~ all_done (test_xlock_main 1 7 2).
Proof. apply (stale_lock 1 7 2); [done|apply rtc_refl|lia]. Defined.

(** ** src/test_int_update.c *)

(** The verdict of [main]: whether it prints PASSED. *)
Definition verdict (update_int max_update_iters nr_threads : Z) : res bool :=
  p ← int_of (max_update_iters * nr_threads); Ok (update_int =? p).

(** Built with WITH_LOCK, test_int_update prints PASSED, however its threads are
    scheduled, if the total fits an int. *)
Theorem int_update_with_lock nr_threads iters (w : cworld mutex) :
  Z.of_nat nr_threads * Z.of_nat iters <= INT_MAX ->
  rtc (cstep false) (cworld0 0 nr_threads iters) w -> all_done w ->
  verdict (c_val w) (Z.of_nat iters) (Z.of_nat nr_threads) = Ok true.
Proof.
  intros Hmax Hr Hd. unfold verdict. rewrite int_of_Ok by (unfold INT_MIN; lia). rewrite bind_Ok.
  rewrite (locked_counter_exact false 0 nr_threads iters w Hr Hd), (no_skips false 0 _ _ w eq_refl Hr).
  by rewrite (proj2 (Z.eqb_eq _ _)) by lia.
Qed.

(** Without WITH_LOCK: the read and the write of [update_int++] of different
    threads interleave. *)
Inductive upc : Type :=
| UStart (k : nat)                 (* before the assignment to last_update_int *)
| UIdle (k : nat)
| UWrite (k : nat) (x : Z).

Record uworld : Type := UWorld { u_val : Z; u_last : Z; u_ths : list upc }.

Inductive ustep : uworld -> uworld -> Prop :=
| us_last t k v last ths :
    ths !! t = Some (UStart k) ->
    ustep (UWorld v last ths) (UWorld v (Z.of_nat t) (<[t := UIdle k]> ths))
| us_read t k v last ths :
    ths !! t = Some (UIdle (S k)) ->
    ustep (UWorld v last ths) (UWorld v last (<[t := UWrite k v]> ths))
| us_write t k x x' v last ths :
    ths !! t = Some (UWrite k x) -> int_of (x + 1) = Ok x' ->
    ustep (UWorld v last ths) (UWorld x' last (<[t := UIdle k]> ths)).

Definition uworld0 (nr_threads iters : nat) : uworld := UWorld 0 0 (replicate nr_threads (UStart iters)).

Lemma lost_round k v last :
  0 <= v < INT_MAX ->
  rtc ustep (UWorld v last [UIdle (S k); UIdle (S k)]) (UWorld (v + 1) last [UIdle k; UIdle k]).
Proof.
  intros Hv. assert (E : int_of (v + 1) = Ok (v + 1)) by (apply int_of_Ok; unfold INT_MIN; lia).
  eapply rtc_l; [by apply (us_read 0)|]. cbn.
  eapply rtc_l; [by apply (us_read 1)|]. cbn.
  eapply rtc_l; [by eapply (us_write 0); [reflexivity|exact E]|]. cbn.
  eapply rtc_l; [by eapply (us_write 1); [reflexivity|exact E]|]. cbn. apply rtc_refl.
Qed.

(** Without the lock updates can be lost: two threads of [iters] iterations can
    end with half of the increments, and the program then prints FAILED. *)
Theorem int_update_lost_updates iters :
  (0 < iters)%nat -> 2 * Z.of_nat iters <= INT_MAX ->
  exists w, rtc ustep (uworld0 2 iters) w /\ Forall (eq (UIdle 0)) (u_ths w) /\
    u_val w = Z.of_nat iters /\ verdict (u_val w) (Z.of_nat iters) 2 = Ok false.
Proof.
  intros Hpos Hmax.
  assert (G : forall k v, 0 <= v -> v + Z.of_nat k <= INT_MAX ->
    rtc ustep (UWorld v 1 [UIdle k; UIdle k]) (UWorld (v + Z.of_nat k) 1 [UIdle 0; UIdle 0])).
  { induction k as [|k IH]; intros v Hv Hm.
    - replace (v + Z.of_nat 0) with v by lia. apply rtc_refl.
    - etransitivity; [apply lost_round; lia|].
      replace (v + Z.of_nat (S k)) with (v + 1 + Z.of_nat k) by lia. apply IH; lia. }
  exists (UWorld (Z.of_nat iters) 1 [UIdle 0; UIdle 0]). split.
  { eapply rtc_l; [by apply (us_last 0)|]. cbn. eapply rtc_l; [by apply (us_last 1)|]. cbn.
    apply (G iters 0); lia. }
  split; [by repeat constructor|]. split; [done|]. unfold verdict. cbn [u_val].
  rewrite int_of_Ok by (unfold INT_MIN; lia). rewrite bind_Ok.
  by rewrite (proj2 (Z.eqb_neq _ _)) by lia.
Qed.

Lemma int_update_lost_updates_witness :
  exists w, rtc ustep (uworld0 2 1000) w /\ u_val w = 1000.
Proof.
  destruct (int_update_lost_updates 1000) as (w & H1 & _ & H2 & _).
  - lia.
  - vm_compute. discriminate.
  - exists w. split; [exact H1|exact H2].
Defined.

(** Runs that reach the end, for one thread and one iteration. *)
Lemma one_thread_run :
  exists w : cworld mutex, rtc (cstep false) (cworld0 0 1 1) w /\ all_done w.
Proof.
  eexists. split.
  - eapply rtc_l; [eexists _, _; eapply (cs_call false 0); [reflexivity|apply mutex_call]|]. cbn.
    eapply rtc_l; [eexists _, _; eapply (cs_acq false 0); [reflexivity|apply mutex_acq]|]. cbn.
    eapply rtc_l; [eexists _, _; eapply (cs_read false 0); reflexivity|]. cbn.
    eapply rtc_l; [eexists _, _; eapply (cs_write false 0); [reflexivity|reflexivity|apply mutex_ucall]|]. cbn.
    eapply rtc_l; [eexists _, _; eapply (cs_rel false 0); [reflexivity|apply mutex_rel]|]. cbn.
    eapply rtc_l; [eexists _, _; eapply (cs_ret false 0); [reflexivity|apply mutex_uret]|]. cbn. apply rtc_refl.
  - by repeat constructor.
Qed.

Lemma int_update_with_lock_witness :
  exists w : cworld mutex, verdict (c_val w) 1 1 = Ok true.
Proof.
  destruct one_thread_run as (w & Hr & Hd). exists w.
  apply (int_update_with_lock 1 1 w); [vm_compute; discriminate|exact Hr|exact Hd].
Defined.

(** One process on its own runs to the end of its loop. *)
Lemma xlock_solo_run k v :
  0 <= v -> v + Z.of_nat k <= INT_MAX ->
  rtc (cstep true) (CWorld (Xlock 0 [XIdle]) v 0 [CIdle k])
            (CWorld (Xlock 0 [XIdle]) (v + Z.of_nat k) 0 [CIdle 0]).
Proof.
  revert v. induction k as [|k IH]; intros v Hv Hm.
  { replace (v + Z.of_nat 0) with v by lia. apply rtc_refl. }
  replace (v + Z.of_nat (S k)) with (v + 1 + Z.of_nat k) by lia.
  eapply rtc_l; [eexists _, _; eapply (cs_call true 0); [reflexivity|by apply (xs_call 0)]|]. cbn.
  eapply rtc_l; [eexists _, _; eapply (cs_acq true 0); [reflexivity|by eapply (xs_try_ok 0)]|]. cbn.
  eapply rtc_l; [eexists _, _; eapply (cs_read true 0); reflexivity|]. cbn.
  eapply rtc_l; [eexists _, _; eapply (cs_write true 0);
    [reflexivity|apply int_of_Ok; unfold INT_MIN; lia|by apply (xs_ucall 0)]|]. cbn.
  eapply rtc_l; [eexists _, _; eapply (cs_rel true 0); [reflexivity|by eapply (xs_unlock_ok 0)]|]. cbn.
  eapply rtc_l; [eexists _, _; eapply (cs_ret true 0); [reflexivity|apply (xs_wake 0 0 [XWake] [XWake]); [done|]]|].
  - split; [repeat constructor; by left|]. unfold count. cbn. lia.
  - cbn. apply IH; lia.
Qed.

Lemma test_xlock_exact_witness :
  exists w, rtc (cstep true) (test_xlock_main 0 5 1) w /\ c_val w = 25.
Proof.
  exists (CWorld (Xlock 0 [XIdle]) 25 0 [CIdle 0]).
  assert (Hr : rtc (cstep true) (test_xlock_main 0 5 1) (CWorld (Xlock 0 [XIdle]) 25 0 [CIdle 0])).
  { apply (xlock_solo_run 20 5); [lia|]. vm_compute. discriminate. }
  split; [exact Hr|]. apply (test_xlock_exact 5 1 _ Hr). repeat constructor.
Defined.
