(* ===== verification/CounterMain.v ===== *)
(** * The programs around the counters

    [main] of src/test_xlock.c and src/test_int_update.c, from their arguments to
    what they print, and [test1] of test_xlock.c, in which the processes increment
    the number in the file without the lock. *)
From stdpp Require Import base list strings relations.
From Stdlib Require Import ZArith Lia Ascii.
From S2P Require Import Prelude Stdio Lock Xlock Counter.

Open Scope Z_scope.

(** ** [test1]: the file without the lock *)

















(** ** [main] of src/test_xlock.c *)

(** The value the first process under the lock starts from; an empty file leaves the
    variable it is read into indeterminate, and is not followed further. *)
Definition counter_start (file : inc_file) : res Z :=
  match file with None => Ok 0 | Some (Some v) => Ok v | Some None => Undef end.

(** [None] if the file is not there or cannot be opened. *)
Definition print_inc_file (file : inc_file) (open_ok : bool) : res (option Z) :=
  match file with
  | None => Ok None
  | Some v => if open_ok then match v with Some v => Ok (Some v) | None => Undef end else Ok None
  end.

(** The start: [None] is the usage message with status -1, otherwise the number of
    processes that run [test2]. A failed [fork] is skipped. A lock that cannot be
    opened is a null pointer to every process. *)
Definition xmain_start (lock : option xlock_t) (fork_ok : nat -> bool) (args : list (list ascii))
    : res (option nat) :=
  match args with
  | forks :: usecs :: _ =>
      nr_forks ← scan_arg None forks;
      iter_sleep ← scan_arg (Some 0) usecs;
      let n := count fork_ok (seq 0 (Z.to_nat nr_forks)) in
      ub_unless (bool_decide (n = 0%nat \/ lock <> None)) (Ok (Some n))
  | _ => Ok None
  end.

(** The processes at their start; [word] is what the file this_lock holds. *)
Definition xmain_world (word : Z) (file : inc_file) (n : nat) : res (cworld xlock) :=
  v0 ← counter_start file; Ok (test_xlock_main word v0 n).

(** The end, after the last process, with the counters of [test_xlock_main]. A file
    that no process could open is as it was. *)
Definition xmain_end (file : inc_file) (n : nat) (w : cworld xlock) (open_ok : bool) : res (option Z) :=
  print_inc_file (if bool_decide (c_skips w = n * MAX_ITER)%nat then file else Some (Some (c_val w)))
    open_ok.

(** What is printed when the processes have ended: the increments that were not
    skipped are added. Nothing is printed if the file was absent and still is. *)
Definition grown (file : inc_file) (v0 : Z) (n skips : nat) : option Z :=
  if bool_decide (file = None /\ skips = n * MAX_ITER)%nat then None
  else Some (v0 + 20 * Z.of_nat n - Z.of_nat skips).

Lemma xmain_end_spec file v0 n (w : cworld xlock) :
  counter_start file = Ok v0 -> c_val w = v0 + 20 * Z.of_nat n - Z.of_nat (c_skips w) ->
  xmain_end file n w true = Ok (grown file v0 n (c_skips w)).
Proof.
  intros Hv Hc. unfold xmain_end, grown. rewrite Hc. unfold MAX_ITER.
  destruct file as [[v|]|]; cbn in Hv; [injection Hv as ->| |injection Hv as <-]; [|done|].
  - rewrite (bool_decide_eq_false_2 (_ /\ _)) by (by intros [? _]).
    case_bool_decide as E; cbn; [|done]. repeat f_equal. lia.
  - destruct (decide (c_skips w = n * 20)%nat) as [E|E].
    + by rewrite !bool_decide_eq_true_2 by auto.
    + rewrite !bool_decide_eq_false_2 by (done || by intros [_ ?]). done.
Qed.

(** From the arguments to the output: [nr_forks] processes start, and whatever their
    schedule the number printed at the end is 20 for each more than the file held,
    less one for every [open] that failed. *)
Theorem test_xlock_prints file v0 lock nr_forks usecs n :
  counter_start file = Ok v0 -> 0 < nr_forks <= INT_MAX -> 0 <= usecs <= INT_MAX ->
  n = Z.to_nat nr_forks ->
  xmain_start (Some lock) (fun _ => true) [print_radix 10 1 nr_forks; print_radix 10 1 usecs] =
    Ok (Some n) /\
  forall w0 w, xmain_world 0 file n = Ok w0 -> rtc (cstep true) w0 w -> all_done w ->
    xmain_end file n w true = Ok (grown file v0 n (c_skips w)).
Proof.
  intros Hv Hn Hu ->. split.
  - unfold xmain_start. rewrite !scan_arg_print, !bind_Ok by lia. cbv zeta.
    rewrite count_all, length_seq, bool_decide_eq_true_2 by (done || by right). done.
  - unfold xmain_world. rewrite Hv, bind_Ok. intros w0 w [= <-] Hr Hd.
    apply xmain_end_spec; [done|]. by apply test_xlock_exact.
Qed.

(** ** [main] of src/test_int_update.c *)

Inductive umain : Type :=
| UUsage                                 (* status 0 *)
| UFailed (created : nat)                (* status -1, which ends the threads created *)
| UStarted (nr_threads : nat) (iters : Z).

(** The loop that creates the threads, for the rounds left: the first failure. *)
Fixpoint create_loop (rounds i : nat) (create_ok : nat -> bool) : option nat :=
  match rounds with
  | O => None
  | S rounds => if create_ok i then create_loop rounds (S i) create_ok else Some i
  end.

(** The array of threads is used without a test for its allocation. *)
Definition umain_start (malloc_ok : bool) (create_ok : nat -> bool) (args : list (list ascii)) : res umain :=
  match args with
  | threads :: iters :: _ =>
      nr_threads ← scan_arg None threads;
      max_update_iters ← scan_arg (Some 0) iters;
      ub_unless (malloc_ok || (nr_threads <=? 0))
        (Ok match create_loop (Z.to_nat nr_threads) 0 create_ok with
            | Some created => UFailed created
            | None => UStarted (Z.to_nat nr_threads) max_update_iters
            end)
  | _ => Ok UUsage
  end.

Lemma create_loop_none rounds i : create_loop rounds i (fun _ => true) = None.
Proof. revert i. induction rounds as [|rounds IH]; intros i; [done|apply IH]. Qed.

(** Built with WITH_LOCK the program prints PASSED; with a negative number of
    iterations, which makes every thread stop at once, it prints FAILED although
    nothing went wrong. *)
Theorem int_update_main nr_threads iters :
  0 < nr_threads <= INT_MAX -> 0 <= iters <= INT_MAX -> nr_threads * iters <= INT_MAX ->
  umain_start true (fun _ => true) [print_radix 10 1 nr_threads; print_radix 10 1 iters] =
    Ok (UStarted (Z.to_nat nr_threads) iters) /\
  (forall w : cworld mutex, rtc (cstep false) (cworld0 0 (Z.to_nat nr_threads) (Z.to_nat iters)) w ->
     all_done w -> verdict (c_val w) iters nr_threads = Ok true) /\
  (iters <> 0 -> verdict 0 (- iters) nr_threads = Ok false).
Proof.
  intros Hn Hi Hmax. split; [|split].
  - unfold umain_start. rewrite !scan_arg_print, !bind_Ok by lia. by rewrite create_loop_none.
  - intros w Hr Hd. unfold verdict. rewrite int_of_Ok by (unfold INT_MIN; lia). rewrite bind_Ok.
    rewrite (locked_counter_exact false 0 _ _ w Hr Hd), (no_skips false 0 _ _ w eq_refl Hr). by rewrite (proj2 (Z.eqb_eq _ _)) by lia.
  - intros Hne. unfold verdict. rewrite int_of_Ok by (unfold INT_MIN, INT_MAX in *; nia). rewrite bind_Ok.
    by rewrite (proj2 (Z.eqb_neq _ _)) by nia.
Qed.
