(* ===== verification/CounterFair.v ===== *)
(** * The locked counters come to their end

    src/test_xlock.c ([test2]) and src/test_int_update.c with [WITH_LOCK], under a
    fair scheduler: every process finishes its loop, and the number is then right.
    Proved for any lock of the interface of LockLive.v. *)
From stdpp Require Import base list strings relations.
From Stdlib Require Import ZArith Lia Ascii.
From S2P Require Import Prelude Stdio Lock Xlock Fair LockLive XFair Counter CounterMain.

Open Scope Z_scope.

Definition c_phase (pc : cpc) : phase :=
  match pc with
  | CIdle _ => Outside
  | CLocking _ => Trying
  | CRead _ | CWrite _ _ => Holding
  | CUnlocking _ => Releasing
  | CReturning _ => Returning
  end.

(** What is left for a thread to do. *)
Definition c_left (pc : cpc) : nat :=
  match pc with
  | CWrite k _ => 6 * k
  | CRead k => 6 * k + 1
  | CLocking k => 6 * k + 2
  | CIdle k => 6 * k + 3
  | CReturning k => 6 * k + 4
  | CUnlocking k => 6 * k + 5
  end.

Section fair.
Context {L : Type} {HL : Lock L} {HLaws : LockLaws L} {HLive : LockLive L} {HLL : LockLiveLaws L}.
Context (in_file : bool).

Notation cstep_by := (cstep_by in_file).

Definition c_use (w : cworld L) : usage L := Usage (c_lock w) (c_phase <$> c_ths w).

(** A thread that goes on by itself: at the head of its loop with iterations left, at
    the lock if that lets it, and before the write if the sum fits an int. *)
Definition c_runnable (w : cworld L) (t : nat) : Prop :=
  exists pc, c_ths w !! t = Some pc /\
    match pc with
    | CIdle k => k <> 0%nat
    | CLocking _ => lk_ready (c_lock w) t
    | CWrite _ x => exists x', int_of (x + 1) = Ok x'
    | _ => True
    end.

Record counter_run (v0 : Z) (n iters : nat) (st : nat -> cworld L)
    (lab : nat -> option (nat * option lock_act)) : Prop := {
  cr_init : st 0%nat = cworld0 v0 n iters;
  cr_moves : moves cstep_by st lab;
  cr_fair : fair c_runnable st lab;
}.

(** ** Single steps *)

Lemma c_use_step t a (w w' : cworld L) :
  cstep_by t (Some a) w w' -> lk_inv (c_lock w) ->
  lk_with (us_lock (c_use w)) (us_phases (c_use w)) -> usage_step t a (c_use w) (c_use w').
Proof.
  intros Hs Hi Hw. inversion Hs; subst; cbn in *; (split; [done|]); cbn;
    try (eexists _, _; split; [by rewrite list_lookup_fmap; match goal with E : _ !! t = Some _ |- _ => rewrite E end|];
         split; [done|]; by rewrite list_fmap_insert).
  eapply lk_tau in Hw; [|done..]. exists Trying, Trying. split; [done|]. split; [done|].
  by rewrite list_insert_id.
Qed.

Definition c_rank (w : cworld L) (t : nat) : nat :=
  match c_ths w !! t with Some (CRead _) => 1 | _ => 0 end.

Lemma c_quiet t (w w' : cworld L) :
  cstep_by t None w w' -> c_use w' = c_use w /\
  (us_phases (c_use w) !! t = Some Outside \/
   us_phases (c_use w) !! t = Some Holding /\ (c_rank w' t < c_rank w t)%nat).
Proof.
  intros Hs. inversion Hs; subst. unfold c_use, c_rank. cbn. split.
  - f_equal. rewrite list_fmap_insert. apply list_insert_id.
    rewrite list_lookup_fmap. match goal with E : _ !! t = Some _ |- _ => by rewrite E end.
  - right. rewrite list_lookup_fmap, list_lookup_insert_eq by by eapply lookup_lt_Some.
    match goal with E : _ !! t = Some _ |- _ => rewrite E end. split; [done|lia].
Qed.

Lemma c_other t t' o (w w' : cworld L) :
  cstep_by t' o w w' -> t' <> t -> c_ths w' !! t = c_ths w !! t.
Proof. intros Hs Hne. destruct Hs; cbn; by rewrite ?list_lookup_insert_ne by done. Qed.

Lemma counter_client : lock_client cstep_by (fun w => lk_inv (c_lock w)) c_use c_rank.
Proof.
  constructor; [done|apply c_use_step|intros t w w' Hs _; by apply c_quiet|].
  intros t t' o w w' Hs Hne. unfold c_rank. by rewrite (c_other _ _ _ _ _ Hs) by done.
Qed.

(** A step lowers what is left, unless it is inside the lock. *)
Definition c_total (w : cworld L) : nat := sum_list_with c_left (c_ths w).

Lemma c_total_step t o (w w' : cworld L) :
  cstep_by t o w w' ->
  (o = Some LTau /\ c_ths w' = c_ths w) \/ (c_total w' < c_total w)%nat.
Proof.
  intros Hs. destruct Hs; cbn; try (by left); right; unfold c_total; cbn [c_ths];
    match goal with E : _ !! t = Some ?pc |- context [<[t := ?pc']> ?ths] =>
      pose proof (sum_list_with_insert c_left ths t pc pc' E) as Hi; cbn [c_left] in Hi end; lia.
Qed.

(** Inside the loop an iteration is left. *)
Definition c_counts (w : cworld L) : Prop :=
  forall t pc, c_ths w !! t = Some pc ->
    match pc with CLocking k | CRead k | CWrite k _ => k <> 0%nat | _ => True end.

Lemma c_counts_step t o (w w' : cworld L) : cstep_by t o w w' -> c_counts w -> c_counts w'.
Proof.
  unfold c_counts. intros Hs Hc. destruct Hs; cbn in *; try done;
    (intros t' pc [(_ & -> & _)|[_ E]]%lookup_insert_cases; [try done|by eapply Hc]).
  - by apply (Hc t (CLocking k)).
  - by apply (Hc t (CRead k)).
Qed.

(** ** Runs *)

Section run.
Context (v0 : Z) (n iters : nat) (st : nat -> cworld L) (lab : nat -> option (nat * option lock_act)).
Context (Hmin : INT_MIN <= v0) (Hmax : v0 + Z.of_nat n * Z.of_nat iters <= INT_MAX).
Context (Hrun : counter_run v0 n iters st lab).

Lemma crun_inv j : cinv (v0 + Z.of_nat n * Z.of_nat iters) (st j) /\ c_counts (st j) /\ v0 <= c_val (st j).
Proof.
  apply (run_invariant cstep_by (fun w => cinv (v0 + Z.of_nat n * Z.of_nat iters) w /\ c_counts w /\
    v0 <= c_val w) st lab); [apply Hrun|..].
  - rewrite (cr_init _ _ _ _ _ Hrun). split; [apply cinv_init|]. split; [|done].
    by intros t pc [-> _]%lookup_replicate.
  - intros t o w w' Hs (Hi & Hc & Hv).
    split; [by eapply cinv_step_by|]. split; [by eapply c_counts_step|].
    destruct Hs; cbn in *; try done.
    match goal with Hx : int_of _ = Ok _, E : _ !! t = Some _ |- _ =>
      apply int_of_Ok_inv in Hx as [-> _]; pose proof (ci_read _ _ Hi _ _ _ E) end. cbn in *. lia.
Qed.

(** A thread that is not at the lock and not at its end can go on. *)
Lemma c_goes_on j t pc :
  c_ths (st j) !! t = Some pc -> pc <> CIdle 0 -> c_phase pc <> Trying -> c_runnable (st j) t.
Proof.
  intros Ht Hpc Hp. destruct (crun_inv j) as (Hi & Hc & Hv). exists pc. split; [done|].
  destruct pc as [k| | |k x| |]; try done; [by intros ->|].
  rewrite (ci_read _ _ Hi _ _ _ Ht). eexists. apply int_of_Ok.
  assert (Htodo : (k <= sum_list_with todo (c_ths (st j)))%nat).
  { pose proof (sum_list_with_insert todo _ t _ (CIdle 0) Ht). cbn in *. lia. }
  pose proof (ci_sum _ _ Hi). pose proof (Hc _ _ Ht). cbn in *. lia.
Qed.

Lemma c_use_runnable j t : usage_runnable lk_ready (c_use (st j)) t -> c_runnable (st j) t.
Proof.
  intros (p & Hp & Hr). cbn in Hp. rewrite list_lookup_fmap in Hp.
  destruct (c_ths (st j) !! t) as [pc|] eqn:Ht; [|done]. cbn in Hp. injection Hp as <-.
  destruct (decide (c_phase pc = Trying)) as [E|E].
  - exists pc. split; [done|]. by destruct pc.
  - apply (c_goes_on j t pc); [done| |done]. by intros ->.
Qed.

Lemma crun_start : c_use (st 0%nat) = Usage (lk_init n) (replicate n Outside).
Proof. rewrite (cr_init _ _ _ _ _ Hrun). unfold c_use. cbn. by rewrite fmap_replicate. Qed.

Lemma crun_lock_inv j : lk_inv (c_lock (st j)).
Proof. apply (crun_inv j). Qed.

Lemma c_lock_progress i t k :
  c_ths (st i) !! t = Some (CLocking k) -> eventually (fun j => exists t', lab j = Some (t', Some LAcq)) i.
Proof.
  intros Ht. eapply (use_progress cstep_by c_runnable _ c_use c_rank counter_client st lab n).
  - apply crun_start.
  - apply crun_lock_inv.
  - apply Hrun.
  - apply Hrun.
  - apply c_use_runnable.
  - cbn. by rewrite list_lookup_fmap, Ht.
Qed.

Lemma crun_tau j t pc :
  lab j = Some (t, Some LTau) -> c_ths (st j) !! t = Some pc -> c_phase pc = Trying.
Proof.
  intros El Ht.
  assert (Hp : us_phases (c_use (st j)) !! t = Some Trying).
  { eapply (use_tau cstep_by _ c_use c_rank counter_client st lab n);
      [apply crun_start|apply crun_lock_inv|apply Hrun|]. unfold use_lab. by rewrite El. }
  cbn in Hp. rewrite list_lookup_fmap, Ht in Hp. by injection Hp.
Qed.

(** The threads stay where they are until less is left. *)
Definition c_less (i j : nat) : Prop := (i < j)%nat /\ (c_total (st j) < c_total (st i))%nat.

Lemma c_stays i j :
  (i <= j)%nat -> (exists k, c_less i k) \/ c_ths (st j) = c_ths (st i).
Proof.
  intros Hij. induction Hij as [|j Hij IH]; [by right|].
  destruct IH as [|E]; [by left|]. pose proof (cr_moves _ _ _ _ _ Hrun j) as Hs.
  destruct (lab j) as [[t o]|]; [|right; by rewrite Hs].
  destruct (c_total_step _ _ _ _ Hs) as [[_ E']|Hlt]; [right; congruence|].
  left. exists (S j). split; [lia|]. unfold c_total in *. by rewrite <- E.
Qed.

Lemma c_lowers i j t o :
  (i <= j)%nat -> lab j = Some (t, o) -> o <> Some LTau -> exists k, c_less i k.
Proof.
  intros Hij El Ho. destruct (c_stays i j Hij) as [|E]; [done|].
  pose proof (cr_moves _ _ _ _ _ Hrun j) as Hs. rewrite El in Hs.
  destruct (c_total_step _ _ _ _ Hs) as [[? _]|Hlt]; [done|].
  exists (S j). split; [lia|]. unfold c_total in *. by rewrite <- E.
Qed.

Lemma crun_moves_on i : all_done (st i) \/ exists k, c_less i k.
Proof.
  destruct (decide (all_done (st i))) as [|Hn]; [by left|]. right.
  apply not_Forall_Exists in Hn; [|intros ?; apply _]. apply Exists_exists in Hn as (pc & Hin & Hpc).
  apply list_elem_of_lookup in Hin as [t Ht].
  destruct (decide (c_phase pc = Trying)) as [E|E].
  - destruct pc; try done. destruct (c_lock_progress i t k Ht) as (j & Hij & t' & El).
    by eapply c_lowers.
  - destruct (cr_fair _ _ _ _ _ Hrun t i) as (j & Hij & Hj). destruct (c_stays i j Hij) as [|Es]; [done|].
    rewrite <- Es in Ht. destruct Hj as [[o El]|Hn].
    + eapply c_lowers; [done..|]. intros ->. by pose proof (crun_tau j t pc El Ht).
    + destruct Hn. apply (c_goes_on j t pc); [done|congruence|done].
Qed.

Lemma crun_ends i :
  eventually (fun j => all_done (st j) /\
    c_val (st j) = v0 + Z.of_nat n * Z.of_nat iters - Z.of_nat (c_skips (st j))) i.
Proof.
  apply (eventually_measure 0 (fun j => c_total (st j))); [|lia]. clear i. intros i _.
  destruct (crun_moves_on i) as [Hd|(k & Hk)]; [|right; by exists k].
  left. apply eventually_now. split; [done|]. apply all_done_val; [apply crun_inv|done].
Qed.
End run.
End fair.

(** ** The programs *)

(** C25. The program test_xlock ends, in every fair run of any number of processes, the
    word of the lock file being 0 at the start: every process leaves its loop, and what
    is printed is the number that was in the file, 20 more for each process, less one
    for every [open] of the file that failed ([grown]; nothing is printed if the file
    was absent and every [open] failed). [read] and [write] do not fail. *)
Theorem test_xlock_terminates file v0 nr_forks n st lab :
  counter_start file = Ok v0 -> INT_MIN <= v0 -> v0 + 20 * nr_forks <= INT_MAX ->
  0 < nr_forks -> n = Z.to_nat nr_forks ->
  xmain_world 0 file n = Ok (st 0%nat) -> moves (cstep_by true) st lab -> fair c_runnable st lab ->
  eventually (fun j => all_done (st j) /\
    xmain_end file n (st j) true = Ok (grown file v0 n (c_skips (st j)))) 0.
Proof.
  intros Hv Hmin Hmax Hn -> H0 Hm Hf. unfold xmain_world in H0. rewrite Hv, bind_Ok in H0. injection H0 as H0.
  eapply eventually_bind.
  - apply (crun_ends true v0 (Z.to_nat nr_forks) MAX_ITER st lab);
      [done|unfold MAX_ITER; lia|by constructor].
  - intros j _ [Hd Hc]. apply eventually_now. split; [done|]. apply xmain_end_spec; [done|].
    rewrite Hc. unfold MAX_ITER. lia.
Qed.

(** So does test_int_update built with WITH_LOCK, and prints PASSED. *)
Theorem int_update_terminates nr_threads iters st lab :
  0 < nr_threads -> 0 <= iters -> nr_threads * iters <= INT_MAX ->
  counter_run (L := mutex) false 0 (Z.to_nat nr_threads) (Z.to_nat iters) st lab ->
  eventually (fun j => all_done (st j) /\ verdict (c_val (st j)) iters nr_threads = Ok true) 0.
Proof.
  intros Hn Hi Hmax Hrun. eapply eventually_bind.
  - apply (crun_ends false 0 (Z.to_nat nr_threads) (Z.to_nat iters) st lab);
      [done|rewrite !Z2Nat.id by lia; lia|done].
  - intros j _ [Hd Hc].
    assert (Es : c_skips (st j) = 0%nat).
    { apply (run_invariant (cstep_by false) (fun w => c_skips w = 0%nat) st lab); [apply Hrun|..].
      - by rewrite (cr_init _ _ _ _ _ _ Hrun).
      - intros t o w w' Hs E. by rewrite (no_skips_step false t o w w'). }
    apply eventually_now. split; [done|]. unfold verdict.
    rewrite int_of_Ok by (unfold INT_MIN; lia). rewrite bind_Ok.
    by rewrite Hc, Es, (proj2 (Z.eqb_eq _ _)) by lia.
Qed.

(** One process on its own, step by step: round [p] of the iteration that leaves [k],
    the number in the file being [v]. *)
Definition alone_world (v : Z) (k p : nat) : cworld xlock :=
  match p with
  | 0%nat => CWorld (Xlock 0 [XIdle]) v 0 [CIdle (S k)]
  | 1%nat => CWorld (Xlock 0 [XTry]) v 0 [CLocking (S k)]
  | 2%nat => CWorld (Xlock 1 [XHold]) v 0 [CRead (S k)]
  | 3%nat => CWorld (Xlock 1 [XHold]) v 0 [CWrite (S k) v]
  | 4%nat => CWorld (Xlock 1 [XUnlock]) (v + 1) 0 [CUnlocking k]
  | 5%nat => CWorld (Xlock 0 [XWake]) (v + 1) 0 [CReturning k]
  | _ => CWorld (Xlock 0 [XIdle]) (v + 1) 0 [CIdle k]
  end.

Definition alone_act (p : nat) : option lock_act :=
  match p with
  | 0%nat => Some LCall
  | 1%nat => Some LAcq
  | 2%nat => None
  | 3%nat => Some UCall
  | 4%nat => Some LRel
  | _ => Some URet
  end.

Lemma alone_step v k p :
  INT_MIN <= v < INT_MAX -> (p < 6)%nat ->
  cstep_by true 0 (alone_act p) (alone_world v k p) (alone_world v k (S p)).
Proof.
  intros Hv Hp. destruct p as [|[|[|[|[|[|p]]]]]]; [..|lia]; cbn.
  - by apply (cs_call true 0 k); [|apply xs_call].
  - by apply (cs_acq true 0 (S k)); [|eapply xs_try_ok].
  - by apply (cs_read true 0 (S k)).
  - apply (cs_write true 0 k v); [done|apply int_of_Ok; lia|by apply xs_ucall].
  - by apply (cs_rel true 0 k); [|eapply xs_unlock_ok].
  - apply (cs_ret true 0 k); [done|]. by apply (xs_wake 0 0 [XWake] [XWake]); [|apply woken_refl].
Qed.

Definition alone_st (v : Z) (iters i : nat) : cworld xlock :=
  if (i <? 6 * iters)%nat then alone_world (v + Z.of_nat (i / 6)) (iters - 1 - i / 6) (i mod 6)
  else CWorld (Xlock 0 [XIdle]) (v + Z.of_nat iters) 0 [CIdle 0].

Definition alone_lab (iters i : nat) : option (nat * option lock_act) :=
  if (i <? 6 * iters)%nat then Some (0%nat, alone_act (i mod 6)) else None.

(** The step after a round. *)
Lemma alone_next v iters i :
  (i < 6 * iters)%nat ->
  alone_st v iters (S i) = alone_world (v + Z.of_nat (i / 6)) (iters - 1 - i / 6) (S (i mod 6)).
Proof.
  intros Hi. unfold alone_st. pose proof (Nat.div_mod_eq i 6) as Hd.
  pose proof (Nat.mod_upper_bound i 6 ltac:(lia)) as Hm.
  destruct (decide (i mod 6 = 5)%nat) as [E|E].
  - rewrite E. cbn [alone_world].
    destruct (Nat.ltb_spec (S i) (6 * iters)) as [Hlt|Hge].
    + rewrite <- (Nat.mod_unique (S i) 6 (S (i / 6)) 0), <- (Nat.div_unique (S i) 6 (S (i / 6)) 0) by lia.
      cbn [alone_world]. f_equal; [lia|]. repeat f_equal. lia.
    + assert (iters = S (i / 6)) as -> by lia. f_equal; [lia|]. repeat f_equal. lia.
  - destruct (Nat.ltb_spec (S i) (6 * iters)) as [Hlt|Hge]; [|lia].
    rewrite <- (Nat.mod_unique (S i) 6 (i / 6) (S (i mod 6))), <- (Nat.div_unique (S i) 6 (i / 6) (S (i mod 6))) by lia.
    done.
Qed.

Lemma alone_moves v iters :
  INT_MIN <= v -> v + Z.of_nat iters <= INT_MAX -> moves (cstep_by true) (alone_st v iters) (alone_lab iters).
Proof.
  intros Hmin Hmax i. unfold alone_lab. destruct (Nat.ltb_spec i (6 * iters)) as [Hlt|Hge].
  - rewrite alone_next by done. unfold alone_st. rewrite (proj2 (Nat.ltb_lt _ _)) by done.
    pose proof (Nat.div_mod_eq i 6). apply alone_step; [lia|]. apply Nat.mod_upper_bound. lia.
  - unfold alone_st. by rewrite !(proj2 (Nat.ltb_ge _ _)) by lia.
Qed.

Lemma alone_fair v iters : fair c_runnable (alone_st v iters) (alone_lab iters).
Proof.
  intros t i. exists (6 * iters + i)%nat. split; [lia|]. right. unfold alone_st.
  rewrite (proj2 (Nat.ltb_ge _ _)) by lia. intros (pc & H & Hp).
  destruct t; cbn in H; [injection H as <-|]; done.
Qed.

Lemma test_xlock_terminates_witness :
  eventually (fun j => all_done (alone_st 5 20 j) /\
    xmain_end (Some (Some 5)) 1 (alone_st 5 20 j) true =
      Ok (grown (Some (Some 5)) 5 1 (c_skips (alone_st 5 20 j)))) 0.
Proof.
  refine (test_xlock_terminates (Some (Some 5)) 5 1 1 (alone_st 5 20) (alone_lab 20) eq_refl _ _ _ eq_refl
    eq_refl _ (alone_fair 5 20)); [vm_compute; discriminate..|reflexivity|].
  apply alone_moves; vm_compute; discriminate.
Defined.
