(* ===== verification/Xsem.v ===== *)
(** * The semaphore of src/xsem.c

    [xsem_down] and [xsem_up] over the lock interface of Lock.v: the count is read
    and written as separate accesses, made atomic by the lock; waiting is a futex
    on the count, outside the lock. The abstract specification is a counting
    semaphore. *)
From stdpp Require Import base list strings relations.
From Stdlib Require Import ZArith Lia Ascii.
From S2P Require Import Prelude Stdio Lock Xlock.

Open Scope Z_scope.

(** ** The program points *)
Inductive spc : Type :=
| SIdle                 (* in neither function *)
| DLocking              (* xsem_down: in xlock_lock *)
| DTest                 (* the lock held, before the test of the count *)
| DRead                 (* the count was positive; before the read of count-- *)
| DWrite (x : Z)        (* before the write of count-- *)
| DUnlocking            (* in the last xlock_unlock, not yet released *)
| DReturn               (* in the last xlock_unlock, released *)
| WUnlocking            (* in the xlock_unlock before the wait *)
| WReturn
| WWait                 (* before FUTEX_WAIT *)
| WSleep                (* asleep on the count *)
| WRelock               (* before the xlock_lock after the wait *)
| ULocking              (* xsem_up: in xlock_lock *)
| URead                 (* the lock held, before the read of count++ *)
| UWrite (x : Z)        (* before the write of count++ *)
| UUnlocking
| UReturn
| UWake.                (* before FUTEX_WAKE *)

#[export] Instance spc_eq_dec : EqDecision spc.
Proof. solve_decision. Defined.

Definition sleeping (pc : spc) : bool := match pc with WSleep => true | _ => false end.

(** The points at which a thread owns the lock. *)
Definition s_owning (pc : spc) : bool :=
  match pc with
  | DTest | DRead | DWrite _ | DUnlocking | WUnlocking | URead | UWrite _ | UUnlocking => true
  | _ => false
  end.

(** Threads that will test the count again, or wake a sleeper, without being woken. *)
Definition pending (pc : spc) : bool :=
  match pc with
  | DLocking | DTest | DRead | DWrite _ | WUnlocking | WReturn | WWait | WRelock
  | UUnlocking | UReturn | UWake => true
  | _ => false
  end.

(** FUTEX_WAKE on the count: some sleepers wake, at least one if there is one. *)
Definition s_woken (ths ths' : list spc) : Prop :=
  Forall2 (fun a b => b = a \/ (a = WSleep /\ b = WRelock)) ths ths' /\
  ((0 < count sleeping ths)%nat -> (count sleeping ths' < count sleeping ths)%nat).

Section Semaphore.
Context {L : Type} `{LockLaws L}.

(** [s_ups] and [s_downs] count the completed increments and decrements; the
    program has no such variables. *)
Record sworld : Type := SWorld {
  s_lock : L; s_count : Z; s_ths : list spc; s_ups : Z; s_downs : Z }.

(** The moves that touch only the lock and the thread's program point. *)
Inductive lock_move : spc -> lock_act -> spc -> Prop :=
| lm_down : lock_move SIdle LCall DLocking
| lm_up : lock_move SIdle LCall ULocking
| lm_relock : lock_move WRelock LCall DLocking
| lm_down_acq : lock_move DLocking LAcq DTest
| lm_up_acq : lock_move ULocking LAcq URead
| lm_down_rel : lock_move DUnlocking LRel DReturn
| lm_down_ret : lock_move DReturn URet SIdle
| lm_wait_rel : lock_move WUnlocking LRel WReturn
| lm_wait_ret : lock_move WReturn URet WWait
| lm_up_rel : lock_move UUnlocking LRel UReturn
| lm_up_ret : lock_move UReturn URet UWake.

(** One access of thread [t]; the label says what it does to the lock, if anything. *)
Inductive sstep_by : nat -> option lock_act -> sworld -> sworld -> Prop :=
| ss_lock t pc a pc' l l' c ths u d :
    ths !! t = Some pc -> lock_move pc a pc' -> lk_step t a l l' ->
    sstep_by t (Some a) (SWorld l c ths u d) (SWorld l' c (<[t := pc']> ths) u d)
| ss_tau t l l' c ths u d :
    lk_step t LTau l l' -> sstep_by t (Some LTau) (SWorld l c ths u d) (SWorld l' c ths u d)
| ss_test_pos t l c ths u d :
    ths !! t = Some DTest -> 0 < c ->
    sstep_by t None (SWorld l c ths u d) (SWorld l c (<[t := DRead]> ths) u d)
| ss_test_zero t l l' c ths u d :
    ths !! t = Some DTest -> c <= 0 -> lk_step t UCall l l' ->
    sstep_by t (Some UCall) (SWorld l c ths u d) (SWorld l' c (<[t := WUnlocking]> ths) u d)
| ss_down_read t l c ths u d :
    ths !! t = Some DRead ->
    sstep_by t None (SWorld l c ths u d) (SWorld l c (<[t := DWrite c]> ths) u d)
| ss_down_write t x x' l l' c ths u d :
    ths !! t = Some (DWrite x) -> int_of (x - 1) = Ok x' -> lk_step t UCall l l' ->
    sstep_by t (Some UCall) (SWorld l c ths u d) (SWorld l' x' (<[t := DUnlocking]> ths) u (d + 1))
| ss_wait t l c ths u d :
    ths !! t = Some WWait ->
    sstep_by t None (SWorld l c ths u d)
          (SWorld l c (<[t := if c =? 0 then WSleep else WRelock]> ths) u d)
| ss_interrupted t l c ths u d :
    ths !! t = Some WSleep ->
    sstep_by t None (SWorld l c ths u d) (SWorld l c (<[t := WRelock]> ths) u d)
| ss_up_read t l c ths u d :
    ths !! t = Some URead ->
    sstep_by t None (SWorld l c ths u d) (SWorld l c (<[t := UWrite c]> ths) u d)
| ss_up_write t x x' l l' c ths u d :
    ths !! t = Some (UWrite x) -> int_of (x + 1) = Ok x' -> lk_step t UCall l l' ->
    sstep_by t (Some UCall) (SWorld l c ths u d) (SWorld l' x' (<[t := UUnlocking]> ths) (u + 1) d)
| ss_wake t l c ths ths' u d :
    ths !! t = Some UWake -> s_woken ths ths' ->
    sstep_by t None (SWorld l c ths u d) (SWorld l c (<[t := SIdle]> ths') u d).

Definition sstep (w w' : sworld) : Prop := exists t o, sstep_by t o w w'.

Definition sworld0 (init : Z) (n : nat) : sworld :=
  SWorld (lk_init n) init (replicate n SIdle) 0 0.

Record sinv (init : Z) (w : sworld) : Prop := {
  si_lock : lk_inv (s_lock w);
  si_own t pc : s_ths w !! t = Some pc -> s_owning pc = true -> lk_holds (s_lock w) t;
  si_pos t : s_ths w !! t = Some DRead -> 0 < s_count w;
  si_dec t x : s_ths w !! t = Some (DWrite x) -> x = s_count w /\ 0 < s_count w;
  si_inc t x : s_ths w !! t = Some (UWrite x) -> x = s_count w;
  si_count : s_count w = init + s_ups w - s_downs w;
  si_nonneg : 0 <= s_count w;
  si_wake : (0 < count sleeping (s_ths w))%nat ->
    s_count w <= Z.of_nat (count pending (s_ths w));
}.

(** What a new program point says about the count. *)
Definition pc_ok (pc : spc) (c : Z) : Prop :=
  match pc with
  | DRead => 0 < c
  | DWrite x => x = c /\ 0 < c
  | UWrite x => x = c
  | _ => True
  end.

Definition z_of (b : bool) : Z := Z.of_nat (b2n b).

(** The counting side condition of a step between two given program points. *)
Ltac wake_arith := cbn; unfold z_of; cbn; intros; lia.

Lemma sinv_update init t a l l' c c' ths pc pc' u u' d d' :
  sinv init (SWorld l c ths u d) -> ths !! t = Some pc ->
  (l' = l \/ lk_step t a l l') ->
  (s_owning pc' = true -> lk_holds l' t) -> (c' = c \/ lk_holds l t) -> pc_ok pc' c' ->
  c' = init + u' - d' -> 0 <= c' ->
  (forall s p, z_of (sleeping pc) <= s -> z_of (pending pc) <= p ->
    (0 < s -> c <= p) ->
    0 < s - z_of (sleeping pc) + z_of (sleeping pc') ->
    c' <= p - z_of (pending pc) + z_of (pending pc')) ->
  sinv init (SWorld l' c' (<[t := pc']> ths) u' d').
Proof.
  intros [Hl Ho Hp Hd Hi Hc Hn Hw] Ht Hstep Hown Hcc Hpc Hcount Hnn Hwake. cbn in *.
  assert (Hk : forall t', t' <> t -> lk_holds l t' -> lk_holds l' t').
  { destruct Hstep as [->|Hstep]; [done|]. intros t' Hne Hh.
    apply (lk_keep t a l l' t' Hstep Hl); auto. }
  assert (Hcase : forall t' pc1, <[t := pc']> ths !! t' = Some pc1 ->
    (t' = t /\ pc1 = pc') \/ (t' <> t /\ ths !! t' = Some pc1 /\ (s_owning pc1 = true -> c' = c))).
  { intros t' pc1 Ht'. destruct (decide (t' = t)) as [->|Hne].
    - rewrite list_lookup_insert_eq in Ht' by by eapply lookup_lt_Some.
      injection Ht' as <-. by left.
    - rewrite list_lookup_insert_ne in Ht' by done. right. split; [done|]. split; [done|].
      intros Hown'. destruct Hcc as [|Hh]; [done|].
      destruct Hne. eapply lk_mutex; [done|by eapply Ho|done]. }
  constructor; cbn; try done.
  - destruct Hstep as [->|Hstep]; [done|]. by eapply lk_step_inv.
  - intros t' pc1 [[-> ->]|(Hne & Ht' & _)]%Hcase Hown'; [auto|]. apply Hk; eauto.
  - intros t' [[-> <-]|(Hne & Ht' & E)]%Hcase; [done|]. rewrite E by done. by eapply Hp.
  - intros t' x [[-> <-]|(Hne & Ht' & E)]%Hcase; [done|]. rewrite E by done. by eapply Hd.
  - intros t' x [[-> <-]|(Hne & Ht' & E)]%Hcase; [done|]. rewrite E by done. by eapply Hi.
  - pose proof (count_insert sleeping ths t pc pc' Ht) as Hs.
    pose proof (count_insert pending ths t pc pc' Ht) as Hpd.
    specialize (Hwake (Z.of_nat (count sleeping ths)) (Z.of_nat (count pending ths))).
    assert (Hle : forall p : spc -> bool, z_of (p pc) <= Z.of_nat (count p ths)).
    { intros p. unfold z_of. destruct (p pc) eqn:E; cbn; [|lia].
      assert (0 < count p ths)%nat by (apply count_pos; eauto). lia. }
    pose proof (Hle sleeping). pose proof (Hle pending). unfold z_of in *. lia.
Qed.

Lemma s_woken_pending ths ths' : s_woken ths ths' ->
  (count pending ths' + count sleeping ths' = count pending ths + count sleeping ths)%nat /\
  (count sleeping ths' <= count sleeping ths)%nat.
Proof.
  intros [Hf _]. unfold count. induction Hf as [|a b ths ths' Hab _ IH]; [done|]. cbn.
  destruct Hab as [->|[-> ->]]; cbn; lia.
Qed.

Lemma s_woken_lookup ths ths' t pc :
  s_woken ths ths' -> ths' !! t = Some pc -> pc <> WRelock -> ths !! t = Some pc.
Proof.
  intros [Hf _] Ht Hne. destruct (Forall2_lookup_r _ _ _ _ _ Hf Ht) as (pc' & E & [->|[_ ->]]); done.
Qed.

Lemma sinv_wake init t l c ths ths' u d :
  sinv init (SWorld l c ths u d) -> ths !! t = Some UWake -> s_woken ths ths' ->
  sinv init (SWorld l c (<[t := SIdle]> ths') u d).
Proof.
  intros [Hl Ho Hp Hd Hi Hc Hn Hw] Ht Hwk. cbn in *.
  destruct (s_woken_pending _ _ Hwk) as [Hcnt Hle].
  assert (Ht' : ths' !! t = Some UWake).
  { pose proof Hwk as [Hf _]. destruct (Forall2_lookup_l _ _ _ _ _ Hf Ht) as (b & -> & [->|[? _]]); done. }
  assert (Hcase : forall t' pc1, <[t := SIdle]> ths' !! t' = Some pc1 ->
    pc1 <> SIdle -> pc1 <> WRelock -> ths !! t' = Some pc1).
  { intros t' pc1 E Hne1 Hne2. destruct (decide (t' = t)) as [->|Hne].
    - rewrite list_lookup_insert_eq in E by by eapply lookup_lt_Some. congruence.
    - rewrite list_lookup_insert_ne in E by done. by eapply s_woken_lookup. }
  constructor; cbn; try done.
  - intros t' pc1 E Hown. eapply Ho; [|done]. apply Hcase; [done|by intros ->..].
  - intros t' E. eapply Hp. by apply Hcase.
  - intros t' x E. eapply Hd. by apply Hcase.
  - intros t' x E. eapply Hi. by apply Hcase.
  - pose proof (count_insert sleeping ths' t _ SIdle Ht') as Hs.
    pose proof (count_insert pending ths' t _ SIdle Ht') as Hpd. cbn in Hs, Hpd.
    destruct Hwk as [_ Hsome]. intros Hpos.
    assert (count sleeping ths' < count sleeping ths)%nat by (apply Hsome; lia).
    specialize (Hw ltac:(lia)). lia.
Qed.

Lemma sinv_step_by init t0 o w w' : sinv init w -> sstep_by t0 o w w' -> sinv init w'.
Proof.
  intros Hi Hs. pose proof (si_count _ _ Hi) as Hcount. pose proof (si_nonneg _ _ Hi) as Hnn.
  pose proof (si_lock _ _ Hi) as Hl.
  destruct Hs as [t pc a pc' l l' c ths u d Ht Hm Hstep|t l l' c ths u d Hstep|t l c ths u d Ht Hc
    |t l l' c ths u d Ht Hc Hstep|t l c ths u d Ht|t x x' l l' c ths u d Ht Hx Hstep
    |t l c ths u d Ht|t l c ths u d Ht|t l c ths u d Ht|t x x' l l' c ths u d Ht Hx Hstep
    |t l c ths ths' u d Ht Hwk]; cbn in Hcount, Hnn, Hl.
  - eapply (sinv_update init t a l); [done..|by right| |by left| |done|done|].
    + destruct Hm; try done; intros _; by eapply lk_acq.
    + by destruct Hm.
    + destruct Hm; wake_arith.
  - destruct Hi as [Hl' Ho Hp Hd Hi Hc Hn Hw]. cbn in *. constructor; cbn; try done.
    + by eapply lk_step_inv.
    + intros t' pc Ht' Hown. apply (lk_keep t LTau l l' t' Hstep Hl); [by right|]. by eapply Ho.
  - eapply (sinv_update init t LTau l); [done..|by left| |by left|done|done|done|wake_arith].
    intros _. by apply (si_own _ _ Hi t DTest).
  - eapply (sinv_update init t UCall l); [done..|by right| |by left|done|done|done|wake_arith].
    intros _. apply (lk_keep t UCall l l' t Hstep Hl); [by right|]. by apply (si_own _ _ Hi t DTest).
  - eapply (sinv_update init t LTau l); [done..|by left| |by left| |done|done|wake_arith].
    + intros _. by apply (si_own _ _ Hi t DRead).
    + split; [done|]. by apply (si_pos _ _ Hi t).
  - destruct (si_dec _ _ Hi t x Ht) as [Ex Hpos]. cbn in Ex, Hpos. subst x.
    apply int_of_Ok_inv in Hx as [-> _].
    assert (Hh : lk_holds l t) by (by apply (si_own _ _ Hi t (DWrite c))).
    eapply (sinv_update init t UCall l); [done..|by right| |by right|done|lia|lia|wake_arith].
    intros _. by apply (lk_keep t UCall l l' t Hstep Hl); [right|].
  - eapply (sinv_update init t LTau l); [done..|by left| |by left| |done|done|];
      destruct (Z.eqb_spec c 0); try done; wake_arith.
  - eapply (sinv_update init t LTau l); [done..|by left|done|by left|done|done|done|wake_arith].
  - eapply (sinv_update init t LTau l); [done..|by left| |by left|done|done|done|wake_arith].
    intros _. by apply (si_own _ _ Hi t URead).
  - assert (x = c) as -> by (by apply (si_inc _ _ Hi t x)). apply int_of_Ok_inv in Hx as [-> _].
    assert (Hh : lk_holds l t) by (by apply (si_own _ _ Hi t (UWrite c))).
    eapply (sinv_update init t UCall l); [done..|by right| |by right|done|lia|lia|wake_arith].
    intros _. by apply (lk_keep t UCall l l' t Hstep Hl); [right|].
  - by eapply sinv_wake.
Qed.

Lemma sinv_step init w w' : sinv init w -> sstep w w' -> sinv init w'.
Proof. intros Hi (t & o & Hs). by eapply sinv_step_by. Qed.

Lemma sinv_init init n : 0 <= init -> sinv init (sworld0 init n).
Proof.
  intros Hn. constructor; cbn; try lia; try (by intros ? ? [? _]%lookup_replicate).
  - apply lk_init_inv.
  - by intros t pc [-> _]%lookup_replicate.
  - by intros t [? _]%lookup_replicate.
  - rewrite count_replicate. cbn. lia.
Qed.

Lemma sinv_reach init n w : 0 <= init -> rtc sstep (sworld0 init n) w -> sinv init w.
Proof.
  intros Hn Hr. assert (G : forall w1 w2, rtc sstep w1 w2 -> sinv init w1 -> sinv init w2).
  { induction 1; [done|]. eauto using sinv_step. }
  eapply G; [done|]. by apply sinv_init.
Qed.

(** *** The abstract semaphore *)
Inductive sem_step : Z -> Z -> Prop :=
| sem_p c : 0 < c -> sem_step c (c - 1)
| sem_v c : sem_step c (c + 1).

(** Every step of the program is a step of the semaphore or leaves it alone. *)
Lemma xsem_simulation init n w w' :
  0 <= init -> rtc sstep (sworld0 init n) w -> sstep w w' ->
  (s_count w' = s_count w /\ s_ups w' = s_ups w /\ s_downs w' = s_downs w) \/
  (sem_step (s_count w) (s_count w') /\
   ((s_count w' = s_count w - 1 /\ s_downs w' = s_downs w + 1) \/
    (s_count w' = s_count w + 1 /\ s_ups w' = s_ups w + 1))).
Proof.
  intros Hn Hr (t0 & o & Hs). pose proof (sinv_reach _ _ _ Hn Hr) as Hi.
  destruct Hs as [| | | | |t x x' l l' c ths u d Ht Hx Hstep| | | |t x x' l l' c ths u d Ht Hx Hstep|];
    cbn; try (by left); right; apply int_of_Ok_inv in Hx as [-> _].
  - destruct (si_dec _ _ Hi t x Ht) as [-> Hpos]. cbn in *. split; [by constructor|]. left. lia.
  - assert (x = c) as -> by (by apply (si_inc _ _ Hi t x)). split; [by constructor|]. right. lia.
Qed.
End Semaphore.
Arguments sworld : clear implicits.

(** ** Creating and destroying *)

Record xsem_sys : Type := XsemSys {
  sm_malloc : bool;
  sm_open_probe : Z;
  sm_open_creat : Z;
  sm_open : Z;
  sm_mmap : bool;
  sm_lock : xsys;
}.

(** [xsem_create_open] returns the null pointer on its error paths; the successful
    path runs off the end of the function. *)
Inductive xsem_ret : Type := Null | Indeterminate.

(** [strcpy]/[sprintf] into an array of [n] characters. *)
Definition fits (s : list ascii) (n : Z) : bool := Z.of_nat (length s) <? n.

(** The result, the count in the mapped file and the word of the lock. *)
Definition xsem_create_open (s : xsem_sys) (sem_name : list ascii) (count : Z)
    (create_flag : bool) (count0 word : Z) : res (xsem_ret * Z * Z) :=
  if negb (sm_malloc s) then Ok (Null, count0, word)
  else ub_unless (fits sem_name 64)
    (if create_flag && (0 <? sm_open_probe s) then Ok (Null, count0, word)
     else if create_flag && (sm_open_creat s <? 0) then Ok (Null, count0, word)
     else if sm_open s <? 0 then Ok (Null, count0, word)
     else if negb (sm_mmap s) then Ok (Null, count0, word)
     else
       let name := sem_name ++ chars ".lock" in
       ub_unless (fits name 64)
         (match xlock_create_open (sm_lock s) name create_flag word with
          | (None, word) => Ok (Null, count0, word)
          | (Some _, word) =>
              ub_unless (fits sem_name 32)
                (Ok (Indeterminate, if create_flag then count else count0, word))
          end)).

Definition xsem_create s name count := xsem_create_open s name count true.
Definition xsem_open s name count := xsem_create_open s name count false.

(** [xsem_destroy]: the two paths that are unlinked. *)
Definition xsem_destroy (name : list ascii) (sem_lock : xlock_t) : res (list ascii * list ascii) :=
  lock_name ← xlock_destroy sem_lock; Ok (name, lock_name).

(** C9. Refinement: with any lock that meets the interface, every step of
    processes running [xsem_down] and [xsem_up] is a step of the counting semaphore
    (a decrement of a positive count, or an increment) or leaves the count alone;
    the count is never negative and equals the initial one plus the ups less the
    downs. *)
Theorem xsem_refines_semaphore {L} `{LockLaws L} init n (w w' : sworld L) :
  0 <= init -> rtc sstep (sworld0 init n) w -> sstep w w' ->
  (s_count w' = s_count w \/ sem_step (s_count w) (s_count w')) /\
  0 <= s_count w' /\ s_count w' = init + s_ups w' - s_downs w'.
Proof.
  intros Hn Hr Hs. split.
  - destruct (xsem_simulation _ _ _ _ Hn Hr Hs) as [(? & _)|[? _]]; auto.
  - assert (Hi : sinv init w') by (eapply sinv_step; [by eapply sinv_reach|done]).
    split; apply Hi.
Qed.

Lemma xsem_refines_semaphore_witness :
  exists w' : sworld xlock, sstep (sworld0 1 2) w' /\ 0 <= s_count w'.
Proof.
  assert (Hs : sstep (L := xlock) (sworld0 1 2)
    (SWorld (Xlock 0 [XTry; XIdle]) 1 [DLocking; SIdle] 0 0)).
  { do 2 eexists. apply (ss_lock 0 SIdle LCall DLocking); [reflexivity|constructor|by apply (xs_call 0)]. }
  eexists. split; [exact Hs|].
  apply (xsem_refines_semaphore 1 2 (sworld0 1 2) _ ltac:(lia) (rtc_refl _ _) Hs).
Defined.

(** Mutual exclusion of the accesses: two processes are never both between the
    acquisition and the release of the lock, so the count has no data race. *)
Theorem xsem_no_race {L} `{LockLaws L} init n (w : sworld L) t1 t2 pc1 pc2 :
  0 <= init -> rtc sstep (sworld0 init n) w ->
  s_ths w !! t1 = Some pc1 -> s_ths w !! t2 = Some pc2 ->
  s_owning pc1 = true -> s_owning pc2 = true -> t1 = t2.
Proof.
  intros Hn Hr H1 H2 Ho1 Ho2. pose proof (sinv_reach _ _ _ Hn Hr) as Hi.
  eapply lk_mutex; [apply Hi| |]; eapply si_own; eauto.
Qed.

(** No wake-up is lost: while a process sleeps in [xsem_down] and the count is
    positive, at least as many processes as the count says are on their way to
    test it again or to wake a sleeper, although every [xsem_up] may wake only one. *)
Theorem xsem_no_lost_wakeup {L} `{LockLaws L} init n (w : sworld L) t :
  0 <= init -> rtc sstep (sworld0 init n) w -> s_ths w !! t = Some WSleep ->
  s_count w <= Z.of_nat (count pending (s_ths w)).
Proof.
  intros Hn Hr Ht. pose proof (sinv_reach _ _ _ Hn Hr) as Hi. apply Hi. apply count_pos. eauto.
Qed.

(** One process asleep, another inside [xsem_up]. *)
Definition sleeper_state : sworld mutex := SWorld (Mutex (Some 1%nat)) 1 [WSleep; UUnlocking] 1 0.

Lemma sleeper_reachable : rtc sstep (sworld0 0 2) sleeper_state.
Proof.
  eapply rtc_l; [do 2 eexists; apply (ss_lock 0 SIdle LCall DLocking); [reflexivity|constructor|apply mutex_call]|].
  eapply rtc_l; [do 2 eexists; apply (ss_lock 0 DLocking LAcq DTest); [reflexivity|constructor|apply mutex_acq]|].
  eapply rtc_l; [do 2 eexists; apply (ss_test_zero 0); [reflexivity|lia|apply mutex_ucall]|].
  eapply rtc_l; [do 2 eexists; apply (ss_lock 0 WUnlocking LRel WReturn); [reflexivity|constructor|apply mutex_rel]|].
  eapply rtc_l; [do 2 eexists; apply (ss_lock 0 WReturn URet WWait); [reflexivity|constructor|apply mutex_uret]|].
  eapply rtc_l; [do 2 eexists; apply (ss_wait 0); reflexivity|].
  eapply rtc_l; [do 2 eexists; apply (ss_lock 1 SIdle LCall ULocking); [reflexivity|constructor|apply mutex_call]|].
  eapply rtc_l; [do 2 eexists; apply (ss_lock 1 ULocking LAcq URead); [reflexivity|constructor|apply mutex_acq]|].
  eapply rtc_l; [do 2 eexists; apply (ss_up_read 1); reflexivity|].
  eapply rtc_l; [do 2 eexists; apply (ss_up_write 1 0); [reflexivity|reflexivity|apply mutex_ucall]|].
  apply rtc_refl.
Qed.

Lemma xsem_no_lost_wakeup_witness :
  s_count sleeper_state <= Z.of_nat (count pending (s_ths sleeper_state)).
Proof. apply (xsem_no_lost_wakeup 0 2 sleeper_state 0); [lia|exact sleeper_reachable|reflexivity]. Defined.

Lemma xsem_no_race_witness : 1%nat = 1%nat.
Proof.
  apply (xsem_no_race 0 2 sleeper_state 1 1 UUnlocking UUnlocking); try reflexivity; try lia.
  exact sleeper_reachable.
Defined.

(** [xsem_create] has no return statement on its successful path: the count
    and the lock are set up, but what the caller gets is indeterminate. *)
Theorem xsem_create_no_result s name count count0 word ret count1 word1 :
  xsem_create s name count count0 word = Ok (ret, count1, word1) ->
  (ret = Indeterminate <-> count1 = count /\ word1 = 0 /\ ret <> Null) /\
  (ret = Null -> count1 = count0).
Proof.
  unfold xsem_create, xsem_create_open. intros Hc.
  destruct (sm_malloc s); cbn [negb] in Hc; [|inv_res; naive_solver].
  inv_res. destruct (true && (0 <? sm_open_probe s)); [inv_res; naive_solver|].
  destruct (true && (sm_open_creat s <? 0)); [inv_res; naive_solver|].
  destruct (sm_open s <? 0); [inv_res; naive_solver|].
  destruct (sm_mmap s); cbn [negb] in *; [|inv_res; naive_solver]. inv_res.
  destruct (xlock_create_open _ _ _ _) as [[x|] w] eqn:E; [|inv_res; naive_solver].
  inv_res. split; [|done]. split; [|done]. intros _. split; [done|]. split; [|done].
  by apply xlock_create_open_Some in E as (-> & _).
Qed.

Lemma xsem_create_no_result_witness :
  exists ret, xsem_create (XsemSys true (-1) 3 3 true (Xsys true (-1) 4 4 true))
      (chars "test_sem") 2 0 0 = Ok (ret, 2, 0) /\ ret = Indeterminate.
Proof.
  exists Indeterminate. split; [reflexivity|].
  apply (xsem_create_no_result (XsemSys true (-1) 3 3 true (Xsys true (-1) 4 4 true))
    (chars "test_sem") 2 0 0 Indeterminate 2 0); [reflexivity|].
  split; [reflexivity|]. split; [reflexivity|discriminate].
Defined.
