(* ===== verification/XsemFair.v ===== *)
(** * Progress of the semaphore of src/xsem.c

    In a fair run, while the count is positive and a process waits in [xsem_down],
    some process takes or gives a permit. Proved over any lock that keeps the promise
    of LockLive.v, and stated for the lock of src/xlock.c, over which the processes
    may also sleep. *)
From stdpp Require Import base list relations.
From Stdlib Require Import ZArith Lia.
From S2P Require Import Prelude Stdio Lock Xlock Fair LockLive XFair Xsem.

Open Scope Z_scope.

Definition s_phase (pc : spc) : phase :=
  match pc with
  | SIdle | WWait | WSleep | WRelock | UWake => Outside
  | DLocking | ULocking => Trying
  | DTest | DRead | DWrite _ | URead | UWrite _ => Holding
  | DUnlocking | WUnlocking | UUnlocking => Releasing
  | DReturn | WReturn | UReturn => Returning
  end.

(** In [xsem_down], the permit not taken yet. *)
Definition in_down (pc : spc) : bool :=
  match pc with
  | DLocking | DTest | DRead | DWrite _ | WUnlocking | WReturn | WWait | WSleep | WRelock => true
  | _ => false
  end.

(** The point after a step that neither takes nor gives a permit. *)
Definition s_next (c : Z) (pc pc' : spc) : Prop :=
  match pc with
  | SIdle => pc' = DLocking \/ pc' = ULocking
  | DTest => pc' = if 0 <? c then DRead else WUnlocking
  | DRead => pc' = DWrite c
  | DUnlocking => pc' = DReturn
  | DReturn => pc' = SIdle
  | WUnlocking => pc' = WReturn
  | WReturn => pc' = WWait
  | WWait => pc' = if c =? 0 then WSleep else WRelock
  | WSleep => pc' = WRelock
  | WRelock => pc' = DLocking
  | URead => pc' = UWrite c
  | UUnlocking => pc' = UReturn
  | UReturn => pc' = UWake
  | UWake => pc' = SIdle
  | DLocking => pc' = DTest
  | ULocking => pc' = URead
  | DWrite _ | UWrite _ => False
  end.

Lemma s_woken_some ths ths' s :
  s_woken ths ths' -> ths !! s = Some WSleep -> exists t, ths' !! t = Some WRelock.
Proof.
  intros [Hf Hlt] Hs.
  assert (Hc : (count sleeping ths' < count sleeping ths)%nat) by (apply Hlt, count_pos; eauto).
  clear Hlt Hs. unfold count in Hc.
  induction Hf as [|a b ths ths' Hab _ IH]; cbn in Hc; [lia|].
  destruct Hab as [->|[-> ->]].
  - destruct IH as (t & Ht); [lia|]. by exists (S t).
  - by exists 0%nat.
Qed.

Lemma s_woken_phase ths ths' : s_woken ths ths' -> s_phase <$> ths' = s_phase <$> ths.
Proof.
  intros [Hf _]. induction Hf as [|a b ths ths' Hab _ IH]; [done|].
  rewrite !fmap_cons, IH. f_equal. by destruct Hab as [->|[-> ->]].
Qed.

Section fair.
Context {L : Type} {HL : Lock L} {HLaws : LockLaws L} {HLive : LockLive L} {HLL : LockLiveLaws L}.

Definition s_use (w : sworld L) : usage L := Usage (s_lock w) (s_phase <$> s_ths w).

Lemma s_use_lookup w t pc : s_ths w !! t = Some pc -> us_phases (s_use w) !! t = Some (s_phase pc).
Proof. intros Ht. cbn. by rewrite list_lookup_fmap, Ht. Qed.

(** A process that goes on by itself: it is inside [xsem_down] or [xsem_up], not
    asleep on the count, and the lock lets it if it waits for that. *)
Definition xsem_runnable (w : sworld L) (t : nat) : Prop :=
  exists pc, s_ths w !! t = Some pc /\
    match pc with
    | SIdle | WSleep => False
    | DLocking | ULocking => lk_ready (s_lock w) t
    | _ => True
    end.

(** In a fair run a process before the write of [count++] does write: the count never
    overflows. *)
Record xsem_run (init : Z) (n : nat) (st : nat -> sworld L)
    (lab : nat -> option (nat * option lock_act)) : Prop := {
  sr_init : st 0%nat = sworld0 init n;
  sr_moves : moves sstep_by st lab;
  sr_fair : fair xsem_runnable st lab;
}.

(** The process takes or gives back a permit at time [j]. *)
Definition sem_moved (st : nat -> sworld L) (j : nat) : Prop :=
  s_downs (st (S j)) = s_downs (st j) + 1 \/ s_ups (st (S j)) = s_ups (st j) + 1.

(** ** Single steps *)

(** Another process changes the point of [t] only by waking it. *)
Lemma sstep_other t' o (w w' : sworld L) t pc :
  sstep_by t' o w w' -> t' <> t -> s_ths w !! t = Some pc ->
  s_ths w' !! t = Some pc \/ (pc = WSleep /\ s_ths w' !! t = Some WRelock).
Proof.
  intros Hs Hne Ht. destruct Hs; cbn in *; rewrite ?list_lookup_insert_ne by done; try (by left).
  match goal with Hw : s_woken _ _ |- _ => destruct Hw as [Hf _];
    destruct (Forall2_lookup_l _ _ _ _ _ Hf Ht) as (b & -> & [->|[-> ->]]); auto end.
Qed.

(** A step of the process itself. *)
Lemma sstep_next t o (w w' : sworld L) pc :
  sstep_by t o w w' -> s_ths w !! t = Some pc ->
  s_downs w' = s_downs w + 1 \/ s_ups w' = s_ups w + 1 \/ (o = Some LTau /\ s_ths w' = s_ths w) \/
  exists pc', s_ths w' !! t = Some pc' /\ s_next (s_count w) pc pc'.
Proof.
  intros Hs Ht. pose proof (lookup_lt_Some _ _ _ Ht) as Hlt.
  inversion Hs; subst; cbn in *; simplify_eq; try (by auto);
    right; right; try (by left); right;
    try (eexists; split; [by apply list_lookup_insert_eq|]; cbn).
  - match goal with Hm : lock_move _ _ _ |- _ => inversion Hm; subst; cbn; auto end.
  - by rewrite (proj2 (Z.ltb_lt _ _)) by lia.
  - by rewrite (proj2 (Z.ltb_ge _ _)) by lia.
  - done.
  - done.
  - done.
  - done.
  - exists SIdle. split; [|done]. apply list_lookup_insert_eq.
    match goal with Hw : s_woken _ _ |- _ => by rewrite <- (Forall2_length _ _ _ (proj1 Hw)) end.
Qed.

(** FUTEX_WAKE lets somebody out of its sleep. *)
Lemma wake_step t s o (w w' : sworld L) :
  sstep_by t o w w' -> s_ths w !! t = Some UWake -> s_ths w' !! t = Some SIdle ->
  s_ths w !! s = Some WSleep -> exists u, s_ths w' !! u = Some WRelock.
Proof.
  intros Hs Ht Ht' Hsl. inversion Hs; subst; cbn in *; simplify_eq.
  { by match goal with Hm : lock_move _ _ _ |- _ => inversion Hm end. }
  match goal with Hw : s_woken _ _ |- _ =>
    destruct (s_woken_some _ _ _ Hw Hsl) as [v Hv]; destruct Hw as [Hf _] end.
  exists v. rewrite list_lookup_insert_ne; [done|]. intros ->.
  by destruct (Forall2_lookup_l _ _ _ _ _ Hf Ht) as (b & Hb & [->|[? _]]); simplify_eq.
Qed.

(** ** The semaphore as a client of the lock *)

Lemma s_use_step t a (w w' : sworld L) :
  sstep_by t (Some a) w w' -> lk_inv (s_lock w) ->
  lk_with (us_lock (s_use w)) (us_phases (s_use w)) -> usage_step t a (s_use w) (s_use w').
Proof.
  intros Hs Hi Hw. inversion Hs; subst; cbn in *; (split; [done|]); cbn;
    try (eexists _, _; split; [by rewrite list_lookup_fmap; match goal with E : _ !! t = Some _ |- _ => rewrite E end|];
         split; [|by rewrite list_fmap_insert]; try done;
         by match goal with Hm : lock_move _ _ _ |- _ => destruct Hm end).
  eapply lk_tau in Hw; [|done..]. exists Trying, Trying. split; [done|]. split; [done|].
  by rewrite list_insert_id.
Qed.

Definition s_rank (w : sworld L) (t : nat) : nat :=
  match s_ths w !! t with Some DTest => 2 | Some (DRead | URead) => 1 | _ => 0 end.

Lemma s_quiet t (w w' : sworld L) :
  sstep_by t None w w' -> s_use w' = s_use w /\
  (us_phases (s_use w) !! t = Some Outside \/
   us_phases (s_use w) !! t = Some Holding /\ (s_rank w' t < s_rank w t)%nat).
Proof.
  intros Hs. unfold s_rank.
  inversion Hs; subst; cbn; rewrite list_lookup_fmap;
    match goal with E : _ !! t = Some _ |- _ => rewrite E; cbn; pose proof (lookup_lt_Some _ _ _ E) end;
    rewrite ?list_lookup_insert_eq by done; (split; [|by auto]); unfold s_use; cbn; f_equal;
    rewrite list_fmap_insert; try match goal with Hw : s_woken _ _ |- _ => rewrite (s_woken_phase _ _ Hw) end;
    apply list_insert_id; rewrite list_lookup_fmap;
    match goal with E : _ !! t = Some _ |- _ => rewrite E end; cbn; try done.
  by destruct (_ =? 0).
Qed.

Lemma xsem_client : lock_client sstep_by (fun w => lk_inv (s_lock w)) s_use s_rank.
Proof.
  constructor; [done|apply s_use_step|intros t w w' Hs _; by apply s_quiet|].
  intros t t' o w w' Hs Hne. unfold s_rank. destruct (s_ths w !! t) as [pc|] eqn:Ht.
  - by destruct (sstep_other _ _ _ _ _ _ Hs Hne Ht) as [->|[-> ->]].
  - destruct (s_ths w' !! t) as [pc|] eqn:Ht'; [|lia].
    apply lookup_lt_Some in Ht'. apply lookup_ge_None in Ht.
    assert (length (s_ths w') = length (s_ths w)); [|lia].
    destruct Hs; cbn; rewrite ?length_insert; try done.
    match goal with Hw : s_woken _ _ |- _ => by rewrite (Forall2_length _ _ _ (proj1 Hw)) end.
Qed.

(** ** Runs *)

Section run.
Context (init : Z) (n : nat) (st : nat -> sworld L) (lab : nat -> option (nat * option lock_act)).
Context (Hinit : 0 <= init) (Hrun : xsem_run init n st lab).

Lemma srun_cases j :
  (st (S j) = st j /\ lab j = None) \/
  (exists t o, lab j = Some (t, o) /\ sstep_by t o (st j) (st (S j))).
Proof.
  pose proof (sr_moves _ _ _ _ Hrun j) as H. destruct (lab j) as [[t o]|]; [right; eauto|by left].
Qed.

Lemma srun_inv j : sinv init (st j).
Proof.
  apply (run_invariant sstep_by (sinv init) st lab); [apply Hrun|..].
  - rewrite (sr_init _ _ _ _ Hrun). by apply sinv_init.
  - intros t o w w' Hs Hi. by eapply sinv_step_by.
Qed.

Lemma srun_start : s_use (st 0%nat) = Usage (lk_init n) (replicate n Outside).
Proof. rewrite (sr_init _ _ _ _ Hrun). unfold s_use. cbn. by rewrite fmap_replicate. Qed.

Lemma srun_lock_inv j : lk_inv (s_lock (st j)).
Proof. apply (srun_inv j). Qed.

Lemma s_use_runnable j t : usage_runnable lk_ready (s_use (st j)) t -> xsem_runnable (st j) t.
Proof.
  intros (p & Hp & Hr). cbn in Hp. rewrite list_lookup_fmap in Hp.
  destruct (s_ths (st j) !! t) as [pc|] eqn:Ht; [|done]. cbn in Hp. injection Hp as <-.
  exists pc. split; [done|]. by destruct pc.
Qed.

(** Outside [xlock_lock] every step of a process is one of [s_next], or moves a
    permit. *)
Lemma srun_next j t o pc :
  lab j = Some (t, o) -> s_ths (st j) !! t = Some pc -> s_phase pc <> Trying ->
  sem_moved st j \/ exists pc', s_ths (st (S j)) !! t = Some pc' /\ s_next (s_count (st j)) pc pc'.
Proof.
  intros El Ht Hp. pose proof (sr_moves _ _ _ _ Hrun j) as Hs. rewrite El in Hs.
  destruct (sstep_next _ _ _ _ _ Hs Ht) as [H|[H|[[-> _]|H]]]; [by left; left|by left; right| |by right].
  destruct Hp. assert (Hq : us_phases (s_use (st j)) !! t = Some Trying).
  { eapply (use_tau sstep_by _ s_use s_rank xsem_client st lab n);
      [apply srun_start|apply srun_lock_inv|apply Hrun|]. unfold use_lab. by rewrite El. }
  rewrite (s_use_lookup _ _ _ Ht) in Hq. by injection Hq.
Qed.

(** ** While the count is positive *)

Definition ev (i : nat) : Prop := eventually (sem_moved st) i.
Definition positive (j : nat) : Prop := 0 < s_count (st j).

Lemma moved_or_same j : sem_moved st j \/ s_count (st (S j)) = s_count (st j).
Proof.
  unfold sem_moved. destruct (srun_cases j) as [[-> _]|(t & o & _ & Hs)]; [by right|].
  destruct Hs; cbn; auto.
Qed.

Lemma count_pos_persists j : positive j -> ev j \/ positive (S j).
Proof.
  unfold positive. intros Hc.
  destruct (moved_or_same j) as [H| ->]; [left; by apply eventually_now|by right].
Qed.

Lemma count_pos_until i j : (i <= j)%nat -> positive i -> ev i \/ positive j.
Proof.
  intros Hij Hc. induction Hij as [|j Hij IH]; [by right|].
  destruct IH as [|Hj]; [by left|]. destruct (count_pos_persists j Hj) as [(k & Hk & H)|]; [|by right].
  left. exists k. split; [lia|done].
Qed.

(** The points from which only the process itself goes on, whatever the lock. *)
Definition steady (pc : spc) : bool :=
  match pc with SIdle | WSleep | DLocking | ULocking => false | _ => true end.

(** A point that only [t] leaves: it leaves it. [R] holds meanwhile, or the count
    changes. *)
Lemma leaves t pc (R : nat -> Prop) :
  steady pc = true -> (forall j, R j -> positive j) -> (forall j, R j -> ev j \/ R (S j)) ->
  (forall j o pc', R j -> s_ths (st j) !! t = Some pc -> sstep_by t o (st j) (st (S j)) -> R (S j) ->
     s_ths (st (S j)) !! t = Some pc' -> s_next (s_count (st j)) pc pc' -> ev (S j)) ->
  forall i, R i -> s_ths (st i) !! t = Some pc -> ev i.
Proof.
  intros Hpc Hpos HR Hmove.
  apply (fair_leaves sstep_by xsem_runnable (fun w t => s_ths w !! t) st lab t pc R (sem_moved st));
    [apply Hrun|apply Hrun| | |done|].
  - intros j _ Ht. exists pc. split; [done|]. by destruct pc.
  - intros j t' o Hne Hs Ht. by destruct (sstep_other _ _ _ _ _ _ Hs Hne Ht) as [|[-> _]].
  - intros j o Hj Ht El Hs HSj.
    destruct (srun_next j t o pc El Ht) as [H|(pc' & Ht' & Hn)]; [by destruct pc|by apply eventually_now|].
    apply eventually_next. by eapply Hmove.
Qed.

(** The process goes to a next point, from which the count changes. *)
Lemma advance t pc pc' (R : nat -> Prop) :
  steady pc = true -> (forall c pc1, 0 < c -> s_next c pc pc1 -> pc1 = pc') ->
  (forall j, R j -> positive j) -> (forall j, R j -> ev j \/ R (S j)) ->
  (forall j, R j -> s_ths (st j) !! t = Some pc' -> ev j) ->
  forall i, R i -> s_ths (st i) !! t = Some pc -> ev i.
Proof.
  intros Hpc Hn Hpos HR Hev. apply (leaves t pc R); [done..|].
  intros j o pc1 Hj _ _ HSj Ht' Hq. apply Hev; [done|]. by rewrite <- (Hn _ _ (Hpos j Hj) Hq).
Qed.

Lemma from_write t pc i :
  match pc with DWrite _ | UWrite _ => true | _ => false end = true ->
  positive i -> s_ths (st i) !! t = Some pc -> ev i.
Proof. intros Hpc. apply (leaves t pc positive); [by destruct pc|done|apply count_pos_persists|by destruct pc]. Qed.

Lemma from_read t pc i :
  match pc with DRead | URead => true | _ => false end = true ->
  positive i -> s_ths (st i) !! t = Some pc -> ev i.
Proof.
  intros Hpc. apply (leaves t pc positive); [by destruct pc|done|apply count_pos_persists|].
  intros j o pc' _ _ _ HSj Ht Hn. apply (from_write t pc'); [|done|done]. destruct pc; try done; cbn in Hn; by subst.
Qed.

Lemma from_test t i : positive i -> s_ths (st i) !! t = Some DTest -> ev i.
Proof.
  apply (advance t DTest DRead positive); [done| |done|apply count_pos_persists|].
  - intros c pc' Hc ->. by rewrite (proj2 (Z.ltb_lt _ _)).
  - intros j. by apply from_read.
Qed.

(** A process in the lock: somebody gets it, tests or reads the count. *)
Lemma from_locking t pc i : s_phase pc = Trying -> positive i -> s_ths (st i) !! t = Some pc -> ev i.
Proof.
  intros Hpc Hi Ht.
  assert (Hacq : eventually (fun j => exists t', lab j = Some (t', Some LAcq)) i).
  { eapply (use_progress sstep_by xsem_runnable _ s_use s_rank xsem_client st lab n);
      [apply srun_start|apply srun_lock_inv|apply Hrun|apply Hrun|apply s_use_runnable|].
    rewrite (s_use_lookup _ _ _ Ht). by rewrite Hpc. }
  destruct Hacq as (j & Hj & t' & El).
  destruct (count_pos_until i (S j) ltac:(lia) Hi) as [|HSj]; [done|].
  pose proof (sr_moves _ _ _ _ Hrun j) as Hs. rewrite El in Hs.
  assert (Hth : exists pc', s_ths (st (S j)) !! t' = Some pc' /\ (pc' = DTest \/ pc' = URead)).
  { inversion Hs; subst. match goal with Hm : lock_move _ LAcq _ |- _ => inversion Hm; subst end;
      cbn; eexists; (split; [apply list_lookup_insert_eq; by eapply lookup_lt_Some|auto]). }
  destruct Hth as (pc' & Ht' & Hpc').
  assert (Hev : ev (S j)) by (destruct Hpc' as [-> | ->]; [by eapply from_test|by apply (from_read t' URead)]).
  destruct Hev as (k & Hk & H). exists k. split; [lia|done].
Qed.

Lemma from_relock t i : positive i -> s_ths (st i) !! t = Some WRelock -> ev i.
Proof.
  apply (advance t WRelock DLocking positive); [done|done|done|apply count_pos_persists|].
  intros j. by apply from_locking.
Qed.

(** The count is not 0 any more: FUTEX_WAIT returns at once. *)
Lemma from_wait t i : positive i -> s_ths (st i) !! t = Some WWait -> ev i.
Proof.
  apply (advance t WWait WRelock positive); [done| |done|apply count_pos_persists|apply from_relock].
  intros c pc' Hc ->. by rewrite (proj2 (Z.eqb_neq _ _)) by lia.
Qed.

Lemma from_wait_return t i : positive i -> s_ths (st i) !! t = Some WReturn -> ev i.
Proof.
  apply (advance t WReturn WWait positive); [done|done|done|apply count_pos_persists|apply from_wait].
Qed.

Lemma from_wait_unlock t i : positive i -> s_ths (st i) !! t = Some WUnlocking -> ev i.
Proof.
  apply (advance t WUnlocking WReturn positive); [done|done|done|apply count_pos_persists|].
  apply from_wait_return.
Qed.

(** ** A sleeper, and a process on its way to wake one *)

Definition sleeps (s j : nat) : Prop := positive j /\ s_ths (st j) !! s = Some WSleep.

Lemma sleeps_positive s j : sleeps s j -> positive j.
Proof. by intros []. Qed.

(** A sleeper that wakes goes on; only a wake-up ends its sleep. *)
Lemma sleeps_persists s j : sleeps s j -> ev j \/ sleeps s (S j).
Proof.
  intros [Hj Hs]. destruct (count_pos_persists j Hj) as [|HSj]; [by left|].
  destruct (srun_cases j) as [[E _]|(t & o & El & Hst)]; [right; split; [done|by rewrite E]|].
  destruct (decide (t = s)) as [->|Hne].
  - left. destruct (srun_next j s o WSleep El Hs) as [H|(pc' & Ht' & ->)]; [done|by apply eventually_now|].
    apply eventually_next. by eapply from_relock.
  - destruct (sstep_other _ _ _ _ _ _ Hst Hne Hs) as [H|[_ H]]; [by right|].
    left. apply eventually_next. by eapply from_relock.
Qed.

(** FUTEX_WAKE lets somebody out of its sleep. *)
Lemma from_wake s t i : sleeps s i -> s_ths (st i) !! t = Some UWake -> ev i.
Proof.
  apply (leaves t UWake (sleeps s)); [done|apply sleeps_positive|apply sleeps_persists|].
  intros j o pc' [Hj Hs] Ht Hst [HSj _] Ht' ->.
  destruct (wake_step _ _ _ _ _ Hst Ht Ht' Hs) as [u Hu]. by apply (from_relock u).
Qed.

Lemma from_up_return s t i : sleeps s i -> s_ths (st i) !! t = Some UReturn -> ev i.
Proof.
  apply (advance t UReturn UWake (sleeps s)); [done|done|apply sleeps_positive|apply sleeps_persists|].
  intros j. apply from_wake.
Qed.

Lemma from_up_unlock s t i : sleeps s i -> s_ths (st i) !! t = Some UUnlocking -> ev i.
Proof.
  apply (advance t UUnlocking UReturn (sleeps s)); [done|done|apply sleeps_positive|apply sleeps_persists|].
  intros j. apply from_up_return.
Qed.

Lemma from_down t pc i :
  in_down pc = true -> pc <> WSleep -> positive i -> s_ths (st i) !! t = Some pc -> ev i.
Proof.
  intros Hpc Hne Hi Ht. destruct pc; try done;
    [by apply (from_locking t DLocking)|by apply (from_test t)|by apply (from_read t DRead)
    |by apply (from_write t (DWrite x))|by apply (from_wait_unlock t)|by apply (from_wait_return t)
    |by apply (from_wait t)|by apply (from_relock t)].
Qed.

(** A process in [xsem_down]: it goes on itself, or it sleeps, and then enough others
    are on their way. *)
Lemma run_sem_progress i t pc :
  positive i -> s_ths (st i) !! t = Some pc -> in_down pc = true -> ev i.
Proof.
  intros Hi Ht Hpc. destruct (decide (pc = WSleep)) as [->|Hne]; [|by eapply from_down].
  assert (Hs : (0 < count sleeping (s_ths (st i)))%nat) by (apply count_pos; eauto).
  pose proof (si_wake _ _ (srun_inv i) Hs) as Hw. unfold positive in Hi.
  assert (Hp : (0 < count pending (s_ths (st i)))%nat) by lia.
  apply count_pos in Hp as (u & pc & Hu & Hpu). assert (Hsl : sleeps t i) by by split.
  destruct (decide (in_down pc = true)) as [Hd|Hd]; [apply (from_down u pc); [done|by intros ->|done|done]|].
  destruct pc; try done;
    [by apply (from_up_unlock t u)|by apply (from_up_return t u)|by apply (from_wake t u)].
Qed.
End run.
End fair.

(** ** The theorem *)

(** C10. The semaphore makes progress, with the futex lock below it: whenever the
    count is positive and a process is inside [xsem_down] without a permit, awake or
    asleep on either futex, some process takes or gives a permit later, provided
    every process that is inside and not asleep goes on eventually. Nothing is asked
    of the processes outside: no other [xsem_up] need ever be called. *)
Theorem xsem_progress init n (st : nat -> sworld xlock) lab i t pc :
  0 <= init -> xsem_run init n st lab -> 0 < s_count (st i) ->
  s_ths (st i) !! t = Some pc -> in_down pc = true -> eventually (sem_moved st) i.
Proof. intros Hinit Hrun. by apply (run_sem_progress init n st lab Hinit Hrun). Qed.

(** One process takes the only permit. *)
Definition down_st (i : nat) : sworld xlock :=
  match i with
  | 0%nat => SWorld (Xlock 0 [XIdle]) 1 [SIdle] 0 0
  | 1%nat => SWorld (Xlock 0 [XTry]) 1 [DLocking] 0 0
  | 2%nat => SWorld (Xlock 1 [XHold]) 1 [DTest] 0 0
  | 3%nat => SWorld (Xlock 1 [XHold]) 1 [DRead] 0 0
  | 4%nat => SWorld (Xlock 1 [XHold]) 1 [DWrite 1] 0 0
  | 5%nat => SWorld (Xlock 1 [XUnlock]) 0 [DUnlocking] 0 1
  | 6%nat => SWorld (Xlock 0 [XWake]) 0 [DReturn] 0 1
  | _ => SWorld (Xlock 0 [XIdle]) 0 [SIdle] 0 1
  end.

Definition down_lab (i : nat) : option (nat * option lock_act) :=
  match i with
  | 0%nat => Some (0%nat, Some LCall)
  | 1%nat => Some (0%nat, Some LAcq)
  | 2%nat => Some (0%nat, None)
  | 3%nat => Some (0%nat, None)
  | 4%nat => Some (0%nat, Some UCall)
  | 5%nat => Some (0%nat, Some LRel)
  | 6%nat => Some (0%nat, Some URet)
  | _ => None
  end.

Lemma down_run : xsem_run 1 1 down_st down_lab.
Proof.
  constructor.
  - done.
  - intros [|[|[|[|[|[|[|i]]]]]]]; cbn; try done.
    + by apply (ss_lock 0 SIdle LCall DLocking); [|constructor|apply (xs_call 0)].
    + by apply (ss_lock 0 DLocking LAcq DTest); [|constructor|eapply (xs_try_ok 0)].
    + by apply (ss_test_pos 0).
    + by apply (ss_down_read 0).
    + by apply (ss_down_write 0 1); [| |apply (xs_ucall 0)].
    + by apply (ss_lock 0 DUnlocking LRel DReturn); [|constructor|eapply (xs_unlock_ok 0)].
    + apply (ss_lock 0 DReturn URet SIdle); [done|constructor|].
      by apply (xs_wake 0 0 [XWake] [XWake]); [|apply woken_refl].
  - intros t i. exists (7 + i)%nat. split; [lia|]. right. intros (pc & H & Hp).
    destruct t; cbn in H; [injection H as <-|]; done.
Qed.

Lemma xsem_progress_witness : eventually (sem_moved down_st) 1.
Proof.
  exact (xsem_progress 1 1 down_st down_lab 1 0 DLocking ltac:(lia) down_run eq_refl eq_refl eq_refl).
Defined.
