(* ===== verification/Psem.v ===== *)
(** * The semaphore of src/psem.c

    [psem_down] and [psem_up] over a pthread mutex and a condition variable: the
    wait releases the mutex and goes to sleep in one step, a sleeper wakes by a
    broadcast or spuriously and takes the mutex again. *)
From stdpp Require Import base list strings relations.
From Stdlib Require Import ZArith Lia.
From S2P Require Import Prelude Lock Xsem.

Open Scope Z_scope.

(** ** Creation *)

Record psem_t : Type := Psem { count : Z; synch_ready : bool }.

(** [psem_init] stores the count only: the mutex and the condition variable stay as
    they were. *)
Definition psem_init (x : psem_t) (c : Z) : psem_t := Psem c (synch_ready x).

(** [m]: whether [malloc] succeeds. The name is not used. *)
Definition psem_create (m : bool) (name : string) (c : Z) : option psem_t :=
  if m then Some (Psem c true) else None.

(** ** The program points *)
Inductive ppc : Type :=
| PIdle
| DLock                 (* psem_down: before pthread_mutex_lock returns *)
| DTest                 (* before the test of the count *)
| DRead                 (* the count was positive; before the read of count-- *)
| DWrite (x : Z)        (* before the write of count-- *)
| DUnlock               (* before pthread_mutex_unlock *)
| CWait                 (* asleep in pthread_cond_wait, the mutex released *)
| CRelock               (* woken, before taking the mutex again *)
| ULock                 (* psem_up: before pthread_mutex_lock returns *)
| URead
| UWrite (x : Z)
| UUnlock
| UCast.                (* before pthread_cond_broadcast *)

#[export] Instance ppc_eq_dec : EqDecision ppc.
Proof. solve_decision. Defined.

Definition p_owning (pc : ppc) : bool :=
  match pc with
  | DTest | DRead | DWrite _ | DUnlock | URead | UWrite _ | UUnlock => true
  | _ => false
  end.

(** A thread that is going to broadcast. *)
Definition waker (pc : ppc) : bool := match pc with UUnlock | UCast => true | _ => false end.

(** [pthread_cond_broadcast]: every sleeper wakes. *)
Definition broadcast (ths : list ppc) : list ppc :=
  map (fun pc => match pc with CWait => CRelock | _ => pc end) ths.

(** [p_ups] and [p_downs] count the completed operations. *)
Record pworld : Type := PWorld {
  p_mutex : mutex; p_count : Z; p_ths : list ppc; p_ups : Z; p_downs : Z }.

(** The moves that touch only the mutex and the thread's program point. *)
Inductive mutex_move : ppc -> lock_act -> ppc -> Prop :=
| mm_down : mutex_move PIdle LCall DLock
| mm_up : mutex_move PIdle LCall ULock
| mm_down_acq : mutex_move DLock LAcq DTest
| mm_wait_acq : mutex_move CRelock LAcq DTest
| mm_up_acq : mutex_move ULock LAcq URead
| mm_down_rel : mutex_move DUnlock LRel PIdle
| mm_up_rel : mutex_move UUnlock LRel UCast.

(** One access of thread [t]. *)
Inductive pstep_by : nat -> pworld -> pworld -> Prop :=
| ps_mutex t pc a pc' m m' c ths u d :
    ths !! t = Some pc -> mutex_move pc a pc' -> mutex_step t a m m' ->
    pstep_by t (PWorld m c ths u d) (PWorld m' c (<[t := pc']> ths) u d)
| ps_test_pos t m c ths u d :
    ths !! t = Some DTest -> 0 < c ->
    pstep_by t (PWorld m c ths u d) (PWorld m c (<[t := DRead]> ths) u d)
| ps_test_wait t m m' c ths u d :
    ths !! t = Some DTest -> c <= 0 -> mutex_step t LRel m m' ->
    pstep_by t (PWorld m c ths u d) (PWorld m' c (<[t := CWait]> ths) u d)
| ps_spurious t m c ths u d :
    ths !! t = Some CWait ->
    pstep_by t (PWorld m c ths u d) (PWorld m c (<[t := CRelock]> ths) u d)
| ps_down_read t m c ths u d :
    ths !! t = Some DRead ->
    pstep_by t (PWorld m c ths u d) (PWorld m c (<[t := DWrite c]> ths) u d)
| ps_down_write t x x' m c ths u d :
    ths !! t = Some (DWrite x) -> int_of (x - 1) = Ok x' ->
    pstep_by t (PWorld m c ths u d) (PWorld m x' (<[t := DUnlock]> ths) u (d + 1))
| ps_up_read t m c ths u d :
    ths !! t = Some URead ->
    pstep_by t (PWorld m c ths u d) (PWorld m c (<[t := UWrite c]> ths) u d)
| ps_up_write t x x' m c ths u d :
    ths !! t = Some (UWrite x) -> int_of (x + 1) = Ok x' ->
    pstep_by t (PWorld m c ths u d) (PWorld m x' (<[t := UUnlock]> ths) (u + 1) d)
| ps_broadcast t m c ths u d :
    ths !! t = Some UCast ->
    pstep_by t (PWorld m c ths u d) (PWorld m c (<[t := PIdle]> (broadcast ths)) u d).

Definition pstep (w w' : pworld) : Prop := exists t, pstep_by t w w'.

Definition pworld0 (ps : psem_t) (n : nat) : pworld :=
  PWorld (Mutex None) (count ps) (replicate n PIdle) 0 0.

(** ** The invariant *)

Definition p_pc_ok (pc : ppc) (c : Z) : Prop :=
  match pc with
  | DRead => 0 < c
  | DWrite x => x = c /\ 0 < c
  | UWrite x => x = c
  | _ => True
  end.

Record pinv (init : Z) (w : pworld) : Prop := {
  pi_own t pc : p_ths w !! t = Some pc -> p_owning pc = true <-> mx_owner (p_mutex w) = Some t;
  pi_thread t : mx_owner (p_mutex w) = Some t -> is_Some (p_ths w !! t);
  pi_pc t pc : p_ths w !! t = Some pc -> p_pc_ok pc (p_count w);
  pi_count : p_count w = init + p_ups w - p_downs w;
  pi_nonneg : 0 <= p_count w;
  pi_wake t : p_ths w !! t = Some CWait -> 0 < p_count w ->
    exists t' pc, p_ths w !! t' = Some pc /\ waker pc = true;
}.

(** The mutex after a step of thread [t] that moves to [pc']. *)
Definition mutex_ok (t : nat) (pc pc' : ppc) (m m' : mutex) : Prop :=
  (m' = m /\ p_owning pc' = p_owning pc) \/
  (mx_owner m = None /\ mx_owner m' = Some t /\ p_owning pc' = true) \/
  (mx_owner m = Some t /\ mx_owner m' = None /\ p_owning pc' = false).

Lemma pinv_update init t m m' c c' ths pc pc' u u' d d' :
  pinv init (PWorld m c ths u d) -> ths !! t = Some pc -> mutex_ok t pc pc' m m' ->
  (c' = c \/ p_owning pc = true) -> p_pc_ok pc' c' -> c' = init + u' - d' -> 0 <= c' ->
  (pc' = CWait -> c' <= 0) -> (waker pc = true -> waker pc' = true) ->
  (c < c' -> waker pc' = true) ->
  pinv init (PWorld m' c' (<[t := pc']> ths) u' d').
Proof.
  intros [Ho Hth Hpc Hc Hn Hw] Ht Hm Hcc Hpc' Hc' Hn' Hwait Hwk Hup. cbn in *.
  pose proof (Ho t pc Ht) as Hot.
  assert (Hcase : forall t' pc1, <[t := pc']> ths !! t' = Some pc1 ->
    (t' = t /\ pc1 = pc') \/ (t' <> t /\ ths !! t' = Some pc1)).
  { intros t' pc1 [(-> & -> & _)|[Hne E]]%list_lookup_insert_Some; [by left|by right]. }
  assert (Hother : forall t' pc1, t' <> t -> ths !! t' = Some pc1 -> p_owning pc1 = true -> c' = c).
  { intros t' pc1 Hne E Hown. destruct Hcc as [|Hown']; [done|].
    apply Hot in Hown'. apply (Ho t' pc1 E) in Hown. congruence. }
  assert (Hwaker : forall t' pc1, ths !! t' = Some pc1 -> waker pc1 = true ->
    exists t2 pc2, <[t := pc']> ths !! t2 = Some pc2 /\ waker pc2 = true).
  { intros t' pc1 E Hwk1. destruct (decide (t' = t)) as [->|Hne].
    - exists t, pc'. rewrite list_lookup_insert_eq by by eapply lookup_lt_Some.
      split; [done|]. apply Hwk. congruence.
    - exists t', pc1. by rewrite list_lookup_insert_ne by done. }
  constructor; cbn.
  - intros t' pc1 [[-> ->]|(Hne & E)]%Hcase.
    + destruct Hm as [[-> ->]|[(_ & -> & ->)|(_ & -> & ->)]]; done.
    + rewrite (Ho t' pc1 E). destruct Hm as [[-> _]|[(-> & -> & _)|(-> & -> & _)]];
        [done|split; [done|congruence]|split; [congruence|done]].
  - intros t' Hown. apply lookup_lt_is_Some. rewrite length_insert. apply lookup_lt_is_Some.
    destruct Hm as [[-> _]|[(_ & E & _)|(_ & E & _)]]; [by apply Hth| |congruence].
    exists pc. congruence.
  - intros t' pc1 [[-> ->]|(Hne & E)]%Hcase; [done|]. pose proof (Hpc t' pc1 E) as P.
    pose proof (Hother t' pc1 Hne E). destruct pc1; cbn in *; try done; by rewrite H.
  - done.
  - done.
  - intros t' [[-> <-]|(Hne & E)]%Hcase Hpos; [specialize (Hwait eq_refl); lia|].
    destruct (Z.ltb_spec c c') as [Hlt|Hge].
    + exists t, pc'. rewrite list_lookup_insert_eq by by eapply lookup_lt_Some.
      split; [done|]. by apply Hup.
    + destruct (Hw t' E) as (t1 & pc1 & E1 & Hwk1); [lia|]. by eapply Hwaker.
Qed.

Lemma broadcast_lookup ths t pc :
  broadcast ths !! t = Some pc ->
  pc <> CWait /\ exists pc0, ths !! t = Some pc0 /\ p_owning pc = p_owning pc0 /\
    (pc <> CRelock -> pc0 = pc).
Proof.
  unfold broadcast. rewrite list_lookup_fmap. intros (pc0 & E & ->)%fmap_Some.
  destruct pc0; (split; [done|]; eexists; split; [done|]; split; [done|]; congruence).
Qed.

Lemma pinv_broadcast init t m c ths u d :
  pinv init (PWorld m c ths u d) -> ths !! t = Some UCast ->
  pinv init (PWorld m c (<[t := PIdle]> (broadcast ths)) u d).
Proof.
  intros [Ho Hth Hpc Hc Hn Hw] Ht. cbn in *.
  assert (Hcase : forall t' pc1, <[t := PIdle]> (broadcast ths) !! t' = Some pc1 ->
    pc1 <> CWait /\ exists pc0, ths !! t' = Some pc0 /\ p_owning pc1 = p_owning pc0 /\
      (p_pc_ok pc0 c -> p_pc_ok pc1 c)).
  { intros t' pc1 [(-> & <- & _)|[Hne E]]%list_lookup_insert_Some; [split; [done|]; by exists UCast|].
    destruct (broadcast_lookup _ _ _ E) as (H1 & pc0 & H2 & H3 & H4). split; [done|].
    exists pc0. split; [done|]. split; [done|]. destruct pc1; try done; by rewrite H4. }
  constructor; cbn; [| | |done|done|].
  - intros t' pc1 (_ & pc0 & E & -> & _)%Hcase. by apply Ho.
  - intros t' [pc0 E]%Hth. apply lookup_lt_is_Some. unfold broadcast.
    rewrite length_insert, length_map. by eapply lookup_lt_Some.
  - intros t' pc1 (_ & pc0 & E & _ & G)%Hcase. eauto.
  - by intros t' [? _]%Hcase.
Qed.

Lemma pinv_step_by init t0 w w' : pinv init w -> pstep_by t0 w w' -> pinv init w'.
Proof.
  intros Hi Hs. pose proof (pi_count _ _ Hi) as Hc. pose proof (pi_nonneg _ _ Hi) as Hn.
  destruct Hs as [t pc a pc' m m' c ths u d Ht Hm Hs|t m c ths u d Ht Hpos|t m m' c ths u d Ht Hz Hs
    |t m c ths u d Ht|t m c ths u d Ht|t x x' m c ths u d Ht Hx|t m c ths u d Ht
    |t x x' m c ths u d Ht Hx|t m c ths u d Ht]; cbn in Hc, Hn;
    try (pose proof (pi_pc _ _ Hi t _ Ht) as Hpc; cbn in Hpc).
  - apply (pinv_update init t m m' c c ths pc pc' u u d d); try done;
      [|by left|by destruct Hm|by destruct Hm|by destruct Hm|lia].
    destruct Hm; inversion Hs; subst; first [by left|by right; left|by right; right].
  - apply (pinv_update init t m m c c ths DTest DRead u u d d); try done; [by left|by left|lia].
  - apply (pinv_update init t m m' c c ths DTest CWait u u d d); try done; [|by left|lia].
    right. right. by inversion Hs; subst.
  - apply (pinv_update init t m m c c ths CWait CRelock u u d d); try done; [by left|by left|lia].
  - apply (pinv_update init t m m c c ths DRead (DWrite c) u u d d); try done; [by left|by left|lia].
  - destruct Hpc as [-> Hpos]. apply int_of_Ok_inv in Hx as [-> _].
    apply (pinv_update init t m m c (c - 1) ths (DWrite c) DUnlock u u d (d + 1)); try done;
      [by left|by right|lia|lia|lia].
  - apply (pinv_update init t m m c c ths URead (UWrite c) u u d d); try done; [by left|by left|lia].
  - subst x. apply int_of_Ok_inv in Hx as [-> _].
    apply (pinv_update init t m m c (c + 1) ths (UWrite c) UUnlock u (u + 1) d d); try done;
      [by left|by right|lia|lia].
  - by apply pinv_broadcast.
Qed.

Lemma pinv_step init w w' : pinv init w -> pstep w w' -> pinv init w'.
Proof. intros Hi [t Hs]. by eapply pinv_step_by. Qed.

Lemma pinv_init ps n : 0 <= count ps -> pinv (count ps) (pworld0 ps n).
Proof.
  intros Hn. constructor; cbn; [| | |lia|done|].
  - by intros t pc [-> _]%lookup_replicate.
  - done.
  - by intros t pc [-> _]%lookup_replicate.
  - by intros t [? _]%lookup_replicate.
Qed.

Lemma pinv_reach ps n w : 0 <= count ps -> rtc pstep (pworld0 ps n) w -> pinv (count ps) w.
Proof.
  intros Hn Hr. assert (G : forall w1 w2, rtc pstep w1 w2 -> pinv (count ps) w1 -> pinv (count ps) w2).
  { induction 1; [done|]. eauto using pinv_step. }
  eapply G; [done|]. by apply pinv_init.
Qed.

(** C11. Refinement: every step of threads that run [psem_down] and [psem_up], with
    spurious wake-ups, is a step of the counting semaphore or leaves the count
    alone, and the count is never negative. *)
Theorem psem_refines_semaphore ps n w w' :
  0 <= count ps -> rtc pstep (pworld0 ps n) w -> pstep w w' ->
  (p_count w' = p_count w \/ sem_step (p_count w) (p_count w')) /\
  0 <= p_count w' /\ p_count w' = count ps + p_ups w' - p_downs w'.
Proof.
  intros Hn Hr Hs. pose proof (pinv_reach _ _ _ Hn Hr) as Hi.
  pose proof (pinv_step _ _ _ Hi Hs) as Hi'.
  split; [|split; [apply (pi_nonneg _ _ Hi')|apply (pi_count _ _ Hi')]].
  destruct Hs as [t0 Hs]. destruct Hs as [| | | | |t x x' m c ths u d Ht Hx| |t x x' m c ths u d Ht Hx|]; cbn; try by left.
  - right. pose proof (pi_pc _ _ Hi t _ Ht) as [-> Hpos]. cbn in *.
    apply int_of_Ok_inv in Hx as [-> _]. by constructor.
  - right. pose proof (pi_pc _ _ Hi t _ Ht) as ->. cbn in *.
    apply int_of_Ok_inv in Hx as [-> _]. by constructor.
Qed.

(** A step of thread [t] that is neither a new call nor a spurious wake-up. *)
Definition progress (w : pworld) (t : nat) : Prop :=
  exists pc, p_ths w !! t = Some pc /\ pc <> PIdle /\ pc <> CWait /\
  exists w' pc', pstep w w' /\ p_ths w' !! t = Some pc' /\ pc' <> pc.

(** A thread that may go on whenever the mutex allows it. *)
Lemma progress_owner init w t pc :
  pinv init w -> p_count w < INT_MAX -> p_ths w !! t = Some pc ->
  mx_owner (p_mutex w) = Some t -> progress w t.
Proof.
  intros Hi Hmax Ht Ho. pose proof (proj2 (pi_own _ _ Hi t pc Ht) Ho) as Hown.
  pose proof (pi_pc _ _ Hi t pc Ht) as Hpc. pose proof (pi_nonneg _ _ Hi) as Hn.
  destruct w as [[o] c ths u d]. cbn in *. subst o.
  assert (Hl : forall pc' : ppc, <[t := pc']> ths !! t = Some pc')
    by (intros; apply list_lookup_insert_eq; by eapply lookup_lt_Some).
  exists pc. split; [done|].
  assert (Hi1 : int_of (c + 1) = Ok (c + 1)) by (apply int_of_Ok; unfold INT_MIN; lia).
  destruct pc; try done; (split; [done|]; split; [done|]); cbn in Hpc.
  - destruct (Z.ltb_spec 0 c).
    + eexists _, DRead. split; [exists t; by eapply ps_test_pos|]. by cbn.
    + eexists _, CWait. split; [exists t; eapply ps_test_wait; [done|done|constructor]|]. by cbn.
  - eexists _, (DWrite c). split; [exists t; by eapply ps_down_read|]. by cbn.
  - destruct Hpc as [-> Hpos]. eexists _, DUnlock.
    split; [exists t; eapply ps_down_write; [done|apply int_of_Ok; unfold INT_MIN; lia]|]. by cbn.
  - eexists _, PIdle. split; [exists t; eapply ps_mutex; [done|constructor|constructor]|]. by cbn.
  - eexists _, (UWrite c). split; [exists t; by eapply ps_up_read|]. by cbn.
  - subst x. eexists _, UUnlock. split; [exists t; by eapply ps_up_write|]. by cbn.
  - eexists _, UCast. split; [exists t; eapply ps_mutex; [done|constructor|constructor]|]. by cbn.
Qed.

Lemma progress_free w t pc :
  p_ths w !! t = Some pc -> mx_owner (p_mutex w) = None -> p_owning pc = false ->
  pc <> PIdle -> pc <> CWait -> progress w t.
Proof.
  intros Ht Ho Hown Hne1 Hne2. destruct w as [[o] c ths u d]. cbn in *. subst o.
  exists pc. split; [done|]. split; [done|]. split; [done|].
  assert (Hl : forall (pc' : ppc) ths', length ths' = length ths -> <[t := pc']> ths' !! t = Some pc').
  { intros. apply list_lookup_insert_eq. replace (length ths') with (length ths). by eapply lookup_lt_Some. }
  destruct pc; try done.
  - eexists _, DTest. split; [exists t; eapply ps_mutex; [done|constructor|constructor]|]. by cbn; rewrite Hl.
  - eexists _, DTest. split; [exists t; eapply ps_mutex; [done|constructor|constructor]|]. by cbn; rewrite Hl.
  - eexists _, URead. split; [exists t; eapply ps_mutex; [done|constructor|constructor]|]. by cbn; rewrite Hl.
  - eexists _, PIdle. split; [exists t; by eapply ps_broadcast|]. cbn. rewrite Hl; [done|]. unfold broadcast. by rewrite length_map.
Qed.

(** No deadlock and no lost wake-up: while the count is positive and some thread
    is inside [psem_down] or [psem_up], even asleep, some thread inside them can
    go on without a new call and without a spurious wake-up. *)
Theorem psem_no_deadlock ps n w t pc :
  0 <= count ps -> rtc pstep (pworld0 ps n) w -> 0 < p_count w < INT_MAX ->
  p_ths w !! t = Some pc -> pc <> PIdle -> exists t', progress w t'.
Proof.
  intros Hn Hr Hc Ht Hne. pose proof (pinv_reach _ _ _ Hn Hr) as Hi.
  destruct (mx_owner (p_mutex w)) as [o|] eqn:Eo.
  { destruct (pi_thread _ _ Hi o Eo) as [pco Hpco]. exists o.
    eapply progress_owner; [done|lia|done|done]. }
  assert (Hfree : forall t pc, p_ths w !! t = Some pc -> p_owning pc = false).
  { intros t1 pc1 E. destruct (p_owning pc1) eqn:E1; [|done].
    apply (pi_own _ _ Hi t1 pc1 E) in E1. congruence. }
  destruct (decide (pc = CWait)) as [->|Hne2].
  - destruct (pi_wake _ _ Hi t Ht) as (t1 & pc1 & E1 & Hw1); [lia|]. exists t1.
    eapply progress_free; [done|done|by eauto|by intros ->|by intros ->].
  - exists t. by eapply progress_free; eauto.
Qed.

Lemma psem_refines_semaphore_witness :
  let w := PWorld (Mutex (Some 0%nat)) 3 [DWrite 3] 0 0 in
  let w' := PWorld (Mutex (Some 0%nat)) 2 [DUnlock] 0 1 in
  rtc pstep (pworld0 (Psem 3 true) 1) w /\ pstep w w' /\ 0 <= p_count w'.
Proof.
  assert (R : rtc pstep (pworld0 (Psem 3 true) 1) (PWorld (Mutex (Some 0%nat)) 3 [DWrite 3] 0 0)).
  { eapply rtc_l; [exists 0%nat; eapply (ps_mutex 0); [done|apply mm_down|constructor]|].
    eapply rtc_l; [exists 0%nat; eapply (ps_mutex 0); [done|apply mm_down_acq|constructor]|].
    eapply rtc_l; [exists 0%nat; eapply (ps_test_pos 0); [done|cbn; lia]|].
    eapply rtc_l; [exists 0%nat; by eapply (ps_down_read 0)|]. apply rtc_refl. }
  assert (S1 : pstep (PWorld (Mutex (Some 0%nat)) 3 [DWrite 3] 0 0)
                     (PWorld (Mutex (Some 0%nat)) 2 [DUnlock] 0 1))
    by (exists 0%nat; by apply (ps_down_write 0 3 2)).
  split; [exact R|]. split; [exact S1|].
  apply (psem_refines_semaphore (Psem 3 true) 1 _ _ ltac:(cbn; lia) R S1).
Defined.

(** A sleeper, while the thread that raised the count is about to broadcast. *)
Lemma psem_sleeper_reachable :
  rtc pstep (pworld0 (Psem 0 true) 2) (PWorld (Mutex None) 1 [CWait; UCast] 1 0).
Proof.
  eapply rtc_l; [exists 0%nat; eapply (ps_mutex 0); [done|apply mm_down|constructor]|].
  eapply rtc_l; [exists 0%nat; eapply (ps_mutex 0); [done|apply mm_down_acq|constructor]|].
  eapply rtc_l; [exists 0%nat; eapply (ps_test_wait 0); [done|cbn; lia|constructor]|].
  eapply rtc_l; [exists 1%nat; eapply (ps_mutex 1); [done|apply mm_up|constructor]|].
  eapply rtc_l; [exists 1%nat; eapply (ps_mutex 1); [done|apply mm_up_acq|constructor]|].
  eapply rtc_l; [exists 1%nat; by eapply (ps_up_read 1)|].
  eapply rtc_l; [exists 1%nat; by apply (ps_up_write 1 0 1)|].
  eapply rtc_l; [exists 1%nat; eapply (ps_mutex 1); [done|apply mm_up_rel|constructor]|]. apply rtc_refl.
Qed.

Lemma psem_no_deadlock_witness :
  exists t', progress (PWorld (Mutex None) 1 [CWait; UCast] 1 0) t'.
Proof.
  apply (psem_no_deadlock (Psem 0 true) 2 _ 0 CWait).
  - cbn. lia.
  - exact psem_sleeper_reachable.
  - cbn. unfold INT_MAX. lia.
  - reflexivity.
  - discriminate.
Defined.
