(* ===== verification/PsemFair.v ===== *)
(** * Progress of the semaphore of src/psem.c

    In a fair run, while the count is positive and a thread waits in [psem_down],
    some thread takes or gives a permit. The mutex is only assumed to let one of
    the threads have it when it is free. *)
From stdpp Require Import base list relations.
From Stdlib Require Import ZArith Lia.
From S2P Require Import Prelude Lock Fair Psem.

Open Scope Z_scope.

(** Waiting for the mutex. *)
Definition wants (pc : ppc) : bool := match pc with DLock | CRelock | ULock => true | _ => false end.

(** A thread that goes on by itself: it is inside, not asleep, and the mutex is free
    if it wants it. *)
Definition p_runnable (w : pworld) (t : nat) : Prop :=
  exists pc, p_ths w !! t = Some pc /\ pc <> PIdle /\ pc <> CWait /\
    (wants pc = true -> mx_owner (p_mutex w) = None).

(** In [psem_down], the permit not taken yet. *)
Definition p_in_down (pc : ppc) : bool :=
  match pc with DLock | DTest | DRead | DWrite _ | CWait | CRelock => true | _ => false end.

Definition pstep_at (t : nat) (_ : unit) : pworld -> pworld -> Prop := pstep_by t.

(** In a fair run a thread before the write of [count++] does write: the count never
    overflows. *)
Record psem_run (ps : psem_t) (n : nat) (st : nat -> pworld) (lab : nat -> option (nat * unit)) : Prop := {
  pr_init : st 0%nat = pworld0 ps n;
  pr_moves : moves pstep_at st lab;
  pr_fair : fair p_runnable st lab;
}.

Definition p_moved (st : nat -> pworld) (j : nat) : Prop :=
  p_downs (st (S j)) = p_downs (st j) + 1 \/ p_ups (st (S j)) = p_ups (st j) + 1.

(** ** Single steps *)

Lemma pstep_other t' w w' t pc :
  pstep_by t' w w' -> t' <> t -> p_ths w !! t = Some pc ->
  p_ths w' !! t = Some pc \/ (pc = CWait /\ p_ths w' !! t = Some CRelock).
Proof.
  intros Hs Hne Ht. destruct Hs; cbn in *; rewrite ?list_lookup_insert_ne by done; try (by left).
  unfold broadcast. rewrite list_lookup_fmap, Ht. by destruct pc; auto.
Qed.

(** What thread [t] does from a point, with a positive count: it changes the count or
    goes on to a next point; [m] is the owner of the mutex afterwards. *)
Definition p_next (c : Z) (t : nat) (pc pc' : ppc) (m : option nat) : Prop :=
  match pc with
  | DLock | CRelock => pc' = DTest
  | ULock => pc' = URead
  | DTest => pc' = DRead
  | DRead => pc' = DWrite c
  | URead => pc' = UWrite c
  | DUnlock => pc' = PIdle /\ m = None
  | UUnlock => pc' = UCast /\ m = None
  | CWait => pc' = CRelock
  | _ => True
  end.

Lemma pstep_next t w w' pc :
  pstep_by t w w' -> p_ths w !! t = Some pc -> 0 < p_count w ->
  p_downs w' = p_downs w + 1 \/ p_ups w' = p_ups w + 1 \/
  exists pc', p_ths w' !! t = Some pc' /\ p_next (p_count w) t pc pc' (mx_owner (p_mutex w')).
Proof.
  intros Hs Ht Hc. pose proof (lookup_lt_Some _ _ _ Ht) as Hlt.
  inversion Hs; subst; cbn in *; simplify_eq; try lia; try (by auto);
    right; right; try (eexists; split; [by apply list_lookup_insert_eq|done]).
  - match goal with Hm : mutex_move _ _ _, Hx : mutex_step _ _ _ _ |- _ =>
      inversion Hm; subst; inversion Hx; subst end;
      (eexists; split; [by apply list_lookup_insert_eq|done]).
  - exists PIdle. split; [|done]. apply list_lookup_insert_eq. unfold broadcast. by rewrite length_map.
Qed.

Lemma pstep_write t w w' pc :
  pstep_by t w w' -> p_ths w !! t = Some pc ->
  match pc with DWrite _ | UWrite _ => true | _ => false end = true ->
  p_downs w' = p_downs w + 1 \/ p_ups w' = p_ups w + 1.
Proof.
  intros Hs Ht Hpc. inversion Hs; subst; cbn in *; simplify_eq; try done; try (by auto).
  match goal with Hm : mutex_move _ _ _ |- _ => by inversion Hm; subst end.
Qed.

Lemma pstep_cast_wakes t s w w' :
  pstep_by t w w' -> p_ths w !! t = Some UCast -> p_ths w !! s = Some CWait ->
  p_ths w' !! s <> Some CWait.
Proof.
  intros Hs Ht Hw E. inversion Hs; subst; cbn in *; simplify_eq.
  - by match goal with Hm : mutex_move _ _ _ |- _ => inversion Hm end.
  - apply list_lookup_insert_Some in E as [(_ & ? & _)|[_ E]]; [done|].
    by destruct (broadcast_lookup _ _ _ E).
Qed.

(** With the mutex free, a step leaves it free and the count alone, or its thread has
    the mutex then. *)
Lemma pstep_free init t w w' :
  pinv init w -> pstep_by t w w' -> mx_owner (p_mutex w) = None ->
  mx_owner (p_mutex w') = None \/ p_ths w' !! t = Some DTest \/ p_ths w' !! t = Some URead.
Proof.
  intros Hi Hs Hm. destruct Hs as [t pc a pc' m m' c ths u d Ht Hmv Hs|t m c ths u d Ht Hpos|t m m' c ths u d Ht Hz Hs
    |t m c ths u d Ht|t m c ths u d Ht|t x x' m c ths u d Ht Hx|t m c ths u d Ht
    |t x x' m c ths u d Ht Hx|t m c ths u d Ht]; cbn in *; try (by left).
  - destruct Hmv; inversion Hs; subst; cbn in *; try (by left); right;
      rewrite list_lookup_insert_eq by (by eapply lookup_lt_Some); auto.
  - by inversion Hs; subst.
Qed.

Section run.
Context (ps : psem_t) (n : nat) (st : nat -> pworld) (lab : nat -> option (nat * unit)).
Context (Hinit : 0 <= Psem.count ps) (Hrun : psem_run ps n st lab).

Lemma prun_inv j : pinv (Psem.count ps) (st j).
Proof.
  apply (run_invariant pstep_at (pinv (Psem.count ps)) st lab); [apply Hrun|..].
  - rewrite (pr_init _ _ _ _ Hrun). by apply pinv_init.
  - intros t o w w' Hs Hi. by eapply pinv_step_by.
Qed.

Lemma prun_cases j :
  (st (S j) = st j /\ lab j = None) \/ (exists t, lab j = Some (t, tt) /\ pstep_by t (st j) (st (S j))).
Proof.
  pose proof (pr_moves _ _ _ _ Hrun j) as H. destruct (lab j) as [[t []]|]; [right; eauto|by left].
Qed.

Definition pev (i : nat) : Prop := eventually (p_moved st) i.
Definition p_positive (j : nat) : Prop := 0 < p_count (st j).

Lemma p_positive_persists j : p_positive j -> pev j \/ p_positive (S j).
Proof.
  unfold p_positive. intros Hc. destruct (prun_cases j) as [[-> _]|(t & _ & Hs)]; [by right|].
  assert (H : p_moved st j \/ p_count (st (S j)) = p_count (st j)).
  { unfold p_moved. destruct Hs; cbn; auto. }
  destruct H as [H| ->]; [left; by apply eventually_now|by right].
Qed.

(** [fair_advance] for a point other than PIdle and CWait at which the thread can
    move while [R] holds. *)
Lemma p_advance t pc (R : nat -> Prop) (next : ppc -> Prop) :
  pc <> PIdle -> pc <> CWait ->
  (forall j, R j -> wants pc = true -> mx_owner (p_mutex (st j)) = None) ->
  (forall j, R j -> pev j \/ R (S j)) -> (forall j, R j -> p_positive j) ->
  (forall j pc', R j -> p_ths (st j) !! t = Some pc -> pstep_by t (st j) (st (S j)) ->
     p_next (p_count (st j)) t pc pc' (mx_owner (p_mutex (st (S j)))) ->
     p_ths (st (S j)) !! t = Some pc' -> pev j \/ next pc') ->
  (forall i pc', R i -> next pc' -> p_ths (st i) !! t = Some pc' -> pev i) ->
  forall i, R i -> p_ths (st i) !! t = Some pc -> pev i.
Proof.
  intros Hne1 Hne2 Hmx HR Hpos Hmove Hnext.
  apply (fair_advance pstep_at p_runnable (fun w t => p_ths w !! t) st lab t pc R (p_moved st) next);
    [apply Hrun|apply Hrun| | |done| |done].
  - intros j Hj Ht. exists pc. split; [done|]. split; [done|]. split; [done|]. by apply Hmx.
  - intros j t' [] Hne Hs Ht. destruct (pstep_other _ _ _ _ _ Hs Hne Ht) as [|[-> _]]; done.
  - intros j [] Hj Ht Hs. destruct (pstep_next _ _ _ _ Hs Ht (Hpos j Hj)) as [H|[H|(pc' & Ht' & Hq)]].
    + left. apply eventually_now. by left.
    + left. apply eventually_now. by right.
    + destruct (Hmove j pc' Hj Ht Hs Hq Ht'); eauto.
Qed.

(** ** The owner of the mutex *)

Lemma p_goes_on t pc (next : ppc -> Prop) i :
  match pc with DTest | DRead | URead | DWrite _ | UWrite _ => true | _ => false end = true ->
  (forall c pc' m, p_next c t pc pc' m -> next pc') ->
  (forall j pc', p_positive j -> next pc' -> p_ths (st j) !! t = Some pc' -> pev j) ->
  p_positive i -> p_ths (st i) !! t = Some pc -> pev i.
Proof.
  intros Hpc Hq Hev. apply (p_advance t pc p_positive next); try done; try by intros ->.
  - by destruct pc.
  - apply p_positive_persists.
  - intros j pc' _ _ _ Hn _. right. by eapply Hq.
Qed.

Lemma p_from_write t pc i :
  match pc with DWrite _ | UWrite _ => true | _ => false end = true ->
  p_positive i -> p_ths (st i) !! t = Some pc -> pev i.
Proof.
  intros Hpc. apply (fair_leaves pstep_at p_runnable (fun w t => p_ths w !! t) st lab t pc p_positive (p_moved st));
    [apply Hrun|apply Hrun| | |apply p_positive_persists|].
  - intros j _ Ht. exists pc. split; [done|]. by destruct pc.
  - intros j t' [] Hne Hs Ht. destruct (pstep_other _ _ _ _ _ Hs Hne Ht) as [|[-> _]]; done.
  - intros j [] Hj Ht _ Hs _. apply eventually_now. by apply (pstep_write t _ _ pc).
Qed.

Lemma p_from_read t pc i :
  match pc with DRead | URead => true | _ => false end = true ->
  p_positive i -> p_ths (st i) !! t = Some pc -> pev i.
Proof.
  intros Hpc. apply (p_goes_on t pc (fun pc' => match pc' with DWrite _ | UWrite _ => true | _ => false end = true)).
  - by destruct pc.
  - destruct pc; try done; intros c pc' m Hq; cbn in Hq; by subst.
  - intros j pc' Hj Hp Ht. by apply (p_from_write t pc').
Qed.

Lemma p_from_test t i : p_positive i -> p_ths (st i) !! t = Some DTest -> pev i.
Proof.
  apply (p_goes_on t DTest (eq DRead)); [done| |].
  - by intros c pc' m ->.
  - intros j pc' Hj <- Ht. by apply (p_from_read t DRead).
Qed.

Lemma p_from_acquired t j :
  p_positive j -> p_ths (st j) !! t = Some DTest \/ p_ths (st j) !! t = Some URead -> pev j.
Proof. intros Hj [H|H]; [by eapply p_from_test|by apply (p_from_read t URead)]. Qed.

(** ** Waiting for the mutex *)

(** The mutex is free and [t] wants it: somebody takes it. *)
Lemma p_from_free t pc i :
  wants pc = true -> p_positive i -> mx_owner (p_mutex (st i)) = None ->
  p_ths (st i) !! t = Some pc -> pev i.
Proof.
  intros Hpc Hi Hm. set (R j := p_positive j /\ mx_owner (p_mutex (st j)) = None).
  apply (p_advance t pc R (fun pc' => pc' = DTest \/ pc' = URead)); [by intros ->|by intros ->|by intros j []| | | | |done].
  - intros j [Hj Hf]. destruct (p_positive_persists j Hj) as [|HS]; [by left|].
    destruct (prun_cases j) as [[E _]|(t' & _ & Hs)]; [right; split; [done|by rewrite E]|].
    destruct (pstep_free _ _ _ _ (prun_inv j) Hs Hf) as [Hf'|H]; [by right|].
    left. apply eventually_next. by apply (p_from_acquired t').
  - by intros j [].
  - intros j pc' _ _ _ Hn _. right. destruct pc; try done; cbn in Hn; auto.
  - intros j pc' [Hj _] [-> | ->] Ht; apply (p_from_acquired t); auto.
Qed.

Definition p_waits (s j : nat) : Prop :=
  p_positive j /\ exists pc, p_ths (st j) !! s = Some pc /\ wants pc = true.

(** A thread that waits for the mutex goes on waiting until it has it. *)
Lemma p_waits_persists s j : p_waits s j -> pev j \/ p_waits s (S j).
Proof.
  intros (Hj & pc & Hs & Hw). destruct (p_positive_persists j Hj) as [|HS]; [by left|].
  destruct (prun_cases j) as [[E _]|(t & _ & Hst)]; [right; split; [done|]; exists pc; by rewrite E|].
  destruct (decide (t = s)) as [->|Hne].
  - left. destruct (pstep_next _ _ _ _ Hst Hs Hj) as [H|[H|(pc' & Hs' & Hn)]].
    + apply eventually_now. by left.
    + apply eventually_now. by right.
    + apply eventually_next. apply (p_from_acquired s); [done|].
      destruct pc; try done; cbn in Hn; subst; auto.
  - right. split; [done|]. exists pc. split; [|done].
    by destruct (pstep_other _ _ _ _ _ Hst Hne Hs) as [|[-> _]].
Qed.

(** The owner lets the mutex go. *)
Lemma p_from_release t s pc i :
  match pc with DUnlock | UUnlock => true | _ => false end = true ->
  p_waits s i -> p_ths (st i) !! t = Some pc -> pev i.
Proof.
  intros Hpc. apply (p_advance t pc (p_waits s) (fun _ => False));
    [by intros ->|by intros ->|by destruct pc|apply p_waits_persists|by intros j []| |done].
  intros j pc' Hj Ht Hs Hn Ht'. left. destruct (p_waits_persists s j Hj) as [|(HS & pcs & Hps & Hw)]; [done|].
  apply eventually_next, (p_from_free s pcs); [done|done| |done].
  by destruct pc; destruct Hn.
Qed.

Lemma p_from_waits s i : p_waits s i -> pev i.
Proof.
  intros Hs. pose proof Hs as (Hi & pc & Hps & Hw).
  destruct (mx_owner (p_mutex (st i))) as [h|] eqn:Ho; [|by apply (p_from_free s pc)].
  pose proof (prun_inv i) as Hinv. destruct (pi_thread _ _ Hinv h Ho) as [pch Hh].
  apply (pi_own _ _ Hinv h pch Hh) in Ho.
  destruct pch; try done;
    [by apply (p_from_test h)|by apply (p_from_read h DRead)|by apply (p_from_write h (DWrite x))
    |by apply (p_from_release h s DUnlock)|by apply (p_from_read h URead)
    |by apply (p_from_write h (UWrite x))|by apply (p_from_release h s UUnlock)].
Qed.

Lemma p_from_want s pc i : wants pc = true -> p_positive i -> p_ths (st i) !! s = Some pc -> pev i.
Proof. intros Hw Hi Hs. apply (p_from_waits s). split; [done|]. by exists pc. Qed.

(** ** A sleeper, and a thread on its way to wake it *)

Definition p_sleeps (s j : nat) : Prop := p_positive j /\ p_ths (st j) !! s = Some CWait.

Lemma p_sleeps_persists s j : p_sleeps s j -> pev j \/ p_sleeps s (S j).
Proof.
  intros [Hj Hs]. destruct (p_positive_persists j Hj) as [|HS]; [by left|].
  destruct (prun_cases j) as [[E _]|(t & _ & Hst)]; [right; split; [done|by rewrite E]|].
  destruct (decide (t = s)) as [->|Hne].
  - left. destruct (pstep_next _ _ _ _ Hst Hs Hj) as [H|[H|(pc' & Hs' & ->)]].
    + apply eventually_now. by left.
    + apply eventually_now. by right.
    + apply eventually_next. by apply (p_from_want s CRelock).
  - destruct (pstep_other _ _ _ _ _ Hst Hne Hs) as [H|[_ H]]; [by right|].
    left. apply eventually_next. by apply (p_from_want s CRelock).
Qed.

(** The broadcast wakes it. *)
Lemma p_from_cast t s i : p_sleeps s i -> p_ths (st i) !! t = Some UCast -> pev i.
Proof.
  apply (fair_leaves pstep_at p_runnable (fun w t => p_ths w !! t) st lab t UCast (p_sleeps s) (p_moved st));
    [apply Hrun|apply Hrun| | |apply p_sleeps_persists|].
  - intros j _ Ht. by exists UCast.
  - intros j t' [] Hne Hst Ht. by destruct (pstep_other _ _ _ _ _ Hst Hne Ht) as [|[? _]].
  - intros j [] [Hj Hs] Ht _ Hst [HS Hs']. exfalso.
    by pose proof (pstep_cast_wakes _ _ _ _ Hst Ht Hs).
Qed.

Lemma p_from_up_unlock t s i : p_sleeps s i -> p_ths (st i) !! t = Some UUnlock -> pev i.
Proof.
  apply (p_advance t UUnlock (p_sleeps s) (eq UCast));
    [done|done|done|apply p_sleeps_persists|by intros j []| |].
  - intros j pc' _ _ _ [-> _] _. by right.
  - intros j pc' Hj <-. by apply (p_from_cast t s).
Qed.

Lemma prun_progress i t pc :
  p_positive i -> p_ths (st i) !! t = Some pc -> p_in_down pc = true -> pev i.
Proof.
  intros Hi Ht Hpc. destruct pc; try done;
    [by apply (p_from_want t DLock)|by apply (p_from_test t)|by apply (p_from_read t DRead)
    |by apply (p_from_write t (DWrite x))| |by apply (p_from_want t CRelock)].
  destruct (pi_wake _ _ (prun_inv i) t Ht Hi) as (u & pc & Hu & Hpu).
  destruct pc; try done; [by apply (p_from_up_unlock u t)|by apply (p_from_cast u t)].
Qed.
End run.

(** ** The theorem *)

(** C12. The semaphore over the mutex and the condition variable makes progress: whenever
    the count is positive and a thread is inside [psem_down] without a permit, awake
    or asleep on the condition, some thread takes or gives a permit later, provided
    every thread that can go on does eventually. No other [psem_up] need be called,
    and no sleeper need wake by itself. *)
Theorem psem_progress ps n st lab i t pc :
  0 <= Psem.count ps -> psem_run ps n st lab -> 0 < p_count (st i) ->
  p_ths (st i) !! t = Some pc -> p_in_down pc = true -> eventually (p_moved st) i.
Proof. intros Hinit Hrun. by apply (prun_progress ps n st lab Hinit Hrun). Qed.

(** A sleeper and a thread that gives a permit: the broadcast wakes the sleeper, which
    takes it. *)
Definition wake_st (i : nat) : pworld :=
  match i with
  | 0%nat => PWorld (Mutex None) 0 [PIdle; PIdle] 0 0
  | 1%nat => PWorld (Mutex None) 0 [DLock; PIdle] 0 0
  | 2%nat => PWorld (Mutex (Some 0%nat)) 0 [DTest; PIdle] 0 0
  | 3%nat => PWorld (Mutex None) 0 [CWait; PIdle] 0 0
  | 4%nat => PWorld (Mutex None) 0 [CWait; ULock] 0 0
  | 5%nat => PWorld (Mutex (Some 1%nat)) 0 [CWait; URead] 0 0
  | 6%nat => PWorld (Mutex (Some 1%nat)) 0 [CWait; UWrite 0] 0 0
  | 7%nat => PWorld (Mutex (Some 1%nat)) 1 [CWait; UUnlock] 1 0
  | 8%nat => PWorld (Mutex None) 1 [CWait; UCast] 1 0
  | 9%nat => PWorld (Mutex None) 1 [CRelock; PIdle] 1 0
  | 10%nat => PWorld (Mutex (Some 0%nat)) 1 [DTest; PIdle] 1 0
  | 11%nat => PWorld (Mutex (Some 0%nat)) 1 [DRead; PIdle] 1 0
  | 12%nat => PWorld (Mutex (Some 0%nat)) 1 [DWrite 1; PIdle] 1 0
  | 13%nat => PWorld (Mutex (Some 0%nat)) 0 [DUnlock; PIdle] 1 1
  | _ => PWorld (Mutex None) 0 [PIdle; PIdle] 1 1
  end.

Definition wake_lab (i : nat) : option (nat * unit) :=
  match i with
  | 0%nat | 1%nat | 2%nat | 9%nat | 10%nat | 11%nat | 12%nat | 13%nat => Some (0%nat, tt)
  | 3%nat | 4%nat | 5%nat | 6%nat | 7%nat | 8%nat => Some (1%nat, tt)
  | _ => None
  end.

Lemma wake_run : psem_run (Psem 0 true) 2 wake_st wake_lab.
Proof.
  constructor.
  - done.
  - intros [|[|[|[|[|[|[|[|[|[|[|[|[|[|i]]]]]]]]]]]]]]; [..|done]; cbn; unfold pstep_at.
    + by apply (ps_mutex 0 PIdle LCall DLock); [|constructor..].
    + by apply (ps_mutex 0 DLock LAcq DTest); [|constructor..].
    + by apply (ps_test_wait 0); [|lia|constructor].
    + by apply (ps_mutex 1 PIdle LCall ULock); [|constructor..].
    + by apply (ps_mutex 1 ULock LAcq URead); [|constructor..].
    + by apply (ps_up_read 1).
    + by apply (ps_up_write 1 0).
    + by apply (ps_mutex 1 UUnlock LRel UCast); [|constructor..].
    + by apply (ps_broadcast 1 _ _ [CWait; UCast]).
    + by apply (ps_mutex 0 CRelock LAcq DTest); [|constructor..].
    + by apply (ps_test_pos 0).
    + by apply (ps_down_read 0).
    + by apply (ps_down_write 0 1).
    + by apply (ps_mutex 0 DUnlock LRel PIdle); [|constructor..].
  - intros t i. exists (14 + i)%nat. split; [lia|]. right. intros (pc & H & Hp & _).
    do 2 (destruct t as [|t]; cbn in H; [by injection H as <-|]). done.
Qed.

Lemma psem_progress_witness : eventually (p_moved wake_st) 8.
Proof.
  exact (psem_progress (Psem 0 true) 2 wake_st wake_lab 8 0 CWait ltac:(cbn; lia) wake_run eq_refl eq_refl eq_refl).
Defined.
