(* ===== verification/Sem.v ===== *)
(** * The interface between semaphores and their clients

    A semaphore is a labelled transition system: its threads call down and up, and
    what a client may rely on is when the count changes. The semaphores of
    src/xsem.c (over any lock) and src/psem.c discharge the laws in SemInst.v; the
    test program src/test_sem.c is verified against them in TestSem.v. *)
From stdpp Require Import base list.
From Stdlib Require Import ZArith Lia.
From S2P Require Import Prelude Lock.

Open Scope Z_scope.

(** What a thread does to a semaphore: it calls down, takes a permit, returns from
    down; calls up, gives a permit back, returns from up; or moves inside a call. *)
Inductive sem_act : Type := SCallDown | SGot | SRetDown | SCallUp | SPut | SRetUp | STau.

#[export] Instance sem_act_eq_dec : EqDecision sem_act.
Proof. solve_decision. Defined.

Definition sem_effect (a : sem_act) : Z :=
  match a with SGot => -1 | SPut => 1 | _ => 0 end.

Class Semaphore (S : Type) : Type := {
  sm_init : Z -> nat -> S;                     (* the count, and the number of threads *)
  sm_step : nat -> sem_act -> S -> S -> Prop;
  sm_count : S -> Z;
  sm_inv : S -> Prop;
}.

Class SemaphoreLaws (S : Type) `{Semaphore S} : Prop := {
  sm_init_inv c n : 0 <= c -> sm_inv (sm_init c n);
  sm_init_count c n : sm_count (sm_init c n) = c;
  sm_step_inv t a s s' : sm_inv s -> sm_step t a s s' -> sm_inv s';
  sm_nonneg s : sm_inv s -> 0 <= sm_count s;
  sm_step_count t a s s' :
    sm_inv s -> sm_step t a s s' -> sm_count s' = sm_count s + sem_effect a;
}.

(** ** Labels from program points

    [act pc pc'] is what moving from [pc] to [pc'] means; a step of the whole
    system is thread [t]'s action [a] when nobody else's move means anything. *)
Definition labels {PC} (act : PC -> PC -> sem_act) (t : nat) (a : sem_act) (ths ths' : list PC)
    : Prop :=
  is_Some (ths !! t) /\ length ths' = length ths /\
  forall t' pc pc', ths !! t' = Some pc -> ths' !! t' = Some pc' ->
    act pc pc' = if decide (t' = t) then a else STau.

Section Labels.
Context {PC : Type} (act : PC -> PC -> sem_act) (act_id : forall pc, act pc pc = STau).

(** The step of one thread has the effect its move says. *)
Lemma labels_insert t a ths t0 pc pc' :
  labels act t a ths (<[t0 := pc']> ths) -> ths !! t0 = Some pc ->
  sem_effect a = sem_effect (act pc pc').
Proof.
  intros ([pct Ht] & _ & H) Ht0.
  pose proof (H t0 pc pc' Ht0 (list_lookup_insert_eq _ _ _ (lookup_lt_Some _ _ _ Ht0))) as H0.
  case_decide as E; [by subst|]. specialize (H t pct pct Ht).
  rewrite list_lookup_insert_ne in H by done. specialize (H Ht).
  rewrite decide_True, act_id in H by done. by rewrite <- H, H0.
Qed.

Lemma labels_same t a ths : labels act t a ths ths -> a = STau.
Proof.
  intros ([pc Ht] & _ & H). specialize (H t pc pc Ht Ht). by rewrite decide_True, act_id in H.
Qed.
End Labels.
