(* ===== verification/SemInst.v ===== *)
(** * The semaphores of src/xsem.c and src/psem.c as instances of Sem.v *)
From stdpp Require Import base list relations.
From Stdlib Require Import ZArith Lia.
From S2P Require Import Prelude Lock Xlock Xsem Psem Sem.

Open Scope Z_scope.

(** ** xsem *)

Definition x_act (pc pc' : spc) : sem_act :=
  match pc, pc' with
  | SIdle, DLocking => SCallDown
  | Xsem.DWrite _, DUnlocking => SGot
  | DReturn, SIdle => SRetDown
  | SIdle, ULocking => SCallUp
  | Xsem.UWrite _, UUnlocking => SPut
  | UWake, SIdle => SRetUp
  | _, _ => STau
  end.

Lemma x_act_id pc : x_act pc pc = STau.
Proof. by destruct pc. Qed.

#[export] Instance xsem_semaphore {L} `{Lock L} : Semaphore (sworld L) := {
  sm_init := sworld0;
  sm_step t a w w' := (exists o, sstep_by t o w w') /\ labels x_act t a (s_ths w) (s_ths w');
  sm_count := s_count;
  sm_inv w := exists init, sinv init w;
}.

Lemma s_woken_effect t0 t a ths ths' :
  s_woken ths ths' -> ths !! t0 = Some UWake -> labels x_act t a ths (<[t0 := SIdle]> ths') ->
  sem_effect a = 0.
Proof.
  intros [Hf _] Ht0 ([pc Ht] & _ & H).
  destruct (Forall2_lookup_l _ _ _ _ _ Hf Ht) as (b & Hb & Hab).
  destruct (decide (t = t0)) as [->|Hne].
  - specialize (H t0 UWake SIdle Ht0). rewrite decide_True in H by done.
    rewrite list_lookup_insert_eq in H by by eapply lookup_lt_Some. by rewrite <- (H eq_refl).
  - specialize (H t pc b Ht). rewrite list_lookup_insert_ne, decide_True in H by done.
    rewrite <- (H Hb). destruct Hab as [->|[-> ->]]; [by rewrite x_act_id|done].
Qed.

#[export] Instance xsem_laws {L} `{LockLaws L} : SemaphoreLaws (sworld L).
Proof.
  constructor; cbn.
  - intros c n Hc. exists c. by apply sinv_init.
  - done.
  - intros t a w w' [init Hi] [[o Hs] _]. exists init. by eapply sinv_step_by.
  - intros w [init Hi]. apply Hi.
  - intros t a w w' [init Hi] [[o Hs] Hl].
    destruct Hs as [t0 pc a0 pc' l l' c ths u d Ht Hm _|t0 l l' c ths u d _|t0 l c ths u d Ht _
      |t0 l l' c ths u d Ht _ _|t0 l c ths u d Ht|t0 x x' l l' c ths u d Ht Hx _
      |t0 l c ths u d Ht|t0 l c ths u d Ht|t0 l c ths u d Ht|t0 x x' l l' c ths u d Ht Hx _
      |t0 l c ths ths' u d Ht Hwk]; cbn in *;
      try rewrite (labels_insert _ x_act_id _ _ _ _ _ _ Hl Ht).
    + destruct Hm; cbn; lia.
    + rewrite (labels_same _ x_act_id _ _ _ Hl). cbn. lia.
    + cbn. lia.
    + cbn. lia.
    + cbn. lia.
    + apply int_of_Ok_inv in Hx as [-> _].
      destruct (si_dec _ _ Hi t0 x Ht) as [-> _]. cbn. lia.
    + destruct (c =? 0); cbn; lia.
    + cbn. lia.
    + cbn. lia.
    + apply int_of_Ok_inv in Hx as [-> _].
      rewrite (si_inc _ _ Hi t0 x Ht). cbn. lia.
    + rewrite (s_woken_effect _ _ _ _ _ Hwk Ht Hl). lia.
Qed.

(** ** psem *)

Definition p_act (pc pc' : ppc) : sem_act :=
  match pc, pc' with
  | PIdle, DLock => SCallDown
  | Psem.DWrite _, DUnlock => SGot
  | DUnlock, PIdle => SRetDown
  | PIdle, ULock => SCallUp
  | Psem.UWrite _, UUnlock => SPut
  | UCast, PIdle => SRetUp
  | _, _ => STau
  end.

Lemma p_act_id pc : p_act pc pc = STau.
Proof. by destruct pc. Qed.

#[export] Instance psem_semaphore : Semaphore pworld := {
  sm_init c n := pworld0 (Psem c true) n;
  sm_step t a w w' := pstep_by t w w' /\ labels p_act t a (p_ths w) (p_ths w');
  sm_count := p_count;
  sm_inv w := exists init, pinv init w;
}.

Lemma broadcast_effect t0 t a ths :
  ths !! t0 = Some UCast -> labels p_act t a ths (<[t0 := PIdle]> (broadcast ths)) ->
  sem_effect a = 0.
Proof.
  intros Ht0 ([pc Ht] & _ & H). destruct (decide (t = t0)) as [->|Hne].
  - specialize (H t0 UCast PIdle Ht0). rewrite decide_True in H by done.
    rewrite list_lookup_insert_eq in H
      by (unfold broadcast; rewrite length_map; by eapply lookup_lt_Some).
    by rewrite <- (H eq_refl).
  - specialize (H t pc (match pc with CWait => CRelock | _ => pc end) Ht).
    rewrite list_lookup_insert_ne, decide_True in H by done.
    unfold broadcast in H. rewrite list_lookup_fmap, Ht in H. rewrite <- (H eq_refl).
    by destruct pc.
Qed.

#[export] Instance psem_laws : SemaphoreLaws pworld.
Proof.
  constructor; cbn.
  - intros c n Hc. exists c. by apply (pinv_init (Psem c true)).
  - done.
  - intros t a w w' [init Hi] [Hs _]. exists init. by eapply pinv_step_by.
  - intros w [init Hi]. apply Hi.
  - intros t a w w' [init Hi] [Hs Hl].
    destruct Hs as [t0 pc a0 pc' m m' c ths u d Ht Hm _|t0 m c ths u d Ht _|t0 m m' c ths u d Ht _ _
      |t0 m c ths u d Ht|t0 m c ths u d Ht|t0 x x' m c ths u d Ht Hx|t0 m c ths u d Ht
      |t0 x x' m c ths u d Ht Hx|t0 m c ths u d Ht]; cbn in *;
      try rewrite (labels_insert _ p_act_id _ _ _ _ _ _ Hl Ht); cbn; try lia.
    + destruct Hm; cbn; lia.
    + apply int_of_Ok_inv in Hx as [-> _].
      pose proof (pi_pc _ _ Hi t0 _ Ht) as [-> _]. cbn. lia.
    + apply int_of_Ok_inv in Hx as [-> _].
      pose proof (pi_pc _ _ Hi t0 _ Ht) as ->. cbn. lia.
    + rewrite (broadcast_effect _ _ _ _ Ht Hl). lia.
Qed.
