(* ===== verification/TestSem.v ===== *)
(** * The test program src/test_sem.c, on any semaphore

    Every process takes the semaphore, increments a shared counter and gives the
    semaphore back. The processes are proved against the interface of Sem.v, and so
    for a semaphore of src/xsem.c over src/xlock.c. They start from a semaphore whose
    fields are as [xsem_create_open] leaves them; the program itself never gets hold
    of one, because that function does not return it (SemMain.v). *)
From stdpp Require Import base list relations.
From Stdlib Require Import ZArith Lia.
From S2P Require Import Prelude Lock Xlock Fair Xsem Sem SemInst.

Open Scope Z_scope.

(** The program points of [sem_test_thread]. The work between [SEM_DOWN] and the
    increment is on memory of the process' own. *)
Inductive tpc : Type :=
| TStart                 (* before SEM_DOWN *)
| TDown                  (* in SEM_DOWN *)
| TGot                   (* in SEM_DOWN, the permit taken *)
| TRead                  (* before the read of check_count[0]++ *)
| TWrite (x : Z)         (* before the write *)
| TLeave                 (* before SEM_UP *)
| TUp                    (* in SEM_UP *)
| TPut                   (* in SEM_UP, the permit given back *)
| TDone.

#[export] Instance tpc_eq_dec : EqDecision tpc.
Proof. solve_decision. Defined.

(** The calls and the returns. *)
Inductive call_move : tpc -> sem_act -> tpc -> Prop :=
| cm_down : call_move TStart SCallDown TDown
| cm_got : call_move TDown SGot TGot
| cm_down_ret : call_move TGot SRetDown TRead
| cm_up : call_move TLeave SCallUp TUp
| cm_put : call_move TUp SPut TPut
| cm_up_ret : call_move TPut SRetUp TDone.

(** Between the moment a permit is taken and the moment it is given back. *)
Definition permitted (pc : tpc) : bool :=
  match pc with TGot | TRead | TWrite _ | TLeave | TUp => true | _ => false end.

(** The increment is still to come. *)
Definition to_count (pc : tpc) : bool :=
  match pc with TStart | TDown | TGot | TRead | TWrite _ => true | _ => false end.

Section Client.
Context {S : Type} `{SemaphoreLaws S}.

Record tworld : Type := TWorld { t_sem : S; t_val : Z; t_ths : list tpc }.

(** A step of process [t]: with the semaphore, or on the counter. *)
Inductive tstep_by : nat -> option sem_act -> tworld -> tworld -> Prop :=
| ts_call t pc a pc' s s' v ths :
    ths !! t = Some pc -> call_move pc a pc' -> sm_step t a s s' ->
    tstep_by t (Some a) (TWorld s v ths) (TWorld s' v (<[t := pc']> ths))
| ts_inside t s s' v ths :
    sm_step t STau s s' -> tstep_by t (Some STau) (TWorld s v ths) (TWorld s' v ths)
| ts_read t s v ths :
    ths !! t = Some TRead ->
    tstep_by t None (TWorld s v ths) (TWorld s v (<[t := TWrite v]> ths))
| ts_write t x x' s v ths :
    ths !! t = Some (TWrite x) -> int_of (x + 1) = Ok x' ->
    tstep_by t None (TWorld s v ths) (TWorld s x' (<[t := TLeave]> ths)).

Definition tstep (w w' : tworld) : Prop := exists t a, tstep_by t a w w'.

(** [check_count[0] = 0] and the creation of the processes, with a semaphore of
    count [sem_count]. *)
Definition tworld0 (sem_count : Z) (nr_threads : nat) : tworld :=
  TWorld (sm_init sem_count nr_threads) 0 (replicate nr_threads TStart).

Definition all_exited (w : tworld) : Prop := Forall (eq TDone) (t_ths w).

#[global] Instance all_exited_dec w : Decision (all_exited w).
Proof. unfold all_exited. apply Forall_dec. intros pc. apply _. Defined.

(** Permits are conserved: those in the semaphore and those in the hands of the
    processes are as many as there were. *)
Record tinv (sem_count : Z) (w : tworld) : Prop := {
  ti_sem : sm_inv (t_sem w);
  ti_permits : sm_count (t_sem w) + Z.of_nat (count permitted (t_ths w)) = sem_count;
}.

Lemma tinv_init sem_count n : 0 <= sem_count -> tinv sem_count (tworld0 sem_count n).
Proof.
  intros Hc. constructor; cbn.
  - by apply sm_init_inv.
  - rewrite sm_init_count, count_replicate. cbn. lia.
Qed.

Lemma tinv_step_by sem_count t0 o w w' : tinv sem_count w -> tstep_by t0 o w w' -> tinv sem_count w'.
Proof.
  intros [Hs Hp] Hst. destruct Hst as [t pc a pc' s s' v ths Ht Hm Hstep|t s s' v ths Hstep
    |t s v ths Ht|t x x' s v ths Ht Hx]; cbn in *; constructor; cbn.
  - by eapply sm_step_inv.
  - pose proof (count_insert permitted ths t pc pc' Ht).
    rewrite (sm_step_count t a s s' Hs Hstep). destruct Hm; cbn in *; lia.
  - by eapply sm_step_inv.
  - rewrite (sm_step_count t STau s s' Hs Hstep). cbn. lia.
  - done.
  - pose proof (count_insert permitted ths t _ (TWrite v) Ht). cbn in *. lia.
  - done.
  - pose proof (count_insert permitted ths t _ TLeave Ht). cbn in *. lia.
Qed.

Lemma tinv_step sem_count w w' : tinv sem_count w -> tstep w w' -> tinv sem_count w'.
Proof. intros Hi (t & o & Hs). by eapply tinv_step_by. Qed.

Lemma tinv_reach sem_count n w :
  0 <= sem_count -> rtc tstep (tworld0 sem_count n) w -> tinv sem_count w.
Proof.
  intros Hc Hr. assert (G : forall w1 w2, rtc tstep w1 w2 -> tinv sem_count w1 -> tinv sem_count w2).
  { induction 1; [done|]. eauto using tinv_step. }
  eapply G; [done|]. by apply tinv_init.
Qed.

(** No more processes work at a time than the semaphore was created for. *)
Lemma permits_bound sem_count n w :
  0 <= sem_count -> rtc tstep (tworld0 sem_count n) w ->
  Z.of_nat (count permitted (t_ths w)) <= sem_count.
Proof.
  intros Hc Hr. destruct (tinv_reach _ _ _ Hc Hr) as [Hs Hp]. pose proof (sm_nonneg _ Hs). lia.
Qed.

(** With one permit the counter has no data race, and it counts. *)
Record counting (n : nat) (w : tworld) : Prop := {
  co_read t x : t_ths w !! t = Some (TWrite x) -> x = t_val w;
  co_sum : t_val w + Z.of_nat (count to_count (t_ths w)) = Z.of_nat n;
}.

Lemma one_permitted w t t' pc pc' :
  tinv 1 w -> t_ths w !! t = Some pc -> t_ths w !! t' = Some pc' ->
  permitted pc = true -> permitted pc' = true -> t = t'.
Proof.
  intros [Hs Hp] Ht Ht' Hpc Hpc'. destruct (decide (t = t')) as [|Hne]; [done|].
  pose proof (count_two permitted _ _ _ _ _ Ht Ht' Hpc Hpc' Hne). pose proof (sm_nonneg _ Hs). lia.
Qed.

Lemma counting_step_by n t0 o w w' : tinv 1 w -> counting n w -> tstep_by t0 o w w' -> counting n w'.
Proof.
  intros Hi [Hr Hc] Hst. destruct Hst as [t pc a pc' s s' v ths Ht Hm Hstep|t s s' v ths Hstep
    |t s v ths Ht|t x x' s v ths Ht Hx]; cbn in *; constructor; cbn; try done.
  - intros t' x [(-> & E & _)|[_ E]]%list_lookup_insert_Some; [by destruct Hm|by eapply Hr].
  - pose proof (count_insert to_count ths t pc pc' Ht). destruct Hm; cbn in *; lia.
  - intros t' x [(-> & [= <-] & _)|[_ E]]%list_lookup_insert_Some; [done|by eapply Hr].
  - pose proof (count_insert to_count ths t _ (TWrite v) Ht). cbn in *. lia.
  - intros t' x1 [(_ & [=] & _)|[Hne E]]%list_lookup_insert_Some.
    destruct Hne. by apply (one_permitted _ _ _ _ _ Hi Ht E).
  - apply int_of_Ok_inv in Hx as [-> _]. rewrite (Hr t x Ht).
    pose proof (count_insert to_count ths t _ TLeave Ht). cbn in *. lia.
Qed.

Lemma counting_step n w w' : tinv 1 w -> counting n w -> tstep w w' -> counting n w'.
Proof. intros Hi Hc (t & o & Hs). by eapply counting_step_by. Qed.

Lemma counting_init n : counting n (tworld0 1 n).
Proof.
  constructor; cbn.
  - by intros t x [? _]%lookup_replicate.
  - rewrite count_replicate. cbn. lia.
Qed.

Lemma counting_reach n w : rtc tstep (tworld0 1 n) w -> counting n w.
Proof.
  intros Hr. assert (G : forall w1 w2, rtc tstep w1 w2 -> tinv 1 w1 /\ counting n w1 ->
    tinv 1 w2 /\ counting n w2).
  { induction 1; [done|]. intros [Hi Hc]. eauto using tinv_step, counting_step. }
  eapply G; [done|]. split; [by apply tinv_init|apply counting_init].
Qed.

Lemma counting_val n w : counting n w -> all_exited w -> t_val w = Z.of_nat n.
Proof.
  intros [_ Hc] Hd.
  assert (E : count to_count (t_ths w) = 0%nat); [|lia].
  destruct (decide (0 < count to_count (t_ths w))%nat) as [(i & pc & Hi & Hp)%count_pos|]; [|lia].
  unfold all_exited in Hd. rewrite Forall_lookup in Hd. by rewrite <- (Hd i pc Hi) in Hp.
Qed.

Lemma all_counted n w : rtc tstep (tworld0 1 n) w -> all_exited w -> t_val w = Z.of_nat n.
Proof. intros Hr. by apply counting_val, counting_reach. Qed.
End Client.
Arguments tworld : clear implicits.

(** ** The processes with src/xsem.c over src/xlock.c *)

(** A step of a process, with what it does to the lock. *)
Definition linked_step {L} `{Lock L} (t : nat) (o : option lock_act) (w w' : tworld (sworld L)) : Prop :=
  exists a, tstep_by t a w w' /\
    match a with Some _ => sstep_by t o (t_sem w) (t_sem w') | None => o = None end.

(** The processes that run [sem_test_thread] on one semaphore, its fields as
    [xsem_create_open] sets them: the count [sem_count], the word of the lock 0. *)
Definition sem_processes (sem_count : Z) (nr_threads : nat) : tworld (sworld xlock) :=
  tworld0 sem_count nr_threads.

(** C14. Processes that run [sem_test_thread] of test_sem.c on one semaphore of xsem.c
    over xlock.c, initialised as [xsem_create_open] does it: with a count of 1, when
    all the processes have exited, the shared counter is their number, however they
    were scheduled; and at every moment, with any count, no more processes than the
    count says are between [xsem_down] and [xsem_up]. *)
Theorem test_sem_exact sem_count nr_threads w :
  0 <= sem_count -> rtc tstep (sem_processes sem_count nr_threads) w ->
  Z.of_nat (count permitted (t_ths w)) <= sem_count /\
  (sem_count = 1 -> all_exited w -> t_val w = Z.of_nat nr_threads).
Proof.
  intros Hc Hr. split; [by eapply permits_bound|]. intros ->. by apply all_counted.
Qed.

(** A process on its own runs to its end. *)
Definition sem_alone_st (i : nat) : tworld (sworld xlock) :=
  match i with
  | 0%nat => TWorld (SWorld (Xlock 0 [XIdle]) 1 [SIdle] 0 0) 0 [TStart]
  | 1%nat => TWorld (SWorld (Xlock 0 [XTry]) 1 [DLocking] 0 0) 0 [TDown]
  | 2%nat => TWorld (SWorld (Xlock 1 [XHold]) 1 [DTest] 0 0) 0 [TDown]
  | 3%nat => TWorld (SWorld (Xlock 1 [XHold]) 1 [DRead] 0 0) 0 [TDown]
  | 4%nat => TWorld (SWorld (Xlock 1 [XHold]) 1 [DWrite 1] 0 0) 0 [TDown]
  | 5%nat => TWorld (SWorld (Xlock 1 [XUnlock]) 0 [DUnlocking] 0 1) 0 [TGot]
  | 6%nat => TWorld (SWorld (Xlock 0 [XWake]) 0 [DReturn] 0 1) 0 [TGot]
  | 7%nat => TWorld (SWorld (Xlock 0 [XIdle]) 0 [SIdle] 0 1) 0 [TRead]
  | 8%nat => TWorld (SWorld (Xlock 0 [XIdle]) 0 [SIdle] 0 1) 0 [TWrite 0]
  | 9%nat => TWorld (SWorld (Xlock 0 [XIdle]) 0 [SIdle] 0 1) 1 [TLeave]
  | 10%nat => TWorld (SWorld (Xlock 0 [XTry]) 0 [ULocking] 0 1) 1 [TUp]
  | 11%nat => TWorld (SWorld (Xlock 1 [XHold]) 0 [URead] 0 1) 1 [TUp]
  | 12%nat => TWorld (SWorld (Xlock 1 [XHold]) 0 [UWrite 0] 0 1) 1 [TUp]
  | 13%nat => TWorld (SWorld (Xlock 1 [XUnlock]) 1 [UUnlocking] 1 1) 1 [TPut]
  | 14%nat => TWorld (SWorld (Xlock 0 [XWake]) 1 [UReturn] 1 1) 1 [TPut]
  | 15%nat => TWorld (SWorld (Xlock 0 [XIdle]) 1 [UWake] 1 1) 1 [TPut]
  | _ => TWorld (SWorld (Xlock 0 [XIdle]) 1 [SIdle] 1 1) 1 [TDone]
  end.

Definition sem_alone_lab (i : nat) : option (nat * option lock_act) :=
  match i with
  | 0%nat | 9%nat => Some (0%nat, Some LCall)
  | 1%nat | 10%nat => Some (0%nat, Some LAcq)
  | 2%nat | 3%nat | 7%nat | 8%nat | 11%nat | 15%nat => Some (0%nat, None)
  | 4%nat | 12%nat => Some (0%nat, Some UCall)
  | 5%nat | 13%nat => Some (0%nat, Some LRel)
  | 6%nat | 14%nat => Some (0%nat, Some URet)
  | _ => None
  end.

(** One process, which calls, returns or moves inside the semaphore. *)
Lemma alone_call o p a p' pc pc' (s s' : sworld xlock) v :
  s_ths s = [pc] -> s_ths s' = [pc'] -> sstep_by 0 o s s' -> x_act pc pc' = a -> call_move p a p' ->
  linked_step 0 o (TWorld s v [p]) (TWorld s' v [p']).
Proof.
  intros E E' Hs Ha Hm. exists (Some a). split; [|done].
  apply (ts_call 0 p a p' s s' v [p]); [done|done|]. split; [by exists o|]. rewrite E, E'.
  split; [by eexists|]. split; [done|]. by intros [|t] q q'; cbn; [intros [= <-] [= <-]|].
Qed.

Lemma alone_inside o p pc pc' (s s' : sworld xlock) v :
  s_ths s = [pc] -> s_ths s' = [pc'] -> sstep_by 0 o s s' -> x_act pc pc' = STau ->
  linked_step 0 o (TWorld s v [p]) (TWorld s' v [p]).
Proof.
  intros E E' Hs Ha. exists (Some STau). split; [|done].
  apply (ts_inside 0 s s' v [p]). split; [by exists o|]. rewrite E, E'.
  split; [by eexists|]. split; [done|]. by intros [|t] q q'; cbn; [intros [= <-] [= <-]|].
Qed.

Lemma sem_alone_moves : moves linked_step sem_alone_st sem_alone_lab.
Proof.
  assert (Wx : woken [XWake] [XWake]) by (split; [repeat constructor; by left|unfold count; cbn; lia]).
  assert (Ws : s_woken [UWake] [UWake]) by (split; [repeat constructor; by left|unfold count; cbn; lia]).
  intros [|[|[|[|[|[|[|[|[|[|[|[|[|[|[|[|i]]]]]]]]]]]]]]]]; cbn; [..|done].
  - eapply alone_call; [done|done| |done|apply cm_down].
    by apply (ss_lock 0 SIdle LCall DLocking); [|constructor|apply (xs_call 0)].
  - eapply alone_inside; [done|done| |done].
    by apply (ss_lock 0 DLocking LAcq DTest); [|constructor|eapply (xs_try_ok 0)].
  - eapply alone_inside; [done|done|by apply (ss_test_pos 0)|done].
  - eapply alone_inside; [done|done|by apply (ss_down_read 0)|done].
  - eapply alone_call; [done|done| |done|apply cm_got]. by apply (ss_down_write 0 1); [| |apply (xs_ucall 0)].
  - eapply alone_inside; [done|done| |done].
    by apply (ss_lock 0 DUnlocking LRel DReturn); [|constructor|eapply (xs_unlock_ok 0)].
  - eapply alone_call; [done|done| |done|apply cm_down_ret].
    by apply (ss_lock 0 DReturn URet SIdle); [|constructor|apply (xs_wake 0 0 [XWake] [XWake])].
  - exists None. split; [|done]. by apply (ts_read 0).
  - exists None. split; [|done]. by apply (ts_write 0 0).
  - eapply alone_call; [done|done| |done|apply cm_up].
    by apply (ss_lock 0 SIdle LCall ULocking); [|constructor|apply (xs_call 0)].
  - eapply alone_inside; [done|done| |done].
    by apply (ss_lock 0 ULocking LAcq URead); [|constructor|eapply (xs_try_ok 0)].
  - eapply alone_inside; [done|done|by apply (ss_up_read 0)|done].
  - eapply alone_call; [done|done| |done|apply cm_put]. by apply (ss_up_write 0 0); [| |apply (xs_ucall 0)].
  - eapply alone_inside; [done|done| |done].
    by apply (ss_lock 0 UUnlocking LRel UReturn); [|constructor|eapply (xs_unlock_ok 0)].
  - eapply alone_inside; [done|done| |done].
    by apply (ss_lock 0 UReturn URet UWake); [|constructor|apply (xs_wake 0 0 [XWake] [XWake])].
  - eapply alone_call; [done|done| |done|apply cm_up_ret].
    by apply (ss_wake 0 _ _ [UWake] [UWake]).
Qed.

Lemma solo_run : rtc tstep (sem_processes 1 1) (sem_alone_st 16).
Proof.
  apply (run_reaches linked_step tstep sem_alone_st sem_alone_lab sem_alone_moves).
  intros t o w w' (a & Hs & _). by exists t, a.
Qed.

Lemma test_sem_exact_witness :
  exists w, rtc tstep (sem_processes 1 1) w /\ t_val w = 1.
Proof.
  eexists. split; [exact solo_run|].
  apply (test_sem_exact 1 1 _ ltac:(lia) solo_run); [reflexivity|]. by repeat constructor.
Defined.
