(* ===== verification/SemMain.v ===== *)
(** * [main] of src/test_sem.c

    From the arguments to the line printed: the failures before the first process,
    the processes of TestSem.v, and the end. What SEM_CREATE gives is an argument
    ([create]): with a semaphore of the interface of Sem.v that is created as it
    should be the program does its work; with the [xsem_create] of Xsem.v, which the
    Makefile links it with, it never gets to its first process. *)
From stdpp Require Import base list strings relations.
From Stdlib Require Import ZArith Lia Ascii.
From S2P Require Import Prelude Stdio Lock Xlock Xsem Sem TestSem.

Open Scope Z_scope.

(** A pointer that a function returned: null, to an object, or none at all, when the
    function ended without a return. *)
Inductive returned : Type := RNull | RObject | RNothing.

(** What the calls of [main] return: [malloc] the array of handles, [mmap] the counter,
    [malloc] the buffer, and each [fork] a process. *)
Record sem_sys : Type := SemSys {
  ss_handles : bool;
  ss_mmap : bool;
  ss_alloc : bool;
  ss_fork : nat -> bool;
}.

(** How [main] gets to its loop, or does not; [destroyed] says whether the semaphore
    is removed before the end. *)
Inductive sem_start : Type :=
| SExits (status : Z) (destroyed : bool)
| SStarted (sem_count : Z) (nr_procs : nat) (max_loops : Z).

(** [malloc(sizeof(pthread_t)*nr_threads)] cannot succeed for a negative number,
    which is a huge one as a [size_t]. The test [if (!ps)] uses what [create] gave. *)
Definition sem_main_start (create : Z -> res returned) (s : sem_sys) (args : list (list ascii))
    : res sem_start :=
  match args with
  | a :: b :: c :: _ =>
      nr_threads ← scan_arg None a;
      sem_count ← scan_arg None b;
      max_loops ← scan_arg (Some 0) c;
      ps ← create sem_count;
      match ps with
      | RNothing => Undef
      | RNull => Ok (SExits (-1) false)
      | RObject =>
          Ok (if negb (ss_handles s) || (nr_threads <? 0) then SExits (-2) true
              else if negb (ss_mmap s) then SExits 0 false
              else if negb (ss_alloc s) then SExits 0 false
              else SStarted sem_count (count (ss_fork s) (seq 0 (Z.to_nat nr_threads))) max_loops)
      end
  | _ => Ok (SExits 0 false)
  end.

(** [SEM_CREATE("test_sem", sem_count)] as it is linked. *)
Definition linked_create (x : xsem_sys) (count0 word : Z) (sem_count : Z) : res returned :=
  '(ret, _, _) ← xsem_create x (chars "test_sem") sem_count count0 word;
  Ok match ret with Null => RNull | Indeterminate => RNothing end.

(** The calls of [xsem_create_open] all succeed. *)
Definition created (x : xsem_sys) : bool :=
  sm_malloc x && (sm_open_probe x <=? 0) && (0 <=? sm_open_creat x) && (0 <=? sm_open x) &&
  sm_mmap x && match xlock_create_open (sm_lock x) (chars "test_sem.lock") true 0 with
               | (Some _, _) => true | (None, _) => false end.

Section Main.
Context {S : Type} `{SemaphoreLaws S}.

(** The processes of a [main] that got to its loop. *)
Definition sem_procs (st : sem_start) : option (tworld S) :=
  match st with
  | SStarted sem_count nr_procs _ => Some (tworld0 sem_count nr_procs)
  | SExits _ _ => None
  end.

(** The last line. *)
Definition printed_count (w : tworld S) : Z := t_val w.

(** With a semaphore that is created as it should be, a first failure leaves the
    semaphore and its lock behind only when there is no memory for the counter or the
    buffer, and then the status is 0. Otherwise [nr_threads] processes start, never
    more than [sem_count] of them work at a time, and with a count of 1 the number
    printed is [nr_threads]. *)
Theorem sem_main_spec create s nr_threads sem_count loops :
  0 <= nr_threads <= INT_MAX -> 0 <= sem_count <= INT_MAX -> 0 <= loops <= INT_MAX ->
  create sem_count = Ok RObject -> (forall i, ss_fork s i = true) ->
  exists st, sem_main_start create s [print_radix 10 1 nr_threads; print_radix 10 1 sem_count;
                               print_radix 10 1 loops] = Ok st /\
    match st with
    | SExits status destroyed =>
        (ss_handles s && ss_mmap s && ss_alloc s) = false /\ (status = 0 <-> destroyed = false)
    | SStarted c n _ => c = sem_count /\ n = Z.to_nat nr_threads /\
        forall w0 w, sem_procs st = Some w0 -> rtc tstep w0 w ->
          Z.of_nat (count permitted (t_ths w)) <= sem_count /\
          (sem_count = 1 -> all_exited w -> printed_count w = nr_threads)
    end.
Proof.
  intros Hn Hc Hl Hcr Hf. unfold sem_main_start. rewrite !scan_arg_print, !bind_Ok by done.
  rewrite Hcr, bind_Ok. eexists. split; [done|]. rewrite (proj2 (Z.ltb_ge _ _)) by lia.
  destruct (ss_handles s), (ss_mmap s), (ss_alloc s); cbn [negb orb andb];
    try (split; [done|by split]).
  assert (E : count (ss_fork s) (seq 0 (Z.to_nat nr_threads)) = Z.to_nat nr_threads).
  { rewrite (count_all _ _ Hf). apply length_seq. }
  split; [done|]. split; [done|]. rewrite E. intros w0 w [= <-] Hr.
  split; [eapply permits_bound; [lia|exact Hr]|]. intros -> Hd. unfold printed_count.
  rewrite (all_counted _ _ Hr Hd). lia.
Qed.
End Main.

(** As it is linked, the program never starts a process: when the creation of the
    semaphore fails it exits with -1, and when it succeeds [xsem_create_open] ends
    without a return, so that the first use of its result is undefined. *)
Theorem linked_main_never_starts x count0 word s nr_threads sem_count loops :
  0 <= nr_threads <= INT_MAX -> 0 <= sem_count <= INT_MAX -> 0 <= loops <= INT_MAX ->
  sem_main_start (linked_create x count0 word) s
    [print_radix 10 1 nr_threads; print_radix 10 1 sem_count; print_radix 10 1 loops] =
  if created x then Undef else Ok (SExits (-1) false).
Proof.
  intros Hn Hc Hl. unfold sem_main_start. rewrite !scan_arg_print, !bind_Ok by done.
  unfold linked_create, xsem_create, xsem_create_open, created.
  destruct (sm_malloc x); cbn [negb andb]; [|done]. cbn [ub_unless fits].
  change (fits (chars "test_sem") 64) with true. cbn [ub_unless].
  destruct (Z.ltb_spec 0 (sm_open_probe x)); cbn [andb].
  { by rewrite (proj2 (Z.leb_gt _ _)) by lia. }
  rewrite (proj2 (Z.leb_le _ 0)) by lia. cbn [andb].
  destruct (Z.ltb_spec (sm_open_creat x) 0); [by rewrite (proj2 (Z.leb_gt _ _)) by lia|].
  rewrite (proj2 (Z.leb_le 0 (sm_open_creat x))) by lia. cbn [andb].
  destruct (Z.ltb_spec (sm_open x) 0); [by rewrite (proj2 (Z.leb_gt _ _)) by lia|].
  rewrite (proj2 (Z.leb_le 0 (sm_open x))) by lia. cbn [andb].
  destruct (sm_mmap x); cbn [negb andb]; [|done].
  change (fits (chars "test_sem" ++ chars ".lock") 64) with true.
  change (chars "test_sem" ++ chars ".lock") with (chars "test_sem.lock"). cbn [ub_unless].
  change (fits (chars "test_sem") 32) with true.
  assert (E : forall w w', (xlock_create_open (sm_lock x) (chars "test_sem.lock") true w).1 = None <->
    (xlock_create_open (sm_lock x) (chars "test_sem.lock") true w').1 = None).
  { intros w w'. unfold xlock_create_open. repeat case_match; done. }
  specialize (E word 0). destruct (xlock_create_open _ _ _ word) as [[y|] w1],
    (xlock_create_open _ _ _ 0) as [[z|] w2]; cbn in *; try done; naive_solver.
Qed.

Lemma linked_main_never_starts_witness :
  sem_main_start (linked_create (XsemSys true (-1) 3 3 true (Xsys true (-1) 4 4 true)) 0 0)
    (SemSys true true true (fun _ => true)) [chars "4"; chars "1"; chars "100"] = Undef.
Proof.
  apply (linked_main_never_starts (XsemSys true (-1) 3 3 true (Xsys true (-1) 4 4 true)) 0 0
    (SemSys true true true (fun _ => true)) 4 1 100); unfold INT_MAX; lia.
Defined.
