(* ===== verification/TestSemFair.v ===== *)
(** * The processes of src/test_sem.c come to their end

    The processes of test_sem.c on one initialised semaphore of xsem.c, over a lock
    that keeps the promise of LockLive.v: in a fair run in which signals stop
    interrupting the processes that sleep on the count, every process exits. ([main],
    as it is linked, does not get as far as starting them: see SemMain.v.) *)
From stdpp Require Import base list relations.
From Stdlib Require Import ZArith Lia.
From S2P Require Import Prelude Stdio Lock Xlock Fair LockLive XFair Xsem XsemFair Sem SemInst TestSem.

Open Scope Z_scope.

(** ** The two programs of a process *)

(** Where a process is in test_sem.c, and where it then is in xsem.c. *)
Definition sem_point (p : tpc) (pc : spc) : bool :=
  match p with
  | TDown => in_down pc
  | TGot => match pc with DUnlocking | DReturn => true | _ => false end
  | TUp => match pc with ULocking | URead | UWrite _ => true | _ => false end
  | TPut => match pc with UUnlocking | UReturn | UWake => true | _ => false end
  | _ => bool_decide (pc = SIdle)
  end.

(** The permits that a process still takes or gives. *)
Definition moves_left (p : tpc) : nat :=
  match p with TStart | TDown => 2 | TPut | TDone => 0 | _ => 1 end.

(** The steps it still takes while the count stays as it is, 0 or not; a process that
    is to call FUTEX_WAKE may cost the others ten steps each. *)
Definition steps_left (zero : bool) (n : nat) (p : tpc) (pc : spc) : nat :=
  match p with
  | TStart => 9
  | TDown =>
      match pc with
      | WSleep => if zero then 1 else 0
      | WWait => if zero then 2 else 6
      | WReturn => if zero then 3 else 7
      | WUnlocking => if zero then 4 else 8
      | WRelock => if zero then 7 else 5
      | DLocking => if zero then 6 else 4
      | DTest => if zero then 5 else 3
      | DRead => 2
      | DWrite _ => 1
      | _ => 0
      end
  | TGot => match pc with DUnlocking => 20 | _ => 19 end
  | TRead => 18
  | TWrite _ => 17
  | TLeave => 16
  | TUp => match pc with ULocking => 15 | URead => 14 | _ => 13 end
  | TPut => match pc with UUnlocking => 10 * n + 3 | UReturn => 10 * n + 2 | _ => 10 * n + 1 end
  | TDone => 0
  end.

Lemma steps_left_bound zero n p pc : (steps_left zero n p pc <= 10 * n + 20)%nat.
Proof. destruct p; cbn; try lia; destruct pc; try lia; destruct zero; lia. Qed.

(** A step of a process in xsem.c. *)
Definition s_go (c : Z) (pc pc' : spc) : Prop :=
  match pc with
  | DWrite _ => pc' = DUnlocking
  | UWrite _ => pc' = UUnlocking
  | _ => s_next c pc pc'
  end.

Section linked.
Context {L : Type} {HL : Lock L} {HLaws : LockLaws L} {HLive : LockLive L} {HLL : LockLiveLaws L}.

Lemma sstep_self t o (w w' : sworld L) pc :
  sstep_by t o w w' -> s_ths w !! t = Some pc ->
  (o = Some LTau /\ w' = SWorld (s_lock w') (s_count w) (s_ths w) (s_ups w) (s_downs w)) \/
  exists pc', s_ths w' !! t = Some pc' /\ s_go (s_count w) pc pc'.
Proof.
  intros Hs Ht. pose proof (lookup_lt_Some _ _ _ Ht) as Hlt.
  destruct (sstep_next _ _ _ _ _ Hs Ht) as [H|[H|[[-> H]|(pc' & Ht' & Hn)]]].
  - inversion Hs; subst; cbn in *; simplify_eq; try lia. right. exists DUnlocking.
    by rewrite list_lookup_insert_eq.
  - inversion Hs; subst; cbn in *; simplify_eq; try lia. right. exists UUnlocking.
    by rewrite list_lookup_insert_eq.
  - left. split; [done|]. inversion Hs; subst; [|done].
    match goal with Hm : lock_move _ _ _ |- _ => inversion Hm end.
  - right. exists pc'. split; [done|]. by destruct pc.
Qed.

Lemma sstep_length t o (w w' : sworld L) : sstep_by t o w w' -> length (s_ths w') = length (s_ths w).
Proof.
  intros Hs. destruct Hs; cbn; rewrite ?length_insert; try done.
  match goal with Hw : s_woken _ _ |- _ => by rewrite (Forall2_length _ _ _ (proj1 Hw)) end.
Qed.

Definition points (w : tworld (sworld L)) : Prop :=
  Forall2 (fun p pc => sem_point p pc = true) (t_ths w) (s_ths (t_sem w)).

Lemma call_point p a p' c pc pc' :
  call_move p a p' -> s_go c pc pc' -> x_act pc pc' = a -> sem_point p pc = true ->
  sem_point p' pc' = true.
Proof.
  intros Hm Hg Ha Hp. destruct Hm, pc; try done; cbn in Hg; subst; try done.
  all: try (destruct Hg as [->| ->]; done).
  all: try (by destruct (_ <? _)); try (by destruct (_ =? _)).
Qed.

Lemma inside_point p c pc pc' :
  s_go c pc pc' -> x_act pc pc' = STau -> sem_point p pc = true -> sem_point p pc' = true.
Proof.
  intros Hg Ha Hp. destruct p, pc; try done; cbn in Hg; subst; try done.
  all: try (destruct Hg as [->| ->]; done).
  all: try (by destruct (_ <? _)); try (by destruct (_ =? _)).
Qed.

(** A step of the semaphore, with the call of the process that makes it. *)
Lemma points_sem t o a p p' (w w' : sworld L) ths :
  sstep_by t o w w' -> labels x_act t a (s_ths w) (s_ths w') ->
  Forall2 (fun p pc => sem_point p pc = true) ths (s_ths w) -> ths !! t = Some p ->
  (call_move p a p' \/ (a = STau /\ p' = p)) ->
  Forall2 (fun p pc => sem_point p pc = true) (<[t := p']> ths) (s_ths w').
Proof.
  intros Hs (_ & Hlen & Hl) Hpts Hp Hm. apply Forall2_same_length_lookup. split.
  { rewrite length_insert, Hlen. by eapply Forall2_length. }
  intros t' q pc' Hq Hpc'.
  assert (Hpc : exists pc, s_ths w !! t' = Some pc).
  { apply lookup_lt_is_Some. rewrite <- Hlen. by eapply lookup_lt_Some. }
  destruct Hpc as [pc Hpc]. specialize (Hl t' pc pc' Hpc Hpc').
  destruct (decide (t' = t)) as [->|Hne].
  - rewrite list_lookup_insert_eq in Hq by (by eapply lookup_lt_Some). injection Hq as <-.
    pose proof (Forall2_lookup_lr _ _ _ _ _ _ Hpts Hp Hpc) as H. cbn in H.
    destruct (sstep_self _ _ _ _ _ Hs Hpc) as [[-> E]|(pc1 & H1 & Hg)].
    + rewrite E in Hpc'. cbn in Hpc'. simplify_eq. rewrite x_act_id in Hm.
      destruct Hm as [Hm|[_ ->]]; [by inversion Hm|done].
    + simplify_eq. destruct Hm as [Hm|[Ha ->]]; [by eapply call_point|by eapply inside_point].
  - rewrite list_lookup_insert_ne in Hq by done.
    pose proof (Forall2_lookup_lr _ _ _ _ _ _ Hpts Hq Hpc) as H. cbn in H.
    destruct (sstep_other _ _ _ _ _ _ Hs ltac:(done) Hpc) as [E|[-> E]]; simplify_eq; [done|].
    by destruct q.
Qed.

(** The number never exceeds the increments that are over. *)
Record val_ok (n : nat) (w : tworld (sworld L)) : Prop := {
  vo_val : 0 <= t_val w /\ t_val w + Z.of_nat (count to_count (t_ths w)) <= Z.of_nat n;
  vo_read t x : t_ths w !! t = Some (TWrite x) ->
    0 <= x /\ x + Z.of_nat (count to_count (t_ths w)) <= Z.of_nat n;
}.

Record linv (sem_count : Z) (n : nat) (w : tworld (sworld L)) : Prop := {
  li_tinv : tinv sem_count w;
  li_sinv : sinv sem_count (t_sem w);
  li_points : points w;
  li_val : val_ok n w;
  li_count : sem_count = 1 -> counting n w;
}.

Lemma val_ok_init sem_count n : val_ok n (tworld0 sem_count n).
Proof.
  constructor; cbn.
  - rewrite count_replicate. cbn. lia.
  - by intros t x [? _]%lookup_replicate.
Qed.

Lemma val_ok_step n t a w w' : tstep_by t a w w' -> val_ok n w -> val_ok n w'.
Proof.
  intros Hs [Hv Hr]. destruct Hs as [t pc a pc' s s' v ths Ht Hm Hstep|t s s' v ths Hstep
    |t s v ths Ht|t x x' s v ths Ht Hx]; cbn in *; [|done|..].
  - pose proof (count_insert to_count ths t pc pc' Ht) as Hc.
    assert (E : to_count pc' = to_count pc) by (by destruct Hm). rewrite E in Hc.
    constructor; cbn; [lia|].
    intros t' x [(_ & -> & _)|[_ E']]%list_lookup_insert_Some; [by inversion Hm|].
    specialize (Hr _ _ E'). lia.
  - pose proof (count_insert to_count ths t _ (TWrite v) Ht) as Hc. cbn in Hc.
    constructor; cbn; [lia|].
    intros t' x [(_ & [= <-] & _)|[_ E']]%list_lookup_insert_Some; [lia|].
    specialize (Hr _ _ E'). lia.
  - pose proof (count_insert to_count ths t _ TLeave Ht) as Hc. cbn in Hc.
    apply int_of_Ok_inv in Hx as [-> _]. specialize (Hr _ _ Ht) as Hx. constructor; cbn; [lia|].
    intros t' y [(_ & ? & _)|[_ E']]%list_lookup_insert_Some; [done|].
    specialize (Hr _ _ E'). lia.
Qed.

Lemma linv_init sem_count n : 0 <= sem_count -> linv sem_count n (tworld0 sem_count n).
Proof.
  intros Hc. constructor.
  - by apply tinv_init.
  - by apply sinv_init.
  - unfold points. cbn. apply Forall2_same_length_lookup. rewrite !length_replicate.
    split; [done|]. by intros t p pc [-> _]%lookup_replicate [-> _]%lookup_replicate.
  - apply val_ok_init.
  - intros ->. apply counting_init.
Qed.

(** A step on the counter. *)
Definition work_move (p p' : tpc) : Prop :=
  match p with TRead => exists v, p' = TWrite v | TWrite _ => p' = TLeave | _ => False end.

(** What a step does to the point of its process in test_sem.c and to the
    semaphore. *)
Lemma linked_shape t o w w' :
  linked_step t o w w' -> points w ->
  exists p pc p', t_ths w !! t = Some p /\ s_ths (t_sem w) !! t = Some pc /\ sem_point p pc = true /\
    t_ths w' = <[t := p']> (t_ths w) /\
    ((o = None /\ t_sem w' = t_sem w /\ work_move p p') \/
     exists a, sstep_by t o (t_sem w) (t_sem w') /\
       labels x_act t a (s_ths (t_sem w)) (s_ths (t_sem w')) /\
       (call_move p a p' \/ a = STau /\ p' = p)).
Proof.
  intros (a & Ht & Ho) Hp. unfold points in Hp.
  destruct Ht as [t p a p' s s' v ths Ht Hm [_ Hl]|t s s' v ths [_ Hl]|t s v ths Ht|t x x' s v ths Ht Hx];
    cbn in *.
  - destruct (Forall2_lookup_l _ _ _ _ _ Hp Ht) as (pc & Hpc & Hpt).
    exists p, pc, p'. do 4 (split; [done|]). right. exists a. by auto.
  - destruct Hl as ([pc Hpc] & Hl'). destruct (Forall2_lookup_r _ _ _ _ _ Hp Hpc) as (p & Hq & Hpt).
    exists p, pc, p. do 3 (split; [done|]). split; [by rewrite list_insert_id|].
    right. exists STau. split; [done|]. split; [by split; [eexists|]|by right].
  - destruct (Forall2_lookup_l _ _ _ _ _ Hp Ht) as (pc & Hpc & Hpt).
    exists TRead, pc, (TWrite v). do 4 (split; [done|]). left. do 2 (split; [done|]). by exists v.
  - destruct (Forall2_lookup_l _ _ _ _ _ Hp Ht) as (pc & Hpc & Hpt).
    exists (TWrite x), pc, TLeave. do 4 (split; [done|]). by left.
Qed.

Lemma points_step t o w w' : linked_step t o w w' -> points w -> points w'.
Proof.
  intros Hs Hp. destruct (linked_shape _ _ _ _ Hs Hp) as (p & pc & p' & Ht & Hpc & Hpt & E & Hc).
  unfold points in *. rewrite E. destruct Hc as [(_ & -> & Hm)|(a & Hss & Hl & Hm)].
  - rewrite <- (list_insert_id _ t pc Hpc). apply Forall2_insert; [done|].
    destruct p; try done; [destruct Hm as [v ->]|cbn in Hm; subst]; done.
  - by eapply points_sem.
Qed.

Lemma linked_sem t o w w' :
  linked_step t o w w' -> t_sem w' = t_sem w /\ o = None \/ sstep_by t o (t_sem w) (t_sem w').
Proof. intros (a & Ht & Ho). destruct Ht; cbn in *; auto. Qed.

Lemma linv_step sem_count n t o w w' :
  linked_step t o w w' -> linv sem_count n w -> linv sem_count n w'.
Proof.
  intros Hs [Ht Hsi Hp Hv Hc]. pose proof Hs as (a & Hst & _). constructor.
  - by eapply tinv_step_by.
  - destruct (linked_sem _ _ _ _ Hs) as [[-> _]|H]; [done|by eapply sinv_step_by].
  - by eapply points_step.
  - by eapply val_ok_step.
  - intros ->. eapply counting_step_by; [done|by apply Hc|exact Hst].
Qed.

(** ** What is left to do *)

Definition is_zero (w : tworld (sworld L)) : bool := s_count (t_sem w) =? 0.

Definition all_moves (w : tworld (sworld L)) : nat := sum_list_with moves_left (t_ths w).

Definition all_steps (zero : bool) (ths : list tpc) (pcs : list spc) : nat :=
  sum_list_with (fun x => x) (zip_with (steps_left zero (length ths)) ths pcs).

Definition all_left (w : tworld (sworld L)) : nat :=
  let n := length (t_ths w) in
  all_moves w * (n * (10 * n + 20) + 1) + all_steps (is_zero w) (t_ths w) (s_ths (t_sem w)).

Lemma all_steps_bound zero ths pcs : (all_steps zero ths pcs <= length ths * (10 * length ths + 20))%nat.
Proof.
  unfold all_steps. generalize (length ths) at 1 3 as n. intros n. revert pcs.
  induction ths as [|p ths IH]; intros [|pc pcs]; cbn; try lia.
  specialize (IH pcs). pose proof (steps_left_bound zero n p pc). lia.
Qed.

Lemma all_steps_insert zero ths pcs t p p' pc pc' :
  ths !! t = Some p -> pcs !! t = Some pc ->
  (all_steps zero (<[t := p']> ths) (<[t := pc']> pcs) + steps_left zero (length ths) p pc =
   all_steps zero ths pcs + steps_left zero (length ths) p' pc')%nat.
Proof.
  intros Hp Hpc. unfold all_steps. rewrite length_insert, <- insert_zip_with.
  apply (sum_list_with_insert (fun x => x)). by rewrite lookup_zip_with, Hp, Hpc.
Qed.

(** Waking sleepers costs ten steps each at most. *)
Lemma all_steps_woken zero ths pcs pcs' :
  s_woken pcs pcs' -> (all_steps zero ths pcs' <= all_steps zero ths pcs + 10 * length ths)%nat.
Proof.
  intros [Hf _]. unfold all_steps. generalize (length ths) at 1 2 as n. intros n. revert ths.
  induction Hf as [|a b pcs pcs' Hab _ IH]; intros [|p ths]; cbn; try lia.
  specialize (IH ths). destruct Hab as [->|[-> ->]]; [lia|].
  assert (steps_left zero n p WRelock <= steps_left zero n p WSleep + 10)%nat; [|lia].
  destruct p; cbn; try lia; destruct zero; lia.
Qed.

(** A permit is taken or given. *)
Definition moves_permit (a : sem_act) : bool := match a with SGot | SPut => true | _ => false end.

Lemma sstep_effect t o (w w' : sworld L) pc :
  sstep_by t o w w' -> s_ths w !! t = Some pc -> o <> Some LTau ->
  exists ths1 pc', s_ths w' = <[t := pc']> ths1 /\ s_go (s_count w) pc pc' /\
    ((ths1 = s_ths w /\ pc <> UWake) \/ (s_woken (s_ths w) ths1 /\ pc = UWake)) /\
    (moves_permit (x_act pc pc') = true \/ s_count w' = s_count w).
Proof.
  intros Hs Ht Ho. inversion Hs; subst; cbn in *; simplify_eq; eexists _, _; (split; [reflexivity|]); cbn;
    try (by auto 6).
  - match goal with Hm : lock_move _ _ _ |- _ => inversion Hm; subst end; cbn;
      (split; [by auto|]); (split; [by left|by auto]).
  - rewrite (proj2 (Z.ltb_lt _ _)) by lia. auto.
  - rewrite (proj2 (Z.ltb_ge _ _)) by lia. auto.
Qed.

Lemma left_go c n p p' pc pc' :
  0 <= c -> s_go c pc pc' -> call_move p (x_act pc pc') p' \/ x_act pc pc' = STau /\ p' = p ->
  sem_point p pc = true -> moves_permit (x_act pc pc') = false -> pc <> WSleep -> pc <> UWake ->
  (steps_left (c =? 0)%Z n p' pc' < steps_left (c =? 0)%Z n p pc)%nat.
Proof.
  intros Hc Hg Hm Hp Ha Hn1 Hn2.
  destruct p, pc; try done; cbn in Hg; try destruct Hg as [-> | ->]; subst;
    try (destruct (Z.ltb_spec 0 c)); try (destruct (Z.eqb_spec c 0)); try lia;
    cbn in Hm, Ha; try done;
    (destruct Hm as [Hm|[Hm ->]]; [inversion Hm; subst|]); try done; cbn; lia.
Qed.

Lemma moves_left_go p a p' :
  call_move p a p' \/ a = STau /\ p' = p ->
  (moves_left p' + (if moves_permit a then 1 else 0) = moves_left p)%nat.
Proof. intros [Hm|[-> ->]]; [by destruct Hm|cbn; lia]. Qed.

Lemma all_moves_insert w w' t p p' :
  t_ths w !! t = Some p -> t_ths w' = <[t := p']> (t_ths w) ->
  (all_moves w' + moves_left p = all_moves w + moves_left p')%nat.
Proof. intros Hp E. unfold all_moves. rewrite E. by apply sum_list_with_insert. Qed.

(** Less is left after a permit has moved, whatever the steps. *)
Lemma left_after_move w w' :
  length (t_ths w') = length (t_ths w) -> (all_moves w' + 1 = all_moves w)%nat ->
  (all_left w' < all_left w)%nat.
Proof.
  intros Hl Hm. unfold all_left. rewrite Hl, <- Hm.
  pose proof (all_steps_bound (is_zero w') (t_ths w') (s_ths (t_sem w'))) as Hb. rewrite Hl in Hb.
  rewrite Nat.mul_add_distr_r. lia.
Qed.

Lemma left_after_step w w' :
  length (t_ths w') = length (t_ths w) -> all_moves w' = all_moves w -> is_zero w' = is_zero w ->
  (all_steps (is_zero w) (t_ths w') (s_ths (t_sem w')) < all_steps (is_zero w) (t_ths w) (s_ths (t_sem w)))%nat ->
  (all_left w' < all_left w)%nat.
Proof. intros Hl Hm Hz Hs. unfold all_left. rewrite Hl, Hm, Hz. lia. Qed.

(** A step of the process on its own, and the call of FUTEX_WAKE. *)
Lemma steps_alone c ths pcs t p p' pc pc' :
  0 <= c -> s_go c pc pc' -> call_move p (x_act pc pc') p' \/ x_act pc pc' = STau /\ p' = p ->
  sem_point p pc = true -> moves_permit (x_act pc pc') = false -> pc <> WSleep -> pc <> UWake ->
  ths !! t = Some p -> pcs !! t = Some pc ->
  (all_steps (c =? 0)%Z (<[t := p']> ths) (<[t := pc']> pcs) < all_steps (c =? 0)%Z ths pcs)%nat.
Proof.
  intros Hc Hg Hm Hpt Ha Hn1 Hn2 Ht Hpc.
  pose proof (all_steps_insert (c =? 0)%Z ths pcs t p p' pc pc' Ht Hpc).
  pose proof (left_go c (length ths) p p' pc pc' Hc Hg Hm Hpt Ha Hn1 Hn2). lia.
Qed.

Lemma steps_wake zero ths pcs pcs' t p p' :
  s_woken pcs pcs' -> call_move p SRetUp p' -> ths !! t = Some p -> pcs !! t = Some UWake ->
  (all_steps zero (<[t := p']> ths) (<[t := SIdle]> pcs') < all_steps zero ths pcs)%nat.
Proof.
  intros Hw Hm Ht Hpc. pose proof (all_steps_woken zero ths pcs pcs' Hw) as Hb.
  assert (Hpc' : pcs' !! t = Some UWake).
  { by destruct (Forall2_lookup_l _ _ _ _ _ (proj1 Hw) Hpc) as (b & -> & [->|[? _]]). }
  pose proof (all_steps_insert zero ths pcs' t p p' UWake SIdle Ht Hpc') as Hi.
  inversion Hm; subst. cbn [steps_left] in Hi. lia.
Qed.

(** Every step lowers what is left, but those inside the lock and the signals. *)
Lemma linked_left sem_count n t o w w' :
  linked_step t o w w' -> linv sem_count n w -> o <> Some LTau ->
  s_ths (t_sem w) !! t <> Some WSleep -> (all_left w' < all_left w)%nat.
Proof.
  intros Hs Hi Ho Hns.
  destruct (linked_shape _ _ _ _ Hs (li_points _ _ _ Hi)) as (p & pc & p' & Ht & Hpc & Hpt & E & Hc).
  assert (Hlen : length (t_ths w') = length (t_ths w)) by by rewrite E, length_insert.
  pose proof (all_moves_insert w w' t p p' Ht E) as Hmv.
  destruct Hc as [(-> & Es & Hm)|(a & Hss & Hl & Hm)].
  - apply left_after_step; [done| |by unfold is_zero; rewrite Es|].
    + destruct p; try done; [destruct Hm as [v ->]|cbn in Hm; subst]; cbn in *; lia.
    + pose proof (all_steps_insert (is_zero w) _ _ t p p' pc pc Ht Hpc) as Hst.
      rewrite (list_insert_id _ _ _ Hpc) in Hst. rewrite E, Es.
      destruct p; try done; [destruct Hm as [v ->]|cbn in Hm; subst]; cbn [steps_left] in Hst; lia.
  - destruct (sstep_effect _ _ _ _ _ Hss Hpc Ho) as (ths1 & pc' & E1 & Hg & Hths & Hcount).
    assert (Hlt : (t < length ths1)%nat).
    { rewrite <- (length_insert ths1 t pc'), <- E1, (sstep_length _ _ _ _ Hss). by eapply lookup_lt_Some. }
    assert (Ha : x_act pc pc' = a).
    { destruct Hl as (_ & _ & Hl). specialize (Hl t pc pc' Hpc). rewrite decide_True in Hl by done.
      apply Hl. rewrite E1. by apply list_lookup_insert_eq. }
    pose proof (moves_left_go p a p' Hm) as Hgo. rewrite Ha in Hcount.
    destruct (moves_permit a) eqn:Hp; [apply left_after_move; [done|lia]|].
    destruct Hcount as [|Hcount]; [done|].
    apply left_after_step; [done|lia|by unfold is_zero; rewrite Hcount|]. rewrite E, E1. subst a.
    destruct Hths as [[-> Hw]|[Hw ->]].
    + eapply steps_alone; try done; [apply (li_sinv _ _ _ Hi)|congruence].
    + cbn in Hg. subst pc'. destruct Hm as [Hm|[? _]]; [|done]. by eapply steps_wake.
Qed.

(** Inside the lock nothing else changes. *)
Lemma linked_tau t w w' :
  linked_step t (Some LTau) w w' -> points w ->
  t_ths w' = t_ths w /\ s_ths (t_sem w') = s_ths (t_sem w) /\ s_count (t_sem w') = s_count (t_sem w).
Proof.
  intros Hs Hp. destruct (linked_shape _ _ _ _ Hs Hp) as (p & pc & p' & Ht & Hpc & _ & E & Hc).
  destruct Hc as [(? & _)|(a & Hss & Hl & Hm)]; [done|].
  assert (Hsame : s_ths (t_sem w') = s_ths (t_sem w) /\ s_count (t_sem w') = s_count (t_sem w)).
  { inversion Hss; subst; [|done]. match goal with H : lock_move _ _ _ |- _ => inversion H end. }
  split; [|done]. destruct Hsame as [Es _]. rewrite Es in Hl.
  apply (labels_same _ x_act_id) in Hl as ->.
  destruct Hm as [Hm|[_ ->]]; [by inversion Hm|]. by rewrite E, list_insert_id.
Qed.

(** ** The program as a client of the lock *)

Definition t_use (w : tworld (sworld L)) : usage L := s_use (t_sem w).
Definition t_rank (w : tworld (sworld L)) (t : nat) : nat := s_rank (t_sem w) t.

Lemma linked_client :
  lock_client linked_step (fun w => lk_inv (s_lock (t_sem w)) /\ points w) t_use t_rank.
Proof.
  destruct xsem_client as [_ Hlock Hquiet Hother]. constructor.
  - by intros w [? _].
  - intros t a w w' Hs [Hi _]. destruct (linked_sem _ _ _ _ Hs) as [[_ ?]|H]; [done|by apply Hlock].
  - intros t w w' Hs [Hi Hp].
    destruct (linked_shape _ _ _ _ Hs Hp) as (p & pc & p' & Ht & Hpc & Hpt & E & Hc).
    destruct Hc as [(_ & Es & Hm)|(a & Hss & _)]; [|by apply Hquiet].
    unfold t_use. rewrite Es. split; [done|]. left. rewrite (s_use_lookup _ _ _ Hpc).
    destruct p; try done; by apply bool_decide_eq_true in Hpt as ->.
  - intros t t' o w w' Hs Hne. unfold t_rank.
    destruct (linked_sem _ _ _ _ Hs) as [[-> _]|H]; [done|by eapply Hother].
Qed.

(** A process that goes on by itself: it has not exited and does not sleep on the count;
    the lock lets it, if it waits for that; its sum fits an int, if it is to write
    one. *)
Definition l_runnable (w : tworld (sworld L)) (t : nat) : Prop :=
  exists p pc, t_ths w !! t = Some p /\ s_ths (t_sem w) !! t = Some pc /\
    match p, pc with
    | TDone, _ | TDown, WSleep => False
    | TDown, DLocking | TUp, ULocking => lk_ready (s_lock (t_sem w)) t
    | TWrite x, _ | TUp, UWrite x => exists x', int_of (x + 1) = Ok x'
    | _, _ => True
    end.

(** Signals stop waking processes that sleep on the count. *)
Record linked_run (sem_count : Z) (n : nat) (st : nat -> tworld (sworld L))
    (lab : nat -> option (nat * option lock_act)) : Prop := {
  lr_init : st 0%nat = tworld0 sem_count n;
  lr_moves : moves linked_step st lab;
  lr_fair : fair l_runnable st lab;
  lr_signals : exists i, forall j t, (i <= j)%nat -> taken lab t j ->
    s_ths (t_sem (st j)) !! t <> Some WSleep;
}.

(** Some process that has not exited is awake. *)
Lemma awake_one sem_count n w :
  1 <= sem_count -> linv sem_count n w -> ~ all_exited w ->
  exists t p pc, t_ths w !! t = Some p /\ s_ths (t_sem w) !! t = Some pc /\ sem_point p pc = true /\
    p <> TDone /\ pc <> WSleep.
Proof.
  intros Hc [[_ Hperm] Hs Hp _ _] Hn.
  apply not_Forall_Exists in Hn; [|intros ?; apply _]. apply Exists_exists in Hn as (p & Hin & Hne).
  apply list_elem_of_lookup in Hin as [t Ht].
  destruct (Forall2_lookup_l _ _ _ _ _ Hp Ht) as (pc & Hpc & Hpt).
  destruct (decide (pc = WSleep)) as [->|Hsl]; [|exists t, p, pc; repeat split; try done; by intros ->].
  assert (Hsleep : (0 < count sleeping (s_ths (t_sem w)))%nat) by (apply count_pos; eauto).
  pose proof (si_wake _ _ Hs Hsleep) as Hw. cbn in Hperm.
  destruct (decide (0 < count pending (s_ths (t_sem w)))%nat) as [(u & pu & Hu & Hpu)%count_pos|Hno].
  - destruct (Forall2_lookup_r _ _ _ _ _ Hp Hu) as (q & Hq & Hqp).
    exists u, q, pu. repeat split; try done; [intros ->|intros ->; done].
    by apply bool_decide_eq_true in Hqp as ->.
  - pose proof (si_nonneg _ _ Hs).
    assert (Hpos : (0 < count permitted (t_ths w))%nat) by lia.
    apply count_pos in Hpos as (u & q & Hq & Hqp).
    destruct (Forall2_lookup_l _ _ _ _ _ Hp Hq) as (pu & Hu & Hpu).
    exists u, q, pu. repeat split; try done; [by intros ->|intros ->; by destruct q].
Qed.

(** ** Runs *)

Section run.
Context (sem_count : Z) (n : nat) (st : nat -> tworld (sworld L)) (lab : nat -> option (nat * option lock_act)).
Context (Hcount : 1 <= sem_count <= INT_MAX) (Hn : Z.of_nat n <= INT_MAX).
Context (Hrun : linked_run sem_count n st lab).

Lemma lrun_inv j : linv sem_count n (st j).
Proof.
  apply (run_invariant linked_step (linv sem_count n) st lab); [apply Hrun|..].
  - rewrite (lr_init _ _ _ _ Hrun). apply linv_init. lia.
  - intros t o w w' Hs Hi. by eapply linv_step.
Qed.

Lemma lrun_ok j : lk_inv (s_lock (t_sem (st j))) /\ points (st j).
Proof. split; [apply (si_lock _ _ (li_sinv _ _ _ (lrun_inv j)))|apply (lrun_inv j)]. Qed.

Lemma lrun_start : t_use (st 0%nat) = Usage (lk_init n) (replicate n Outside).
Proof. rewrite (lr_init _ _ _ _ Hrun). unfold t_use, s_use. cbn. by rewrite fmap_replicate. Qed.

(** A process that does not wait for the lock can go on. *)
Lemma l_goes_on j t p pc :
  t_ths (st j) !! t = Some p -> s_ths (t_sem (st j)) !! t = Some pc -> sem_point p pc = true ->
  p <> TDone -> pc <> WSleep -> s_phase pc <> Trying -> l_runnable (st j) t.
Proof.
  intros Ht Hpc Hpt Hp Hsl Hph. exists p, pc. split; [done|]. split; [done|].
  destruct (lrun_inv j) as [[_ Hperm] Hs _ Hv _]. pose proof (si_nonneg _ _ Hs).
  destruct p as [| | | |x| | | |]; try done; destruct pc as [| | | |y| | | | | | | | | |y| | |]; try done;
    eexists; apply int_of_Ok.
  - destruct (vo_read _ _ Hv _ _ Ht) as [H1 H2].
    assert (0 < count to_count (t_ths (st j)))%nat by (apply count_pos; eauto). unfold INT_MIN. lia.
  - rewrite (si_inc _ _ Hs _ _ Hpc).
    assert (0 < count permitted (t_ths (st j)))%nat by (apply count_pos; eauto).
    unfold INT_MIN. cbn in *. lia.
Qed.

Lemma l_use_runnable j t : usage_runnable lk_ready (t_use (st j)) t -> l_runnable (st j) t.
Proof.
  intros (q & Hq & Hr). destruct (lrun_ok j) as [_ Hp]. unfold t_use in Hq. cbn in Hq.
  rewrite list_lookup_fmap in Hq. destruct (s_ths (t_sem (st j)) !! t) as [pc|] eqn:Hpc; [|done].
  injection Hq as <-. destruct (Forall2_lookup_r _ _ _ _ _ Hp Hpc) as (p & Ht & Hpt).
  destruct (decide (s_phase pc = Trying)) as [E|E].
  - exists p, pc. split; [done|]. split; [done|]. rewrite E in Hr. by destruct p, pc.
  - apply (l_goes_on j t p pc); try done; [|by intros ->].
    intros ->. by apply bool_decide_eq_true in Hpt as ->.
Qed.

(** The processes stay where they are until less is left. *)
Definition l_less (i j : nat) : Prop := (i < j)%nat /\ (all_left (st j) < all_left (st i))%nat.

Definition l_same (w w' : tworld (sworld L)) : Prop :=
  t_ths w' = t_ths w /\ s_ths (t_sem w') = s_ths (t_sem w) /\ s_count (t_sem w') = s_count (t_sem w).

Lemma l_same_left w w' : l_same w w' -> all_left w' = all_left w.
Proof. intros (E1 & E2 & E3). unfold all_left, all_moves, is_zero. by rewrite E1, E2, E3. Qed.

Context (i0 : nat).
Context (Hsig : forall j t, (i0 <= j)%nat -> taken lab t j -> s_ths (t_sem (st j)) !! t <> Some WSleep).

Lemma l_step j :
  (i0 <= j)%nat -> l_same (st j) (st (S j)) \/ (all_left (st (S j)) < all_left (st j))%nat.
Proof.
  intros Hj. pose proof (lr_moves _ _ _ _ Hrun j) as Hs.
  destruct (lab j) as [[t o]|] eqn:El; [|left; by rewrite Hs].
  destruct (decide (o = Some LTau)) as [->|Ho].
  - left. eapply linked_tau; [done|apply lrun_ok].
  - right. eapply linked_left; [done|apply lrun_inv|done|]. apply Hsig; [done|by exists o].
Qed.

Lemma l_stays i j :
  (i0 <= i <= j)%nat -> (exists k, l_less i k) \/ l_same (st i) (st j).
Proof.
  intros [Hi Hij]. induction Hij as [|j Hij IH]; [by right|].
  destruct IH as [|E]; [by left|]. destruct (l_step j ltac:(lia)) as [E'|Hlt].
  - right. destruct E as (E1 & E2 & E3), E' as (F1 & F2 & F3). repeat split; congruence.
  - left. exists (S j). split; [lia|]. by rewrite <- (l_same_left _ _ E).
Qed.

Lemma l_lowers i j t o :
  (i0 <= i <= j)%nat -> lab j = Some (t, o) -> o <> Some LTau -> exists k, l_less i k.
Proof.
  intros Hij El Ho. destruct (l_stays i j Hij) as [|E]; [done|].
  pose proof (lr_moves _ _ _ _ Hrun j) as Hs. rewrite El in Hs.
  exists (S j). split; [lia|]. rewrite <- (l_same_left _ _ E).
  eapply linked_left; [done|apply lrun_inv|done|]. apply Hsig; [lia|by exists o].
Qed.

Lemma l_moves_on i : (i0 <= i)%nat -> all_exited (st i) \/ exists k, l_less i k.
Proof.
  intros Hi. destruct (decide (all_exited (st i))) as [|Hne]; [by left|]. right.
  destruct (awake_one sem_count n (st i) ltac:(lia) (lrun_inv i) Hne) as (t & p & pc & Ht & Hpc & Hpt & Hp & Hsl).
  destruct (decide (s_phase pc = Trying)) as [E|E].
  - destruct (use_progress linked_step l_runnable _ t_use t_rank linked_client st lab n lrun_start lrun_ok
      (lr_moves _ _ _ _ Hrun) (lr_fair _ _ _ _ Hrun) l_use_runnable i t) as (j & Hij & t' & El).
    + unfold t_use. by rewrite (s_use_lookup _ _ _ Hpc), E.
    + eapply l_lowers; [split; [exact Hi|exact Hij]|exact El|done].
  - destruct (lr_fair _ _ _ _ Hrun t i) as (j & Hij & Hj).
    destruct (l_stays i j (conj Hi Hij)) as [|(E1 & E2 & E3)]; [done|].
    rewrite <- E1 in Ht. rewrite <- E2 in Hpc. destruct Hj as [[o El]|Hr].
    + eapply l_lowers; [split; [exact Hi|exact Hij]|exact El|]. intros ->. destruct E.
      assert (Hq : us_phases (t_use (st j)) !! t = Some Trying).
      { eapply (use_tau linked_step _ t_use t_rank linked_client st lab n lrun_start lrun_ok);
          [apply Hrun|]. unfold use_lab. by rewrite El. }
      unfold t_use in Hq. rewrite (s_use_lookup _ _ _ Hpc) in Hq. by injection Hq.
    + destruct Hr. by eapply l_goes_on.
Qed.

Lemma lrun_ends i : (i0 <= i)%nat -> eventually (fun j => all_exited (st j)) i.
Proof.
  apply (eventually_measure i0 (fun j => all_left (st j))). clear i. intros i Hi.
  destruct (l_moves_on i Hi) as [Hd|H]; [left; by apply eventually_now|by right].
Qed.
End run.

Lemma linked_ends sem_count n st lab :
  1 <= sem_count <= INT_MAX -> Z.of_nat n <= INT_MAX -> linked_run sem_count n st lab ->
  eventually (fun j => all_exited (st j) /\ linv sem_count n (st j)) 0.
Proof.
  intros Hc Hn Hrun. destruct (lr_signals _ _ _ _ Hrun) as (i0 & Hsig).
  destruct (lrun_ends sem_count n st lab Hc Hn Hrun i0 Hsig i0 ltac:(lia)) as (j & _ & Hd).
  exists j. split; [lia|]. split; [done|]. by apply (lrun_inv sem_count n st lab).
Qed.
End linked.

(** ** The theorem *)

(** C13. Any number of processes that run [sem_test_thread] of test_sem.c on one
    semaphore of xsem.c over xlock.c, initialised as [xsem_create_open] does it with
    any positive count: in a fair run in which signals stop waking the processes that
    sleep on the count, all of them exit; with a count of 1 the shared counter is then
    their number. *)
Theorem test_sem_terminates sem_count n st lab :
  1 <= sem_count <= INT_MAX -> Z.of_nat n <= INT_MAX ->
  st 0%nat = sem_processes sem_count n -> moves linked_step st lab -> fair l_runnable st lab ->
  (exists i, forall j t, (i <= j)%nat -> taken lab t j -> s_ths (t_sem (st j)) !! t <> Some WSleep) ->
  eventually (fun j => all_exited (st j) /\ (sem_count = 1 -> t_val (st j) = Z.of_nat n)) 0.
Proof.
  intros Hc Hn H0 Hm Hf Hs. eapply eventually_bind.
  - by apply (linked_ends sem_count n st lab); [| |constructor].
  - intros j _ [Hd Hi]. apply eventually_now. split; [done|]. intros E.
    apply counting_val; [by apply Hi|done].
Qed.

Lemma sem_alone_fair : fair l_runnable sem_alone_st sem_alone_lab.
Proof.
  intros t i. exists (16 + i)%nat. split; [lia|]. right. intros (p & pc & H & _ & Hp).
  destruct t; cbn in H; [injection H as <-|]; done.
Qed.

Lemma test_sem_terminates_witness :
  eventually (fun j => all_exited (sem_alone_st j) /\ (1 = 1 -> t_val (sem_alone_st j) = 1)) 0.
Proof.
  refine (test_sem_terminates 1 1 sem_alone_st sem_alone_lab _ _ eq_refl sem_alone_moves sem_alone_fair _).
  - split; vm_compute; discriminate.
  - vm_compute. discriminate.
  - exists 16%nat. intros j t Hj (o & E).
    do 16 (destruct j as [|j]; [lia|]). discriminate E.
Defined.
