(* ===== verification/Ring.v ===== *)
(** * The ring buffer of src/producer_test.c

    A producer thread and a consumer thread share an array and two heads, without a
    lock; the producer never looks at the consumer's head. Accesses to memory are
    interleaved one by one. *)
From stdpp Require Import base list relations.
From Stdlib Require Import ZArith Lia.
From S2P Require Import Prelude.

Open Scope Z_scope.

Definition CONSUME_RATE : Z := 100.

(** [producer_thread]: before the write of the data, and before the update of
    [producer_head]. *)
Inductive producer : Type := PWrite | PAdvance.

(** [consumer_thread]: before the test of the loop with counter [i], and inside. *)
Inductive consumer : Type := CTest (i : Z) | CTake (i : Z).

(** The globals, the threads, and the numbers printed so far. *)
Record ring : Type := Ring {
  data : list Z;
  producer_head : Z;
  _d_i_producer : Z;
  consumer_head : Z;
  prod_pc : producer;
  cons_pc : consumer;
  printed : list Z;
}.

Section Machine.
Context (DATA_SZ : Z).

Definition ring0 : ring :=
  Ring (replicate (Z.to_nat DATA_SZ) 0) 0 0 0 PWrite (CTest 0) [].

(** One access of the producer: [None] when it is not possible to go on without
    undefined behaviour. *)
Definition produce (r : ring) : res ring :=
  match prod_pc r with
  | PWrite =>
      d ← wr (data r) (producer_head r) (_d_i_producer r);
      next ← int_of (_d_i_producer r + 1);
      Ok (Ring d (producer_head r) next (consumer_head r) PAdvance (cons_pc r) (printed r))
  | PAdvance =>
      Ok (Ring (data r) (Z.rem (producer_head r + 1) DATA_SZ) (_d_i_producer r) (consumer_head r)
            PWrite (cons_pc r) (printed r))
  end.

(** The loop body of the consumer, or the [sleep] and the next round. *)
Definition consume (r : ring) : res ring :=
  let at_pc ch pc out :=
    Ring (data r) (producer_head r) (_d_i_producer r) ch (prod_pc r) pc out in
  match cons_pc r with
  | CTest i =>
      Ok (at_pc (consumer_head r)
            (if (i <? CONSUME_RATE) && negb (consumer_head r =? producer_head r)
             then CTake i else CTest 0) (printed r))
  | CTake i =>
      v ← rd (data r) (consumer_head r);
      Ok (at_pc (Z.rem (consumer_head r + 1) DATA_SZ) (CTest (i + 1)) (printed r ++ [v]))
  end.

Inductive ring_step (r r' : ring) : Prop :=
| rs_produce : produce r = Ok r' -> ring_step r r'
| rs_consume : consume r = Ok r' -> ring_step r r'.

(** ** The invariant *)
Hypothesis pos : 0 < DATA_SZ.

(** How many numbers have been made available, and taken. *)
Definition offered (r : ring) : Z :=
  _d_i_producer r - match prod_pc r with PWrite => 0 | PAdvance => 1 end.

Definition taken (r : ring) : Z := Z.of_nat (length (printed r)).

Record ring_ok (r : ring) : Prop := {
  ro_size : Z.of_nat (length (data r)) = DATA_SZ;
  ro_phead : producer_head r = offered r mod DATA_SZ;
  ro_chead : consumer_head r = taken r mod DATA_SZ;
  ro_order : taken r <= offered r;
  ro_take i : cons_pc r = CTake i -> taken r < offered r;
  ro_data m : 0 <= m -> _d_i_producer r - DATA_SZ <= m < _d_i_producer r ->
    data r !! Z.to_nat (m mod DATA_SZ) = Some m;
}.

Lemma mod_lt m : 0 <= m mod DATA_SZ < DATA_SZ.
Proof. by apply Z.mod_pos_bound. Qed.

Lemma head_next m : 0 <= m -> Z.rem (m mod DATA_SZ + 1) DATA_SZ = (m + 1) mod DATA_SZ.
Proof.
  intros Hm. pose proof (mod_lt m). rewrite Z.rem_mod_nonneg by lia. apply Z.add_mod_idemp_l. lia.
Qed.

(** Numbers less than a lap apart have slots of their own. *)
Lemma same_slot m m' :
  0 <= m -> 0 <= m' -> Z.to_nat (m mod DATA_SZ) = Z.to_nat (m' mod DATA_SZ) ->
  - DATA_SZ < m - m' < DATA_SZ -> m = m'.
Proof.
  intros Hm Hm' E Hd. pose proof (mod_lt m). pose proof (mod_lt m').
  assert (E' : m mod DATA_SZ = m' mod DATA_SZ) by lia.
  pose proof (Z.div_mod m DATA_SZ ltac:(lia)). pose proof (Z.div_mod m' DATA_SZ ltac:(lia)).
  assert (Eq : m - m' = DATA_SZ * (m / DATA_SZ - m' / DATA_SZ)) by lia.
  assert (m / DATA_SZ - m' / DATA_SZ = 0) by nia. lia.
Qed.

Lemma ring_ok_init : ring_ok ring0.
Proof.
  constructor; unfold offered, taken; cbn; try done.
  - rewrite length_replicate. lia.
  - intros m H1 H2. lia.
Qed.

Ltac ring_cbn :=
  unfold offered, taken in *;
  cbn [data producer_head _d_i_producer consumer_head prod_pc cons_pc printed] in *.

Lemma ring_ok_produce r r' : ring_ok r -> produce r = Ok r' -> ring_ok r'.
Proof.
  intros [Hs Hp Hc Ho Ht Hd] H. unfold produce in H. ring_cbn.
  destruct (prod_pc r) eqn:Epc; inv_res; constructor; ring_cbn; try done.
  - by rewrite length_insert.
  - rewrite Hp. f_equal. lia.
  - lia.
  - intros i E. specialize (Ht i E). lia.
  - intros m Hm Hr. rewrite Hp, Z.sub_0_r. destruct (decide (m = _d_i_producer r)) as [->|Hne].
    + rewrite list_lookup_insert_eq; [done|]. pose proof (mod_lt (_d_i_producer r)). lia.
    + rewrite list_lookup_insert_ne; [apply Hd; lia|]. intros E.
      apply Hne. apply (same_slot m (_d_i_producer r)); [lia|lia|by rewrite E|lia].
  - rewrite Hp, head_next by lia. f_equal. lia.
  - lia.
  - intros i E. specialize (Ht i E). lia.
Qed.

(** What the consumer prints is a number of the right slot: the one it should be, or
    one of a later lap. *)
Lemma take_value r i :
  ring_ok r -> cons_pc r = CTake i ->
  exists k, 0 <= k /\ rd (data r) (consumer_head r) = Ok (taken r + k * DATA_SZ) /\
    taken r + k * DATA_SZ < _d_i_producer r /\
    (_d_i_producer r - taken r <= DATA_SZ -> k = 0).
Proof.
  intros [Hs Hp Hc Ho Ht Hd] Hpc. specialize (Ht i Hpc). ring_cbn.
  set (c := Z.of_nat (length (printed r))) in *. set (w := _d_i_producer r) in *.
  assert (Hcw : c < w) by (destruct (prod_pc r); lia).
  pose proof (Z.div_mod (w - 1 - c) DATA_SZ ltac:(lia)) as Ek.
  pose proof (mod_lt (w - 1 - c)) as Hr. set (k := (w - 1 - c) / DATA_SZ) in *.
  assert (Hk : 0 <= k) by (apply Z.div_pos; lia).
  exists k. split; [done|]. split; [|split; [nia|]].
  - rewrite Hc. apply rd_Ok. split; [apply mod_lt|]. rewrite <- (Z_mod_plus_full c k).
    apply Hd; nia.
  - intros Hl. nia.
Qed.

Lemma ring_ok_consume r r' : ring_ok r -> consume r = Ok r' -> ring_ok r'.
Proof.
  intros [Hs Hp Hc Ho Ht Hd] H. unfold consume in H. ring_cbn.
  destruct (cons_pc r) as [i|i] eqn:Epc.
  - inv_res. constructor; ring_cbn; try done.
    intros i' E. destruct (i <? CONSUME_RATE); [|done]. cbn [andb] in E.
    destruct (Z.eqb_spec (consumer_head r) (producer_head r)) as [|Hne]; [done|].
    destruct (decide (Z.of_nat (length (printed r)) =
      _d_i_producer r - match prod_pc r with PWrite => 0 | PAdvance => 1 end)); [congruence|lia].
  - inv_res. specialize (Ht i eq_refl). constructor; ring_cbn; rewrite ?length_app; cbn [length]; try done.
    + rewrite Hc, head_next by lia. f_equal. lia.
    + lia.
Qed.

Lemma ring_ok_step r r' : ring_ok r -> ring_step r r' -> ring_ok r'.
Proof. intros Hr [H|H]; eauto using ring_ok_produce, ring_ok_consume. Qed.

(** Neither thread ever leaves the array: the only undefined behaviour is the
    overflow of the producer's counter. *)
Lemma ring_no_ub r :
  ring_ok r -> (exists r', consume r = Ok r') /\
  (_d_i_producer r < INT_MAX -> 0 <= _d_i_producer r -> exists r', produce r = Ok r').
Proof.
  intros Hr. split.
  - unfold consume. destruct (cons_pc r) as [i|i] eqn:E; [by eexists|].
    destruct (take_value r i Hr E) as (k & _ & -> & _). by eexists.
  - intros Hm Hn. unfold produce. destruct (prod_pc r); [|by eexists].
    rewrite wr_Ok by (rewrite (ro_size _ Hr), (ro_phead _ Hr); apply mod_lt). rewrite bind_Ok.
    rewrite int_of_Ok by (unfold INT_MIN; lia). by eexists.
Qed.

(** Everything printed so far is of the right slot. *)
Definition right_slots (r : ring) : Prop :=
  forall i v, printed r !! i = Some v -> exists k, 0 <= k /\ v = Z.of_nat i + k * DATA_SZ.

Lemma right_slots_step r r' : ring_ok r -> right_slots r -> ring_step r r' -> right_slots r'.
Proof.
  intros Hr Hp [H|H].
  - unfold produce in H. destruct (prod_pc r); inv_res; exact Hp.
  - unfold consume in H. destruct (cons_pc r) as [i|i] eqn:E.
    { inv_res. exact Hp. }
    destruct (take_value r i Hr E) as (k & Hk & Ev & _). rewrite Ev in H. inv_res.
    intros j v [Hj|[Hge Hj]]%lookup_app_Some; [by apply Hp|].
    apply list_lookup_singleton_Some in Hj as [Hj <-]. exists k. split; [done|].
    unfold taken. f_equal. lia.
Qed.

(** A step after which the producer is not more than a lap ahead. *)
Definition steady_step (r r' : ring) : Prop :=
  ring_step r r' /\ _d_i_producer r' - taken r' <= DATA_SZ.

Lemma in_order_step r r' :
  ring_ok r -> _d_i_producer r - taken r <= DATA_SZ ->
  printed r = seqZ 0 (taken r) -> ring_step r r' -> printed r' = seqZ 0 (taken r').
Proof.
  intros Hr Hl Hp [H|H].
  - unfold produce in H. destruct (prod_pc r); inv_res; exact Hp.
  - unfold consume in H. destruct (cons_pc r) as [i|i] eqn:E.
    { inv_res. exact Hp. }
    destruct (take_value r i Hr E) as (k & Hk & Ev & _ & Hk0). rewrite Ev in H. inv_res.
    rewrite (Hk0 Hl). unfold taken in *. ring_cbn. rewrite length_app, Nat2Z.inj_add. cbn [length].
    rewrite Hp at 1. rewrite seqZ_app by lia. do 2 f_equal.
    rewrite seqZ_cons, seqZ_nil by lia. f_equal. lia.
Qed.
End Machine.

(** ** The program *)

Definition DATA_SZ : Z := 204800.

(** C15. The order of what is printed. Whatever the speeds of the threads, the [i]-th
    number printed is [i] or a later one of the same slot, a whole number of laps
    ahead; as long as the producer is never more than a lap ahead of the consumer,
    it is [i]: nothing is lost, repeated or out of order. *)
Theorem ring_order r :
  (rtc (ring_step DATA_SZ) (ring0 DATA_SZ) r ->
   forall i v, printed r !! i = Some v -> exists k, 0 <= k /\ v = Z.of_nat i + k * DATA_SZ) /\
  (rtc (steady_step DATA_SZ) (ring0 DATA_SZ) r -> printed r = seqZ 0 (taken r)).
Proof.
  assert (P : 0 < DATA_SZ) by (unfold DATA_SZ; lia). split; intros Hr.
  - assert (G : forall r1 r2, rtc (ring_step DATA_SZ) r1 r2 ->
      ring_ok DATA_SZ r1 /\ right_slots DATA_SZ r1 -> ring_ok DATA_SZ r2 /\ right_slots DATA_SZ r2).
    { induction 1; [done|]. intros [Ho Hs]. eauto using ring_ok_step, right_slots_step. }
    apply (G _ _ Hr). split; [by apply ring_ok_init|]. by intros i v.
  - assert (G : forall r1 r2, rtc (steady_step DATA_SZ) r1 r2 -> _d_i_producer r1 - taken r1 <= DATA_SZ ->
      ring_ok DATA_SZ r1 /\ printed r1 = seqZ 0 (taken r1) ->
      ring_ok DATA_SZ r2 /\ printed r2 = seqZ 0 (taken r2)).
    { induction 1 as [|r1 r2 r3 [Hst Hl] _ IH]; [done|]. intros Hl1 [Ho Hs].
      apply IH; [done|]. split; [by eapply ring_ok_step|by eapply in_order_step]. }
    apply (G _ _ Hr); [vm_compute; discriminate|]. split; [by apply ring_ok_init|done].
Qed.

(** A lap is lost without a trace: when the producer is exactly one lap ahead, the
    consumer takes the buffer for empty, and goes to sleep. *)
Theorem full_lap_looks_empty r i :
  ring_ok DATA_SZ r -> cons_pc r = CTest i -> prod_pc r = PWrite ->
  _d_i_producer r = taken r + DATA_SZ ->
  exists r', consume DATA_SZ r = Ok r' /\ cons_pc r' = CTest 0 /\ printed r' = printed r.
Proof.
  intros Hr Hc Hp Hd. unfold consume. rewrite Hc. eexists. split; [reflexivity|].
  cbn [cons_pc printed]. split; [|done]. rewrite (ro_phead _ _ Hr), (ro_chead _ _ Hr).
  unfold offered. rewrite Hp, Hd. replace (taken r + DATA_SZ - 0) with (taken r + 1 * DATA_SZ) by lia.
  rewrite Z_mod_plus_full, Z.eqb_refl. by rewrite andb_false_r.
Qed.

(** One number, produced and consumed. *)
Definition slots1 : list Z := <[0%nat := 0]> (replicate (Z.to_nat DATA_SZ) 0).

Lemma slots1_first : slots1 !! 0%nat = Some 0.
Proof. apply list_lookup_insert_eq. rewrite length_replicate. unfold DATA_SZ. lia. Qed.

Lemma first_write : produce DATA_SZ (ring0 DATA_SZ) = Ok (Ring slots1 0 1 0 PAdvance (CTest 0) []).
Proof.
  unfold produce, ring0. cbn [prod_pc data producer_head _d_i_producer].
  rewrite wr_Ok by (rewrite length_replicate; unfold DATA_SZ; lia). reflexivity.
Qed.

Lemma first_take :
  rtc (steady_step DATA_SZ) (ring0 DATA_SZ) (Ring slots1 1 1 1 PWrite (CTest 1) [0]).
Proof.
  assert (L : forall z, z <= 1 -> z <= DATA_SZ) by (unfold DATA_SZ; lia).
  eapply rtc_l; [split; [apply rs_produce, first_write|by apply L]|].
  eapply rtc_l; [split; [apply rs_produce; reflexivity|by apply L]|].
  eapply rtc_l; [split; [apply rs_consume; reflexivity|by apply L]|].
  eapply rtc_l; [split; [apply rs_consume|]|].
  - unfold consume. cbn -[slots1 rd Z.rem DATA_SZ].
    rewrite (rd_nat slots1 0 0 slots1_first : rd slots1 0 = Ok 0). reflexivity.
  - by apply L.
  - apply rtc_refl.
Qed.

Lemma ring_order_witness :
  printed (Ring slots1 1 1 1 PWrite (CTest 1) [0]) = seqZ 0 1.
Proof. exact (proj2 (ring_order _) first_take). Defined.
