(* ===== verification/BitArray.v ===== *)
(** * The bit array of src/test_bitarray.c

    Bits packed in bytes: create, set, get, print and shift, and the self test in
    [main]. The build defines NDEBUG, so the [debug_printf] calls are empty. *)
From stdpp Require Import base list.
From Stdlib Require Import ZArith Lia.
From S2P Require Import Prelude.

Open Scope Z_scope.

Definition EINVAL : Z := 22.
Definition BIT_N : Z := 8.
Definition BIT_LOG : Z := 3.
Definition BIT_MSK : Z := BIT_N - 1.
Definition BIT_IDX (bit : Z) : Z := Z.shiftr bit BIT_LOG.
Definition BIT_POS (bit : Z) : Z := Z.land bit BIT_MSK.

(** The bytes of the flexible member, which [malloc] made room for. *)
Record bitarray : Type := BitArray { nr_bits : Z; array : list Z }.

Definition BITARRAY_WORD_WIDTH (ba : bitarray) : Z := BIT_IDX (nr_bits ba).

(** A failing [malloc] is not noticed; with a negative number of bits there is not
    even room for [nr_bits]. *)
Definition bitarray_create (m : bool) (nr_bits : Z) : res (option bitarray) :=
  if negb (Z.land nr_bits 7 =? 0) then Ok None
  else ub_unless (m && (0 <=? nr_bits))
         (Ok (Some (BitArray nr_bits (replicate (Z.to_nat (BIT_IDX nr_bits)) 0)))).

(** Assignment to an [unsigned char]. *)
Definition uchar (z : Z) : Z := uwrap 8 z.

Definition bitarray_set (ba : bitarray) (bit : Z) : res (Z * bitarray) :=
  if nr_bits ba <? bit then Ok (- EINVAL, ba)
  else
    b ← rd (array ba) (BIT_IDX bit);
    a ← wr (array ba) (BIT_IDX bit) (uchar (Z.lor b (Z.shiftl 1 (BIT_POS bit))));
    Ok (0, BitArray (nr_bits ba) a).

Definition bitarray_get (ba : bitarray) (bit : Z) : res Z :=
  if nr_bits ba <? bit then Ok (- EINVAL)
  else
    b ← rd (array ba) (BIT_IDX bit);
    Ok (if Z.land b (Z.shiftl 1 (BIT_POS bit)) =? 0 then 0 else 1).

(** The bytes in the order they are printed, the last one first. *)
Fixpoint print_bytes (rounds : nat) (ba : bitarray) : res (list Z) :=
  match rounds with
  | O => Ok []
  | S i => b ← rd (array ba) (Z.of_nat i); rest ← print_bytes i ba; Ok (b :: rest)
  end.

Definition bitarray_print (ba : bitarray) : res (list Z) :=
  print_bytes (Z.to_nat (BITARRAY_WORD_WIDTH ba)) ba.

(** [1 << bits] less one. *)
Definition BITMASK (bits : Z) : Z := Z.shiftl 1 bits - 1.

(** The loop of the right shift, from byte [i] on; the count of the loop is the
    distance to the end. *)
Fixpoint shift_right_loop (rounds : nat) (i rest_shift : Z) (a : list Z) : res (list Z) :=
  match rounds with
  | O => Ok a
  | S rounds =>
      let bitmask := BITMASK rest_shift in
      b1 ← rd a (i + 1);
      let bits_shift := Z.land b1 bitmask in
      b ← rd a i;
      let b := Z.land (Z.shiftr b rest_shift) bitmask in
      a ← wr a i (uchar (Z.lor b (Z.shiftl bits_shift (BIT_N - rest_shift))));
      shift_right_loop rounds (i + 1) rest_shift a
  end.

(** The loop of the left shift, from byte [i] down to byte 0. *)
Fixpoint shift_left_loop (rounds : nat) (i rest_shift : Z) (a : list Z) : res (list Z) :=
  match rounds with
  | O => Ok a
  | S rounds =>
      let bitmask := Z.shiftl (BITMASK rest_shift) (BIT_N - rest_shift) in
      b1 ← rd a (i - 1);
      let bits_shift := Z.land b1 bitmask in
      b ← rd a i;
      let b := Z.land (uchar (Z.shiftl b rest_shift)) bitmask in
      a ← wr a i (uchar (Z.lor b (Z.shiftr bits_shift (BIT_N - rest_shift))));
      shift_left_loop rounds (i - 1) rest_shift a
  end.

(** [memset(&a[i], 0, n)]; [n] is converted to [size_t]. *)
Definition memset0 (a : list Z) (i n : Z) : res (list Z) :=
  ub_unless ((0 <=? i) && (0 <=? n) && (i + n <=? Z.of_nat (length a)))
    (Ok (take (Z.to_nat i) a ++ replicate (Z.to_nat n) 0 ++ drop (Z.to_nat (i + n)) a)).

Definition bitarray_shift (ba : bitarray) (dir bits : Z) : res bitarray :=
  let w := BITARRAY_WORD_WIDTH ba in
  let shift_width_words := if BIT_IDX (nr_bits ba) <? BIT_IDX bits then BIT_IDX (nr_bits ba)
                           else BIT_IDX bits in
  let rest_shift := Z.land bits BIT_MSK in
  if w <=? bits then a ← memset0 (array ba) 0 w; Ok (BitArray (nr_bits ba) a)
  else if dir =? 1 then
    a ← shift_right_loop (Z.to_nat (w - shift_width_words)) shift_width_words rest_shift (array ba);
    a ← memmove a 0 shift_width_words (w - shift_width_words);
    a ← memset0 a (w - 1 - shift_width_words) shift_width_words;
    Ok (BitArray (nr_bits ba) a)
  else
    a ← shift_left_loop (Z.to_nat (w - shift_width_words)) (w - shift_width_words - 1) rest_shift
          (array ba);
    a ← memmove a shift_width_words 0 (w - shift_width_words);
    a ← memset0 a 0 shift_width_words;
    Ok (BitArray (nr_bits ba) a).

(** ** The self test *)

Definition BSIZE : Z := 128.

Inductive verdict : Type :=
| Failed
| Passed (before after : list Z).       (* the two printed arrays *)

(** The loop of [main]; [rnd] are the results of [random]. *)
Fixpoint test_loop (rounds : nat) (rnd : nat -> Z) (bit : nat) (ba : bitarray)
    : res (option bitarray) :=
  match rounds with
  | O => Ok (Some ba)
  | S rounds =>
      let one := negb (Z.land (rnd bit) 1 =? 0) in
      '(rc, ba) ← (if one then bitarray_set ba (Z.of_nat bit) else Ok (0, ba));
      if rc <? 0 then Ok None
      else
        rc ← bitarray_get ba (Z.of_nat bit);
        if rc <? 0 then Ok None
        else if negb ((if one then 1 else 0) =? rc) then Ok None
        else test_loop rounds rnd (S bit) ba
  end.

Definition main (m : bool) (rnd : nat -> Z) : res verdict :=
  ba ← bitarray_create m BSIZE;
  match ba with
  | None => Undef
  | Some ba =>
      r ← test_loop (Z.to_nat BSIZE) rnd 0 ba;
      match r with
      | None => Ok Failed
      | Some ba =>
          before ← bitarray_print ba;
          ba ← bitarray_shift ba 0 128;
          after ← bitarray_print ba;
          Ok (Passed before after)
      end
  end.

(** ** Bits *)

(** Well formed arrays: whole bytes, as many as [nr_bits] asks for. *)
Record bitarray_ok (ba : bitarray) : Prop := {
  bo_size : nr_bits ba = 8 * Z.of_nat (length (array ba));
  bo_bytes : Forall (fun b => 0 <= b < 256) (array ba);
}.

(** The bit at a position, as the specification sees it. *)
Definition bit_of (ba : bitarray) (i : Z) : bool :=
  Z.testbit (nth (Z.to_nat (i / 8)) (array ba) 0) (i mod 8).

Lemma BIT_IDX_div i : BIT_IDX i = i / 8.
Proof. unfold BIT_IDX. by rewrite Z.shiftr_div_pow2. Qed.

Lemma BIT_POS_mod i : BIT_POS i = i mod 8.
Proof. unfold BIT_POS. change BIT_MSK with (Z.ones 3). by rewrite Z.land_ones. Qed.

Lemma byte_index ba i :
  bitarray_ok ba -> 0 <= i < nr_bits ba -> 0 <= i / 8 < Z.of_nat (length (array ba)).
Proof.
  intros [Hs _] Hi. split; [apply Z.div_pos; lia|]. apply Z.div_lt_upper_bound; lia.
Qed.

Lemma byte_at ba i :
  bitarray_ok ba -> 0 <= i < nr_bits ba -> exists b,
    rd (array ba) (i / 8) = Ok b /\ array ba !! Z.to_nat (i / 8) = Some b /\
    nth (Z.to_nat (i / 8)) (array ba) 0 = b /\ 0 <= b < 256.
Proof.
  intros Hok Hi. pose proof (byte_index _ _ Hok Hi) as Hb.
  destruct (rd_in_bounds (array ba) (i / 8) Hb) as (b & Hr & Hl). exists b.
  split; [done|]. split; [done|]. split; [by apply nth_lookup_Some|].
  destruct Hok as [_ Hf]. by apply (proj1 (Forall_lookup _ _) Hf _ _ Hl).
Qed.

(** Setting a bit of a byte. *)
Lemma byte_or b k :
  0 <= b < 256 -> 0 <= k < 8 ->
  0 <= Z.lor b (Z.shiftl 1 k) < 256 /\
  uchar (Z.lor b (Z.shiftl 1 k)) = Z.lor b (Z.shiftl 1 k).
Proof.
  intros Hb Hk. assert (H : 0 <= Z.lor b (Z.shiftl 1 k) < 256).
  { assert (E : Z.lor b (Z.shiftl 1 k) = Z.lor b (Z.shiftl 1 k) mod 2 ^ 8).
    { rewrite <- Z.land_ones, Z.land_lor_distr_l, !Z.land_ones by lia.
      rewrite Z.mod_small by lia. f_equal. rewrite Z.shiftl_1_l, Z.mod_small; [done|].
      split; [by apply Z.pow_nonneg|]. apply Z.pow_lt_mono_r; lia. }
    rewrite E. by apply Z.mod_pos_bound. }
  split; [done|]. by apply uwrap_small.
Qed.

Lemma test_bit_mask b k :
  0 <= k -> (if Z.land b (Z.shiftl 1 k) =? 0 then 0 else 1) = Z.b2z (Z.testbit b k).
Proof.
  intros Hk. rewrite Z.shiftl_1_l. destruct (Z.testbit b k) eqn:E.
  - destruct (Z.eqb_spec (Z.land b (2 ^ k)) 0) as [E0|]; [|done].
    apply (f_equal (fun z => Z.testbit z k)) in E0.
    rewrite Z.land_spec, E, Z.pow2_bits_true, Z.bits_0 in E0 by done. done.
  - destruct (Z.eqb_spec (Z.land b (2 ^ k)) 0) as [|E0]; [done|]. destruct E0.
    apply Z.bits_inj'. intros n Hn. rewrite Z.land_spec, Z.bits_0, Z.pow2_bits_eqb by done.
    destruct (Z.eqb_spec k n) as [<-|]; [by rewrite E|]. apply andb_false_r.
Qed.

(** ** Set and get *)

Lemma get_bit ba i :
  bitarray_ok ba -> 0 <= i < nr_bits ba -> bitarray_get ba i = Ok (Z.b2z (bit_of ba i)).
Proof.
  intros Hok Hi. unfold bitarray_get. rewrite (proj2 (Z.ltb_ge _ _)) by lia.
  rewrite BIT_IDX_div, BIT_POS_mod. destruct (byte_at _ _ Hok Hi) as (b & -> & _ & Eb & _).
  rewrite bind_Ok, test_bit_mask by (apply Z.mod_pos_bound; lia). unfold bit_of. by rewrite Eb.
Qed.

Lemma set_bit ba i :
  bitarray_ok ba -> 0 <= i < nr_bits ba -> exists ba',
    bitarray_set ba i = Ok (0, ba') /\ bitarray_ok ba' /\ nr_bits ba' = nr_bits ba /\
    forall j, 0 <= j -> bit_of ba' j = bool_decide (j = i) || bit_of ba j.
Proof.
  intros Hok Hi. unfold bitarray_set. rewrite (proj2 (Z.ltb_ge _ _)) by lia.
  rewrite BIT_IDX_div, BIT_POS_mod. pose proof (byte_index _ _ Hok Hi) as Hix.
  pose proof (Z.mod_pos_bound i 8 ltac:(lia)) as Hm.
  destruct (byte_at _ _ Hok Hi) as (b & -> & Hl & Eb & Hb). rewrite bind_Ok.
  destruct (byte_or b (i mod 8) Hb Hm) as [Hb' ->]. rewrite wr_Ok, bind_Ok by done.
  eexists. split; [reflexivity|]. split; [|split; [done|]].
  - destruct Hok as [Hs Hf]. constructor; cbn; [by rewrite length_insert|]. by apply Forall_insert.
  - intros j Hj. unfold bit_of. cbn [array].
    destruct (decide (Z.to_nat (j / 8) = Z.to_nat (i / 8))) as [E|Hne].
    + rewrite E, Eb. assert (Hlt : (Z.to_nat (i / 8) < length (array ba))%nat) by lia.
      rewrite (nth_lookup_Some _ _ _ _ (list_lookup_insert_eq _ _ _ Hlt)).
      rewrite Z.lor_spec, Z.shiftl_1_l, Z.pow2_bits_eqb, orb_comm by lia. f_equal.
      pose proof (Z.div_mod j 8 ltac:(lia)). pose proof (Z.div_mod i 8 ltac:(lia)).
      pose proof (Z.div_pos j 8 Hj ltac:(lia)).
      destruct (Z.eqb_spec (i mod 8) (j mod 8)); case_bool_decide; try done; exfalso; subst; lia.
    + rewrite bool_decide_false by (intros ->; done). cbn [orb].
      f_equal. rewrite !nth_lookup. by rewrite list_lookup_insert_ne.
Qed.

(** C31. Set and get, on every index. Inside the array the bit that was set reads as 1
    and every other bit as before; an index beyond [nr_bits] is refused; but the
    index [nr_bits] itself passes the check, and is outside the array. *)
Theorem bitarray_set_get ba i j :
  bitarray_ok ba -> 0 <= j < nr_bits ba ->
  (0 <= i < nr_bits ba -> exists ba', bitarray_set ba i = Ok (0, ba') /\ bitarray_ok ba' /\
     bitarray_get ba' j = if decide (j = i) then Ok 1 else bitarray_get ba j) /\
  (nr_bits ba < i -> bitarray_set ba i = Ok (- EINVAL, ba) /\ bitarray_get ba i = Ok (- EINVAL)) /\
  (i < 0 \/ i = nr_bits ba -> bitarray_set ba i = Undef /\ bitarray_get ba i = Undef).
Proof.
  intros Hok Hj. split; [|split].
  - intros Hi. destruct (set_bit ba i Hok Hi) as (ba' & E & Hok' & Hn & Hbits).
    exists ba'. split; [done|]. split; [done|]. rewrite !get_bit, Hbits by (done || lia).
    case_decide; [by rewrite bool_decide_true by done|by rewrite bool_decide_false by done].
  - intros Hi. unfold bitarray_set, bitarray_get. by rewrite (proj2 (Z.ltb_lt _ _)) by lia.
  - intros Hi. unfold bitarray_set, bitarray_get. rewrite (proj2 (Z.ltb_ge _ _)) by lia.
    rewrite BIT_IDX_div. assert (E : rd (array ba) (i / 8) = Undef); [|by rewrite E].
    pose proof (bo_size _ Hok). apply rd_out. destruct Hi as [Hi| ->].
    + left. apply Z.div_lt_upper_bound; lia.
    + right. apply Z.div_le_lower_bound; lia.
Qed.

(** ** The shift *)

Lemma rd_cases {A} (l : list A) i : rd l i = Undef \/ exists x, rd l i = Ok x.
Proof. unfold rd. destruct (0 <=? i); [|by left]. destruct (l !! _); [right; by eexists|by left]. Qed.

Lemma shift_right_loop_out rounds i rest a :
  i + Z.of_nat (S rounds) = Z.of_nat (length a) -> shift_right_loop (S rounds) i rest a = Undef.
Proof.
  revert i a. induction rounds as [|rounds IH]; intros i a Hi.
  - cbn [shift_right_loop]. by rewrite (rd_out a (i + 1)) by lia.
  - remember (S rounds) as r. cbn [shift_right_loop]. destruct (rd_cases a (i + 1)) as [->|[b1 ->]]; [done|]. rewrite bind_Ok.
    destruct (rd_cases a i) as [->|[b ->]]; [done|]. rewrite bind_Ok.
    unfold wr. destruct (in_bounds a i); [|done]. rewrite bind_Ok. apply IH.
    rewrite length_insert. lia.
Qed.

Lemma shift_left_loop_out rounds rest a :
  shift_left_loop (S rounds) (Z.of_nat rounds) rest a = Undef.
Proof.
  revert a. induction rounds as [|rounds IH]; intros a.
  - cbn [shift_left_loop]. by rewrite (rd_out a (Z.of_nat 0 - 1)) by lia.
  - remember (S rounds) as r eqn:Er. cbn [shift_left_loop]. rewrite Er.
    destruct (rd_cases a (Z.of_nat (S rounds) - 1)) as [->|[b1 ->]]; [done|]. rewrite bind_Ok.
    destruct (rd_cases a (Z.of_nat (S rounds))) as [->|[b ->]]; [done|]. rewrite bind_Ok.
    unfold wr. destruct (in_bounds _ _); [|done]. rewrite bind_Ok.
    replace (Z.of_nat (S rounds) - 1) with (Z.of_nat rounds) by lia. rewrite <- Er. apply IH.
Qed.

Lemma memset0_all a : memset0 a 0 (Z.of_nat (length a)) = Ok (replicate (length a) 0).
Proof.
  unfold memset0. rewrite ub_unless_true by (rewrite !andb_true_iff, !Z.leb_le; lia).
  by rewrite Nat2Z.id, Z.add_0_l, Nat2Z.id, drop_all, app_nil_r.
Qed.

Lemma bitarray_shift_eq ba dir bits :
  bitarray_ok ba ->
  bitarray_shift ba dir bits =
  if nr_bits ba / 8 <=? bits then Ok (BitArray (nr_bits ba) (replicate (length (array ba)) 0))
  else Undef.
Proof.
  intros [Hs _]. unfold bitarray_shift, BITARRAY_WORD_WIDTH. rewrite !BIT_IDX_div.
  assert (E : nr_bits ba / 8 = Z.of_nat (length (array ba))).
  { rewrite Hs, Z.mul_comm. by rewrite Z.div_mul by lia. }
  rewrite E. set (n := length (array ba)). case_Z; [by rewrite memset0_all|].
  set (sw := if _ <? _ then _ else _). assert (Hsw : sw < Z.of_nat n).
  { subst sw. case_Z; [|]; pose proof (Z.div_mod bits 8 ltac:(lia));
      pose proof (Z.mod_pos_bound bits 8 ltac:(lia)); lia. }
  destruct (Z.to_nat (Z.of_nat n - sw)) as [|r] eqn:Er; [lia|]. destruct (dir =? 1).
  - by rewrite shift_right_loop_out by (fold n; lia).
  - replace (Z.of_nat n - sw - 1) with (Z.of_nat r) by lia. by rewrite shift_left_loop_out.
Qed.

(** The test that is meant for shifts by the whole array compares bits with bytes: a
    shift by at least [nr_bits / 8] bits clears everything, and any smaller one, in
    either direction, reads outside the array. *)
Theorem bitarray_shift_clears ba dir bits :
  bitarray_ok ba ->
  bitarray_shift ba dir bits =
  if nr_bits ba / 8 <=? bits then Ok (BitArray (nr_bits ba) (replicate (length (array ba)) 0))
  else Undef.
Proof. apply bitarray_shift_eq. Qed.

(** ** The self test passes *)

Lemma print_bytes_spec rounds ba :
  (rounds <= length (array ba))%nat ->
  print_bytes rounds ba = Ok (rev (take rounds (array ba))).
Proof.
  induction rounds as [|i IH]; intros Hr; cbn [print_bytes]; [done|].
  destruct (lookup_lt_is_Some_2 (array ba) i) as [b Hb]; [lia|].
  rewrite (rd_nat _ _ _ Hb), bind_Ok, IH, bind_Ok by lia.
  by rewrite (take_S_r _ _ _ Hb), rev_app_distr.
Qed.

Lemma bitarray_print_spec ba :
  bitarray_ok ba -> bitarray_print ba = Ok (rev (array ba)).
Proof.
  intros [Hs _]. unfold bitarray_print, BITARRAY_WORD_WIDTH. rewrite BIT_IDX_div, Hs.
  rewrite Z.mul_comm, Z.div_mul, Nat2Z.id by lia. by rewrite print_bytes_spec, firstn_all by lia.
Qed.

(** The bit [random] asks for. *)
Definition asked (rnd : nat -> Z) (bit : nat) : bool := negb (Z.land (rnd bit) 1 =? 0).

Lemma test_loop_spec rounds rnd bit ba :
  bitarray_ok ba -> nr_bits ba = Z.of_nat (bit + rounds) ->
  (forall j, (bit <= j)%nat -> bit_of ba (Z.of_nat j) = false) ->
  exists ba', test_loop rounds rnd bit ba = Ok (Some ba') /\ bitarray_ok ba' /\
    nr_bits ba' = nr_bits ba /\
    forall j, (j < bit + rounds)%nat -> bit_of ba' (Z.of_nat j) =
      if decide (j < bit)%nat then bit_of ba (Z.of_nat j) else asked rnd j.
Proof.
  revert bit ba. induction rounds as [|rounds IH]; intros bit ba Hok Hn Hz; cbn [test_loop].
  { exists ba. split; [done|]. split; [done|]. split; [done|]. intros j Hj.
    by rewrite decide_True by lia. }
  assert (Step : forall ba1, bitarray_ok ba1 -> nr_bits ba1 = nr_bits ba ->
    (forall j, 0 <= j -> bit_of ba1 j =
       (asked rnd bit && bool_decide (j = Z.of_nat bit)) || bit_of ba j) ->
    exists ba', (rc ← bitarray_get ba1 (Z.of_nat bit);
      if rc <? 0 then Ok None
      else if negb ((if asked rnd bit then 1 else 0) =? rc) then Ok None
      else test_loop rounds rnd (S bit) ba1) = Ok (Some ba') /\ bitarray_ok ba' /\
      nr_bits ba' = nr_bits ba /\
      forall j, (j < bit + S rounds)%nat -> bit_of ba' (Z.of_nat j) =
        if decide (j < bit)%nat then bit_of ba (Z.of_nat j) else asked rnd j).
  { intros ba1 Hok1 Hn1 Hb1.
    assert (Eb : bit_of ba1 (Z.of_nat bit) = asked rnd bit).
    { rewrite Hb1, Hz, bool_decide_true by (done || lia). by rewrite andb_true_r, orb_false_r. }
    rewrite get_bit, bind_Ok, Eb by (done || lia).
    replace (negb _) with false by by destruct (asked rnd bit).
    replace (_ <? 0) with false by by destruct (asked rnd bit).
    destruct (IH (S bit) ba1 Hok1) as (ba' & -> & Hok' & Hn' & Hb'); [lia| |].
    - intros j Hj. rewrite Hb1, Hz, bool_decide_false by lia. by rewrite andb_false_r.
    - exists ba'. split; [done|]. split; [done|]. split; [by rewrite Hn'|]. intros j Hj.
      rewrite Hb' by lia. repeat case_decide; try lia; try done.
      + rewrite Hb1, bool_decide_false by lia. by rewrite andb_false_r.
      + by replace j with bit by lia. }
  fold (asked rnd bit). destruct (asked rnd bit) eqn:Ea.
  - destruct (set_bit ba (Z.of_nat bit) Hok ltac:(lia)) as (ba1 & -> & Hok1 & Hn1 & Hb1).
    rewrite bind_Ok. cbn [Z.ltb Z.compare]. by apply Step.
  - rewrite bind_Ok. cbn [Z.ltb Z.compare]. by apply Step.
Qed.

(** The test program passes for all random numbers: it prints the array with exactly
    the bits that were asked for, and, after the shift by 128, zeros. *)
Theorem bitarray_test_passes rnd :
  exists ba, main true rnd = Ok (Passed (rev (array ba)) (replicate 16 0)) /\
    length (array ba) = 16%nat /\
    forall i, (i < 128)%nat -> bit_of ba (Z.of_nat i) = asked rnd i.
Proof.
  set (ba0 := BitArray 128 (replicate 16 0)).
  assert (Hok0 : bitarray_ok ba0) by (constructor; [reflexivity|by repeat constructor]).
  destruct (test_loop_spec 128 rnd 0 ba0 Hok0 eq_refl) as (ba & E & Hok & Hn & Hb).
  { intros j _. unfold bit_of. replace (nth _ (array ba0) 0) with 0; [apply Z.bits_0|].
    unfold ba0, array. rewrite nth_lookup.
    destruct (replicate 16 0 !! _) as [x|] eqn:Ex; [|done]. by apply lookup_replicate in Ex as [-> _]. }
  assert (Hl : length (array ba) = 16%nat).
  { pose proof (bo_size _ Hok) as Hs. rewrite Hn in Hs. cbn [ba0 nr_bits] in Hs. lia. }
  exists ba. split; [|split; [done|by apply Hb]]. unfold main.
  change (bitarray_create true BSIZE) with (Ok (Some ba0)). rewrite bind_Ok.
  change (Z.to_nat BSIZE) with 128%nat. rewrite E, bind_Ok, bitarray_print_spec, bind_Ok by done.
  rewrite bitarray_shift_eq by done. rewrite Hn, Hl. change (nr_bits ba0 / 8 <=? 128) with true. cbv iota. rewrite bind_Ok.
  by rewrite bitarray_print_spec by (constructor; [reflexivity|by repeat constructor]).
Qed.

Definition two_bytes : bitarray := BitArray 16 [5; 0].

Lemma two_bytes_ok : bitarray_ok two_bytes.
Proof. constructor; [reflexivity|]. by repeat constructor. Qed.

Lemma bitarray_set_get_witness :
  exists ba', bitarray_set two_bytes 9 = Ok (0, ba') /\ bitarray_get ba' 9 = Ok 1 /\
    bitarray_set two_bytes 16 = Undef.
Proof.
  destruct (bitarray_set_get two_bytes 9 9 two_bytes_ok) as [H _]; [split; reflexivity || discriminate|].
  destruct H as (ba' & E & _ & G); [split; reflexivity || discriminate|].
  exists ba'. split; [exact E|]. split; [exact G|].
  destruct (bitarray_set_get two_bytes 16 0 two_bytes_ok) as (_ & _ & H); [split; reflexivity || discriminate|].
  apply H. right. reflexivity.
Defined.

Lemma bitarray_shift_clears_witness :
  bitarray_shift two_bytes 0 2 = Ok (BitArray 16 [0; 0]) /\ bitarray_shift two_bytes 1 1 = Undef.
Proof.
  split; [exact (bitarray_shift_clears two_bytes 0 2 two_bytes_ok)|].
  exact (bitarray_shift_clears two_bytes 1 1 two_bytes_ok).
Defined.
