(* ===== verification/Pci.v ===== *)
(** * Reading and writing PCI configuration registers: src/pci_config_rw.c

    The register file is a file of bytes with a position; the two functions seek and
    transfer one little-endian 32-bit word. The file may end inside or before the
    word, which the program does not notice. *)
From stdpp Require Import base list strings.
From Stdlib Require Import ZArith Lia Ascii.
From S2P Require Import Prelude Stdio.

Open Scope Z_scope.

(** ** The file and the object in memory *)

Record dev : Type := Dev { d_bytes : list Z; d_pos : Z }.

(** The four bytes of a [uint32_t] object, each perhaps indeterminate. *)
Abbreviation word := (list (option Z)).

(** The value of the object, when all of it has been stored. *)
Definition value (w : word) : res Z :=
  match w with
  | [Some a; Some b; Some c; Some d] => Ok (le_value [a; b; c; d])
  | _ => Undef
  end.

Definition stored (v : Z) : word := Some <$> le_bytes v.

Definition lseek (d : dev) (off : Z) : dev := Dev (d_bytes d) off.

(** [read(fd, w, 4)]: as many bytes as there are, which overwrite the first ones;
    [err] says whether the call fails. *)
Definition read (err : bool) (d : dev) (w : word) : Z * word * dev :=
  if err then (-1, w, d)
  else
    let bs := take 4 (drop (Z.to_nat (d_pos d)) (d_bytes d)) in
    (Z.of_nat (length bs), (Some <$> bs) ++ drop (length bs) w,
     Dev (d_bytes d) (d_pos d + Z.of_nat (length bs))).

(** [write(fd, bs, 4)], in the file or at its end; a gap is filled with zeros. *)
Definition write (err : bool) (d : dev) (bs : list Z) : Z * dev :=
  if err then (-1, d)
  else
    let p := Z.to_nat (d_pos d) in
    let old := d_bytes d ++ replicate (p - length (d_bytes d)) 0 in
    (Z.of_nat (length bs),
     Dev (take p old ++ bs ++ drop (p + length bs) old) (d_pos d + Z.of_nat (length bs))).

(** ** The program *)

Definition pci_config_read_dword (err : bool) (d : dev) (reg : Z) (val : word)
    : res (Z * word * dev) :=
  off ← shl_int reg 2;
  Ok (read err (lseek d off) val).

Definition pci_config_write_dword (err : bool) (d : dev) (reg val : Z) : res (Z * dev) :=
  off ← shl_int reg 2;
  Ok (write err (lseek d off) (le_bytes val)).

(** [%x]: an optional sign, an optional 0x, and digits; [None] when there are none. A
    value that does not fit is undefined. *)
Definition scan_hex (l : list ascii) : res (option Z) :=
  let '(neg, l) := match skip_space l with
    | c :: l' => if bool_decide (c = minus_sign) then (true, l')
                 else if bool_decide (c = plus_sign) then (false, l') else (false, c :: l')
    | [] => (false, [])
    end in
  let l := match l with
    | z :: x :: l' =>
        if bool_decide (z = "0"%char) && (bool_decide (x = "x"%char) || bool_decide (x = "X"%char))
        then l' else l
    | _ => l
    end in
  match (split_while (is_digit 16) l).1 with
  | [] => Ok None
  | ds => let v := digits_val 16 ds in
          ub_unless (in_uint v) (Ok (Some (uwrap 32 (if neg : bool then - v else v))))
  end.

(** What [main] prints and returns. *)
Inductive outcome : Type :=
| Usage
| Printed (lines : list (Z * Z)) (ret : Z).

(** [args] are the arguments after the program's name; [file] is the opened file, if
    [open] succeeds; the errors are those of the three transfers. *)
Definition main (args : list (list ascii)) (file : option (list Z)) (e1 e2 e3 : bool)
    : res (outcome * list Z) :=
  match args with
  | rw :: _ :: sreg :: sval :: _ =>
      read_write ← rd (rw ++ [NUL]) 0;
      match file with
      | None => Ok (Printed [] 1, [])
      | Some bytes =>
          '(_, regs) ← sscanf sreg [DDec];
          match regs with
          | [VInt reg] =>
              '(ret, val, d) ← pci_config_read_dword e1 (Dev bytes 0) reg [None; None; None; None];
              if ret <? 0 then Ok (Printed [] (-1), d_bytes d)
              else
                v1 ← value val;
                '(ret, val, d) ← (if bool_decide (read_write = "w"%char) then
                    h ← scan_hex sval;
                    let v := default v1 h in
                    '(ret, d) ← pci_config_write_dword e2 d reg v;
                    Ok (ret, stored v, d)
                  else Ok (0, val, d));
                if ret <? 0 then Ok (Printed [(reg, v1)] (-2), d_bytes d)
                else
                  '(ret, val, d) ← pci_config_read_dword e3 d reg val;
                  if ret <? 0 then Ok (Printed [(reg, v1)] (-1), d_bytes d)
                  else v2 ← value val; Ok (Printed [(reg, v1); (reg, v2)] 0, d_bytes d)
          | _ => Undef                                  (* reg was never set *)
          end
      end
  | _ => Ok (Usage, default [] file)
  end.

(** ** Words *)

Lemma le_value_bytes v : 0 <= v < 2 ^ 32 -> le_value (le_bytes v) = v.
Proof. intros Hv. unfold le_value, le_bytes. cbn [foldr]. Z.div_mod_to_equations. lia. Qed.

Lemma value_full bs : length bs = 4%nat -> value (Some <$> bs) = Ok (le_value bs).
Proof. by destruct bs as [|a [|b [|c [|d [|]]]]]. Qed.

(** The dword of a register. *)
Definition dword (bytes : list Z) (reg : Z) : list Z := take 4 (drop (Z.to_nat (reg * 4)) bytes).

Definition set_dword (bytes : list Z) (reg v : Z) : list Z :=
  take (Z.to_nat (reg * 4)) bytes ++ le_bytes v ++ drop (Z.to_nat (reg * 4) + 4) bytes.

(** The register lies inside the file, and its offset fits an [int]. *)
Definition reg_ok (bytes : list Z) (reg : Z) : Prop :=
  0 <= reg /\ reg * 4 + 4 <= Z.of_nat (length bytes) /\ reg * 4 <= INT_MAX.

Lemma dword_length bytes reg : reg_ok bytes reg -> length (dword bytes reg) = 4%nat.
Proof. intros (H1 & H2 & _). unfold dword. rewrite length_take, length_drop. lia. Qed.

Lemma set_dword_length bytes reg v :
  reg_ok bytes reg -> length (set_dword bytes reg v) = length bytes.
Proof.
  intros (H1 & H2 & _). unfold set_dword. rewrite !length_app, length_take, length_drop. cbn. lia.
Qed.

Lemma dword_set bytes reg v :
  reg_ok bytes reg -> dword (set_dword bytes reg v) reg = le_bytes v.
Proof.
  intros (H1 & H2 & _). unfold dword, set_dword.
  rewrite drop_app_length' by (rewrite length_take; lia). by rewrite take_app_length'.
Qed.

Lemma dword_set_other bytes reg reg' v :
  reg_ok bytes reg -> 0 <= reg' -> reg' <> reg -> dword (set_dword bytes reg v) reg' = dword bytes reg'.
Proof.
  intros (H1 & H2 & _) H3 Hne. apply list_eq. intros i. unfold dword, set_dword.
  destruct (decide (i < 4)%nat) as [Hi|Hi]; [|by rewrite !lookup_take_ge by lia].
  rewrite !lookup_take_lt, !lookup_drop by done.
  destruct (decide (reg' < reg)).
  - rewrite lookup_app_l, lookup_take_lt by (rewrite ?length_take; lia). done.
  - rewrite lookup_app_r by (rewrite length_take; lia). rewrite length_take, Nat.min_l by lia.
    rewrite lookup_app_r by (cbn; lia). rewrite lookup_drop. f_equal. cbn. lia.
Qed.

Lemma read_dword_ok bytes p reg val :
  reg_ok bytes reg -> length val = 4%nat ->
  pci_config_read_dword false (Dev bytes p) reg val =
  Ok (4, Some <$> dword bytes reg, Dev bytes (reg * 4 + 4)).
Proof.
  intros Hr Hl. pose proof Hr as (H1 & H2 & H3). unfold pci_config_read_dword.
  rewrite shl_int_Ok, bind_Ok by (change (2 ^ 2) with 4; lia). unfold read, lseek.
  cbn [d_bytes d_pos]. change (2 ^ 2) with 4. fold (dword bytes reg). rewrite dword_length by done.
  rewrite drop_ge by lia. by rewrite app_nil_r.
Qed.

Lemma write_dword_ok bytes p reg v :
  reg_ok bytes reg ->
  pci_config_write_dword false (Dev bytes p) reg v =
  Ok (4, Dev (set_dword bytes reg v) (reg * 4 + 4)).
Proof.
  intros (H1 & H2 & H3). unfold pci_config_write_dword.
  rewrite shl_int_Ok, bind_Ok by (change (2 ^ 2) with 4; lia). unfold write, lseek.
  cbn [d_bytes d_pos]. change (2 ^ 2) with 4.
  replace (Z.to_nat (reg * 4) - length bytes)%nat with 0%nat by lia.
  cbn [replicate]. rewrite app_nil_r. done.
Qed.

(** What is written is read back, and no other register changes. *)
Lemma write_read_dword bytes p reg v val reg' :
  reg_ok bytes reg -> 0 <= v < 2 ^ 32 -> length val = 4%nat ->
  exists d, pci_config_write_dword false (Dev bytes p) reg v = Ok (4, d) /\
    (val' ← (r ← pci_config_read_dword false d reg val; Ok r.1.2); value val') = Ok v /\
    (0 <= reg' -> reg' <> reg -> dword (d_bytes d) reg' = dword bytes reg').
Proof.
  intros Hr Hv Hl. eexists. split; [by apply write_dword_ok|]. split.
  - assert (Hr' : reg_ok (set_dword bytes reg v) reg).
    { destruct Hr as (H1 & H2 & H3). split; [done|]. by rewrite set_dword_length. }
    rewrite read_dword_ok, !bind_Ok by done. cbn [fst snd]. rewrite dword_set by done.
    by rewrite value_full, le_value_bytes by done.
  - intros. by apply dword_set_other.
Qed.

(** ** The command line *)

Lemma scan_hex_print v : 0 <= v < 2 ^ 32 -> scan_hex (print_radix 16 1 v) = Ok (Some v).
Proof.
  intros Hv. unfold scan_hex. rewrite <- (app_nil_r (print_radix 16 1 v)).
  rewrite skip_space_id by (by apply print_radix_word). rewrite app_nil_r.
  pose proof (print_radix_digits 16 1 v ltac:(lia)) as Hd.
  pose proof (print_radix_val 16 1 v ltac:(lia) ltac:(lia)) as Ev.
  pose proof (print_radix_nonempty 16 1 v) as Hne.
  destruct (print_radix 16 1 v) as [|c l] eqn:El; [done|].
  pose proof (proj1 (proj1 (Forall_cons _ _ _) Hd)) as Hc.
  rewrite !(bool_decide_false (c = _)) by (intros ->; by vm_compute in Hc).
  assert (Hx : match c :: l with
    | z :: x :: l' =>
        if bool_decide (z = "0"%char) && (bool_decide (x = "x"%char) || bool_decide (x = "X"%char))
        then l' else c :: l
    | _ => c :: l
    end = c :: l).
  { destruct l as [|x l]; [done|]. apply Forall_cons in Hd as [_ [Hd _]%Forall_cons].
    rewrite !(bool_decide_false (x = _)) by (intros ->; by vm_compute in Hd).
    by rewrite andb_false_r. }
  rewrite Hx, split_while_all by done. cbn [fst]. rewrite Ev.
  unfold in_uint. rewrite (proj2 (Z.leb_le _ _)), (proj2 (Z.ltb_lt _ _)) by lia. cbn [andb ub_unless].
  by rewrite uwrap_small by lia.
Qed.

(** C32. From the command line: [pci_config_rw w file reg val] prints the register before
    and after, stores the value in that register and in no other; with any other
    first letter it prints the register twice and leaves the file alone. *)
Theorem pci_config_rw_correct c rw name reg v bytes rest :
  reg_ok bytes reg -> 0 <= v < 2 ^ 32 -> Forall (fun b => 0 <= b < 256) bytes ->
  let args := (c :: rw) :: name :: print_radix 10 1 reg :: print_radix 16 1 v :: rest in
  let old := le_value (dword bytes reg) in
  exists bytes', main args (Some bytes) false false false =
    Ok (Printed [(reg, old); (reg, if decide (c = "w"%char) then v else old)] 0, bytes') /\
    length bytes' = length bytes /\
    forall reg', 0 <= reg' -> dword bytes' reg' =
      if decide (c = "w"%char /\ reg' = reg) then le_bytes v else dword bytes reg'.
Proof.
  intros Hr Hv Hb args old. unfold main, args. pose proof Hr as (H1 & H2 & H3).
  cbn [app]. rewrite (rd_nat _ 0 c), bind_Ok by done. cbv iota.
  assert (Es : sscanf (print_radix 10 1 reg) [DDec] = Ok (1, [VInt reg])).
  { unfold sscanf. rewrite <- (app_nil_r (print_radix 10 1 reg)) at 2. unfold INT_MAX in H3.
    by rewrite sscanf_dec by (try (by left); unfold INT_MAX; lia). }
  rewrite Es, bind_Ok, read_dword_ok, bind_Ok by done. cbn [Z.ltb Z.compare].
  rewrite value_full, bind_Ok by (by apply dword_length). fold old.
  destruct (decide (c = "w"%char)) as [->|Hc].
  - rewrite bool_decide_true, scan_hex_print, bind_Ok by done. cbn [default].
    rewrite write_dword_ok, !bind_Ok by done. cbn [Z.ltb Z.compare].
    assert (Hr' : reg_ok (set_dword bytes reg v) reg) by (split; [|rewrite set_dword_length]; done).
    rewrite read_dword_ok, bind_Ok by done. cbn [Z.ltb Z.compare].
    rewrite value_full, bind_Ok, dword_set, le_value_bytes by (done || by apply dword_length).
    eexists. split; [reflexivity|]. split; [by apply set_dword_length|]. intros reg' Hreg.
    case_decide as D; [destruct D as [_ ->]; by apply dword_set|].
    apply dword_set_other; naive_solver.
  - rewrite bool_decide_false, bind_Ok by done. cbn [Z.ltb Z.compare].
    rewrite read_dword_ok, bind_Ok by (done || by rewrite length_fmap, dword_length).
    cbn [Z.ltb Z.compare]. rewrite value_full, bind_Ok by (by apply dword_length).
    exists bytes. split; [done|]. split; [done|]. intros reg' _. by rewrite decide_False by naive_solver.
Qed.

Lemma pci_config_rw_correct_witness :
  exists bytes', main [chars "w"; chars "/config"; chars "1"; chars "BEEF"]
    (Some [1; 2; 3; 4; 5; 6; 7; 8; 9]) false false false =
    Ok (Printed [(1, 0x08070605); (1, 0xBEEF)] 0, bytes').
Proof.
  destruct (pci_config_rw_correct "w" [] (chars "/config") 1 0xBEEF [1; 2; 3; 4; 5; 6; 7; 8; 9] [])
    as (bytes' & E & _).
  - unfold reg_ok, INT_MAX. cbn. lia.
  - lia.
  - repeat (apply Forall_cons_2; [lia|]). constructor.
  - exists bytes'. exact E.
Defined.

(** Past the end of the file [read] returns 0, which is not an error, and the program
    prints an object that was never stored. *)
Theorem past_the_end bytes reg name sval rw rest :
  0 <= reg -> Z.of_nat (length bytes) <= reg * 4 <= INT_MAX ->
  main (rw :: name :: print_radix 10 1 reg :: sval :: rest) (Some bytes) false false false = Undef.
Proof.
  intros H1 H2. unfold main. destruct (rd_in_bounds (rw ++ [NUL]) 0) as (c & -> & _).
  { rewrite length_app. cbn. lia. }
  rewrite bind_Ok.
  assert (Es : sscanf (print_radix 10 1 reg) [DDec] = Ok (1, [VInt reg])).
  { unfold sscanf. rewrite <- (app_nil_r (print_radix 10 1 reg)) at 2. unfold INT_MAX in H2.
    by rewrite sscanf_dec by (try (by left); unfold INT_MAX; lia). }
  rewrite Es, bind_Ok. unfold pci_config_read_dword.
  rewrite shl_int_Ok, !bind_Ok by (change (2 ^ 2) with 4; lia). unfold read, lseek. cbn [d_bytes d_pos].
  rewrite drop_ge by (change (2 ^ 2) with 4; lia). done.
Qed.
