(* ===== verification/RtTask.v ===== *)
(** * Programs bound to processors: src/rt_hydra.c, rt_task.c, run_cpu_affine.c,
    x86tscread.c and ts_task.c

    What each program asks the scheduler for, which processes it leaves running and
    on which processors, and the sleeping loop of rt_task.c, whose two pointers come
    to point to one object. *)
From stdpp Require Import base list gmap strings.
From Stdlib Require Import ZArith Lia Ascii.
From S2P Require Import Prelude Stdio.

Open Scope Z_scope.

(** ** Processor sets *)

Definition CPU_SETSIZE : Z := 1024.

(** [CPU_SET] ignores a number outside the set. *)
Definition CPU_SET (cpu : Z) (mask : gset Z) : gset Z :=
  if (0 <=? cpu) && (cpu <? CPU_SETSIZE) then {[cpu]} ∪ mask else mask.

(** [sscanf(s, "%d", &x)]: without a number [x] keeps its value. *)
Definition scan_int_into (s : list ascii) (x : Z) : res Z := scan_arg (Some x) s.

(** ** rt_hydra.c *)

(** A process that burns processor time: the processors it may use ([None]: all), and
    for how long ([None]: for ever, since [alarm(0)] sets no alarm). *)
Record hog : Type := Hog { hog_cpus : option (gset Z); hog_secs : option Z }.

Definition hog_for (mask : option (gset Z)) (secs : Z) : hog :=
  Hog mask (if secs =? 0 then None else Some secs).

Definition limit_secs (secs : Z) : Z := if (secs <? 0) || (100 <? secs) then 60 else secs.

(** How the first process ends up: it exits, or it becomes a hog itself. *)
Inductive parent : Type :=
| Exited (code : Z)
| Hogs (h : hog).

(** The loop over the processors; [cpus] are the arguments still to be read, the last
    one first. [fork] may fail, which the program takes for being the parent. *)
Fixpoint spawn (setaff : gset Z -> bool) (fork : nat -> bool) (secs : Z) (cpus : list (list ascii))
    (cpu : Z) : res (list hog * parent) :=
  match cpus with
  | [] => Ok ([], Hogs (hog_for None secs))
  | arg :: cpus =>
      cpu ← scan_int_into arg cpu;
      let mask := CPU_SET cpu ∅ in
      if negb (setaff mask) then Ok ([], Exited (-1))
      else
        let child := if fork (length cpus) then [hog_for (Some mask) secs] else [] in
        match cpus with
        | [] => Ok (child, Exited 0)
        | _ :: _ => '(hogs, p) ← spawn setaff fork secs cpus cpu; Ok (child ++ hogs, p)
        end
  end.

(** [args] are the arguments after the program's name: the seconds and the
    processors. *)
Definition rt_hydra_main (setsched : bool) (setaff : gset Z -> bool) (fork : nat -> bool)
    (args : list (list ascii)) : res (list hog * parent) :=
  secs ← match args with [] => Ok 60 | a :: _ => scan_int_into a 60 end;
  if negb setsched then Ok ([], Exited (-1))
  else spawn setaff fork (limit_secs secs) (rev (tail args)) 0.

(** ** rt_task.c *)

(** The two [timespec] objects, and which of them [ts_req] and [ts_rem] point to. *)
Record timespec : Type := Timespec { tv_sec : Z; tv_nsec : Z }.

Record sleeper : Type := Sleeper { objs : list timespec; ts_req : nat; ts_rem : nat }.

(** [nanosleep] either completes, or is interrupted and stores what remained. *)
Inductive slept : Type :=
| Completed
| Interrupted (rest : timespec).

Definition store (p : nat) (v : timespec) (s : sleeper) : sleeper :=
  Sleeper (<[p := v]> (objs s)) (ts_req s) (ts_rem s).

(** The inner loop: the times that were asked for. [outcomes] are those of the
    successive calls; after the last the call completes. *)
Fixpoint sleep_loop (outcomes : list slept) (s : sleeper) : list timespec * sleeper :=
  let asked := match objs s !! ts_req s with Some v => [v] | None => [] end in
  match outcomes with
  | Interrupted rest :: outcomes =>
      let s := store (ts_rem s) rest s in
      if negb (tv_nsec rest =? 0) then
        let '(more, s) := sleep_loop outcomes (Sleeper (objs s) (ts_rem s) (ts_rem s)) in
        (asked ++ more, s)
      else (asked, s)
  | _ => (asked, s)
  end.

Definition request : timespec := Timespec 3 1000000.

(** One round of the main loop, after the burst. *)
Definition sleep_round (outcomes : list slept) (s : sleeper) : list timespec * sleeper :=
  let s := store (ts_req s) request s in
  let s := store (ts_rem s) (Timespec 0 0) s in
  sleep_loop outcomes s.

Fixpoint sleep_rounds (rounds : list (list slept)) (s : sleeper) : list (list timespec) * sleeper :=
  match rounds with
  | [] => ([], s)
  | o :: rounds =>
      let '(asked, s) := sleep_round o s in
      let '(more, s) := sleep_rounds rounds s in (asked :: more, s)
  end.

(** The affinity mask: the processors of all the arguments but the first. *)
Fixpoint all_cpus (cpus : list (list ascii)) (cpu : Z) (mask : gset Z) : res (gset Z) :=
  match cpus with
  | [] => Ok mask
  | arg :: cpus => cpu ← scan_int_into arg cpu; all_cpus cpus cpu (CPU_SET cpu mask)
  end.

Inductive task : Type :=
| TaskExited (code : Z)
| TaskRuns (cpus : gset Z) (secs : Z) (asked : list (list timespec)).

(** The program does not end: it is followed for as many rounds as [rounds] has; the
    contents of the objects from [malloc] are stored before they are read. *)
Definition rt_task_main (setsched : bool) (setaff : gset Z -> bool) (args : list (list ascii))
    (rounds : list (list slept)) : res task :=
  secs ← match args with [] => Ok 60 | a :: _ => scan_int_into a 60 end;
  mask ← all_cpus (rev (tail args)) 0 ∅;
  if negb setsched then Ok (TaskExited (-1))
  else if negb (setaff mask) then Ok (TaskExited (-1))
  else
    let s := Sleeper [Timespec 0 0; Timespec 0 0] 0 1 in
    Ok (TaskRuns mask (limit_secs secs) (sleep_rounds rounds s).1).

(** ** The small ones *)

(** run_cpu_affine.c: the processor is the first character of the first argument; the
    rest is executed, bound or not. [None]: no program was given, and [execvp] gets a
    null pointer. *)
Definition run_cpu_affine_main (setaff : gset Z -> bool) (args : list (list ascii))
    : res (option (gset Z) * option (list (list ascii))) :=
  match args with
  | [] => Undef
  | arg :: prog =>
      c ← rd (arg ++ [NUL]) 0;
      let cpu_id := Z.of_nat (nat_of_ascii c) - 48 in
      let mask := CPU_SET cpu_id ∅ in
      Ok (if setaff mask then Some mask else None, match prog with [] => None | _ => Some prog end)
  end.

(** x86tscread.c: the processor whose counter is printed, and the mask asked for. *)
Definition x86tscread_main (args : list (list ascii)) : res (Z * gset Z) :=
  cpu ← match args with [a] => scan_int_into a 0 | _ => Ok 0 end;
  Ok (cpu, CPU_SET cpu ∅).

(** ts_task.c spins on processor 0 for ever. *)
Definition ts_task_main : hog := Hog (Some (CPU_SET 0 ∅)) None.

(** ** Theorems *)

Lemma scan_int_into_print n x : 0 <= n <= INT_MAX -> scan_int_into (print_radix 10 1 n) x = Ok n.
Proof.
  apply scan_arg_print.
Qed.

Definition cpu_ok (cpu : Z) : Prop := 0 <= cpu < CPU_SETSIZE.

Lemma CPU_SET_ok cpu mask : cpu_ok cpu -> CPU_SET cpu mask = {[cpu]} ∪ mask.
Proof.
  intros [H1 H2]. unfold CPU_SET. by rewrite (proj2 (Z.leb_le _ _)), (proj2 (Z.ltb_lt _ _)) by lia.
Qed.

Lemma spawn_all setaff secs cpus cpu :
  cpus <> [] -> Forall cpu_ok cpus -> Forall (fun c => setaff {[c]} = true) cpus ->
  spawn setaff (fun _ => true) secs (map (print_radix 10 1) cpus) cpu =
  Ok (map (fun c => hog_for (Some {[c]}) secs) cpus, Exited 0).
Proof.
  intros Hne Hc Ha. revert cpu Hne. induction Hc as [|c cpus Hc _ IH]; intros cpu Hne; [done|].
  apply Forall_cons in Ha as [Hs Ha]. cbn [map spawn].
  rewrite scan_int_into_print by (unfold cpu_ok, CPU_SETSIZE, INT_MAX in *; lia).
  rewrite bind_Ok, CPU_SET_ok, (right_id_L ∅ (∪)), Hs by done. cbn [negb].
  destruct cpus as [|c' cpus]; [done|]. cbn [map] in *. by rewrite IH.
Qed.

(** C33. rt_hydra: one child for every processor named, each bound to that processor and
    to no other, each for the number of seconds asked for if that is between 1 and 100,
    for 60 seconds if it is more, and for ever if it is 0, since [alarm(0)] sets no
    alarm; the parent exits with status 0. *)
Theorem rt_hydra_children setaff secs cpus :
  0 <= secs <= INT_MAX -> cpus <> [] -> Forall cpu_ok cpus ->
  Forall (fun c => setaff {[c]} = true) cpus ->
  rt_hydra_main true setaff (fun _ => true) (print_radix 10 1 secs :: map (print_radix 10 1) cpus) =
  Ok (map (fun c => hog_for (Some {[c]}) (limit_secs secs)) (rev cpus), Exited 0).
Proof.
  intros Hs Hne Hc Ha. unfold rt_hydra_main. rewrite scan_int_into_print, bind_Ok by done.
  cbn [negb tail]. rewrite <- map_rev. apply spawn_all.
  - intros E. apply Hne. apply (f_equal (@rev Z)) in E. by rewrite rev_involutive in E.
  - by apply Forall_rev.
  - by apply Forall_rev.
Qed.

Lemma rt_hydra_children_witness :
  rt_hydra_main true (fun _ => true) (fun _ => true) [chars "10"; chars "0"; chars "3"] =
  Ok ([Hog (Some {[3]}) (Some 10); Hog (Some {[0]}) (Some 10)], Exited 0).
Proof.
  apply (rt_hydra_children (fun _ => true) 10 [0; 3]).
  - unfold INT_MAX. lia.
  - discriminate.
  - repeat constructor; unfold CPU_SETSIZE; lia.
  - repeat constructor.
Defined.

(** Only the first digit of the processor counts in run_cpu_affine, and the program
    given is run whether or not it could be bound. *)
Lemma run_cpu_affine_first_digit setaff (d : nat) more prog :
  (d < 10)%nat ->
  run_cpu_affine_main setaff ((ascii_of_nat (48 + d) :: more) :: prog) =
  Ok (if setaff {[Z.of_nat d]} then Some {[Z.of_nat d]} else None,
      match prog with [] => None | _ => Some prog end).
Proof.
  intros Hd. unfold run_cpu_affine_main.
  change (rd ((ascii_of_nat (48 + d) :: more) ++ [NUL]) 0) with (Ok (ascii_of_nat (48 + d))).
  rewrite bind_Ok, nat_ascii_embedding by lia.
  replace (Z.of_nat (48 + d) - 48) with (Z.of_nat d) by lia.
  by rewrite CPU_SET_ok, (right_id_L ∅ (∪)) by (unfold cpu_ok, CPU_SETSIZE; lia).
Qed.

(** x86tscread binds itself to the processor of its only argument, or to the first. *)
Lemma x86tscread_cpu cpu :
  cpu_ok cpu -> x86tscread_main [print_radix 10 1 cpu] = Ok (cpu, {[cpu]}).
Proof.
  intros Hc. unfold x86tscread_main.
  rewrite scan_int_into_print by (unfold cpu_ok, CPU_SETSIZE, INT_MAX in *; lia).
  by rewrite bind_Ok, CPU_SET_ok, (right_id_L ∅ (∪)) by done.
Qed.

(** *** The two pointers of rt_task.c *)

Definition apart (s : sleeper) : Prop := length (objs s) = 2%nat /\ ts_req s = 0%nat /\ ts_rem s = 1%nat.
Definition aliased (s : sleeper) : Prop := length (objs s) = 2%nat /\ ts_req s = 1%nat /\ ts_rem s = 1%nat.

Lemma sleep_loop_aliased outcomes s : aliased s -> aliased (sleep_loop outcomes s).2.
Proof.
  revert s. induction outcomes as [|[|rest] outcomes IH]; intros s Hs; [done..|]. cbn [sleep_loop].
  set (s1 := store _ _ _). assert (H1 : aliased s1).
  { destruct Hs as (H1 & H2 & H3). split; [cbn; by rewrite length_insert|done]. }
  destruct (negb _); [|done].
  specialize (IH (Sleeper (objs s1) (ts_rem s1) (ts_rem s1))).
  destruct (sleep_loop outcomes _) as [more s2]. apply IH. destruct H1 as (H1 & H2 & H3). done.
Qed.

(** Once the pointers are equal, a round asks for no time at all. *)
Lemma sleep_round_aliased outcomes s :
  aliased s -> head (sleep_round outcomes s).1 = Some (Timespec 0 0) /\
  aliased (sleep_round outcomes s).2.
Proof.
  intros (H1 & H2 & H3). unfold sleep_round. set (s2 := store _ _ _).
  assert (Ha : aliased s2) by (split; [cbn; by rewrite !length_insert|done]).
  assert (Hq : objs s2 !! ts_req s2 = Some (Timespec 0 0)).
  { cbn. rewrite H2, H3. apply list_lookup_insert_eq. rewrite length_insert. lia. }
  split; [|by apply sleep_loop_aliased].
  destruct outcomes as [|[|rest] outcomes]; cbn [sleep_loop]; rewrite Hq; try done.
  destruct (negb _); [|done]. by destruct (sleep_loop outcomes _).
Qed.

(** A round that is not interrupted asks for three seconds and a millisecond. *)
Lemma sleep_round_quiet s :
  apart s -> (sleep_round [] s).1 = [request] /\ apart (sleep_round [] s).2.
Proof.
  intros (H1 & H2 & H3). unfold sleep_round. cbn [sleep_loop fst snd store objs ts_req ts_rem].
  rewrite H2, H3. split; [|split; [cbn; by rewrite !length_insert|done]].
  rewrite list_lookup_insert_ne, list_lookup_insert_eq by (done || lia). done.
Qed.

(** A round that is interrupted goes on for what was left, and leaves the pointers
    equal. *)
Lemma sleep_round_interrupted rest outcomes s :
  apart s -> tv_nsec rest <> 0 ->
  (exists more, (sleep_round (Interrupted rest :: outcomes) s).1 = request :: rest :: more) /\
  aliased (sleep_round (Interrupted rest :: outcomes) s).2.
Proof.
  intros (H1 & H2 & H3) Hl. unfold sleep_round. set (s2 := store _ _ _).
  assert (Hq : objs s2 !! ts_req s2 = Some request).
  { cbn. rewrite H2, H3. rewrite list_lookup_insert_ne, list_lookup_insert_eq by (done || lia). done. }
  cbn [sleep_loop]. rewrite Hq, (proj2 (Z.eqb_neq _ _)) by done. cbn [negb].
  set (s3 := Sleeper _ _ _). assert (Ha : aliased s3).
  { split; [cbn; by rewrite !length_insert|by cbn; rewrite H3]. }
  assert (Hq3 : objs s3 !! ts_req s3 = Some rest).
  { cbn. rewrite H3. apply list_lookup_insert_eq. rewrite !length_insert. lia. }
  pose proof (sleep_loop_aliased outcomes s3 Ha) as Hs.
  assert (Hhd : exists more, (sleep_loop outcomes s3).1 = rest :: more).
  { destruct outcomes as [|[|l] outcomes]; cbn [sleep_loop]; rewrite Hq3; [by eexists..|].
    destruct (negb _); [|by eexists]. destruct (sleep_loop outcomes _). by eexists. }
  destruct (sleep_loop outcomes s3) as [more s4]. destruct Hhd as [more' E]. cbn in E. subst more.
  split; [by eexists|exact Hs].
Qed.

Lemma sleep_rounds_quiet k rounds s :
  apart s -> exists s', apart s' /\
    (sleep_rounds (replicate k [] ++ rounds) s).1 = replicate k [request] ++ (sleep_rounds rounds s').1.
Proof.
  revert s. induction k as [|k IH]; intros s Hs; [by exists s|]. cbn [replicate app sleep_rounds].
  destruct (sleep_round_quiet s Hs) as [E Hs']. destruct (sleep_round [] s) as [asked s1].
  cbn in E, Hs'. subst asked. destruct (IH s1 Hs') as (s' & Ha & E). exists s'. split; [done|].
  destruct (sleep_rounds _ s1). cbn in *. by rewrite E.
Qed.

Lemma sleep_rounds_aliased rounds s :
  aliased s -> Forall (fun asked => head asked = Some (Timespec 0 0)) (sleep_rounds rounds s).1.
Proof.
  revert s. induction rounds as [|o rounds IH]; intros s Hs; [done|]. cbn [sleep_rounds].
  destruct (sleep_round_aliased o s Hs) as [E Hs']. destruct (sleep_round o s) as [asked s1].
  specialize (IH s1 Hs'). destruct (sleep_rounds rounds s1). by constructor.
Qed.

(** C34. rt_task sleeps between its bursts until a signal interrupts a sleep; that sleep is
    resumed, but the pointer to the request then points to the remainder, and in
    every later round the request is overwritten by zeros: the task, which runs at
    real-time priority, never sleeps again. *)
Theorem rt_task_sleeps_no_more setaff args mask secs k rest o rounds :
  all_cpus (rev (tail args)) 0 ∅ = Ok mask -> setaff mask = true ->
  match args with [] => Ok 60 | a :: _ => scan_int_into a 60 end = Ok secs -> tv_nsec rest <> 0 ->
  exists first later,
    rt_task_main true setaff args (replicate k [] ++ (Interrupted rest :: o) :: rounds) =
      Ok (TaskRuns mask (limit_secs secs) (replicate k [request] ++ (request :: rest :: first) :: later)) /\
    length later = length rounds /\
    Forall (fun asked => head asked = Some (Timespec 0 0)) later.
Proof.
  intros Hm Ha Hs Hl. unfold rt_task_main. rewrite Hs, bind_Ok, Hm, bind_Ok, Ha. cbn [negb].
  set (s0 := Sleeper _ _ _). assert (H0 : apart s0) by done.
  destruct (sleep_rounds_quiet k ((Interrupted rest :: o) :: rounds) s0 H0) as (s1 & H1 & ->).
  cbn [sleep_rounds].
  destruct (sleep_round_interrupted rest o s1 H1 Hl) as [[first E] H2].
  destruct (sleep_round (Interrupted rest :: o) s1) as [asked s2]. cbn in E, H2. subst asked.
  pose proof (sleep_rounds_aliased rounds s2 H2) as H3.
  assert (Hlen : forall s, length (sleep_rounds rounds s).1 = length rounds).
  { clear. induction rounds as [|o rounds IH]; intros s; [done|]. cbn [sleep_rounds].
    destruct (sleep_round o s) as [a s1]. specialize (IH s1). destruct (sleep_rounds rounds s1).
    cbn in *. by rewrite IH. }
  specialize (Hlen s2). destruct (sleep_rounds rounds s2) as [later s3]. exists first, later. done.
Qed.

Lemma rt_task_sleeps_no_more_witness :
  rt_task_main true (fun _ => true) [chars "5"; chars "1"]
    [[]; [Interrupted (Timespec 1 500)]; []; []] =
  Ok (TaskRuns {[1]} 5 [[request]; [request; Timespec 1 500]; [Timespec 0 0]; [Timespec 0 0]]).
Proof.
  destruct (rt_task_sleeps_no_more (fun _ => true) [chars "5"; chars "1"] {[1]} 5 1
    (Timespec 1 500) [] [[]; []]) as (first & later & E & Hl & Hf).
  - vm_compute. reflexivity.
  - reflexivity.
  - vm_compute. reflexivity.
  - discriminate.
  - cbn [replicate app] in E. vm_compute. reflexivity.
Defined.
