(* ===== verification/LargeMult.v ===== *)
(** * Large number multiplication: src/test_large_mult.c

    A number is an array of decimal digits, the least significant first, in [char]s
    (signed, eight bits). [bignum_print] starts one place past the digits, and [main]
    prints before it computes, so the program as it is has no defined run; what is
    proved is that its arithmetic is right, and what [main] would compute with a
    printing function that stays inside its array. *)
From stdpp Require Import base list.
From Stdlib Require Import ZArith Lia.
From S2P Require Import Prelude.

Open Scope Z_scope.

(** ** The program *)

Abbreviation bignum_t := (list Z).

Definition char_of (z : Z) : Z := swrap 8 z.

(** [ok]: whether [malloc] succeeds; its result goes to [memset] untested. *)
Definition bignum_alloc (ok : bool) (len : Z) : res bignum_t :=
  ub_unless ok (Ok (replicate (Z.to_nat len) 0)).

Definition bignum_len (n : bignum_t) : Z := Z.of_nat (length n).

(** One round of the inner loop of [bignum_mult]; [k] is always [i]. *)
Definition mult_digit (n1 n2 : bignum_t) (i j carry : Z) (r : bignum_t) : res (Z * bignum_t) :=
  a ← rd n2 i;
  b ← rd n1 j;
  l_res ← int_of (a * b + carry);
  d ← rd r (i + j);
  s ← int_of (d + l_res);
  r ← wr r (i + j) (char_of s);
  d ← rd r (i + j);
  let carry := Z.quot d 10 in
  r ← wr r (i + j) (char_of (Z.rem d 10));
  Ok (carry, r).

(** [rounds] rounds from [j] on. *)
Fixpoint mult_inner (rounds : nat) (n1 n2 : bignum_t) (i j carry : Z) (r : bignum_t)
    : res (Z * bignum_t) :=
  match rounds with
  | O => Ok (carry, r)
  | S rounds =>
      '(carry, r) ← mult_digit n1 n2 i j carry r;
      mult_inner rounds n1 n2 i (j + 1) carry r
  end.

Fixpoint mult_outer (rounds : nat) (n1 n2 : bignum_t) (i : Z) (r : bignum_t) : res bignum_t :=
  match rounds with
  | O => Ok r
  | S rounds =>
      '(carry, r) ← mult_inner (length n1) n1 n2 i 0 0 r;
      d ← rd r (i + bignum_len n1);
      s ← int_of (d + carry);
      r ← wr r (i + bignum_len n1) (char_of s);
      mult_outer rounds n1 n2 (i + 1) r
  end.

Definition bignum_mult (ok : bool) (n1 n2 : bignum_t) : res bignum_t :=
  len ← int_of (bignum_len n1 + bignum_len n2 + 1);
  r ← bignum_alloc ok len;
  mult_outer (length n2) n1 n2 0 r.

(** [bignum_set]: the result and the number. The loop runs while [num] is not zero
    and there is room. *)
Fixpoint set_digits (rounds : nat) (i num : Z) (bignum : bignum_t) : res (Z * Z * bignum_t) :=
  match rounds with
  | O => Ok (i, num, bignum)
  | S rounds =>
      if num =? 0 then Ok (i, num, bignum)
      else
        bignum ← wr bignum i (char_of (Z.rem num 10));
        set_digits rounds (i + 1) (Z.quot num 10) bignum
  end.

Fixpoint zero_fill (rounds : nat) (i : Z) (bignum : bignum_t) : res bignum_t :=
  match rounds with
  | O => Ok bignum
  | S rounds => bignum ← wr bignum i 0; zero_fill rounds (i + 1) bignum
  end.

Definition bignum_set (bignum : bignum_t) (num : Z) : res (Z * bignum_t) :=
  '(i, num, bignum) ← set_digits (length bignum) 0 num bignum;
  if negb (num =? 0) then Ok (-1, bignum)
  else
    bignum ← zero_fill (length bignum - Z.to_nat i) i bignum;
    Ok (0, bignum).

(** The digits [bignum_print] prints, from index [len] downwards. *)
Fixpoint print_from (k : nat) (num : bignum_t) : res (list Z) :=
  d ← rd num (Z.of_nat k);
  match k with
  | O => Ok [d]
  | S k => ds ← print_from k num; Ok (d :: ds)
  end.

Definition bignum_print (num : bignum_t) : res (list Z) := print_from (length num) num.

Fixpoint sum_from (l : list Z) (sum_digits : Z) : res Z :=
  match l with
  | [] => Ok sum_digits
  | d :: l => sum_digits ← int_of (sum_digits + d); sum_from l sum_digits
  end.

(** [main], with its printing function as an argument; [al] says which allocations
    succeed. *)
Section Main.
Context (print : bignum_t -> res (list Z)) (al : nat -> bool).

(** The loop over the factors: [num1] holds the factor, [num2] the product so far.
    The results of [bignum_set] are not looked at. *)
Fixpoint factorial_loop (rounds : nat) (i : Z) (num1 num2 : bignum_t) : res bignum_t :=
  match rounds with
  | O => Ok num2
  | S rounds =>
      '(_, num1) ← bignum_set num1 i;
      num3 ← bignum_mult (al (Z.to_nat i + 1)) num1 num2;
      _ ← print num3;
      i ← int_of (i + 1);
      factorial_loop rounds i num1 num3
  end.

(** For [n] in place of 100; the final number and the sum that is printed. *)
Definition main_with (n : nat) : res (bignum_t * Z) :=
  num1 ← bignum_alloc (al 0) 4;
  num2 ← bignum_alloc (al 1) 4;
  '(_, num1) ← bignum_set num1 9999;
  '(_, num2) ← bignum_set num2 8999;
  _ ← print num1;
  _ ← print num2;
  num3 ← bignum_mult (al 2) num1 num2;
  _ ← print num3;
  '(_, num2) ← bignum_set num2 1;
  num2 ← factorial_loop (n - 1) 2 num1 num2;
  sum_digits ← sum_from num2 0;
  Ok (num2, sum_digits).
End Main.

Definition main (al : nat -> bool) : res (bignum_t * Z) := main_with bignum_print al 100.

(** ** Values *)

Fixpoint value (l : list Z) : Z :=
  match l with [] => 0 | d :: l => d + 10 * value l end.

Definition is_dec (d : Z) : Prop := 0 <= d <= 9.

Lemma value_app a b : value (a ++ b) = value a + 10 ^ Z.of_nat (length a) * value b.
Proof.
  induction a as [|d a IH].
  - change (10 ^ Z.of_nat (length (@nil Z))) with 1. cbn [app value]. lia.
  - cbn [app value length]. rewrite IH, Nat2Z.inj_succ, Z.pow_succ_r by lia. lia.
Qed.

Lemma value_insert l (n : nat) x y :
  l !! n = Some y -> value (<[n := x]> l) = value l + (x - y) * 10 ^ Z.of_nat n.
Proof.
  revert n. induction l as [|d l IH]; intros [|n] Hn; try done.
  - injection Hn as ->. change (10 ^ Z.of_nat 0) with 1. cbn. lia.
  - change (<[S n := x]> (d :: l)) with (d :: <[n := x]> l). cbn [value].
    rewrite (IH n Hn), Nat2Z.inj_succ, Z.pow_succ_r by lia. lia.
Qed.

Lemma value_zeros n : value (replicate n 0) = 0.
Proof. induction n; cbn [replicate value]; lia. Qed.

Lemma take_S_value l (j : nat) d :
  l !! j = Some d -> value (take (S j) l) = value (take j l) + d * 10 ^ Z.of_nat j.
Proof.
  intros Hj. rewrite (take_S_r l j d Hj), value_app. cbn [value].
  rewrite length_take_le by (apply lookup_lt_Some in Hj; lia). lia.
Qed.

Lemma Forall_dec l i d : Forall is_dec l -> l !! i = Some d -> is_dec d.
Proof. intros H Hi. rewrite Forall_lookup in H. by eapply H. Qed.

(** One digit: the value grows by the product, and digits stay digits. *)
Lemma mult_digit_spec n1 n2 (i j : nat) carry r a b d :
  Forall is_dec r -> n2 !! i = Some a -> n1 !! j = Some b -> r !! (i + j)%nat = Some d ->
  is_dec a -> is_dec b -> 0 <= carry <= 9 ->
  exists carry' r', mult_digit n1 n2 (Z.of_nat i) (Z.of_nat j) carry r = Ok (carry', r') /\
    0 <= carry' <= 9 /\ Forall is_dec r' /\ length r' = length r /\
    (forall k, k <> (i + j)%nat -> r' !! k = r !! k) /\
    value r' + carry' * 10 ^ Z.of_nat (S (i + j)) =
      value r + (a * b + carry) * 10 ^ Z.of_nat (i + j).
Proof.
  intros Hr Ha Hb Hd Da Db Hc. pose proof (Forall_dec _ _ _ Hr Hd) as Dd. unfold is_dec in *.
  unfold mult_digit. rewrite (rd_nat _ _ _ Ha), bind_Ok, (rd_nat _ _ _ Hb), bind_Ok.
  assert (Hab : 0 <= a * b <= 81) by nia.
  rewrite int_of_Ok, bind_Ok by (unfold INT_MIN, INT_MAX; lia).
  replace (Z.of_nat i + Z.of_nat j) with (Z.of_nat (i + j)) by lia.
  rewrite (rd_nat _ _ _ Hd), bind_Ok.
  rewrite int_of_Ok, bind_Ok by (unfold INT_MIN, INT_MAX; lia).
  pose proof (lookup_lt_Some _ _ _ Hd) as Hlt.
  unfold char_of. set (s := d + (a * b + carry)) in *.
  rewrite (swrap_small 8 s), wr_Ok, bind_Ok, Nat2Z.id by (cbn; lia).
  rewrite (rd_nat _ _ s), bind_Ok by by rewrite list_lookup_insert_eq.
  rewrite Z.quot_div_nonneg, Z.rem_mod_nonneg by lia.
  pose proof (Z.div_mod s 10 ltac:(lia)). pose proof (Z.mod_pos_bound s 10 ltac:(lia)).
  rewrite swrap_small, wr_Ok, bind_Ok, Nat2Z.id by (rewrite ?length_insert; cbn; lia).
  rewrite list_insert_insert_eq. do 2 eexists. split; [reflexivity|].
  split; [lia|]. split; [by apply Forall_insert; [|unfold is_dec; lia]|].
  split; [by rewrite length_insert|].
  split; [intros k Hk; by rewrite list_lookup_insert_ne|].
  rewrite (value_insert _ _ _ _ Hd), Nat2Z.inj_succ, Z.pow_succ_r by lia. nia.
Qed.

Lemma mult_inner_spec rounds n1 n2 (i j : nat) carry r a :
  Forall is_dec n1 -> is_dec a -> n2 !! i = Some a -> Forall is_dec r ->
  (rounds + j = length n1)%nat -> (i + length n1 < length r)%nat -> 0 <= carry <= 9 ->
  exists carry' r', mult_inner rounds n1 n2 (Z.of_nat i) (Z.of_nat j) carry r = Ok (carry', r') /\
    0 <= carry' <= 9 /\ Forall is_dec r' /\ length r' = length r /\
    (forall k, (i + length n1 <= k)%nat -> r' !! k = r !! k) /\
    value r' + carry' * 10 ^ Z.of_nat (i + length n1) =
      value r + carry * 10 ^ Z.of_nat (i + j)
        + a * 10 ^ Z.of_nat i * (value n1 - value (take j n1)).
Proof.
  intros Hn1 Da Ha. revert j carry r. induction rounds as [|rounds IH]; intros j carry r Hr Hj Hl Hc.
  - assert (j = length n1) as -> by lia. exists carry, r. cbn [mult_inner].
    rewrite take_ge by lia. split; [done|]. split; [done|]. split; [done|]. split; [done|].
    split; [done|]. lia.
  - cbn [mult_inner].
    destruct (lookup_lt_is_Some_2 n1 j) as [b Hb]; [lia|].
    destruct (lookup_lt_is_Some_2 r (i + j)) as [d Hd]; [lia|].
    destruct (mult_digit_spec n1 n2 i j carry r a b d) as (c1 & r1 & -> & H1 & H2 & H3 & H4 & H5);
      [done..|by apply (Forall_dec n1 j b)|done|].
    rewrite bind_Ok. replace (Z.of_nat j + 1) with (Z.of_nat (S j)) by lia.
    destruct (IH (S j) c1 r1) as (c2 & r2 & -> & G1 & G2 & G3 & G4 & G5); [done|lia|lia|done|].
    exists c2, r2. split; [done|]. split; [done|]. split; [done|]. split; [lia|].
    split; [intros k Hk; rewrite G4 by lia; apply H4; lia|].
    rewrite G5, (take_S_value n1 j b Hb). replace (i + S j)%nat with (S (i + j)) by lia.
    rewrite Nat2Z.inj_add, Z.pow_add_r in H5 |- * by lia. nia.
Qed.

Lemma mult_outer_spec rounds n1 n2 (i : nat) r :
  Forall is_dec n1 -> Forall is_dec n2 -> Forall is_dec r ->
  (rounds + i = length n2)%nat -> length r = (length n1 + length n2 + 1)%nat ->
  (forall k, (i + length n1 <= k)%nat -> (k < length r)%nat -> r !! k = Some 0) ->
  value r = value n1 * value (take i n2) ->
  exists r', mult_outer rounds n1 n2 (Z.of_nat i) r = Ok r' /\
    Forall is_dec r' /\ length r' = length r /\ value r' = value n1 * value n2.
Proof.
  intros Hn1 Hn2. revert i r. induction rounds as [|rounds IH]; intros i r Hr Hi Hl Hz Hv.
  - assert (i = length n2) as -> by lia. exists r. rewrite take_ge in Hv by lia. done.
  - cbn [mult_outer].
    destruct (lookup_lt_is_Some_2 n2 i) as [a Ha]; [lia|].
    pose proof (Forall_dec _ _ _ Hn2 Ha) as Da.
    destruct (mult_inner_spec (length n1) n1 n2 i 0 0 r a) as (c & r1 & E & H1 & H2 & H3 & H4 & H5);
      [done..|lia|lia|lia|].
    change (Z.of_nat 0) with 0 in E. rewrite E, bind_Ok. unfold bignum_len.
    replace (Z.of_nat i + Z.of_nat (length n1)) with (Z.of_nat (i + length n1)) by lia.
    assert (Ez : r1 !! (i + length n1)%nat = Some 0) by (rewrite H4 by lia; apply Hz; lia).
    rewrite (rd_nat _ _ _ Ez), bind_Ok, int_of_Ok, bind_Ok by (unfold INT_MIN, INT_MAX; lia).
    unfold char_of. rewrite swrap_small, wr_Ok, bind_Ok, Nat2Z.id by (cbn; lia).
    replace (Z.of_nat i + 1) with (Z.of_nat (S i)) by lia.
    destruct (IH (S i) (<[(i + length n1)%nat := 0 + c]> r1)) as (r' & E' & G1 & G2 & G3).
    + apply Forall_insert; [done|unfold is_dec; lia].
    + lia.
    + rewrite length_insert. lia.
    + intros k Hk Hk2. rewrite list_lookup_insert_ne by lia. rewrite H4 by lia.
      apply Hz; [lia|]. rewrite length_insert in Hk2. lia.
    + rewrite (value_insert _ _ _ _ Ez), (take_S_value n2 i a Ha).
      rewrite Z.add_0_l, Z.sub_0_r, H5, Hv. change (take 0 n1) with (@nil Z). cbn [value]. lia.
    + exists r'. rewrite E'. split; [done|]. split; [done|]. split; [|done].
      rewrite G2, length_insert. lia.
Qed.

Lemma quot_rem_value num : num = Z.rem num 10 + 10 * Z.quot num 10.
Proof. pose proof (Z.quot_rem' num 10). lia. Qed.

(** The loop of [bignum_set] writes the digits from the low end; what is left of
    the number does not fit. *)
Lemma set_digits_spec rounds (i : nat) num bn :
  (rounds + i = length bn)%nat -> - INT_MAX - 1 <= num <= INT_MAX ->
  exists (k : nat) num' bn',
    set_digits rounds (Z.of_nat i) num bn = Ok (Z.of_nat (i + k), num', bn') /\
    (k <= rounds)%nat /\ length bn' = length bn /\ take i bn' = take i bn /\
    value (take (i + k) bn') + num' * 10 ^ Z.of_nat (i + k) =
      value (take i bn) + num * 10 ^ Z.of_nat i /\
    (num' <> 0 -> k = rounds) /\ (0 <= num -> 0 <= num' <= num) /\ (num <= 0 -> num <= num' <= 0) /\
    (0 <= num -> Forall is_dec (drop i (take (i + k) bn'))).
Proof.
  revert i num bn. induction rounds as [|rounds IH]; intros i num bn Hi Hn; cbn [set_digits].
  - exists 0%nat, num, bn. rewrite Nat.add_0_r. split; [done|]. split; [lia|].
    split; [done|]. split; [done|]. split; [done|]. split; [done|]. split; [lia|]. split; [lia|].
    intros _. by rewrite drop_ge by (rewrite length_take; lia).
  - destruct (Z.eqb_spec num 0) as [->|Hne].
    { exists 0%nat, 0, bn. rewrite Nat.add_0_r. split; [done|]. split; [lia|].
      split; [done|]. split; [done|]. split; [done|]. split; [done|]. split; [lia|]. split; [lia|].
      intros _. by rewrite drop_ge by (rewrite length_take; lia). }
    assert (Hrem : - 9 <= Z.rem num 10 <= 9).
    { pose proof (Z.rem_bound_abs num 10 ltac:(lia)). lia. }
    assert (Hq : (0 <= num -> 0 <= Z.rem num 10 /\ 0 <= Z.quot num 10 <= num) /\
                 (num <= 0 -> num <= Z.quot num 10 <= 0)).
    { pose proof (quot_rem_value num). split; intros Hs.
      - pose proof (Z.rem_nonneg num 10 ltac:(lia) Hs). pose proof (Z.quot_pos num 10 Hs ltac:(lia)). lia.
      - pose proof (Z.rem_nonpos num 10 ltac:(lia) Hs). lia. }
    unfold char_of. rewrite swrap_small, wr_Ok, bind_Ok, Nat2Z.id by (cbn; lia).
    set (bn1 := <[i := Z.rem num 10]> bn).
    assert (L1 : length bn1 = length bn) by apply length_insert.
    assert (E1 : bn1 !! i = Some (Z.rem num 10)) by (apply list_lookup_insert_eq; lia).
    replace (Z.of_nat i + 1) with (Z.of_nat (S i)) by lia.
    destruct (IH (S i) (Z.quot num 10) bn1) as (k & num' & bn' & E & H1 & H2 & H3 & H4 & H5 & H6 & H7 & H8);
      [lia|lia|].
    exists (S k), num', bn'. rewrite E. replace (i + S k)%nat with (S i + k)%nat by lia.
    split; [done|]. split; [lia|]. split; [lia|].
    assert (Hti : take i bn' = take i bn).
    { assert (Ht : take i (take (S i) bn') = take i (take (S i) bn1)) by by rewrite H3.
      rewrite !take_take in Ht. replace (i `min` S i)%nat with i in Ht by lia. rewrite Ht.
      unfold bn1. by rewrite take_insert_ge by lia. }
    split; [done|]. split; [|split; [|split; [lia|split; [lia|]]]].
    + rewrite H4, (take_S_value bn1 i _ E1).
      replace (take i bn1) with (take i bn) by (unfold bn1; by rewrite take_insert_ge by lia).
      rewrite Nat2Z.inj_succ, Z.pow_succ_r by lia. pose proof (quot_rem_value num). nia.
    + intros Hn'. specialize (H5 Hn'). lia.
    + intros Hs. assert (Ei : bn' !! i = Some (Z.rem num 10)).
      { rewrite <- (lookup_take_lt bn' (S i)) by lia. rewrite H3. by rewrite lookup_take_lt by lia. }
      assert (Ed : drop i (take (S i + k) bn') = Z.rem num 10 :: drop (S i) (take (S i + k) bn')).
      { apply drop_S. by rewrite lookup_take_lt by lia. }
      rewrite Ed. constructor; [unfold is_dec; lia|]. apply H8. lia.
Qed.

Lemma zero_fill_spec rounds (i : nat) bn :
  (rounds + i = length bn)%nat ->
  zero_fill rounds (Z.of_nat i) bn = Ok (take i bn ++ replicate rounds 0).
Proof.
  revert i bn. induction rounds as [|rounds IH]; intros i bn Hi; cbn [zero_fill replicate].
  - by rewrite take_ge, app_nil_r by lia.
  - rewrite wr_Ok, bind_Ok, Nat2Z.id by lia. replace (Z.of_nat i + 1) with (Z.of_nat (S i)) by lia.
    rewrite IH by (rewrite length_insert; lia). f_equal.
    rewrite (take_S_r _ i 0) by (apply list_lookup_insert_eq; lia).
    rewrite take_insert_ge by lia. by rewrite <- (assoc_L (++)).
Qed.

(** ** The theorems *)

Lemma bignum_mult_value n1 n2 :
  Forall is_dec n1 -> Forall is_dec n2 -> bignum_len n1 + bignum_len n2 < INT_MAX ->
  exists r, bignum_mult true n1 n2 = Ok r /\ value r = value n1 * value n2 /\ Forall is_dec r /\
    bignum_len r = bignum_len n1 + bignum_len n2 + 1.
Proof.
  intros H1 H2 Hl. unfold bignum_mult, bignum_len in *.
  rewrite int_of_Ok, bind_Ok by (unfold INT_MIN; lia). unfold bignum_alloc.
  cbn [ub_unless]. rewrite bind_Ok.
  replace (Z.to_nat _) with (length n1 + length n2 + 1)%nat by lia.
  destruct (mult_outer_spec (length n2) n1 n2 0 (replicate (length n1 + length n2 + 1) 0))
    as (r & E & G1 & G2 & G3); [done|done| |lia|by rewrite length_replicate| | |].
  - apply Forall_replicate. unfold is_dec. lia.
  - intros k _ Hk. rewrite length_replicate in Hk. by apply lookup_replicate_2.
  - rewrite value_zeros. change (take 0 n2) with (@nil Z). cbn [value]. lia.
  - exists r. change (Z.of_nat 0) with 0 in E. split; [done|]. split; [done|]. split; [done|].
    rewrite G2, length_replicate. lia.
Qed.

(** C23. [bignum_mult] multiplies: on any two arrays of decimal digits (together shorter
    than [INT_MAX]) it stays in bounds, no [char] overflows, and the result is the
    array of the digits of the product, one place longer than both together; without
    memory for the result it is undefined, since the allocation is not tested. *)
Theorem bignum_mult_correct (ok : bool) n1 n2 :
  Forall is_dec n1 -> Forall is_dec n2 -> bignum_len n1 + bignum_len n2 < INT_MAX ->
  if ok then
    exists r, bignum_mult ok n1 n2 = Ok r /\ value r = value n1 * value n2 /\ Forall is_dec r /\
      bignum_len r = bignum_len n1 + bignum_len n2 + 1
  else bignum_mult ok n1 n2 = Undef.
Proof.
  intros H1 H2 Hl. destruct ok; [by apply bignum_mult_value|].
  unfold bignum_mult. unfold bignum_len in *. by rewrite int_of_Ok, bind_Ok by (unfold INT_MIN; lia).
Qed.

Lemma bignum_mult_correct_witness :
  exists r, bignum_mult true [9; 9; 9; 9] [9; 9; 9; 8] = Ok r /\ value r = 9999 * 8999.
Proof.
  destruct (bignum_mult_correct true [9; 9; 9; 9] [9; 9; 9; 8]) as (r & E & V & _).
  - repeat constructor; lia.
  - repeat constructor; lia.
  - vm_compute. reflexivity.
  - exists r. split; [exact E|]. rewrite V. reflexivity.
Defined.

(** [bignum_set] stores the digits of a number, and reports -1 exactly when
    the number has more digits than the array. *)
Theorem bignum_set_correct bn num :
  0 <= num <= INT_MAX ->
  exists rc bn', bignum_set bn num = Ok (rc, bn') /\ length bn' = length bn /\
    (if num <? 10 ^ bignum_len bn then rc = 0 /\ value bn' = num /\ Forall is_dec bn' else rc = -1).
Proof.
  intros Hn. unfold bignum_set, bignum_len.
  destruct (set_digits_spec (length bn) 0 num bn)
    as (k & num' & bn' & E & H1 & H2 & _ & H4 & H5 & H6 & _ & H8); [lia|lia|].
  change (Z.of_nat 0) with 0 in E. rewrite E, bind_Ok. change (take 0 bn) with (@nil Z) in *. cbn [Nat.add value] in *.
  change (10 ^ Z.of_nat 0) with 1 in H4. specialize (H6 ltac:(lia)). specialize (H8 ltac:(lia)).
  rewrite drop_0 in H8.
  assert (Hval : forall l, Forall is_dec l -> 0 <= value l < 10 ^ Z.of_nat (length l)).
  { induction 1 as [|d l Hd _ IH]; [cbn; lia|]. cbn [value length]. unfold is_dec in Hd.
    rewrite Nat2Z.inj_succ, Z.pow_succ_r by lia. lia. }
  specialize (Hval _ H8). rewrite length_take_le in Hval by lia.
  destruct (Z.eqb_spec num' 0) as [->|Hne]; cbn [negb].
  - rewrite Nat2Z.id. replace (length bn' - k)%nat with (length bn - k)%nat by lia.
    rewrite zero_fill_spec, bind_Ok by lia. do 2 eexists. split; [reflexivity|].
    rewrite length_app, length_take_le, length_replicate by lia. split; [lia|].
    rewrite (proj2 (Z.ltb_lt _ _)).
    + split; [done|]. rewrite value_app, value_zeros. split; [lia|].
      apply Forall_app. split; [done|]. apply Forall_replicate. unfold is_dec. lia.
    + eapply Z.lt_le_trans; [|apply (Z.pow_le_mono_r 10 (Z.of_nat k)); lia]. lia.
  - specialize (H5 Hne). subst k. do 2 eexists. split; [reflexivity|]. split; [lia|].
    rewrite (proj2 (Z.ltb_ge _ _)); [done|].
    assert (0 < 10 ^ Z.of_nat (length bn)) by (apply Z.pow_pos_nonneg; lia). nia.
Qed.

Lemma bignum_set_correct_witness :
  exists bn', bignum_set [0; 0; 0; 0] 8999 = Ok (0, bn') /\ value bn' = 8999.
Proof.
  destruct (bignum_set_correct [0; 0; 0; 0] 8999) as (rc & bn' & E & _ & H).
  - vm_compute. split; discriminate.
  - change (8999 <? 10 ^ bignum_len [0; 0; 0; 0]) with true in H. destruct H as (-> & V & _).
    exists bn'. split; [exact E|exact V].
Defined.

(** [bignum_print] starts at index [len], one past the last digit: printing
    any number reads outside its array. *)
Theorem bignum_print_out_of_bounds num : bignum_print num = Undef.
Proof.
  unfold bignum_print. assert (E : rd num (Z.of_nat (length num)) = Undef) by (apply rd_out; lia).
  destruct (length num) as [|k]; cbn [print_from]; by rewrite E.
Qed.

(** [main] is undefined: it prints its first number before it multiplies. *)
Theorem main_undefined al : main al = Undef.
Proof.
  unfold main, main_with, bignum_alloc. destruct (al 0%nat), (al 1%nat); try done.
Qed.

(** *** The factorial *)

Lemma sum_from_ok l acc :
  Forall is_dec l -> 0 <= acc -> acc + 9 * Z.of_nat (length l) <= INT_MAX ->
  sum_from l acc = Ok (foldl Z.add acc l).
Proof.
  intros Hl. revert acc. induction Hl as [|d l Hd _ IH]; intros acc Ha Hm; [done|].
  cbn [sum_from foldl length] in *. unfold is_dec in Hd.
  rewrite int_of_Ok, bind_Ok by (unfold INT_MIN; lia). apply IH; lia.
Qed.

Fixpoint fact (n : nat) : Z := match n with O => 1 | S k => Z.of_nat n * fact k end.

Section Factorial.
Context (print : bignum_t -> res (list Z)) (al : nat -> bool).
Hypothesis Hprint : forall num, exists ds, print num = Ok ds.
Hypothesis Hal : forall k, al k = true.

Lemma factorial_loop_ok rounds (i : nat) num1 num2 :
  length num1 = 4%nat -> Forall is_dec num2 -> value num2 = fact i ->
  (0 < i)%nat -> Z.of_nat (i + rounds) < 10000 ->
  Z.of_nat (length num2) + 5 * Z.of_nat rounds + 10 < INT_MAX ->
  exists num, factorial_loop print al rounds (Z.of_nat (S i)) num1 num2 = Ok num /\
    Forall is_dec num /\ value num = fact (i + rounds) /\
    length num = (length num2 + 5 * rounds)%nat.
Proof using All.
  revert i num1 num2. induction rounds as [|rounds IH]; intros i num1 num2 L1 D2 V2 Hi Hr Hl;
    cbn [factorial_loop].
  { exists num2. rewrite Nat.add_0_r. repeat split; [done..|lia]. }
  destruct (bignum_set_correct num1 (Z.of_nat (S i))) as (rc & num1' & -> & L1' & H);
    [unfold INT_MAX; lia|].
  unfold bignum_len in H. rewrite L1 in H. change (10 ^ Z.of_nat 4) with 10000 in H.
  rewrite (proj2 (Z.ltb_lt _ _)) in H by lia. destruct H as (-> & V1 & D1). rewrite bind_Ok, Hal.
  destruct (bignum_mult_value num1' num2 D1 D2) as (num3 & -> & V3 & D3 & L3);
    [unfold bignum_len; lia|]. destruct (Hprint num3) as [ds Eds].
  unfold bignum_len in L3. rewrite bind_Ok, Eds, bind_Ok, int_of_Ok, bind_Ok
    by (unfold INT_MIN, INT_MAX; lia).
  replace (Z.of_nat (S i) + 1) with (Z.of_nat (S (S i))) by lia.
  destruct (IH (S i) num1' num3) as (num & -> & D & V & L); [lia|done| |lia..|].
  - rewrite V3, V1, V2. cbn [fact]. lia.
  - exists num. split; [done|]. split; [done|]. split; [rewrite V; f_equal; lia|lia].
Qed.
End Factorial.

(** The digits are determined by the number. *)
Fixpoint digit_sum (fuel : nat) (z : Z) : Z :=
  match fuel with O => 0 | S fuel => z mod 10 + digit_sum fuel (z / 10) end.

Lemma digit_sum_value l acc :
  Forall is_dec l -> foldl Z.add acc l = acc + digit_sum (length l) (value l).
Proof.
  intros H. revert acc. induction H as [|d l Hd _ IH]; intros acc; cbn [foldl length digit_sum value]; [lia|].
  rewrite IH. unfold is_dec in Hd.
  replace (d + 10 * value l) with (d + value l * 10) by lia.
  rewrite Z.mod_add, Z.div_add, Z.mod_small, Z.div_small by lia. rewrite Z.add_0_l. lia.
Qed.

(** What [main] would compute if printing did no harm: after the loop the number is
    [n!], digit by digit, and the sum printed is the sum of its digits; for the 100 of
    the program, 648. *)
Theorem factorial_correct print al (n : nat) :
  (forall num, exists ds, print num = Ok ds) -> (forall k, al k = true) ->
  (0 < n)%nat -> Z.of_nat n < 10000 ->
  exists num, main_with print al n = Ok (num, digit_sum (length num) (fact n)) /\
    Forall is_dec num /\ value num = fact n /\ length num = (5 * n - 1)%nat.
Proof.
  intros Hp Hal Hn Hm. unfold main_with, bignum_alloc. rewrite !Hal. cbn [ub_unless]. rewrite !bind_Ok.
  set (zero := replicate (Z.to_nat 4) 0).
  destruct (bignum_set_correct zero 9999) as (rc1 & num1 & -> & L1 & H1); [unfold INT_MAX; lia|].
  destruct (bignum_set_correct zero 8999) as (rc2 & num2 & -> & L2 & H2); [unfold INT_MAX; lia|].
  change (9999 <? 10 ^ bignum_len zero) with true in H1. destruct H1 as (_ & _ & D1).
  change (8999 <? 10 ^ bignum_len zero) with true in H2. destruct H2 as (_ & _ & D2).
  change (length zero) with 4%nat in L1, L2. rewrite !bind_Ok.
  destruct (Hp num1) as [ds1 ->], (Hp num2) as [ds2 ->]. rewrite !bind_Ok.
  destruct (bignum_mult_value num1 num2 D1 D2) as (num3 & -> & _);
    [unfold bignum_len, INT_MAX; lia|]. destruct (Hp num3) as [ds3 E3]. rewrite bind_Ok, E3, bind_Ok.
  destruct (bignum_set_correct num2 1) as (rc & num2' & -> & L2' & H); [unfold INT_MAX; lia|].
  unfold bignum_len in H. rewrite L2 in H. change (1 <? 10 ^ Z.of_nat 4) with true in H.
  destruct H as (_ & V2 & D2'). rewrite bind_Ok.
  destruct (factorial_loop_ok print al Hp Hal (n - 1) 1 num1 num2') as (num & E & D & V & L);
    [done|done|by rewrite V2|lia|lia|unfold INT_MAX; lia|].
  change (Z.of_nat 2) with 2 in E. rewrite E, bind_Ok.
  rewrite sum_from_ok by (done || unfold INT_MAX; lia). rewrite bind_Ok.
  exists num. replace (1 + (n - 1))%nat with n in V by lia.
  rewrite digit_sum_value, V by done. split; [done|]. split; [done|]. split; [done|lia].
Qed.

Lemma factorial_correct_witness :
  exists num, main_with (fun num => Ok num) (fun _ => true) 100 = Ok (num, 648) /\ value num = fact 100.
Proof.
  destruct (factorial_correct (fun num => Ok num) (fun _ => true) 100) as (num & E & _ & V & L).
  - intros num. by exists num.
  - reflexivity.
  - lia.
  - reflexivity.
  - exists num. split; [|exact V]. rewrite E, L. vm_compute. reflexivity.
Defined.
