(* ===== verification/Strstr.v ===== *)
(** * Substring search: src/my_strstr.c

    The rolling hash search [my_strstr_hash], which is the first occurrence that
    does not end the string, and the search with an overlap table [my_strstr],
    which is sound but incomplete. *)
From stdpp Require Import base list strings.
From Stdlib Require Import ZArith Lia Ascii.
From S2P Require Import Prelude Stdio.

Open Scope Z_scope.

(** ** The rolling hash *)

Definition PRIME : Z := 11.

(** A [char] (signed, eight bits) converted to [unsigned long]. *)
Definition schar (c : ascii) : Z := swrap 8 (Z.of_nat (nat_of_ascii c)).
Definition ulong (z : Z) : Z := uwrap 64 z.

(** The loop of [hash_new] from index [i]; [str] is the memory of the string. *)
Fixpoint hash_new_loop (rounds : nat) (str : list ascii) (i hash : Z) : res Z :=
  match rounds with
  | O => Ok hash
  | S rounds =>
      c ← rd str i;
      hash_new_loop rounds str (i + 1) (ulong (ulong (hash * PRIME) + schar c))
  end.

Definition hash_new (str : list ascii) (len : Z) : res Z :=
  c ← rd str 0;
  hash_new_loop (Z.to_nat (len - 1)) str 1 (ulong (schar c)).

(** [for (i = 0; i < len - 1; i++) sub_hash *= PRIME]. *)
Fixpoint mul_prime (rounds : nat) (h : Z) : Z :=
  match rounds with O => h | S rounds => mul_prime rounds (ulong (h * PRIME)) end.

Definition hash_add_sub (prev_hash : Z) (sub add : ascii) (len : Z) : Z :=
  let sub_hash := mul_prime (Z.to_nat (len - 1)) (ulong (schar sub)) in
  let prev_hash := ulong (prev_hash - sub_hash) in
  let prev_hash := ulong (prev_hash * PRIME) in
  ulong (prev_hash + schar add).

(** [strncmp(a, b, n) == 0] for memory holding at least [n] characters and, in
    [b], no NUL among them. *)
Definition strncmp_eq (a b : list ascii) (n : nat) : bool := bool_decide (take n a = take n b).

Fixpoint hash_search (rounds : nat) (string substring : list ascii) (substr_len i hs hsub : Z)
    : res Z :=
  match rounds with
  | O => Ok (-1)
  | S rounds =>
      if (hs =? hsub) && strncmp_eq (drop (Z.to_nat i) string) substring (Z.to_nat substr_len)
      then Ok i
      else
        c ← rd string i;
        d ← rd string (i + substr_len);
        hash_search rounds string substring substr_len (i + 1)
          (hash_add_sub hs c d substr_len) hsub
  end.

Definition my_strstr_hash (string substring : list ascii) : res Z :=
  substr_len ← strlen substring;
  str_len ← strlen string;
  hsub ← hash_new substring substr_len;
  hs ← hash_new string substr_len;
  hash_search (Z.to_nat (str_len - substr_len)) string substring substr_len 0 hs hsub.

(** ** The search with overlaps *)

Fixpoint overlap_loop (rounds : nat) (substring : list ascii) (overlap : blk Z) (i j : Z)
    : res (blk Z) :=
  match rounds with
  | O => Ok overlap
  | S rounds =>
      a ← rd substring i;
      b ← rd substring j;
      if bool_decide (a = b) then
        o ← rdc overlap (i - 1);
        overlap ← wrc overlap i (o + 1);
        overlap_loop rounds substring overlap (i + 1) (j + 1)
      else
        overlap ← wrc overlap i 0;
        overlap_loop rounds substring overlap (i + 1) 0
  end.

(** The search loop. [i = i - 1] and the loop's increment leave [i] unchanged. *)
Fixpoint overlap_search (fuel : nat) (string substring : list ascii) (overlap : blk Z)
    (str_len substr_len i j m : Z) : res Z :=
  if i <? str_len then
    match fuel with
    | O => NoFuel
    | S fuel =>
        if j =? substr_len then Ok (i - m)
        else
          a ← rd string i;
          b ← rd substring j;
          if bool_decide (a = b) then
            overlap_search fuel string substring overlap str_len substr_len (i + 1) (j + 1) (m + 1)
          else if 1 <? m then
            o ← rdc overlap (m - 1);
            overlap_search fuel string substring overlap str_len substr_len (i - 1 + 1) o o
          else
            overlap_search fuel string substring overlap str_len substr_len (i + 1) 0 0
    end
  else Ok (-1).

(** [ok]: whether the table can be allocated, which is not tested. *)
Definition my_strstr (ok : bool) (string substring : list ascii) : res Z :=
  substr_len ← strlen substring;
  str_len ← strlen string;
  let overlap : blk Z := malloc ok substr_len in
  if str_len <? substr_len then Ok (-1)
  else
    overlap ← wrc overlap 0 0;
    overlap ← overlap_loop (Z.to_nat (substr_len - 1)) substring overlap 1 0;
    overlap_search (Z.to_nat (2 * str_len + 1)) string substring overlap str_len substr_len 0 0 0.

(** ** The specification *)

Definition occurs_at (s sub : list ascii) (p : nat) : Prop := take (length sub) (drop p s) = sub.

#[export] Instance occurs_at_dec s sub p : Decision (occurs_at s sub p).
Proof. unfold occurs_at. apply _. Defined.

(** ** The hash is a polynomial in 11 modulo 2^64 *)

Definition poly (l : list ascii) : Z := fold_left (fun h c => h * PRIME + schar c) l 0.

Lemma poly_snoc l c : poly (l ++ [c]) = poly l * PRIME + schar c.
Proof. unfold poly. by rewrite fold_left_app. Qed.

Lemma poly_cons c l : poly (c :: l) = schar c * PRIME ^ Z.of_nat (length l) + poly l.
Proof.
  induction l as [|d l IH] using rev_ind.
  - change (PRIME ^ Z.of_nat (length (@nil ascii))) with 1. cbn. lia.
  - change (c :: l ++ [d]) with ((c :: l) ++ [d]). rewrite !poly_snoc, IH, length_app.
    cbn [length]. rewrite Nat2Z.inj_add, Z.pow_add_r by lia.
    change (PRIME ^ Z.of_nat 1) with PRIME. ring.
Qed.

(** Arithmetic modulo 2^64: [ulong] may be moved outwards. *)
Lemma ulong_add_l a b : ulong (ulong a + b) = ulong (a + b).
Proof. apply Zplus_mod_idemp_l. Qed.
Lemma ulong_mul_l a b : ulong (ulong a * b) = ulong (a * b).
Proof. apply Zmult_mod_idemp_l. Qed.
Lemma ulong_sub a b : ulong (ulong a - ulong b) = ulong (a - b).
Proof. unfold ulong, uwrap. by rewrite Zminus_mod_idemp_l, Zminus_mod_idemp_r. Qed.
#[local] Hint Rewrite ulong_add_l ulong_mul_l ulong_sub : modarith.

Lemma mul_prime_spec k h : mul_prime k (ulong h) = ulong (h * PRIME ^ Z.of_nat k).
Proof.
  revert h. induction k as [|k IH]; intros h; cbn [mul_prime].
  - f_equal. change (PRIME ^ Z.of_nat 0) with 1. lia.
  - autorewrite with modarith. rewrite IH, Nat2Z.inj_succ, Z.pow_succ_r by lia. f_equal. ring.
Qed.

(** Dropping the first character of the window and appending the next one. *)
Lemma hash_roll c l d :
  hash_add_sub (ulong (poly (c :: l))) c d (Z.of_nat (length (c :: l))) = ulong (poly (l ++ [d])).
Proof.
  unfold hash_add_sub. rewrite mul_prime_spec. autorewrite with modarith.
  rewrite poly_cons, poly_snoc. f_equal. cbn [length].
  replace (Z.of_nat (Z.to_nat (Z.of_nat (S (length l)) - 1))) with (Z.of_nat (length l)) by lia.
  ring.
Qed.

Lemma hash_new_loop_spec k str (i : nat) h :
  (i + k <= length str)%nat ->
  hash_new_loop k str (Z.of_nat i) (ulong h) =
  Ok (ulong (fold_left (fun h c => h * PRIME + schar c) (take k (drop i str)) h)).
Proof.
  revert i h. induction k as [|k IH]; intros i h Hi; cbn [hash_new_loop]; [by rewrite take_0|].
  destruct (lookup_lt_is_Some_2 str i) as [c Hc]; [lia|].
  rewrite (rd_nat _ _ _ Hc), bind_Ok. autorewrite with modarith.
  replace (Z.of_nat i + 1) with (Z.of_nat (S i)) by lia. rewrite IH by lia.
  by rewrite (drop_S str c i Hc).
Qed.

Lemma hash_new_spec str (len : nat) :
  (0 < len <= length str)%nat -> hash_new str (Z.of_nat len) = Ok (ulong (poly (take len str))).
Proof.
  intros [H1 H2]. unfold hash_new. destruct str as [|c str]; [cbn in H2; lia|].
  change (rd (c :: str) 0) with (Ok c). rewrite bind_Ok.
  change 1 with (Z.of_nat 1). rewrite hash_new_loop_spec by (cbn [length] in *; lia).
  destruct len as [|len]; [lia|]. replace (Z.to_nat (Z.of_nat (S len) - Z.of_nat 1)) with len by lia.
  cbn [drop take]. by rewrite drop_0.
Qed.

Lemma window_next {A} (s : list A) p m c d :
  s !! p = Some c -> s !! (p + S m)%nat = Some d ->
  take (S m) (drop p s) = c :: take m (drop (S p) s) /\
  take (S m) (drop (S p) s) = take m (drop (S p) s) ++ [d].
Proof.
  intros Hc Hd. split.
  - by rewrite (drop_S s c p Hc).
  - apply take_S_r. rewrite lookup_drop. by replace (S p + m)%nat with (p + S m)%nat by lia.
Qed.

(** The loop: the hash is always that of the window, so equal windows are never
    missed, and a return is checked. *)
Lemma hash_search_spec rounds mem sub m (p : nat) :
  length sub = S m -> (p + rounds + S m < length mem)%nat ->
  exists r, hash_search rounds mem (sub ++ [NUL]) (Z.of_nat (S m)) (Z.of_nat p)
      (ulong (poly (take (S m) (drop p mem)))) (ulong (poly sub)) = Ok r /\
    ((r = -1 /\ forall q, (p <= q < p + rounds)%nat -> ~ occurs_at mem sub q) \/
     (exists q, r = Z.of_nat q /\ (p <= q < p + rounds)%nat /\ occurs_at mem sub q /\
        forall q', (p <= q' < q)%nat -> ~ occurs_at mem sub q')).
Proof.
  intros Hs. assert (Es : take (S m) (sub ++ [NUL]) = sub).
  { rewrite take_app_le by lia. by rewrite take_ge by lia. }
  revert p. induction rounds as [|rounds IH]; intros p Hp; cbn [hash_search].
  - exists (-1). split; [done|]. left. split; [done|]. intros q Hq. lia.
  - unfold strncmp_eq. rewrite !Nat2Z.id, Es.
    destruct (decide (occurs_at mem sub p)) as [Ho|Ho].
    + pose proof Ho as Ho'. unfold occurs_at in Ho'. rewrite Hs in Ho'.
      rewrite Ho', Z.eqb_refl, bool_decide_true by done. cbn [andb].
      exists (Z.of_nat p). split; [done|]. right. exists p. split; [done|]. split; [lia|].
      split; [done|]. intros q' Hq'. lia.
    + assert (Hne : bool_decide (take (S m) (drop p mem) = sub) = false).
      { apply bool_decide_eq_false. intros E. apply Ho. unfold occurs_at. by rewrite Hs. }
      rewrite Hne, andb_false_r.
      destruct (lookup_lt_is_Some_2 mem p) as [c Hc]; [lia|].
      destruct (lookup_lt_is_Some_2 mem (p + S m)) as [d Hd]; [lia|].
      destruct (window_next mem p m c d Hc Hd) as [W1 W2].
      rewrite (rd_nat _ _ _ Hc), bind_Ok.
      replace (Z.of_nat p + Z.of_nat (S m)) with (Z.of_nat (p + S m)) by lia.
      rewrite (rd_nat _ _ _ Hd), bind_Ok, W1.
      assert (El : S m = length (c :: take m (drop (S p) mem))).
      { cbn [length]. rewrite length_take, length_drop. lia. }
      pose proof (hash_roll c (take m (drop (S p) mem)) d) as R. rewrite <- El in R.
      rewrite R, <- W2.
      replace (Z.of_nat p + 1) with (Z.of_nat (S p)) by lia.
      destruct (IH (S p)) as (r & Er & Hr); [lia|]. exists r. split; [done|].
      destruct Hr as [[-> Hr]|(q & -> & Hq & Hq1 & Hq2)].
      * left. split; [done|]. intros q Hq. destruct (decide (q = p)) as [->|]; [done|]. apply Hr. lia.
      * right. exists q. split; [done|]. split; [lia|]. split; [done|].
        intros q' Hq'. destruct (decide (q' = p)) as [->|]; [done|]. apply Hq2. lia.
Qed.

Lemma occurs_at_mem s sub q : (q + length sub <= length s)%nat ->
  occurs_at (s ++ [NUL]) sub q <-> occurs_at s sub q.
Proof.
  intros H. unfold occurs_at. rewrite drop_app_le by lia.
  by rewrite take_app_le by (rewrite length_drop; lia).
Qed.

Lemma hash_finds s sub :
  no_nul s -> no_nul sub -> (0 < length sub <= length s)%nat ->
  exists r, my_strstr_hash (s ++ [NUL]) (sub ++ [NUL]) = Ok r /\
    ((r = -1 /\ forall q, (q + length sub < length s)%nat -> ~ occurs_at s sub q) \/
     (exists q, r = Z.of_nat q /\ (q + length sub < length s)%nat /\ occurs_at s sub q /\
        forall q', (q' < q)%nat -> ~ occurs_at s sub q')).
Proof.
  intros Hn Hns Hl. unfold my_strstr_hash, strlen. rewrite !cstr_nul, !bind_Ok by done.
  destruct (length sub) as [|m] eqn:Em; [lia|].
  rewrite !hash_new_spec, !bind_Ok by (rewrite length_app; cbn; lia).
  rewrite (take_app_le sub) by lia. rewrite (take_ge sub) by lia.
  replace (Z.to_nat (Z.of_nat (length s) - Z.of_nat (S m))) with (length s - S m)%nat by lia.
  destruct (hash_search_spec (length s - S m) (s ++ [NUL]) sub m 0) as (r & Er & Hr);
    [done|rewrite length_app; cbn; lia|].
  change (Z.of_nat 0) with 0 in Er. rewrite drop_0 in Er. exists r. split; [done|].
  destruct Hr as [[-> Hr]|(q & -> & Hq & Hq1 & Hq2)].
  - left. split; [done|]. intros q Hq. rewrite <- occurs_at_mem by lia. apply Hr. lia.
  - right. exists q. split; [done|]. split; [lia|]. rewrite <- occurs_at_mem by lia. split; [done|].
    intros q' Hq'. rewrite <- occurs_at_mem by lia. apply Hq2. lia.
Qed.

(** [my_strstr_hash] returns the first occurrence among the positions before
    the last possible one, and -1 if there is none there: an occurrence that ends
    the string is never found. *)
Theorem my_strstr_hash_correct s sub :
  no_nul s -> no_nul sub -> (0 < length sub <= length s)%nat ->
  exists r, my_strstr_hash (s ++ [NUL]) (sub ++ [NUL]) = Ok r /\
    ((r = -1 /\ forall q, (q + length sub < length s)%nat -> ~ occurs_at s sub q) \/
     (exists q, r = Z.of_nat q /\ (q + length sub < length s)%nat /\ occurs_at s sub q /\
        forall q', (q' < q)%nat -> ~ occurs_at s sub q')).
Proof. apply hash_finds. Qed.

Lemma my_strstr_hash_correct_witness :
  exists r, my_strstr_hash (chars "hello" ++ [NUL]) (chars "ll" ++ [NUL]) = Ok r /\ r <> -1.
Proof.
  destruct (my_strstr_hash_correct (chars "hello") (chars "ll")) as (r & E & H).
  - apply (bool_decide_unpack _). vm_compute. exact I.
  - apply (bool_decide_unpack _). vm_compute. exact I.
  - cbn. lia.
  - exists r. split; [exact E|]. destruct H as [[-> H]|(q & -> & _)]; [|lia].
    exfalso. apply (H 2%nat); [cbn; lia|reflexivity].
Defined.

(** ** Soundness of the overlap search *)

(** [o] is a border of the prefix of length [k]: the first [o] characters are also
    the last [o] of them. *)
Definition border (sub : list ascii) (k o : nat) : Prop :=
  (o < k)%nat /\ take o sub = drop (k - o) (take k sub).

(** The filled part of the table holds borders. *)
Definition table_ok (sub : list ascii) (ov : list Z) : Prop :=
  forall k v, ov !! k = Some v -> exists o, v = Z.of_nat o /\ border sub (S k) o.

Lemma border_0 sub k : (k < length sub)%nat -> border sub (S k) 0.
Proof.
  intros H. split; [lia|]. rewrite Nat.sub_0_r, drop_ge by (rewrite length_take; lia). done.
Qed.

(** If the prefix of length [o] ends at [k] and the next characters agree, so does
    the one of length [o + 1]. *)
Lemma border_S sub k o c :
  border sub k o -> sub !! k = Some c -> sub !! o = Some c -> border sub (S k) (S o).
Proof.
  intros [Hlt Hb] Hk Ho. split; [lia|]. pose proof (lookup_lt_Some _ _ _ Hk).
  rewrite (take_S_r sub o c Ho), (take_S_r sub k c Hk), Hb.
  rewrite drop_app_le by (rewrite length_take; lia).
  by replace (S k - S o)%nat with (k - o)%nat by lia.
Qed.

Lemma overlap_loop_spec rounds sub (i j : nat) (ov : list Z) (tl : blk Z) :
  table_ok sub ov -> length ov = i -> (0 < i)%nat -> (i + rounds = length sub)%nat ->
  length tl = rounds -> border sub i j -> ov !! (i - 1)%nat = Some (Z.of_nat j) ->
  exists ov', overlap_loop rounds (sub ++ [NUL]) ((Some <$> ov) ++ tl) (Z.of_nat i) (Z.of_nat j)
      = Ok (Some <$> ov') /\
    table_ok sub ov' /\ length ov' = length sub.
Proof.
  revert i j ov tl. induction rounds as [|rounds IH]; intros i j ov tl Hov Hi H0 Hr Htl Hb Hj;
    cbn [overlap_loop].
  - destruct tl; [|done]. exists ov. rewrite app_nil_r. split; [done|]. split; [done|lia].
  - destruct tl as [|cell tl]; [done|]. pose proof Hb as [Hji _].
    destruct (lookup_lt_is_Some_2 sub i) as [a Ha]; [lia|].
    destruct (lookup_lt_is_Some_2 sub j) as [b Hb']; [lia|].
    rewrite (rd_nat _ i a), bind_Ok by (by rewrite lookup_app_l by lia).
    rewrite (rd_nat _ j b), bind_Ok by (by rewrite lookup_app_l by lia).
    assert (Hset : forall v, wrc ((Some <$> ov) ++ cell :: tl) (Z.of_nat i) v
      = Ok ((Some <$> (ov ++ [v])) ++ tl)).
    { intros v. unfold wrc. rewrite wr_Ok by (rewrite length_app, length_fmap; cbn; lia).
      rewrite Nat2Z.id, insert_app_r_alt by (rewrite length_fmap; lia).
      rewrite length_fmap, Hi, Nat.sub_diag. rewrite fmap_app, <- (assoc_L (++)). done. }
    assert (Hext : forall o, border sub (S i) o -> table_ok sub (ov ++ [Z.of_nat o])).
    { intros o Ho k v Hv. apply lookup_app_Some in Hv as [Hv|[Hk Hv]]; [by apply Hov|].
      rewrite Hi in Hk, Hv. destruct (k - i)%nat as [|k'] eqn:Ek; [|done].
      injection Hv as <-. assert (k = i) as -> by lia. by exists o. }
    assert (Hnext : forall o, border sub (S i) o ->
      exists ov', overlap_loop rounds (sub ++ [NUL]) ((Some <$> (ov ++ [Z.of_nat o])) ++ tl)
        (Z.of_nat i + 1) (Z.of_nat o) = Ok (Some <$> ov') /\
        table_ok sub ov' /\ length ov' = length sub).
    { intros o Ho. replace (Z.of_nat i + 1) with (Z.of_nat (S i)) by lia.
      apply (IH (S i) o (ov ++ [Z.of_nat o]) tl); try done; try lia.
      - by apply Hext.
      - rewrite length_app. cbn. lia.
      - cbn in Htl. lia.
      - rewrite lookup_app_r by lia. by replace (S i - 1 - length ov)%nat with 0%nat by lia. }
    case_bool_decide as Hab.
    + subst b. rewrite (rdc_init ov (cell :: tl) _ (Z.of_nat j)), bind_Ok.
      2: lia. 2: by replace (Z.to_nat (Z.of_nat i - 1)) with (i - 1)%nat by lia.
      rewrite Hset, bind_Ok. replace (Z.of_nat j + 1) with (Z.of_nat (S j)) by lia.
      apply Hnext. by eapply border_S.
    + rewrite Hset, bind_Ok. apply (Hnext 0%nat). apply border_0. lia.
Qed.

(** The part of the pattern that is matched. *)
Definition matched (s sub : list ascii) (i m : nat) : Prop :=
  (m <= i)%nat /\ (m <= length sub)%nat /\ take m sub = take m (drop (i - m) s) /\
  (m <= length (drop (i - m) s))%nat.

Lemma matched_S s sub i m c :
  matched s sub i m -> s !! i = Some c -> sub !! m = Some c -> matched s sub (S i) (S m).
Proof.
  intros (H1 & H2 & H3 & H4) Hi Hm. pose proof (lookup_lt_Some _ _ _ Hi).
  pose proof (lookup_lt_Some _ _ _ Hm).
  assert (Hd : drop (i - m) s !! m = Some c).
  { rewrite lookup_drop. by replace (i - m + m)%nat with i by lia. }
  split; [lia|]. split; [lia|]. replace (S i - S m)%nat with (i - m)%nat by lia.
  rewrite (take_S_r sub m c Hm), (take_S_r _ m c Hd), H3. split; [done|].
  rewrite length_drop in *. lia.
Qed.

(** Falling back to a border keeps the part before [i] matched. *)
Lemma matched_border s sub i k o :
  matched s sub i (S k) -> border sub (S k) o -> matched s sub i o.
Proof.
  intros (H1 & H2 & H3 & H4) [Hlt Hb]. split; [lia|]. split; [lia|].
  split; [|rewrite length_drop in *; lia].
  rewrite Hb, H3, skipn_firstn_comm, drop_drop.
  replace (i - S k + (S k - o))%nat with (i - o)%nat by lia.
  by replace (S k - (S k - o))%nat with o by lia.
Qed.

Lemma matched_0 s sub i : matched s sub i 0.
Proof. split; [lia|]. split; [lia|]. split; [done|lia]. Qed.

Lemma overlap_search_spec fuel s sub ov (i m : nat) :
  table_ok sub ov -> length ov = length sub -> (0 < length sub)%nat -> (i <= length s)%nat ->
  matched s sub i m -> (2 * (length s - i) + m <= fuel)%nat ->
  exists r, overlap_search fuel (s ++ [NUL]) (sub ++ [NUL]) (Some <$> ov) (Z.of_nat (length s))
      (Z.of_nat (length sub)) (Z.of_nat i) (Z.of_nat m) (Z.of_nat m) = Ok r /\
    (r = -1 \/ exists p, r = Z.of_nat p /\ occurs_at s sub p).
Proof.
  intros Hov Hl Hpos. revert i m. induction fuel as [|fuel IH]; intros i m Hi Hm Hf.
  - cbn [overlap_search]. rewrite (proj2 (Z.ltb_ge _ _)) by lia. exists (-1). auto.
  - cbn [overlap_search]. destruct (Z.ltb_spec (Z.of_nat i) (Z.of_nat (length s))) as [Hlt|Hge].
    2: { exists (-1). auto. }
    pose proof Hm as (H1 & H2 & H3 & H4).
    destruct (Z.eqb_spec (Z.of_nat m) (Z.of_nat (length sub))) as [Em|Em].
    { exists (Z.of_nat i - Z.of_nat m). split; [done|]. right. exists (i - m)%nat.
      split; [lia|]. unfold occurs_at. assert (m = length sub) as -> by lia.
      rewrite <- H3. by rewrite take_ge by lia. }
    destruct (lookup_lt_is_Some_2 s i) as [a Ha]; [lia|].
    destruct (lookup_lt_is_Some_2 sub m) as [b Hb]; [lia|].
    rewrite (rd_nat _ i a), bind_Ok by (by rewrite lookup_app_l by lia).
    rewrite (rd_nat _ m b), bind_Ok by (by rewrite lookup_app_l by lia).
    case_bool_decide as Hab.
    + subst b. replace (Z.of_nat i + 1) with (Z.of_nat (S i)) by lia.
      replace (Z.of_nat m + 1) with (Z.of_nat (S m)) by lia.
      apply IH; [lia|by eapply matched_S|lia].
    + destruct (Z.ltb_spec 1 (Z.of_nat m)) as [Hgt|Hle].
      * destruct m as [|k]; [lia|].
        destruct (lookup_lt_is_Some_2 ov k) as [v Hv]; [lia|].
        destruct (Hov k v Hv) as (o & -> & Ho).
        rewrite (rdc_Some _ _ (Z.of_nat o)), bind_Ok.
        2: lia.
        2: { replace (Z.to_nat (Z.of_nat (S k) - 1)) with k by lia. by rewrite list_lookup_fmap, Hv. }
        replace (Z.of_nat i - 1 + 1) with (Z.of_nat i) by lia.
        apply IH; [lia|by eapply matched_border|]. destruct Ho. lia.
      * replace (Z.of_nat i + 1) with (Z.of_nat (S i)) by lia. change 0 with (Z.of_nat 0).
        apply IH; [lia|apply matched_0|lia].
Qed.

(** [my_strstr] terminates, stays within its table and both strings, and what
    it returns is -1 or the position of an occurrence. *)
Lemma my_strstr_sound s sub :
  no_nul s -> no_nul sub -> (0 < length sub)%nat ->
  exists r, my_strstr true (s ++ [NUL]) (sub ++ [NUL]) = Ok r /\
    (r = -1 \/ exists p, r = Z.of_nat p /\ occurs_at s sub p).
Proof.
  intros Hn Hns Hpos. unfold my_strstr, strlen, malloc. rewrite !cstr_nul, !bind_Ok by done.
  destruct (Z.ltb_spec (Z.of_nat (length s)) (Z.of_nat (length sub))) as [Hlt|Hge].
  { exists (-1). auto. }
  rewrite Nat2Z.id. destruct (length sub) as [|k] eqn:Ek; [lia|]. cbn [replicate].
  change (wrc (None :: replicate k None) 0 0) with
    (Ok ((Some <$> [0]) ++ replicate k (@None Z))). rewrite bind_Ok.
  replace (Z.to_nat (Z.of_nat (S k) - 1)) with k by lia.
  destruct (overlap_loop_spec k sub 1 0 [0] (replicate k None)) as (ov & E & Hov & Hl).
  - intros i v Hv. destruct i as [|i]; [|done]. injection Hv as <-. exists 0%nat.
    split; [done|]. apply border_0. lia.
  - done.
  - lia.
  - lia.
  - apply length_replicate.
  - apply border_0. lia.
  - done.
  - change (Z.of_nat 1) with 1 in E. change (Z.of_nat 0) with 0 in E. rewrite E, bind_Ok, <- Ek.
    apply (overlap_search_spec _ s sub ov 0 0); [done|done|lia|lia|apply matched_0|lia].
Qed.

(** Without memory for the table it is undefined, unless the substring is too long. *)
Lemma my_strstr_no_memory s sub :
  no_nul s -> no_nul sub -> (length sub <= length s)%nat ->
  my_strstr false (s ++ [NUL]) (sub ++ [NUL]) = Undef.
Proof.
  intros Hn Hns Hl. unfold my_strstr, strlen, malloc. rewrite !cstr_nul, !bind_Ok by done.
  by rewrite (proj2 (Z.ltb_ge _ _)) by lia.
Qed.

Lemma my_strstr_sound_witness :
  exists r, my_strstr true (chars "abxabyab" ++ [NUL]) (chars "aby" ++ [NUL]) = Ok r /\ r = 3.
Proof.
  destruct (my_strstr_sound (chars "abxabyab") (chars "aby")) as (r & E & _).
  - apply (bool_decide_unpack _). vm_compute. exact I.
  - apply (bool_decide_unpack _). vm_compute. exact I.
  - cbn. lia.
  - exists r. split; [exact E|]. vm_compute in E. injection E as <-. reflexivity.
Defined.

(** It is not complete: after a failed match of one character the character
    that failed is not tried again, and a match that ends the string is not seen. *)
Theorem my_strstr_incomplete :
  my_strstr true (chars "aabx" ++ [NUL]) (chars "ab" ++ [NUL]) = Ok (-1) /\
  occurs_at (chars "aabx") (chars "ab") 1 /\
  my_strstr true (chars "xab" ++ [NUL]) (chars "ab" ++ [NUL]) = Ok (-1) /\
  occurs_at (chars "xab") (chars "ab") 1.
Proof. vm_compute. repeat split. Qed.
