(* ===== verification/StrstrMain.v ===== *)
(** * The test program of src/my_strstr.c

    [main] makes two random strings and compares the two searches of Strstr.v with the
    C library's [strstr]. *)
From stdpp Require Import base list strings.
From Stdlib Require Import ZArith Lia Ascii.
From S2P Require Import Prelude Stdio Strstr.

Open Scope Z_scope.

Definition PAGE_SZ : Z := 4096.

(** [random()%26 + 'a'] *)
Definition letter (r : Z) : ascii := ascii_of_nat (Z.to_nat (Z.rem r 26) + 97).

(** The loop that fills both strings: a letter for the one, a coin, and perhaps a letter
    for the other. [n] is the number of calls of [random] so far. *)
Fixpoint fill (rounds : nat) (rnd : nat -> Z) (n : nat) : list ascii * list ascii :=
  match rounds with
  | O => ([], [])
  | S rounds =>
      let c := letter (rnd n) in
      if Z.land (rnd (S n)) 1 =? 0 then
        let '(str, substr) := fill rounds rnd (n + 2) in (c :: str, substr)
      else
        let d := letter (rnd (n + 2)%nat) in
        let '(str, substr) := fill rounds rnd (n + 3) in (c :: str, d :: substr)
  end.

(** [strstr] of the C library: the first occurrence, as an index, or -1. *)
Definition strstr_pos (s sub : list ascii) : Z :=
  match list_find (occurs_at s sub) (seq 0 (S (length s))) with
  | Some (_, p) => Z.of_nat p
  | None => -1
  end.

(** What is printed: the three positions, and whether the first two agree. *)
Record report : Type := Report { pos : Z; my_pos : Z; my_hash_pos : Z; correct : bool }.

(** [m]: whether both strings can be allocated, [ov]: whether the table of [my_strstr]
    can. [None]: the usage is printed. The memory behind the terminators, which is zero
    too, is left out. *)
Definition strstr_main (m ov : bool) (args : list (list ascii)) (rnd : nat -> Z) : res (option report) :=
  match args with
  | [] => Ok None
  | arg :: _ =>
      '(_, vals) ← sscanf arg [DDec];
      let nr_pages := match vals with [VInt n] => n | _ => 0 end in
      MAX_STRLEN ← int_of (PAGE_SZ * nr_pages);
      ub_unless (m && (0 <? MAX_STRLEN))
        (let '(str, substr) := fill (Z.to_nat (MAX_STRLEN - 1)) rnd 0 in
         my_pos ← my_strstr ov (str ++ [NUL]) (substr ++ [NUL]);
         let pos := strstr_pos str substr in
         my_hash_pos ← my_strstr_hash (str ++ [NUL]) (substr ++ [NUL]);
         Ok (Some (Report pos my_pos my_hash_pos (pos =? my_pos))))
  end.

(** ** The strings *)

Lemma letter_not_nul r : 0 <= r -> letter r <> NUL.
Proof.
  intros Hr E. apply (f_equal nat_of_ascii) in E. unfold letter in E.
  pose proof (Z.rem_bound_pos r 26 Hr ltac:(lia)).
  rewrite nat_ascii_embedding in E by lia. change (nat_of_ascii NUL) with 0%nat in E. lia.
Qed.

Lemma fill_spec rounds rnd n :
  (forall k, 0 <= rnd k) ->
  length (fill rounds rnd n).1 = rounds /\ (length (fill rounds rnd n).2 <= rounds)%nat /\
  no_nul (fill rounds rnd n).1 /\ no_nul (fill rounds rnd n).2.
Proof.
  intros Hr. revert n. induction rounds as [|rounds IH]; intros n; cbn [fill].
  { repeat split; try (cbn; lia); apply not_elem_of_nil. }
  assert (N : forall k l, no_nul l -> no_nul (letter (rnd k) :: l)).
  { intros k l Hl [E|Hin]%elem_of_cons; [|done]. by apply (letter_not_nul (rnd k)). }
  case_Z.
  - destruct (IH (n + 2)%nat) as (L1 & L2 & N1 & N2). destruct (fill rounds rnd (n + 2)).
    cbn in *. repeat split; auto; lia.
  - destruct (IH (n + 3)%nat) as (L1 & L2 & N1 & N2). destruct (fill rounds rnd (n + 3)).
    cbn in *. repeat split; auto; lia.
Qed.

(** The first coin decides. *)
Lemma fill_nonempty rounds rnd n s sub :
  fill rounds rnd n = (s, sub) -> (0 < rounds)%nat -> Z.land (rnd (S n)) 1 <> 0 -> sub <> [].
Proof.
  intros E Hr Hc. destruct rounds as [|rounds]; [lia|]. cbn [fill] in E.
  rewrite (proj2 (Z.eqb_neq _ _)) in E by done. destruct (fill rounds rnd (n + 3)).
  by injection E as <- <-.
Qed.

(** ** The first occurrence *)

Lemma strstr_pos_spec s sub :
  (strstr_pos s sub = -1 /\ forall q, (q <= length s)%nat -> ~ occurs_at s sub q) \/
  (exists p, strstr_pos s sub = Z.of_nat p /\ occurs_at s sub p /\
     forall q, (q < p)%nat -> ~ occurs_at s sub q).
Proof.
  unfold strstr_pos. destruct (list_find _ _) as [[i p]|] eqn:E.
  - right. exists p. apply list_find_Some in E as (Hi & Hp & Hq).
    apply lookup_seq in Hi as [-> Hi]. split; [done|]. split; [done|]. intros q Hlt.
    apply (Hq q q); [|done]. apply lookup_seq. lia.
  - left. split; [done|]. intros q Hq. apply list_find_None in E. rewrite Forall_forall in E.
    apply E. apply elem_of_seq. lia.
Qed.

(** An occurrence of a string that is not empty lies inside. *)
Lemma occurs_at_inside s sub p :
  sub <> [] -> occurs_at s sub p -> (p + length sub <= length s)%nat.
Proof.
  intros Hne H. unfold occurs_at in H. apply (f_equal length) in H.
  rewrite length_take, length_drop in H. assert (length sub <> 0%nat) by (by destruct sub). lia.
Qed.

(** The strings are made; what is left is the comparison. *)
Lemma strstr_main_fill ov nr rnd s sub :
  0 < nr -> PAGE_SZ * nr <= INT_MAX -> fill (Z.to_nat (PAGE_SZ * nr - 1)) rnd 0 = (s, sub) ->
  strstr_main true ov [print_radix 10 1 nr] rnd =
  (my_pos ← my_strstr ov (s ++ [NUL]) (sub ++ [NUL]);
   my_hash_pos ← my_strstr_hash (s ++ [NUL]) (sub ++ [NUL]);
   Ok (Some (Report (strstr_pos s sub) my_pos my_hash_pos (strstr_pos s sub =? my_pos)))).
Proof.
  intros Hnr Hmax Ef. unfold strstr_main, sscanf. rewrite <- (app_nil_r (print_radix 10 1 nr)) at 2.
  rewrite sscanf_dec by (unfold PAGE_SZ in *; lia || by left). cbn [sscanf_loop rev app].
  rewrite bind_Ok, int_of_Ok, bind_Ok by (unfold PAGE_SZ, INT_MIN in *; lia).
  rewrite ub_unless_true by (apply andb_true_iff; split; [done|apply Z.ltb_lt; unfold PAGE_SZ; lia]).
  by rewrite Ef.
Qed.

(** C24. The program for a number of pages: when the second string is not empty it ends, all
    accesses in bounds. [my_strstr] reports nothing or an occurrence, never before the
    first; [my_strstr_hash] the first occurrence, unless that ends the string. When
    the second string is empty, [my_strstr] writes to an array of no elements, and
    without memory for its table through a null pointer. *)
Theorem strstr_main_reports nr rnd s sub :
  0 < nr -> PAGE_SZ * nr <= INT_MAX -> (forall k, 0 <= rnd k) ->
  fill (Z.to_nat (PAGE_SZ * nr - 1)) rnd 0 = (s, sub) ->
  let main := strstr_main true true [print_radix 10 1 nr] rnd in
  (sub <> [] -> exists p m h, main = Ok (Some (Report p m h (p =? m))) /\ p = strstr_pos s sub /\
     (m = -1 \/ exists q, m = Z.of_nat q /\ p <= m /\ occurs_at s sub q) /\
     (h = p \/ h = -1 /\ p + Z.of_nat (length sub) = Z.of_nat (length s))) /\
  (sub = [] -> main = Undef) /\ strstr_main true false [print_radix 10 1 nr] rnd = Undef.
Proof.
  intros Hnr Hmax Hr Ef main. subst main. rewrite !(strstr_main_fill _ nr rnd s sub) by done.
  pose proof (fill_spec (Z.to_nat (PAGE_SZ * nr - 1)) rnd 0 Hr) as (L1 & L2 & N1 & N2).
  rewrite Ef in L1, L2, N1, N2. cbn [fst snd] in *. split; [|split].
  - intros Hne. assert (Hl : (0 < length sub)%nat) by (destruct sub; [done|cbn; lia]).
    destruct (my_strstr_sound s sub N1 N2 Hl) as (m & -> & Hm). rewrite bind_Ok.
    destruct (hash_finds s sub N1 N2) as (h & -> & Hh); [lia|]. rewrite bind_Ok.
    exists (strstr_pos s sub), m, h. split; [done|]. split; [done|].
    destruct (strstr_pos_spec s sub) as [(-> & Hno)|(p & -> & Hp & Hfirst)]; split.
    + destruct Hm as [->|(q & -> & Hq)]; [by left|]. exfalso. apply (Hno q); [|done].
      pose proof (occurs_at_inside s sub q Hne Hq). lia.
    + left. destruct Hh as [[-> _]|(q & -> & Hq & Ho & _)]; [done|]. exfalso. apply (Hno q); [lia|done].
    + destruct Hm as [->|(q & -> & Hq)]; [by left|]. right. exists q. split; [done|]. split; [|done].
      destruct (decide (q < p)%nat) as [Hlt|]; [by destruct (Hfirst q Hlt)|lia].
    + pose proof (occurs_at_inside s sub p Hne Hp).
      destruct Hh as [[-> Hno]|(q & -> & Hq & Ho & Hf)].
      * right. split; [done|]. destruct (decide (p + length sub < length s)%nat) as [Hlt|]; [|lia].
        by destruct (Hno p Hlt).
      * left. f_equal. destruct (decide (q < p)%nat) as [Hlt|]; [by destruct (Hfirst q Hlt)|].
        destruct (decide (p < q)%nat) as [Hlt|]; [by destruct (Hf p Hlt)|lia].
  - intros ->. unfold my_strstr, strlen. rewrite !cstr_nul, !bind_Ok by done.
    rewrite (proj2 (Z.ltb_ge _ _)) by (cbn; lia). reflexivity.
  - by rewrite my_strstr_no_memory by (done || lia).
Qed.

Lemma strstr_main_reports_witness :
  exists p m h, strstr_main true true [print_radix 10 1 1] (fun k => Z.of_nat k) =
      Ok (Some (Report p m h (p =? m))) /\ (h = p \/ h = -1).
Proof.
  destruct (fill (Z.to_nat (PAGE_SZ * 1 - 1)) (fun k => Z.of_nat k) 0) as [s sub] eqn:E.
  destruct (strstr_main_reports 1 (fun k => Z.of_nat k) s sub) as [H _].
  - lia.
  - unfold PAGE_SZ, INT_MAX. lia.
  - intros k. lia.
  - exact E.
  - destruct H as (p & m & h & Hm & Hp & _ & Hh).
    + apply (fill_nonempty _ _ _ _ _ E); [unfold PAGE_SZ; lia|discriminate].
    + exists p, m, h. split; [exact Hm|]. destruct Hh as [?|[? _]]; [by left|by right].
Defined.
