(* ===== verification/Puzzles.v ===== *)
(** * Small programs: src/test_bsearch.c, test_brackets.c, test_mask.c, hist.c,
    test_hash.c and test_list.c, one Module each *)
From stdpp Require Import base list strings gmap.
From Stdlib Require Import ZArith Lia Ascii.
From S2P Require Import Prelude Stdio.

Open Scope Z_scope.

(** ** src/test_bsearch.c *)
Module BSearch.

(** The loop; the bound on its rounds is the width of the interval. *)
Fixpoint search_loop (fuel : nat) (array : list Z) (data low mid high : Z) : res (Z * bool) :=
  if 1 <? high - low then
    match fuel with
    | O => NoFuel
    | S fuel =>
        shown ← rd array mid;                   (* printed *)
        let mid := low + Z.quot (high - low) 2 in
        x ← rd array mid;
        if data =? x then Ok (mid, true)
        else if data <? x then search_loop fuel array data low mid (mid - 1)
        else search_loop fuel array data mid mid high
    end
  else Ok (mid, false).

Definition binary_search (array : list Z) (data length : Z) : res Z :=
  '(mid, found) ← search_loop (Z.to_nat length) array data 0 0 length;
  if (found : bool) then Ok mid
  else
    x ← rd array mid;
    if x <? data then Ok (Z.lnot (mid + 1)) else Ok (Z.lnot mid).

Lemma search_loop_spec fuel array data low mid high :
  high - low <= Z.of_nat fuel -> 0 <= low -> high <= Z.of_nat (length array) ->
  0 <= mid < Z.of_nat (length array) ->
  exists m b, search_loop fuel array data low mid high = Ok (m, b) /\
    0 <= m < Z.of_nat (length array) /\ (b = true -> array !! Z.to_nat m = Some data).
Proof.
  revert low mid high. induction fuel as [|fuel IH]; intros low mid high Hf Hl Hh Hm;
    cbn [search_loop]; destruct (Z.ltb_spec 1 (high - low)) as [Hlt|Hge]; try lia;
    try (exists mid, false; done).
  destruct (rd_in_bounds array mid Hm) as (p & -> & _). rewrite bind_Ok.
  assert (Hq : 1 <= Z.quot (high - low) 2 < high - low).
  { rewrite Z.quot_div_nonneg by lia. pose proof (Z.div_mod (high - low) 2 ltac:(lia)).
    pose proof (Z.mod_pos_bound (high - low) 2 ltac:(lia)). lia. }
  set (m := low + Z.quot (high - low) 2) in *.
  destruct (rd_in_bounds array m) as (x & -> & Hx); [lia|]. rewrite bind_Ok.
  destruct (Z.eqb_spec data x) as [->|Hne]; [exists m, true; split; [done|split; [lia|done]]|].
  destruct (data <? x); apply IH; lia.
Qed.

(** On a non-empty array the search terminates within the array, and an index
    it returns as found holds the value; but the loop never looks at an interval of
    one element, so in a one element array even the element itself is not found. *)
Theorem binary_search_sound array data :
  0 < Z.of_nat (length array) ->
  (exists r, binary_search array data (Z.of_nat (length array)) = Ok r /\
    (0 <= r -> array !! Z.to_nat r = Some data)) /\
  binary_search [data] data 1 = Ok (Z.lnot 0).
Proof.
  intros Hpos. split.
  - unfold binary_search.
    destruct (search_loop_spec (Z.to_nat (Z.of_nat (length array))) array data 0 0
      (Z.of_nat (length array))) as (m & b & -> & Hm & Hb); [lia..|].
    rewrite bind_Ok. destruct b; [exists m; auto|].
    destruct (rd_in_bounds array m Hm) as (x & -> & _). rewrite bind_Ok.
    destruct (x <? data); eexists; (split; [reflexivity|]); unfold Z.lnot; lia.
  - unfold binary_search. change (search_loop _ _ _ 0 0 1) with (Ok (0, false)). rewrite bind_Ok.
    change (rd [data] 0) with (Ok data). by rewrite bind_Ok, Z.ltb_irrefl.
Qed.

Lemma binary_search_sound_witness :
  exists r, binary_search [3; 4; 8; 14] 8 4 = Ok r /\ r = 2.
Proof.
  destruct (binary_search_sound [3; 4; 8; 14] 8) as [(r & E & _) _]; [cbn; lia|].
  exists r. split; [exact E|]. vm_compute in E. injection E as <-. reflexivity.
Defined.

End BSearch.

(** ** src/test_brackets.c *)
Module Brackets.

Definition L : ascii := "("%char.
Definition R : ascii := ")"%char.

(** [while (nr_right--) bracket_str[i++] = ')'], and the terminator. Every round writes
    one place further on, so that the rounds that fit the buffer bound the loop. *)
Fixpoint close_all (fuel : nat) (buf : list ascii) (i nr_right : Z) : res (list ascii * Z) :=
  if nr_right =? 0 then buf ← wr buf i NUL; Ok (buf, i)
  else
    match fuel with
    | O => NoFuel
    | S fuel =>
        nr_right ← int_of (nr_right - 1);
        buf ← wr buf i R;
        i ← int_of (i + 1);
        close_all fuel buf i nr_right
    end.

(** The buffer is shared by all the calls; the result adds what is printed. *)
Fixpoint gen_brackets (fuel : nat) (buf : list ascii) (i nr_left nr_right : Z)
    : res (list ascii * list (list ascii)) :=
  if negb (nr_left =? 0) then
    match fuel with
    | O => NoFuel
    | S fuel =>
        buf ← wr buf i L;
        i' ← int_of (i + 1);
        nl' ← int_of (nr_left - 1);
        '(buf, out1) ← gen_brackets fuel buf i' nl' nr_right;
        if nr_left <? nr_right then
          buf ← wr buf i R;
          i ← int_of (i + 1);
          nr_right ← int_of (nr_right - 1);
          '(buf, out2) ← gen_brackets fuel buf i nr_left nr_right;
          Ok (buf, out1 ++ out2)
        else Ok (buf, out1)
    end
  else
    '(buf, i) ← close_all (S (length buf)) buf i nr_right;
    s ← cstr buf;
    Ok (buf, [s]).

(** [main]: the lines it prints, [None] being the usage message. The size is an [int],
    a negative one is too much for [malloc], and its result goes to [memset] untested.
    The recursion is as deep as there are brackets. *)
Definition brackets_main (malloc_ok : bool) (args : list (list ascii))
    : res (option (list (list ascii))) :=
  match args with
  | [] => Ok None
  | a :: _ =>
      nr_brackets ← scan_arg None a;
      twice ← int_of (nr_brackets * 2);
      size ← int_of (twice + 1);
      ub_unless (malloc_ok && (0 <=? size))
        ('(_, out) ← gen_brackets (Z.to_nat twice) (replicate (Z.to_nat size) NUL) 0
                       nr_brackets nr_brackets;
         Ok (Some out))
  end.

(** The specification: strings of brackets that close what is open at depth [d]. *)
Fixpoint balanced (d : nat) (w : list ascii) : bool :=
  match w with
  | [] => Nat.eqb d 0
  | c :: w =>
      if bool_decide (c = L) then balanced (S d) w
      else if bool_decide (c = R) then
        match d with O => false | S d => balanced d w end
      else false
  end.

Definition opens (w : list ascii) : nat := count_occ ascii_dec w L.

(** The strings without the buffer. *)
Fixpoint strings (fuel nl nr : nat) : list (list ascii) :=
  match nl with
  | O => [replicate nr R]
  | S nl' =>
      match fuel with
      | O => []
      | S fuel =>
          map (cons L) (strings fuel nl' nr) ++
          (if Nat.ltb nl nr then map (cons R) (strings fuel nl (nr - 1)) else [])
      end
  end.

Lemma close_all_spec fuel nr pre tl :
  (nr <= fuel)%nat -> (nr < length tl)%nat -> Z.of_nat (length pre + length tl) <= INT_MAX ->
  exists tl', close_all fuel (pre ++ tl) (Z.of_nat (length pre)) (Z.of_nat nr) =
    Ok (pre ++ replicate nr R ++ NUL :: tl', Z.of_nat (length pre + nr)) /\
    length tl = (nr + 1 + length tl')%nat.
Proof.
  revert fuel pre tl. induction nr as [|nr IH]; intros fuel pre tl Hf Hl Hm;
    (destruct tl as [|c tl]; [cbn in Hl; lia|]).
  - assert (E : wr (pre ++ c :: tl) (Z.of_nat (length pre)) NUL = Ok (pre ++ NUL :: tl)).
    { rewrite wr_Ok by (rewrite length_app; cbn; lia).
      by rewrite Nat2Z.id, insert_app_r_alt, Nat.sub_diag by lia. }
    exists tl. rewrite Nat.add_0_r. destruct fuel; cbn [close_all];
      change (Z.of_nat 0 =? 0) with true; cbv iota; rewrite E, bind_Ok; cbn; (split; [done|lia]).
  - destruct fuel as [|fuel]; [lia|]. cbn [close_all]. rewrite (proj2 (Z.eqb_neq _ _)) by lia.
    cbn [length] in Hl, Hm.
    rewrite (int_of_Ok (Z.of_nat (S nr) - 1)), bind_Ok by (unfold INT_MIN, INT_MAX in *; lia).
    rewrite wr_Ok, bind_Ok by (rewrite length_app; cbn; lia).
    rewrite Nat2Z.id, insert_app_r_alt, Nat.sub_diag by lia. cbn [list_insert insert].
    rewrite (int_of_Ok (Z.of_nat (length pre) + 1)), bind_Ok by (unfold INT_MIN; lia).
    replace (Z.of_nat (S nr) - 1) with (Z.of_nat nr) by lia.
    replace (Z.of_nat (length pre) + 1) with (Z.of_nat (length (pre ++ [R])))
      by (rewrite length_app; cbn; lia).
    replace (pre ++ R :: tl) with ((pre ++ [R]) ++ tl) by by rewrite <- (assoc_L (++)).
    destruct (IH fuel (pre ++ [R]) tl) as (tl' & -> & Hlen);
      [lia|lia|rewrite length_app; cbn; lia|].
    exists tl'. cbn [length]. split; [|lia]. rewrite <- (assoc_L (++)). cbn.
    rewrite length_app. cbn. do 2 f_equal. lia.
Qed.

Lemma close_all_no_nul pre nr : no_nul pre -> no_nul (pre ++ replicate nr R).
Proof.
  intros H Hin. apply elem_of_app in Hin as [?|Hin]; [done|].
  by apply elem_of_replicate in Hin as [? _].
Qed.

(** The branch without an opening bracket left. *)
Lemma gen_brackets_closing fuel pre tl nr :
  (nr < length tl)%nat -> no_nul pre -> Z.of_nat (length pre + length tl) <= INT_MAX ->
  exists tl', gen_brackets fuel (pre ++ tl) (Z.of_nat (length pre)) (Z.of_nat 0) (Z.of_nat nr) =
    Ok (pre ++ tl', [pre ++ replicate nr R]) /\ length tl' = length tl.
Proof.
  intros Hl Hn Hm.
  destruct (close_all_spec (S (length (pre ++ tl))) nr pre tl) as (tl' & E & Hlen);
    [rewrite length_app; lia|lia|done|].
  exists (replicate nr R ++ NUL :: tl'). split; [|rewrite length_app, length_replicate; cbn; lia].
  destruct fuel; cbn [gen_brackets]; change (negb (Z.of_nat 0 =? 0)) with false; cbv iota;
    rewrite E, bind_Ok, (assoc_L (++)), cstr_nul, bind_Ok by (by apply close_all_no_nul);
    by rewrite <- (assoc_L (++)).
Qed.

Lemma gen_brackets_spec fuel pre tl nl nr :
  (nl + nr <= fuel)%nat -> (nl <= nr)%nat -> (nl + nr < length tl)%nat -> no_nul pre ->
  Z.of_nat (length pre + length tl) <= INT_MAX ->
  exists tl', gen_brackets fuel (pre ++ tl) (Z.of_nat (length pre)) (Z.of_nat nl) (Z.of_nat nr) =
    Ok (pre ++ tl', map (app pre) (strings fuel nl nr)) /\ length tl' = length tl.
Proof.
  revert pre tl nl nr. induction fuel as [|fuel IH]; intros pre tl nl nr Hf Hle Hl Hn Hm.
  - assert (nl = 0%nat) as -> by lia. cbn [strings map]. by apply gen_brackets_closing; [lia|..].
  - destruct nl as [|nl].
    + cbn [strings map]. by apply gen_brackets_closing; [lia|..].
    + destruct tl as [|c tl]; [cbn in Hl; lia|]. cbn [length] in Hl, Hm.
      assert (Hput : forall x c' tl0, wr (pre ++ c' :: tl0) (Z.of_nat (length pre)) x
        = Ok ((pre ++ [x]) ++ tl0)).
      { intros x c' tl0. rewrite wr_Ok by (rewrite length_app; cbn; lia).
        rewrite Nat2Z.id, insert_app_r_alt, Nat.sub_diag by lia. by rewrite <- (assoc_L (++)). }
      assert (Hmap : forall x l, map (app (pre ++ [x])) l = map (app pre) (map (cons x) l)).
      { intros x l. rewrite map_map. apply map_ext. intros w. by rewrite <- (assoc_L (++)). }
      assert (Hnx : forall x, x = L \/ x = R -> no_nul (pre ++ [x])).
      { intros x Hx Hin. apply elem_of_app in Hin as [?|Hin]; [done|].
        apply list_elem_of_singleton in Hin. destruct Hx as [->| ->]; done. }
      assert (Elen : forall x : ascii, Z.of_nat (length pre) + 1 = Z.of_nat (length (pre ++ [x])))
        by (intros x; rewrite length_app; cbn; lia).
      assert (Hlen : forall x : ascii, length (pre ++ [x]) = S (length pre))
        by (intros x; rewrite length_app; cbn; lia).
      cbn [gen_brackets]. rewrite (proj2 (Z.eqb_neq (Z.of_nat (S nl)) 0)) by lia. cbn [negb].
      rewrite Hput, bind_Ok, (int_of_Ok (Z.of_nat (length pre) + 1)), bind_Ok by (unfold INT_MIN; lia).
      rewrite (int_of_Ok (Z.of_nat (S nl) - 1)), bind_Ok by (unfold INT_MIN, INT_MAX in *; lia).
      rewrite (Elen L).
      replace (Z.of_nat (S nl) - 1) with (Z.of_nat nl) by lia.
      destruct (IH (pre ++ [L]) tl nl nr) as (tl1 & -> & E1);
        [lia|lia|lia|by apply Hnx; left|rewrite Hlen; lia|].
      rewrite bind_Ok. cbn [strings]. rewrite map_app, <- Hmap.
      destruct (Nat.ltb_spec (S nl) nr) as [Hlt|Hge].
      * rewrite (proj2 (Z.ltb_lt _ _)) by lia.
        rewrite <- (assoc_L (++)). cbn [app]. rewrite Hput, bind_Ok.
        rewrite bind_Ok, <- (Elen L).
        rewrite (int_of_Ok (Z.of_nat nr - 1)), bind_Ok by (unfold INT_MIN, INT_MAX in *; lia).
        rewrite (Elen R).
        replace (Z.of_nat nr - 1) with (Z.of_nat (nr - 1)) by lia.
        destruct (IH (pre ++ [R]) tl1 (S nl) (nr - 1)%nat) as (tl2 & -> & E2);
          [lia|lia|lia|by apply Hnx; right|rewrite Hlen; lia|].
        rewrite bind_Ok, <- Hmap. exists (R :: tl2). rewrite <- (assoc_L (++)). split; [done|].
        cbn. lia.
      * rewrite (proj2 (Z.ltb_ge _ _)) by lia.
        cbn [map]. rewrite app_nil_r. exists (L :: tl1). rewrite <- (assoc_L (++)). split; [done|].
        cbn. lia.
Qed.

Lemma balanced_closed d w : opens w = 0%nat -> balanced d w = true <-> w = replicate d R.
Proof.
  revert d. induction w as [|c w IH]; intros d Ho; cbn [balanced].
  - destruct d; cbn; [done|]. split; [done|]. discriminate.
  - unfold opens in *. cbn [count_occ] in Ho. destruct (ascii_dec c L) as [->|Hne]; [done|].
    rewrite bool_decide_false by done. case_bool_decide as Hc.
    + subst c. destruct d as [|d]; [split; [done|discriminate]|]. rewrite IH by done. cbn.
      split; [by intros ->|by intros [= ->]].
    + split; [done|]. destruct d; [done|]. intros [= ->]. done.
Qed.

(** The strings are exactly the balanced ones. *)
Lemma strings_spec fuel nl nr w :
  (nl + nr <= fuel)%nat -> (nl <= nr)%nat ->
  w ∈ strings fuel nl nr <-> balanced (nr - nl) w = true /\ opens w = nl.
Proof.
  assert (Base : forall nr w, w ∈ [replicate nr R] <-> balanced nr w = true /\ opens w = 0%nat).
  { intros nr' w'. rewrite list_elem_of_singleton. split.
    - intros ->. assert (Ho : opens (replicate nr' R) = 0%nat) by (unfold opens; by induction nr').
      by rewrite balanced_closed.
    - intros [Hb Ho]. by apply balanced_closed in Hb. }
  revert nl nr w. induction fuel as [|fuel IH]; intros nl nr w Hf Hle.
  - assert (nl = 0%nat) as -> by lia. cbn [strings]. rewrite Base. by rewrite Nat.sub_0_r.
  - destruct nl as [|nl]; [cbn [strings]; rewrite Base; by rewrite Nat.sub_0_r|].
    cbn [strings]. rewrite elem_of_app. split.
    + intros [Hw|Hw].
      * apply list_elem_of_In, in_map_iff in Hw as (v & <- & Hv%list_elem_of_In).
        apply IH in Hv as [Hb Ho]; [|lia..]. cbn [balanced]. rewrite bool_decide_true by done.
        unfold opens in *. cbn [count_occ]. rewrite Ho. destruct (ascii_dec L L); [|done].
        split; [|done]. by replace (S (nr - S nl))%nat with (nr - nl)%nat by lia.
      * destruct (Nat.ltb_spec (S nl) nr) as [Hlt|]; [|by apply elem_of_nil in Hw].
        apply list_elem_of_In, in_map_iff in Hw as (v & <- & Hv%list_elem_of_In).
        apply IH in Hv as [Hb Ho]; [|lia..]. cbn [balanced]. rewrite bool_decide_false by done.
        rewrite bool_decide_true by done. unfold opens in *. cbn [count_occ].
        split; [|done]. replace (nr - S nl)%nat with (S (nr - 1 - S nl)) by lia. done.
    + intros [Hb Ho]. destruct w as [|c w]; [done|]. cbn [balanced] in Hb.
      unfold opens in Ho. cbn [count_occ] in Ho. destruct (ascii_dec c L) as [->|Hne].
      * left. rewrite bool_decide_true in Hb by done. apply list_elem_of_In, in_map_iff.
        exists w. split; [done|]. apply list_elem_of_In, IH; [lia..|].
        replace (nr - nl)%nat with (S (nr - S nl)) by lia. split; [done|]. unfold opens. lia.
      * right. rewrite bool_decide_false in Hb by done. case_bool_decide as Hc; [|done]. subst c.
        destruct (nr - S nl)%nat as [|d] eqn:Ed; [done|].
        rewrite (proj2 (Nat.ltb_lt _ _)) by lia. apply list_elem_of_In, in_map_iff.
        exists w. split; [done|]. apply list_elem_of_In, IH; [lia..|].
        replace (nr - 1 - S nl)%nat with d by lia. split; [done|]. exact Ho.
Qed.

Lemma strings_NoDup fuel nl nr : NoDup (strings fuel nl nr).
Proof.
  revert nl nr. induction fuel as [|fuel IH]; intros [|nl] nr; cbn [strings];
    try apply NoDup_singleton; [apply NoDup_nil_2|].
  apply NoDup_app. split; [apply NoDup_fmap_2; [by intros ? ? [=]|apply IH]|]. split.
  - intros w Hw Hw'. destruct (Nat.ltb _ _); [|by apply elem_of_nil in Hw'].
    apply list_elem_of_In, in_map_iff in Hw as (v & <- & _).
    apply list_elem_of_In, in_map_iff in Hw' as (v' & E & _). discriminate.
  - destruct (Nat.ltb _ _); [|apply NoDup_nil_2]. apply NoDup_fmap_2; [by intros ? ? [=]|apply IH].
Qed.

(** C35. test_brackets for a number [n] of pairs below 2^30, with memory for the string:
    it prints every balanced string of [n] pairs of brackets, each exactly once, and
    nothing else, and never writes outside its buffer. Without the memory, or from
    2^30 on, where the size overflows, it is undefined. *)
Theorem gen_brackets_complete n malloc_ok :
  0 <= n <= INT_MAX ->
  if malloc_ok && (n <? 2 ^ 30) then
    exists out, brackets_main malloc_ok [print_radix 10 1 n] = Ok (Some out) /\ NoDup out /\
      forall w, w ∈ out <-> balanced 0 w = true /\ opens w = Z.to_nat n
  else brackets_main malloc_ok [print_radix 10 1 n] = Undef.
Proof.
  intros Hn. unfold brackets_main. rewrite scan_arg_print, bind_Ok by done.
  destruct (Z.ltb_spec n (2 ^ 30)) as [Hlt|Hge].
  - rewrite int_of_Ok, bind_Ok by (unfold INT_MIN, INT_MAX; lia).
    rewrite int_of_Ok, bind_Ok by (unfold INT_MIN, INT_MAX; lia).
    destruct malloc_ok; [|done]. cbn [andb]. rewrite ub_unless_true by (apply Z.leb_le; lia).
    set (k := Z.to_nat n). replace (Z.to_nat (n * 2)) with (2 * k)%nat by lia.
    replace (Z.to_nat (n * 2 + 1)) with (k * 2 + 1)%nat by lia.
    replace n with (Z.of_nat k) by lia.
    destruct (gen_brackets_spec (2 * k) [] (replicate (k * 2 + 1) NUL) k k) as (tl & E & _);
      [lia|lia|rewrite length_replicate; lia|by intros ?%elem_of_nil| |].
    { rewrite length_replicate. unfold INT_MAX. cbn [length]. lia. }
    cbn [app length] in E. change (Z.of_nat 0) with 0 in E. rewrite E, bind_Ok.
    eexists. split; [reflexivity|]. rewrite map_id. split; [apply strings_NoDup|].
    intros w. rewrite strings_spec by lia. by rewrite Nat.sub_diag.
  - rewrite andb_false_r. assert (E : int_of (n * 2) = Undef); [|by rewrite E].
    unfold int_of, in_int. by rewrite (proj2 (Z.leb_gt (n * 2) INT_MAX)), andb_false_r
      by (unfold INT_MAX; lia).
Qed.

Lemma gen_brackets_complete_witness :
  exists out, brackets_main true [chars "3"] = Ok (Some out) /\ NoDup out /\ length out = 5%nat.
Proof.
  destruct (gen_brackets_complete 3 true) as (out & E & H & _).
  - unfold INT_MAX. lia.
  - exists out. split; [exact E|]. split; [exact H|]. vm_compute in E. by injection E as <-.
Defined.

(** A negative number of pairs is too large a size for [malloc]. *)
Lemma brackets_negative malloc_ok : brackets_main malloc_ok [chars "-2"] = Undef.
Proof. by destruct malloc_ok. Qed.

End Brackets.

(** ** src/test_mask.c *)
Module Mask.

(** The [printf] evaluates [1<<(m+1)] for every [m]. *)
Definition gen_mask (m n : Z) : res Z :=
  mask1 ← (if m <? 31 then s ← shl_int 1 (m + 1); int_of (s - 1) else Ok 0);
  t ← shl_int 1 n;
  u ← int_of (t - 1);
  let mask2 := Z.lnot u in
  shown ← shl_int 1 (m + 1);
  Ok (Z.land mask1 mask2).

(** [gen_mask m n] has exactly the bits [n] to [m] set, for [m] up to 29; the
    second call in [main], for [m] = 31, shifts by 32, which is undefined. *)
Theorem gen_mask_bits m n :
  -1 <= m <= 29 -> 0 <= n <= 30 ->
  (exists r, gen_mask m n = Ok r /\
    forall i, 0 <= i -> Z.testbit r i = (n <=? i) && (i <=? m)) /\
  gen_mask 31 4 = Undef.
Proof.
  intros Hm Hn. split; [|done]. unfold gen_mask.
  assert (P : forall k, 0 <= k <= 30 -> 1 <= 2 ^ k <= 2 ^ 30).
  { intros k Hk. split; [|apply Z.pow_le_mono_r; lia].
    assert (0 < 2 ^ k) by (apply Z.pow_pos_nonneg; lia). lia. }
  pose proof (P (m + 1) ltac:(lia)). pose proof (P n ltac:(lia)).
  rewrite (proj2 (Z.ltb_lt m 31)) by lia. unfold INT_MAX.
  rewrite !shl_int_Ok, !Z.mul_1_l, !bind_Ok by (unfold INT_MAX; lia).
  do 2 (rewrite int_of_Ok by (unfold INT_MIN, INT_MAX; lia); rewrite !bind_Ok).
  eexists. split; [reflexivity|]. intros i Hi.
  rewrite Z.land_spec, Z.lnot_spec by done.
  rewrite !Z.sub_1_r, <- !Z.ones_equiv, !Z.testbit_ones_nonneg by lia.
  destruct (Z.ltb_spec i n), (Z.ltb_spec i (m + 1)), (Z.leb_spec n i), (Z.leb_spec i m); try done; lia.
Qed.

Lemma gen_mask_bits_witness : exists r, gen_mask 8 4 = Ok r /\ Z.testbit r 8 = true.
Proof.
  destruct (gen_mask_bits 8 4) as [(r & E & H) _]; [lia|lia|].
  exists r. split; [exact E|]. rewrite H by lia. reflexivity.
Defined.

End Mask.

(** ** src/hist.c *)
Module Hist.

Definition NCOLS : nat := 120.
Definition NROWS : nat := 25.

(** [plot[j][i]]. *)
Abbreviation plot_t := (list (list ascii)).

Definition set2 (p : plot_t) (j i : Z) (x : ascii) : res plot_t :=
  row ← rd p j; row ← wr row i x; wr p j row.

Definition plus : ascii := "+"%char.
Definition star : ascii := "*"%char.

(** The two loops that draw the axes. *)
Fixpoint axis_row (rounds : nat) (p : plot_t) (i : Z) : res plot_t :=
  match rounds with
  | O => Ok p
  | S rounds => p ← set2 p 0 i plus; axis_row rounds p (i + 1)
  end.

Fixpoint axis_col (rounds : nat) (p : plot_t) (i : Z) : res plot_t :=
  match rounds with
  | O => Ok p
  | S rounds => p ← set2 p i 0 plus; axis_col rounds p (i + 1)
  end.

(** [for (i = 1; i < nr_dots; i++) plot[k+1][i] = '*'], from [i] on. *)
Fixpoint bar (rounds : nat) (p : plot_t) (j i : Z) : res plot_t :=
  match rounds with
  | O => Ok p
  | S rounds => p ← set2 p j i star; bar rounds p j (i + 1)
  end.

Fixpoint bars (data : list Z) (p : plot_t) (k : Z) : res plot_t :=
  match data with
  | [] => Ok p
  | d :: data =>
      let nr_dots := Z.quot d (Z.quot 100 (Z.of_nat NROWS)) in
      p ← bar (Z.to_nat (nr_dots - 1)) p (k + 1) 1;
      bars data p (k + 1)
  end.

Definition draw (data : list Z) : res plot_t :=
  let p := replicate (S NCOLS) (replicate (S NROWS) space) in
  p ← axis_row (S NROWS) p 0;
  p ← axis_col (S NCOLS) p 0;
  bars data p 0.

(** One line of output, and all of them. *)
Fixpoint out_line (rounds : nat) (p : plot_t) (j i : Z) : res (list ascii) :=
  match rounds with
  | O => Ok []
  | S rounds =>
      row ← rd p j;
      c ← rd row i;
      l ← out_line rounds p (j + 1) i;
      Ok (c :: l)
  end.

Fixpoint out_lines (rounds : nat) (p : plot_t) (i : Z) : res (list (list ascii)) :=
  match rounds with
  | O => Ok []
  | S rounds =>
      l ← out_line (S NCOLS) p 0 (Z.of_nat NROWS - i);
      ls ← out_lines rounds p (i + 1);
      Ok (l :: ls)
  end.

Definition print_hist (data : list Z) : res (list (list ascii)) :=
  p ← draw data; out_lines (S NROWS) p 0.

(** The specification: what is at column [j] and height [i]. *)
Definition expected (data : list Z) (j i : nat) : ascii :=
  match j with
  | O => plus
  | S k =>
      match i with
      | O => plus
      | S _ =>
          match data !! k with
          | Some d => if Z.of_nat i <? d / 4 then star else space
          | None => space
          end
      end
  end.

Definition dims (p : plot_t) : Prop :=
  length p = S NCOLS /\ Forall (fun row => length row = S NROWS) p.

Definition cell (p : plot_t) (j i : nat) : option ascii := row ← p !! j; row !! i.

Lemma set2_spec p (j i : nat) x :
  dims p -> (j <= NCOLS)%nat -> (i <= NROWS)%nat ->
  exists p', set2 p (Z.of_nat j) (Z.of_nat i) x = Ok p' /\ dims p' /\
    forall j' i', cell p' j' i' = if decide (j' = j /\ i' = i) then Some x else cell p j' i'.
Proof.
  intros [Hl Hr] Hj Hi. destruct (lookup_lt_is_Some_2 p j) as [row Hrow]; [lia|].
  assert (Hrl : length row = S NROWS) by (rewrite Forall_lookup in Hr; by eapply Hr).
  unfold set2. rewrite (rd_nat _ _ _ Hrow), bind_Ok, wr_Ok, bind_Ok, wr_Ok, !Nat2Z.id by lia.
  eexists. split; [reflexivity|]. split.
  - split; [by rewrite length_insert|]. apply Forall_insert; [done|]. by rewrite length_insert.
  - intros j' i'. unfold cell. destruct (decide (j' = j)) as [->|Hne].
    + rewrite list_lookup_insert_eq, Hrow by lia. cbn. destruct (decide (i' = i)) as [->|Hni].
      * rewrite list_lookup_insert_eq by lia. by rewrite decide_True.
      * rewrite list_lookup_insert_ne by done. by rewrite decide_False by tauto.
    + rewrite list_lookup_insert_ne by done. by rewrite decide_False by tauto.
Qed.

(** A loop that writes [x] along a line: at [(f k)] for [k] from [k0]. *)
Lemma axis_row_spec rounds p (i : nat) :
  dims p -> (i + rounds = S NROWS)%nat ->
  exists p', axis_row rounds p (Z.of_nat i) = Ok p' /\ dims p' /\
    forall j' i', cell p' j' i' =
      if decide (j' = 0 /\ i <= i' < S NROWS)%nat then Some plus else cell p j' i'.
Proof.
  revert p i. induction rounds as [|rounds IH]; intros p i Hd Hi; cbn [axis_row].
  - exists p. split; [done|]. split; [done|]. intros j' i'. by rewrite decide_False by lia.
  - destruct (set2_spec p 0 i plus Hd) as (p1 & E & Hd1 & C1); [lia|lia|].
    change (Z.of_nat 0) with 0 in E. rewrite E, bind_Ok.
    replace (Z.of_nat i + 1) with (Z.of_nat (S i)) by lia.
    destruct (IH p1 (S i) Hd1) as (p2 & -> & Hd2 & C2); [lia|].
    exists p2. split; [done|]. split; [done|]. intros j' i'. rewrite C2, C1.
    repeat case_decide; try done; lia.
Qed.

Lemma axis_col_spec rounds p (j : nat) :
  dims p -> (j + rounds = S NCOLS)%nat ->
  exists p', axis_col rounds p (Z.of_nat j) = Ok p' /\ dims p' /\
    forall j' i', cell p' j' i' =
      if decide (i' = 0 /\ j <= j' < S NCOLS)%nat then Some plus else cell p j' i'.
Proof.
  revert p j. induction rounds as [|rounds IH]; intros p j Hd Hj; cbn [axis_col].
  - exists p. split; [done|]. split; [done|]. intros j' i'. by rewrite decide_False by lia.
  - destruct (set2_spec p j 0 plus Hd) as (p1 & E & Hd1 & C1); [lia|lia|].
    change (Z.of_nat 0) with 0 in E. rewrite E, bind_Ok.
    replace (Z.of_nat j + 1) with (Z.of_nat (S j)) by lia.
    destruct (IH p1 (S j) Hd1) as (p2 & -> & Hd2 & C2); [lia|].
    exists p2. split; [done|]. split; [done|]. intros j' i'. rewrite C2, C1.
    repeat case_decide; try done; lia.
Qed.

Lemma bar_spec rounds p (j i : nat) :
  dims p -> (j <= NCOLS)%nat -> (i + rounds <= S NROWS)%nat ->
  exists p', bar rounds p (Z.of_nat j) (Z.of_nat i) = Ok p' /\ dims p' /\
    forall j' i', cell p' j' i' =
      if decide (j' = j /\ i <= i' < i + rounds)%nat then Some star else cell p j' i'.
Proof.
  revert p i. induction rounds as [|rounds IH]; intros p i Hd Hj Hi; cbn [bar].
  - exists p. split; [done|]. split; [done|]. intros j' i'. by rewrite decide_False by lia.
  - destruct (set2_spec p j i star Hd) as (p1 & -> & Hd1 & C1); [lia|lia|]. rewrite bind_Ok.
    replace (Z.of_nat i + 1) with (Z.of_nat (S i)) by lia.
    destruct (IH p1 (S i) Hd1) as (p2 & -> & Hd2 & C2); [lia|lia|].
    exists p2. split; [done|]. split; [done|]. intros j' i'. rewrite C2, C1.
    repeat case_decide; try done; lia.
Qed.

Lemma bars_spec data p (k : nat) :
  dims p -> (k + length data <= NCOLS)%nat -> Forall (fun d => 0 <= d <= 107) data ->
  exists p', bars data p (Z.of_nat k) = Ok p' /\ dims p' /\
    forall j' i', cell p' j' i' =
      match data !! (j' - S k)%nat with
      | Some d => if decide ((S k <= j')%nat /\ (1 <= i')%nat /\ Z.of_nat i' < d / 4)
                  then Some star else cell p j' i'
      | None => cell p j' i'
      end.
Proof.
  revert p k. induction data as [|d data IH]; intros p k Hd Hk Hdata; cbn [bars].
  - by exists p.
  - apply Forall_cons in Hdata as [Hd0 Hdata]. cbn [length] in Hk.
    change (Z.quot 100 (Z.of_nat NROWS)) with 4. rewrite Z.quot_div_nonneg by lia.
    assert (Hq : 0 <= d / 4 <= 26).
    { split; [apply Z.div_pos; lia|]. assert (d / 4 < 27); [apply Z.div_lt_upper_bound|]; lia. }
    replace (Z.of_nat k + 1) with (Z.of_nat (S k)) by lia.
    destruct (bar_spec (Z.to_nat (d / 4 - 1)) p (S k) 1 Hd) as (p1 & E & Hd1 & C1);
      [lia|unfold NROWS; lia|].
    change (Z.of_nat 1) with 1 in E. rewrite E, bind_Ok.
    destruct (IH p1 (S k) Hd1) as (p2 & -> & Hd2 & C2); [lia|done|].
    exists p2. split; [done|]. split; [done|]. intros j' i'. rewrite C2, C1.
    destruct (decide (j' = S k)) as [->|Hne].
    + rewrite Nat.sub_diag. cbn [lookup list_lookup].
      replace (S k - S (S k))%nat with 0%nat by lia.
      destruct (data !! 0%nat); repeat case_decide; try done; lia.
    + destruct (decide (j' < S k)%nat) as [Hlt|Hge].
      * replace (j' - S k)%nat with 0%nat by lia. replace (j' - S (S k))%nat with 0%nat by lia.
        cbn [lookup list_lookup]. destruct (data !! 0%nat); repeat case_decide; try done; lia.
      * replace (j' - S k)%nat with (S (j' - S (S k)))%nat by lia.
        change ((d :: data) !! S (j' - S (S k))%nat) with (data !! (j' - S (S k))%nat).
        destruct (data !! _); repeat case_decide; try done; lia.
Qed.

Lemma dims_replicate : dims (replicate (S NCOLS) (replicate (S NROWS) space)).
Proof. split; [by rewrite length_replicate|]. apply Forall_replicate. by rewrite length_replicate. Qed.

Lemma cell_blank (j i : nat) :
  (j <= NCOLS)%nat -> (i <= NROWS)%nat ->
  cell (replicate (S NCOLS) (replicate (S NROWS) space)) j i = Some space.
Proof.
  intros Hj Hi. unfold cell. rewrite lookup_replicate_2 by lia. apply lookup_replicate_2. lia.
Qed.

Lemma draw_spec data :
  (length data <= NCOLS)%nat -> Forall (fun d => 0 <= d <= 107) data ->
  exists p, draw data = Ok p /\ dims p /\
    forall j i : nat, (j <= NCOLS)%nat -> (i <= NROWS)%nat -> cell p j i = Some (expected data j i).
Proof.
  intros Hl Hd. unfold draw.
  destruct (axis_row_spec (S NROWS) _ 0 dims_replicate) as (p1 & E1 & D1 & C1); [done|].
  change (Z.of_nat 0) with 0 in E1. rewrite E1, bind_Ok.
  destruct (axis_col_spec (S NCOLS) p1 0 D1) as (p2 & E2 & D2 & C2); [done|].
  change (Z.of_nat 0) with 0 in E2. rewrite E2, bind_Ok.
  destruct (bars_spec data p2 0 D2) as (p3 & E3 & D3 & C3); [lia|done|].
  exists p3. split; [done|]. split; [done|]. intros j i Hj Hi.
  rewrite C3, C2, C1, cell_blank by done. unfold expected.
  destruct j as [|k].
  - cbn [Nat.sub]. destruct (data !! 0%nat); repeat case_decide; try done; lia.
  - replace (S k - 1)%nat with k by lia.
    destruct i as [|i]; destruct (data !! k) as [d|];
      try (destruct (Z.ltb_spec (Z.of_nat (S i)) (d / 4))); repeat case_decide; try done; lia.
Qed.

Lemma out_line_spec rounds p (j i : nat) (f : nat -> ascii) :
  (i <= NROWS)%nat -> (j + rounds = S NCOLS)%nat ->
  (forall j, (j <= NCOLS)%nat -> cell p j i = Some (f j)) ->
  out_line rounds p (Z.of_nat j) (Z.of_nat i) = Ok (map f (seq j rounds)).
Proof.
  intros Hi. revert j. induction rounds as [|rounds IH]; intros j Hj Hc; [done|].
  cbn [out_line seq map]. pose proof (Hc j ltac:(lia)) as E. unfold cell in E.
  destruct (p !! j) as [row|] eqn:Er; [|done]. cbn in E.
  rewrite (rd_nat _ _ _ Er), bind_Ok, (rd_nat _ _ _ E), bind_Ok.
  replace (Z.of_nat j + 1) with (Z.of_nat (S j)) by lia. by rewrite IH, bind_Ok by (lia || done).
Qed.

(** With at most 120 values below 108 (the program draws 118 values below
    100), [print_hist] stays inside the plot and prints a row for every height
    from 25 down to 0 in which column [j] shows the axis, a star below the value's
    height, or a blank. *)
Theorem print_hist_correct data :
  (length data <= NCOLS)%nat -> Forall (fun d => 0 <= d <= 107) data ->
  print_hist data =
  Ok (map (fun i => map (fun j => expected data j (NROWS - i)) (seq 0 (S NCOLS))) (seq 0 (S NROWS))).
Proof.
  intros Hl Hd. unfold print_hist. destruct (draw_spec data Hl Hd) as (p & -> & _ & Hc).
  rewrite bind_Ok.
  assert (G : forall rounds i, (i + rounds = S NROWS)%nat ->
    out_lines rounds p (Z.of_nat i) =
    Ok (map (fun i => map (fun j => expected data j (NROWS - i)) (seq 0 (S NCOLS))) (seq i rounds))).
  { induction rounds as [|rounds IH]; intros i Hi; [done|]. cbn [out_lines seq].
    replace (Z.of_nat NROWS - Z.of_nat i) with (Z.of_nat (NROWS - i)) by lia.
    change 0 with (Z.of_nat 0).
    rewrite (out_line_spec _ p 0 (NROWS - i) (fun j => expected data j (NROWS - i))), bind_Ok;
      [|lia|done|intros j Hj; apply Hc; lia].
    replace (Z.of_nat i + 1) with (Z.of_nat (S i)) by lia. by rewrite IH, bind_Ok by lia. }
  by apply (G (S NROWS) 0%nat).
Qed.

Lemma print_hist_correct_witness :
  exists rows, print_hist [0; 99; 50] = Ok rows /\ length rows = 26%nat.
Proof.
  eexists. split; [apply (print_hist_correct [0; 99; 50])|].
  - vm_compute. repeat constructor.
  - repeat constructor; lia.
  - by rewrite length_map.
Defined.

End Hist.

(** ** src/test_hash.c *)
Module Hash.

(** [char] is signed; shifting a negative one left is undefined. *)
Fixpoint my_hash_loop (str : list ascii) (hash : Z) : res Z :=
  match str with
  | [] => Ok hash
  | ch :: str =>
      let c := swrap 8 (Z.of_nat (nat_of_ascii ch)) in
      t ← shl_int c 4;
      u ← int_of (hash + t);
      v ← int_of (u + Z.shiftr c 4);
      hash ← int_of (v * 11);
      my_hash_loop str hash
  end.

Definition my_hash (str : list ascii) : res Z := my_hash_loop str 0.

(** The bucket [main] prints. *)
Definition bucket (str : list ascii) : res Z := h ← my_hash str; Ok (Z.land h 63).

Definition is_ascii (c : ascii) : Prop := (nat_of_ascii c < 128)%nat.

(** The largest hash after [n] more characters, from one of at most [B]. *)
Fixpoint grow (n : nat) (B : Z) : Z :=
  match n with O => B | S n => grow n (11 * (B + 2039)) end.

Lemma grow_ge n B : 0 <= B -> B <= grow n B.
Proof.
  revert B. induction n as [|n IH]; intros B HB; cbn [grow]; [lia|].
  specialize (IH (11 * (B + 2039)) ltac:(lia)). lia.
Qed.

Lemma my_hash_loop_bound str hash B :
  Forall is_ascii str -> 0 <= hash <= B -> grow (length str) B <= INT_MAX ->
  exists h, my_hash_loop str hash = Ok h /\ 0 <= h.
Proof.
  intros Hs. revert hash B. induction Hs as [|ch str Hc _ IH]; intros hash B Hh Hg;
    cbn [my_hash_loop length grow] in *.
  - exists hash. split; [done|lia].
  - pose proof (grow_ge (length str) (11 * (B + 2039)) ltac:(lia)) as Hge.
    unfold is_ascii in Hc. set (c := Z.of_nat (nat_of_ascii ch)) in *.
    assert (0 <= c <= 127) by (subst c; lia).
    rewrite swrap_small by (cbn; lia).
    assert (0 <= Z.shiftr c 4 <= 7).
    { rewrite Z.shiftr_div_pow2 by lia. split; [apply Z.div_pos; lia|].
      assert (c / 2 ^ 4 < 8); [apply Z.div_lt_upper_bound|]; lia. }
    unfold INT_MAX in *.
    rewrite shl_int_Ok, bind_Ok by (unfold INT_MAX; lia). change (2 ^ 4) with 16.
    do 3 (rewrite int_of_Ok by (unfold INT_MIN, INT_MAX; lia); rewrite bind_Ok).
    apply (IH _ (11 * (B + 2039))); [lia|done].
Qed.

(** ASCII strings of up to five characters hash without overflow into one of
    the 64 buckets; the hash of a string of eight letters overflows an [int]. *)
Theorem my_hash_bucket str :
  Forall is_ascii str -> (length str <= 5)%nat ->
  (exists b, bucket str = Ok b /\ 0 <= b < 64) /\ my_hash (chars "zzzzzzzz") = Undef.
Proof.
  intros Hs Hl. split; [|by vm_compute]. unfold bucket, my_hash.
  destruct (my_hash_loop_bound str 0 0 Hs) as (h & -> & Hh); [lia| |].
  - assert (G : forall n, (n <= 5)%nat -> grow n 0 <= INT_MAX); [|by apply G].
    intros n Hn. apply Z.leb_le.
    do 6 (destruct n as [|n]; [reflexivity|]). lia.
  - exists (Z.land h 63). split; [done|]. change 63 with (Z.ones 6).
    rewrite Z.land_ones by lia. apply Z.mod_pos_bound. lia.
Qed.

Lemma my_hash_bucket_witness : exists b, bucket (chars "hello") = Ok b /\ 0 <= b < 64.
Proof.
  apply (my_hash_bucket (chars "hello")).
  - repeat constructor; cbn; lia.
  - cbn. lia.
Defined.

End Hash.

(** ** src/test_list.c *)
Module ListAdd.

(** The heap maps a node to its [next] pointer; [None] is the null pointer. *)
Abbreviation heap := (gmap nat (option nat)).

(** [list_add(&head, x)]: the new heap and the new head. *)
Definition list_add (h : heap) (head : option nat) (x : nat) : heap * option nat :=
  (<[x := head]> h, Some x).

(** [list_add_tail(&head, x)] has a declaration in its body and nothing else. *)
Definition list_add_tail (h : heap) (head : option nat) (x : nat) : heap * option nat := (h, head).

(** [head] is a list of exactly the nodes [l]. *)
Fixpoint is_list (h : heap) (head : option nat) (l : list nat) : Prop :=
  match l with
  | [] => head = None
  | x :: l => head = Some x /\ exists next, h !! x = Some next /\ is_list h next l
  end.

Lemma is_list_frame h head l x next :
  x ∉ l -> is_list h head l -> is_list (<[x := next]> h) head l.
Proof.
  revert head. induction l as [|y l IH]; intros head Hx; cbn; [done|].
  intros (-> & n & Hy & Hl). split; [done|]. exists n.
  rewrite lookup_insert_ne by (intros ->; apply Hx; constructor).
  split; [done|]. apply IH; [|done]. intros Hin. apply Hx. by constructor.
Qed.

(** Adding a node that is not in the list puts it in front. *)
Lemma list_add_correct h head l x :
  is_list h head l -> x ∉ l ->
  let '(h', head') := list_add h head x in is_list h' head' (x :: l).
Proof.
  intros Hl Hx. cbn. split; [done|]. exists head.
  split; [apply lookup_insert_eq|]. by apply is_list_frame.
Qed.

End ListAdd.
