(* ===== verification/AllocStats.v ===== *)
(** * Allocation statistics: what both trackers promise

    src/malloc_stats.c and src/malloc_stats_hcreate.c count the allocations and
    the releases made under each name, on top of GLib's hash tables and on top of
    the C library's [hsearch_r] and [tsearch]. This file holds what they share: the
    history of events that a tracker must account for, the interface [Tracker]
    with its laws, and the test program [main], which is the same in both files,
    proved against the interface. *)
From stdpp Require Import base list gmap strings.
From Stdlib Require Import ZArith Lia Ascii.
From S2P Require Import Prelude Stdio.

Open Scope Z_scope.

(** ** Histories *)

(** [Alloc p s]: [do_alloc] returned [p] under the name [s]; [Free p]: [do_free]. *)
Inductive event : Type :=
| Alloc (p : Z) (s : list ascii)
| Free (p : Z).

(** A history lists the latest event first. The blocks in use, with their names: *)
Fixpoint live (tr : list event) : gmap Z (list ascii) :=
  match tr with
  | [] => ∅
  | Alloc p s :: tr => <[p := s]> (live tr)
  | Free p :: tr => delete p (live tr)
  end.

(** The names in the order of their first use. *)
Fixpoint names (tr : list event) : list (list ascii) :=
  match tr with
  | [] => []
  | Alloc _ s :: tr => if decide (s ∈ names tr) then names tr else names tr ++ [s]
  | Free _ :: tr => names tr
  end.

Fixpoint allocated (tr : list event) (s : list ascii) : nat :=
  match tr with
  | [] => 0
  | Alloc _ s' :: tr => (if decide (s' = s) then 1 else 0) + allocated tr s
  | Free _ :: tr => allocated tr s
  end.

Fixpoint freed (tr : list event) (s : list ascii) : nat :=
  match tr with
  | [] => 0
  | Alloc _ _ :: tr => freed tr s
  | Free p :: tr => (if decide (live tr !! p = Some s) then 1 else 0) + freed tr s
  end.

(** The blocks in use under a name. *)
Definition outstanding (tr : list event) (s : list ascii) : nat :=
  size (filter (fun kv => kv.2 = s) (live tr)).

(** [malloc] returns a block that is not in use; only blocks in use are freed. *)
Fixpoint wf (tr : list event) : Prop :=
  match tr with
  | [] => True
  | Alloc p _ :: tr => live tr !! p = None /\ wf tr
  | Free p :: tr => is_Some (live tr !! p) /\ wf tr
  end.

(** A line of the report: the name and the three numbers. *)
Definition row : Type := list ascii * Z * Z * Z.

Definition report (tr : list event) : list row :=
  map (fun s => (s, Z.of_nat (allocated tr s), Z.of_nat (freed tr s),
                 Z.of_nat (outstanding tr s))) (names tr).

(** ** Accounting *)

Lemma outstanding_insert tr p s s' :
  live tr !! p = None ->
  outstanding (Alloc p s :: tr) s' = ((if decide (s = s') then 1 else 0) + outstanding tr s')%nat.
Proof.
  intros Hp. unfold outstanding. cbn [live]. case_decide as E.
  - rewrite map_filter_insert_True by done. rewrite map_size_insert_None; [done|].
    apply map_lookup_filter_None. by left.
  - rewrite map_filter_insert_False by done. by rewrite delete_id.
Qed.

Lemma outstanding_delete tr p s s' :
  live tr !! p = Some s ->
  outstanding tr s' =
  ((if decide (s = s') then 1 else 0) + outstanding (Free p :: tr) s')%nat.
Proof.
  intros Hp. unfold outstanding. cbn [live]. rewrite map_filter_delete. case_decide as E.
  - rewrite map_size_delete_Some.
    + assert (size (filter (λ kv : Z * list ascii, kv.2 = s') (live tr)) ≠ 0%nat); [|lia].
      apply map_size_ne_0_lookup. exists p. rewrite (map_lookup_filter_Some_2 _ _ p s); done.
    + exists s. by apply map_lookup_filter_Some_2.
  - rewrite map_size_delete_None; [done|]. apply map_lookup_filter_None. right.
    intros x Hx. cbn. congruence.
Qed.

(** Every block allocated under a name is freed or still in use. *)
Lemma accounting tr s : wf tr -> allocated tr s = (freed tr s + outstanding tr s)%nat.
Proof.
  induction tr as [|[p s'|p] tr IH]; cbn [wf allocated freed].
  - done.
  - intros [Hp Hw]. rewrite (outstanding_insert tr p s' s Hp), (IH Hw). lia.
  - intros [[s' Hp] Hw]. rewrite (IH Hw), (outstanding_delete tr p s' s Hp), Hp.
    repeat case_decide; simplify_eq; lia.
Qed.

Lemma names_NoDup tr : NoDup (names tr).
Proof.
  induction tr as [|[p s|p] tr IH]; cbn [names]; [constructor| |done].
  case_decide; [done|]. apply NoDup_app. split; [done|]. split; [|apply NoDup_singleton].
  intros x Hx ->%list_elem_of_singleton. done.
Qed.

Lemma live_names tr p s : live tr !! p = Some s -> s ∈ names tr.
Proof.
  induction tr as [|[p' s'|p'] tr IH]; cbn [live names]; [done| |].
  - intros [[_ ->]|[_ H]]%lookup_insert_Some.
    + case_decide; [done|]. apply elem_of_app. right. by apply list_elem_of_singleton.
    + case_decide; [by apply IH|]. apply elem_of_app. left. by apply IH.
  - intros [_ H]%lookup_delete_Some. by apply IH.
Qed.

Lemma names_allocated tr s : s ∈ names tr <-> (0 < allocated tr s)%nat.
Proof.
  induction tr as [|[p s'|p] tr IH]; cbn [names allocated]; [|repeat case_decide|done].
  - split; [by intros ?%not_elem_of_nil|lia].
  - subst. split; [lia|done].
  - rewrite IH. lia.
  - subst. rewrite elem_of_app, list_elem_of_singleton. split; [lia|by right].
  - rewrite elem_of_app, list_elem_of_singleton, IH. split; [|lia].
    intros [? | ->]; [lia|done].
Qed.

Lemma allocated_length tr s : (allocated tr s <= length tr)%nat.
Proof. induction tr as [|[]]; cbn [allocated length]; [done|case_decide; lia|lia]. Qed.

Lemma freed_allocated tr s : wf tr -> (freed tr s <= allocated tr s)%nat.
Proof. intros H. rewrite (accounting tr s H). lia. Qed.

Lemma fresh_name tr s : wf tr -> s ∉ names tr -> allocated tr s = 0%nat /\ freed tr s = 0%nat.
Proof.
  intros Hw Hn. pose proof (freed_allocated tr s Hw). rewrite names_allocated in Hn. lia.
Qed.

(** Updating what is kept for one name. *)
Lemma names_update {B} (f g : list ascii -> B) tr a s :
  names tr !! a = Some s -> (forall s', s' <> s -> g s' = f s') ->
  <[a := g s]> (f <$> names tr) = g <$> names tr.
Proof.
  intros Ha Hg. apply list_eq. intros i. destruct (decide (i = a)) as [->|Hne].
  - rewrite list_lookup_insert_eq, list_lookup_fmap, Ha; [done|].
    rewrite length_fmap. by eapply lookup_lt_Some.
  - rewrite list_lookup_insert_ne, !list_lookup_fmap by done.
    destruct (names tr !! i) as [s'|] eqn:Ei; [|done]. cbn. f_equal. symmetry. apply Hg.
    intros ->. apply Hne. by eapply NoDup_lookup; [apply (names_NoDup tr)| |].
Qed.

(** Adding a new name. *)
Lemma names_add {B} (f g : list ascii -> B) tr s :
  s ∉ names tr -> (forall s', s' <> s -> g s' = f s') ->
  (f <$> names tr) ++ [g s] = g <$> (names tr ++ [s]).
Proof.
  intros Hn Hg. rewrite fmap_app. f_equal. apply list_fmap_ext. intros i s' Hi.
  symmetry. apply Hg. intros ->. apply Hn, list_elem_of_lookup. by exists i.
Qed.

(** The names after an allocation. *)
Lemma names_old tr p s : s ∈ names tr -> names (Alloc p s :: tr) = names tr.
Proof. intros H. cbn [names]. by rewrite decide_True. Qed.

Lemma names_new tr p s : s ∉ names tr -> names (Alloc p s :: tr) = names tr ++ [s].
Proof. intros H. cbn [names]. by rewrite decide_False. Qed.

(** The [uint64_t] counters of the trackers. *)
Definition uint64 (z : Z) : Z := uwrap 64 z.

Lemma uint64_succ n : uint64 (uint64 (Z.of_nat n) + 1) = uint64 (Z.of_nat (S n)).
Proof. unfold uint64, uwrap. rewrite Zplus_mod_idemp_l. f_equal. lia. Qed.

Lemma uint64_small n : 0 <= n <= INT_MAX -> uint64 n = n.
Proof. unfold INT_MAX. intros Hn. apply uwrap_small. lia. Qed.

(** ** The interface of a tracker *)

(** Whether the allocations inside the tracker succeed: the [alloc_stat], the two
    copies of the name, and the [alloc_data]. *)
Record mallocs : Type := Mallocs { m_as : bool; m_key : bool; m_str : bool; m_ad : bool }.

Definition mallocs_good : mallocs := Mallocs true true true true.

(** [debug_init], [debug_alloc], [debug_free] and [print_stats]. *)
Class Tracker (T : Type) : Type := {
  tk_init : T;
  tk_alloc : mallocs -> Z -> Z -> list ascii -> T -> res T;
  tk_free : Z -> T -> res T;
  tk_stats : T -> res (list row);
}.

(** [tk_rep tr t]: the state [t] accounts for the history [tr]; [tk_room k]: [k]
    different names can be tracked. *)
Class TrackerLaws (T : Type) `{Tracker T} : Type := {
  tk_rep : list event -> T -> Prop;
  tk_room : nat -> Prop;
  tk_init_rep : tk_rep [] tk_init;
  tk_alloc_rep tr t p size s :
    wf (Alloc p s :: tr) -> tk_room (length (names (Alloc p s :: tr))) -> tk_rep tr t ->
    exists t', tk_alloc mallocs_good p size s t = Ok t' /\ tk_rep (Alloc p s :: tr) t';
  tk_free_rep tr t p :
    wf (Free p :: tr) -> tk_rep tr t ->
    exists t', tk_free p t = Ok t' /\ tk_rep (Free p :: tr) t';
  tk_stats_rep tr t :
    wf tr -> tk_rep tr t -> Z.of_nat (length tr) <= INT_MAX -> tk_stats t = Ok (report tr);
}.

(** ** The test program *)

Inductive outcome : Type :=
| Usage
| Report (rows : list row).

Definition max_alloc_types : Z := 20.

(** [sprintf(astr, "alloc %d", j)] for the [j] of one round. *)
Definition alloc_name (r : Z) : list ascii :=
  chars "alloc " ++ print_radix 10 1 (Z.rem r max_alloc_types).

Section Main.
Context {T : Type} `{Tracker T}.

(** What the environment supplies: the results of [random], of [malloc] in
    [do_alloc], and of the allocations inside the tracker, per round. *)
Context (rnd : nat -> Z) (ptrs : nat -> Z) (oom : nat -> mallocs).

Definition do_alloc (m : mallocs) (ptr size : Z) (s : list ascii) (t : T) : res (Z * T) :=
  t ← tk_alloc m ptr size s t; Ok (ptr, t).

(** The release of the block itself does not touch the tracker. *)
Definition do_free (ptr : Z) (t : T) : res T := tk_free ptr t.

Fixpoint alloc_loop (rounds : nat) (i : nat) (p : blk Z) (t : T) : res (blk Z * T) :=
  match rounds with
  | O => Ok (p, t)
  | S rounds =>
      '(ptr, t) ← do_alloc (oom i) (ptrs i) 20 (alloc_name (rnd i)) t;
      p ← wrc p (Z.of_nat i) ptr;
      alloc_loop rounds (S i) p t
  end.

(** [n] calls of [random] have been made before this loop. *)
Fixpoint free_loop (rounds : nat) (n i : nat) (p : blk Z) (t : T) : res T :=
  match rounds with
  | O => Ok t
  | S rounds =>
      if Z.rem (rnd (n + i)) 2 =? 0 then
        ptr ← rdc p (Z.of_nat i);
        t ← do_free ptr t;
        free_loop rounds n (S i) p t
      else free_loop rounds n (S i) p t
  end.

(** [args] are the arguments after the program's name; [pm]: the array of pointers
    could be allocated. *)
Definition main (pm : bool) (args : list (list ascii)) : res outcome :=
  match args with
  | [] => Ok Usage
  | arg :: _ =>
      '(_, vals) ← sscanf arg [DDec];
      let max_iter := match vals with [VInt n] => n | _ => 30 end in
      let p := if max_iter <? 0 then [] else malloc pm max_iter in
      let n := Z.to_nat max_iter in
      '(p, t) ← alloc_loop n 0 p tk_init;
      t ← free_loop n n 0 p t;
      rows ← tk_stats t;
      Ok (Report rows)
  end.

(** The history of the two loops. *)
Fixpoint allocs (n : nat) : list event :=
  match n with O => [] | S n => Alloc (ptrs n) (alloc_name (rnd n)) :: allocs n end.

Fixpoint frees (n k : nat) : list event :=
  match k with
  | O => allocs n
  | S k => if Z.rem (rnd (n + k)) 2 =? 0 then Free (ptrs k) :: frees n k else frees n k
  end.
End Main.

Section MainCorrect.
Context {T : Type} `{TrackerLaws T} (rnd ptrs : nat -> Z).
Hypothesis rnd_nonneg : forall i, 0 <= rnd i.

Lemma allocs_live_inv n p s :
  live (allocs rnd ptrs n) !! p = Some s -> exists i, (i < n)%nat /\ p = ptrs i.
Proof.
  induction n as [|n IH]; cbn [allocs live]; [done|].
  intros [[<- _]|[_ Hl]]%lookup_insert_Some; [by exists n; split; [lia|]|].
  destruct (IH Hl) as (i & ? & ->). exists i. split; [lia|done].
Qed.

Lemma allocs_wf n :
  (forall i j, (i < j < n)%nat -> ptrs i <> ptrs j) -> wf (allocs rnd ptrs n).
Proof.
  induction n as [|n IH]; intros Hd; cbn [allocs wf]; [done|]. split.
  - destruct (live (allocs rnd ptrs n) !! ptrs n) as [s|] eqn:E; [|done].
    apply allocs_live_inv in E as (i & Hi & E). exfalso. apply (Hd i n); [lia|done].
  - apply IH. intros i j Hij. apply Hd. lia.
Qed.

Lemma allocs_live n i :
  (forall i j, (i < j < n)%nat -> ptrs i <> ptrs j) -> (i < n)%nat ->
  live (allocs rnd ptrs n) !! ptrs i = Some (alloc_name (rnd i)).
Proof.
  induction n as [|n IH]; intros Hd Hi; [lia|]. cbn [allocs live].
  destruct (decide (i = n)) as [->|Hne]; [by rewrite lookup_insert_eq|].
  rewrite lookup_insert_ne by (intros E; apply (Hd i n); [lia|done]).
  apply IH; [|lia]. intros. apply Hd. lia.
Qed.

Lemma frees_live n k i :
  (forall i j, (i < j < n)%nat -> ptrs i <> ptrs j) -> (k <= i < n)%nat ->
  live (frees rnd ptrs n k) !! ptrs i = Some (alloc_name (rnd i)).
Proof.
  intros Hd. induction k as [|k IH]; intros Hi; cbn [frees]; [by apply allocs_live; [|lia]|].
  case_Z; [|apply IH; lia]. cbn [live]. rewrite lookup_delete_ne; [apply IH; lia|].
  apply Hd. lia.
Qed.

Lemma frees_wf n k :
  (forall i j, (i < j < n)%nat -> ptrs i <> ptrs j) -> (k <= n)%nat -> wf (frees rnd ptrs n k).
Proof.
  intros Hd. induction k as [|k IH]; intros Hk; cbn [frees]; [by apply allocs_wf|].
  case_Z; [|apply IH; lia]. cbn [wf]. split; [|apply IH; lia].
  eexists. apply frees_live; [done|lia].
Qed.

Lemma frees_length n k : (length (frees rnd ptrs n k) <= n + k)%nat.
Proof.
  induction k as [|k IH]; cbn [frees].
  - induction n as [|n IH]; cbn [allocs length]; lia.
  - case_Z; cbn [length]; lia.
Qed.

(** The program uses at most 20 names. *)
Lemma allocs_names n : (length (names (allocs rnd ptrs n)) <= 20)%nat.
Proof.
  set (all := map (fun j => chars "alloc " ++ print_radix 10 1 j) (seqZ 0 20)).
  change 20%nat with (length all).
  apply submseteq_length, NoDup_submseteq; [apply names_NoDup|].
  intros s. induction n as [|n IH]; cbn [allocs names]; [by intros ?%not_elem_of_nil|].
  case_decide; [done|]. rewrite elem_of_app, list_elem_of_singleton. intros [?| ->]; [by apply IH|].
  apply list_elem_of_fmap. exists (Z.rem (rnd n) 20). split; [done|].
  apply elem_of_seqZ. pose proof (Z.rem_bound_pos (rnd n) 20 (rnd_nonneg n) ltac:(lia)). lia.
Qed.

Hypothesis room : forall k, (k <= 20)%nat -> tk_room (T := T) k.

Lemma alloc_loop_spec rounds i t :
  (forall a b, (a < b < i + rounds)%nat -> ptrs a <> ptrs b) ->
  tk_rep (allocs rnd ptrs i) t ->
  exists t', alloc_loop rnd ptrs (fun _ => mallocs_good) rounds i
    ((Some <$> map ptrs (seq 0 i)) ++ replicate rounds None) t
    = Ok (Some <$> map ptrs (seq 0 (i + rounds)), t') /\
    tk_rep (allocs rnd ptrs (i + rounds)) t'.
Proof.
  revert i t. induction rounds as [|rounds IH]; intros i t Hd Ht; cbn [alloc_loop].
  - exists t. rewrite Nat.add_0_r. cbn [replicate]. by rewrite app_nil_r.
  - unfold do_alloc. destruct (tk_alloc_rep (allocs rnd ptrs i) t (ptrs i) 20 (alloc_name (rnd i)))
      as (t1 & -> & Ht1); [| |done|].
    + apply (allocs_wf (S i)). intros a b Hab. apply Hd. lia.
    + apply room, (allocs_names (S i)).
    + rewrite !bind_Ok. unfold wrc. cbn [replicate].
      rewrite wr_Ok by (rewrite length_app, length_fmap, length_map, length_seq; cbn; lia).
      rewrite bind_Ok, Nat2Z.id, insert_app_r_alt by (rewrite length_fmap, length_map, length_seq; lia).
      rewrite length_fmap, length_map, length_seq, Nat.sub_diag. cbn [insert list_insert].
      rewrite (cons_middle (Some (ptrs i))), (assoc_L (++)).
      change [Some (ptrs i)] with (Some <$> map ptrs [i]). rewrite <- fmap_app, <- map_app.
      change [i] with (seq (0 + i) 1). rewrite <- seq_app.
      replace (i + 1)%nat with (S i) by lia. replace (i + S rounds)%nat with (S i + rounds)%nat by lia.
      apply IH; [|done]. intros a b Hab. apply Hd. lia.
Qed.

Lemma free_loop_spec n rounds i t :
  (forall a b, (a < b < n)%nat -> ptrs a <> ptrs b) -> (i + rounds = n)%nat ->
  tk_rep (frees rnd ptrs n i) t ->
  exists t', free_loop rnd rounds n i (Some <$> map ptrs (seq 0 n)) t = Ok t' /\
    tk_rep (frees rnd ptrs n n) t'.
Proof.
  intros Hd. revert i t. induction rounds as [|rounds IH]; intros i t Hi Ht; cbn [free_loop].
  - exists t. rewrite Nat.add_0_r in Hi. by subst i.
  - assert (E : frees rnd ptrs n (S i) =
      if Z.rem (rnd (n + i)) 2 =? 0 then Free (ptrs i) :: frees rnd ptrs n i else frees rnd ptrs n i)
      by done.
    pose proof (frees_wf n (S i) Hd ltac:(lia)) as Hw. rewrite E in Hw.
    assert (G : forall t, tk_rep (frees rnd ptrs n (S i)) t -> exists t',
      free_loop rnd rounds n (S i) (Some <$> map ptrs (seq 0 n)) t = Ok t' /\
      tk_rep (frees rnd ptrs n n) t') by (intros; apply IH; [lia|done]).
    rewrite E in G. destruct (Z.rem (rnd (n + i)) 2 =? 0); [|by apply G].
    rewrite (rdc_Some _ _ (ptrs i)); [|lia|].
    2: { rewrite Nat2Z.id, list_lookup_fmap, list_lookup_fmap, lookup_seq_lt by lia. done. }
    rewrite bind_Ok. unfold do_free. destruct (tk_free_rep _ t (ptrs i) Hw Ht) as (t1 & -> & Ht1).
    rewrite bind_Ok. by apply G.
Qed.

(** The report of the program is the one its history asks for, whatever the
    argument: without a number there are 30 rounds, with a negative one none. *)
Lemma main_outcome arg rest ret vals :
  sscanf arg [DDec] = Ok (ret, vals) ->
  let n := Z.to_nat (match vals with [VInt n] => n | _ => 30 end) in
  Z.of_nat n <= 2 ^ 29 -> (forall a b, (a < b < n)%nat -> ptrs a <> ptrs b) ->
  main (T := T) rnd ptrs (fun _ => mallocs_good) true (arg :: rest) =
  Ok (Report (report (frees rnd ptrs n n))).
Proof.
  intros Hs n Hn Hd. unfold main. rewrite Hs, bind_Ok. cbv zeta. fold n.
  set (m := match vals with [VInt n] => n | _ => 30 end) in *.
  destruct (alloc_loop_spec n 0 tk_init Hd tk_init_rep) as (t & E & Ht). cbn [seq map fmap] in E.
  cbn [list_fmap app Nat.add] in E.
  replace (if m <? 0 then [] else malloc true m) with (replicate n (@None Z)).
  2: { unfold malloc. case_Z; [|done]. by replace n with 0%nat by lia. }
  rewrite E, bind_Ok.
  destruct (free_loop_spec n n 0 t Hd eq_refl Ht) as (t' & -> & Ht'). rewrite bind_Ok.
  rewrite (tk_stats_rep (frees rnd ptrs n n) t'); [done|by apply frees_wf|done|].
  pose proof (frees_length n n). unfold INT_MAX. lia.
Qed.

Lemma main_report n rest :
  Z.of_nat n <= 2 ^ 29 -> (forall a b, (a < b < n)%nat -> ptrs a <> ptrs b) ->
  main (T := T) rnd ptrs (fun _ => mallocs_good) true (print_radix 10 1 (Z.of_nat n) :: rest) =
  Ok (Report (report (frees rnd ptrs n n))).
Proof.
  intros Hn Hd.
  assert (E : sscanf (print_radix 10 1 (Z.of_nat n)) [DDec] = Ok (1, [VInt (Z.of_nat n)])).
  { unfold sscanf. rewrite <- (app_nil_r (print_radix 10 1 (Z.of_nat n))) at 2.
    by rewrite sscanf_dec by (try (by left); unfold INT_MAX; lia). }
  rewrite (main_outcome _ rest _ _ E); rewrite ?Nat2Z.id; done.
Qed.
End MainCorrect.

(** Two trackers that keep the laws cannot be told apart by the program. *)
Lemma main_agree {T1} `{TrackerLaws T1} {T2} `{TrackerLaws T2} rnd ptrs args :
  (forall i, 0 <= rnd i) -> (forall a b, (a < b)%nat -> ptrs a <> ptrs b) ->
  (forall k, (k <= 20)%nat -> tk_room (T := T1) k /\ tk_room (T := T2) k) ->
  (forall arg ret n, head args = Some arg -> sscanf arg [DDec] = Ok (ret, [VInt n]) -> n <= 2 ^ 29) ->
  main (T := T1) rnd ptrs (fun _ => mallocs_good) true args =
  main (T := T2) rnd ptrs (fun _ => mallocs_good) true args.
Proof.
  intros Hr Hd Hk Ha. destruct args as [|arg rest]; [done|].
  destruct (sscanf arg [DDec]) as [[ret vals]| |] eqn:E; [|unfold main; by rewrite E..].
  assert (Hn : Z.of_nat (Z.to_nat (match vals with [VInt n] => n | _ => 30 end)) <= 2 ^ 29).
  { destruct vals as [|[|n|] [|]]; try lia. specialize (Ha arg ret n eq_refl E). lia. }
  erewrite (main_outcome (T := T1)), (main_outcome (T := T2));
    try done; intros; try apply Hd; try apply Hk; lia.
Qed.
