(* ===== verification/MallocStats.v ===== *)
(** * The tracker of src/malloc_stats.c

    GLib's hash tables are an interface: the operations the program calls and the
    laws GLib documents for them. A table of names holds the addresses of
    [alloc_stat] blocks, which are updated in place and never freed. *)
From stdpp Require Import base list gmap strings.
From Stdlib Require Import ZArith Lia Ascii.
From S2P Require Import Prelude Stdio AllocStats.

Open Scope Z_scope.

(** ** GLib's hash tables *)

(** [g_hash_table_new], [_lookup], [_insert] (which replaces an old value) and
    [_remove], on keys of type [K] and values of type [V]. *)
Class HashTable (K V T : Type) : Type := {
  ht_new : T;
  ht_lookup : T -> K -> option V;
  ht_insert : T -> K -> V -> T;
  ht_remove : T -> K -> T;
}.

Class HashTableLaws (K V T : Type) `{EqDecision K} `{HashTable K V T} : Prop := {
  ht_lookup_new k : ht_lookup ht_new k = None;
  ht_lookup_insert t k v k' :
    ht_lookup (ht_insert t k v) k' = if decide (k = k') then Some v else ht_lookup t k';
  ht_lookup_remove t k k' :
    ht_lookup (ht_remove t k) k' = if decide (k = k') then None else ht_lookup t k';
}.

#[export] Instance gmap_table K V `{Countable K} : HashTable K V (gmap K V) := {
  ht_new := ∅;
  ht_lookup t k := t !! k;
  ht_insert t k v := <[k := v]> t;
  ht_remove t k := delete k t;
}.

#[export] Instance gmap_table_laws K V `{Countable K} : HashTableLaws K V (gmap K V).
Proof.
  split; intros; cbn.
  - apply lookup_empty.
  - apply lookup_insert.
  - case_decide; [subst; apply lookup_delete_eq|by apply lookup_delete_ne].
Qed.

(** ** The program *)

Record alloc_data : Type := AllocData { ad_string : list ascii; ad_ptr : Z; ad_size : Z }.

Record alloc_stat : Type := AllocStat {
  nr_allocs : Z;               (* uint64_t *)
  nr_frees : Z;                (* uint64_t *)
  as_string : list ascii;
}.

Section GLib.
Context {TT} `{HashTableLaws Z alloc_data TT}.
Context {TS} `{HashTableLaws (list ascii) nat TS}.

(** The globals, and the [alloc_stat] blocks with their addresses as positions. A
    name whose copy could not be allocated is in the list as a null pointer. *)
Record trackers : Type := Trackers {
  alloc_string_table : list (option (list ascii));
  alloc_track_table : TT;
  alloc_stat_table : TS;
  stat_blocks : list alloc_stat;
}.

Definition debug_init : trackers :=
  Trackers [] (ht_new (K := Z) (V := alloc_data)) (ht_new (K := list ascii) (V := nat)) [].

(** The address of the statistics of a name, created at its first use. A null
    pointer from [malloc] is dereferenced, and one from [strdup] is hashed. *)
Definition get_stat (m : mallocs) (s : list ascii) (t : trackers) : res (nat * trackers) :=
  match ht_lookup (alloc_stat_table t) s with
  | Some a =>
      st ← rd (stat_blocks t) (Z.of_nat a);
      Ok (a, Trackers (alloc_string_table t) (alloc_track_table t) (alloc_stat_table t)
               (<[a := AllocStat (uint64 (nr_allocs st + 1)) (nr_frees st) (as_string st)]>
                  (stat_blocks t)))
  | None =>
      ub_unless (m_as m && m_key m)
        (let a := length (stat_blocks t) in
         Ok (a, Trackers (alloc_string_table t ++ [if m_str m then Some s else None])
                  (alloc_track_table t) (ht_insert (alloc_stat_table t) s a)
                  (stat_blocks t ++ [AllocStat (uint64 (0 + 1)) 0 s])))
  end.

Definition debug_alloc (m : mallocs) (ptr size : Z) (s : list ascii) (t : trackers)
    : res trackers :=
  '(a, t) ← get_stat m s t;
  st ← rd (stat_blocks t) (Z.of_nat a);
  ub_unless (m_ad m)
    (Ok (Trackers (alloc_string_table t)
           (ht_insert (alloc_track_table t) ptr (AllocData (as_string st) ptr size))
           (alloc_stat_table t) (stat_blocks t))).

(** [%08d] reads an [int] from the register that holds the [uint64_t]. *)
Definition fmt_d (n : Z) : Z := swrap 32 n.

Fixpoint stats_rows (items : list (option (list ascii))) (t : trackers) : res (list row) :=
  match items with
  | [] => Ok []
  | None :: _ => Undef
  | Some s :: items =>
      match ht_lookup (alloc_stat_table t) s with
      | Some a =>
          st ← rd (stat_blocks t) (Z.of_nat a);
          rows ← stats_rows items t;
          Ok ((s, fmt_d (nr_allocs st), fmt_d (nr_frees st),
               fmt_d (uint64 (nr_allocs st - nr_frees st))) :: rows)
      | None => stats_rows items t
      end
  end.

Definition print_stats (t : trackers) : res (list row) := stats_rows (alloc_string_table t) t.

Definition debug_free (ptr : Z) (t : trackers) : res trackers :=
  match ht_lookup (alloc_track_table t) ptr with
  | None => Ok t
  | Some ad =>
      blocks ← match ht_lookup (alloc_stat_table t) (ad_string ad) with
               | Some a =>
                   st ← rd (stat_blocks t) (Z.of_nat a);
                   Ok (<[a := AllocStat (nr_allocs st) (uint64 (nr_frees st + 1)) (as_string st)]>
                         (stat_blocks t))
               | None => Ok (stat_blocks t)
               end;
      Ok (Trackers (alloc_string_table t) (ht_remove (V := alloc_data) (alloc_track_table t) ptr)
            (alloc_stat_table t) blocks)
  end.

#[export] Instance glib_tracker : Tracker trackers := {
  tk_init := debug_init;
  tk_alloc := debug_alloc;
  tk_free := debug_free;
  tk_stats := print_stats;
}.

(** ** The state accounts for the history *)

Definition stat_of (tr : list event) (s : list ascii) : alloc_stat :=
  AllocStat (uint64 (Z.of_nat (allocated tr s))) (uint64 (Z.of_nat (freed tr s))) s.

Record rep (tr : list event) (t : trackers) : Prop := {
  rep_names : alloc_string_table t = Some <$> names tr;
  rep_blocks : stat_blocks t = stat_of tr <$> names tr;
  rep_stat s a : ht_lookup (alloc_stat_table t) s = Some a <-> names tr !! a = Some s;
  rep_track p : ad_string <$> ht_lookup (alloc_track_table t) p = live tr !! p;
}.

Lemma glib_rep_block tr t s a :
  rep tr t -> ht_lookup (alloc_stat_table t) s = Some a ->
  rd (stat_blocks t) (Z.of_nat a) = Ok (stat_of tr s).
Proof.
  intros R Ha. apply rd_nat. rewrite (rep_blocks _ _ R), list_lookup_fmap.
  by rewrite (proj1 (rep_stat _ _ R s a) Ha).
Qed.

Lemma glib_rep_absent tr t s :
  rep tr t -> ht_lookup (alloc_stat_table t) s = None -> s ∉ names tr.
Proof.
  intros R Hn [i Hi]%list_elem_of_lookup. apply (rep_stat _ _ R) in Hi. congruence.
Qed.

(** [debug_alloc] once the name has its statistics. *)
Lemma glib_get_stat_rep tr t p s :
  wf tr -> rep tr t ->
  exists a t', get_stat mallocs_good s t = Ok (a, t') /\ alloc_track_table t' = alloc_track_table t /\
    rd (stat_blocks t') (Z.of_nat a) = Ok (stat_of (Alloc p s :: tr) s) /\
    alloc_string_table t' = Some <$> names (Alloc p s :: tr) /\
    stat_blocks t' = stat_of (Alloc p s :: tr) <$> names (Alloc p s :: tr) /\
    (forall s' a', ht_lookup (alloc_stat_table t') s' = Some a' <->
       names (Alloc p s :: tr) !! a' = Some s').
Proof.
  intros Hw R. unfold get_stat.
  assert (Hg : forall s', s' <> s -> stat_of (Alloc p s :: tr) s' = stat_of tr s').
  { intros s' Hne. unfold stat_of. cbn [allocated freed]. by rewrite decide_False. }
  destruct (ht_lookup (alloc_stat_table t) s) as [a|] eqn:Ea.
  - pose proof (proj1 (rep_stat _ _ R s a) Ea) as Hs.
    rewrite (glib_rep_block _ _ _ _ R Ea), bind_Ok. cbn [nr_allocs nr_frees as_string stat_of].
    rewrite uint64_succ.
    replace (AllocStat _ _ s) with (stat_of (Alloc p s :: tr) s)
      by (unfold stat_of; cbn [allocated freed]; by rewrite decide_True).
    rewrite (rep_blocks _ _ R), (names_update _ _ tr a s Hs Hg).
    rewrite (names_old tr p s) by (apply list_elem_of_lookup; by exists a).
    eexists a, _. split; [done|]. cbn [alloc_track_table stat_blocks alloc_string_table alloc_stat_table].
    split; [done|]. split; [|split; [apply (rep_names _ _ R)|split; [done|apply (rep_stat _ _ R)]]].
    apply rd_nat. by rewrite list_lookup_fmap, Hs.
  - pose proof (glib_rep_absent _ _ _ R Ea) as Hn. rewrite (names_new tr p s Hn).
    assert (Es : AllocStat (uint64 (0 + 1)) 0 s = stat_of (Alloc p s :: tr) s).
    { unfold stat_of. cbn [allocated freed]. rewrite decide_True by done.
      by destruct (fresh_name tr s Hw Hn) as [-> ->]. }
    assert (El : length (stat_blocks t) = length (names tr))
      by (by rewrite (rep_blocks _ _ R), length_fmap).
    cbn [mallocs_good m_as m_key m_str andb ub_unless]. eexists _, _. split; [done|].
    cbn [alloc_track_table stat_blocks alloc_string_table alloc_stat_table]. split; [done|].
    rewrite Es, El, (rep_blocks _ _ R), (names_add _ _ tr s Hn Hg).
    split; [|split; [|split; [done|]]].
    + apply rd_nat. by rewrite list_lookup_fmap, list_lookup_middle by done.
    + by rewrite (rep_names _ _ R), fmap_app.
    + intros s' a'. rewrite ht_lookup_insert. case_decide as E.
      * subst s'. split; [intros [= <-]; by apply list_lookup_middle|].
        intros [Hl|[Hge Hl]]%lookup_app_Some; [by exfalso; apply Hn, list_elem_of_lookup; exists a'|].
        apply list_lookup_singleton_Some in Hl as [Hl _]. f_equal. lia.
      * rewrite (rep_stat _ _ R). split; [intros Hl; apply lookup_app_Some; by left|].
        intros [Hl|[_ Hl]]%lookup_app_Some; [done|].
        by apply list_lookup_singleton_Some in Hl as [_ <-].
Qed.

Lemma glib_debug_alloc_rep tr t p size s :
  wf (Alloc p s :: tr) -> rep tr t ->
  exists t', debug_alloc mallocs_good p size s t = Ok t' /\ rep (Alloc p s :: tr) t'.
Proof.
  intros [_ Hw] R. destruct (glib_get_stat_rep tr t p s Hw R) as (a & t1 & Eg & Et & Ea & Hn & Hb & Hs).
  unfold debug_alloc. rewrite Eg, bind_Ok, Ea, bind_Ok. eexists. split; [done|]. split; [done..|].
  cbn [alloc_track_table]. intros q. rewrite ht_lookup_insert, Et. cbn [live].
  case_decide as E; [subst q; by rewrite lookup_insert_eq|].
  rewrite lookup_insert_ne by done. apply (rep_track _ _ R).
Qed.

Lemma glib_debug_free_rep tr t p :
  wf (Free p :: tr) -> rep tr t ->
  exists t', debug_free p t = Ok t' /\ rep (Free p :: tr) t'.
Proof.
  intros [[s Hp] Hw] R. pose proof (rep_track _ _ R p) as Ht. rewrite Hp in Ht. unfold debug_free.
  destruct (ht_lookup (alloc_track_table t) p) as [ad|] eqn:Ead; [|done]. injection Ht as Es.
  rewrite Es. pose proof (live_names _ _ _ Hp) as [a Ha]%list_elem_of_lookup.
  pose proof (proj2 (rep_stat _ _ R s a) Ha) as Hs.
  rewrite Hs, (glib_rep_block _ _ _ _ R Hs), !bind_Ok. eexists. split; [done|]. split.
  - apply (rep_names _ _ R).
  - cbn [stat_blocks stat_of nr_allocs nr_frees as_string]. rewrite (rep_blocks _ _ R), uint64_succ.
    replace (AllocStat _ _ s) with (stat_of (Free p :: tr) s)
      by (unfold stat_of; cbn [allocated freed]; by rewrite decide_True).
    apply (names_update _ _ tr a s Ha). intros s' Hne. unfold stat_of. cbn [allocated freed].
    by rewrite decide_False by congruence.
  - apply (rep_stat _ _ R).
  - cbn [alloc_track_table]. intros q. rewrite ht_lookup_remove. cbn [live].
    case_decide as E; [subst q; by rewrite lookup_delete_eq|].
    rewrite lookup_delete_ne by done. apply (rep_track _ _ R).
Qed.

Lemma fmt_d_small n : 0 <= n <= INT_MAX -> fmt_d (uint64 n) = n.
Proof.
  intros Hn. rewrite uint64_small by done. unfold INT_MAX in Hn. apply swrap_small; cbn; lia.
Qed.

Lemma glib_stats_rows_rep tr t ss :
  wf tr -> rep tr t -> Z.of_nat (length tr) <= INT_MAX -> (forall s, s ∈ ss -> s ∈ names tr) ->
  stats_rows (Some <$> ss) t =
  Ok (map (fun s => (s, Z.of_nat (allocated tr s), Z.of_nat (freed tr s),
                     Z.of_nat (outstanding tr s))) ss).
Proof.
  intros Hw R Hl. induction ss as [|s ss IH]; intros Hin; [done|]. cbn [fmap list_fmap stats_rows map].
  pose proof (Hin s ltac:(constructor)) as [a Ha]%list_elem_of_lookup.
  pose proof (proj2 (rep_stat _ _ R s a) Ha) as Hs.
  rewrite Hs, (glib_rep_block _ _ _ _ R Hs), bind_Ok, IH, bind_Ok by (intros; apply Hin; by constructor).
  cbn [stat_of nr_allocs nr_frees]. pose proof (allocated_length tr s). pose proof (accounting tr s Hw).
  unfold INT_MAX in *.
  rewrite !fmt_d_small by (unfold INT_MAX; lia). rewrite !(uint64_small (Z.of_nat _)) by (unfold INT_MAX; lia).
  rewrite fmt_d_small by (unfold INT_MAX; lia). do 3 f_equal. lia.
Qed.

#[export] Instance glib_tracker_laws : TrackerLaws trackers.
Proof.
  refine {| tk_rep := rep; tk_room := fun _ => True |}.
  - split; [done|done|intros s a; cbn|intros p; cbn].
    + by rewrite ht_lookup_new.
    + by rewrite ht_lookup_new.
  - intros tr t p size s Hw _ R. by apply glib_debug_alloc_rep.
  - intros tr t p Hw R. by apply glib_debug_free_rep.
  - intros tr t Hw R Hl. cbn. unfold print_stats. rewrite (rep_names _ _ R).
    by apply glib_stats_rows_rep.
Defined.

End GLib.
Arguments trackers : clear implicits.

(** ** The program on these tables *)

Section Program.
Context {TT} `{HashTableLaws Z alloc_data TT} {TS} `{HashTableLaws (list ascii) nat TS}.

Definition malloc_stats_main (rnd ptrs : nat -> Z) (oom : nat -> mallocs) (pm : bool)
    (args : list (list ascii)) : res outcome :=
  main (T := trackers TT TS) rnd ptrs oom pm args.

(** C18. The program counts right on any hash tables that keep GLib's promises: run
    with [n] rounds it reports, for every name in the order of its first use, how
    many blocks were allocated and freed under it, and the third number, computed as
    a difference of counters, is the number of blocks still in use. *)
Theorem malloc_stats_report rnd ptrs n rest :
  (forall i, 0 <= rnd i) -> (forall a b, (a < b < n)%nat -> ptrs a <> ptrs b) ->
  Z.of_nat n <= 2 ^ 29 ->
  malloc_stats_main rnd ptrs (fun _ => mallocs_good) true
    (print_radix 10 1 (Z.of_nat n) :: rest) =
  Ok (Report (report (frees rnd ptrs n n))).
Proof. intros Hr Hd Hn. by apply main_report. Qed.

(** A block that was never tracked, or was freed before, is ignored. *)
Lemma debug_free_untracked (t : trackers TT TS) p :
  ht_lookup (alloc_track_table t) p = None -> debug_free p t = Ok t.
Proof. intros E. unfold debug_free. by rewrite E. Qed.
End Program.

Lemma malloc_stats_report_witness :
  malloc_stats_main (TT := gmap Z alloc_data) (TS := gmap (list ascii) nat) (fun i => Z.of_nat i * 7)
    (fun i => Z.of_nat i * 16 + 4096) (fun _ => mallocs_good) true [chars "4"] =
  Ok (Report [(chars "alloc 0", 1, 1, 0); (chars "alloc 7", 1, 0, 1);
              (chars "alloc 14", 1, 1, 0); (chars "alloc 1", 1, 0, 1)]).
Proof.
  apply (malloc_stats_report (fun i => Z.of_nat i * 7) (fun i => Z.of_nat i * 16 + 4096) 4 []).
  - intros. lia.
  - intros. lia.
  - lia.
Defined.
