(* ===== verification/MallocHcreate.v ===== *)
(** * The tracker of src/malloc_stats_hcreate.c

    The same counters on the C library's [hsearch_r] table, which has a fixed
    capacity, and its [tsearch] trees. *)
From stdpp Require Import base list gmap strings.
From Stdlib Require Import ZArith Lia Ascii.
From S2P Require Import Prelude Stdio AllocStats.

Open Scope Z_scope.

(** ** <search.h>

    A hash table of [hcreate_r] holds at most [cap] entries; [hsearch_r] returns 0
    on an error and sets the result to a null pointer. Keys are compared as
    strings; the data are the addresses of [alloc_stat] blocks. *)
Record hsearch_data : Type := Hsearch { h_cap : nat; h_entries : list (list ascii * nat) }.

Fixpoint entry_lookup (es : list (list ascii * nat)) (k : list ascii) : option (list ascii * nat) :=
  match es with
  | [] => None
  | (k', d) :: es => if decide (k' = k) then Some (k', d) else entry_lookup es k
  end.

Definition hsearch_find (h : hsearch_data) (k : list ascii) : Z * option (list ascii * nat) :=
  match entry_lookup (h_entries h) k with
  | Some e => (1, Some e)
  | None => (0, None)
  end.

Definition hsearch_enter (h : hsearch_data) (k : list ascii) (d : nat)
    : Z * option (list ascii * nat) * hsearch_data :=
  match entry_lookup (h_entries h) k with
  | Some e => (1, Some e, h)
  | None =>
      if Nat.ltb (length (h_entries h)) (h_cap h)
      then (1, Some (k, d), Hsearch (h_cap h) (h_entries h ++ [(k, d)]))
      else (0, None, h)
  end.

(** A tree of [tsearch] is the collection of its items, no two of which compare
    equal. *)
Section Tree.
Context {A : Type} (compare : A -> A -> Z).

Fixpoint tfind (key : A) (tree : list A) : option A :=
  match tree with
  | [] => None
  | x :: tree => if compare key x =? 0 then Some x else tfind key tree
  end.

(** The item found or added, and the tree; [ok]: a node could be allocated. *)
Definition tsearch (ok : bool) (key : A) (tree : list A) : option A * list A :=
  match tfind key tree with
  | Some x => (Some x, tree)
  | None => if ok then (Some key, key :: tree) else (None, tree)
  end.

Definition tdelete (key : A) (tree : list A) : list A :=
  filter (fun x => compare key x <> 0) tree.
End Tree.

(** ** The program *)

Definition HTABLE_SZ : nat := 1024.

Record alloc_data : Type := AllocData { ad_string : list ascii; ad_ptr : Z; ad_size : Z }.

Record alloc_stat : Type := AllocStat { nr_allocs : Z; nr_frees : Z }.

Definition ad_compare (a1 a2 : alloc_data) : Z :=
  if ad_ptr a1 <? ad_ptr a2 then -1 else if ad_ptr a2 <? ad_ptr a1 then 1 else 0.

(** [alloc_string_table] is an array of [HTABLE_SZ] pointers and a count. *)
Record trackers : Type := Trackers {
  strings_tbl : blk (list ascii);
  strings_count : Z;
  alloc_track_table : list alloc_data;
  alloc_stat_table : hsearch_data;
  stat_blocks : list alloc_stat;
}.

(** [cap]: the capacity that [hcreate_r(HTABLE_SZ)] provides, at least
    [HTABLE_SZ]. *)
Definition debug_init (cap : nat) : trackers :=
  Trackers (replicate HTABLE_SZ None) 0 [] (Hsearch cap []) [].

(** The address of the statistics of a name. The tests [ret < 0] of the code never
    hold, since an error is reported by 0. *)
Definition get_stat (m : mallocs) (str : list ascii) (t : trackers)
    : res (option (list ascii * trackers)) :=
  ub_unless (m_key m)
    (let '(ret, item_p) := hsearch_find (alloc_stat_table t) str in
     if ret <? 0 then Ok None
     else
       match item_p with
       | None =>
           ub_unless (m_as m)
             (let a := length (stat_blocks t) in
              let '(ret, _, tbl) := hsearch_enter (alloc_stat_table t) str a in
              if ret <? 0 then Ok None
              else
                strs ← wrc (strings_tbl t) (strings_count t) str;
                c ← int_of (strings_count t + 1);
                Ok (Some (str, Trackers strs c (alloc_track_table t) tbl
                                 (stat_blocks t ++ [AllocStat 1 0]))))
       | Some (key, a) =>
           st ← rd (stat_blocks t) (Z.of_nat a);
           Ok (Some (key, Trackers (strings_tbl t) (strings_count t) (alloc_track_table t)
                 (alloc_stat_table t)
                 (<[a := AllocStat (uint64 (nr_allocs st + 1)) (nr_frees st)]> (stat_blocks t))))
       end).

Definition debug_alloc (m : mallocs) (ptr size : Z) (str : list ascii) (t : trackers)
    : res trackers :=
  r ← get_stat m str t;
  match r with
  | None => Ok t
  | Some (alloc_string, t) =>
      ub_unless (m_ad m)
        (let '(_, tree) := tsearch ad_compare (m_str m) (AllocData alloc_string ptr size)
                             (alloc_track_table t) in
         Ok (Trackers (strings_tbl t) (strings_count t) tree (alloc_stat_table t) (stat_blocks t)))
  end.

(** [%08lu] prints all 64 bits. *)
Fixpoint stats_rows (rounds : nat) (i : Z) (t : trackers) : res (list row) :=
  match rounds with
  | O => Ok []
  | S rounds =>
      alloc_string ← rdc (strings_tbl t) i;
      let '(ret, item_p) := hsearch_find (alloc_stat_table t) alloc_string in
      if ret <? 0 then Ok []
      else
        match item_p with
        | Some (_, a) =>
            st ← rd (stat_blocks t) (Z.of_nat a);
            rows ← stats_rows rounds (i + 1) t;
            Ok ((alloc_string, nr_allocs st, nr_frees st,
                 uint64 (nr_allocs st - nr_frees st)) :: rows)
        | None => stats_rows rounds (i + 1) t
        end
  end.

Definition print_stats (t : trackers) : res (list row) :=
  stats_rows (Z.to_nat (strings_count t)) 0 t.

(** An unknown block is reported and changes nothing: the assertion is empty, since the
    program is compiled with NDEBUG. *)
Definition debug_free (ptr : Z) (t : trackers) : res trackers :=
  match tfind ad_compare (AllocData [] ptr 0) (alloc_track_table t) with
  | None => Ok t
  | Some ad =>
      let tree := tdelete ad_compare ad (alloc_track_table t) in
      let '(ret, item_p) := hsearch_find (alloc_stat_table t) (ad_string ad) in
      let t' := Trackers (strings_tbl t) (strings_count t) tree (alloc_stat_table t) in
      if ret <? 0 then Ok (t' (stat_blocks t))
      else
        match item_p with
        | None => Ok (t' (stat_blocks t))
        | Some (_, a) =>
            st ← rd (stat_blocks t) (Z.of_nat a);
            Ok (t' (<[a := AllocStat (nr_allocs st) (uint64 (nr_frees st + 1))]> (stat_blocks t)))
        end
  end.

Section Capacity.
Context (cap : nat).

#[export] Instance hcreate_tracker : Tracker trackers := {
  tk_init := debug_init cap;
  tk_alloc := debug_alloc;
  tk_free := debug_free;
  tk_stats := print_stats;
}.
End Capacity.

(** ** The state accounts for the history *)

Lemma ad_compare_0 a b : ad_compare a b = 0 <-> ad_ptr a = ad_ptr b.
Proof. unfold ad_compare. repeat case_Z; lia. Qed.

Lemma tfind_cons a x tree :
  tfind ad_compare a (x :: tree) =
  if decide (ad_ptr a = ad_ptr x) then Some x else tfind ad_compare a tree.
Proof.
  cbn [tfind]. destruct (Z.eqb_spec (ad_compare a x) 0) as [E|E]; rewrite ad_compare_0 in E;
    by case_decide.
Qed.

Lemma tfind_ptr a b tree : ad_ptr a = ad_ptr b -> tfind ad_compare a tree = tfind ad_compare b tree.
Proof. intros E. induction tree as [|x tree IH]; [done|]. by rewrite !tfind_cons, E, IH. Qed.

Lemma tfind_tdelete a b tree :
  tfind ad_compare a (tdelete ad_compare b tree) =
  if decide (ad_ptr a = ad_ptr b) then None else tfind ad_compare a tree.
Proof.
  unfold tdelete. induction tree as [|x tree IH]; [by case_decide|].
  rewrite filter_cons, tfind_cons. pose proof (ad_compare_0 b x) as E.
  destruct (decide (ad_compare b x <> 0)) as [D|D]; [rewrite tfind_cons|]; rewrite IH;
    repeat case_decide; try done; exfalso; lia.
Qed.

Lemma tfind_Some_ptr a tree x : tfind ad_compare a tree = Some x -> ad_ptr x = ad_ptr a.
Proof.
  induction tree as [|y tree IH]; [done|]. rewrite tfind_cons. case_decide; [|done]. congruence.
Qed.

Definition stat_of (tr : list event) (s : list ascii) : alloc_stat :=
  AllocStat (uint64 (Z.of_nat (allocated tr s))) (uint64 (Z.of_nat (freed tr s))).

Record rep (cap : nat) (tr : list event) (t : trackers) : Prop := {
  rep_size : (length (names tr) <= HTABLE_SZ)%nat;
  rep_strings : strings_tbl t = (Some <$> names tr) ++ replicate (HTABLE_SZ - length (names tr)) None;
  rep_count : strings_count t = Z.of_nat (length (names tr));
  rep_cap : h_cap (alloc_stat_table t) = cap;
  rep_entries : length (h_entries (alloc_stat_table t)) = length (names tr);
  rep_stat s a : entry_lookup (h_entries (alloc_stat_table t)) s = Some (s, a) <-> names tr !! a = Some s;
  rep_blocks : stat_blocks t = stat_of tr <$> names tr;
  rep_track p : ad_string <$> tfind ad_compare (AllocData [] p 0) (alloc_track_table t) = live tr !! p;
}.

Lemma entry_lookup_snoc es k d s :
  entry_lookup (es ++ [(k, d)]) s =
  match entry_lookup es s with Some e => Some e | None => if decide (k = s) then Some (k, d) else None end.
Proof.
  induction es as [|[k' d'] es IH]; [done|]. cbn [app entry_lookup].
  destruct (decide (k' = s)); [done|exact IH].
Qed.

Lemma entry_lookup_key es s k a : entry_lookup es s = Some (k, a) -> k = s.
Proof.
  induction es as [|[k' d] es IH]; [done|]. cbn [entry_lookup]. case_decide; [congruence|done].
Qed.

Section Laws.
Context (cap : nat) (Hcap : (HTABLE_SZ <= cap)%nat).

Lemma hcreate_rep_block tr t s key a :
  rep cap tr t -> entry_lookup (h_entries (alloc_stat_table t)) s = Some (key, a) ->
  key = s /\ names tr !! a = Some s /\ rd (stat_blocks t) (Z.of_nat a) = Ok (stat_of tr s).
Proof.
  intros R Ha. pose proof (entry_lookup_key _ _ _ _ Ha) as ->. split; [done|].
  apply (rep_stat _ _ _ R) in Ha. split; [done|].
  apply rd_nat. by rewrite (rep_blocks _ _ _ R), list_lookup_fmap, Ha.
Qed.

Lemma hcreate_rep_absent tr t s :
  rep cap tr t -> entry_lookup (h_entries (alloc_stat_table t)) s = None -> s ∉ names tr.
Proof.
  intros R Hn [i Hi]%list_elem_of_lookup. apply (rep_stat _ _ _ R) in Hi. congruence.
Qed.

Lemma rep_find tr t s : 
  rep cap tr t -> s ∈ names tr ->
  exists a, hsearch_find (alloc_stat_table t) s = (1, Some (s, a)) /\
    names tr !! a = Some s /\ rd (stat_blocks t) (Z.of_nat a) = Ok (stat_of tr s).
Proof.
  intros R [a Ha]%list_elem_of_lookup. exists a. unfold hsearch_find.
  pose proof (proj2 (rep_stat _ _ _ R s a) Ha) as E. rewrite E.
  split; [done|]. by apply (hcreate_rep_block tr t s s a).
Qed.

(** A new name: the table of entries and the list of names grow together. *)
Lemma rep_stat_new tr t s :
  rep cap tr t -> s ∉ names tr -> forall s' a',
  entry_lookup (h_entries (alloc_stat_table t) ++ [(s, length (stat_blocks t))]) s' = Some (s', a') <->
  (names tr ++ [s]) !! a' = Some s'.
Proof.
  intros R Hs s' a'. rewrite entry_lookup_snoc.
  assert (El : length (stat_blocks t) = length (names tr))
    by (by rewrite (rep_blocks _ _ _ R), length_fmap).
  rewrite El. destruct (entry_lookup (h_entries _) s') as [[k' d]|] eqn:E'.
  - pose proof (hcreate_rep_block tr t s' k' d R E') as (-> & Hd & _). rewrite <- E', (rep_stat _ _ _ R).
    split; [intros Hl; apply lookup_app_Some; by left|].
    intros [Hl|[_ Hl]]%lookup_app_Some; [done|]. apply list_lookup_singleton_Some in Hl as [_ <-].
    exfalso. apply Hs, list_elem_of_lookup. by exists d.
  - pose proof (hcreate_rep_absent tr t s' R E') as Hn. split.
    { case_decide; [|done]. intros [= <- <-]. by apply list_lookup_middle. }
    intros [Hl|[Hge Hl]]%lookup_app_Some; [by exfalso; apply Hn, list_elem_of_lookup; exists a'|].
    apply list_lookup_singleton_Some in Hl as [Hl <-]. rewrite decide_True by done.
    do 2 f_equal. lia.
Qed.

Lemma hcreate_get_stat_rep tr t p s :
  wf (Alloc p s :: tr) -> (length (names (Alloc p s :: tr)) <= HTABLE_SZ)%nat -> rep cap tr t ->
  exists t', get_stat mallocs_good s t = Ok (Some (s, t')) /\
    alloc_track_table t' = alloc_track_table t /\
    (forall tree,
      (forall q, ad_string <$> tfind ad_compare (AllocData [] q 0) tree = live (Alloc p s :: tr) !! q) ->
      rep cap (Alloc p s :: tr)
        (Trackers (strings_tbl t') (strings_count t') tree (alloc_stat_table t') (stat_blocks t'))).
Proof.
  intros [_ Hw] Hroom R. unfold get_stat. cbn [mallocs_good m_as m_key ub_unless].
  assert (Hg : forall s', s' <> s -> stat_of (Alloc p s :: tr) s' = stat_of tr s').
  { intros s' Hne. unfold stat_of. cbn [allocated freed]. by rewrite decide_False. }
  destruct (decide (s ∈ names tr)) as [Hs|Hs].
  - destruct (rep_find tr t s R Hs) as (a & -> & Ha & ->). cbn. rewrite (names_old tr p s Hs) in *.
    eexists. split; [done|]. split; [done|]. intros tree Htree.
    cbn [stat_of nr_allocs nr_frees]. rewrite uint64_succ.
    replace (AllocStat _ _) with (stat_of (Alloc p s :: tr) s)
      by (unfold stat_of; cbn [allocated freed]; by rewrite decide_True).
    split; rewrite ?(names_old tr p s Hs); try apply R; [|done].
    cbn [stat_blocks]. rewrite (rep_blocks _ _ _ R). by apply names_update.
  - unfold hsearch_find, hsearch_enter.
    destruct (entry_lookup _ s) as [[k a]|] eqn:E.
    { apply (hcreate_rep_block tr t s k a R) in E as (_ & E & _). exfalso. apply Hs, list_elem_of_lookup. by exists a. }
    rewrite (names_new tr p s Hs) in *. rewrite length_app in Hroom. cbn [length] in Hroom.
    rewrite (rep_entries _ _ _ R), (rep_cap _ _ _ R), (proj2 (Nat.ltb_lt _ _)) by lia.
    change (0 <? 0) with false. change (1 <? 0) with false. cbv iota.
    rewrite (rep_strings _ _ _ R), (rep_count _ _ _ R). unfold wrc.
    rewrite wr_Ok by (rewrite length_app, length_fmap, length_replicate; lia).
    rewrite bind_Ok, int_of_Ok, bind_Ok by (unfold INT_MIN, INT_MAX, HTABLE_SZ in *; lia).
    eexists. split; [done|]. split; [done|]. intros tree Htree.
    assert (Es : AllocStat 1 0 = stat_of (Alloc p s :: tr) s).
    { unfold stat_of. cbn [allocated freed]. rewrite decide_True by done.
      by destruct (fresh_name tr s Hw Hs) as [-> ->]. }
    split; rewrite ?(names_new tr p s Hs), ?length_app; cbn [length strings_tbl strings_count
      alloc_track_table alloc_stat_table stat_blocks h_cap h_entries]; [lia| |lia|done| | | |done].
    + rewrite Nat2Z.id, insert_app_r_alt by (rewrite length_fmap; lia).
      rewrite length_fmap, Nat.sub_diag.
      replace (HTABLE_SZ - length (names tr))%nat with (S (HTABLE_SZ - (length (names tr) + 1))) by lia.
      cbn [replicate insert list_insert]. by rewrite fmap_app, <- (assoc_L (++)).
    + by rewrite length_app, (rep_entries _ _ _ R).
    + by apply rep_stat_new.
    + rewrite Es, (rep_blocks _ _ _ R). by apply names_add.
Qed.

Lemma hcreate_debug_alloc_rep tr t p size s :
  wf (Alloc p s :: tr) -> (length (names (Alloc p s :: tr)) <= HTABLE_SZ)%nat -> rep cap tr t ->
  exists t', debug_alloc mallocs_good p size s t = Ok t' /\ rep cap (Alloc p s :: tr) t'.
Proof.
  intros Hw Hroom R. destruct (hcreate_get_stat_rep tr t p s Hw Hroom R) as (t1 & E & Et & G).
  unfold debug_alloc. rewrite E, bind_Ok. cbn [mallocs_good m_ad m_str ub_unless]. unfold tsearch.
  destruct Hw as [Hp _]. rewrite Et.
  rewrite (tfind_ptr _ (AllocData [] p 0)) by done. pose proof (rep_track _ _ _ R p) as Hl.
  destruct (tfind _ _ _) eqn:Ef; [by rewrite Hp in Hl|]. eexists. split; [done|]. apply G.
  intros q. rewrite tfind_cons. cbn [ad_ptr live]. case_decide as D.
  - subst q. by rewrite lookup_insert_eq.
  - rewrite lookup_insert_ne by done. apply (rep_track _ _ _ R).
Qed.

Lemma hcreate_debug_free_rep tr t p :
  wf (Free p :: tr) -> rep cap tr t ->
  exists t', debug_free p t = Ok t' /\ rep cap (Free p :: tr) t'.
Proof.
  intros [[s Hp] Hw] R. pose proof (rep_track _ _ _ R p) as Ht. rewrite Hp in Ht. unfold debug_free.
  destruct (tfind ad_compare _ _) as [ad|] eqn:Ef; [|done]. injection Ht as Es. rewrite Es.
  destruct (rep_find tr t s R (live_names _ _ _ Hp)) as (a & -> & Ha & ->).
  change (1 <? 0) with false. rewrite bind_Ok. eexists. split; [done|].
  pose proof (tfind_Some_ptr _ _ _ Ef) as Eptr. cbn [ad_ptr] in Eptr.
  split; cbn [strings_tbl strings_count alloc_track_table alloc_stat_table stat_blocks]; try apply R.
  - cbn [stat_of nr_allocs nr_frees]. rewrite (rep_blocks _ _ _ R), uint64_succ.
    replace (AllocStat _ _) with (stat_of (Free p :: tr) s)
      by (unfold stat_of; cbn [allocated freed]; by rewrite decide_True).
    apply (names_update _ _ tr a s Ha). intros s' Hne. unfold stat_of. cbn [allocated freed].
    by rewrite decide_False by congruence.
  - intros q. rewrite tfind_tdelete. cbn [ad_ptr live]. rewrite Eptr. case_decide as D.
    + subst q. by rewrite lookup_delete_eq.
    + rewrite lookup_delete_ne by done. apply (rep_track _ _ _ R).
Qed.

Lemma hcreate_stats_rows_rep tr t rounds i :
  wf tr -> rep cap tr t -> Z.of_nat (length tr) <= INT_MAX -> (i + rounds = length (names tr))%nat ->
  stats_rows rounds (Z.of_nat i) t =
  Ok (map (fun s => (s, Z.of_nat (allocated tr s), Z.of_nat (freed tr s),
                     Z.of_nat (outstanding tr s))) (drop i (names tr))).
Proof.
  intros Hw R Hl. revert i. induction rounds as [|rounds IH]; intros i Hi; cbn [stats_rows].
  { by rewrite drop_ge by lia. }
  destruct (lookup_lt_is_Some_2 (names tr) i) as [s Hs]; [lia|].
  rewrite (drop_S _ _ _ Hs). cbn [map]. rewrite (rep_strings _ _ _ R).
  rewrite (rdc_init _ _ _ s) by (rewrite ?Nat2Z.id; lia || done). rewrite bind_Ok.
  destruct (rep_find tr t s R) as (a & -> & Ha & ->); [apply list_elem_of_lookup; by exists i|].
  change (1 <? 0) with false. rewrite bind_Ok.
  replace (Z.of_nat i + 1) with (Z.of_nat (S i)) by lia. rewrite IH, bind_Ok by lia.
  cbn [stat_of nr_allocs nr_frees]. pose proof (allocated_length tr s). pose proof (accounting tr s Hw).
  unfold INT_MAX in *. rewrite !(uint64_small (Z.of_nat _)) by (unfold INT_MAX; lia).
  rewrite uint64_small by (unfold INT_MAX; lia). do 3 f_equal. lia.
Qed.

#[export] Instance hcreate_tracker_laws : @TrackerLaws trackers (hcreate_tracker cap).
Proof.
  refine (@Build_TrackerLaws trackers (hcreate_tracker cap) (rep cap)
            (fun k => (k <= HTABLE_SZ)%nat) _ _ _ _).
  - split; cbn -[HTABLE_SZ]; try done. lia.
  - intros tr t p size s Hw Hr R. by apply hcreate_debug_alloc_rep.
  - intros tr t p Hw R. by apply hcreate_debug_free_rep.
  - intros tr t Hw R Hl. cbn. unfold print_stats. rewrite (rep_count _ _ _ R), Nat2Z.id.
    change 0 with (Z.of_nat 0). by rewrite (hcreate_stats_rows_rep tr t).
Defined.
End Laws.

Definition malloc_hcreate_main (cap : nat) (rnd ptrs : nat -> Z) (oom : nat -> mallocs) (pm : bool)
    (args : list (list ascii)) : res outcome :=
  @main trackers (hcreate_tracker cap) rnd ptrs oom pm args.

(** C19. The same promise on the C library's tables, as long as the program uses at
    most 1024 names: no access leaves the array of names, although the tests for
    errors of [hsearch_r] can never succeed. *)
Theorem malloc_hcreate_report cap rnd ptrs n rest :
  (HTABLE_SZ <= cap)%nat ->
  (forall i, 0 <= rnd i) -> (forall a b, (a < b < n)%nat -> ptrs a <> ptrs b) ->
  Z.of_nat n <= 2 ^ 29 ->
  malloc_hcreate_main cap rnd ptrs (fun _ => mallocs_good) true
    (print_radix 10 1 (Z.of_nat n) :: rest) =
  Ok (Report (report (frees rnd ptrs n n))).
Proof.
  intros Hcap Hr Hd Hn.
  apply (@main_report trackers (hcreate_tracker cap) (hcreate_tracker_laws cap Hcap)); [done| |done..].
  intros k Hk. cbn -[HTABLE_SZ]. unfold HTABLE_SZ. lia.
Qed.

Lemma malloc_hcreate_report_witness :
  malloc_hcreate_main 1031 (fun i => Z.of_nat i * 7)
    (fun i => Z.of_nat i * 16 + 4096) (fun _ => mallocs_good) true [chars "4"] =
  Ok (Report [(chars "alloc 0", 1, 1, 0); (chars "alloc 7", 1, 0, 1);
              (chars "alloc 14", 1, 1, 0); (chars "alloc 1", 1, 0, 1)]).
Proof.
  apply (malloc_hcreate_report 1031 (fun i => Z.of_nat i * 7) (fun i => Z.of_nat i * 16 + 4096) 4 []).
  - apply Nat.leb_le. vm_compute. reflexivity.
  - intros. lia.
  - intros. lia.
  - lia.
Defined.

(** The table of names overflows: once 1024 names are in use, the allocation
    under a new name writes past the array, whatever capacity the hash table has
    and whether or not the new entry fits in it. *)
Theorem hcreate_names_overflow cap tr t p size s :
  (HTABLE_SZ <= cap)%nat -> rep cap tr t -> length (names tr) = HTABLE_SZ -> s ∉ names tr ->
  debug_alloc mallocs_good p size s t = Undef.
Proof.
  intros Hcap R Hl Hs. unfold debug_alloc, get_stat. cbn [mallocs_good m_as m_key ub_unless].
  unfold hsearch_find, hsearch_enter. destruct (entry_lookup _ s) as [[k a]|] eqn:E.
  { apply (hcreate_rep_block cap tr t s k a R) in E as (_ & E & _). exfalso.
    apply Hs, list_elem_of_lookup. by exists a. }
  change (0 <? 0) with false. cbv iota.
  assert (W : wrc (strings_tbl t) (strings_count t) s = Undef).
  { unfold wrc. apply wr_out. right. rewrite (rep_strings _ _ _ R), (rep_count _ _ _ R).
    rewrite length_app, length_fmap, length_replicate. lia. }
  destruct (_ <? h_cap _)%nat; [change (1 <? 0) with false|change (0 <? 0) with false];
    cbv iota; by rewrite W.
Qed.

(** The history in which the block at [16 i] is allocated under the name [i]. *)
Fixpoint many (n : nat) : list event :=
  match n with
  | O => []
  | S n => Alloc (Z.of_nat n * 16) (print_radix 10 1 (Z.of_nat n)) :: many n
  end.

Lemma many_names n s : s ∈ names (many n) -> exists i, (i < n)%nat /\ s = print_radix 10 1 (Z.of_nat i).
Proof.
  induction n as [|n IH]; cbn [many names]; [by intros ?%not_elem_of_nil|].
  case_decide; rewrite ?elem_of_app, ?list_elem_of_singleton.
  - intros H1. destruct (IH H1) as (i & ? & ->). exists i. split; [lia|done].
  - intros [H1| ->]; [destruct (IH H1) as (i & ? & ->); exists i|exists n]; (split; [lia|done]).
Qed.

Lemma many_fresh n : Z.of_nat n < 2 ^ 31 -> print_radix 10 1 (Z.of_nat n) ∉ names (many n).
Proof.
  intros Hn (i & Hi & E)%many_names. apply (f_equal (digits_val 10)) in E.
  rewrite !print_radix_val in E by lia. lia.
Qed.

Lemma many_length n : Z.of_nat n < 2 ^ 31 -> length (names (many n)) = n.
Proof.
  induction n as [|n IH]; intros Hn; [done|]. cbn [many].
  rewrite names_new, length_app, IH by (apply many_fresh || idtac; lia). cbn. lia.
Qed.

Lemma many_live n p s : live (many n) !! p = Some s -> p < Z.of_nat n * 16.
Proof.
  induction n as [|n IH]; cbn [many live]; [done|].
  intros [[<- _]|[_ H1]]%lookup_insert_Some; [lia|]. specialize (IH H1). lia.
Qed.

Lemma many_wf n : wf (many n).
Proof.
  induction n as [|n IH]; cbn [many wf]; [done|]. split; [|done].
  destruct (live _ !! _) as [s|] eqn:E; [|done]. apply many_live in E. lia.
Qed.

Lemma many_reachable cap n :
  (HTABLE_SZ <= cap)%nat -> (n <= HTABLE_SZ)%nat -> exists t, rep cap (many n) t.
Proof.
  intros Hcap. induction n as [|n IH]; intros Hn.
  - exists (debug_init cap). by apply (@tk_init_rep _ _ (hcreate_tracker_laws cap Hcap)).
  - destruct IH as (t & R); [lia|]. unfold HTABLE_SZ in Hn.
    destruct (hcreate_debug_alloc_rep cap Hcap (many n) t (Z.of_nat n * 16) 20 (print_radix 10 1 (Z.of_nat n)))
      as (t' & _ & R'); [apply (many_wf (S n))| |done|by exists t'].
    change (Alloc _ _ :: many n) with (many (S n)). rewrite many_length by lia. done.
Qed.

Lemma hcreate_names_overflow_witness :
  exists t, debug_alloc mallocs_good 0 20 (chars "new") t = Undef.
Proof.
  destruct (many_reachable 1031 1024) as (t & R); [unfold HTABLE_SZ; lia..|].
  exists t. apply (hcreate_names_overflow 1031 (many 1024) t 0 20 (chars "new")).
  - unfold HTABLE_SZ. lia.
  - exact R.
  - apply (many_length 1024). lia.
  - intros (i & _ & E)%many_names. apply (f_equal (Forall (fun c => is_digit 10 c = true))) in E.
    pose proof (print_radix_digits 10 1 (Z.of_nat i) ltac:(lia)) as Hd. rewrite <- E in Hd.
    by apply Forall_cons in Hd as [Hd _].
Defined.
