(* ===== verification/Trackers.v ===== *)
(** * The two trackers compared

    src/malloc_stats.c and src/malloc_stats_hcreate.c are the same program on
    different tables. Their equivalence follows from the laws of the interface
    [Tracker], which each file's tracker has been shown to keep. *)
From stdpp Require Import base list gmap strings.
From Stdlib Require Import ZArith Lia Ascii.
From S2P Require Import Prelude Stdio AllocStats.
From S2P Require Import MallocStats.
From S2P Require Import MallocHcreate.

Open Scope Z_scope.

(** What [max_iter] may be: the counters and the array must stay in range. *)
Definition rounds_ok (args : list (list ascii)) : Prop :=
  forall arg ret n, head args = Some arg -> sscanf arg [DDec] = Ok (ret, [VInt n]) -> n <= 2 ^ 29.

(** C20. The two programs print the same report, or both end with the usage message,
    whatever the arguments: GLib's growing tables and the C library's fixed one
    cannot be told apart by a program that uses 20 names. *)
Theorem trackers_equivalent {TT} `{MallocStats.HashTableLaws Z MallocStats.alloc_data TT}
    {TS} `{MallocStats.HashTableLaws (list ascii) nat TS} cap rnd ptrs args :
  (MallocHcreate.HTABLE_SZ <= cap)%nat ->
  (forall i, 0 <= rnd i) -> (forall a b, (a < b)%nat -> ptrs a <> ptrs b) -> rounds_ok args ->
  MallocStats.malloc_stats_main (TT := TT) (TS := TS) rnd ptrs (fun _ => mallocs_good) true args =
  MallocHcreate.malloc_hcreate_main cap rnd ptrs (fun _ => mallocs_good) true args.
Proof.
  intros Hcap Hr Hd Ha.
  apply (@main_agree _ _ MallocStats.glib_tracker_laws _ (MallocHcreate.hcreate_tracker cap)
           (MallocHcreate.hcreate_tracker_laws cap Hcap)); [done..| |done].
  intros k Hk. split; [exact I|]. cbn -[MallocHcreate.HTABLE_SZ].
  unfold MallocHcreate.HTABLE_SZ. lia.
Qed.

Lemma rounds_ok_three : rounds_ok [chars "3 "; chars "x"].
Proof.
  intros arg ret n [= <-] E. vm_compute in E. injection E as _ <-. lia.
Qed.

Lemma trackers_equivalent_witness :
  MallocStats.malloc_stats_main (TT := gmap Z MallocStats.alloc_data) (TS := gmap (list ascii) nat)
    (fun i => Z.of_nat i) (fun i => Z.of_nat i * 32) (fun _ => mallocs_good) true
    [chars "3 "; chars "x"] =
  MallocHcreate.malloc_hcreate_main 1031
    (fun i => Z.of_nat i) (fun i => Z.of_nat i * 32) (fun _ => mallocs_good) true
    [chars "3 "; chars "x"].
Proof.
  apply (trackers_equivalent 1031 (fun i => Z.of_nat i) (fun i => Z.of_nat i * 32)).
  - apply Nat.leb_le. vm_compute. reflexivity.
  - intros. lia.
  - intros. lia.
  - exact rounds_ok_three.
Defined.
