(* ===== verification/Uevent.v ===== *)
(** * The uevent listener of src/recv_nl_uevent.c

    [process_uevent_buf] picks the values of eight known variables out of a kernel
    message, a buffer of NUL terminated strings; [main] serves messages until a
    signal arrives. The system calls' results are arguments. *)
From stdpp Require Import base list strings.
From Stdlib Require Import ZArith Lia Ascii.
From S2P Require Import Prelude Stdio.

Open Scope Z_scope.

(** ** [process_uevent_buf] *)

Definition uevent_env_str : list (list ascii) :=
  map chars ["ACTION="; "SUBSYSTEM="; "DEVPATH="; "DEVTYPE="; "PHYSDEVBUS=";
             "PHYSDEVDRIVER="; "PHYSDEVPATH="; "SLOT="]%string.

(** [!strncmp(buf + p, key, strlen(key))]; the keys hold no NUL, so the comparison
    never goes past the end of the string at [p]. *)
Fixpoint strncmp_eq (buf : list ascii) (p : Z) (key : list ascii) : res bool :=
  match key with
  | [] => Ok true
  | k :: key =>
      c ← rd buf p;
      if bool_decide (c = k) then strncmp_eq buf (p + 1) key else Ok false
  end.

(** The loop over [j]: the values are pointers into the buffer, or null. *)
Fixpoint match_keys (buf : list ascii) (p : Z) (keys : list (list ascii)) (vals : list (option Z))
    : res (list (option Z)) :=
  match keys, vals with
  | key :: keys, v :: vals =>
      b ← strncmp_eq buf p key;
      vals ← match_keys buf p keys vals;
      Ok ((if b : bool then Some (p + Z.of_nat (length key)) else v) :: vals)
  | _, _ => Ok vals
  end.

(** The inner loop: the pointer moves past the next NUL. *)
Fixpoint skip_string (fuel : nat) (buf : list ascii) (p : Z) : res Z :=
  match fuel with
  | O => NoFuel
  | S fuel =>
      c ← rd buf p;
      if bool_decide (c = NUL) then Ok (p + 1) else skip_string fuel buf (p + 1)
  end.

Fixpoint scan (fuel : nat) (buf : list ascii) (buflen p : Z) (vals : list (option Z))
    : res (list (option Z)) :=
  if p <? buflen then
    match fuel with
    | O => NoFuel
    | S fuel =>
        vals ← match_keys buf p uevent_env_str vals;
        p ← skip_string (S (length buf)) buf p;
        scan fuel buf buflen p vals
    end
  else Ok vals.

Definition print_line (key value : list ascii) : list ascii :=
  key ++ chars " = " ++ value ++ [newline].

(** [null_str]: what the C library prints for a null pointer under [%s]. *)
Fixpoint print_vals (null_str buf : list ascii) (keys : list (list ascii)) (vals : list (option Z))
    : res (list (list ascii)) :=
  match keys, vals with
  | key :: keys, v :: vals =>
      s ← match v with
          | Some p => cstr (drop (Z.to_nat p) buf)
          | None => Ok null_str
          end;
      lines ← print_vals null_str buf keys vals;
      Ok (print_line key s :: lines)
  | _, _ => Ok []
  end.

Definition process_uevent_buf (null_str buf : list ascii) (buflen : Z) : res (list (list ascii)) :=
  vals ← scan (S (length buf)) buf buflen 0 (map (fun _ => None) uevent_env_str);
  print_vals null_str buf uevent_env_str vals.

(** ** [main] *)

Definition BUF_SIZE : nat := 8192.

(** One round: the result of [select], whether the signal descriptor is set, and
    the message [recvmsg] delivers ([None] on an error). *)
Record round : Type := Round { r_fdcount : Z; r_signal : bool; r_msg : option (list ascii) }.

Inductive action : Type :=
| Perror (what : string)
| Line (text : list ascii)
| Exiting
| Close (fd : Z).

(** The buffer after [memset] and [recvmsg], which cuts a message that is too long,
    and [buflen]. *)
Definition recv_buf (msg : option (list ascii)) : list ascii * Z :=
  match msg with
  | None => (replicate BUF_SIZE NUL, -1)
  | Some m =>
      let data := take BUF_SIZE m in
      (data ++ replicate (BUF_SIZE - length data) NUL, Z.of_nat (length data))
  end.

(** The result is [None] while the rounds given do not end the loop. *)
Fixpoint serve (null_str : list ascii) (nl_fd : Z) (rounds : list round)
    : res (list action * option Z) :=
  match rounds with
  | [] => Ok ([], None)
  | r :: rounds =>
      if r_fdcount r <? 0 then Ok ([Perror "select"; Close nl_fd], Some (-1))
      else if r_signal r then Ok ([Exiting; Close nl_fd], Some 0)
      else
        let '(buf, buflen) := recv_buf (r_msg r) in
        let err := if buflen <? 0 then [Perror "recvmsg"] else [] in
        lines ← process_uevent_buf null_str buf buflen;
        '(acts, rc) ← serve null_str nl_fd rounds;
        Ok (err ++ map Line lines ++ acts, rc)
  end.

(** [nl_fd], [bind_rc] and [sigmask_fd]: the results of [socket], [bind] and
    [signalfd]. *)
Definition main (null_str : list ascii) (nl_fd bind_rc sigmask_fd : Z) (rounds : list round)
    : res (list action * option Z) :=
  if nl_fd <=? 0 then Ok ([Perror "socket"], Some (-1))
  else if negb (bind_rc =? 0) then Ok ([Perror "bind"; Close nl_fd], Some (-1))
  else if sigmask_fd <? 0 then Ok ([Perror "signalfd"], Some (-1))
  else serve null_str nl_fd rounds.

(** ** What a message says *)

(** The message the kernel sends for a list of strings. *)
Definition message (ss : list (list ascii)) : list ascii := flat_map (fun s => s ++ [NUL]) ss.

Definition starts_with (key s : list ascii) : bool := bool_decide (take (length key) s = key).

(** The value of a variable: of the last string that assigns it. *)
Definition value (ss : list (list ascii)) (key : list ascii) : option (list ascii) :=
  fold_left (fun v s => if starts_with key s then Some (drop (length key) s) else v) ss None.

Definition uevent_lines (null_str : list ascii) (ss : list (list ascii)) : list (list ascii) :=
  map (fun key => print_line key (default null_str (value ss key))) uevent_env_str.

(** ** Scanning a message *)

Lemma rd_at (pre : list ascii) c post : rd (pre ++ c :: post) (Z.of_nat (length pre)) = Ok c.
Proof. apply rd_nat. by rewrite list_lookup_middle. Qed.

Lemma strncmp_eq_spec key pre s post :
  no_nul key -> strncmp_eq (pre ++ s ++ NUL :: post) (Z.of_nat (length pre)) key = Ok (starts_with key s).
Proof.
  revert pre s. induction key as [|k key IH]; intros pre s Hk; [done|].
  apply not_elem_of_cons in Hk as [Hk Hkey]. cbn [strncmp_eq]. destruct s as [|c s]; cbn [app].
  - rewrite rd_at, bind_Ok, bool_decide_false by done. done.
  - rewrite rd_at, bind_Ok. case_bool_decide as E.
    + subst c. specialize (IH (pre ++ [k]) s Hkey). rewrite length_app in IH. cbn [length] in IH.
      rewrite <- (assoc_L (++)) in IH. cbn [app] in IH.
      replace (Z.of_nat (length pre) + 1) with (Z.of_nat (length pre + 1)) by lia. rewrite IH.
      unfold starts_with. cbn [length take]. f_equal. apply bool_decide_ext. split; congruence.
    + unfold starts_with. cbn [length take]. rewrite bool_decide_false by congruence. done.
Qed.

Lemma match_keys_spec keys vals pre s post :
  Forall no_nul keys -> length vals = length keys ->
  match_keys (pre ++ s ++ NUL :: post) (Z.of_nat (length pre)) keys vals =
  Ok (zip_with (fun key v => if starts_with key s then Some (Z.of_nat (length pre + length key)) else v)
        keys vals).
Proof.
  intros Hk. revert vals. induction Hk as [|key keys Hkey _ IH]; intros [|v vals] Hl; try done.
  cbn [match_keys zip_with]. rewrite strncmp_eq_spec, bind_Ok by done.
  rewrite IH, bind_Ok by (by injection Hl). by rewrite Nat2Z.inj_add.
Qed.

Lemma skip_string_spec fuel pre s post :
  no_nul s -> (length s < fuel)%nat ->
  skip_string fuel (pre ++ s ++ NUL :: post) (Z.of_nat (length pre)) =
  Ok (Z.of_nat (length pre + length s + 1)).
Proof.
  revert pre fuel. induction s as [|c s IH]; intros pre [|fuel] Hs Hf; cbn [length] in *; try lia;
    cbn [skip_string app].
  - rewrite rd_at, bind_Ok, bool_decide_true by done. f_equal. lia.
  - apply not_elem_of_cons in Hs as [Hc Hs]. rewrite rd_at, bind_Ok, bool_decide_false by done.
    specialize (IH (pre ++ [c]) fuel Hs ltac:(lia)). rewrite length_app in IH. cbn [length] in IH.
    rewrite <- (assoc_L (++)) in IH. cbn [app] in IH.
    replace (Z.of_nat (length pre) + 1) with (Z.of_nat (length pre + 1)) by lia. rewrite IH.
    f_equal. lia.
Qed.

(** A pointer refers to the value it should. *)
Definition points_to (buf : list ascii) (v : option Z) (w : option (list ascii)) : Prop :=
  match v, w with
  | None, None => True
  | Some p, Some w => no_nul w /\ exists pre post, buf = pre ++ w ++ NUL :: post /\ p = Z.of_nat (length pre)
  | _, _ => False
  end.

Definition vals_ok (buf : list ascii) (seen keys : list (list ascii)) (vals : list (option Z)) : Prop :=
  Forall2 (fun key v => points_to buf v (value seen key)) keys vals.

Lemma value_snoc seen s key :
  value (seen ++ [s]) key =
  if starts_with key s then Some (drop (length key) s) else value seen key.
Proof. unfold value. by rewrite fold_left_app. Qed.

Lemma vals_ok_step pre s post seen keys vals :
  no_nul s -> vals_ok (pre ++ s ++ NUL :: post) seen keys vals ->
  vals_ok (pre ++ s ++ NUL :: post) (seen ++ [s]) keys
    (zip_with (fun key v => if starts_with key s then Some (Z.of_nat (length pre + length key)) else v)
       keys vals).
Proof.
  intros Hs. unfold vals_ok. induction 1 as [|key v keys vals Hv _ IH]; cbn [zip_with]; [done|].
  constructor; [|exact IH]. rewrite value_snoc. destruct (starts_with key s) eqn:E; [|done].
  unfold starts_with in E. apply bool_decide_eq_true in E. cbn [points_to].
  assert (Es : s = key ++ drop (length key) s) by (rewrite <- E at 1; by rewrite take_drop).
  split.
  - intros Hin. apply Hs. rewrite Es. apply elem_of_app. by right.
  - exists (pre ++ key), post. split; [|by rewrite length_app].
    rewrite Es at 1. by rewrite <- !(assoc_L (++)).
Qed.

Lemma keys_no_nul : Forall no_nul uevent_env_str.
Proof. decide_now. Qed.

Lemma message_app a b : message (a ++ b) = message a ++ message b.
Proof. unfold message. apply flat_map_app. Qed.

Lemma message_length ss : (length ss <= length (message ss))%nat.
Proof.
  unfold message. induction ss as [|s ss IH]; [done|]. cbn [flat_map length].
  rewrite !length_app. cbn [length]. lia.
Qed.

Lemma scan_spec fuel ss seen rest vals :
  Forall no_nul ss -> (length ss <= fuel)%nat -> length vals = length uevent_env_str ->
  let buf := message seen ++ message ss ++ rest in
  vals_ok buf seen uevent_env_str vals ->
  exists vals', scan fuel buf (Z.of_nat (length (message seen) + length (message ss)))
      (Z.of_nat (length (message seen))) vals = Ok vals' /\
    vals_ok buf (seen ++ ss) uevent_env_str vals'.
Proof.
  intros Hss. revert fuel seen vals. induction Hss as [|s ss Hs _ IH]; intros fuel seen vals Hf Hl buf Hv.
  - exists vals. rewrite app_nil_r. split; [|done]. cbn [message flat_map length]. rewrite Nat.add_0_r.
    destruct fuel; cbn [scan]; by rewrite Z.ltb_irrefl.
  - destruct fuel as [|fuel]; cbn [length] in Hf; [lia|]. cbn [scan].
    assert (Em : message (s :: ss) = s ++ [NUL] ++ message ss) by (cbn; by rewrite <- (assoc_L (++))).
    assert (Eb : buf = message seen ++ s ++ NUL :: message ss ++ rest).
    { unfold buf. rewrite Em. by rewrite <- !(assoc_L (++)). }
    assert (Lm : length (message (s :: ss)) = (length s + 1 + length (message ss))%nat)
      by (rewrite Em, !length_app; cbn; lia).
    rewrite (proj2 (Z.ltb_lt _ _)) by lia. clearbody buf. subst buf.
    rewrite match_keys_spec, bind_Ok by (apply keys_no_nul || done).
    rewrite skip_string_spec, bind_Ok by (done || (rewrite !length_app; cbn [length]; lia)).
    assert (Es : message (seen ++ [s]) = message seen ++ s ++ [NUL])
      by (rewrite message_app; cbn; by rewrite app_nil_r).
    assert (Ls : length (message (seen ++ [s])) = (length (message seen) + length s + 1)%nat)
      by (rewrite Es, !length_app; cbn; lia).
    pose proof (vals_ok_step _ _ _ _ _ _ Hs Hv) as Hv'.
    replace (message seen ++ s ++ NUL :: message ss ++ rest)
      with (message (seen ++ [s]) ++ message ss ++ rest) in * by (rewrite Es, <- !(assoc_L (++)); done).
    set (nv := zip_with _ _ _) in *.
    assert (Ln : length nv = length uevent_env_str) by (unfold nv; by rewrite length_zip_with, Hl, Nat.min_id).
    destruct (IH fuel (seen ++ [s]) nv ltac:(lia) Ln Hv') as (vals' & E & Hok).
    exists vals'. rewrite Ls in E. split.
    + rewrite <- E. f_equal. lia.
    + by rewrite <- (assoc_L (++)) in Hok.
Qed.

Lemma print_vals_spec null_str buf seen keys vals :
  vals_ok buf seen keys vals ->
  print_vals null_str buf keys vals =
  Ok (map (fun key => print_line key (default null_str (value seen key))) keys).
Proof.
  induction 1 as [|key v keys vals Hv _ IH]; [done|]. cbn [print_vals map]. rewrite IH.
  destruct v as [p|], (value seen key) as [w|]; try done. cbn in Hv.
  destruct Hv as (Hw & pre & post & -> & ->).
  by rewrite Nat2Z.id, drop_app_length, cstr_nul by done.
Qed.

Lemma process_spec null_str ss rest :
  Forall no_nul ss ->
  process_uevent_buf null_str (message ss ++ rest) (Z.of_nat (length (message ss))) =
  Ok (uevent_lines null_str ss).
Proof.
  intros Hss. unfold process_uevent_buf.
  destruct (scan_spec (S (length (message ss ++ rest))) ss [] rest (map (fun _ => None) uevent_env_str))
    as (vals & E & Hok); [done| |done| |].
  - rewrite length_app. pose proof (message_length ss). lia.
  - unfold vals_ok, value. cbn [fold_left]. clear. induction uevent_env_str; by constructor.
  - cbn [message flat_map app length Nat.add] in E. change (Z.of_nat 0) with 0 in E.
    rewrite E, bind_Ok. by rewrite (print_vals_spec _ _ _ _ _ Hok).
Qed.

(** C21. The listener prints the right values: for every message that fits the
    buffer it prints, for each of the eight variables, the value of the last string
    that assigns it (or what the library prints for a null pointer), without
    leaving the buffer; the first signal closes the socket and ends the program
    with 0, whatever would follow. *)
Theorem uevent_main_serves null_str nl_fd sigmask_fd (msgs : list (list (list ascii))) n more :
  0 < nl_fd -> 0 <= sigmask_fd -> 0 <= n ->
  Forall (fun ss => Forall no_nul ss /\ (length (message ss) <= BUF_SIZE)%nat) msgs ->
  main null_str nl_fd 0 sigmask_fd
    (map (fun ss => Round n false (Some (message ss))) msgs ++ Round n true None :: more) =
  Ok (flat_map (fun ss => map Line (uevent_lines null_str ss)) msgs ++ [Exiting; Close nl_fd], Some 0).
Proof.
  intros Hfd Hsig Hn Hm. unfold main.
  rewrite (proj2 (Z.leb_gt _ _)), (proj2 (Z.ltb_ge sigmask_fd 0)) by lia. cbn [negb Z.eqb].
  induction Hm as [|ss msgs [Hss Hl] _ IH]; cbn -[BUF_SIZE uevent_lines message process_uevent_buf];
    rewrite (proj2 (Z.ltb_ge n 0)) by lia; [done|].
  rewrite take_ge, (proj2 (Z.ltb_ge _ 0)), process_spec, bind_Ok, IH by (lia || done).
  rewrite bind_Ok. cbn [app]. by rewrite (assoc_L (++)).
Qed.

Lemma uevent_main_serves_witness :
  main (chars "(null)") 3 0 4
    [Round 1 false (Some (chars "remove@/x" ++ [NUL] ++ chars "ACTION=remove" ++ [NUL]));
     Round 1 true None] =
  Ok (map Line (uevent_lines (chars "(null)") [chars "remove@/x"; chars "ACTION=remove"])
      ++ [Exiting; Close 3], Some 0) /\
  head (uevent_lines (chars "(null)") [chars "remove@/x"; chars "ACTION=remove"]) =
  Some (chars "ACTION= = remove" ++ [newline]).
Proof.
  split; [|by vm_compute].
  apply (uevent_main_serves (chars "(null)") 3 4 [[chars "remove@/x"; chars "ACTION=remove"]] 1 []);
    [lia|lia|lia|].
  constructor; [|constructor]. split; [decide_now|]. apply Nat.leb_le. vm_compute. reflexivity.
Defined.

Lemma strncmp_eq_total buf p key :
  0 <= p -> p + Z.of_nat (length key) <= Z.of_nat (length buf) -> exists b, strncmp_eq buf p key = Ok b.
Proof.
  revert p. induction key as [|k key IH]; intros p Hp Hl; cbn [strncmp_eq length] in *; [eauto|].
  destruct (rd_in_bounds buf p) as (c & -> & _); [lia|]. rewrite bind_Ok.
  case_bool_decide; [apply IH; lia|eauto].
Qed.

Lemma match_keys_total buf p keys vals :
  0 <= p -> Forall (fun key => p + Z.of_nat (length key) <= Z.of_nat (length buf)) keys ->
  exists vals', match_keys buf p keys vals = Ok vals'.
Proof.
  intros Hp Hk. revert vals. induction Hk as [|key keys Hkey _ IH]; intros [|v vals];
    cbn [match_keys]; eauto.
  destruct (strncmp_eq_total buf p key Hp Hkey) as (b & ->). rewrite bind_Ok.
  destruct (IH vals) as (vals' & ->). rewrite bind_Ok. eauto.
Qed.

Lemma skip_string_overrun fuel buf p :
  no_nul buf -> 0 <= p <= Z.of_nat (length buf) -> Z.of_nat (length buf) - p < Z.of_nat fuel ->
  skip_string fuel buf p = Undef.
Proof.
  intros Hb. revert p. induction fuel as [|fuel IH]; intros p Hp Hf; [lia|]. cbn [skip_string].
  destruct (decide (p < Z.of_nat (length buf))) as [Hlt|Hge].
  - destruct (rd_in_bounds buf p) as (c & -> & Hc); [lia|]. rewrite bind_Ok, bool_decide_false.
    + apply IH; lia.
    + intros ->. apply Hb, list_elem_of_lookup. by eexists.
  - by rewrite rd_out by lia.
Qed.

(** A message that fills the buffer without a terminator is read beyond it: the
    buffer has no room for the NUL that the scan relies on. *)
Theorem uevent_unterminated null_str nl_fd n m more :
  0 <= n -> no_nul m -> (BUF_SIZE <= length m)%nat ->
  serve null_str nl_fd (Round n false (Some m) :: more) = Undef.
Proof.
  intros Hn Hm Hl. cbn -[BUF_SIZE process_uevent_buf]. rewrite (proj2 (Z.ltb_ge n 0)) by lia.
  set (buf := take BUF_SIZE m).
  assert (Lb : length buf = BUF_SIZE) by (unfold buf; rewrite length_take; lia).
  assert (Hb : no_nul buf) by (intros Hin; apply Hm; by eapply elem_of_take in Hin as (? & ? & _);
    eapply list_elem_of_lookup_2).
  rewrite Lb, Nat.sub_diag. cbn [replicate]. rewrite app_nil_r. unfold process_uevent_buf.
  cbn [scan].
  change (0 <? Z.of_nat BUF_SIZE) with true. cbv iota.
  destruct (match_keys_total buf 0 uevent_env_str (map (fun _ => None) uevent_env_str)) as (v & ->).
  - done.
  - rewrite Lb. decide_now.
  - rewrite bind_Ok, skip_string_overrun by (done || lia). done.
Qed.

Lemma uevent_unterminated_witness :
  serve [] 3 [Round 1 false (Some (replicate 8192 "a"%char))] = Undef.
Proof.
  apply (uevent_unterminated [] 3 1 (replicate 8192 "a"%char) []).
  - lia.
  - intros [H _]%elem_of_replicate. discriminate.
  - rewrite length_replicate. unfold BUF_SIZE. lia.
Defined.
