(* ===== verification/CpuHogd.v ===== *)
(** * The CPU hog daemons of src/cpu_hogd.c and src/cpu_hogd_v0.c

    A daemon reads commands from a named pipe: [jam secs] keeps the daemon's own
    processor busy, [hydra mask secs] starts one busy child for every processor of
    the mask, [quit] ends it. The two files share the loop and differ in how they
    end; the older one is also the client that writes to the pipe. The results of
    the system calls are arguments, and what the daemon does is a list of actions. *)
From stdpp Require Import base list strings.
From Stdlib Require Import ZArith Lia Ascii.
From S2P Require Import Prelude Stdio.

Open Scope Z_scope.

Inductive variant : Type := Cpu_hogd | Cpu_hogd_v0.

Inductive action : Type :=
| Perror (what : string)
| Puts (what : string)
| Open (fd : Z)
| Close (fd : Z)
| Alarm (secs : Z)
| Spin                          (* until the handler of SIGALRM sets the flag *)
| SetAffinity (cpu : nat)
| Fork (cpu : nat) (secs : Z)   (* a child that spins and exits on SIGALRM *)
| Send (text : list ascii)
| Unlink.

(** The locals of [main] that live across iterations; [cmd] is [None] before a
    first command has been stored. *)
Record dstate : Type := DState { d_mask : Z; d_secs : Z; d_cmd : option (list ascii) }.

Definition dstate0 : dstate := DState 1 60 None.

(** One iteration: the results of [open], of [read] (the bytes, at most 128) and,
    per processor, of [sched_setaffinity] and [fork]. *)
Record round : Type := Round {
  open_fd : Z;
  read_bytes : option (list ascii);
  aff_ok : nat -> bool;
  fork_ok : nat -> bool;
}.

Definition BUF : Z := 128.
Definition CMD : Z := 32.

(** [buf[bytes] = 0] must fall inside the buffer; what the rest of the code sees is
    the C string at its start. *)
Definition buf_string (data : list ascii) : res (list ascii) :=
  ub_unless (Z.of_nat (length data) <? BUF) (cstr (data ++ [NUL])).

(** [sscanf(buf_ptr, "%s", cmd)] has no width: a word of 32 characters or more
    overflows [cmd]; an empty message leaves [cmd] as it was. *)
Definition scan_cmd (s : list ascii) (cmd : option (list ascii)) : res (option (list ascii)) :=
  '(_, vals) ← sscanf s [DStr (length s)];
  match vals with
  | [VStr w] => ub_unless (Z.of_nat (length w) <? CMD) (Ok (Some w))
  | _ => Ok cmd
  end.

(** The pointer moves past the first space, or to the end of the string. *)
Fixpoint skip_word (s : list ascii) : list ascii :=
  match s with
  | [] => []
  | c :: s => if bool_decide (c = " "%char) then s else skip_word s
  end.

(** [sscanf(buf_ptr, "%d", &secs)] and [sscanf(buf_ptr, "%d %d", &mask, &secs)]. *)
Definition scan_secs (s : list ascii) (secs : Z) : res Z := scan_arg (Some secs) s.

Definition scan_mask_secs (s : list ascii) (mask secs : Z) : res (Z * Z) :=
  '(_, vals) ← sscanf s [DDec; DSpace; DDec];
  match vals with
  | [VInt m; VInt n] => Ok (m, n)
  | [VInt m] => Ok (m, secs)
  | _ => Ok (mask, secs)
  end.

(** [while (mask < 16 && mask && cpu < 4)]; the rounds left are [4 - cpu]. The
    children get the affinity that their parent has just given itself. *)
Fixpoint spawn_loop (rounds : nat) (r : round) (cpu : nat) (mask secs : Z) : list action * Z :=
  match rounds with
  | O => ([], mask)
  | S rounds =>
      if (mask <? 16) && negb (mask =? 0) then
        let last_bit := Z.land mask 1 in
        let '(acts, mask') := spawn_loop rounds r (S cpu) (Z.shiftr mask 1) secs in
        ((if last_bit =? 0 then []
          else SetAffinity cpu :: (if aff_ok r cpu then [] else [Perror "sched_setaffinity"])
               ++ (if fork_ok r cpu then [Fork cpu secs] else [])) ++ acts, mask')
      else ([], mask)
  end.

(** How an iteration ends: at the bottom, where the pipe is closed; by [continue],
    which skips that; or by leaving the loop. *)
Inductive next : Type := Bottom | Continue | Quit.

Definition is_cmd (cmd : list ascii) (name : string) : bool := bool_decide (cmd = chars name).

(** [v0] prints before it exits on [hydra -1], where the other jumps to the label. *)
Definition hydra_quit (v : variant) : list action :=
  match v with Cpu_hogd => [] | Cpu_hogd_v0 => [Puts "cpuhogd exiting"] end.

Definition handle (v : variant) (r : round) (s : list ascii) (st : dstate) : res (list action * dstate * next) :=
  cmd' ← scan_cmd s (d_cmd st);
  match cmd' with
  | None => Undef
  | Some cmd =>
      let rest := skip_word s in
      if is_cmd cmd "quit" then
        Ok ([Puts "cpuhogd exiting"], DState (d_mask st) (d_secs st) cmd', Quit)
      else if is_cmd cmd "jam" then
        secs ← scan_secs rest (d_secs st);
        Ok (if (0 <? secs) && (secs <? 120) then [Alarm secs; Spin] else [],
            DState (d_mask st) secs cmd', Bottom)
      else if is_cmd cmd "hydra" then
        '(mask, secs) ← scan_mask_secs rest (d_mask st) (d_secs st);
        if (mask =? -1) || (secs =? -1) then Ok (hydra_quit v, DState mask secs cmd', Quit)
        else if 100 <? secs then Ok ([], DState mask secs cmd', Continue)
        else
          let '(acts, mask') := spawn_loop 4 r 0 mask secs in
          Ok (acts, DState mask' secs cmd', Bottom)
      else Ok ([], DState (d_mask st) (d_secs st) cmd', Bottom)
  end.

(** After [quit] one program jumps behind the loop; the older one exits at once and
    leaves the pipe. *)
Definition quit_actions (v : variant) : list action :=
  match v with Cpu_hogd => [Puts "cpuhogd exiting"; Unlink] | Cpu_hogd_v0 => [] end.

(** After a read error both print what follows [cpuhogd_quit]. *)
Definition error_actions (v : variant) : list action :=
  match v with
  | Cpu_hogd => [Puts "cpuhogd exiting"; Unlink]
  | Cpu_hogd_v0 => [Unlink]
  end.

Fixpoint serve (v : variant) (rounds : list round) (st : dstate) : res (list action * option Z) :=
  match rounds with
  | [] => Ok ([], None)
  | r :: rounds =>
      if open_fd r <? 0 then Ok ([Perror "open:"], Some (-1))
      else
        match read_bytes r with
        | None => Ok (Open (open_fd r) :: Perror "read" :: Close (open_fd r) :: error_actions v, Some 0)
        | Some data =>
            s ← buf_string data;
            '(acts, st, n) ← handle v r s st;
            match n with
            | Quit => Ok (Open (open_fd r) :: acts ++ quit_actions v, Some 0)
            | Continue =>
                '(acts', rc) ← serve v rounds st;
                Ok (Open (open_fd r) :: acts ++ acts', rc)
            | Bottom =>
                '(acts', rc) ← serve v rounds st;
                Ok (Open (open_fd r) :: acts ++ Close (open_fd r) :: acts', rc)
            end
        end
  end.

(** [mknod_rc] and whether [errno] is EEXIST. The parent of the first [fork] has
    returned 0. *)
Definition daemon (v : variant) (sched_rc mknod_rc : Z) (eexist : bool) (rounds : list round)
    : res (list action * option Z) :=
  let pre := if sched_rc <? 0 then [Perror "sched_setscheduler:"] else [] in
  if mknod_rc <? 0 then
    if eexist then
      '(acts, rc) ← serve v rounds dstate0; Ok (pre ++ Perror "mknod:" :: acts, rc)
    else Ok (pre ++ [Perror "mknod:"], Some (-1))
  else '(acts, rc) ← serve v rounds dstate0; Ok (pre ++ acts, rc).

(** ** The client of src/cpu_hogd_v0.c *)

(** The options, as [getopt] delivers them, set the mask and the seconds; [-d]
    ends the loop and makes the process the daemon. *)
Fixpoint options (opts : list (ascii * list ascii)) (mask secs : Z) : res (bool * Z * Z) :=
  match opts with
  | [] => Ok (false, mask, secs)
  | (c, optarg) :: opts =>
      if bool_decide (c = "d"%char) then Ok (true, mask, secs)
      else if bool_decide (c = "c"%char) then mask ← scan_secs optarg mask; options opts mask secs
      else if bool_decide (c = "s"%char) then secs ← scan_secs optarg secs; options opts mask secs
      else options opts mask secs
  end.

(** [%d] of an [int]. *)
Definition fmt_int (n : Z) : list ascii :=
  if n <? 0 then minus_sign :: print_radix 10 1 (- n) else print_radix 10 1 n.

(** [sprintf(buf, "%d %d", mask, secs)] *)
Definition client_message (mask secs : Z) : list ascii := fmt_int mask ++ space :: fmt_int secs.

Definition client (open_rc write_rc mask secs : Z) : list action * option Z :=
  if open_rc <? 0 then ([Perror "open:"], Some (-1))
  else ([Open open_rc; Send (client_message mask secs)]
          ++ (if write_rc <? 0 then [Perror "write:"] else []) ++ [Close open_rc], Some 0).

(** ** The two programs *)

(** [fork_rc] is the result of the first [fork]: the parent, and a process that
    cannot fork, return 0. *)
Definition cpu_hogd_main (fork_rc sched_rc mknod_rc : Z) (eexist : bool) (rounds : list round)
    : res (list action * option Z) :=
  if negb (fork_rc =? 0) then Ok ([], Some 0) else daemon Cpu_hogd sched_rc mknod_rc eexist rounds.

Definition cpu_hogd_v0_main (opts : list (ascii * list ascii)) (open_rc write_rc : Z)
    (fork_rc sched_rc mknod_rc : Z) (eexist : bool) (rounds : list round)
    : res (list action * option Z) :=
  '(is_daemon, mask, secs) ← options opts 1 60;
  if is_daemon : bool then
    if negb (fork_rc =? 0) then Ok ([], Some 0) else daemon Cpu_hogd_v0 sched_rc mknod_rc eexist rounds
  else Ok (client open_rc write_rc mask secs).

(** ** What a command asks for *)

Inductive command : Type := Jam (secs : Z) | Hydra (mask secs : Z).

Definition print_command (c : command) : list ascii :=
  match c with
  | Jam secs => chars "jam" ++ space :: print_radix 10 1 secs
  | Hydra mask secs =>
      chars "hydra" ++ space :: print_radix 10 1 mask ++ space :: print_radix 10 1 secs
  end.

Definition command_ok (c : command) : Prop :=
  Z.of_nat (length (print_command c)) < BUF /\
  match c with
  | Jam secs => 0 <= secs <= INT_MAX
  | Hydra mask secs => 0 <= mask <= INT_MAX /\ 0 <= secs <= 100
  end.

(** One hog for every processor of the mask, of four at most; a mask from 16 on is
    ignored altogether. *)
Definition hogs (mask secs : Z) : list action :=
  if mask <? 16 then
    flat_map (fun i => if Z.testbit mask (Z.of_nat i) then [SetAffinity i; Fork i secs] else [])
      (seq 0 4)
  else [].

Definition command_actions (c : command) : list action :=
  match c with
  | Jam secs => if (0 <? secs) && (secs <? 120) then [Alarm secs; Spin] else []
  | Hydra mask secs => hogs mask secs
  end.

(** A round in which every system call succeeds. *)
Definition good_round (fd : Z) (text : list ascii) : round :=
  Round fd (Some text) (fun _ => true) (fun _ => true).

(** ** The loop over the processors *)

Lemma spawn_loop_hogs fd text mask secs :
  0 <= mask -> (spawn_loop 4 (good_round fd text) 0 mask secs).1 = hogs mask secs.
Proof.
  intros Hm. unfold hogs. destruct (Z.ltb_spec mask 16) as [Hlt|Hge].
  - assert (G : forall k : nat, (k < 16)%nat ->
      (spawn_loop 4 (good_round fd text) 0 (Z.of_nat k) secs).1 =
      flat_map (fun i => if Z.testbit (Z.of_nat k) (Z.of_nat i)
                         then [SetAffinity i; Fork i secs] else []) (seq 0 4)).
    { intros k Hk. do 16 (destruct k as [|k]; [reflexivity|]). lia. }
    specialize (G (Z.to_nat mask) ltac:(lia)). by rewrite Z2Nat.id in G by lia.
  - cbn [spawn_loop]. by rewrite (proj2 (Z.ltb_ge _ _)) by lia.
Qed.

(** ** Reading a command *)

Lemma print_nonneg_no_nul n : no_nul (print_radix 10 1 n).
Proof.
  apply no_nul_forall. eapply Forall_impl; [by apply print_radix_digits|].
  intros c Hc. unfold is_nul. apply negb_true_iff, bool_decide_eq_false. by intros ->.
Qed.

Lemma no_nul_app a b : no_nul a -> no_nul b -> no_nul (a ++ b).
Proof. unfold no_nul. rewrite elem_of_app. tauto. Qed.

Lemma no_nul_space l : no_nul l -> no_nul (space :: l).
Proof. intros H. apply (no_nul_app [space]); [decide_now|done]. Qed.

Lemma print_command_no_nul c : no_nul (print_command c).
Proof.
  destruct c; cbn [print_command].
  - apply no_nul_app; [decide_now|apply no_nul_space, print_nonneg_no_nul].
  - apply no_nul_app; [decide_now|]. apply no_nul_space, no_nul_app; [apply print_nonneg_no_nul|].
    apply no_nul_space, print_nonneg_no_nul.
Qed.

Lemma buf_string_ok s : no_nul s -> Z.of_nat (length s) < BUF -> buf_string s = Ok s.
Proof.
  intros Hs Hl. unfold buf_string. rewrite (proj2 (Z.ltb_lt _ _) Hl). cbn [ub_unless].
  by apply cstr_nul.
Qed.

Lemma scan_cmd_word w rest cmd :
  word w -> Z.of_nat (length w) < CMD -> sep rest -> scan_cmd (w ++ rest) cmd = Ok (Some w).
Proof.
  intros Hw Hl Hr. unfold scan_cmd, sscanf.
  rewrite sscanf_str by (try done; rewrite length_app; lia). cbn [sscanf_loop rev app].
  rewrite bind_Ok. by rewrite (proj2 (Z.ltb_lt _ _) Hl).
Qed.

Lemma skip_word_space w rest : " "%char ∉ w -> skip_word (w ++ space :: rest) = rest.
Proof.
  induction w as [|c w IH]; intros Hw; cbn [app skip_word].
  - by rewrite bool_decide_true.
  - apply not_elem_of_cons in Hw as [Hc Hw]. rewrite bool_decide_false by done. by apply IH.
Qed.

Lemma scan_secs_print n secs : 0 <= n <= INT_MAX -> scan_secs (print_radix 10 1 n) secs = Ok n.
Proof.
  apply scan_arg_print.
Qed.

Lemma scan_mask_secs_print m n mask secs :
  0 <= m <= INT_MAX -> 0 <= n <= INT_MAX ->
  scan_mask_secs (print_radix 10 1 m ++ space :: print_radix 10 1 n) mask secs = Ok (m, n).
Proof.
  intros Hm Hn. unfold scan_mask_secs, sscanf.
  rewrite sscanf_dec by (done || (right; by eexists)).
  rewrite <- (app_nil_r (print_radix 10 1 n)) at 2.
  rewrite sscanf_space by by apply print_radix_word.
  by rewrite sscanf_dec by (done || by left).
Qed.

Lemma handle_command v fd c st :
  command_ok c ->
  exists st', handle v (good_round fd (print_command c)) (print_command c) st =
    Ok (command_actions c, st', Bottom).
Proof.
  intros [_ Hc]. unfold handle. destruct c as [secs|mask secs]; cbn [print_command].
  - rewrite scan_cmd_word, bind_Ok by (first [right; by eexists|split; [done|decide_now]|decide_now]).
    rewrite skip_word_space by decide_now.
    change (is_cmd (chars "jam") "quit") with false. change (is_cmd (chars "jam") "jam") with true.
    cbv iota. rewrite scan_secs_print, bind_Ok by done. by eexists.
  - rewrite scan_cmd_word, bind_Ok by (first [right; by eexists|split; [done|decide_now]|decide_now]).
    rewrite skip_word_space by decide_now.
    change (is_cmd (chars "hydra") "quit") with false. change (is_cmd (chars "hydra") "jam") with false.
    change (is_cmd (chars "hydra") "hydra") with true. cbv iota.
    destruct Hc as [Hm Hs]. rewrite scan_mask_secs_print, bind_Ok by (unfold INT_MAX in *; lia).
    rewrite (proj2 (Z.eqb_neq mask _)), (proj2 (Z.eqb_neq secs _)), (proj2 (Z.ltb_ge _ _)) by lia.
    cbn [orb]. pose proof (spawn_loop_hogs fd (print_command (Hydra mask secs)) mask secs) as E.
    cbn [print_command] in E. destruct (spawn_loop 4 _ 0 mask secs) as [acts mask'].
    cbn [fst] in E. rewrite E by lia. by eexists.
Qed.

(** ** The daemon *)

(** The daemon, once it is one. *)
Lemma daemon_runs v (cmds : list (Z * command)) fd more :
  Forall (fun p => 0 <= p.1 /\ command_ok p.2) cmds -> 0 <= fd ->
  daemon v 0 0 false
    (map (fun p => good_round p.1 (print_command p.2)) cmds ++ good_round fd (chars "quit") :: more) =
  Ok (flat_map (fun p => Open p.1 :: command_actions p.2 ++ [Close p.1]) cmds
        ++ Open fd :: Puts "cpuhogd exiting" :: quit_actions v, Some 0).
Proof.
  intros Hc Hfd. unfold daemon. cbn [Z.ltb Z.compare app].
  generalize dstate0 as st. induction Hc as [|[fd1 c] cmds [Hf Hok] _ IH]; intros st; cbn [map app flat_map fst snd].
  - cbn [serve open_fd read_bytes good_round]. rewrite (proj2 (Z.ltb_ge fd 0)) by lia.
    rewrite buf_string_ok, bind_Ok by decide_now. unfold handle.
    rewrite <- (app_nil_r (chars "quit")), scan_cmd_word, bind_Ok
      by (first [by left|split; [done|decide_now]|decide_now]).
    change (is_cmd (chars "quit") "quit") with true. done.
  - cbn [fst snd] in Hf, Hok. cbn [serve good_round open_fd read_bytes fst snd].
    rewrite (proj2 (Z.ltb_ge fd1 0)) by lia. pose proof Hok as [Hl _].
    rewrite buf_string_ok, bind_Ok by (done || apply print_command_no_nul).
    destruct (handle_command v fd1 c st Hok) as (st' & E). rewrite E, bind_Ok.
    specialize (IH st'). destruct (serve v _ st') as [[acts rc]| |]; try done.
    rewrite bind_Ok in IH |- *. injection IH as -> ->. cbn [app].
    by rewrite bind_Ok, <- !(assoc_L (++)).
Qed.

(** C22. Both programs carry out their commands: started as a daemon, for every sequence of well formed
    commands it opens the pipe, does what the command asks for (one hog per
    processor of a mask below 16, its own busy loop for less than two minutes) and
    closes the pipe again; [quit] ends it with status 0, and only cpu_hogd.c then
    removes the pipe. *)
Theorem daemon_serves (cmds : list (Z * command)) arg fd more open_rc write_rc :
  Forall (fun p => 0 <= p.1 /\ command_ok p.2) cmds -> 0 <= fd ->
  let rounds := map (fun p => good_round p.1 (print_command p.2)) cmds ++
                good_round fd (chars "quit") :: more in
  let served := flat_map (fun p => Open p.1 :: command_actions p.2 ++ [Close p.1]) cmds ++
                [Open fd; Puts "cpuhogd exiting"] in
  cpu_hogd_main 0 0 0 false rounds = Ok (served ++ quit_actions Cpu_hogd, Some 0) /\
  cpu_hogd_v0_main [("d"%char, arg)] open_rc write_rc 0 0 0 false rounds =
    Ok (served ++ quit_actions Cpu_hogd_v0, Some 0).
Proof.
  intros Hc Hfd rounds served. subst rounds served. split.
  - unfold cpu_hogd_main. cbn [Z.eqb negb]. rewrite daemon_runs by done. by rewrite <- (assoc_L (++)).
  - unfold cpu_hogd_v0_main. cbn [options]. rewrite bool_decide_true, bind_Ok by done.
    cbn [Z.eqb negb]. rewrite daemon_runs by done. by rewrite <- (assoc_L (++)).
Qed.

Lemma daemon_serves_witness :
  cpu_hogd_main 0 0 0 false [good_round 3 (chars "hydra 5 60"); good_round 4 (chars "quit")] =
  Ok ([Open 3; SetAffinity 0; Fork 0 60; SetAffinity 2; Fork 2 60; Close 3;
       Open 4; Puts "cpuhogd exiting"; Puts "cpuhogd exiting"; Unlink], Some 0).
Proof.
  apply (daemon_serves [(3, Hydra 5 60)] [] 4 [] 0 0).
  - constructor; [|constructor]. split; [cbn; lia|]. split; [decide_now|]. cbv beta iota. unfold INT_MAX. cbn [snd]. lia.
  - lia.
Defined.

(** A [hydra] command for more than 100 seconds is skipped by a [continue] that
    also skips the [close]: the descriptor of the pipe stays open for good. *)
Theorem hydra_long_leaks v fd mask secs rounds st :
  0 <= fd -> 0 <= mask <= INT_MAX -> 100 < secs <= INT_MAX ->
  Z.of_nat (length (print_command (Hydra mask secs))) < BUF ->
  exists st', serve v (good_round fd (print_command (Hydra mask secs)) :: rounds) st =
    ('(acts, rc) ← serve v rounds st'; Ok (Open fd :: acts, rc)).
Proof.
  intros Hfd Hm Hs Hl. cbn [serve good_round open_fd read_bytes].
  rewrite (proj2 (Z.ltb_ge fd 0)) by lia.
  rewrite buf_string_ok, bind_Ok by (done || apply print_command_no_nul).
  unfold handle. cbn [print_command].
  rewrite scan_cmd_word, bind_Ok by (first [right; by eexists|split; [done|decide_now]|decide_now]).
  rewrite skip_word_space by decide_now.
  change (is_cmd (chars "hydra") "quit") with false. change (is_cmd (chars "hydra") "jam") with false.
  change (is_cmd (chars "hydra") "hydra") with true. cbv iota.
  rewrite scan_mask_secs_print, bind_Ok by (done || lia).
  rewrite (proj2 (Z.eqb_neq mask _)), (proj2 (Z.eqb_neq secs _)), (proj2 (Z.ltb_lt _ _)) by lia.
  cbn [orb]. rewrite bind_Ok. by eexists.
Qed.

Lemma hydra_long_leaks_witness :
  exists st', serve Cpu_hogd [good_round 3 (chars "hydra 1 600")] dstate0 =
    ('(acts, rc) ← serve Cpu_hogd [] st'; Ok (Open 3 :: acts, rc)).
Proof.
  apply (hydra_long_leaks Cpu_hogd 3 1 600 [] dstate0).
  - lia.
  - unfold INT_MAX. lia.
  - unfold INT_MAX. lia.
  - decide_now.
Defined.

Lemma client_message_nonneg mask secs :
  0 <= mask -> 0 <= secs ->
  client_message mask secs = print_radix 10 1 mask ++ space :: print_radix 10 1 secs.
Proof.
  intros Hm Hs. unfold client_message, fmt_int.
  by rewrite (proj2 (Z.ltb_ge mask 0)), (proj2 (Z.ltb_ge secs 0)) by lia.
Qed.

(** The client of cpu_hogd_v0.c is not understood by its own daemon: run with a
    mask and seconds it sends the two numbers without a command, and the daemon that
    reads this message does nothing, whatever state it is in. *)
Theorem client_message_ignored mask secs r st fork_rc sched_rc mknod_rc eexist rounds fd :
  0 <= mask <= INT_MAX -> 0 <= secs <= INT_MAX -> 0 <= fd ->
  Z.of_nat (length (print_radix 10 1 mask)) < CMD ->
  exists text,
    cpu_hogd_v0_main [("c"%char, print_radix 10 1 mask); ("s"%char, print_radix 10 1 secs)] fd 0
      fork_rc sched_rc mknod_rc eexist rounds = Ok ([Open fd; Send text; Close fd], Some 0) /\
    exists cmd, handle Cpu_hogd_v0 r text st =
      Ok ([], DState (d_mask st) (d_secs st) cmd, Bottom).
Proof.
  intros Hm Hs Hfd Hl. exists (client_message mask secs). split.
  - unfold cpu_hogd_v0_main. cbn [options].
    change (bool_decide ("c"%char = "d"%char)) with false. change (bool_decide ("c"%char = "c"%char)) with true.
    change (bool_decide ("s"%char = "d"%char)) with false. change (bool_decide ("s"%char = "c"%char)) with false.
    change (bool_decide ("s"%char = "s"%char)) with true. cbv iota.
    rewrite (scan_secs_print mask), bind_Ok, (scan_secs_print secs), !bind_Ok by done.
    unfold client. by rewrite (proj2 (Z.ltb_ge fd 0)) by lia.
  - rewrite client_message_nonneg by lia. unfold handle.
    pose proof (print_radix_word 10 1 mask ltac:(lia)) as Hw.
    rewrite scan_cmd_word, bind_Ok by (done || (right; by eexists)).
    assert (E : forall c name, is_digit 10 c = false ->
      is_cmd (print_radix 10 1 mask) (String.String c name) = false).
    { intros c name Hc. apply bool_decide_eq_false. intros E.
      pose proof (print_radix_digits 10 1 mask ltac:(lia)) as Hd. rewrite E in Hd.
      apply Forall_cons in Hd as [Hd _]. congruence. }
    rewrite !E by done. by eexists.
Qed.

Lemma client_message_ignored_witness :
  exists text,
    cpu_hogd_v0_main [("c"%char, chars "5"); ("s"%char, chars "60")] 3 0 0 0 0 false [] =
      Ok ([Open 3; Send text; Close 3], Some 0) /\
    exists cmd, handle Cpu_hogd_v0 (good_round 3 []) text dstate0 = Ok ([], DState 1 60 cmd, Bottom).
Proof.
  apply (client_message_ignored 5 60 (good_round 3 []) dstate0 0 0 0 false [] 3).
  - unfold INT_MAX. lia.
  - unfold INT_MAX. lia.
  - lia.
  - decide_now.
Defined.

(** A message that fills the buffer makes the terminating zero land behind it. *)
Lemma full_buffer_overflows v r data rounds st :
  0 <= open_fd r -> read_bytes r = Some data -> Z.of_nat (length data) = BUF ->
  serve v (r :: rounds) st = Undef.
Proof.
  intros Hfd Hr Hl. cbn [serve]. rewrite (proj2 (Z.ltb_ge _ 0)), Hr by lia.
  unfold buf_string. by rewrite Hl.
Qed.
