(* ===== verification/FsSlammer.v ===== *)
(** * The file system load generator src/fs_slammer.c

    The random file name, one writer thread's iteration ([slam_junk]), the reader
    thread ([raw_reader]) with its cancellation, and the arguments of [main]. The
    results of the system calls are arguments. Each function is run on its own here;
    the threads that add to one total are in FsTotals.v. *)
From stdpp Require Import base list strings.
From Stdlib Require Import ZArith Lia Ascii.
From S2P Require Import Prelude Stdio.

Open Scope Z_scope.

(** ** The file name *)

Definition valid_chars : list ascii := chars "abcdefghiklmonpqrstuvwxyz0123456789".

(** [rnd i] is the result of [random] in round [i]; the loop would also stop at a
    NUL. *)
Fixpoint fill_name (rounds : nat) (rnd : nat -> Z) (i len : Z) (str : list ascii)
    : res (list ascii * Z) :=
  if i <? len - 1 then
    match rounds with
    | O => NoFuel
    | S rounds =>
        c ← rd valid_chars (Z.rem (rnd (Z.to_nat i)) (Z.of_nat (length valid_chars)));
        str ← wr str i c;
        if bool_decide (c = NUL) then Ok (str, i + 1)
        else fill_name rounds rnd (i + 1) len str
    end
  else Ok (str, i).

Definition gen_random_filename (rnd : nat -> Z) (str : list ascii) (len : Z)
    : res (list ascii * Z) :=
  '(str, i) ← fill_name (Z.to_nat len) rnd 0 len str;
  str ← wr str i NUL;
  Ok (str, i).

(** ** The writer *)

Definition PAGE : Z := 4096.

Inductive action : Type :=
| Perror (what : string)
| Open (fd : Z)
| Close (fd : Z)
| Fsync (fd : Z)
| Remove.

(** How the loop over the pages ends: its two error exits, or all pages written. *)
Inductive pages_end : Type :=
| ReadError (total : Z)
| WriteError (total : Z)
| Written (bytes_wrote total : Z).

(** [while (pages--)]: the results of [read] and [write] of round [k] are [io k];
    [bytes_wrote] is an [int], the total an [unsigned long]. *)
Fixpoint slam_pages (fuel : nat) (io : nat -> Z * Z) (k : nat) (pages bytes_wrote total : Z)
    : res pages_end :=
  if pages =? 0 then Ok (Written bytes_wrote total)
  else
    match fuel with
    | O => NoFuel
    | S fuel =>
        pages ← int_of (pages - 1);
        let '(rret, wret) := io k in
        if rret <? 0 then Ok (ReadError total)
        else if wret <? 0 then Ok (WriteError total)
        else
          bytes_wrote ← int_of (bytes_wrote + wret);
          slam_pages fuel io (S k) pages bytes_wrote (uwrap 64 (total + bytes_wrote))
    end.

(** [while (read(fd, buff, sizeof(buff)));] *)
Fixpoint drain (fuel : nat) (reads : nat -> Z) (k : nat) : res nat :=
  if reads k =? 0 then Ok k
  else match fuel with O => NoFuel | S fuel => drain fuel reads (S k) end.

(** The results of the system calls of one iteration of [slam_junk]. *)
Record iteration : Type := Iteration {
  it_fd : Z;                (* open of the file for writing *)
  it_fd_rand : Z;           (* open of /dev/zero *)
  it_io : nat -> Z * Z;
  it_fd2 : Z;               (* open of the file for reading *)
  it_reads : nat -> Z;
}.

(** One iteration: what it does, the total, and whether the thread goes on. The
    cleanup handler removes the file when the thread exits. *)
Definition slam_iteration (fuel : nat) (max_pages : Z) (it : iteration) (total : Z)
    : res (list action * Z * bool) :=
  if it_fd it <? 0 then Ok ([Perror "open:"; Remove], total, false)
  else if it_fd_rand it <? 0 then
    Ok ([Open (it_fd it); Perror "open:/dev/zero:"; Close (it_fd it); Remove], total, false)
  else
    let opened := [Open (it_fd it); Open (it_fd_rand it)] in
    e ← slam_pages fuel (it_io it) 0 max_pages 0 total;
    match e with
    | ReadError total =>
        Ok (opened ++ [Perror "read:"; Close (it_fd_rand it); Close (it_fd it); Remove], total, false)
    | WriteError total =>
        Ok (opened ++ [Perror "write:"; Close (it_fd_rand it); Close (it_fd it); Remove], total, false)
    | Written _ total =>
        _ ← drain fuel (it_reads it) 0;
        Ok (opened ++ [Fsync (it_fd it); Close (it_fd it); Close (it_fd_rand it);
                       Open (it_fd2 it); Close (it_fd2 it)], total, true)
    end.

(** ** The reader *)

(** [reads] are the results of the [read]s until the thread is cancelled at
    [pthread_testcancel]; a failed read ends the thread by itself. *)
Fixpoint raw_reads (fd : Z) (reads : list Z) (total : Z) : list action * Z :=
  match reads with
  | [] => ([Close fd], total)                    (* raw_reader_cleanup *)
  | ret :: reads =>
      if ret <? 0 then ([Perror "read"; Close fd], total)
      else raw_reads fd reads (uwrap 64 (total + ret))
  end.

Definition raw_reader (fd : Z) (reads : list Z) (total : Z) : list action * Z :=
  if fd <? 0 then ([Perror "open"], total)
  else let '(acts, total) := raw_reads fd reads total in (Open fd :: acts, total).

(** ** The arguments *)

Inductive setup : Type :=
| Fails (rc : Z)
| Runs (no_threads max_pages slam_time : Z) (writers readers : bool).

Definition strcpy (room : Z) (s : list ascii) : res (list ascii) :=
  ub_unless (Z.of_nat (length s) <? room) (Ok s).

Definition scan_int_arg (arg : option (list ascii)) (init : option Z) : res Z :=
  match arg with
  | None => Undef
  | Some s => scan_arg init s
  end.

(** [stat] of the device and of the directory, and [chdir]; [args] are the arguments
    after the program's name, [None] being the null pointer behind them. *)
Definition fs_slammer_setup (stat_hd stat_fs chdir_rc : Z) (args : list (list ascii)) : res setup :=
  if (length args + 1 <? 6)%nat then Ok (Fails (-1))
  else
    let arg i := args !! i in
    _ ← strcpy 10 (default [] (arg 0%nat));
    if stat_hd <? 0 then Ok (Fails stat_hd)
    else
      _ ← strcpy 256 (default [] (arg 1%nat));
      if stat_fs <? 0 then Ok (Fails stat_fs)
      else if chdir_rc <? 0 then Ok (Fails chdir_rc)
      else
        no_threads ← scan_int_arg (arg 2%nat) (Some 0);
        max_pages ← scan_int_arg (arg 3%nat) (Some 100);
        slam_time ← scan_int_arg (arg 4%nat) None;
        match arg 5%nat with
        | None => Undef
        | Some s =>
            '(_, vals) ← sscanf s [DStr (length s)];
            match vals with
            | [VStr rw] =>
                rw ← strcpy 4 rw;
                Ok (Runs no_threads max_pages slam_time
                      (bool_decide ("w"%char ∈ rw)) (bool_decide ("r"%char ∈ rw)))
            | _ => Undef
            end
        end.

(** ** Properties *)

Lemma fill_name_spec rnd rounds (i : nat) (len : nat) str :
  (forall k, 0 <= rnd k) -> (i + rounds = len)%nat -> (S len <= length str)%nat ->
  exists name, fill_name (S rounds) rnd (Z.of_nat i) (Z.of_nat (S len)) str =
    Ok (take i str ++ name ++ drop len str, Z.of_nat len) /\
    length name = rounds /\ Forall (fun c => c ∈ valid_chars) name.
Proof.
  intros Hr. revert i str. induction rounds as [|rounds IH]; intros i str Hi Hl.
  - exists []. cbn [fill_name]. rewrite (proj2 (Z.ltb_ge _ _)) by lia.
    replace len with i by lia. cbn [app]. rewrite take_drop. split; [done|]. by split.
  - remember (S rounds) as r eqn:Er. cbn [fill_name]. rewrite (proj2 (Z.ltb_lt _ _)) by lia.
    set (x := Z.rem (rnd _) _).
    assert (Hx : 0 <= x < Z.of_nat (length valid_chars))
      by (apply Z.rem_bound_pos; [apply Hr|vm_compute; reflexivity]).
    destruct (rd_in_bounds valid_chars x Hx) as (c & -> & Hc). rewrite bind_Ok.
    rewrite wr_Ok by lia. rewrite bind_Ok, Nat2Z.id.
    assert (Hv : c ∈ valid_chars) by (by eapply list_elem_of_lookup_2).
    assert (Hn : c <> NUL).
    { intros ->. assert (N : NUL ∉ valid_chars) by decide_now. done. }
    rewrite bool_decide_false by done. subst r.
    destruct (IH (S i) (<[i := c]> str)) as (name & E & Hlen & Hall);
      [lia|by rewrite length_insert|].
    replace (Z.of_nat i + 1) with (Z.of_nat (S i)) by lia. rewrite E.
    exists (c :: name). split; [|split; [by cbn; rewrite Hlen|by constructor]].
    rewrite drop_insert_lt by lia. do 2 f_equal.
    rewrite (take_S_r _ _ c) by (apply list_lookup_insert_eq; lia).
    rewrite take_insert_ge by lia. by rewrite <- !(assoc_L (++)).
Qed.

(** The file name fills the buffer but for its terminator, uses valid characters
    only, and nothing is written outside it. *)
Theorem gen_random_filename_correct rnd str (len : nat) :
  (forall k, 0 <= rnd k) -> length str = S len ->
  exists name, gen_random_filename rnd str (Z.of_nat (length str)) = Ok (name ++ [NUL], Z.of_nat len) /\
    length name = len /\ Forall (fun c => c ∈ valid_chars) name.
Proof.
  intros Hr Hl. unfold gen_random_filename. rewrite Hl, Nat2Z.id.
  destruct (fill_name_spec rnd len 0 len str Hr) as (name & E & Hn & Hv); [lia|lia|].
  change (Z.of_nat 0) with 0 in E. rewrite E, bind_Ok, take_0. cbn [app]. exists name.
  rewrite wr_Ok by (rewrite length_app, length_drop; lia). rewrite bind_Ok, Nat2Z.id.
  rewrite insert_app_r_alt, Hn, Nat.sub_diag by lia. split; [|done].
  do 3 f_equal. destruct (lookup_lt_is_Some_2 str len) as [c Hc]; [lia|].
  rewrite (drop_S _ _ _ Hc), drop_ge by lia. done.
Qed.

Lemma gen_random_filename_correct_witness :
  exists name, gen_random_filename (fun k => Z.of_nat k * 1000003) (replicate 100 NUL) 100 =
    Ok (name ++ [NUL], 99) /\ length name = 99%nat.
Proof.
  destruct (gen_random_filename_correct (fun k => Z.of_nat k * 1000003) (replicate 100 NUL) 99)
    as (name & E & Hl & _).
  - intros k. lia.
  - by rewrite length_replicate.
  - exists name. split; [exact E|exact Hl].
Defined.

Lemma slam_pages_full io k n b total :
  (forall j, io j = (PAGE, PAGE)) -> 0 <= b -> b + PAGE * Z.of_nat n <= INT_MAX ->
  slam_pages n io k (Z.of_nat n) b total =
  Ok (Written (b + PAGE * Z.of_nat n)
        (if decide (n = 0%nat) then total
         else uwrap 64 (total + Z.of_nat n * b + PAGE * (Z.of_nat n * (Z.of_nat n + 1) / 2)))).
Proof.
  intros Hio. unfold PAGE, INT_MAX in *. revert k b total. induction n as [|n IH]; intros k b total Hb Hm.
  - cbn [slam_pages]. rewrite decide_True by done. by rewrite Z.mul_0_r, Z.add_0_r.
  - cbn [slam_pages]. rewrite (proj2 (Z.eqb_neq _ _)) by lia.
    rewrite int_of_Ok, bind_Ok, Hio by (unfold INT_MIN, INT_MAX; lia). cbn [Z.ltb Z.compare].
    rewrite int_of_Ok, bind_Ok by (unfold INT_MIN, INT_MAX; lia).
    replace (Z.of_nat (S n) - 1) with (Z.of_nat n) by lia. rewrite IH by lia.
    rewrite (decide_False (P := S n = 0%nat)) by done.
    assert (T : Z.of_nat (S n) * (Z.of_nat (S n) + 1) / 2 =
                Z.of_nat n * (Z.of_nat n + 1) / 2 + Z.of_nat n + 1).
    { replace (Z.of_nat (S n) * _) with ((Z.of_nat n + 1) * 2 + Z.of_nat n * (Z.of_nat n + 1))
        by (rewrite Nat2Z.inj_succ; ring).
      rewrite Z.div_add_l by lia. lia. }
    rewrite T. do 2 f_equal; [lia|]. set (tri := Z.of_nat n * (Z.of_nat n + 1) / 2) in *.
    case_decide as E.
    + subst n. assert (tri = 0) as -> by reflexivity. f_equal. lia.
    + unfold uwrap. rewrite <- !Z.add_assoc, Zplus_mod_idemp_l. f_equal. lia.
Qed.

Lemma drain_diverges reads k fuel : (forall j, reads j <> 0) -> drain fuel reads k = NoFuel.
Proof.
  intros Hr. revert k. induction fuel as [|fuel IH]; intros k; cbn [drain];
    rewrite (proj2 (Z.eqb_neq _ _) (Hr k)); [done|apply IH].
Qed.

Lemma drain_stops reads n k fuel :
  (forall j, (j < n)%nat -> reads (k + j)%nat <> 0) -> reads (k + n)%nat = 0 -> (n <= fuel)%nat ->
  drain fuel reads k = Ok (k + n)%nat.
Proof.
  revert k fuel. induction n as [|n IH]; intros k fuel Hn H0 Hf.
  - rewrite Nat.add_0_r in *. destruct fuel; cbn [drain]; by rewrite H0.
  - destruct fuel as [|fuel]; [lia|]. cbn [drain].
    rewrite (proj2 (Z.eqb_neq (reads k) 0)) by (specialize (Hn 0%nat); rewrite Nat.add_0_r in Hn; apply Hn; lia).
    rewrite (IH (S k)); [f_equal; lia| | |lia].
    + intros j Hj. replace (S k + j)%nat with (k + S j)%nat by lia. apply Hn. lia.
    + by replace (S k + n)%nat with (k + S n)%nat by lia.
Qed.

(** C38. One iteration of a writer, every call succeeding: all [n] pages are written
    and read back, and all descriptors are closed; but the total grows by the sum of
    the running counts, [4096 (1 + 2 + ... + n)] instead of [4096 n], and if the
    file cannot be opened again for reading the thread never comes out of its
    reading loop, whatever number of rounds it is given. *)
Theorem slam_iteration_counts it n total r :
  0 <= it_fd it -> 0 <= it_fd_rand it -> (forall j, it_io it j = (PAGE, PAGE)) ->
  (0 < n)%nat -> PAGE * Z.of_nat n <= INT_MAX -> (r <= n)%nat ->
  ((forall j, (j < r)%nat -> it_reads it j <> 0) -> it_reads it r = 0 ->
   slam_iteration n (Z.of_nat n) it total =
   Ok ([Open (it_fd it); Open (it_fd_rand it); Fsync (it_fd it); Close (it_fd it);
        Close (it_fd_rand it); Open (it_fd2 it); Close (it_fd2 it)],
       uwrap 64 (total + PAGE * (Z.of_nat n * (Z.of_nat n + 1) / 2)), true)) /\
  ((forall j, it_reads it j = -1) -> forall fuel, (n <= fuel)%nat ->
   slam_iteration fuel (Z.of_nat n) it total = NoFuel).
Proof.
  intros Hf Hr Hio Hn Hm Hrn. unfold slam_iteration.
  rewrite (proj2 (Z.ltb_ge (it_fd it) 0)), (proj2 (Z.ltb_ge (it_fd_rand it) 0)) by lia. split.
  - intros Hne H0. rewrite slam_pages_full, bind_Ok by (done || lia). rewrite decide_False by lia.
    rewrite (drain_stops _ r 0 n) by done. rewrite bind_Ok. do 4 f_equal. lia.
  - intros Hneg fuel Hfuel.
    assert (E : forall e, slam_pages n (it_io it) 0 (Z.of_nat n) 0 total = Ok e ->
                slam_pages fuel (it_io it) 0 (Z.of_nat n) 0 total = Ok e).
    { clear - Hfuel. revert Hfuel. generalize (Z.of_nat n) as p, 0 as b, 0%nat as k.
      revert fuel total. induction n as [|n IH]; intros fuel total p b k Hfuel e.
      - destruct fuel; cbn [slam_pages]; by destruct (p =? 0).
      - destruct fuel as [|fuel]; [lia|]. cbn [slam_pages]. destruct (p =? 0); [done|].
        destruct (int_of (p - 1)); [|done..]. rewrite !bind_Ok. destruct (it_io it k) as [ra wa].
        destruct (ra <? 0); [done|]. destruct (wa <? 0); [done|].
        destruct (int_of (b + wa)); [|done..]. rewrite !bind_Ok. apply IH. lia. }
    assert (Hm0 : 0 + PAGE * Z.of_nat n <= INT_MAX) by lia.
    rewrite (E _ (slam_pages_full _ 0 n 0 total Hio (Z.le_refl 0) Hm0)), bind_Ok.
    rewrite drain_diverges; [done|]. intros j. rewrite Hneg. lia.
Qed.

Lemma slam_iteration_counts_witness :
  slam_iteration 3 3 (Iteration 3 4 (fun _ => (4096, 4096)) 3
    (fun k => if (k <? 3)%nat then 4096 else 0)) 0 =
  Ok ([Open 3; Open 4; Fsync 3; Close 3; Close 4; Open 3; Close 3], 6 * 4096, true).
Proof.
  destruct (slam_iteration_counts (Iteration 3 4 (fun _ => (4096, 4096)) 3
    (fun k => if (k <? 3)%nat then 4096 else 0)) 3 0 3) as [H _].
  - cbn. lia.
  - cbn. lia.
  - reflexivity.
  - lia.
  - unfold PAGE, INT_MAX. lia.
  - lia.
  - apply H; [|reflexivity]. intros j Hj. cbn [it_reads]. by rewrite (proj2 (Nat.ltb_lt _ _) Hj).
Defined.

(** The reader closes its descriptor exactly once, whether it is cancelled or not. *)
Lemma raw_reader_closes fd reads total :
  0 <= fd -> exists acts, (raw_reader fd reads total).1 = acts ++ [Close fd] /\ Close fd ∉ acts.
Proof.
  intros Hfd. unfold raw_reader. rewrite (proj2 (Z.ltb_ge _ _)) by lia.
  assert (G : exists acts, (raw_reads fd reads total).1 = acts ++ [Close fd] /\ Close fd ∉ acts).
  { revert total. induction reads as [|ret reads IH]; intros total; cbn [raw_reads].
    - exists []. split; [done|]. apply not_elem_of_nil.
    - case_Z; [|apply IH]. exists [Perror "read"]. split; [done|]. by intros [?|[]%not_elem_of_nil]%elem_of_cons. }
  destruct (raw_reads fd reads total) as [acts t]. destruct G as (a & E & Hn). cbn [fst] in *. subst acts.
  exists (Open fd :: a). split; [done|]. by intros [?|?]%elem_of_cons.
Qed.

Lemma strcpy_ok room s : Z.of_nat (length s) < room -> strcpy room s = Ok s.
Proof. intros H. unfold strcpy. by rewrite (proj2 (Z.ltb_lt _ _) H). Qed.

Lemma strcpy_overflow room s : room <= Z.of_nat (length s) -> strcpy room s = Undef.
Proof. intros H. unfold strcpy. by rewrite (proj2 (Z.ltb_ge _ _) H). Qed.

Lemma scan_int_arg_print n init :
  0 <= n <= INT_MAX -> scan_int_arg (Some (print_radix 10 1 n)) init = Ok n.
Proof.
  apply scan_arg_print.
Qed.

(** The test of the number of arguments is off by one: with five arguments the
    program goes on and scans the null pointer behind them. And the buffer for the
    device name has ten bytes, so that a longer name overflows it. *)
Theorem fs_slammer_setup_unsafe stat_hd stat_fs hd fs n1 n2 n3 more :
  0 <= stat_hd -> 0 <= stat_fs -> 0 <= n1 <= INT_MAX -> 0 <= n2 <= INT_MAX -> 0 <= n3 <= INT_MAX ->
  Z.of_nat (length hd) < 10 -> Z.of_nat (length fs) < 256 ->
  fs_slammer_setup stat_hd stat_fs 0
    [hd; fs; print_radix 10 1 n1; print_radix 10 1 n2; print_radix 10 1 n3] = Undef /\
  (forall hd', 10 <= Z.of_nat (length hd') -> (4 <= length more)%nat ->
   fs_slammer_setup stat_hd stat_fs 0 (hd' :: more) = Undef).
Proof.
  intros Hh Hf H1 H2 H3 Lh Lf. split.
  - unfold fs_slammer_setup. cbn [length Nat.add Nat.ltb Nat.leb lookup list_lookup default].
    unfold id. cbn [from_option]. rewrite strcpy_ok, bind_Ok by done.
    rewrite (proj2 (Z.ltb_ge stat_hd 0)) by lia. rewrite strcpy_ok, bind_Ok by done.
    rewrite (proj2 (Z.ltb_ge stat_fs 0)) by lia. cbn [Z.ltb Z.compare].
    by rewrite !scan_int_arg_print.
  - intros hd' Hl Hm. unfold fs_slammer_setup. cbn [length].
    rewrite (proj2 (Nat.ltb_ge _ _)) by lia. cbn [lookup list_lookup].
    change (default [] (Some hd')) with hd'. by rewrite (strcpy_overflow 10 hd').
Qed.

Lemma fs_slammer_setup_unsafe_witness :
  fs_slammer_setup 0 0 0 (map chars ["/dev/sda1"; "/tmp"; "2"; "100"; "5"]%string) = Undef.
Proof.
  apply (fs_slammer_setup_unsafe 0 0 (chars "/dev/sda1") (chars "/tmp") 2 100 5 []).
  - lia.
  - lia.
  - unfold INT_MAX. lia.
  - unfold INT_MAX. lia.
  - unfold INT_MAX. lia.
  - cbn. lia.
  - cbn. lia.
Defined.
