(* ===== verification/FsMain.v ===== *)
(** * The threads of src/fs_slammer.c

    [main] around the functions of FsSlammer.v: it starts writers and readers as
    detached threads, waits, and cancels every one of them. The threads run on their
    own meanwhile; what main depends on is whether each is still there when it is
    cancelled. *)
From stdpp Require Import base list strings.
From Stdlib Require Import ZArith Lia Ascii.
From S2P Require Import Prelude Stdio FsSlammer.

Open Scope Z_scope.

Inductive kind : Type := Writer | Reader.

#[export] Instance kind_eq_dec : EqDecision kind.
Proof. solve_decision. Defined.

(** The results of the calls: [malloc], [pthread_create], whether a thread is still
    running when main cancels it, and the totals at the end. *)
Record calls : Type := Calls {
  c_malloc : kind -> bool;
  c_create : kind -> nat -> Z;
  c_alive : kind -> nat -> bool;
  c_written : Z;
  c_read : Z;
}.

Inductive fs_action : Type :=
| Created (k : kind) (i : nat)
| Paused
| Slept (secs : Z)
| Cancelled (k : kind) (i : nat).

Inductive fs_outcome : Type :=
| Returns (rc : Z)                           (* the process ends, with all its threads *)
| Prints (written read : Z).

(** The creating loop: what was created, and the error code of the first failure. *)
Fixpoint create_loop (todo i : nat) (k : kind) (c : calls) : list fs_action * Z :=
  match todo with
  | O => ([], 0)
  | S todo =>
      let ret := c_create c k i in
      if negb (ret =? 0) then ([], ret)
      else let '(acts, ret) := create_loop todo (S i) k c in (Created k i :: acts, ret)
  end.

Definition start_threads (wanted : bool) (k : kind) (no_threads : Z) (c : calls)
    : res (list fs_action * Z) :=
  if wanted then
    ub_unless (c_malloc c k || (no_threads <=? 0)) (Ok (create_loop (Z.to_nat no_threads) 0 k c))
  else Ok ([], 0).

(** [pthread_cancel]: the threads are detached, so that the identifier of one that has
    ended by itself is not valid any more. *)
Definition cancel (wanted : bool) (k : kind) (i : nat) (c : calls) : res (list fs_action) :=
  if wanted then ub_unless (c_alive c k i) (Ok [Cancelled k i]) else Ok [].

Fixpoint cancel_loop (todo i : nat) (w r : bool) (c : calls) : res (list fs_action) :=
  match todo with
  | O => Ok []
  | S todo =>
      a ← cancel w Writer i c;
      b ← cancel r Reader i c;
      rest ← cancel_loop todo (S i) w r c;
      Ok (a ++ b ++ rest)
  end.

Definition fs_slammer_main (stat_hd stat_fs chdir_rc : Z) (args : list (list ascii)) (c : calls)
    : res (list fs_action * fs_outcome) :=
  s ← fs_slammer_setup stat_hd stat_fs chdir_rc args;
  match s with
  | Fails rc => Ok ([], Returns rc)
  | Runs no_threads _ slam_time w r =>
      '(ws, ret) ← start_threads w Writer no_threads c;
      if negb (ret =? 0) then Ok (ws, Returns ret)
      else
        '(rs, ret) ← start_threads r Reader no_threads c;
        if negb (ret =? 0) then Ok (ws ++ rs, Returns ret)
        else
          let wait := if slam_time <? 0 then Paused else Slept slam_time in
          cs ← cancel_loop (Z.to_nat no_threads) 0 w r c;
          Ok (ws ++ rs ++ wait :: cs, Prints (c_written c) (c_read c))
  end.

(** ** Theorems *)

(** The arguments as they should be: paths that fit their buffers, numbers, and at most
    three letters. *)
Record args_ok (hd fs rw : list ascii) (n pages secs : Z) : Prop := {
  ao_hd : Z.of_nat (length hd) < 10;
  ao_fs : Z.of_nat (length fs) < 256;
  ao_rw : word rw /\ (length rw < 4)%nat;
  ao_n : 0 <= n <= INT_MAX;
  ao_pages : 0 <= pages <= INT_MAX;
  ao_secs : 0 <= secs <= INT_MAX;
}.

Definition fs_args (hd fs rw : list ascii) (n pages secs : Z) : list (list ascii) :=
  [hd; fs; print_radix 10 1 n; print_radix 10 1 pages; print_radix 10 1 secs; rw].

Lemma setup_ok stat_hd stat_fs hd fs rw n pages secs :
  0 <= stat_hd -> 0 <= stat_fs -> args_ok hd fs rw n pages secs ->
  fs_slammer_setup stat_hd stat_fs 0 (fs_args hd fs rw n pages secs) =
  Ok (Runs n pages secs (bool_decide ("w"%char ∈ rw)) (bool_decide ("r"%char ∈ rw))).
Proof.
  intros Hh Hf [Lh Lf [Hw Hl] Hn Hp Hs].
  unfold fs_slammer_setup, fs_args. cbn [length Nat.add Nat.ltb Nat.leb lookup list_lookup default].
  unfold id. cbn [from_option]. rewrite strcpy_ok, bind_Ok by done.
  rewrite (proj2 (Z.ltb_ge stat_hd 0)) by lia. rewrite strcpy_ok, bind_Ok by done.
  rewrite (proj2 (Z.ltb_ge stat_fs 0)) by lia. cbn [Z.ltb Z.compare].
  rewrite !scan_int_arg_print, !bind_Ok by done. unfold sscanf.
  pose proof (sscanf_str (length rw) [] (length rw) rw [] 0 [] Hw ltac:(lia) ltac:(by left)) as E.
  rewrite app_nil_r in E. rewrite E. cbn [sscanf_loop rev app]. rewrite bind_Ok.
  by rewrite strcpy_ok, bind_Ok by lia.
Qed.

Lemma create_loop_all todo i k c :
  (forall j, (i <= j < i + todo)%nat -> c_create c k j = 0) ->
  create_loop todo i k c = (Created k <$> seq i todo, 0).
Proof.
  revert i. induction todo as [|todo IH]; intros i H; [done|]. cbn [create_loop].
  rewrite (H i) by lia. cbn [Z.eqb negb]. by rewrite IH by (intros; apply H; lia).
Qed.

(** The threads a run has: those asked for. *)
Definition wanted (rw : list ascii) (k : kind) : bool :=
  match k with Writer => bool_decide ("w"%char ∈ rw) | Reader => bool_decide ("r"%char ∈ rw) end.

Definition if_wanted {A} (b : bool) (l : list A) : list A := if b then l else [].

Lemma start_all w k n c :
  0 <= n -> c_malloc c k = true -> (forall j, (j < Z.to_nat n)%nat -> c_create c k j = 0) ->
  start_threads w k n c = Ok (if_wanted w (Created k <$> seq 0 (Z.to_nat n)), 0).
Proof.
  intros Hn Hm Hc. unfold start_threads. destruct w; [|done].
  rewrite Hm. cbn [orb ub_unless]. by rewrite create_loop_all by (intros; apply Hc; lia).
Qed.

Lemma cancel_loop_all todo i w r c :
  (forall j, (i <= j < i + todo)%nat ->
     (w = true -> c_alive c Writer j = true) /\ (r = true -> c_alive c Reader j = true)) ->
  cancel_loop todo i w r c = Ok (concat ((fun j => if_wanted w [Cancelled Writer j] ++
    if_wanted r [Cancelled Reader j]) <$> seq i todo)).
Proof.
  revert i. induction todo as [|todo IH]; intros i H; [done|]. cbn [cancel_loop].
  destruct (H i) as [Hw Hr]; [lia|].
  rewrite IH by (intros; apply H; lia). unfold cancel.
  destruct w; [rewrite Hw by done|]; (destruct r; [rewrite Hr by done|]); done.
Qed.

Lemma cancel_loop_ended todo i j w r c k :
  (i <= j < i + todo)%nat -> match k with Writer => w | Reader => r end = true ->
  c_alive c k j = false -> cancel_loop todo i w r c = Undef.
Proof.
  revert i. induction todo as [|todo IH]; intros i Hj Hk Ha; [lia|]. cbn [cancel_loop]. unfold cancel.
  destruct (decide (i = j)) as [->|Hne].
  - destruct k; subst; rewrite Ha; cbn [ub_unless]; [done|].
    destruct w; [destruct (c_alive c Writer j)|]; done.
  - rewrite (IH (S i)) by (done || lia).
    destruct w; [destruct (c_alive c Writer i)|]; (destruct r; [destruct (c_alive c Reader i)|]); done.
Qed.

(** C37. From the command line to the end: the program starts the threads asked for, waits,
    cancels each of them once and prints the totals, if all of them are still running
    then. A thread that has ended by itself (its file could not be opened, or a read
    or a write failed) is cancelled through an identifier that is not valid any more:
    the behaviour is undefined. *)
Theorem fs_slammer_lifecycle stat_hd stat_fs hd fs rw n pages secs c :
  0 <= stat_hd -> 0 <= stat_fs -> args_ok hd fs rw n pages secs ->
  (forall k, c_malloc c k = true) -> (forall k j, (j < Z.to_nat n)%nat -> c_create c k j = 0) ->
  let threads := seq 0 (Z.to_nat n) in
  let main := fs_slammer_main stat_hd stat_fs 0 (fs_args hd fs rw n pages secs) c in
  ((forall k j, wanted rw k = true -> (j < Z.to_nat n)%nat -> c_alive c k j = true) ->
   main = Ok (if_wanted (wanted rw Writer) (Created Writer <$> threads) ++
              if_wanted (wanted rw Reader) (Created Reader <$> threads) ++
              Slept secs ::
              concat ((fun j => if_wanted (wanted rw Writer) [Cancelled Writer j] ++
                                if_wanted (wanted rw Reader) [Cancelled Reader j]) <$> threads),
              Prints (c_written c) (c_read c))) /\
  ((exists k j, wanted rw k = true /\ (j < Z.to_nat n)%nat /\ c_alive c k j = false) -> main = Undef).
Proof.
  intros Hh Hf Ha Hm Hc threads main. subst main threads. unfold fs_slammer_main.
  rewrite setup_ok, bind_Ok by done. pose proof (ao_n _ _ _ _ _ _ Ha) as Hn.
  rewrite !start_all by (done || lia || auto). rewrite !bind_Ok. cbn [Z.eqb negb].
  rewrite (proj2 (Z.ltb_ge secs 0)) by apply Ha. split.
  - intros Hal. rewrite cancel_loop_all; [done|]. intros j Hj. split; intros Hw.
    + apply (Hal Writer); [done|lia].
    + apply (Hal Reader); [done|lia].
  - intros (k & j & Hw & Hj & Hal). rewrite (cancel_loop_ended _ _ j _ _ _ k); [done|lia| |done].
    by destruct k.
Qed.

Lemma fs_slammer_lifecycle_witness :
  fs_slammer_main 0 0 0 (fs_args (chars "/dev/sda") (chars "/tmp") (chars "w") 2 100 5)
    (Calls (fun _ => true) (fun _ _ => 0) (fun _ _ => true) 7 0) =
  Ok ([Created Writer 0; Created Writer 1; Slept 5; Cancelled Writer 0; Cancelled Writer 1], Prints 7 0) /\
  fs_slammer_main 0 0 0 (fs_args (chars "/dev/sda") (chars "/tmp") (chars "w") 2 100 5)
    (Calls (fun _ => true) (fun _ _ => 0) (fun _ j => negb (Nat.eqb j 1)) 7 0) = Undef.
Proof.
  assert (A : args_ok (chars "/dev/sda") (chars "/tmp") (chars "w") 2 100 5).
  { constructor; try (unfold INT_MAX; cbn; lia). split; [|cbn; lia].
    split; [discriminate|]. repeat constructor. }
  split.
  - apply (fs_slammer_lifecycle 0 0 (chars "/dev/sda") (chars "/tmp") (chars "w") 2 100 5
      (Calls (fun _ => true) (fun _ _ => 0) (fun _ _ => true) 7 0)); (done || lia).
  - apply (fs_slammer_lifecycle 0 0 (chars "/dev/sda") (chars "/tmp") (chars "w") 2 100 5
      (Calls (fun _ => true) (fun _ _ => 0) (fun _ j => negb (Nat.eqb j 1)) 7 0)); try (done || lia).
    exists Writer, 1%nat. split; [vm_compute; reflexivity|]. split; [cbn; lia|reflexivity].
Defined.
