(* ===== verification/FsTotals.v ===== *)
(** * The totals of src/fs_slammer.c

    The writers all add to [total_bytes_written] and the readers to
    [total_bytes_read], without the mutex, which is commented out: an addition is a
    load and a store, and those of different threads interleave. *)
From stdpp Require Import base list relations.
From Stdlib Require Import ZArith Lia.
From S2P Require Import Prelude Lock Counter FsSlammer.

Open Scope Z_scope.

(** ** Threads that add to one variable *)

(** A thread has amounts to add; [ALoaded] is between the load and the store. *)
Inductive apc : Type :=
| AIdle (todo : list Z)
| ALoaded (reg amount : Z) (todo : list Z).

Record aworld : Type := AWorld { a_total : Z; a_ths : list apc }.

Inductive astep : aworld -> aworld -> Prop :=
| as_load t x xs v ths :
    ths !! t = Some (AIdle (x :: xs)) ->
    astep (AWorld v ths) (AWorld v (<[t := ALoaded v x xs]> ths))
| as_store t r x xs v ths :
    ths !! t = Some (ALoaded r x xs) ->
    astep (AWorld v ths) (AWorld (uwrap 64 (r + x)) (<[t := AIdle xs]> ths)).

Definition aworld0 (amounts : list (list Z)) : aworld := AWorld 0 (AIdle <$> amounts).

Definition a_done (w : aworld) : Prop := Forall (eq (AIdle [])) (a_ths w).

Definition sum (xs : list Z) : Z := foldr Z.add 0 xs.

Definition a_todo (pc : apc) : Z :=
  match pc with AIdle xs => sum xs | ALoaded _ x xs => x + sum xs end.

Definition a_todos (ths : list apc) : Z := sum (a_todo <$> ths).

Lemma sum_insert xs i x y : xs !! i = Some x -> sum (<[i := y]> xs) = sum xs - x + y.
Proof.
  revert i. induction xs as [|z xs IH]; intros [|i] H; try done.
  - injection H as ->. cbn. lia.
  - change (z + sum (<[i := y]> xs) = z + sum xs - x + y). rewrite (IH i H). lia.
Qed.

Lemma a_todos_insert ths t pc pc' :
  ths !! t = Some pc -> a_todos (<[t := pc']> ths) = a_todos ths - a_todo pc + a_todo pc'.
Proof.
  intros Ht. unfold a_todos. rewrite list_fmap_insert. apply sum_insert.
  by rewrite list_lookup_fmap, Ht.
Qed.

(** Nothing negative is added, and no register or variable holds more than the
    amounts whose addition is over. *)
Definition apc_ok (over : Z) (pc : apc) : Prop :=
  match pc with
  | AIdle xs => Forall (Z.le 0) xs
  | ALoaded r x xs => 0 <= r <= over /\ 0 <= x /\ Forall (Z.le 0) xs
  end.

Definition ainv (all : Z) (w : aworld) : Prop :=
  0 <= a_total w <= all - a_todos (a_ths w) /\
  Forall (apc_ok (all - a_todos (a_ths w))) (a_ths w).

Lemma sum_nonneg xs : Forall (Z.le 0) xs -> 0 <= sum xs.
Proof. induction 1 as [|x xs Hx _ IH]; [done|]. change (0 <= x + sum xs). lia. Qed.

Lemma apc_ok_todo over pc : apc_ok over pc -> 0 <= a_todo pc.
Proof.
  destruct pc as [xs|r x xs]; cbn; [apply sum_nonneg|]. intros (_ & H & Hx%sum_nonneg). lia.
Qed.

Lemma apc_ok_mono over over' pc : over <= over' -> apc_ok over pc -> apc_ok over' pc.
Proof. destruct pc; cbn; [done|]. intros H (? & ? & ?). split; [lia|done]. Qed.

Lemma a_todos_nonneg over ths : Forall (apc_ok over) ths -> 0 <= a_todos ths.
Proof.
  intros H. apply sum_nonneg, Forall_fmap. eapply Forall_impl; [exact H|].
  intros pc. apply apc_ok_todo.
Qed.

Lemma ainv_step all w w' : all < 2 ^ 64 -> ainv all w -> astep w w' -> ainv all w'.
Proof.
  intros Hall [Ht Hp] Hs. destruct Hs as [t x xs v ths Hl|t r x xs v ths Hl]; cbn [a_total a_ths] in *;
    unfold ainv; cbn [a_total a_ths]; rewrite (a_todos_insert _ _ _ _ Hl);
    pose proof (Forall_lookup_1 _ _ _ _ Hp Hl) as Hpc; cbn [a_todo] in *.
  - change (sum (x :: xs)) with (x + sum xs). split; [lia|].
    replace (all - (a_todos ths - (x + sum xs) + (x + sum xs))) with (all - a_todos ths) by lia.
    apply Forall_insert; [done|]. cbn in Hpc. apply Forall_cons in Hpc as [Hx Hxs]. done.
  - destruct Hpc as (Hr & Hx & Hxs). pose proof (a_todos_nonneg _ _ Hp) as H0.
    assert (Hle : a_todos ths - (x + sum xs) + sum xs = a_todos ths - x) by lia. rewrite Hle.
    assert (Hge : x <= a_todos ths).
    { assert (Hi : Forall (apc_ok (all - a_todos ths)) (<[t := AIdle xs]> ths)) by by apply Forall_insert.
      pose proof (a_todos_nonneg _ _ Hi) as H1. rewrite (a_todos_insert _ _ _ _ Hl) in H1. cbn in H1. lia. }
    rewrite uwrap_small by lia. split; [lia|].
    apply Forall_insert; [|done]. eapply Forall_impl; [exact Hp|]. intros pc. apply apc_ok_mono. lia.
Qed.

Lemma ainv_reach amounts w :
  Forall (Forall (Z.le 0)) amounts -> sum (sum <$> amounts) < 2 ^ 64 ->
  rtc astep (aworld0 amounts) w -> ainv (sum (sum <$> amounts)) w.
Proof.
  intros Hp Hall Hr.
  assert (G : forall w1 w2, rtc astep w1 w2 -> ainv (sum (sum <$> amounts)) w1 ->
    ainv (sum (sum <$> amounts)) w2).
  { induction 1; [done|]. eauto using ainv_step. }
  eapply G; [done|]. unfold ainv, aworld0, a_todos. cbn [a_total a_ths].
  rewrite <- list_fmap_compose. change (a_todo ∘ AIdle) with sum. split; [lia|].
  apply Forall_fmap. exact Hp.
Qed.

(** Two threads that move in step lose the additions of one of them. *)
Lemma lost_adds xs v :
  rtc astep (AWorld v [AIdle xs; AIdle xs])
    (AWorld (foldl (fun v x => uwrap 64 (v + x)) v xs) [AIdle []; AIdle []]).
Proof.
  revert v. induction xs as [|x xs IH]; intros v; [apply rtc_refl|].
  eapply rtc_l; [by apply (as_load 0)|]. cbn. eapply rtc_l; [by apply (as_load 1)|]. cbn.
  eapply rtc_l; [by apply (as_store 0)|]. cbn. eapply rtc_l; [by apply (as_store 1)|]. cbn. apply IH.
Qed.

(** One thread alone adds what its function adds. *)
Lemma solo_adds xs v :
  rtc astep (AWorld v [AIdle xs]) (AWorld (foldl (fun v x => uwrap 64 (v + x)) v xs) [AIdle []]).
Proof.
  revert v. induction xs as [|x xs IH]; intros v; [apply rtc_refl|].
  eapply rtc_l; [by apply (as_load 0)|]. cbn. eapply rtc_l; [by apply (as_store 0)|]. cbn. apply IH.
Qed.

Lemma foldl_uwrap xs v :
  Forall (Z.le 0) xs -> 0 <= v -> v + sum xs < 2 ^ 64 ->
  foldl (fun v x => uwrap 64 (v + x)) v xs = v + sum xs.
Proof.
  intros Hp. revert v. induction Hp as [|x xs Hx Hxs IH]; intros v Hv Hall.
  { cbn. lia. }
  change (sum (x :: xs)) with (x + sum xs) in *. pose proof (sum_nonneg _ Hxs). cbn [foldl].
  rewrite uwrap_small by lia. rewrite IH by lia. lia.
Qed.

(** ** The amounts *)

(** The successive values of [bytes_wrote], which [slam_junk] adds one after the
    other, for [n] pages from call [k] on. *)
Fixpoint slam_amounts (io : nat -> Z * Z) (k n : nat) (bytes_wrote : Z) : list Z :=
  match n with
  | O => []
  | S n => let bytes_wrote := bytes_wrote + (io k).2 in
           bytes_wrote :: slam_amounts io (S k) n bytes_wrote
  end.

(** The function of FsSlammer.v, run alone, adds these amounts in this order. *)
Lemma slam_pages_amounts io k n b total :
  (forall j, 0 <= (io j).1 /\ 0 <= (io j).2 <= PAGE) -> 0 <= b -> b + PAGE * Z.of_nat n <= INT_MAX ->
  exists b', slam_pages n io k (Z.of_nat n) b total =
    Ok (Written b' (foldl (fun v x => uwrap 64 (v + x)) total (slam_amounts io k n b))).
Proof.
  intros Hio. unfold PAGE, INT_MAX in *. revert k b total. induction n as [|n IH]; intros k b total Hb Hm.
  { by exists b. }
  cbn [slam_pages]. rewrite (proj2 (Z.eqb_neq _ _)) by lia.
  rewrite int_of_Ok, bind_Ok by (unfold INT_MIN, INT_MAX; lia). specialize (Hio k) as Hk.
  cbn [slam_amounts foldl]. destruct (io k) as [r x]. cbn [fst snd] in *.
  rewrite (proj2 (Z.ltb_ge r 0)), (proj2 (Z.ltb_ge x 0)) by lia.
  rewrite int_of_Ok, bind_Ok by (unfold INT_MIN, INT_MAX; lia).
  replace (Z.of_nat (S n) - 1) with (Z.of_nat n) by lia. apply IH; lia.
Qed.

Lemma raw_reads_amounts fd reads total :
  Forall (Z.le 0) reads ->
  (raw_reads fd reads total).2 = foldl (fun v x => uwrap 64 (v + x)) total reads.
Proof.
  intros Hp. revert total. induction Hp as [|r reads Hr _ IH]; intros total; [done|].
  cbn [raw_reads foldl]. rewrite (proj2 (Z.ltb_ge r 0)) by lia. apply IH.
Qed.

Lemma slam_amounts_nonneg io k n b :
  (forall j, 0 <= (io j).2) -> 0 <= b -> Forall (Z.le 0) (slam_amounts io k n b).
Proof.
  intros Hio. revert k b. induction n as [|n IH]; intros k b Hb; cbn; constructor.
  - specialize (Hio k). lia.
  - apply IH. specialize (Hio k). lia.
Qed.

(** C27. The totals, with any number of threads adding to one of them: whatever the
    schedule, the total is never more than the sum of the amounts added so far, as
    long as that fits 64 bits; but it can be less, since two threads that add the
    same amounts may end with the total of one. *)
Theorem fs_totals_race (amounts : list (list Z)) :
  Forall (Forall (Z.le 0)) amounts -> sum (sum <$> amounts) < 2 ^ 64 ->
  (forall w, rtc astep (aworld0 amounts) w ->
     0 <= a_total w <= sum (sum <$> amounts) - a_todos (a_ths w)) /\
  (forall xs, amounts = [xs; xs] -> exists w, rtc astep (aworld0 amounts) w /\ a_done w /\
     a_total w = sum xs).
Proof.
  intros Hp Hall. split.
  - intros w Hr. by apply (ainv_reach amounts w Hp Hall Hr).
  - intros xs ->. apply Forall_cons in Hp as [Hp _]. pose proof (sum_nonneg _ Hp) as H0.
    cbn in Hall. eexists. split; [apply lost_adds|]. split; [by repeat constructor|].
    cbn [a_total]. rewrite foldl_uwrap; [lia|done|lia|lia].
Qed.

(** Two writers of two pages each: together they add 4096, 8192, 4096 and 8192, and
    the total is 12288. *)
Lemma fs_totals_race_witness : exists w,
  rtc astep (aworld0 [slam_amounts (fun _ => (4096, 4096)) 0 2 0; slam_amounts (fun _ => (4096, 4096)) 0 2 0]) w /\
  a_done w /\ a_total w = 12288.
Proof.
  apply (proj2 (fs_totals_race
    [slam_amounts (fun _ => (4096, 4096)) 0 2 0; slam_amounts (fun _ => (4096, 4096)) 0 2 0]
    ltac:(repeat constructor; discriminate) eq_refl) _ eq_refl).
Defined.
