(* ===== verification/Frw.v ===== *)
(** * The read/write load generator src/frw.c

    [timeit], which alternates between starting and stopping a clock, the reading
    and writing passes, and the main loop. A pass is the list of calls it makes;
    the results of the calls, of [random] and of the clock are arguments. *)
From stdpp Require Import base list strings.
From Stdlib Require Import ZArith Lia Ascii.
From S2P Require Import Prelude Stdio.

Open Scope Z_scope.

Definition PAGE_SZ : Z := 4096.

Inductive whence : Type := SEEK_SET | SEEK_END.

Inductive action : Type :=
| Lseek (offset : Z) (w : whence)
| Read
| Pread (offset : Z)
| Write (byte : Z)              (* a page filled with the byte *)
| Pwrite (byte offset : Z)
| Fsync
| Perror (what : string)
| Elapsed (msg : string) (msecs : Z)
| Iter (n : Z)
| Sleep (secs : Z).

(** ** [timeit] *)

(** The static variables; a time is [tv_sec] and [tv_nsec]. *)
Record timer : Type := Timer { first_in : bool; ts1 : Z * Z; ts2 : Z * Z }.

Definition timer0 : timer := Timer false (0, 0) (0, 0).

Definition delta_msecs (a b : Z * Z) : Z := (b.1 - a.1) * 1000 + Z.quot (b.2 - a.2) 1000000.

Definition timeit (msg : option string) (now : Z * Z) (t : timer) : list action * timer :=
  let t := if negb (first_in t) then Timer true now (ts2 t) else Timer false (ts1 t) now in
  (if first_in t then []
   else [Elapsed (default "timeit:"%string msg) (delta_msecs (ts1 t) (ts2 t))], t).

(** ** The passes *)

Section Pass.
(** The results of [random], and whether the [k]-th call of a pass fails. *)
Context (rnd : nat -> Z) (fails : nat -> bool).

Definition failed (k : nat) (what : string) : list action := if fails k then [Perror what] else [].

(** [n] calls of [random] have been made; they are counted along. [random()%max_pages]
    with [max_pages > 0], since the loop runs. *)
Fixpoint read_loop (rounds i n : nat) (max_pages : Z) (rand_flag : bool) : list action * nat :=
  match rounds with
  | O => ([], n)
  | S rounds =>
      if rand_flag then
        let '(acts, n') := read_loop rounds (S i) (S n) max_pages rand_flag in
        (Pread (Z.rem (rnd n) max_pages * PAGE_SZ) :: failed i "pread:" ++ acts, n')
      else
        let '(acts, n') := read_loop rounds (S i) n max_pages rand_flag in
        (Read :: failed i "read:" ++ acts, n')
  end.

(** [random()] is converted to an [int]; the second call chooses the base. *)
Definition read_fd (n : nat) (max_pages : Z) (rand_flag : bool) : list action * nat :=
  let offset := swrap 32 (rnd n) in
  let w := if Z.rem (rnd (S n)) 2 =? 0 then SEEK_END else SEEK_SET in
  let '(acts, n') := read_loop (Z.to_nat max_pages) 0 (S (S n)) max_pages rand_flag in
  (Lseek offset w :: acts, n').

(** In the random mode the [if] ends in a semicolon, so that [perror] is called
    whatever [pwrite] returns. *)
Fixpoint write_loop (rounds i n : nat) (max_pages byte : Z) (rand_flag : bool) : list action * nat :=
  match rounds with
  | O => ([], n)
  | S rounds =>
      if rand_flag then
        let '(acts, n') := write_loop rounds (S i) (S n) max_pages byte rand_flag in
        (Pwrite byte (Z.rem (rnd n) max_pages * PAGE_SZ) :: Perror "pwrite:" :: acts, n')
      else
        let '(acts, n') := write_loop rounds (S i) n max_pages byte rand_flag in
        (Write byte :: failed i "write:" ++ acts, n')
  end.

Definition write_fd (n : nat) (max_pages : Z) (rand_flag : bool) : list action * nat :=
  let byte := Z.rem (rnd n) 255 in
  let '(acts, n') := write_loop (Z.to_nat max_pages) 0 (S n) max_pages byte rand_flag in
  (Lseek 0 SEEK_SET :: acts, n').
End Pass.

(** ** [main] *)

Definition char_is (op : list ascii) (i : nat) (c : ascii) : bool :=
  bool_decide ((op ++ [NUL]) !! i = Some c).

(** The loop, for [rounds] iterations; [clock k] is the [k]-th reading of the
    clock. The numbers of calls of [random] and of the clock are counted along. *)
Fixpoint frw_loop (rounds : nat) (iteration : Z) (n k : nat) (rnd : nat -> Z)
    (fails : nat -> nat -> bool) (clock : nat -> Z * Z) (op : list ascii)
    (max_pages rest_secs : Z) (t : timer) : res (list action) :=
  match rounds with
  | O => Ok []
  | S rounds =>
      let fails_now := fails (Z.to_nat iteration) in
      let '(a1, t) := timeit None (clock k) t in
      let '(pass, n, msg, sync) :=
        if char_is op 0 "r" then
          let '(acts, n) := read_fd rnd fails_now n max_pages (char_is op 1 "r") in
          (acts, n, "read"%string, [])
        else
          let '(acts, n) := write_fd rnd fails_now n max_pages (char_is op 1 "r") in
          if char_is op 0 "s" then (acts, n, "write fsync"%string, [Fsync])
          else (acts, n, "write"%string, []) in
      let '(a2, t) := timeit (Some msg) (clock (S k)) t in
      next ← int_of (iteration + 1);                        (* iteration++ *)
      acts ← frw_loop rounds next n (S (S k)) rnd fails clock op max_pages rest_secs t;
      Ok (a1 ++ pass ++ sync ++ a2 ++ [Iter iteration; Sleep rest_secs] ++ acts)
  end.

(** How the file is opened: [open_rc] for the first call, [creat_rc] for the second
    one, which only a writer makes. *)
Definition open_file (op : list ascii) (open_rc creat_rc : Z) : Z :=
  if char_is op 0 "r" then open_rc else if open_rc <? 0 then creat_rc else open_rc.

(** [main] up to [rounds] iterations; [None] is the usage message or the failure to
    open, both with status -2. An argument that is no number leaves its variable
    indeterminate, and [op[1]] must lie inside the string. *)
Definition frw_main (rounds : nat) (open_rc creat_rc : Z) (rnd : nat -> Z)
    (fails : nat -> nat -> bool) (clock : nat -> Z * Z) (args : list (list ascii))
    : res (option (list action)) :=
  match args with
  | fname :: op :: pages :: secs :: _ =>
      '(_, v1) ← sscanf pages [DDec];
      '(_, v2) ← sscanf secs [DDec];
      match v1, v2 with
      | [VInt max_pages], [VInt rest_secs] =>
          if open_file op open_rc creat_rc <? 0 then Ok None
          else ub_unless (bool_decide (op <> []))
            (acts ← frw_loop rounds 0 0 0 rnd fails clock op max_pages rest_secs timer0; Ok (Some acts))
      | _, _ => Undef
      end
  | _ => Ok None
  end.

(** ** What the reports say *)

Definition nanosecs (t : Z * Z) : Z := t.1 * 1000000000 + t.2.

Definition elapsed (acts : list action) : list (string * Z) :=
  omap (fun a => match a with Elapsed m d => Some (m, d) | _ => None end) acts.

(** The label of the reports. *)
Definition label (op : list ascii) : string :=
  if char_is op 0 "r" then "read" else if char_is op 0 "s" then "write fsync" else "write".

Lemma elapsed_app a b : elapsed (a ++ b) = elapsed a ++ elapsed b.
Proof. apply omap_app. Qed.

Lemma elapsed_failed fails k what : elapsed (failed fails k what) = [].
Proof. unfold failed. by destruct (fails k). Qed.

Lemma read_loop_elapsed rnd fails rounds i n max_pages rand_flag :
  elapsed (read_loop rnd fails rounds i n max_pages rand_flag).1 = [].
Proof.
  revert i n. induction rounds as [|rounds IH]; intros i n; [done|]. cbn [read_loop].
  destruct rand_flag.
  - specialize (IH (S i) (S n)). destruct (read_loop _ _ _ _ _ _ _) as [acts n']. cbn [fst] in *.
    change (elapsed (failed fails i "pread:" ++ acts) = []). by rewrite elapsed_app, elapsed_failed.
  - specialize (IH (S i) n). destruct (read_loop _ _ _ _ _ _ _) as [acts n']. cbn [fst] in *.
    change (elapsed (failed fails i "read:" ++ acts) = []). by rewrite elapsed_app, elapsed_failed.
Qed.

Lemma write_loop_elapsed rnd fails rounds i n max_pages byte rand_flag :
  elapsed (write_loop rnd fails rounds i n max_pages byte rand_flag).1 = [].
Proof.
  revert i n. induction rounds as [|rounds IH]; intros i n; [done|]. cbn [write_loop].
  destruct rand_flag.
  - specialize (IH (S i) (S n)). by destruct (write_loop _ _ _ _ _ _ _ _) as [acts n'].
  - specialize (IH (S i) n). destruct (write_loop _ _ _ _ _ _ _ _) as [acts n']. cbn [fst] in *.
    change (elapsed (failed fails i "write:" ++ acts) = []). by rewrite elapsed_app, elapsed_failed.
Qed.

Lemma read_fd_elapsed rnd fails n max_pages rand_flag :
  elapsed (read_fd rnd fails n max_pages rand_flag).1 = [].
Proof.
  unfold read_fd. pose proof (read_loop_elapsed rnd fails (Z.to_nat max_pages) 0 (S (S n)) max_pages rand_flag).
  by destruct (read_loop _ _ _ _ _ _ _).
Qed.

Lemma write_fd_elapsed rnd fails n max_pages rand_flag :
  elapsed (write_fd rnd fails n max_pages rand_flag).1 = [].
Proof.
  unfold write_fd. cbv zeta.
  pose proof (write_loop_elapsed rnd fails (Z.to_nat max_pages) 0 (S n) max_pages (Z.rem (rnd n) 255) rand_flag).
  by destruct (write_loop _ _ _ _ _ _ _ _).
Qed.

Lemma frw_loop_elapsed rounds iteration n k rnd fails clock op max_pages rest_secs t acts :
  first_in t = false ->
  frw_loop rounds iteration n k rnd fails clock op max_pages rest_secs t = Ok acts ->
  elapsed acts =
  map (fun i => (label op, delta_msecs (clock (k + 2 * i)%nat) (clock (k + 2 * i + 1)%nat))) (seq 0 rounds).
Proof.
  revert iteration n k t acts.
  induction rounds as [|rounds IH]; intros iteration n k t acts Ht; [by intros [= <-]|].
  cbn [frw_loop]. unfold timeit at 1. rewrite Ht. cbn [negb first_in ts2 app].
  assert (G : forall pass sync n' t', elapsed pass = [] -> elapsed sync = [] -> first_in t' = false ->
    (next ← int_of (iteration + 1);
     acts ← frw_loop rounds next n' (S (S k)) rnd fails clock op max_pages rest_secs t';
     Ok (pass ++ sync ++ [Elapsed (label op) (delta_msecs (clock k) (clock (S k)))] ++
      [Iter iteration; Sleep rest_secs] ++ acts)) = Ok acts ->
    elapsed acts =
    map (fun i => (label op, delta_msecs (clock (k + 2 * i)%nat) (clock (k + 2 * i + 1)%nat)))
      (seq 0 (S rounds))).
  { intros pass sync n' t' E1 E2 Ht' (next & _ & (acts' & Ea & [= <-])%bind_Ok_inv)%bind_Ok_inv.
    rewrite !elapsed_app, E1, E2. cbn [app elapsed omap list_omap]. fold (elapsed acts').
    rewrite (IH _ _ _ _ _ Ht' Ea). cbn [seq map]. rewrite Nat.mul_0_r, Nat.add_0_r, Nat.add_1_r. f_equal.
    rewrite <- (fmap_S_seq 0 rounds).
    change (S <$> seq 0 rounds) with (map S (seq 0 rounds)). rewrite map_map. apply map_ext. intros i.
    do 3 f_equal; lia. }
  unfold label in G |- *. set (fl := fails (Z.to_nat iteration)) in *. destruct (char_is op 0 "r").
  - pose proof (read_fd_elapsed rnd fl n max_pages (char_is op 1 "r")) as E.
    destruct (read_fd _ _ _ _ _) as [acts' n']. cbn [fst] in E. by apply G.
  - pose proof (write_fd_elapsed rnd fl n max_pages (char_is op 1 "r")) as E.
    destruct (write_fd _ _ _ _ _) as [acts' n']. cbn [fst] in E.
    destruct (char_is op 0 "s"); by apply G.
Qed.

Lemma delta_msecs_error a b :
  0 <= a.2 < 1000000000 -> 0 <= b.2 < 1000000000 ->
  Z.abs (delta_msecs a b * 1000000 - (nanosecs b - nanosecs a)) < 1000000.
Proof.
  intros Ha Hb. unfold delta_msecs, nanosecs.
  pose proof (Z.quot_rem' (b.2 - a.2) 1000000). pose proof (Z.rem_bound_abs (b.2 - a.2) 1000000). lia.
Qed.

(** C36. The reports are right: in every number of iterations the program reports one
    duration per pass, taken from the two clock readings around that pass and no
    others, and less than a millisecond off, although the times of a pass may lie
    in different seconds. *)
Theorem frw_reports rounds open_rc creat_rc rnd fails clock fname op pages secs acts :
  (forall k, 0 <= (clock k).2 < 1000000000) ->
  frw_main rounds open_rc creat_rc rnd fails clock [fname; op; pages; secs] = Ok (Some acts) ->
  Forall2 (fun r i => r.1 = label op /\
      Z.abs (r.2 * 1000000 - (nanosecs (clock (2 * i + 1)%nat) - nanosecs (clock (2 * i)%nat))) < 1000000)
    (elapsed acts) (seq 0 rounds).
Proof.
  intros Hc. unfold frw_main. intros H. apply bind_Ok_inv in H as ([r1 v1] & _ & H).
  apply bind_Ok_inv in H as ([r2 v2] & _ & H).
  destruct v1 as [|[|max_pages|] [|]]; try done. destruct v2 as [|[|rest_secs|] [|]]; try done.
  destruct (_ <? 0); [done|]. apply ub_unless_Ok_inv in H as [_ H].
  apply bind_Ok_inv in H as (acts' & E & [= <-]).
  rewrite (frw_loop_elapsed _ _ _ _ _ _ _ _ _ _ timer0 _ (eq_refl : first_in timer0 = false) E). apply Forall2_fmap_l, Forall_Forall2_diag, Forall_forall.
  intros i _. split; [done|]. by apply delta_msecs_error.
Qed.

Lemma frw_reports_witness :
  let clock := fun k => (Z.of_nat k, 500000000) in
  match frw_main 2 3 0 (fun k => Z.of_nat k) (fun _ _ => false) clock
          (map chars ["/tmp/f"; "w"; "1"; "0"]%string) with
  | Ok (Some acts) =>
      Forall2 (fun r i => r.1 = label (chars "w") /\
        Z.abs (r.2 * 1000000 - (nanosecs (clock (2 * i + 1)%nat) - nanosecs (clock (2 * i)%nat))) < 1000000)
        (elapsed acts) (seq 0 2)
  | _ => False
  end.
Proof.
  apply (frw_reports 2 3 0 (fun k => Z.of_nat k) (fun _ _ => false) (fun k => (Z.of_nat k, 500000000))
           (chars "/tmp/f") (chars "w") (chars "1") (chars "0")).
  - intros k. cbn. lia.
  - vm_compute. reflexivity.
Defined.

(** The calls of a writing pass at random places. *)
Lemma write_loop_random rnd fails rounds i n max_pages byte :
  (write_loop rnd fails rounds i n max_pages byte true).1 =
  flat_map (fun j => [Pwrite byte (Z.rem (rnd j) max_pages * PAGE_SZ); Perror "pwrite:"]) (seq n rounds).
Proof.
  revert i n. induction rounds as [|rounds IH]; intros i n; [done|]. cbn [write_loop seq flat_map app].
  specialize (IH (S i) (S n)). destruct (write_loop _ _ _ _ _ _ _ _) as [acts n']. cbn [fst] in *.
  by rewrite IH.
Qed.

(** A writing pass at random places writes [max_pages] whole pages, all inside
    the file of that size and all with one byte value below 255; but it reports an
    error after every one of them, whether or not any write fails. *)
Theorem write_fd_random rnd fails n max_pages :
  (forall k, 0 <= rnd k) -> 0 < max_pages ->
  exists byte offsets,
    (write_fd rnd fails n max_pages true).1 =
      Lseek 0 SEEK_SET :: flat_map (fun o => [Pwrite byte o; Perror "pwrite:"]) offsets /\
    0 <= byte < 255 /\ Z.of_nat (length offsets) = max_pages /\
    Forall (fun o => o mod PAGE_SZ = 0 /\ 0 <= o /\ o + PAGE_SZ <= max_pages * PAGE_SZ) offsets.
Proof.
  intros Hr Hm. exists (Z.rem (rnd n) 255),
    (map (fun j => Z.rem (rnd j) max_pages * PAGE_SZ) (seq (S n) (Z.to_nat max_pages))).
  unfold write_fd. cbv zeta. pose proof (write_loop_random rnd fails (Z.to_nat max_pages) 0 (S n) max_pages
    (Z.rem (rnd n) 255)) as E.
  destruct (write_loop _ _ _ _ _ _ _ _) as [acts n']. cbn [fst] in *. rewrite E.
  split; [|split; [|split]].
  - f_equal. generalize (seq (S n) (Z.to_nat max_pages)) as l. induction l as [|j l IH]; [done|].
    cbn [map flat_map]. by rewrite IH.
  - apply Z.rem_bound_pos; [apply Hr|lia].
  - rewrite length_map, length_seq. lia.
  - apply Forall_map, Forall_forall. intros j _. unfold PAGE_SZ.
    pose proof (Z.rem_bound_pos (rnd j) max_pages (Hr j) Hm). split; [by apply Z_mod_mult|]. lia.
Qed.

Lemma write_fd_random_witness :
  exists byte offsets,
    (write_fd (fun k => Z.of_nat k * 12345) (fun _ => false) 0 8 true).1 =
      Lseek 0 SEEK_SET :: flat_map (fun o => [Pwrite byte o; Perror "pwrite:"]) offsets /\
    Z.of_nat (length offsets) = 8.
Proof.
  destruct (write_fd_random (fun k => Z.of_nat k * 12345) (fun _ => false) 0 8)
    as (byte & offsets & E & _ & L & _).
  - intros. lia.
  - lia.
  - exists byte, offsets. split; [exact E|exact L].
Defined.
