(* ===== verification/Pipe.v ===== *)
(** * The pair src/pipe_writer.c and src/pipe_reader.c

    The writer makes a FIFO and sends pages of random letters through it; the
    reader prints how many bytes each read returns. First each program on its own,
    with the results of its system calls as arguments, then the two with the pipe
    between them, as a transition system. *)
From stdpp Require Import base list gmap relations.
From Stdlib Require Import ZArith Lia.
From S2P Require Import Prelude.

Open Scope Z_scope.

(** ** [dump_random_chars] *)

(** [c = random()%256] into a signed char, then [if(c<65)c=65]. *)
Definition random_char (r : Z) : Z :=
  let c := swrap 8 (Z.rem r 256) in
  if c <? 65 then 65 else c.

(** The loop, for the rounds left; the [k]-th call of [random] returns [rnd k]. *)
Fixpoint dump_loop (rounds : nat) (i : Z) (k : nat) (rnd : nat -> Z) (str : blk Z) : res (blk Z) :=
  match rounds with
  | O => Ok str
  | S rounds => str ← wrc str i (random_char (rnd k)); dump_loop rounds (i + 1) (S k) rnd str
  end.

Definition dump_random_chars (str : blk Z) (sz : Z) (k : nat) (rnd : nat -> Z) : res (blk Z) :=
  dump_loop (Z.to_nat sz) 0 k rnd str.

Definition PAGE_LEN : Z := 4096.

(** The page that the writer sends after [k] calls of [random]. *)
Definition random_page (k : nat) (rnd : nat -> Z) : list Z :=
  (fun j => random_char (rnd j)) <$> seq k (Z.to_nat PAGE_LEN).

(** ** The start of the writer *)

(** What a path names; the contents of a directory are not followed. *)
Inductive node : Type := NFifo | NFile (data : list Z) | NDir (is_empty : bool).

#[export] Instance node_eq_dec : EqDecision node.
Proof. solve_decision. Defined.

(** [mknod(path, S_IFIFO|0666, 0)]: 0, or EEXIST, or another error. *)
Inductive mk_result : Type := MkOk | MkExist | MkOther.

Definition mknod_fifo (may : bool) (path : option node) : mk_result * option node :=
  match path with
  | Some _ => (MkExist, path)
  | None => if may then (MkOk, Some NFifo) else (MkOther, None)
  end.

(** [unlink] removes anything but a directory; [remove] also an empty directory. *)
Definition unlink (may : bool) (path : option node) : option node :=
  match path with
  | Some (NDir _) => path
  | _ => if may then None else path
  end.

Definition remove (may : bool) (path : option node) : option node :=
  match path with
  | Some (NDir is_empty) => if may && is_empty then None else path
  | _ => unlink may path
  end.

(** The beginning of [main], after the arguments: whether it goes on, and what the
    path names then. [may] says whether names may be made and removed there. *)
Definition make_fifo (may : bool) (path : option node) : bool * option node :=
  match mknod_fifo may path with
  | (MkOk, path) => (true, path)
  | (MkExist, path) =>
      let path := unlink may (remove may path) in
      match mknod_fifo may path with
      | (MkOk, path) => (true, path)
      | (_, path) => (false, path)
      end
  | (MkOther, path) => (false, path)
  end.

(** ** Descriptor sets *)

Definition FD_SETSIZE : Z := 1024.

(** [FD_SET]: a descriptor outside the set is an access outside an array. *)
Definition fd_set_add (fd : Z) (fds : gset Z) : res (gset Z) :=
  ub_unless ((0 <=? fd) && (fd <? FD_SETSIZE)) (Ok ({[fd]} ∪ fds)).

(** The descriptors that [select(nfds, ...)] looks at. *)
Definition watched (nfds : Z) (fds : gset Z) : gset Z := filter (fun d => d < nfds) fds.

(** ** The loop of the writer *)

(** What [select] answers: an error, which leaves the set alone, or the ready
    descriptors, which replace it. *)
Inductive select_result : Type := SelErr | SelReady (ready : gset Z).

(** [select] without a timeout returns when a watched descriptor is ready. *)
Definition select_ok (nfds : Z) (fds : gset Z) (r : select_result) : Prop :=
  match r with
  | SelErr => True
  | SelReady ready => ready ⊆ watched nfds fds /\ ready <> ∅
  end.

(** The bytes that [write] takes from an array all of whose elements are set. *)
Fixpoint bytes_of (page : blk Z) : res (list Z) :=
  match page with
  | [] => Ok []
  | Some c :: page => cs ← bytes_of page; Ok (c :: cs)
  | None :: _ => Undef
  end.

(** The pages written, the set at the end, and whether [select] failed, which ends
    the loop; otherwise the process is still running after the given calls. *)
Fixpoint writer_loop (rs : list select_result) (k : nat) (rnd : nat -> Z) (fds : gset Z)
    : res (list (list Z) * gset Z * bool) :=
  match rs with
  | [] => Ok ([], fds, false)
  | SelErr :: _ => Ok ([], fds, true)
  | SelReady ready :: rs =>
      page ← dump_random_chars (replicate (Z.to_nat PAGE_LEN) None) PAGE_LEN k rnd;
      bytes ← bytes_of page;
      '(pages, fds, failed) ← writer_loop rs (k + Z.to_nat PAGE_LEN) rnd ready;
      Ok (bytes :: pages, fds, failed)
  end.

(** The end of [main]: the FIFO is removed after the loop. *)
Inductive wexit : Type :=
| WUsage                                   (* no path: status -1 *)
| WMknod (path : option node)              (* no FIFO: status -1 *)
| WRunning (pages : list (list Z))         (* in the loop *)
| WDone (pages : list (list Z)) (path : option node).   (* status 0 *)

(** [main]; [fds0] is what the variable [fds], which nothing initialises, holds,
    and [fd] the result of [open]. *)
Definition writer_main (argc : Z) (may : bool) (path : option node) (fd : Z) (fds0 : gset Z)
    (rs : list select_result) (rnd : nat -> Z) : res wexit :=
  if argc <? 2 then Ok WUsage
  else match make_fifo may path with
       | (false, path) => Ok (WMknod path)
       | (true, path) =>
           fds ← fd_set_add fd fds0;
           '(pages, _, failed) ← writer_loop rs 0 rnd fds;
           Ok (if (failed : bool) then WDone pages (remove may path) else WRunning pages)
       end.

(** ** The reader *)

(** One round: the result of [select] and of [read]. What it prints. *)
Definition reader_round (bytes_read : Z) : list Z := if 0 <? bytes_read then [bytes_read] else [].

Fixpoint reader_loop (rs : list (select_result * Z)) (fds : gset Z) : list Z * gset Z :=
  match rs with
  | [] => ([], fds)
  | (s, bytes_read) :: rs =>
      let fds := match s with SelErr => fds | SelReady ready => ready end in
      let '(out, fds) := reader_loop rs fds in (reader_round bytes_read ++ out, fds)
  end.

(** [None] is the failure to open, with status -1; the loop has no exit. *)
Definition reader_main (fd : Z) (fds0 : gset Z) (rs : list (select_result * Z)) : res (option (list Z)) :=
  if fd <? 0 then Ok None
  else fds ← fd_set_add fd fds0; Ok (Some (reader_loop rs fds).1).

(** ** What is sent *)

(** Bytes are between A and the last 7-bit character; the values of [random] that
    are negative as a char, half of them, and those below A all give A. *)
Lemma random_char_spec r : 0 <= r ->
  random_char r = (if (65 <=? r mod 256) && (r mod 256 <=? 127) then r mod 256 else 65) /\
  65 <= random_char r <= 127.
Proof.
  intros Hr. unfold random_char. rewrite Z.rem_mod_nonneg by lia.
  pose proof (Z.mod_pos_bound r 256 ltac:(lia)) as Hm. set (m := r mod 256) in *. clearbody m.
  destruct (Z.leb_spec m 127) as [Hl|Hl].
  - rewrite swrap_small by lia. rewrite andb_true_r.
    destruct (Z.leb_spec 65 m); destruct (Z.ltb_spec m 65); lia.
  - rewrite andb_false_r. assert (E : swrap 8 m = m - 256).
    { unfold swrap. change (2 ^ (8 - 1)) with 128. change (2 ^ 8) with 256.
      replace (m + 128) with (m - 128 + 1 * 256) by lia. rewrite Z.mod_add by lia.
      rewrite Z.mod_small by lia. lia. }
    rewrite E. destruct (Z.ltb_spec (m - 256) 65); lia.
Qed.

Lemma length_random_page k rnd : length (random_page k rnd) = Z.to_nat PAGE_LEN.
Proof. unfold random_page. by rewrite length_fmap, length_seq. Qed.

Lemma dump_loop_spec rounds k rnd (pre : list Z) (rest : blk Z) :
  length rest = rounds ->
  dump_loop rounds (Z.of_nat (length pre)) k rnd ((Some <$> pre) ++ rest) =
  Ok (Some <$> pre ++ ((fun j => random_char (rnd j)) <$> seq k rounds)).
Proof.
  revert k pre rest. induction rounds as [|rounds IH]; intros k pre rest Hl.
  - apply nil_length_inv in Hl as ->. cbn. by rewrite !app_nil_r.
  - destruct rest as [|c rest]; [done|]. injection Hl as Hl. cbn [dump_loop seq].
    unfold wrc. rewrite wr_Ok by (rewrite length_app, length_fmap; cbn [length]; lia).
    rewrite bind_Ok, Nat2Z.id, insert_app_r_alt by (rewrite length_fmap; lia).
    rewrite length_fmap, Nat.sub_diag. cbn [list_insert insert].
    specialize (IH (S k) (pre ++ [random_char (rnd k)]) rest Hl).
    rewrite length_app, fmap_app, Nat2Z.inj_add, <- !app_assoc in IH. cbn [length fmap list_fmap app] in IH.
    rewrite fmap_cons. exact IH.
Qed.

Lemma dump_random_page k rnd :
  dump_random_chars (replicate (Z.to_nat PAGE_LEN) None) PAGE_LEN k rnd = Ok (Some <$> random_page k rnd).
Proof.
  unfold dump_random_chars. apply (dump_loop_spec _ k rnd [] (replicate _ None)).
  by rewrite length_replicate.
Qed.

Lemma bytes_of_all l : bytes_of (Some <$> l) = Ok l.
Proof. induction l as [|c l IH]; [done|]. cbn. by rewrite IH. Qed.

(** The rounds before [select] fails. *)
Fixpoint ready_rounds (rs : list select_result) : nat :=
  match rs with SelReady _ :: rs => S (ready_rounds rs) | _ => O end.

Definition select_fails (rs : list select_result) : bool :=
  bool_decide (ready_rounds rs < length rs)%nat.

(** The first [n] pages after [k] calls of [random]. *)
Definition random_pages (k n : nat) (rnd : nat -> Z) : list (list Z) :=
  (fun j => random_page (k + j * Z.to_nat PAGE_LEN) rnd) <$> seq 0 n.

Lemma random_pages_S k n rnd :
  random_pages k (S n) rnd = random_page k rnd :: random_pages (k + Z.to_nat PAGE_LEN) n rnd.
Proof.
  unfold random_pages. cbn [seq]. rewrite fmap_cons, Nat.mul_0_l, Nat.add_0_r. f_equal.
  rewrite <- fmap_S_seq, <- list_fmap_compose. apply list_fmap_ext. intros _ j _. cbn. f_equal. lia.
Qed.

(** The set after the rounds: each answer of [select] replaces it. *)
Fixpoint last_set (fds : gset Z) (rs : list select_result) : gset Z :=
  match rs with SelReady ready :: rs => last_set ready rs | _ => fds end.

Lemma writer_loop_spec rs k rnd fds :
  writer_loop rs k rnd fds =
    Ok (random_pages k (ready_rounds rs) rnd, last_set fds rs, select_fails rs).
Proof.
  revert k fds. induction rs as [|[|ready] rs IH]; intros k fds; [done..|].
  cbn [writer_loop ready_rounds last_set]. rewrite dump_random_page, bind_Ok, bytes_of_all, bind_Ok.
  rewrite IH, bind_Ok, random_pages_S. unfold select_fails. cbn [ready_rounds length].
  do 2 f_equal. apply bool_decide_ext. lia.
Qed.

(** ** The writer's start *)

Lemma make_fifo_spec may path :
  make_fifo may path =
    match path with
    | Some (NDir false) => (false, path)
    | _ => if may then (true, Some NFifo) else (false, path)
    end.
Proof. by destruct may, path as [[| |[]]|]. Qed.

(** The writer makes its FIFO by removing whatever has the path's name, a file
    with its contents or an empty directory included; it then sends pages of random
    letters until [select] fails, and removes the FIFO. A failure to open the
    FIFO is printed and otherwise ignored: the descriptor -1 is put into a set. *)
Theorem writer_main_spec argc may path fd fds0 rs rnd :
  2 <= argc ->
  writer_main argc may path fd fds0 rs rnd =
    if negb may || bool_decide (path = Some (NDir false)) then Ok (WMknod path)
    else if negb ((0 <=? fd) && (fd <? FD_SETSIZE)) then Undef
    else let pages := random_pages 0 (ready_rounds rs) rnd in
         Ok (if select_fails rs then WDone pages None else WRunning pages).
Proof.
  intros Ha. unfold writer_main. rewrite (proj2 (Z.ltb_ge _ _)) by done.
  rewrite make_fifo_spec. unfold fd_set_add.
  destruct may, path as [[| |[]]|]; cbn [negb orb];
    rewrite ?bool_decide_eq_false_2, ?bool_decide_eq_true_2 by done; try done;
    destruct ((0 <=? fd) && (fd <? FD_SETSIZE)); try done;
    cbn [ub_unless negb]; rewrite bind_Ok, writer_loop_spec; cbn; by destruct (select_fails rs).
Qed.

Lemma writer_main_spec_witness :
  writer_main 2 true (Some (NFile [104; 105])) 3 ∅ [SelReady {[3]}; SelErr] (fun _ => 66) =
  Ok (WDone (random_pages 0 1 (fun _ => 66)) None).
Proof. exact (writer_main_spec 2 true _ 3 ∅ [SelReady {[3]}; SelErr] (fun _ => 66) ltac:(lia)). Defined.

(** ** The set that is never initialised *)

(** The answers that the documentation of [select] allows. *)
Fixpoint selects_ok (nfds : Z) (fds : gset Z) (rs : list select_result) : Prop :=
  match rs with
  | [] => True
  | r :: rs => select_ok nfds fds r /\
      selects_ok nfds (match r with SelErr => fds | SelReady ready => ready end) rs
  end.

Lemma writer_watches rs fd fds :
  watched (fd + 1) fds = {[fd]} -> selects_ok (fd + 1) fds rs ->
  watched (fd + 1) (last_set fds rs) = {[fd]}.
Proof.
  revert fds. induction rs as [|[|ready] rs IH]; intros fds Hw Hs; [done..|].
  destruct Hs as [[Hsub Hne] Hs]. rewrite Hw in Hsub. cbn. apply IH; [|done].
  assert (ready = {[fd]}) as -> by (apply leibniz_equiv; apply set_choose_L in Hne as [x Hx]; set_solver).
  unfold watched. apply leibniz_equiv. intros x. rewrite elem_of_filter, elem_of_singleton. lia.
Qed.

(** The FIFO is watched in every round if the variable [fds] happens to hold no
    smaller descriptor. Otherwise another descriptor can make [select] return, and
    from then on the FIFO is not in the set any more. *)
Lemma writer_forgets_fifo :
  selects_ok 4 {[3; 1]} [SelReady {[1]}; SelReady {[1]}] /\
  3 ∉ last_set {[3; 1]} [SelReady {[1]}; SelReady {[1]}].
Proof. split; [repeat split|]; (apply (bool_decide_unpack _); vm_compute; exact I) || done. Qed.

(** ** The two programs and the pipe *)

Section Pair.
(** The pipe holds [cap] bytes; [PIPE_BUF] is a page, so a page is written whole. *)
Context (cap : Z) (rnd : nat -> Z).

Record pipe_world : Type := PWorld {
  pw_buf : list Z;           (* the bytes in the pipe *)
  pw_sent : nat;             (* the pages written *)
  pw_open : bool;            (* the writer runs *)
  pw_got : list Z;           (* the bytes read *)
  pw_out : list Z;           (* the numbers printed *)
}.

Definition nth_page (i : nat) : list Z := random_page (i * Z.to_nat PAGE_LEN) rnd.

(** A read returns what there is, up to a page; at the end of the file it returns 0,
    and the reader goes round its loop. The reader's [select] is not a step of its own:
    when it returns, whatever it has found in the descriptor set, which is never
    cleared, the reader goes on to [read], and that waits for the FIFO by itself. If a
    smaller descriptor was in the set, [select] may wait for that one instead: such a
    run is one that takes no further step of the reader. *)
Inductive pipe_step : pipe_world -> pipe_world -> Prop :=
| ps_write buf n got out :
    Z.of_nat (length buf) + PAGE_LEN <= cap ->
    pipe_step (PWorld buf n true got out) (PWorld (buf ++ nth_page n) (S n) true got out)
| ps_stop buf n got out :
    pipe_step (PWorld buf n true got out) (PWorld buf n false got out)
| ps_read buf n o got out :
    buf <> [] ->
    let bytes := take (Z.to_nat PAGE_LEN) buf in
    pipe_step (PWorld buf n o got out)
      (PWorld (drop (Z.to_nat PAGE_LEN) buf) n o (got ++ bytes)
         (out ++ reader_round (Z.of_nat (length bytes))))
| ps_eof n got out :
    pipe_step (PWorld [] n false got out) (PWorld [] n false got (out ++ reader_round 0)).

Definition pipe_world0 : pipe_world := PWorld [] 0 true [] [].

Definition pages_from (m n : nat) : list Z := concat (nth_page <$> seq m n).

#[local] Arguments pages_from : simpl never.

(** [m] pages have been read. *)
Definition pipe_ok (w : pipe_world) : Prop := exists m, (m <= pw_sent w)%nat /\
  pw_got w = pages_from 0 m /\ pw_buf w = pages_from m (pw_sent w - m) /\
  pw_out w = replicate m PAGE_LEN.

Lemma pages_from_snoc m n : pages_from m (S n) = pages_from m n ++ nth_page (m + n).
Proof.
  unfold pages_from. rewrite seq_S, fmap_app, concat_app. cbn. by rewrite app_nil_r.
Qed.

Lemma pages_from_cons m n : pages_from m (S n) = nth_page m ++ pages_from (S m) n.
Proof. done. Qed.

Lemma pipe_inv_step w w' : pipe_ok w -> pipe_step w w' -> pipe_ok w'.
Proof.
  intros (m & Hm & Hg & Hb & Ho) Hs. unfold pipe_ok.
  destruct Hs as [buf n got out Hc|buf n got out|buf n o got out Hne bytes|n got out]; cbn in *.
  - exists m. split; [lia|]. split; [done|]. split; [|done].
    replace (S n - m)%nat with (S (n - m)) by lia. rewrite pages_from_snoc, Hb.
    by replace (m + (n - m))%nat with n by lia.
  - by exists m.
  - destruct (n - m)%nat as [|d] eqn:Ed; [by rewrite Hb in Hne|].
    rewrite pages_from_cons in Hb. subst buf bytes.
    pose proof (length_random_page (m * Z.to_nat PAGE_LEN) rnd : length (nth_page m) = _) as Hl.
    rewrite (take_app_length' _ _ _ (eq_sym Hl)), (drop_app_length' _ _ _ (eq_sym Hl)).
    exists (S m). split; [lia|]. rewrite pages_from_snoc, Hg. split; [done|].
    split; [by replace (n - S m)%nat with d by lia|].
    rewrite Hl, replicate_S_end, Ho. done.
  - exists m. cbn. by rewrite app_nil_r.
Qed.

Lemma pipe_inv_reach w : rtc pipe_step pipe_world0 w -> pipe_ok w.
Proof.
  intros Hr. assert (G : forall w1 w2, rtc pipe_step w1 w2 -> pipe_ok w1 -> pipe_ok w2).
  { induction 1; [done|]. eauto using pipe_inv_step. }
  eapply G; [done|]. by exists 0%nat.
Qed.
End Pair.

(** C28. However the two programs are scheduled, the reader gets the pages the
    writer sends, in order and complete, and every line it prints is the number
    4096; when the writer has ended and the pipe is empty, the only thing left is
    a round of the reader's loop that changes and prints nothing, for ever. *)
Theorem pipe_pages cap rnd w :
  rtc (pipe_step cap rnd) pipe_world0 w ->
  pw_got w ++ pw_buf w = concat (nth_page rnd <$> seq 0 (pw_sent w)) /\
  (exists m, pw_got w = concat (nth_page rnd <$> seq 0 m) /\ pw_out w = replicate m PAGE_LEN) /\
  (pw_open w = false -> pw_buf w = [] -> forall w', pipe_step cap rnd w w' <-> w' = w).
Proof.
  intros (m & Hm & Hg & Hb & Ho)%pipe_inv_reach. split; [|split].
  - rewrite Hg, Hb. unfold pages_from. rewrite <- concat_app, <- fmap_app, <- seq_app.
    by replace (m + (pw_sent w - m))%nat with (pw_sent w) by lia.
  - by exists m.
  - clear m Hm Hg Hb Ho. intros Hop He w'. destruct w as [buf n o got out]. cbn in *. subst o buf. split.
    + inversion 1; subst; [done|]. cbn. by rewrite app_nil_r.
    + intros ->. pose proof (ps_eof cap rnd n got out) as H. cbn in H. by rewrite app_nil_r in H.
Qed.

Lemma pipe_pages_witness :
  exists w, rtc (pipe_step 65536 (fun _ => 66)) pipe_world0 w /\
    pw_got w ++ pw_buf w = concat (nth_page (fun _ => 66) <$> seq 0 1).
Proof.
  exists (PWorld ([] ++ nth_page (fun _ => 66) 0) 1 false [] []).
  assert (Hr : rtc (pipe_step 65536 (fun _ => 66)) pipe_world0
    (PWorld ([] ++ nth_page (fun _ => 66) 0) 1 false [] [])).
  { eapply rtc_l; [apply (ps_write 65536 (fun _ => 66) [] 0 [] [])|].
    - vm_compute. discriminate.
    - eapply rtc_l; [apply ps_stop|]. apply rtc_refl. }
  split; [exact Hr|]. exact (proj1 (pipe_pages 65536 (fun _ => 66) _ Hr)).
Defined.
