(* ===== verification/Udp.v ===== *)
(** * The echo programs of src/test_udp.c

    Numbered messages over UDP: the client sends one and waits for its echo, the
    server sends back what it receives. The results of the socket calls and of
    [malloc] are arguments; then the two programs with a network that loses
    nothing. *)
From stdpp Require Import base list strings sets.
From Stdlib Require Import ZArith Lia Ascii.
From S2P Require Import Prelude Stdio.

Open Scope Z_scope.

Definition packet_size : Z := 4096.

(** [sizeof(struct my_msg)] is that of its two ints. *)
Definition msg_len : Z := 8 + packet_size.

(** A message in memory: [seq_no], [size] and the data. *)
Definition packet (seq_no : Z) : list Z :=
  le_bytes seq_no ++ le_bytes packet_size ++ replicate (Z.to_nat packet_size) (uwrap 8 seq_no).

Definition msg_seq_no (buf : list Z) : Z := swrap 32 (le_value (take 4 buf)).

Inductive uline : Type :=
| Tx (seq_no : Z)
| Rx (seq_no : Z)
| BadSequence (seq_no : Z)
| BadMsg
| RecvFailed
| EchoRecvFailed
| EchoSendFailed
| SenderFailed
| RecverFailed
| EchoerFailed.

(** ** The sequence numbers *)

(** The number, and the next one. *)
Definition get_my_seq_number (my_seq_no : Z) : res (Z * Z) :=
  next ← int_of (my_seq_no + 1); Ok (my_seq_no, next).

Definition seq_check (my_seq_no seq_no : Z) : Z := if my_seq_no =? seq_no then 0 else -1.

(** The result of the check is dropped, and so is the number computed at the end. *)
Definition verify_seq_number (my_seq_no seq_no : Z) : res Z :=
  let rc := seq_check my_seq_no seq_no in
  seq_no ← int_of (my_seq_no + 1);
  Ok 0.

(** ** One message *)

(** [m]: whether [malloc] succeeds; [send]: what [sendto] returns. The results are that
    of the function, the number that is next, the lines printed and the packet. *)
Definition sender (m : bool) (send : Z) (my_seq_no : Z) : res (Z * Z * list uline * list Z) :=
  ub_unless m
    ('(seq_no, next) ← get_my_seq_number my_seq_no;
     Ok (send, next, [Tx seq_no], packet seq_no)).

(** What [recvfrom] stores of a packet: [None] is an error. A buffer that was not
    allocated is an error too. *)
Definition received (m : bool) (recv : option (list Z)) : option (list Z) :=
  if m then take (Z.to_nat msg_len) <$> recv else None.

Definition EMSGSIZE : Z := 90.

Definition recver (m : bool) (recv : option (list Z)) (my_seq_no : Z) : res (Z * list uline) :=
  match received m recv with
  | None => Ok (-1, [RecvFailed])
  | Some buffer =>
      if Z.of_nat (length buffer) =? msg_len then
        let seq_no := msg_seq_no buffer in
        rc ← verify_seq_number my_seq_no seq_no;
        Ok (rc, (if rc <? 0 then [BadSequence seq_no] else []) ++ [Rx seq_no])
      else Ok (- EMSGSIZE, [BadMsg])
  end.

(** The server's turn: its result, its lines and the packet it sends back. *)
Definition echoer (m : bool) (recv : option (list Z)) (send : list Z -> Z) : Z * list uline * option (list Z) :=
  match received m recv with
  | None => (-1, [EchoRecvFailed], None)
  | Some buffer =>
      let rc := send buffer in
      if rc <? 0 then (rc, [EchoSendFailed], None) else (rc, [], Some buffer)
  end.

(** ** The loops of [main] *)

(** One round of the client: whether the two [malloc] succeed, what [sendto] returns
    and what comes back. *)
Record client_io : Type := ClientIo {
  ci_malloc : bool; ci_send : Z; ci_malloc' : bool; ci_recv : option (list Z) }.

(** How the loop ends within the rounds given: with a status, or not yet. *)
Inductive loop_end : Type := Returns (status : Z) | GoesOn (my_seq_no : Z).

Fixpoint client_loop (rounds : list client_io) (my_seq_no : Z) : res (list uline * loop_end) :=
  match rounds with
  | [] => Ok ([], GoesOn my_seq_no)
  | io :: rounds =>
      '(rc, next, tx, _) ← sender (ci_malloc io) (ci_send io) my_seq_no;
      if rc <? 0 then Ok (tx ++ [SenderFailed], Returns rc)
      else
        '(rc, rx) ← recver (ci_malloc' io) (ci_recv io) next;
        if rc <? 0 then Ok (tx ++ rx ++ [RecverFailed], Returns rc)
        else '(lines, e) ← client_loop rounds next; Ok (tx ++ rx ++ lines, e)
  end.

(** The server, for the rounds given. *)
Fixpoint server_loop (rounds : list (bool * option (list Z) * (list Z -> Z)))
    : list uline * list (list Z) * option Z :=
  match rounds with
  | [] => ([], [], None)
  | (m, recv, send) :: rounds =>
      let '(rc, lines, back) := echoer m recv send in
      let sent := match back with Some b => [b] | None => [] end in
      if rc <? 0 then (lines ++ [EchoerFailed], sent, Some rc)
      else let '(lines', sent', e) := server_loop rounds in (lines ++ lines', sent ++ sent', e)
  end.

(** [echo_server], [echo_client] and [echo_thread_client]; an argument that begins
    with one of them will do. *)
Inductive umode : Type := EchoServer | EchoClient | EchoThreadClient.

Definition starts_with (lit s : list ascii) : bool := bool_decide (take (length lit) s = lit).

Definition echo_mode (arg : list ascii) : option umode :=
  if starts_with (chars "echo_server") arg then Some EchoServer
  else if starts_with (chars "echo_client") arg then Some EchoClient
  else if starts_with (chars "echo_thread_client") arg then Some EchoThreadClient
  else None.

Definition EINVAL : Z := 22.

(** [main] up to its loops: [Exits] is the status it returns; the client with threads
    returns as soon as it has started them. *)
Inductive ustart : Type := Exits (status : Z) | Serves | Asks.

Definition udp_main (socket_ok bind_ok : bool) (create_ok : nat -> bool) (inet_aton : list ascii -> bool)
    (args : list (list ascii)) : ustart :=
  match args with
  | [] => Exits 0
  | arg :: rest =>
      if negb socket_ok then Exits (-1)
      else match echo_mode arg with
           | None => Exits 0
           | Some EchoServer => if bind_ok then Serves else Exits (-1)
           | Some m =>
               match rest with
               | [] => Exits 0
               | ip :: _ =>
                   if negb (inet_aton ip) then Exits (- EINVAL)
                   else match m with
                        | EchoThreadClient =>
                            if create_ok 0%nat && create_ok 1%nat then Exits 0 else Exits (-1)
                        | _ => Asks
                        end
               end
           end
  end.

(** ** The two programs and a network that loses nothing *)

(** A round: the client's packet reaches the server, whose packet reaches the client. *)
Definition echo_round (my_seq_no : Z) : res (client_io * list Z) :=
  '(_, _, _, p) ← sender true msg_len my_seq_no;
  let '(_, _, back) := echoer true (Some p) (fun b => Z.of_nat (length b)) in
  Ok (ClientIo true msg_len true back, p).

Fixpoint echo_rounds (k : nat) (my_seq_no : Z) : res (list client_io) :=
  match k with
  | O => Ok []
  | S k =>
      '(io, _) ← echo_round my_seq_no;
      rest ← echo_rounds k (my_seq_no + 1);
      Ok (io :: rest)
  end.

(** ** Messages *)

Lemma packet_length seq_no : Z.of_nat (length (packet seq_no)) = msg_len.
Proof.
  unfold packet. rewrite !length_app, length_replicate. cbn [length le_bytes]. unfold msg_len, packet_size. lia.
Qed.

Lemma packet_received seq_no : received true (Some (packet seq_no)) = Some (packet seq_no).
Proof.
  change (received true (Some (packet seq_no))) with (Some (take (Z.to_nat msg_len) (packet seq_no))).
  rewrite take_ge; [done|]. pose proof (packet_length seq_no). lia.
Qed.

(** The number of a message is read back as it was stored. *)
Lemma packet_seq_no seq_no : 0 <= seq_no <= INT_MAX -> msg_seq_no (packet seq_no) = seq_no.
Proof.
  intros Hs. unfold msg_seq_no, packet. rewrite take_app_length' by done.
  assert (E : le_value (le_bytes seq_no) = seq_no).
  { unfold le_value, le_bytes, INT_MAX in *. cbn [foldr]. Z.div_mod_to_equations. lia. }
  rewrite E. apply swrap_small; [lia|]. unfold INT_MAX in Hs. lia.
Qed.

(** ** The theorems *)

(** A faultless exchange of one message. The number that the check compares with is
    already the next one. *)
Lemma echo_round_ok n :
  0 <= n < INT_MAX ->
  echo_round n = Ok (ClientIo true msg_len true (Some (packet n)), packet n).
Proof.
  intros Hn. unfold echo_round, sender, get_my_seq_number. rewrite ub_unless_true by done.
  rewrite int_of_Ok by (unfold INT_MIN; lia). rewrite !bind_Ok. unfold echoer. rewrite packet_received.
  cbv zeta. rewrite packet_length, (proj2 (Z.ltb_ge _ _)) by (unfold msg_len, packet_size; lia). done.
Qed.

Lemma client_round n rounds :
  0 <= n -> n + 1 < INT_MAX ->
  client_loop (ClientIo true msg_len true (Some (packet n)) :: rounds) n =
    ('(lines, e) ← client_loop rounds (n + 1); Ok ([Tx n; Rx n] ++ lines, e)).
Proof.
  intros Hn Hmax. cbn [client_loop ci_malloc ci_send ci_malloc' ci_recv].
  unfold sender, get_my_seq_number. rewrite ub_unless_true by done.
  rewrite int_of_Ok by (unfold INT_MIN; lia). rewrite !bind_Ok.
  rewrite (proj2 (Z.ltb_ge _ _)) by (unfold msg_len, packet_size; lia).
  unfold recver. rewrite packet_received, packet_length, Z.eqb_refl. cbv zeta.
  unfold verify_seq_number. rewrite int_of_Ok by (unfold INT_MIN; lia). rewrite !bind_Ok.
  rewrite packet_seq_no by lia. done.
Qed.

Lemma sender_lines m send n rc next tx p :
  sender m send n = Ok (rc, next, tx, p) -> rc = send /\ next = n + 1 /\ tx = [Tx n].
Proof.
  unfold sender, get_my_seq_number. intros H. inv_res. by simplify_eq.
Qed.

Lemma recver_lines m recv n rc rx :
  recver m recv n = Ok (rc, rx) ->
  (rc = -1 /\ rx = [RecvFailed]) \/ (rc = - EMSGSIZE /\ rx = [BadMsg]) \/ (rc = 0 /\ exists k, rx = [Rx k]).
Proof.
  unfold recver, verify_seq_number. intros H. destruct (received m recv) as [b|]; [|inv_res; by left; simplify_eq].
  destruct (_ =? msg_len); cbv zeta in H; inv_res; [|by right; left; simplify_eq].
  right; right. cbn in *. simplify_eq. eauto.
Qed.

(** The client never reports a bad sequence number, whatever comes back, in any order:
    it ends only when it receives nothing, something of another size, or cannot
    send. *)
Theorem client_never_reports rounds n lines e :
  client_loop rounds n = Ok (lines, e) ->
  (forall seq_no, BadSequence seq_no ∉ lines) /\
  (forall status, e = Returns status ->
     status = -1 \/ status = - EMSGSIZE \/ exists io, io ∈ rounds /\ status = ci_send io).
Proof.
  revert n lines e. induction rounds as [|io rounds IH]; intros n lines e H; cbn [client_loop] in H.
  { injection H as <- <-. split; [intros; by apply not_elem_of_nil|done]. }
  apply bind_Ok_inv in H as ([[[rc next] tx] p] & Hs & H).
  apply sender_lines in Hs as (-> & -> & ->).
  destruct (ci_send io <? 0).
  { injection H as <- <-. split; [intros seq_no; set_solver|].
    intros status [= <-]. right; right. exists io. split; [by left|done]. }
  apply bind_Ok_inv in H as ([rc' rx] & Hr & H).
  assert (Hrx : forall seq_no, BadSequence seq_no ∉ rx).
  { intros seq_no. apply recver_lines in Hr as [[_ ->]|[[_ ->]|[_ [k ->]]]]; set_solver. }
  destruct (Z.ltb_spec rc' 0).
  { injection H as <- <-. split; [intros seq_no; specialize (Hrx seq_no); set_solver|].
    intros status [= <-]. apply recver_lines in Hr as [[-> _]|[[-> _]|[-> _]]]; [by auto..|lia]. }
  apply bind_Ok_inv in H as ([lines' e'] & H' & H). injection H as <- <-.
  destruct (IH _ _ _ H') as [IH1 IH2]. split.
  - intros seq_no. specialize (Hrx seq_no). specialize (IH1 seq_no). set_solver.
  - intros status E. destruct (IH2 status E) as [|[|(io' & Hin & ->)]]; auto.
    right; right. exists io'. split; [by right|done].
Qed.

(** With a server behind a network that loses nothing, the client goes round for as
    long as the numbers fit an int, and prints each number as sent and as received.
    In each of these rounds the check fails, if anybody looked. *)
Theorem echo_client_works k n :
  0 <= n -> n + Z.of_nat k < INT_MAX ->
  exists rounds, echo_rounds k n = Ok rounds /\
    client_loop rounds n =
      Ok (flat_map (fun i => [Tx (n + Z.of_nat i); Rx (n + Z.of_nat i)]) (seq 0 k), GoesOn (n + Z.of_nat k)) /\
    (forall i io b, rounds !! i = Some io -> ci_recv io = Some b ->
       seq_check (n + Z.of_nat i + 1) (msg_seq_no b) = -1).
Proof.
  revert n. induction k as [|k IH]; intros n Hn Hmax.
  { exists []. split; [done|]. split; [|done]. cbn. do 2 f_equal. f_equal. lia. }
  destruct (IH (n + 1)) as (rounds & E1 & E2 & E3); [lia..|].
  exists (ClientIo true msg_len true (Some (packet n)) :: rounds). split; [|split].
  - cbn [echo_rounds]. rewrite echo_round_ok, bind_Ok by lia. by rewrite E1, bind_Ok.
  - rewrite client_round, E2, bind_Ok by lia. cbn [seq flat_map]. rewrite Z.add_0_r.
    do 2 f_equal; [|f_equal; lia].
    f_equal. rewrite <- seq_shift, !flat_map_concat_map, map_map. f_equal. apply map_ext.
    intros i. by replace (n + Z.of_nat (S i)) with (n + 1 + Z.of_nat i) by lia.
  - intros [|i] io b Hio Hb; cbn in Hio.
    + injection Hio as <-. change (Some (packet n) = Some b) in Hb. apply (inj Some) in Hb as <-.
      rewrite packet_seq_no by lia. unfold seq_check. by rewrite (proj2 (Z.eqb_neq _ _)) by lia.
    + specialize (E3 i io b Hio Hb). by replace (n + Z.of_nat (S i) + 1) with (n + 1 + Z.of_nat i + 1) by lia.
Qed.

(** The client with threads does nothing: [main] returns, which ends them. *)
Theorem thread_client_exits create_ok aton ip rest :
  aton ip = true -> create_ok 0%nat = true -> create_ok 1%nat = true ->
  udp_main true true create_ok aton (chars "echo_thread_client" :: ip :: rest) = Exits 0.
Proof. intros Ha H0 H1. cbn. by rewrite Ha, H0, H1. Qed.
