(* ===== verification/Tsearch.v ===== *)
(** * The search tree example src/gnu_tsearch.c

    Twelve random numbers are put into a tree of the C library, printed and freed.
    The library's functions are an interface with the laws its manual states; the
    program is proved against the interface, and a plain search tree meets it. *)
From stdpp Require Import base list gmap sorting.
From Stdlib Require Import ZArith Lia.
From S2P Require Import Prelude.

Open Scope Z_scope.

(** ** The interface of <search.h> *)

Inductive VISIT : Type := preorder | postorder | endorder | leaf.

(** The program's trees hold pointers, here the numbers of the allocations. *)
Class SearchTree (T : Type) : Type := {
  ts_null : T;
  ts_keys : T -> list nat;                     (* in order *)
  (* the comparison, whether there is room for a node, the pointer *)
  tsearch : (nat -> nat -> Z) -> bool -> nat -> T -> option nat * T;
  twalk : T -> list (VISIT * nat);             (* the calls of the action *)
  tdestroy : T -> list nat;                    (* the calls of the free function *)
}.

(** A comparison function orders the pointers. *)
Record comparison (cmp : nat -> nat -> Z) : Prop := {
  cmp_opp a b : cmp a b < 0 <-> 0 < cmp b a;
  cmp_trans a b c : cmp a b <= 0 -> cmp b c < 0 -> cmp a c < 0;
  cmp_trans_r a b c : cmp a b < 0 -> cmp b c <= 0 -> cmp a c < 0;
}.

Definition ordered (cmp : nat -> nat -> Z) : list nat -> Prop :=
  StronglySorted (fun a b => cmp a b < 0).

(** The visit that comes first, of an inner node or of a leaf. *)
Definition first_visit (v : VISIT) : bool :=
  match v with preorder | leaf => true | _ => false end.

Definition visited (calls : list (VISIT * nat)) : list nat :=
  omap (fun c => if first_visit c.1 then Some c.2 else None) calls.

Class SearchLaws (T : Type) `{SearchTree T} : Prop := {
  keys_null : ts_keys ts_null = [];
  tsearch_found cmp room p k t :
    comparison cmp -> ordered cmp (ts_keys t) -> k ∈ ts_keys t -> cmp p k = 0 ->
    exists t', tsearch cmp room p t = (Some k, t') /\ ts_keys t' = ts_keys t;
  tsearch_new cmp p t :
    comparison cmp -> ordered cmp (ts_keys t) -> Forall (fun k => cmp p k <> 0) (ts_keys t) ->
    exists t', tsearch cmp true p t = (Some p, t') /\
      ts_keys t' ≡ₚ p :: ts_keys t /\ ordered cmp (ts_keys t');
  tsearch_full cmp p t :
    comparison cmp -> ordered cmp (ts_keys t) -> Forall (fun k => cmp p k <> 0) (ts_keys t) ->
    exists t', tsearch cmp false p t = (None, t') /\ ts_keys t' = ts_keys t;
  twalk_once t : visited (twalk t) ≡ₚ ts_keys t;
  tdestroy_once t : tdestroy t ≡ₚ ts_keys t;
}.

(** ** The program *)

(** The blocks that [xmalloc] has returned and nobody has freed. *)
Abbreviation heap := (gmap nat Z).

Definition load (h : heap) (p : nat) : res Z :=
  match h !! p with Some v => Ok v | None => Undef end.

Definition free (h : heap) (p : nat) : res heap :=
  match h !! p with Some _ => Ok (delete p h) | None => Undef end.

(** [compare] on the ints that the pointers point to. *)
Definition compare (a b : Z) : Z := if a <? b then -1 else if b <? a then 1 else 0.

(** The library calls [compare] with the new pointer and pointers of the tree; they
    must all be valid. *)
Definition compare_ptrs (h : heap) (pa pb : nat) : Z :=
  compare (default 0 (h !! pa)) (default 0 (h !! pb)).

Definition valid (h : heap) (ps : list nat) : bool := forallb (fun p => bool_decide (is_Some (h !! p))) ps.

(** [xmalloc]: the block of round [i], or the end of the program. *)
Definition xmalloc (ok : bool) (i : nat) : option nat := if ok then Some i else None.

(** [action]: the number it prints. *)
Definition action (h : heap) (which : VISIT) (p : nat) : res (list Z) :=
  match which with
  | preorder | leaf => datap ← load h p; Ok [datap]
  | _ => Ok []
  end.

(** How the program ends: EXIT_FAILURE, or EXIT_SUCCESS with the lines printed and
    the blocks that are still allocated. *)
Inductive tsexit : Type := ExitFailure | ExitSuccess (out : list Z) (h : heap).

Section Program.
Context {T : Type} `{SearchTree T}.
(** The results of [rand], of the calls of [malloc] and of those inside [tsearch]. *)
Context (rnd : nat -> Z) (mallocs room : nat -> bool).

(** The loop, for the rounds left; [None] is [exit(EXIT_FAILURE)]. *)
Fixpoint insert_loop (rounds i : nat) (h : heap) (root : T) : res (option (heap * T)) :=
  match rounds with
  | O => Ok (Some (h, root))
  | S rounds =>
      match xmalloc (mallocs i) i with
      | None => Ok None
      | Some ptr =>
          let h := <[ptr := Z.land (rnd i) 255]> h in
          ub_unless (valid h (ptr :: ts_keys root))
            (let '(val, root) := tsearch (compare_ptrs h) (room i) ptr root in
             match val with
             | None => Ok None
             | Some key =>
                 h ← (if bool_decide (key <> ptr) then free h ptr else Ok h);
                 insert_loop rounds (S i) h root
             end)
      end
  end.

Fixpoint walk_loop (h : heap) (calls : list (VISIT * nat)) : res (list Z) :=
  match calls with
  | [] => Ok []
  | (which, p) :: calls => out ← action h which p; rest ← walk_loop h calls; Ok (out ++ rest)
  end.

Fixpoint free_all (h : heap) (ps : list nat) : res heap :=
  match ps with [] => Ok h | p :: ps => h ← free h p; free_all h ps end.

Definition ts_main : res tsexit :=
  r ← insert_loop 12 0 ∅ ts_null;
  match r with
  | None => Ok ExitFailure
  | Some (h, root) =>
      out ← walk_loop h (twalk root);
      h ← free_all h (tdestroy root);
      Ok (ExitSuccess out h)
  end.
End Program.

(** ** Comparisons of the ints in the heap *)

Lemma compare_lt a b : compare a b < 0 <-> a < b.
Proof. unfold compare. destruct (Z.ltb_spec a b), (Z.ltb_spec b a); lia. Qed.

Lemma compare_eq a b : compare a b = 0 <-> a = b.
Proof. unfold compare. destruct (Z.ltb_spec a b), (Z.ltb_spec b a); lia. Qed.

Lemma compare_ptrs_order h : comparison (compare_ptrs h).
Proof.
  constructor; unfold compare_ptrs, compare; intros *; repeat case_Z; lia.
Qed.

Lemma ordered_ext cmp cmp' l :
  (forall a b, a ∈ l -> b ∈ l -> cmp a b = cmp' a b) -> ordered cmp l -> ordered cmp' l.
Proof.
  intros He. induction 1 as [|x l Hs IH Hf]; [by constructor|]. constructor.
  - apply IH. intros a b Ha Hb. apply He; by right.
  - rewrite Forall_forall in Hf |- *. intros y Hy. rewrite <- He; [by apply Hf|left|by right].
Qed.

Definition values (h : heap) (ps : list nat) : list Z := (fun p => default 0 (h !! p)) <$> ps.

Lemma ordered_values h l : ordered (compare_ptrs h) l -> NoDup (values h l).
Proof.
  induction 1 as [|x l Hs IH Hf]; [by constructor|]. cbn. constructor; [|done].
  rewrite Forall_forall in Hf. intros (y & E & Hy)%list_elem_of_fmap.
  specialize (Hf y Hy). unfold compare_ptrs in Hf. rewrite E in Hf. by apply compare_lt, Z.lt_irrefl in Hf.
Qed.

(** ** The program against the interface *)

Section Correct.
Context {T : Type} `{SearchLaws T} (rnd : nat -> Z) (mallocs room : nat -> bool).

Definition nth_value (i : nat) : Z := Z.land (rnd i) 255.

(** After [i] rounds the blocks are those of the tree, which holds each number
    once. *)
Record tree_inv (i : nat) (h : heap) (root : T) : Prop := {
  ti_ordered : ordered (compare_ptrs h) (ts_keys root);
  ti_heap p : is_Some (h !! p) <-> p ∈ ts_keys root;
  ti_fresh p : p ∈ ts_keys root -> (p < i)%nat;
  ti_values v : v ∈ values h (ts_keys root) <-> exists j, (j < i)%nat /\ v = nth_value j;
}.

Lemma tree_inv_0 : tree_inv 0 ∅ ts_null.
Proof.
  constructor; rewrite keys_null.
  - constructor.
  - intros p. rewrite lookup_empty, elem_of_nil. by split; [intros []|].
  - by intros p ?%elem_of_nil.
  - intros v. split; [by intros ?%elem_of_nil|intros (j & ? & _); lia].
Qed.

Lemma fresh_ptr i h root : tree_inv i h root -> h !! i = None.
Proof.
  intros Hi. destruct (h !! i) eqn:E; [|done].
  assert (Hk : i ∈ ts_keys root) by by apply (ti_heap _ _ _ Hi); eauto.
  apply (ti_fresh _ _ _ Hi) in Hk. lia.
Qed.

(** The new block does not change what the others hold. *)
Lemma compare_ptrs_insert i h root v a b :
  tree_inv i h root -> a ∈ ts_keys root -> b ∈ ts_keys root ->
  compare_ptrs h a b = compare_ptrs (<[i := v]> h) a b.
Proof.
  intros Hi Ha%(ti_fresh _ _ _ Hi) Hb%(ti_fresh _ _ _ Hi). unfold compare_ptrs.
  by rewrite !lookup_insert_ne by lia.
Qed.

Lemma values_insert i h root v :
  tree_inv i h root -> values (<[i := v]> h) (ts_keys root) = values h (ts_keys root).
Proof.
  intros Hi. unfold values. apply list_fmap_ext. intros k p Hp%list_elem_of_lookup_2.
  apply (ti_fresh _ _ _ Hi) in Hp. by rewrite lookup_insert_ne by lia.
Qed.

Lemma tree_inv_found i h root root' :
  tree_inv i h root -> nth_value i ∈ values h (ts_keys root) ->
  ts_keys root' = ts_keys root -> tree_inv (S i) h root'.
Proof.
  intros [Ho Hh Hf Hv] Hin E. constructor; rewrite E; [done..| |].
  - intros p Hp%Hf. lia.
  - intros v. rewrite Hv. split.
    + intros (j & Hj & ->). exists j. split; [lia|done].
    + intros (j & Hj & ->). destruct (decide (j = i)) as [->|Hne]; [by apply Hv|].
      exists j. split; [lia|done].
Qed.

Lemma tree_inv_new i h root root' :
  tree_inv i h root -> ts_keys root' ≡ₚ i :: ts_keys root ->
  ordered (compare_ptrs (<[i := nth_value i]> h)) (ts_keys root') ->
  tree_inv (S i) (<[i := nth_value i]> h) root'.
Proof.
  intros Hi E Ho. constructor; [done| | |].
  - intros p. rewrite lookup_insert_is_Some', E, elem_of_cons, (ti_heap _ _ _ Hi).
    naive_solver.
  - intros p. rewrite E, elem_of_cons. intros [->|Hp%(ti_fresh _ _ _ Hi)]; lia.
  - intros v. unfold values. rewrite E. fold (values (<[i := nth_value i]> h)).
    rewrite fmap_cons, elem_of_cons, lookup_insert_eq. cbn [default].
    fold (values (<[i := nth_value i]> h) (ts_keys root)).
    rewrite (values_insert _ _ _ _ Hi), (ti_values _ _ _ Hi). split.
    + intros [->|(j & Hj & ->)]; eexists; (split; [|done]); lia.
    + intros (j & Hj & ->). destruct (decide (j = i)) as [->|]; [by left|].
      right. exists j. split; [lia|done].
Qed.

Lemma valid_all h ps : Forall (fun p => is_Some (h !! p)) ps -> valid h ps = true.
Proof. intros Hf. apply forallb_forall. intros p Hp%list_elem_of_In. rewrite Forall_forall in Hf. apply bool_decide_eq_true. auto. Qed.

(** One round either ends the program, because an allocation fails, or keeps the
    invariant. *)
Lemma insert_round rounds i h root :
  tree_inv i h root -> mallocs i = true ->
  (exists h' root', tree_inv (S i) h' root' /\
     insert_loop rnd mallocs room (S rounds) i h root = insert_loop rnd mallocs room rounds (S i) h' root') \/
  (room i = false /\ insert_loop rnd mallocs room (S rounds) i h root = Ok None).
Proof.
  intros Hi Hm. cbn [insert_loop]. rewrite Hm. cbn [xmalloc]. fold (nth_value i).
  set (h1 := <[i := nth_value i]> h). set (keys := ts_keys root).
  pose proof (compare_ptrs_order h1) as Hc.
  assert (Ho : ordered (compare_ptrs h1) keys).
  { eapply ordered_ext; [|by eapply ti_ordered]. intros a b. by eapply compare_ptrs_insert. }
  rewrite ub_unless_true.
  2: { apply valid_all, Forall_cons. unfold h1. split; [by rewrite lookup_insert_eq; eauto|].
       apply Forall_forall. intros p Hp%(ti_heap _ _ _ Hi). rewrite lookup_insert_is_Some'. by right. }
  assert (Hval : forall k, k ∈ keys -> compare_ptrs h1 i k = 0 <-> nth_value i = default 0 (h !! k)).
  { intros k Hk%(ti_fresh _ _ _ Hi). unfold compare_ptrs, h1.
    rewrite lookup_insert_eq, lookup_insert_ne by lia. apply compare_eq. }
  destruct (decide (nth_value i ∈ values h keys)) as [Hin|Hnin].
  - left. pose proof Hin as (k & Ek & Hk)%list_elem_of_fmap.
    destruct (tsearch_found (compare_ptrs h1) (room i) i k root) as (root' & -> & Ekeys);
      [done..|by apply Hval|].
    assert (Hne : k <> i) by (apply (ti_fresh _ _ _ Hi) in Hk; lia).
    exists h, root'. split; [by eapply tree_inv_found|].
    rewrite bool_decide_eq_true_2 by done. unfold free, h1. rewrite lookup_insert_eq, bind_Ok.
    by rewrite delete_insert_id by by eapply fresh_ptr.
  - assert (Hf : Forall (fun k => compare_ptrs h1 i k <> 0) keys).
    { apply Forall_forall. intros k Hk E. apply Hnin, list_elem_of_fmap. exists k.
      split; [by apply Hval|done]. }
    destruct (room i) eqn:Hr.
    + left. destruct (tsearch_new (compare_ptrs h1) i root) as (root' & -> & Ekeys & Ho'); [done..|].
      exists h1, root'. split; [by apply (tree_inv_new _ _ root)|].
      by rewrite bool_decide_eq_false_2 by naive_solver.
    + right. destruct (tsearch_full (compare_ptrs h1) i root) as (root' & -> & _); done.
Qed.

Lemma insert_loop_spec rounds i h root :
  tree_inv i h root ->
  (exists h' root', insert_loop rnd mallocs room rounds i h root = Ok (Some (h', root')) /\
     tree_inv (i + rounds) h' root') \/
  (insert_loop rnd mallocs room rounds i h root = Ok None /\
   exists j, (i <= j < i + rounds)%nat /\ (mallocs j = false \/ room j = false)).
Proof.
  revert i h root. induction rounds as [|rounds IH]; intros i h root Hi.
  { left. exists h, root. by rewrite Nat.add_0_r. }
  destruct (mallocs i) eqn:Hm.
  2: { right. split; [by cbn; rewrite Hm|]. exists i. split; [lia|by left]. }
  destruct (insert_round rounds i h root Hi Hm) as [(h' & root' & Hi' & ->)|[Hr ->]].
  - destruct (IH _ _ _ Hi') as [(h2 & root2 & -> & Hi2)|(-> & j & Hj & Hfail)].
    + left. exists h2, root2. split; [done|]. by replace (i + S rounds)%nat with (S i + rounds)%nat by lia.
    + right. split; [done|]. exists j. split; [lia|done].
  - right. split; [done|]. exists i. split; [lia|by right].
Qed.

Lemma walk_loop_spec h calls :
  Forall (fun p => is_Some (h !! p)) (visited calls) ->
  walk_loop h calls = Ok (values h (visited calls)).
Proof.
  induction calls as [|[which p] calls IH]; intros Hf; [done|].
  cbn [walk_loop visited omap list_omap fst snd] in *. unfold action, load.
  destruct which; cbn [first_visit] in *; try (rewrite bind_Ok, IH by done; reflexivity);
    apply Forall_cons in Hf as [[v Hv] Hf]; rewrite Hv, bind_Ok, bind_Ok, IH by done; cbn; by rewrite Hv.
Qed.

Lemma free_all_spec h ps :
  NoDup ps -> (forall p, is_Some (h !! p) <-> p ∈ ps) -> free_all h ps = Ok ∅.
Proof.
  revert h. induction ps as [|p ps IH]; intros h Hnd Hd; cbn.
  - f_equal. apply map_eq. intros p. rewrite lookup_empty. apply eq_None_not_Some.
    rewrite Hd. apply not_elem_of_nil.
  - apply NoDup_cons in Hnd as [Hp Hnd]. unfold free.
    destruct (proj2 (Hd p) ltac:(by left)) as [v ->]. rewrite bind_Ok. apply IH; [done|].
    intros q. rewrite lookup_delete_is_Some, Hd, elem_of_cons. naive_solver.
Qed.

Lemma ts_main_ok :
  (exists j, (j < 12)%nat /\ (mallocs j = false \/ room j = false) /\
     ts_main (T := T) rnd mallocs room = Ok ExitFailure) \/
  (exists out, ts_main (T := T) rnd mallocs room = Ok (ExitSuccess out ∅) /\ NoDup out /\
     forall v, v ∈ out <-> exists j, (j < 12)%nat /\ v = nth_value j).
Proof.
  unfold ts_main.
  destruct (insert_loop_spec 12 0 ∅ ts_null tree_inv_0) as [(h & root & -> & Hi)|(-> & j & Hj & Hfail)].
  - right. rewrite bind_Ok. destruct Hi as [Ho Hh Hf Hv].
    pose proof (twalk_once root) as Ew. pose proof (tdestroy_once root) as Ed.
    assert (Hnd : NoDup (values h (ts_keys root))) by by apply ordered_values.
    rewrite walk_loop_spec, bind_Ok.
    2: { rewrite Ew. apply Forall_forall. intros p. apply Hh. }
    rewrite free_all_spec; [|rewrite Ed; by apply NoDup_fmap_1 in Hnd|intros p; by rewrite Ed].
    exists (values h (visited (twalk root))). split; [done|].
    assert (E : values h (visited (twalk root)) ≡ₚ values h (ts_keys root)) by (unfold values; by rewrite Ew).
    split; [by rewrite E|]. intros v. rewrite E. apply Hv.
  - left. exists j. by split; [lia|].
Qed.
End Correct.

(** C29. The example of the search tree, with any implementation of the library's
    functions: unless an allocation fails, which ends it with EXIT_FAILURE, it
    prints each of the twelve numbers that occurs exactly once, however often it was
    drawn, it never touches a freed block, and at the end it has freed every block
    it allocated, each once. *)
Theorem ts_main_spec {T} `{SearchLaws T} rnd mallocs room :
  exists r, ts_main (T := T) rnd mallocs room = Ok r /\
  match r with
  | ExitFailure => exists j, (j < 12)%nat /\ (mallocs j = false \/ room j = false)
  | ExitSuccess out h => h = ∅ /\ NoDup out /\
      forall v, v ∈ out <-> exists j, (j < 12)%nat /\ v = Z.land (rnd j) 255
  end.
Proof.
  destruct (ts_main_ok (T := T) rnd mallocs room) as [(j & Hj & Hf & E)|(out & E & Hnd & Hv)].
  - exists ExitFailure. split; [done|]. by exists j.
  - exists (ExitSuccess out ∅). split; [done|]. split; [done|]. by split.
Qed.

(** ** A plain search tree meets the interface *)

Inductive tree : Type := Nil | Node (l : tree) (k : nat) (r : tree).

Fixpoint keys (t : tree) : list nat :=
  match t with Nil => [] | Node l k r => keys l ++ k :: keys r end.

Fixpoint insert_key (cmp : nat -> nat -> Z) (room : bool) (p : nat) (t : tree) : option nat * tree :=
  match t with
  | Nil => if room then (Some p, Node Nil p Nil) else (None, Nil)
  | Node l k r =>
      if cmp p k =? 0 then (Some k, t)
      else if cmp p k <? 0 then
        let '(v, l') := insert_key cmp room p l in (v, Node l' k r)
      else let '(v, r') := insert_key cmp room p r in (v, Node l k r')
  end.

Fixpoint walk (t : tree) : list (VISIT * nat) :=
  match t with
  | Nil => []
  | Node Nil k Nil => [(leaf, k)]
  | Node l k r => (preorder, k) :: walk l ++ (postorder, k) :: walk r ++ [(endorder, k)]
  end.

#[export] Instance tree_search : SearchTree tree := {
  ts_null := Nil; ts_keys := keys; tsearch := insert_key; twalk := walk; tdestroy := keys;
}.

Lemma ordered_node cmp l k r :
  ordered cmp (keys (Node l k r)) <->
  ordered cmp (keys l) /\ ordered cmp (keys r) /\
  (forall x, x ∈ keys l -> cmp x k < 0) /\ (forall x, x ∈ keys r -> cmp k x < 0) /\
  (forall x y, x ∈ keys l -> y ∈ keys r -> cmp x y < 0).
Proof.
  cbn. unfold ordered. rewrite StronglySorted_app, StronglySorted_cons, Forall_forall.
  setoid_rewrite elem_of_cons. naive_solver.
Qed.

Section Tree.
Context (cmp : nat -> nat -> Z) (Hc : comparison cmp).

Lemma insert_found room p k t :
  ordered cmp (keys t) -> k ∈ keys t -> cmp p k = 0 -> insert_key cmp room p t = (Some k, t).
Proof.
  intros Ho Hk E. induction t as [|l IHl k' r IHr]; [by apply elem_of_nil in Hk|].
  apply ordered_node in Ho as (Hl & Hr & Hlk & Hkr & _). cbn in *.
  apply elem_of_app in Hk as [Hk|[->|Hk]%elem_of_cons].
  - pose proof (cmp_trans _ Hc p k k' ltac:(lia) (Hlk k Hk)).
    destruct (Z.eqb_spec (cmp p k') 0); [lia|]. rewrite (proj2 (Z.ltb_lt _ _)) by done.
    by rewrite IHl.
  - by rewrite E.
  - pose proof (proj1 (cmp_opp _ Hc k' k) (Hkr k Hk)) as H1.
    assert (H2 : 0 < cmp p k').
    { apply (cmp_opp _ Hc). apply (cmp_trans_r _ Hc _ k); [by apply Hkr|].
      destruct (Z.le_gt_cases (cmp k p) 0); [done|]. apply Z.lt_gt, Z.gt_lt, (cmp_opp _ Hc) in H. lia. }
    destruct (Z.eqb_spec (cmp p k') 0); [lia|]. rewrite (proj2 (Z.ltb_ge _ _)) by lia.
    by rewrite IHr.
Qed.

Lemma insert_new p t :
  ordered cmp (keys t) -> Forall (fun k => cmp p k <> 0) (keys t) ->
  exists t', insert_key cmp true p t = (Some p, t') /\
    keys t' ≡ₚ p :: keys t /\ ordered cmp (keys t').
Proof.
  intros Ho Hf. induction t as [|l IHl k r IHr].
  { exists (Node Nil p Nil). split; [done|]. split; [done|]. repeat constructor. }
  apply ordered_node in Ho as (Hl & Hr & Hlk & Hkr & Hlr). cbn in *.
  apply Forall_app in Hf as [Hfl Hfr]. apply Forall_cons in Hfr as [Hk Hfr].
  destruct (Z.eqb_spec (cmp p k) 0); [done|].
  destruct (Z.ltb_spec (cmp p k) 0) as [Hlt|Hge].
  - destruct (IHl Hl Hfl) as (l' & -> & Ep & Ho). exists (Node l' k r). split; [done|].
    split; [cbn; by rewrite Ep|]. apply ordered_node.
    assert (Em : forall x, x ∈ keys l' <-> x = p \/ x ∈ keys l) by (intros x; by rewrite Ep, elem_of_cons).
    setoid_rewrite Em. split_and!; try done; [naive_solver|].
    intros x y [->|Hx] Hy; [|by apply Hlr]. eapply (cmp_trans _ Hc _ k); [lia|by apply Hkr].
  - assert (Hkp : cmp k p < 0) by (apply (cmp_opp _ Hc); lia).
    destruct (IHr Hr Hfr) as (r' & -> & Ep & Ho). exists (Node l k r'). split; [done|].
    split; [cbn; rewrite Ep; by rewrite <- !Permutation_middle, (Permutation_swap p k)|].
    apply ordered_node.
    assert (Em : forall x, x ∈ keys r' <-> x = p \/ x ∈ keys r) by (intros x; by rewrite Ep, elem_of_cons).
    setoid_rewrite Em. split_and!; try done; [naive_solver|].
    intros x y Hx [->|Hy]; [|by apply Hlr]. eapply (cmp_trans _ Hc _ k); [|done].
    specialize (Hlk x Hx). lia.
Qed.

Lemma insert_full p t :
  ordered cmp (keys t) -> Forall (fun k => cmp p k <> 0) (keys t) ->
  insert_key cmp false p t = (None, t).
Proof.
  intros _ Hf. induction t as [|l IHl k r IHr]; [done|]. cbn in *.
  apply Forall_app in Hf as [Hfl Hfr]. apply Forall_cons in Hfr as [Hk Hfr].
  destruct (Z.eqb_spec (cmp p k) 0); [done|].
  destruct (Z.ltb_spec (cmp p k) 0); [by rewrite IHl|by rewrite IHr].
Qed.
End Tree.

Lemma visited_app l1 l2 : visited (l1 ++ l2) = visited l1 ++ visited l2.
Proof. apply omap_app. Qed.

Lemma walk_visits t : visited (walk t) ≡ₚ keys t.
Proof.
  induction t as [|l IHl k r IHr]; [done|].
  assert (E : l = Nil /\ r = Nil \/ walk (Node l k r) =
    (preorder, k) :: walk l ++ (postorder, k) :: walk r ++ [(endorder, k)]).
  { destruct l, r; [by left|by right..]. }
  destruct E as [ [-> ->] | -> ]; [done|]. cbn [keys].
  change (visited ((preorder, k) :: ?cs)) with (k :: visited cs).
  rewrite visited_app. change (visited ((postorder, k) :: ?cs)) with (visited cs).
  rewrite visited_app. change (visited [(endorder, k)]) with (@nil nat).
  by rewrite app_nil_r, IHl, IHr, Permutation_middle.
Qed.

#[export] Instance tree_laws : SearchLaws tree.
Proof.
  constructor.
  - done.
  - intros * Hc Ho Hk E. exists t. split; [by apply insert_found|done].
  - intros * Hc. by apply insert_new.
  - intros * Hc Ho Hf. exists t. split; [by eapply insert_full|done].
  - apply walk_visits.
  - done.
Qed.

Lemma ts_main_spec_witness :
  exists r, ts_main (T := tree) (fun j => Z.of_nat (j mod 5)) (fun _ => true) (fun _ => true) = Ok r /\
  match r with
  | ExitFailure => exists j, (j < 12)%nat /\ (true = false \/ true = false)
  | ExitSuccess out h => h = ∅ /\ NoDup out /\
      forall v, v ∈ out <-> exists j, (j < 12)%nat /\ v = Z.land (Z.of_nat (j mod 5)) 255
  end.
Proof.
  exact (ts_main_spec (T := tree) (fun j => Z.of_nat (j mod 5)) (fun _ => true) (fun _ => true)).
Defined.

(** The lines are in the order of the walk, not sorted. *)
Example ts_main_unsorted :
  ts_main (T := tree) (fun j => 10 - Z.of_nat (j mod 3) * (Z.of_nat j)) (fun _ => true) (fun _ => true) =
  Ok (ExitSuccess [10; 9; 6; 0; 3; 250; 244] ∅).
Proof. vm_compute. reflexivity. Qed.
