(* ===== verification/Cpukhz.v ===== *)
(** * The processor's frequency: src/cpukhz.c

    The line of the processor's frequency is looked for in a file and the number
    after its colon is converted. The conversion of the text to a float and of the
    float times 1000 to an unsigned long are arguments. *)
From stdpp Require Import base list strings.
From Stdlib Require Import ZArith Lia Ascii.
From S2P Require Import Prelude Stdio.

Open Scope Z_scope.

Definition CPU_MHZ_STR : list ascii := chars "cpu MHz".
Definition CPU_INFO_STR_LEN_MAX : Z := 100.
Definition colon : ascii := ":"%char.

(** What [fgets] leaves in the array: the line, a NUL, and behind it what was there
    before. *)
Definition store_line (buf : blk ascii) (line : list ascii) : blk ascii :=
  (Some <$> line ++ [NUL]) ++ drop (S (length line)) buf.

(** [strncmp(cpu_info_str, CPU_MHZ_STR, strlen(CPU_MHZ_STR)) == 0]. *)
Definition is_mhz_line (line : list ascii) : bool :=
  bool_decide (take (length CPU_MHZ_STR) (line ++ [NUL]) = CPU_MHZ_STR).

(** The [while] loop: the array and whether the line was found. *)
Fixpoint find_line (fuel : nat) (buf : blk ascii) (input : list ascii) : res (blk ascii * bool) :=
  match input with
  | [] => Ok (buf, false)
  | _ :: _ =>
      match fuel with
      | O => NoFuel
      | S fuel =>
          let '(line, rest) := fgets (Z.to_nat (CPU_INFO_STR_LEN_MAX - 1)) input in
          let buf := store_line buf line in
          if is_mhz_line line then Ok (buf, true) else find_line fuel buf rest
      end
  end.

(** The [for] loop, for the rounds left: the index behind the first colon. It does
    not stop at the end of the string. *)
Fixpoint find_colon (rounds : nat) (buf : blk ascii) (i : Z) : res (option Z) :=
  match rounds with
  | O => Ok None
  | S rounds =>
      c ← rdc buf i;
      if bool_decide (c = colon) then Ok (Some (i + 1)) else find_colon rounds buf (i + 1)
  end.

(** The string at an index of the array. *)
Fixpoint string_in (cells : blk ascii) : res (list ascii) :=
  match cells with
  | Some c :: cells => if is_nul c then Ok [] else s ← string_in cells; Ok (c :: s)
  | _ => Undef
  end.

Section Float.
(** [sscanf("%f")], which may find no number, and [(unsigned long)(mhz * 1000)],
    which is undefined out of range. *)
Context {F : Type} (scan_float : list ascii -> option F) (khz : F -> res Z).

(** [main]: the number it prints. [file] is the contents of the file, [None] if it
    cannot be opened. On the paths that do not set [rc], returning it is undefined. *)
Definition cpukhz_main (file : option (list ascii)) : res Z :=
  match file with
  | None => Undef
  | Some input =>
      '(buf, found) ← find_line (length input) (malloc true CPU_INFO_STR_LEN_MAX) input;
      if negb found then Undef
      else
        offset_p ← find_colon (Z.to_nat CPU_INFO_STR_LEN_MAX) buf 0;
        match offset_p with
        | None => Undef
        | Some p =>
            s ← string_in (drop (Z.to_nat p) buf);
            match scan_float s with None => Undef | Some mhz => khz mhz end
        end
  end.

(** ** The line is found *)

Lemma find_line_stop fuel buf line rest :
  no_nl line -> (length line < 99)%nat -> is_mhz_line (line ++ [newline]) = true ->
  find_line (S fuel) buf (line ++ newline :: rest) = Ok (store_line buf (line ++ [newline]), true).
Proof.
  intros Hn Hl Hm. cbn [find_line]. rewrite (fgets_line _ line rest Hn) by (unfold CPU_INFO_STR_LEN_MAX; lia).
  rewrite Hm. by destruct line.
Qed.

Lemma find_line_skip fuel buf line rest :
  no_nl line -> (length line < 99)%nat -> is_mhz_line (line ++ [newline]) = false ->
  find_line (S fuel) buf (line ++ newline :: rest) =
  find_line fuel (store_line buf (line ++ [newline])) rest.
Proof.
  intros Hn Hl Hm. cbn [find_line]. rewrite (fgets_line _ line rest Hn) by (unfold CPU_INFO_STR_LEN_MAX; lia).
  rewrite Hm. by destruct line.
Qed.

(** A line that is not the one looked for, short enough for the array. *)
Definition other_line (line : list ascii) : Prop :=
  no_nl line /\ (length line < 99)%nat /\ is_mhz_line (line ++ [newline]) = false.

Definition text (lines : list (list ascii)) : list ascii := concat ((fun l => l ++ [newline]) <$> lines).

Lemma find_line_lines lines fuel buf line rest :
  Forall other_line lines -> no_nl line -> (length line < 99)%nat ->
  is_mhz_line (line ++ [newline]) = true -> (length lines < fuel)%nat ->
  exists buf', find_line fuel buf (text lines ++ line ++ newline :: rest) =
    Ok (store_line buf' (line ++ [newline]), true).
Proof.
  intros Hls Hn Hl Hm. revert fuel buf. induction Hls as [|l ls (H1 & H2 & H3) _ IH]; intros [|fuel] buf Hf;
    cbn [length] in Hf; try lia.
  - exists buf. by apply find_line_stop.
  - change (text (l :: ls)) with ((l ++ [newline]) ++ text ls). rewrite <- !app_assoc. cbn [app].
    rewrite find_line_skip by done. apply IH. lia.
Qed.

Lemma find_line_none lines fuel buf :
  Forall other_line lines -> (length lines <= fuel)%nat ->
  exists buf', find_line fuel buf (text lines) = Ok (buf', false).
Proof.
  intros Hls. revert fuel buf. induction Hls as [|l ls (H1 & H2 & H3) _ IH]; intros fuel buf Hf.
  - exists buf. by destruct fuel.
  - destruct fuel as [|fuel]; cbn [length] in Hf; [lia|].
    change (text (l :: ls)) with ((l ++ [newline]) ++ text ls). rewrite <- !app_assoc. cbn [app].
    rewrite find_line_skip by done. apply IH. lia.
Qed.

Lemma text_length lines : (length lines <= length (text lines))%nat.
Proof.
  induction lines as [|l ls IH]; [done|].
  change (text (l :: ls)) with ((l ++ [newline]) ++ text ls). rewrite !length_app. cbn. lia.
Qed.

Lemma find_colon_spec a pre tl rounds :
  Forall (fun c => c <> colon) a -> (length a < rounds)%nat ->
  find_colon rounds ((Some <$> pre ++ a ++ [colon]) ++ tl) (Z.of_nat (length pre)) =
    Ok (Some (Z.of_nat (length pre + length a + 1))).
Proof.
  intros Ha. revert pre rounds. induction Ha as [|c a Hc _ IH]; intros pre [|rounds] Hr;
    cbn [length] in Hr; try lia; cbn [find_colon].
  - rewrite (rdc_init _ _ _ colon) by
      (try lia; rewrite Nat2Z.id; by apply list_lookup_middle).
    rewrite bind_Ok, bool_decide_true by done. do 2 f_equal. cbn. lia.
  - rewrite (rdc_init _ _ _ c) by (try lia; rewrite Nat2Z.id; by apply list_lookup_middle).
    rewrite bind_Ok, bool_decide_false by done.
    specialize (IH (pre ++ [c]) rounds ltac:(lia)). rewrite <- app_assoc in IH. cbn [app] in IH.
    rewrite length_app in IH. cbn [length] in IH.
    replace (Z.of_nat (length pre + 1)) with (Z.of_nat (length pre) + 1) in IH by lia.
    change (pre ++ (c :: a) ++ [colon]) with (pre ++ c :: a ++ [colon]). rewrite IH. do 2 f_equal. cbn. lia.
Qed.

Lemma string_in_nul s tl : no_nul s -> string_in ((Some <$> s ++ [NUL]) ++ tl) = Ok s.
Proof.
  intros H%no_nul_forall. induction H as [|c s Hc _ IH]; [done|]. cbn.
  apply negb_true_iff in Hc. rewrite Hc. cbn in IH. by rewrite IH.
Qed.

(** The first line that begins with the words counts, if there is a colon on it and
    no line before it is too long for the array: the text behind its first colon
    is converted. A file without such a line makes [main] return a variable that was
    never set. *)
Theorem cpukhz_main_spec lines :
  Forall other_line lines ->
  cpukhz_main (Some (text lines)) = Undef /\
  (forall a v rest,
    let line := CPU_MHZ_STR ++ a ++ colon :: v in
    no_nl line -> no_nul v -> (length line < 99)%nat -> Forall (fun c => c <> colon) a ->
    cpukhz_main (Some (text lines ++ line ++ newline :: rest)) =
      match scan_float (v ++ [newline]) with None => Undef | Some mhz => khz mhz end).
Proof.
  intros Hls. pose proof (text_length lines) as Hlen. split.
  - unfold cpukhz_main.
    destruct (find_line_none lines _ (malloc true CPU_INFO_STR_LEN_MAX) Hls Hlen) as [buf ->]. done.
  - intros a v rest line Hn Hv Hl Ha. unfold cpukhz_main.
    destruct (find_line_lines lines (length (text lines ++ line ++ newline :: rest))
      (malloc true CPU_INFO_STR_LEN_MAX) line rest) as [buf ->]; try done.
    { rewrite !length_app. cbn [length]. lia. }
    rewrite bind_Ok. cbn [negb].
    assert (E : store_line buf (line ++ [newline]) =
      (Some <$> (CPU_MHZ_STR ++ a) ++ [colon]) ++ (Some <$> (v ++ [newline]) ++ [NUL]) ++
      drop (S (length (line ++ [newline]))) buf).
    { unfold store_line. rewrite (app_assoc (Some <$> _)), <- fmap_app. f_equal. f_equal.
      unfold line. rewrite <- !app_assoc. done. }
    rewrite E. clear E.
    rewrite (find_colon_spec (CPU_MHZ_STR ++ a) []).
    + rewrite bind_Ok, Nat2Z.id. cbn [length Nat.add].
      rewrite drop_app_length' by (rewrite length_fmap, !length_app; cbn; lia).
      rewrite string_in_nul, bind_Ok; [done|].
      unfold no_nul in *. rewrite elem_of_app, list_elem_of_singleton. by intros [|].
    + apply Forall_app. split; [|done]. apply (bool_decide_unpack _). vm_compute. exact I.
    + unfold line in Hl. rewrite !length_app in Hl. rewrite length_app. unfold CPU_INFO_STR_LEN_MAX. lia.
Qed.
End Float.

(** A conversion of whole numbers, to run the program on. *)
Example cpukhz_example :
  cpukhz_main (fun s => match scan_int 10 (skip_space s) with Some (v, _) => Some v | None => None end)
    (fun mhz => Ok (mhz * 1000))
    (Some (chars "model name : x" ++ newline :: chars "cpu MHz : 2394" ++ [newline])) = Ok 2394000.
Proof. vm_compute. reflexivity. Qed.

(** Behind a line without a colon the search goes on in what an earlier, longer line
    has left in the array. *)
Example cpukhz_stale :
  cpukhz_main (fun s => match scan_int 10 (skip_space s) with Some (v, _) => Some v | None => None end)
    (fun mhz => Ok (mhz * 1000))
    (Some (chars "bogomips and such : 4788" ++ newline :: chars "cpu MHz 2394" ++ [newline])) = Ok 4788000.
Proof. vm_compute. reflexivity. Qed.
