(* ===== verification/Arp.v ===== *)
(** * Adding an entry to the ARP table: src/arp_add.c

    [main] builds a request from its arguments and gives it to one ioctl. The
    conversions of the addresses, and what the system calls answer, are arguments. *)
From stdpp Require Import base list strings.
From Stdlib Require Import ZArith Lia Ascii.
From S2P Require Import Prelude Stdio.

Open Scope Z_scope.

Definition AF_INET : Z := 2.
Definition ATF_PERM : Z := 4.

(** [struct sockaddr]: 14 bytes of data; in a [sockaddr_in] they are the port, the
    address and padding. *)
Record sockaddr : Type := Sockaddr { sa_family : Z; sa_data : list Z }.

(** [struct arpreq]; the name of the device has 16 characters. *)
Record arpreq : Type := Arpreq {
  arp_pa : sockaddr;
  arp_ha : sockaddr;
  arp_flags : Z;
  arp_netmask : sockaddr;
  arp_dev : list ascii;
}.

(** [memset(..., 0, ...)]. *)
Definition sockaddr0 : sockaddr := Sockaddr 0 (replicate 14 0).
Definition arpreq0 : arpreq := Arpreq sockaddr0 sockaddr0 0 sockaddr0 (replicate 16 NUL).

(** [memcpy] into the data, from [off]. *)
Definition put_data (off : nat) (bs : list Z) (a : sockaddr) : sockaddr :=
  Sockaddr (sa_family a) (take off (sa_data a) ++ bs ++ drop (off + length bs) (sa_data a)).

(** [strcpy] into an array: the string and its NUL must fit. *)
Definition strcpy (dst src : list ascii) : res (list ascii) :=
  ub_unless (Nat.ltb (length src) (length dst)) (Ok (src ++ NUL :: drop (S (length src)) dst)).

(** How [main] ends. *)
Inductive arp_exit : Type :=
| ArpUsage                               (* status 0 *)
| ArpNoSocket                            (* status 1 *)
| ArpNoMac                               (* status -1 *)
| ArpDone (r : arpreq) (success : bool). (* what is printed; status 0 *)

Definition exit_status (e : arp_exit) : Z :=
  match e with ArpUsage => 0 | ArpNoSocket => 1 | ArpNoMac => -1 | ArpDone _ _ => 0 end.

Section Main.
(** [inet_addr], its result a 32-bit word in network order, all ones if the text is
    no address; [ether_aton], its result the six bytes; the result of the ioctl. *)
Context (inet_addr : list ascii -> Z) (ether_aton : list ascii -> option (list Z)) (ioctl : arpreq -> Z).

Definition arp_main (socket : Z) (args : list (list ascii)) : res arp_exit :=
  match args with
  | ip :: eaddr :: rest =>
      let eth_dev := match rest with eth_dev :: _ => eth_dev | [] => [] end in
      if socket <? 0 then Ok ArpNoSocket
      else
        let sin := Sockaddr AF_INET (sa_data sockaddr0) in
        let sin := put_data 2 (le_bytes (inet_addr ip)) sin in
        match ether_aton eaddr with
        | None => Ok ArpNoMac
        | Some eth_addr =>
            let ha := put_data 0 eth_addr sockaddr0 in
            dev ← strcpy (arp_dev arpreq0) eth_dev;
            let r := Arpreq sin ha ATF_PERM sockaddr0 dev in
            Ok (ArpDone r (0 <=? ioctl r))
        end
  | _ => Ok ArpUsage
  end.

(** A name of fewer than 16 characters is copied and the request is the addresses at
    their places, zeros elsewhere; a longer one is written beyond the request. *)
Theorem arp_main_spec socket ip eaddr mac dev :
  0 <= socket -> ether_aton eaddr = Some mac -> length mac = 6%nat ->
  arp_main socket [ip; eaddr; dev] =
    if (length dev <? 16)%nat then
      let r := Arpreq (Sockaddr AF_INET ([0; 0] ++ le_bytes (inet_addr ip) ++ replicate 8 0))
                 (Sockaddr 0 (mac ++ replicate 8 0)) ATF_PERM sockaddr0
                 (dev ++ replicate (16 - length dev) NUL) in
      Ok (ArpDone r (0 <=? ioctl r))
    else Undef.
Proof.
  intros Hs Hm Hl. unfold arp_main. rewrite (proj2 (Z.ltb_ge _ _)) by done. rewrite Hm.
  unfold strcpy, put_data. cbn [arpreq0 arp_dev sa_data sockaddr0 sa_family]. rewrite length_replicate.
  destruct (Nat.ltb_spec (length dev) 16) as [Hd|Hd]; [|done].
  cbn [ub_unless]. rewrite bind_Ok, !drop_replicate, Hl.
  assert (E : dev ++ NUL :: replicate (16 - S (length dev)) NUL = dev ++ replicate (16 - length dev) NUL).
  { f_equal. by replace (16 - length dev)%nat with (S (16 - S (length dev))) by lia. }
  by rewrite E.
Qed.

(** A text that is no address is not noticed: the entry is for 255.255.255.255. *)
Lemma arp_main_bad_ip socket ip eaddr dev r success :
  inet_addr ip = 2 ^ 32 - 1 -> arp_main socket [ip; eaddr; dev] = Ok (ArpDone r success) ->
  take 4 (drop 2 (sa_data (arp_pa r))) = [255; 255; 255; 255].
Proof.
  intros Hi H. unfold arp_main in H. rewrite Hi in H. destruct (socket <? 0); [done|].
  destruct (ether_aton eaddr); [|done]. apply bind_Ok_inv in H as (d & _ & [= <- _]). done.
Qed.
End Main.
